(* ===== verification/_CoqProject ===== *)
-Q . S2P
Prelude.v
RustStr.v
RustFloat.v
Net.v
External.v
RelayRoutes.v
RelayGeo.v
Messages.v
RelaySelect.v
Panel.v
GeoUpdate.v
RateLimit.v
Guards.v
PeerStore.v
Jwt.v
Settings.v
Common.v
DbOpen.v
KeyFiles.v
KeyFacts.v
KeyWitnesses.v
GeoOpen.v
Utils.v
Rendezvous.v
RegRace.v
HandlerLogic.v
RendezvousFacts.v
Directory.v
RoutingFacts.v
Connection.v
RoundTrip.v
PunchRace.v
ConnectionFacts.v
Console.v
Hbbs.v
HbbsFacts.v
RelayServer.v
RelayFacts.v
Hbbr.v
EndToEnd.v
RendezvousWitnesses.v
EndToEndWitnesses.v
RelayWitnesses.v
Conformance.v
