(* ===== verification/Prelude.v ===== *)
(** * A model of rustdesk-server

    rustdesk-server is two programs that let two remote-desktop clients find and reach
    each other.  The rendezvous server (hbbs, [src/src/rendezvous_server.rs]) keeps the
    register of devices, forwards punch-hole and relay requests between them and tells
    them which relay to use.  The relay server (hbbr, [src/src/relay_server.rs]) copies
    bytes between two clients that cannot reach each other directly.

    ** The parts and where they are modelled

    - [RustStr], [RustFloat], [Net]: what the sources use of Rust's strings, of [f64]
      (IEEE double precision through Stdlib's [SpecFloat]) and of [std::net].
    - [External]: what is used of code that is not in this repository, as classes of
      operations with the laws relied on: [hbb_common] (address mangling, [try_into_v4],
      the relay port), [ipnetwork], [sodiumoxide] with [hbb_common]'s [Encrypt].
      Further classes stand next to their only user: [FloatTrig] and [MaxMind] in
      [RelayGeo], [InfoJson] in [PeerStore], [SqliteLib] in [DbOpen], [JwtLib] in
      [Jwt], [KeyLib] and [TempFileLib] in [KeyFiles], [WindowsLib] in [Panel],
      [RendezvousProto] (the generated protocol code) in [Rendezvous].
    - [RelayRoutes] ([relay_routes.rs]): the relay list, the routing table, the choice of
      the cheapest relay.
    - [RelayGeo] ([relay_geo.rs]): relay locations, great-circle distances, costs.
    - [Messages]: the texts of what the two parsers refuse.
    - [RelaySelect] ([relay_select.rs]): the selector, [Selector] being [RelaySelector]:
      round robin, held choices, preferred relay, reloading of the three files, console.
    - [RateLimit] and [Guards] (the guards of [rendezvous_server.rs] with the constants of
      [peer.rs]): the burst counters, [check_ip_blocker], the record of address changes,
      the log of punch-hole requests.
    - [PeerStore] ([peer.rs], [database.rs]): the peer table with its constraints, the map
      of peers as shared cells on a heap, each operation of [PeerMap], and [get] and
      [get_or] once more as steps that interleave; [DbOpen]: opening the database.
    - [Jwt] ([jwt.rs]): login tokens.
    - [Settings] ([common.rs], [main.rs], [hbbr.rs]): arguments and where they come from, the
      two entry points, ports and bind addresses; [Common]: signals, listeners that may be
      missing, the daily check for a newer version.
    - [KeyFiles] ([common.rs]): the server's key pair on disk, down to the system calls, with
      failures and other processes in between; [KeyFacts] its proof rules and theorems,
      [KeyWitnesses] concrete files.
    - [GeoUpdate] ([geo_update.rs]): the monthly download of the GeoIP database; [GeoOpen]
      ([open_mapped] of [relay_geo.rs]): mapping a private copy of it, on the files of
      [KeyFiles].
    - [Utils] ([utils.rs]): the command-line tool.
    - [Rendezvous]: the state [Server] behind [RendezvousServer] and the process-wide
      tables, and its handlers as programs of a state-and-effects monad: [handle_udp],
      [handle_tcp] and all they reach; [RegRace]: registrations and look-ups as steps
      between their locks and their waits for the database, any number of them interleaved;
      [PunchRace]: punch-hole requests the same way, with anything else happening to the server
      in between.  A connection's task works on the copy of the configuration it was accepted
      with ([as_task]).
    - [Connection]: the TCP loop with its key exchange, the websocket loop with its
      registry guard, and a system of many websocket connections.
    - [Console]: the relay health check, the timer and the console of hbbs.
    - [Hbbs]: hbbs as a process: start-up, sockets and their reopening, the main loop, the
      tasks of its connections, the watchdog that probes it, the signal that stops it;
      [HbbsFacts] its theorems.
    - [RelayServer] ([relay_server.rs]): hbbr as tasks whose steps interleave: accepting,
      pairing, the copying loop with its limits and measurements, the settings, the lists
      and the console; [Hbbr]: its process with the listeners and the restart of its loop.
    - [Panel] ([src/ui/src]): the Windows service panel: presenter, view, watcher and
      services over two bounded channels.
    - [HandlerLogic]: the proof rules for the handlers' monad; [RendezvousFacts],
      [RoutingFacts], [ConnectionFacts], [RelayFacts]: the theorems; [RendezvousWitnesses],
      [RelayWitnesses] and [EndToEndWitnesses]: the theorems at concrete servers, and the
      behaviours that look unintended, shown by evaluation.
    - [Directory]: what the register promises, as an abstract directory of ids in use and on
      disk, and the proof that the server with its peer map and database refines it;
      [RoundTrip]: a request, whatever comes in between, and its answer, as one property;
      [EndToEnd]: a relayed session through hbbs and hbbr, from the key files they share to
      the frames they copy.
    - [Conformance]: the unit tests of the sources, assertion by assertion, evaluated on the
      model.

    The parts meet as in the program: [Rendezvous] calls [PeerStore] for the register,
    [Guards] before a registration, [Jwt] before a punch-hole request and [RelaySelect]
    for the relay named in an answer; [RelaySelect] calls [RelayRoutes] and [RelayGeo];
    [Connection] drives [Rendezvous] frame by frame; [Console] acts on all of them; [Hbbs]
    runs them as one process from what [Settings] yields.  hbbr shares with hbbs the
    protocol, the settings and the key files.

    ** State, effects, time

    Integers are [Z] with the wrap-around written out where the code can reach it.
    Strings and byte vectors are [string]; the model is exact on ASCII text, which is what
    trimming, upper-casing and splitting are applied to.  A handler of hbbs runs from its
    message to its end without interruption at one reading of the clock, also in
    [Connection.sys_step] and [Hbbs.proc_step], whose events come in any order, one after the
    other; so does a pick of the selector.  Where handlers can overlap in the code and it
    matters, they are modelled a second time as stretches between their locks and waits that
    interleave: [PeerStore.Task] for look-ups, [RegRace.reg_sched] for registrations and
    look-ups, [PunchRace.punch_sched] for punch-hole requests; what such overlaps can break is
    shown by [RegRace.race_locks_both_out], [RegRace.overlapping_registrations_escape_the_limit]
    and [RelaySelect.overlapping_picks_differ].  The tasks of hbbr and of the panel interleave
    step by step ([RelayServer.step], [Panel.panel_step]).  The configuration files of the selector are seen through the result
    of reading them ([FsView]); key files and the GeoIP copy are modelled call by call, with
    names, links and inodes.  Log lines are not modelled, console answers are structured
    lines instead of text.  Every loop is over a list (lines, frames, events, turns, reads)
    or over the structure of its input, so every definition is total; fuel is used once, to
    print a double: the search for its shortest decimal starts 309 places before the point
    and goes on for 1000, and the last of the at most 17 digits a double needs is some 340
    places after it;
    following links is bounded by 40, as in the code and in Linux; a loop that waits for the
    network is given the list of what arrives, and theorems about it quantify over all such
    lists.

    ** What is shown

    - Register: an id belongs to the device that registered it, over any sequence of
      messages on any transport; the server refines a directory in which a message claims at
      most the id it asks for, so that an id on disk never changes hands, through restarts
      and failing writes; registrations that are handled one after the other are rate limited
      per id and per address; a registration that was answered with success is found after a restart; concurrent
      look-ups share one cell; a record that is a device's stays that device's under every
      interleaving of later registrations and look-ups.
    - Requests: a punch-hole request is forwarded exactly when the key, the login and the
      peer's registration allow it; UDP answers go to the sender alone; the online bitmap
      is right bit by bit; configuration changes only from the machine itself; a
      punch-hole or relay request goes to the registry's open websocket under the peer's
      address or else there by UDP, and its answer comes back to the connection that asked,
      while that lasts and nobody else speaks for its address.  However requests
      overlap, each ends after at most nine stretches of its own and passes on or refuses only
      what the server's state at those stretches bears out; uninterrupted it is the handler.
    - Connections: no plain text after the key exchange; the websocket registry never
      points to a connection that has ended.
    - Relay choice: longest-prefix lookup, the earliest cheapest healthy relay, one relay
      for one attempt while nothing drops the held choice, fairness of the rotation, a bad file changes nothing, accepted
      files are well formed, the preferred relay survives a restart.
    - Relay server: the two ends of a session that come one after the other find each other; bytes pass only between two
      connections that presented the same session and the key, each connection having at most
      one partner in its life; frames are copied unchanged and in order; reports are
      consistent; a session ends and is slowed down exactly for the stated reasons.
    - Both servers: a session asked for at hbbs comes about at hbbr, with one key and one uuid.
    - Tokens, guards, the health check: acceptance exactly until expiry, bounds of every
      table, expiry of blocks, order kept.
    - Key files: a private key that is being made is at no moment readable by others, whatever
      they do to names and links; nothing that exists is overwritten; where no other process
      acts, [gen_sk] refines a store that holds at most one key pair; both servers and later
      starts get the same key; links are followed a bounded number of times.
    - GeoIP database: it is never half written, whatever fails; a copy is mapped unless none can
      be made, and once its name is removed it never changes, whatever other processes do by
      any name; month labels order like months.
    - Settings: which source of an argument wins; the ports of the two programs.
    - Processes: hbbs keeps the invariants of all its parts over every sequence of events, each
      handled to its end, and listens where its settings say through every failure of a socket,
      until a socket is refused, the watchdog gives up or a signal comes; every number hbbr keeps stays in its type.
    - The panel shows the state and the file its presenter told it last, and its channels
      stay within their bounds; that it can freeze is shown as well.
    - The model answers the repository's own unit tests as the code does.

    Bounds appear as hypotheses only where the machine's integers make them necessary: a
    session of less than 2^64 bits and 2^64 milliseconds in [RelayFacts], a rotation
    counter below 2^64 less the number of picks in [RelaySelect].

    ** What is not modelled

    Sockets, timers, DNS look-ups, the websocket and TLS handshakes, the HTTP
    client, the decompressor and the database driver themselves (tokio, tungstenite, reqwest,
    flate2, sqlx): what they return is an argument or an event.  The
    declaration of the command line (clap) and the drawing of the panel.  Code built only
    for Windows, apart from the panel.  The bandwidth limiter of hbbr is a library that
    delays: its calls are effects.  The handlers other than
    registration, look-up and punch-hole requests (relay requests, heartbeats and the peer's
    answers, which look up one peer at most) run without interruption.  Imports,
    module lists, the texts of the console's help and of log lines are not code a theorem
    could be about.

    This file: results, machine integers, time, sorting, tactics and the lemmas on lists,
    options, integers and time that the components share. *)

From stdpp Require Export prelude gmap strings list sorting pretty.
From Stdlib Require Export ZArith Lia.

#[global] Set Default Goal Selector "!".

(** ** Results

    Rust's [Result<A, E>]: a fallible function returns [Ok a] or [Err e]. *)

Inductive result (E A : Type) : Type :=
| Ok (a : A)
| Err (e : E).
Arguments Ok {E A} a.
Arguments Err {E A} e.

Declare Scope rust_scope.
Delimit Scope rust_scope with rust.
#[global] Open Scope rust_scope.

(** [let? x := m in k] is Rust's [let x = m?; k]. *)
Notation "'let?' x := m 'in' k" :=
  (match m with Ok x => k | Err err => Err err end)
  (at level 10, x pattern, m at level 100, k at level 200,
   format "'let?'  x  :=  m  'in' '//' k") : rust_scope.

(** [let! x := m in k] is Rust's [let x = m?; k] in a function returning an
    [Option], and [let Some(x) = m else { return None }]. *)
Notation "'let!' x := m 'in' k" :=
  (match m with Some x => k | None => None end)
  (at level 10, x pattern, m at level 100, k at level 200,
   format "'let!'  x  :=  m  'in' '//' k") : rust_scope.

Definition is_ok {E A} (r : result E A) : bool :=
  match r with Ok _ => true | Err _ => false end.

(** [Result::unwrap_or]. *)
Definition unwrap_or {E A} (d : A) (r : result E A) : A :=
  match r with Ok a => a | Err _ => d end.

Definition ok_or {E A} (o : option A) (e : E) : result E A :=
  match o with Some a => Ok a | None => Err e end.

(** [Result::ok]. *)
Definition result_ok {E A} (r : result E A) : option A :=
  match r with Ok a => Some a | Err _ => None end.

Definition map_err {E F A} (f : E -> F) (r : result E A) : result F A :=
  match r with Ok a => Ok a | Err e => Err (f e) end.

(** ** Machine integers

    A [u32], [u64], [usize] or [i32] is a [Z]; the operations that can leave the
    range say what the code does there. *)

Definition u16_max : Z := (2 ^ 16 - 1)%Z.
Definition u32_max : Z := (2 ^ 32 - 1)%Z.
Definition u64_max : Z := (2 ^ 64 - 1)%Z.
Definition wrap64 (z : Z) : Z := (z mod 2 ^ 64)%Z.

(** ** Time

    An [Instant] is a number of nanoseconds on the monotonic clock;
    [elapsed] saturates at zero, as [Instant::elapsed] does. *)

Abbreviation Instant := Z (only parsing).
Definition NANOS_PER_SEC : Z := 1000000000.
Definition NANOS_PER_MILLI : Z := 1000000.
Definition elapsed (now t : Instant) : Z := Z.max 0 (now - t).
Definition elapsed_secs (now t : Instant) : Z := elapsed now t / NANOS_PER_SEC.
Definition elapsed_millis (now t : Instant) : Z := elapsed now t / NANOS_PER_MILLI.

(** ** Stable sorting

    [slice::sort_by_key] and [sort_by] are stable; an insertion sort that puts an
    element before the first one it is not greater than computes the same list. *)

Section StableSort.
  Context {A : Type} (leb : A -> A -> bool).

Fixpoint insert_sorted (x : A) (l : list A) : list A :=
  match l with
  | [] => [x]
  | y :: l' => if leb x y then x :: y :: l' else y :: insert_sorted x l'
  end.

Fixpoint sort_by (l : list A) : list A :=
  match l with
  | [] => []
  | x :: l' => insert_sorted x (sort_by l')
  end.

End StableSort.

(** ** Tactics *)

(** Split every [match] and [if] of the goal or of a hypothesis, recording the
    equation, and discharge the contradictory branches. *)
Ltac split_match :=
  repeat (case_match; simplify_eq/=; try done).

(** Case analysis on one boolean test with its equation kept in a usable form. *)
Ltac split_bool b :=
  let E := fresh "E" in destruct b eqn:E; simplify_eq/=.

(** Unfold the clock. *)
Ltac unfold_time :=
  unfold elapsed_secs, elapsed_millis, elapsed, NANOS_PER_SEC, NANOS_PER_MILLI in *.

Create HintDb rust discriminated.
#[export] Hint Constants Transparent : rust.

(** ** Lists *)

Section SortFacts.
  Context {A : Type} (leb : A -> A -> bool).

Lemma insert_sorted_perm (x : A) (l : list A) :
  insert_sorted leb x l ≡ₚ x :: l.
Proof.
  induction l as [|y l IH]; simpl; [done|].
  destruct (leb x y); [done|]. rewrite IH. apply perm_swap.
Qed.

Lemma sort_by_perm (l : list A) : sort_by leb l ≡ₚ l.
Proof.
  induction l as [|x l IH]; simpl; [done|].
  by rewrite insert_sorted_perm, IH.
Qed.

Lemma length_sort_by (l : list A) : length (sort_by leb l) = length l.
Proof. by rewrite sort_by_perm. Qed.

Lemma elem_of_sort_by (x : A) (l : list A) : x ∈ sort_by leb l ↔ x ∈ l.
Proof. by rewrite sort_by_perm. Qed.

  Context (leb_trans : forall x y z, leb x y = true -> leb y z = true -> leb x z = true).
  Context (leb_total : forall x y, leb x y = false -> leb y x = true).

Lemma insert_sorted_sorted (x : A) (l : list A) :
  StronglySorted (fun a b => leb a b = true) l ->
  StronglySorted (fun a b => leb a b = true) (insert_sorted leb x l).
Proof.
  induction 1 as [|y l Hs IH Hy]; simpl; [by repeat constructor|].
  destruct (leb x y) eqn:E.
  - constructor; [by constructor|]. constructor; [done|].
    eapply Forall_impl; [exact Hy|]. eauto.
  - constructor; [done|].
    rewrite Forall_forall in *. intros z.
    rewrite insert_sorted_perm, elem_of_cons. intros [->|Hz]; eauto.
Qed.

Lemma sort_by_sorted (l : list A) :
  StronglySorted (fun a b => leb a b = true) (sort_by leb l).
Proof. induction l; simpl; [constructor|by apply insert_sorted_sorted]. Qed.

End SortFacts.

Lemma StronglySorted_impl {A} (R S : A -> A -> Prop) (l : list A) :
  (forall x y, R x y -> S x y) -> StronglySorted R l -> StronglySorted S l.
Proof.
  intros HRS. induction 1 as [|x l _ IH Hx]; constructor; [done|].
  eapply Forall_impl; eauto.
Qed.

(** A sorted permutation of a list is unique when the order separates elements. *)
Lemma sorted_perm_unique {A} (R : A -> A -> Prop) (l1 l2 : list A) :
  (forall x y, x ∈ l1 -> y ∈ l1 -> R x y -> R y x -> x = y) ->
  StronglySorted R l1 -> StronglySorted R l2 -> l1 ≡ₚ l2 -> l1 = l2.
Proof.
  intros Hanti H1. revert l2 Hanti.
  induction H1 as [|x l1 Hs1 IH Hx]; intros l2 Hanti Hs2 Hp.
  { by apply Permutation_nil_l in Hp. }
  destruct Hs2 as [|y l2 Hs2 Hy]; [by apply Permutation_nil_r in Hp|].
  assert (x = y) as ->.
  { assert (Hyx : y ∈ x :: l1) by (rewrite Hp; left).
    assert (Hxy : x ∈ y :: l2) by (rewrite <- Hp; left).
    apply elem_of_cons in Hyx as [->|Hyx]; [done|].
    apply elem_of_cons in Hxy as [->|Hxy]; [done|].
    rewrite Forall_forall in Hx, Hy.
    apply Hanti; [left|by right|by apply Hx|by apply Hy]. }
  f_equal. apply Permutation_cons_inv in Hp.
  apply IH; [|done|done]. intros; apply Hanti; [by right|by right|done|done].
Qed.

(** [Iterator::find] gives the first match, so it stops no later than any match. *)
Lemma find_stops_before {A} (p : A -> bool) (l : list A) (k : nat) (x : A) :
  l !! k = Some x -> p x = true ->
  exists j y, List.find p l = Some y /\ l !! j = Some y /\ j <= k.
Proof.
  revert k. induction l as [|y l IH]; intros k Hk Hp; [done|]. simpl.
  destruct (p y) eqn:E.
  { exists 0, y. split; [done|]. split; [done|]. lia. }
  destruct k as [|k]; simpl in Hk; [congruence|].
  destruct (IH k Hk Hp) as (j & z & Hf & Hz & Hj). exists (S j), z.
  split; [done|]. split; [done|]. lia.
Qed.

(** ** Options and results *)

Lemma ok_or_Ok {E A} (o : option A) (e : E) (a : A) :
  ok_or o e = Ok a <-> o = Some a.
Proof. destruct o; simpl; split; congruence. Qed.

Lemma is_ok_unwrap {E A} (d : A) (r : result E A) :
  is_ok r = true -> r = Ok (unwrap_or d r).
Proof. by destruct r. Qed.

Lemma map_err_Ok {E F A} (f : E -> F) (r : result E A) (a : A) :
  map_err f r = Ok a <-> r = Ok a.
Proof. destruct r; simpl; split; congruence. Qed.

(** ** Integers *)

Lemma wrap64_small (z : Z) : (0 <= z < 2 ^ 64 -> wrap64 z = z)%Z.
Proof. apply Z.mod_small. Qed.

(** ** Time *)

Lemma elapsed_secs_gt (now t n : Z) :
  (0 <= n -> n < elapsed_secs now t <-> (n + 1) * NANOS_PER_SEC <= now - t)%Z.
Proof.
  intros Hn. unfold_time.
  pose proof (Z.div_mod (Z.max 0 (now - t)%Z) 1000000000).
  pose proof (Z.mod_pos_bound (Z.max 0 (now - t)%Z) 1000000000). lia.
Qed.

Lemma elapsed_secs_nonneg (now t : Z) : (0 <= elapsed_secs now t)%Z.
Proof. unfold_time. apply Z.div_pos; lia. Qed.

Lemma elapsed_millis_lt (now t n : Z) :
  (0 < n -> elapsed_millis now t < n <-> now - t < n * NANOS_PER_MILLI)%Z.
Proof.
  intros Hn. unfold_time.
  pose proof (Z.div_mod (Z.max 0 (now - t)%Z) 1000000).
  pose proof (Z.mod_pos_bound (Z.max 0 (now - t)%Z) 1000000). lia.
Qed.
