(* ===== verification/RustStr.v ===== *)
(** * The part of Rust's [str] the server uses

    Text is a byte string ([string], one [ascii] per byte), so [str::len] is
    [String.length].  White space, case and digits are those of ASCII: the relay
    lists, routing tables, addresses and commands the server reads are ASCII text.
    Each definition is named after the standard-library method it stands for. *)

From S2P Require Import Prelude.
From Stdlib Require Import Ascii.

Local Open Scope Z_scope.

(** ** Characters *)

Definition is_ws (c : ascii) : bool := Ascii.is_space c.

(** Strings that a source literal cannot spell here. *)
Definition LF : ascii := "010"%char.
Definition CR : ascii := "013"%char.
Definition DQUOTE : ascii := "034"%char.

Definition byte_val (c : ascii) : Z := Z.of_N (N_of_ascii c).

Definition is_ascii_digit (c : ascii) : bool :=
  (48 <=? byte_val c) && (byte_val c <=? 57).

Definition digit_val (c : ascii) : Z := byte_val c - 48.

Definition ascii_lower (c : ascii) : ascii :=
  if (65 <=? byte_val c) && (byte_val c <=? 90)
  then ascii_of_N (Z.to_N (byte_val c + 32)) else c.

Definition ascii_upper (c : ascii) : ascii :=
  if (97 <=? byte_val c) && (byte_val c <=? 122)
  then ascii_of_N (Z.to_N (byte_val c - 32)) else c.

(** ** Whole-string functions *)

Fixpoint str_map (f : ascii -> ascii) (s : string) : string :=
  match s with
  | "" => ""
  | String c s' => String (f c) (str_map f s')
  end.

Definition to_lowercase : string -> string := str_map ascii_lower.
Definition to_uppercase : string -> string := str_map ascii_upper.

(** [str::replace] of one character by another. *)
Definition replace_char (from to : ascii) : string -> string :=
  str_map (fun c => if decide (c = from) then to else c).

Fixpoint str_exists (p : ascii -> bool) (s : string) : bool :=
  match s with
  | "" => false
  | String c s' => p c || str_exists p s'
  end.

Definition str_forall (p : ascii -> bool) (s : string) : bool :=
  negb (str_exists (fun c => negb (p c)) s).

(** [str::contains] with a character, and [str::matches(c).count()]. *)
Definition contains_char (c : ascii) : string -> bool :=
  str_exists (fun x => bool_decide (x = c)).

Fixpoint count_char (c : ascii) (s : string) : nat :=
  match s with
  | "" => 0%nat
  | String x s' => if decide (x = c) then S (count_char c s') else count_char c s'
  end.

(** [str::strip_prefix] and [starts_with]. *)
Fixpoint strip_prefix (p s : string) : option string :=
  match p, s with
  | "", _ => Some s
  | String a p', String b s' => if decide (a = b) then strip_prefix p' s' else None
  | String _ _, "" => None
  end.

Definition starts_with (p s : string) : bool :=
  match strip_prefix p s with Some _ => true | None => false end.

(** [str::contains] with a string pattern. *)
Fixpoint contains_str (p s : string) : bool :=
  starts_with p s || match s with "" => false | String _ s' => contains_str p s' end.

(** ** Trimming *)

Fixpoint trim_start (s : string) : string :=
  match s with
  | "" => ""
  | String c s' => if is_ws c then trim_start s' else s
  end.

Fixpoint trim_end (s : string) : string :=
  match s with
  | "" => ""
  | String c s' =>
      match trim_end s' with
      | "" => if is_ws c then "" else String c ""
      | t => String c t
      end
  end.

Definition trim (s : string) : string := trim_end (trim_start s).

(** ** Splitting *)

(** [str::split] with a character predicate: at least one piece, and one more
    than there are separators. *)
Fixpoint split_by (p : ascii -> bool) (s : string) : list string :=
  match s with
  | "" => [""]
  | String c s' =>
      if p c then "" :: split_by p s'
      else match split_by p s' with
           | [] => [String c ""]
           | w :: ws => String c w :: ws
           end
  end.

Definition split_on (c : ascii) : string -> list string :=
  split_by (fun x => bool_decide (x = c)).

(** The first piece of a split: [split(c).next()]. *)
Definition split_first (c : ascii) (s : string) : string :=
  default "" (head (split_on c s)).

Definition str_nonempty (s : string) : bool :=
  match s with "" => false | _ => true end.

Definition str_is_empty (s : string) : bool := negb (str_nonempty s).

Definition split_whitespace (s : string) : list string :=
  List.filter str_nonempty (split_by is_ws s).

(** [str::split_once] with a character predicate, and [rsplit_once]. *)
Fixpoint split_once_by (p : ascii -> bool) (s : string) : option (string * string) :=
  match s with
  | "" => None
  | String c s' =>
      if p c then Some ("", s')
      else let! (a, b) := split_once_by p s' in Some (String c a, b)
  end.

Definition split_once (c : ascii) : string -> option (string * string) :=
  split_once_by (fun x => bool_decide (x = c)).

Fixpoint rsplit_once (c : ascii) (s : string) : option (string * string) :=
  match s with
  | "" => None
  | String x s' =>
      match rsplit_once c s' with
      | Some (a, b) => Some (String x a, b)
      | None => if decide (x = c) then Some ("", s') else None
      end
  end.

(** A trailing carriage return, as [str::lines] removes it. *)
Fixpoint strip_cr (s : string) : string :=
  match s with
  | "" => ""
  | String c "" => if decide (c = CR) then "" else s
  | String c s' => String c (strip_cr s')
  end.

(** [str::lines]: the text cut at each line feed, a carriage return before it
    dropped, and no final empty line. *)
Fixpoint lines_of (pieces : list string) : list string :=
  match pieces with
  | [] => []
  | [last] => if str_nonempty last then [last] else []
  | l :: rest => strip_cr l :: lines_of rest
  end.

Definition lines (s : string) : list string := lines_of (split_on LF s).

(** ** Numbers *)

Fixpoint digits_val (acc : Z) (s : string) : option Z :=
  match s with
  | "" => Some acc
  | String c s' =>
      if is_ascii_digit c then digits_val (10 * acc + digit_val c) s' else None
  end.

(** One or more decimal digits. *)
Definition parse_digits (s : string) : option Z :=
  if str_nonempty s then digits_val 0 s else None.

(** [str::parse] at an unsigned type: an optional [+], digits, and no value above
    [max]. *)
Definition parse_unsigned (max : Z) (s : string) : option Z :=
  let body := default s (strip_prefix "+" s) in
  let! v := parse_digits body in
  if v <=? max then Some v else None.

Definition parse_u16 : string -> option Z := parse_unsigned u16_max.
Definition parse_u64 : string -> option Z := parse_unsigned u64_max.
Definition parse_usize : string -> option Z := parse_unsigned u64_max.

Definition parse_i32 (s : string) : option Z :=
  match strip_prefix "-" s with
  | Some body =>
      let! v := parse_digits body in if v <=? 2 ^ 31 then Some (- v) else None
  | None => parse_unsigned (2 ^ 31 - 1) s
  end.

(** [Display] of an integer. *)
Definition show_Z (z : Z) : string := pretty z.

(** [[T]::join]. *)
Fixpoint join (sep : string) (l : list string) : string :=
  match l with
  | [] => ""
  | [s] => s
  | s :: l' => s +:+ sep +:+ join sep l'
  end.

(** ** Facts *)

(** A property of every character, by evaluation on the 256 of them. *)
Ltac all_ascii c := destruct c as [[] [] [] [] [] [] [] []]; vm_compute; done.

Lemma str_app_cons (c : ascii) (s t : string) : String c s +:+ t = String c (s +:+ t).
Proof. done. Qed.

Lemma str_app_nil_r (s : string) : s +:+ "" = s.
Proof. induction s as [|c s IH]; [done|]. by rewrite str_app_cons, IH. Qed.

Lemma str_app_assoc (s t u : string) : (s +:+ t) +:+ u = s +:+ t +:+ u.
Proof. induction s as [|c s IH]; [done|]. rewrite !str_app_cons. by f_equal. Qed.

Lemma is_ws_lower (c : ascii) : is_ws (ascii_lower c) = is_ws c.
Proof. all_ascii c. Qed.

Lemma ascii_lower_idemp (c : ascii) : ascii_lower (ascii_lower c) = ascii_lower c.
Proof. all_ascii c. Qed.

Lemma ascii_lower_colon (c : ascii) :
  bool_decide (ascii_lower c = ":"%char) = bool_decide (c = ":"%char).
Proof. all_ascii c. Qed.

Lemma str_map_idemp f (s : string) :
  (forall c, f (f c) = f c) -> str_map f (str_map f s) = str_map f s.
Proof. intros Hf. induction s as [|c s IH]; simpl; [done|]. by rewrite Hf, IH. Qed.

Lemma to_lowercase_idemp (s : string) : to_lowercase (to_lowercase s) = to_lowercase s.
Proof. apply str_map_idemp, ascii_lower_idemp. Qed.

Lemma str_map_app f (s t : string) :
  str_map f (s +:+ t) = str_map f s +:+ str_map f t.
Proof. induction s as [|c s IH]; [done|]. rewrite str_app_cons. simpl. by rewrite IH. Qed.

Lemma str_exists_map p f (s : string) :
  str_exists p (str_map f s) = str_exists (fun c => p (f c)) s.
Proof. induction s as [|c s IH]; simpl; [done|]. by rewrite IH. Qed.

Lemma str_exists_ext p q (s : string) :
  (forall c, p c = q c) -> str_exists p s = str_exists q s.
Proof. intros Hpq. induction s as [|c s IH]; simpl; [done|]. by rewrite Hpq, IH. Qed.

Lemma str_exists_app p (s t : string) :
  str_exists p (s +:+ t) = str_exists p s || str_exists p t.
Proof. induction s as [|c s IH]; [done|]. rewrite str_app_cons. simpl. by rewrite IH, orb_assoc. Qed.

Lemma contains_colon_lower (s : string) :
  contains_char ":" (to_lowercase s) = contains_char ":" s.
Proof.
  unfold contains_char, to_lowercase. rewrite str_exists_map.
  apply str_exists_ext, ascii_lower_colon.
Qed.

(** *** Trimming *)

(** A string with no white space at either end; [trim] produces one and leaves
    one alone. *)
Definition starts_black (s : string) : bool :=
  match s with "" => true | String c _ => negb (is_ws c) end.

Fixpoint ends_black (s : string) : bool :=
  match s with
  | "" => true
  | String c "" => negb (is_ws c)
  | String _ s' => ends_black s'
  end.

Lemma trim_start_black (s : string) : starts_black (trim_start s) = true.
Proof. induction s as [|c s IH]; simpl; [done|]. by destruct (is_ws c) eqn:E; simpl; rewrite ?E. Qed.

Lemma trim_start_id (s : string) : starts_black s = true -> trim_start s = s.
Proof. destruct s as [|c s]; simpl; [done|]. by destruct (is_ws c). Qed.

Lemma trim_end_black (s : string) : ends_black (trim_end s) = true.
Proof.
  induction s as [|c s IH]; simpl; [done|].
  destruct (trim_end s) as [|d t]; [|done].
  destruct (is_ws c) eqn:E; simpl; by rewrite ?E.
Qed.

Lemma trim_end_id (s : string) : ends_black s = true -> trim_end s = s.
Proof.
  induction s as [|c [|d t] IH]; [done| |].
  - simpl. by destruct (is_ws c).
  - intros H. change (trim_end (String c (String d t)))
      with (match trim_end (String d t) with
            | "" => if is_ws c then "" else String c "" | u => String c u end).
    by rewrite IH.
Qed.

Lemma trim_end_starts_black (s : string) :
  starts_black s = true -> starts_black (trim_end s) = true.
Proof.
  destruct s as [|c s]; simpl; [done|].
  destruct (trim_end s); [|done]. by destruct (is_ws c) eqn:E; simpl; rewrite ?E.
Qed.

Lemma trim_black (s : string) :
  starts_black (trim s) = true /\ ends_black (trim s) = true.
Proof.
  unfold trim. split; [|apply trim_end_black].
  apply trim_end_starts_black, trim_start_black.
Qed.

Lemma trim_id (s : string) :
  starts_black s = true -> ends_black s = true -> trim s = s.
Proof. intros Hs He. unfold trim. by rewrite trim_start_id, trim_end_id. Qed.

Lemma trim_idemp (s : string) : trim (trim s) = trim s.
Proof. destruct (trim_black s). by apply trim_id. Qed.

Lemma starts_black_map f (s : string) :
  (forall c, is_ws (f c) = is_ws c) -> starts_black (str_map f s) = starts_black s.
Proof. intros Hf. destruct s; simpl; by rewrite ?Hf. Qed.

Lemma ends_black_map f (s : string) :
  (forall c, is_ws (f c) = is_ws c) -> ends_black (str_map f s) = ends_black s.
Proof.
  intros Hf. induction s as [|c [|d t] IH]; [done|simpl; by rewrite Hf|].
  exact IH.
Qed.

Lemma ends_black_app (s t : string) :
  ends_black t = true -> t <> "" -> ends_black (s +:+ t) = true.
Proof.
  intros Ht Hne. induction s as [|c s IH]; [done|]. rewrite str_app_cons. simpl.
  destruct (s +:+ t) eqn:E; [|done].
  destruct s; [|by rewrite str_app_cons in E]. by change ("" +:+ t) with t in E.
Qed.

Lemma starts_black_app (s t : string) :
  starts_black s = true -> s <> "" -> starts_black (s +:+ t) = true.
Proof. by destruct s. Qed.

Lemma trim_lower (s : string) : trim (to_lowercase (trim s)) = to_lowercase (trim s).
Proof.
  destruct (trim_black s). apply trim_id; unfold to_lowercase.
  - by rewrite starts_black_map by apply is_ws_lower.
  - by rewrite ends_black_map by apply is_ws_lower.
Qed.

(** Trimming adds no character. *)
Lemma str_exists_trim_start p (s : string) :
  str_exists p (trim_start s) = true -> str_exists p s = true.
Proof.
  induction s as [|c s IH]; simpl; [done|]. destruct (is_ws c); [|done].
  intros H. by rewrite IH, orb_true_r.
Qed.

Lemma str_exists_trim_end p (s : string) :
  str_exists p (trim_end s) = true -> str_exists p s = true.
Proof.
  induction s as [|c s IH]; simpl; [done|].
  destruct (trim_end s) as [|d t] eqn:E.
  - destruct (is_ws c); simpl; [done|]. rewrite orb_false_r. by intros ->.
  - change (str_exists p (String c (String d t)))
      with (p c || str_exists p (String d t)).
    rewrite orb_true_iff. intros [->|H]; [done|]. by rewrite IH, orb_true_r.
Qed.

Lemma contains_char_trim (c : ascii) (s : string) :
  contains_char c (trim s) = true -> contains_char c s = true.
Proof. intros H. by apply str_exists_trim_start, str_exists_trim_end. Qed.

(** *** Splitting *)

Lemma split_by_nonempty p (s : string) : split_by p s <> [].
Proof.
  destruct s as [|c s]; simpl; [done|].
  destruct (p c); [done|]. by destruct (split_by p s).
Qed.

Lemma str_nonempty_true (s : string) : str_nonempty s = true <-> s <> "".
Proof. by destruct s. Qed.

Lemma str_is_empty_true (s : string) : str_is_empty s = true <-> s = "".
Proof. by destruct s. Qed.

Lemma rsplit_once_app (c : ascii) (s a b : string) :
  rsplit_once c s = Some (a, b) -> s = a +:+ String c b.
Proof.
  revert a b. induction s as [|x s IH]; intros a b; simpl; [done|].
  destruct (rsplit_once c s) as [[a' b']|].
  - intros [= <- <-]. rewrite str_app_cons. f_equal. by apply IH.
  - case_decide; [|done]. intros [= <- <-]. by subst.
Qed.

(** *** Numbers *)

Lemma parse_unsigned_bound (max : Z) (s : string) (v : Z) :
  parse_unsigned max s = Some v -> v <= max.
Proof. unfold parse_unsigned. case_match; [|done]. by destruct (Z.leb_spec z max); intros [= <-]. Qed.

(** *** Predicates on every character *)

Lemma str_forall_cons p (c : ascii) (s : string) :
  str_forall p (String c s) = p c && str_forall p s.
Proof. unfold str_forall. simpl. by rewrite negb_orb, negb_involutive. Qed.

Lemma str_forall_app p (s t : string) :
  str_forall p (s +:+ t) = str_forall p s && str_forall p t.
Proof. unfold str_forall. by rewrite str_exists_app, negb_orb. Qed.

Lemma str_map_fix p f (s : string) :
  (forall c, p c = true -> f c = c) -> str_forall p s = true -> str_map f s = s.
Proof.
  intros Hf. induction s as [|c s IH]; [done|].
  rewrite str_forall_cons, andb_true_iff. intros [Hc Hs]. simpl.
  by rewrite Hf, IH.
Qed.

Lemma str_forall_ends_black p (s : string) :
  (forall c, p c = true -> is_ws c = false) -> str_forall p s = true -> ends_black s = true.
Proof.
  intros Hp. induction s as [|c [|d s] IH]; [done| |].
  - rewrite str_forall_cons, andb_true_iff. intros [Hc _]. simpl. by rewrite Hp.
  - rewrite str_forall_cons, andb_true_iff. intros [_ Hs]. by apply IH.
Qed.

(** *** Decimal printing *)

(** A digit or a minus sign: what a printed integer is made of. *)
Definition is_dec (c : ascii) : bool := is_ascii_digit c || bool_decide (c = "-"%char).

Lemma pretty_N_char_dec (d : N) : is_dec (pretty_N_char d) = true.
Proof. unfold pretty_N_char. by repeat case_match. Qed.

Lemma pretty_N_go_dec (x : N) (s : string) :
  str_forall is_dec s = true -> str_forall is_dec (pretty_N_go x s) = true.
Proof.
  revert s. induction (N.lt_wf_0 x) as [x _ IH]; intros s Hs.
  assert (x = 0 \/ 0 < x)%N as [->|Hx] by lia; [by rewrite pretty_N_go_0|].
  rewrite pretty_N_go_step by done.
  apply IH; [by apply N.div_lt|].
  by rewrite str_forall_cons, pretty_N_char_dec.
Qed.

Lemma show_pos (z : Z) : 0 < z -> show_Z z = pretty_N_go (Z.to_N z) "".
Proof. by destruct z. Qed.

Lemma show_Z_dec (z : Z) : str_forall is_dec (show_Z z) = true.
Proof.
  assert (HN : forall n : N, str_forall is_dec (pretty n) = true).
  { intros n. unfold pretty, pretty_N. case_decide; [done|]. by apply pretty_N_go_dec. }
  destruct z as [|p|p]; [done|apply HN|].
  change (show_Z (Zneg p)) with ("-" +:+ pretty (Npos p)).
  rewrite str_forall_app. by rewrite HN.
Qed.

Lemma is_dec_not_ws (c : ascii) : is_dec c = true -> is_ws c = false.
Proof. all_ascii c. Qed.

Lemma is_dec_lower (c : ascii) : is_dec c = true -> ascii_lower c = c.
Proof. all_ascii c. Qed.

Lemma str_length_app s t : String.length (s +:+ t) = (String.length s + String.length t)%nat.
Proof. induction s as [|c s IH]; [done|]. exact (f_equal S IH). Qed.
