(* ===== verification/RustFloat.v ===== *)
(** * Rust's [f64]

    An [f64] is an IEEE 754 binary64 datum, the standard library's [spec_float] at
    precision 53 and maximal exponent 1024: signed zeros, infinities and NaN
    included, with no axiom behind it.  Parsing rounds the exact decimal value to
    nearest even, casts to an integer truncate and saturate, as the language
    reference says. *)

From S2P Require Import Prelude RustStr.
From Stdlib Require Import Ascii SpecFloat.

Local Open Scope Z_scope.

Abbreviation f64 := spec_float (only parsing).

Definition PREC : Z := 53.
Definition EMAX : Z := 1024.

(** ** Operations *)

Definition f64_add : f64 -> f64 -> f64 := SFadd PREC EMAX.
Definition f64_sub : f64 -> f64 -> f64 := SFsub PREC EMAX.
Definition f64_mul : f64 -> f64 -> f64 := SFmul PREC EMAX.
Definition f64_div : f64 -> f64 -> f64 := SFdiv PREC EMAX.
Definition f64_sqrt : f64 -> f64 := SFsqrt PREC EMAX.
Definition f64_lt : f64 -> f64 -> bool := SFltb.
Definition f64_le : f64 -> f64 -> bool := SFleb.

Definition is_nan (x : f64) : bool :=
  match x with S754_nan => true | _ => false end.

Definition is_finite (x : f64) : bool :=
  match x with S754_zero _ | S754_finite _ _ _ => true | _ => false end.

(** [f64::min]: the other operand when one is NaN. *)
Definition f64_min (x y : f64) : f64 :=
  if is_nan x then y else if is_nan y then x else if f64_lt y x then y else x.

(** An integer literal or [n as f64]. *)
Definition f64_of_Z (z : Z) : f64 := binary_normalize PREC EMAX z 0 false.

(** [x as usize]: towards zero, saturating, NaN to 0. *)
Definition f64_to_usize (x : f64) : Z :=
  match x with
  | S754_finite false m e =>
      Z.min u64_max (if 0 <=? e then Zpos m * 2 ^ e else Zpos m / 2 ^ (- e))
  | S754_infinity false => u64_max
  | _ => 0
  end.

(** [Iterator::sum] over [f64] starts from negative zero, the additive identity. *)
Definition f64_sum (l : list f64) : f64 := fold_left f64_add l (S754_zero true).

(** ** Parsing *)

(** The longest prefix of digits with its value and length, and what follows. *)
Fixpoint take_digits (acc : Z) (n : nat) (s : string) : Z * nat * string :=
  match s with
  | String c s' =>
      if is_ascii_digit c then take_digits (10 * acc + digit_val c) (S n) s'
      else (acc, n, s)
  | "" => (acc, n, "")
  end.

(** [[eE][+-]?[0-9]+] up to the end of the text; no exponent is 0. *)
Definition parse_exponent (s : string) : option Z :=
  match s with
  | "" => Some 0
  | String c s' =>
      if bool_decide (ascii_lower c = "e"%char) then
        match strip_prefix "-" s' with
        | Some d => let! v := parse_digits d in Some (- v)
        | None => parse_digits (default s' (strip_prefix "+" s'))
        end
      else None
  end.

(** The value [m * 10 ^ e], correctly rounded. *)
Definition decimal_to_f64 (sign : bool) (m e : Z) : f64 :=
  match m with
  | Zpos p =>
      if 0 <=? e then
        match m * 10 ^ e with
        | Zpos q => binary_round PREC EMAX sign q 0
        | _ => S754_zero sign
        end
      else
        let '(q, ez, l) := SFdiv_core_binary PREC EMAX (Zpos p) 0 (10 ^ (- e)) 0 in
        binary_round_aux PREC EMAX sign q ez l
  | _ => S754_zero sign
  end.

Definition parse_number (sign : bool) (s : string) : option f64 :=
  let '(ip, n1, rest) := take_digits 0 0 s in
  let '(m, n2, rest) :=
    match strip_prefix "." rest with
    | Some frac => take_digits ip 0 frac
    | None => (ip, 0%nat, rest)
    end in
  if bool_decide (n1 = 0%nat /\ n2 = 0%nat) then None
  else let! e := parse_exponent rest in
       Some (decimal_to_f64 sign m (e - Z.of_nat n2)).

(** [str::parse::<f64>]. *)
Definition parse_f64 (s : string) : option f64 :=
  let '(sign, body) :=
    match strip_prefix "-" s with
    | Some b => (true, b)
    | None => (false, default s (strip_prefix "+" s))
    end in
  let l := to_lowercase body in
  if bool_decide (l = "inf" \/ l = "infinity") then Some (S754_infinity sign)
  else if bool_decide (l = "nan") then Some S754_nan
  else parse_number sign body.

(** ** Printing *)

(** The integers next to [num / den], the nearer first. *)
Definition nearest (num den : Z) : list Z :=
  let q := num / den in
  if 2 * (num mod den) <=? den then [q; q + 1] else [q + 1; q].

(** The value [m * 2 ^ e] scaled by [10 ^ k], as a fraction. *)
Definition scaled (m e k : Z) : Z * Z :=
  (m * 2 ^ Z.max 0 e * 10 ^ Z.max 0 k, 2 ^ Z.max 0 (- e) * 10 ^ Z.max 0 (- k)).

(** The shortest decimal [n * 10 ^ - k] that reads back as [x]: the number of decimals
    grows from far below any value's to the most a double needs. *)
Fixpoint shortest (fuel : nat) (k : Z) (s : bool) (m e : Z) (x : f64) : option (Z * Z) :=
  match fuel with
  | O => None
  | S fuel' =>
      let '(num, den) := scaled m e k in
      match List.find (fun n => SFeqb (decimal_to_f64 s n (- k)) x) (nearest num den) with
      | Some n => Some (n, k)
      | None => shortest fuel' (k + 1) s m e x
      end
  end.

Fixpoint repeat_zero (n : nat) : string :=
  match n with O => "" | S n' => String "0" (repeat_zero n') end.

Definition show_decimal (n k : Z) : string :=
  if k <=? 0 then show_Z n +:+ repeat_zero (Z.to_nat (- k))
  else
    let frac := show_Z (n mod 10 ^ k) in
    show_Z (n / 10 ^ k) +:+ "." +:+
      repeat_zero (Z.to_nat k - String.length frac) +:+ frac.

(** [Display] for [f64]: never an exponent.  The least positive double is 5e-324. *)
Definition show_f64 (x : f64) : string :=
  match x with
  | S754_nan => "NaN"
  | S754_infinity s => if s then "-inf" else "inf"
  | S754_zero s => if s then "-0" else "0"
  | S754_finite s m e =>
      (if s then "-" else "") +:+
      match shortest 1000 (-309) s (Zpos m) e x with
      | Some (n, k) => show_decimal n k
      | None => ""
      end
  end.

(** ** The order

    On everything but NaN, [<] is a strict weak order; NaN is below and above
    nothing. *)

Definition nonneg (x : f64) : bool :=
  match x with
  | S754_zero _ => true
  | S754_infinity s => negb s
  | S754_finite s _ _ => negb s
  | S754_nan => false
  end.

Lemma SFcompare_finite_false m1 e1 m2 e2 :
  SFcompare (S754_finite false m1 e1) (S754_finite false m2 e2) =
  Some (match Z.compare e1 e2 with Eq => Pos.compare m1 m2 | c => c end).
Proof. simpl. by destruct (e1 ?= e2). Qed.

Lemma SFcompare_finite_true m1 e1 m2 e2 :
  SFcompare (S754_finite true m1 e1) (S754_finite true m2 e2) =
  Some (CompOpp (match Z.compare e1 e2 with Eq => Pos.compare m1 m2 | c => c end)).
Proof. simpl. by destruct (e1 ?= e2). Qed.

(** Lexicographic comparison of exponent, then mantissa. *)
Definition lex (m1 : positive) (e1 : Z) (m2 : positive) (e2 : Z) : Prop :=
  e1 < e2 \/ e1 = e2 /\ (m1 < m2)%positive.

Lemma f64_lt_finite s1 m1 e1 s2 m2 e2 :
  f64_lt (S754_finite s1 m1 e1) (S754_finite s2 m2 e2) = true <->
  match s1, s2 with
  | true, false => True
  | false, true => False
  | false, false => lex m1 e1 m2 e2
  | true, true => lex m2 e2 m1 e1
  end.
Proof.
  unfold f64_lt, SFltb, lex. destruct s1, s2.
  - rewrite SFcompare_finite_true.
    destruct (Z.compare_spec e1 e2); simpl; [|split; [done|lia]|split; [lia|done]].
    destruct (Pos.compare_spec m1 m2); simpl; split; try done; lia.
  - done.
  - done.
  - rewrite SFcompare_finite_false.
    destruct (Z.compare_spec e1 e2); simpl; [|split; [lia|done]|split; [done|lia]].
    destruct (Pos.compare_spec m1 m2); simpl; split; try done; lia.
Qed.

Lemma f64_lt_irrefl (x : f64) : f64_lt x x = false.
Proof.
  apply not_true_iff_false. destruct x as [[]|[]| |s m e]; try done.
  rewrite f64_lt_finite. unfold lex. destruct s; lia.
Qed.

Lemma f64_lt_trans (x y z : f64) :
  f64_lt x y = true -> f64_lt y z = true -> f64_lt x z = true.
Proof.
  destruct x as [[]|[]| |[] m1 e1], y as [[]|[]| |[] m2 e2], z as [[]|[]| |[] m3 e3];
    try done; rewrite !f64_lt_finite; unfold lex; lia.
Qed.

(** [x < y] and [not (z < y)] give [x < z], NaN apart. *)
Lemma f64_lt_not_lt_trans (x y z : f64) :
  is_nan z = false -> f64_lt x y = true -> f64_lt z y = false -> f64_lt x z = true.
Proof.
  intros Hz Hxy Hzy%not_true_iff_false. revert Hz Hxy Hzy.
  destruct x as [[]|[]| |[] m1 e1], y as [[]|[]| |[] m2 e2], z as [[]|[]| |[] m3 e3];
    try done; rewrite !f64_lt_finite; unfold lex; lia.
Qed.

Lemma nonneg_not_nan (x : f64) : nonneg x = true -> is_nan x = false.
Proof. by destruct x. Qed.

Lemma parse_bound_nonneg (x : f64) :
  is_finite x = true -> f64_lt x (S754_zero false) = false -> nonneg x = true.
Proof. by destruct x as [[]|[]| |[] m e]. Qed.

(** ** Addition *)

Lemma iter_pos_ind {A} (P : A -> Prop) (f : A -> A) (n : positive) (x : A) :
  (forall a, P a -> P (f a)) -> P x -> P (iter_pos f n x).
Proof. intros Hf. revert x. induction n; simpl; eauto. Qed.

Lemma shr_fexp_nonneg (m e : Z) (l : location) :
  0 <= m -> 0 <= shr_m (fst (shr_fexp PREC EMAX m e l)).
Proof.
  intros Hm. unfold shr_fexp, shr.
  assert (0 <= shr_m (shr_record_of_loc m l)) by (by destruct l as [|[]]).
  destruct (_ - _) as [|p|p]; try done. cbn [fst].
  apply (iter_pos_ind (fun r => 0 <= shr_m r)); [|done].
  intros [[|[p'|p'|]|[p'|p'|]] r s]; simpl; lia.
Qed.

Lemma round_nearest_even_nonneg (m : Z) (l : location) :
  0 <= m -> 0 <= round_nearest_even m l.
Proof. destruct l as [|[]]; simpl; [lia| |lia|lia]. destruct (Z.even m); lia. Qed.

Lemma binary_round_aux_nonneg (m e : Z) (l : location) :
  0 <= m -> nonneg (binary_round_aux PREC EMAX false m e l) = true.
Proof.
  intros Hm. unfold binary_round_aux.
  pose proof (shr_fexp_nonneg m e l Hm) as H1.
  destruct (shr_fexp PREC EMAX m e l) as [r1 e1]. simpl in H1.
  pose proof (shr_fexp_nonneg _ e1 loc_Exact
    (round_nearest_even_nonneg _ (loc_of_shr_record r1) H1)) as H2.
  destruct (shr_fexp PREC EMAX (round_nearest_even _ _) e1 loc_Exact) as [r2 e2].
  simpl in H2. destruct (shr_m r2); [done| |lia]. by destruct (e2 <=? _).
Qed.

Lemma f64_add_nonneg (x y : f64) :
  nonneg x = true -> nonneg y = true -> nonneg (f64_add x y) = true.
Proof.
  destruct x as [[]|[]| |[] m1 e1], y as [[]|[]| |[] m2 e2]; try done.
  intros _ _. unfold f64_add, SFadd, binary_normalize, cond_Zopp, binary_round.
  rewrite <- Pos2Z.inj_add.
  destruct (shl_align _ _ _) as [mz ez]. by apply binary_round_aux_nonneg.
Qed.

Lemma f64_add_comm (x y : f64) : f64_add x y = f64_add y x.
Proof.
  destruct x as [[]|[]| |s1 m1 e1], y as [[]|[]| |s2 m2 e2]; try done.
  unfold f64_add, SFadd. by rewrite Z.min_comm, Z.add_comm.
Qed.

Lemma f64_add_zero_l (x : f64) : f64_add (S754_zero true) x = x.
Proof. by destruct x as [[]|[]| |s m e]. Qed.

Lemma fold_add_nonneg (l : list f64) (acc : f64) :
  nonneg acc = true -> Forall (fun x => nonneg x = true) l ->
  nonneg (fold_left f64_add l acc) = true.
Proof.
  intros Ha Hl. revert acc Ha.
  induction Hl as [|x l Hx Hl IH]; simpl; [done|]. intros acc Ha.
  by apply IH, f64_add_nonneg.
Qed.

(** A sum of non-negative costs is non-negative, so it is never NaN; it may be
    infinite. *)
Lemma f64_sum_nonneg (l : list f64) :
  Forall (fun x => nonneg x = true) l -> nonneg (f64_sum l) = true.
Proof. intros. by apply fold_add_nonneg. Qed.

Lemma f64_sum_pair_comm (x y : f64) : f64_sum [x; y] = f64_sum [y; x].
Proof. unfold f64_sum. cbn [fold_left]. rewrite !f64_add_zero_l. apply f64_add_comm. Qed.

Lemma f64_sum_single (x : f64) : f64_sum [x] = x.
Proof. unfold f64_sum. cbn [fold_left]. apply f64_add_zero_l. Qed.

#[export] Hint Resolve nonneg_not_nan f64_sum_nonneg : rust.
