(* ===== verification/Net.v ===== *)
(** * Addresses: the part of [std::net] the server uses

    An IPv4 address is its 32-bit value and an IPv6 address its 128-bit value, both
    most significant octet first, so the derived order of [IpAddr] (V4 before V6,
    then octet by octet) is the order of the values. *)

From S2P Require Import Prelude RustStr.
From Stdlib Require Import Ascii.

Local Open Scope Z_scope.

(** ** Types *)

Inductive IpAddr : Type :=
| V4 (a : Z)
| V6 (a : Z).

(** [SocketAddrV6] also carries the flow information and the scope. *)
Inductive SocketAddr : Type :=
| SocketV4 (ip port : Z)
| SocketV6 (ip port flowinfo scope_id : Z).

#[export] Instance IpAddr_eq_dec : EqDecision IpAddr.
Proof. solve_decision. Defined.

#[export] Instance SocketAddr_eq_dec : EqDecision SocketAddr.
Proof. solve_decision. Defined.

#[export] Program Instance IpAddr_countable : Countable IpAddr :=
  inj_countable' (fun ip => match ip with V4 a => inl a | V6 a => inr a end)
    (fun s => match s with inl a => V4 a | inr a => V6 a end) _.
Next Obligation. by intros []. Qed.

#[export] Program Instance SocketAddr_countable : Countable SocketAddr :=
  inj_countable' (fun s => match s with
                           | SocketV4 i p => inl (i, p)
                           | SocketV6 i p f c => inr (i, p, f, c) end)
    (fun s => match s with
              | inl (i, p) => SocketV4 i p
              | inr (i, p, f, c) => SocketV6 i p f c end) _.
Next Obligation. by intros []. Qed.

Definition socket_ip (s : SocketAddr) : IpAddr :=
  match s with SocketV4 i _ => V4 i | SocketV6 i _ _ _ => V6 i end.

Definition socket_port (s : SocketAddr) : Z :=
  match s with SocketV4 _ p => p | SocketV6 _ p _ _ => p end.

(** [SocketAddr::new]. *)
Definition socket_new (ip : IpAddr) (port : Z) : SocketAddr :=
  match ip with V4 a => SocketV4 a port | V6 a => SocketV6 a port 0 0 end.

(** ** Classification *)

Definition LOCALHOST_V4 : IpAddr := V4 2130706433.
Definition LOCALHOST_V6 : IpAddr := V6 1.
Definition UNSPECIFIED_V4 : IpAddr := V4 0.
Definition UNSPECIFIED_V6 : IpAddr := V6 0.

Definition is_loopback (ip : IpAddr) : bool :=
  match ip with
  | V4 a => Z.shiftr a 24 =? 127
  | V6 a => a =? 1
  end.

Definition is_unspecified (ip : IpAddr) : bool :=
  match ip with V4 a => a =? 0 | V6 a => a =? 0 end.

(** [Ipv6Addr::to_ipv4_mapped]: [::ffff:a.b.c.d]. *)
Definition to_ipv4_mapped (a : Z) : option Z :=
  if Z.shiftr a 32 =? 65535 then Some (Z.land a (2 ^ 32 - 1)) else None.

(** [Ipv6Addr::to_ipv4]: [::a.b.c.d] as well as [::ffff:a.b.c.d]. *)
Definition to_ipv4 (a : Z) : option Z :=
  if (Z.shiftr a 32 =? 65535) || (Z.shiftr a 32 =? 0)
  then Some (Z.land a (2 ^ 32 - 1)) else None.

(** [IpAddr::to_canonical]: an IPv4-mapped address as the IPv4 one. *)
Definition to_canonical (ip : IpAddr) : IpAddr :=
  match ip with
  | V4 a => V4 a
  | V6 a => match to_ipv4_mapped a with Some b => V4 b | None => V6 a end
  end.

(** The derived [Ord]. *)
Definition ip_le (x y : IpAddr) : bool :=
  match x, y with
  | V4 a, V4 b => a <=? b
  | V6 a, V6 b => a <=? b
  | V4 _, V6 _ => true
  | V6 _, V4 _ => false
  end.

(** ** Printing *)

Definition octet (a : Z) (i : Z) : Z := Z.land (Z.shiftr a (8 * i)) 255.
Definition segment (a : Z) (i : Z) : Z := Z.land (Z.shiftr a (16 * (7 - i))) 65535.
Definition segments (a : Z) : list Z := (segment a) <$> [0; 1; 2; 3; 4; 5; 6; 7].

Definition show_v4 (a : Z) : string :=
  join "." (show_Z <$> [octet a 3; octet a 2; octet a 1; octet a 0]).

Definition hex_digit (d : Z) : ascii :=
  ascii_of_N (Z.to_N (if d <? 10 then 48 + d else 87 + d)).

(** Lower-case hexadecimal without leading zeros, for a 16-bit segment. *)
Definition show_hex (v : Z) : string :=
  let d i := String (hex_digit (Z.land (Z.shiftr v (4 * i)) 15)) "" in
  if v <? 16 then d 0 else if v <? 256 then d 1 +:+ d 0
  else if v <? 4096 then d 2 +:+ d 1 +:+ d 0 else d 3 +:+ d 2 +:+ d 1 +:+ d 0.

(** The first longest run of zero segments: (start, length). *)
Fixpoint zero_run (segs : list Z) (i : nat) (cur best : nat * nat) : nat * nat :=
  match segs with
  | [] => best
  | s :: segs' =>
      if s =? 0 then
        let cur' := (if (cur.2 =? 0)%nat then i else cur.1, S cur.2) in
        zero_run segs' (S i) cur' (if (best.2 <? cur'.2)%nat then cur' else best)
      else zero_run segs' (S i) (0, 0)%nat best
  end.

Definition show_segments (segs : list Z) : string := join ":" (show_hex <$> segs).

Definition show_v6 (a : Z) : string :=
  match to_ipv4_mapped a with
  | Some b => "::ffff:" +:+ show_v4 b
  | None =>
      let '(start, len) := zero_run (segments a) 0 (0, 0)%nat (0, 0)%nat in
      if (1 <? len)%nat then
        show_segments (take start (segments a)) +:+ "::"
          +:+ show_segments (drop (start + len) (segments a))
      else show_segments (segments a)
  end.

(** [IpAddr]'s [Display]. *)
Definition show_ip (ip : IpAddr) : string :=
  match ip with V4 a => show_v4 a | V6 a => show_v6 a end.

(** [SocketAddr]'s [Display]; a scope is shown after a percent sign. *)
Definition show_socket (s : SocketAddr) : string :=
  match s with
  | SocketV4 i p => show_v4 i +:+ ":" +:+ show_Z p
  | SocketV6 i p _ sc =>
      "[" +:+ show_v6 i +:+ (if sc =? 0 then "" else "%" +:+ show_Z sc) +:+ "]:" +:+ show_Z p
  end.

(** ** Parsing

    A reader consumes a prefix of the text; [None] consumes nothing. *)

Definition hex_val (c : ascii) : option Z :=
  let b := byte_val (ascii_lower c) in
  if is_ascii_digit c then Some (digit_val c)
  else if (97 <=? b) && (b <=? 102) then Some (b - 87) else None.

Definition digit_in (radix : Z) (c : ascii) : option Z :=
  let! d := hex_val c in if d <? radix then Some d else None.

Fixpoint read_digits (radix acc : Z) (n : nat) (s : string) : Z * nat * string :=
  match s with
  | String c s' =>
      match digit_in radix c with
      | Some d => read_digits radix (radix * acc + d) (S n) s'
      | None => (acc, n, s)
      end
  | "" => (acc, n, "")
  end.

(** [Parser::read_number]. *)
Definition read_number (radix max : Z) (max_digits : nat) (allow_zero_prefix : bool)
    (s : string) : option (Z * string) :=
  let '(v, n, rest) := read_digits radix 0 0 s in
  if (n =? 0)%nat || (max_digits <? n)%nat || (max <? v) then None
  else if negb allow_zero_prefix && starts_with "0" s && (1 <? n)%nat then None
  else Some (v, rest).

Definition read_char (c : ascii) (s : string) : option string :=
  strip_prefix (String c "") s.

Definition read_octet (s : string) : option (Z * string) := read_number 10 255 3 false s.

Definition read_ipv4 (s : string) : option (Z * string) :=
  let! (a, s) := read_octet s in
  let! s := read_char "." s in
  let! (b, s) := read_octet s in
  let! s := read_char "." s in
  let! (c, s) := read_octet s in
  let! s := read_char "." s in
  let! (d, s) := read_octet s in
  Some (((a * 256 + b) * 256 + c) * 256 + d, s).

(** [read_groups]: up to [limit] segments, an IPv4 tail counting as two.  Returns
    the segments, whether an IPv4 tail was read, and the rest of the text. *)
Fixpoint read_groups (limit : nat) (first : bool) (s : string)
    : list Z * bool * string :=
  match limit with
  | O => ([], false, s)
  | S limit' =>
      let after_sep := if first then Some s else read_char ":" s in
      match (match limit', after_sep with
             | S _, Some t => read_ipv4 t
             | _, _ => None
             end) with
      | Some (a, rest) => ([Z.shiftr a 16; Z.land a 65535], true, rest)
      | None =>
          match (let! t := after_sep in read_number 16 65535 4 true t) with
          | None => ([], false, s)
          | Some (g, rest) =>
              let '(gs, v4, rest') := read_groups limit' false rest in
              (g :: gs, v4, rest')
          end
      end
  end.

Definition segments_val (l : list Z) : Z := fold_left (fun acc g => acc * 65536 + g) l 0.

Definition read_ipv6 (s : string) : option (Z * string) :=
  let '(head, head_v4, rest) := read_groups 8 true s in
  if (length head =? 8)%nat then Some (segments_val head, rest)
  else if head_v4 then None
  else
    let! rest := strip_prefix "::" rest in
    let '(tail, _, rest) := read_groups (8 - (length head + 1)) true rest in
    Some (segments_val (head ++ replicate (8 - length head - length tail) 0 ++ tail), rest).

(** The whole text must be read. *)
Definition all_read {A} (o : option (A * string)) : option A :=
  match o with Some (a, "") => Some a | _ => None end.

(** [str::parse::<IpAddr>]. *)
Definition parse_ip (s : string) : option IpAddr :=
  match all_read (read_ipv4 s) with
  | Some a => Some (V4 a)
  | None => V6 <$> all_read (read_ipv6 s)
  end.

(** ** Facts *)

(** The value is in the range of its family. *)
Definition ip_wf (ip : IpAddr) : Prop :=
  match ip with V4 a => 0 <= a < 2 ^ 32 | V6 a => 0 <= a < 2 ^ 128 end.

Lemma to_canonical_idemp (ip : IpAddr) : to_canonical (to_canonical ip) = to_canonical ip.
Proof.
  destruct ip as [a|a]; [done|]. unfold to_canonical at 2 3.
  destruct (to_ipv4_mapped a) eqn:E; [done|]. unfold to_canonical. by rewrite E.
Qed.

Lemma ip_le_total (x y : IpAddr) : ip_le x y = false -> ip_le y x = true.
Proof. destruct x, y; simpl; try done; rewrite Z.leb_gt, Z.leb_le; lia. Qed.

Lemma ip_le_antisym (x y : IpAddr) : ip_le x y = true -> ip_le y x = true -> x = y.
Proof. destruct x, y; simpl; try done; rewrite !Z.leb_le; intros; f_equal; lia. Qed.

Lemma socket_new_ip (ip : IpAddr) (p : Z) : socket_ip (socket_new ip p) = ip.
Proof. by destruct ip. Qed.

Example show_ip_examples :
  show_ip (V4 3405803783) = "203.0.113.7" /\
  show_ip (V6 (Z.shiftl 8193 112 + Z.shiftl 3512 96 + 1)) = "2001:db8::1" /\
  show_ip (V6 1) = "::1" /\ show_ip (V6 0) = "::" /\
  show_ip (V6 (281470681743360 + 3221225993)) = "::ffff:192.0.2.9".
Proof. by vm_compute. Qed.

Example parse_ip_examples :
  parse_ip "203.0.113.7" = Some (V4 3405803783) /\
  parse_ip "2001:db8::1" = Some (V6 (Z.shiftl 8193 112 + Z.shiftl 3512 96 + 1)) /\
  parse_ip "::ffff:192.0.2.9" = Some (V6 (281470681743360 + 3221225993)) /\
  parse_ip "::" = Some (V6 0) /\ parse_ip "1.2.3" = None /\ parse_ip "1.2.3.04" = None /\
  parse_ip "not-an-ip" = None /\ parse_ip "1:2:3:4:5:6:7:8" <> None /\
  parse_ip "1::2::3" = None.
Proof. vm_compute. repeat split; discriminate. Qed.
