(* ===== verification/External.v ===== *)
(** * Interfaces to code outside the repository

    The server is built on crates whose sources are not part of it: [hbb_common]
    (a git submodule), [ipnetwork], [jsonwebtoken], [sodiumoxide], [maxminddb] and
    the protobuf code generated for the rendezvous protocol.  What the sources use of
    them is an operation of a class here, and what they rely on is a law of the
    matching [...Laws] class.  Nothing is assumed: a theorem that needs a law takes
    the class as an argument, and the witnesses instantiate it. *)

From S2P Require Import Prelude RustStr Net.
From Stdlib Require Import Ascii.

Local Open Scope Z_scope.

(** ** [hbb_common] *)

Class HbbCommon : Type := {
  (** [config::RELAY_PORT] and [config::RENDEZVOUS_PORT], the default ports of hbbr and hbbs. *)
  RELAY_PORT : Z;
  RENDEZVOUS_PORT : Z;
  (** [try_into_v4]: the address under which a peer is filed. *)
  try_into_v4 : SocketAddr -> SocketAddr;
  (** [AddrMangle::encode] and [decode]: an address as opaque bytes. *)
  AddrMangle_encode : SocketAddr -> string;
  AddrMangle_decode : string -> SocketAddr;
}.

(** hbbr's port is a port number, the one after hbbs's (21117 and 21116 in the documentation). *)
Class HbbCommonLaws (H : HbbCommon) : Prop := {
  relay_port_range : 0 < RELAY_PORT <= u16_max;
  default_ports : RELAY_PORT = RENDEZVOUS_PORT + 1;
  try_into_v4_idemp : forall a, try_into_v4 (try_into_v4 a) = try_into_v4 a;
}.

(** ** [ipnetwork] *)

Class IpNetworkLib : Type := {
  IpNetwork : Type;
  (** [str::parse::<IpNetwork>]. *)
  net_parse : string -> option IpNetwork;
  net_network : IpNetwork -> IpAddr;
  net_prefix : IpNetwork -> Z;
  net_contains : IpNetwork -> IpAddr -> bool;
}.

(** The address with the host bits of a [prefix]-bit network cleared. *)
Definition ip_mask (prefix : Z) (ip : IpAddr) : IpAddr :=
  match ip with
  | V4 a => V4 (Z.shiftl (Z.shiftr a (32 - prefix)) (32 - prefix))
  | V6 a => V6 (Z.shiftl (Z.shiftr a (128 - prefix)) (128 - prefix))
  end.

(** A network contains the addresses that agree with it on the prefix. *)
Class IpNetworkLaws (N : IpNetworkLib) : Prop := {
  net_contains_spec : forall n ip,
    net_contains n ip = bool_decide (ip_mask (net_prefix n) ip = net_network n);
}.

(** [ipnetwork::Ipv4Network], the type of [--mask]. *)
Class Ipv4NetworkLib : Type := {
  Ipv4Network : Type;
  v4net_contains : Ipv4Network -> Z -> bool;
}.

(** ** [sodiumoxide] and [hbb_common::tcp::Encrypt] *)

Class Sodium : Type := {
  (** The server's long-term signing key, and [sign::sign]. *)
  SignKey : Type;
  sign : string -> SignKey -> string;
  (** One connection's key pair, [box_::gen_keypair]. *)
  BoxSecret : Type;
  box_public : BoxSecret -> string;
  (** [secretbox::Key], and [Encrypt::decode] of the two keys of phase 2. *)
  SymKey : Type;
  encrypt_decode : string -> string -> BoxSecret -> option SymKey;
  (** [Encrypt]: a key and a counter that advances with every frame. *)
  Crypt : Type;
  crypt_new : SymKey -> Crypt;
  crypt_enc : Crypt -> string -> string * Crypt;
  crypt_dec : Crypt -> string -> option (string * Crypt);
}.

(** ** Concrete instances, for the witnesses *)

Definition example_hbb : HbbCommon := {|
  RELAY_PORT := 21117;
  RENDEZVOUS_PORT := 21116;
  try_into_v4 a :=
    match a with
    | SocketV6 i p _ _ =>
        match to_ipv4_mapped i with Some b => SocketV4 b p | None => a end
    | _ => a
    end;
  AddrMangle_encode a :=
    match a with SocketV4 i p => show_Z i +:+ ":" +:+ show_Z p | _ => show_socket a end;
  AddrMangle_decode b :=
    match rsplit_once ":" b with
    | Some (i, p) =>
        match parse_digits i, parse_digits p with Some i, Some p => SocketV4 i p | _, _ => SocketV4 0 0 end
    | None => SocketV4 0 0
    end;
|}.

(** A network as an address and a prefix length, written [address/prefix]. *)
Definition example_net : IpNetworkLib := {|
  IpNetwork := IpAddr * Z;
  net_parse s :=
    let! (a, p) := split_once "/" s in
    let! ip := parse_ip a in
    let! n := parse_u16 p in
    if n <=? (match ip with V4 _ => 32 | V6 _ => 128 end) then Some (ip, n) else None;
  net_network n := ip_mask n.2 n.1;
  net_prefix n := n.2;
  net_contains n ip := bool_decide (ip_mask n.2 ip = ip_mask n.2 n.1);
|}.

Lemma example_hbb_laws : HbbCommonLaws example_hbb.
Proof.
  constructor.
  - by vm_compute.
  - done.
  - intros [i p|i p f s]; [done|]. unfold try_into_v4, example_hbb.
    destruct (to_ipv4_mapped i) eqn:E; [done|]. by rewrite E.
Qed.

Lemma example_net_laws : IpNetworkLaws example_net.
Proof. by constructor. Qed.
