(* ===== verification/RelayRoutes.v ===== *)
(** * The relay routing table ([src/src/relay_routes.rs])

    A routing table says what every relay costs, in milliseconds, from each client
    network.  This file translates the relay list and table parsers, the longest
    prefix lookup and the choice of the cheapest healthy relay, and proves them
    correct: a parsed table is well formed, the lookup finds the most specific line,
    the choice is the earliest minimum of the summed costs, and it does not depend on
    which side is the controller.

    A [HashMap<String, f64>] is a [gmap string f64].  An error message is a value of
    an error type that carries what the message names; the wording is left out. *)

From S2P Require Import Prelude RustStr RustFloat Net External.
From Stdlib Require Import Ascii SpecFloat.

Local Open Scope Z_scope.

(** [UNLISTED_COST_MS]: 1000.0. *)
Definition UNLISTED_COST_MS : f64 := f64_of_Z 1000.

(** Why a relay list entry is set aside. *)
Inductive EntryProblem :=
| ContainsSpace
| IsUrl
| SeveralColons
| NoHost
| NotAPort (p : string)
| ListedTwice.

(** Why a routing file is refused; the number is the line's, from 1. *)
Inductive RouteError :=
| NotANetwork (n : nat) (net_text : string)
| NetworkTwice (n : nat) (net_text : string)
| NotRelayMs (n : nat) (entry : string)
| NotANumber (n : nat) (ms : string)
| NotFiniteTime (n : nat) (entry : string)
| NoRelayName (n : nat) (entry : string)
| RelayTwice (n : nat) (relay : string)
| NoRelays (n : nat) (net_text : string)
| NoRoutes
| CannotRead.

#[export] Instance EntryProblem_eq_dec : EqDecision EntryProblem.
Proof. solve_decision. Defined.

#[export] Instance RouteError_eq_dec : EqDecision RouteError.
Proof. solve_decision. Defined.

Section RelayRoutes.
  Context {hbb : HbbCommon} {netlib : IpNetworkLib}.

(** ** Relay names *)

Definition normalize (relay : string) : string :=
  let relay := to_lowercase (trim relay) in
  if contains_char ":" relay then relay
  else relay +:+ ":" +:+ show_Z RELAY_PORT.

(** [relay_entry_problem].  The [?] on [split_once] makes the function return
    [None], that is: no problem. *)
Definition relay_entry_problem (entry : string) : option EntryProblem :=
  if str_exists is_ws entry then Some ContainsSpace
  else if contains_str "://" entry || contains_char "/" entry then Some IsUrl
  else
    let check '(host, port) :=
      if str_is_empty host || bool_decide (host = ":") then Some NoHost
      else match port with
           | Some p =>
               match parse_u16 p with
               | Some n => if 0 <? n then None else Some (NotAPort p)
               | None => Some (NotAPort p)
               end
           | None => None
           end in
    match strip_prefix "[" entry with
    | Some rest =>
        match split_once "]" rest with
        | None => None
        | Some (_, after) => check (entry, strip_prefix ":" after)
        end
    | None =>
        match count_char ":" entry with
        | O => check (entry, None)
        | 1%nat =>
            match split_once ":" entry with
            | None => None
            | Some (h, p) => check (h, Some p)
            end
        | _ => Some SeveralColons
        end
    end.

(** One turn of [parse_relay_list]'s loop. *)
Definition parse_relay_entry
    (acc : list string * list (string * EntryProblem)) (raw : string)
    : list string * list (string * EntryProblem) :=
  let '(kept, dropped) := acc in
  let entry := trim raw in
  if str_is_empty entry then (kept, dropped)
  else match relay_entry_problem entry with
       | None =>
           if existsb (fun k => bool_decide (normalize k = normalize entry)) kept
           then (kept, dropped ++ [(entry, ListedTwice)])
           else (kept ++ [entry], dropped)
       | Some why => (kept, dropped ++ [(entry, why)])
       end.

Definition parse_relay_list (l : string) : list string * list (string * EntryProblem) :=
  fold_left parse_relay_entry (split_on "," l) ([], []).

(** ** The table *)

Record Rule := mkRule {
  rule_net : IpNetwork;
  rule_costs : gmap string f64;
}.

Record RouteTable := mkRouteTable { rules : list Rule }.

Record Choice := mkChoice {
  choice_relay : string;
  cost_ms : f64;
  choice_costs : list (string * f64);
}.

(** One [relay=ms] entry of line [n]. *)
Definition parse_cost (n : nat) (costs : gmap string f64) (entry : string)
    : result RouteError (gmap string f64) :=
  let? (relay, ms_text) := ok_or (rsplit_once "=" entry) (NotRelayMs n entry) in
  let? ms := ok_or (parse_f64 ms_text) (NotANumber n ms_text) in
  if negb (is_finite ms) || f64_lt ms (S754_zero false) then Err (NotFiniteTime n entry)
  else if str_is_empty (trim relay) then Err (NoRelayName n entry)
  else match costs !! normalize relay with
       | Some _ => Err (RelayTwice n relay)
       | None => Ok (<[normalize relay := ms]> costs)
       end.

Fixpoint parse_costs (n : nat) (costs : gmap string f64) (entries : list string)
    : result RouteError (gmap string f64) :=
  match entries with
  | [] => Ok costs
  | e :: entries' => let? costs := parse_cost n costs e in parse_costs n costs entries'
  end.

Definition same_network (a b : IpNetwork) : bool :=
  bool_decide (net_network a = net_network b) && (net_prefix a =? net_prefix b).

(** The body of [RouteTable::parse]'s loop, line [n] of the file; [None] for a
    blank line or a comment. *)
Definition parse_line (rs : list Rule) (n : nat) (raw : string)
    : result RouteError (option Rule) :=
  let line := trim (split_first "#" raw) in
  if str_is_empty line then Ok None
  else
    let tokens := split_whitespace line in
    let net_text := default "" (head tokens) in
    let? net := ok_or (net_parse net_text) (NotANetwork n net_text) in
    if existsb (fun r => same_network (rule_net r) net) rs then Err (NetworkTwice n net_text)
    else
      let entries := List.filter str_nonempty
                       (List.concat (split_on "," <$> tail tokens)) in
      let? costs := parse_costs n ∅ entries in
      if bool_decide (costs = ∅) then Err (NoRelays n net_text)
      else Ok (Some (mkRule net costs)).

(** [RouteTable::parse]'s loop from line [S i] on, [rs] being the rules so far. *)
Fixpoint parse_lines (rs : list Rule) (i : nat) (ls : list string)
    : result RouteError (list Rule) :=
  match ls with
  | [] => Ok rs
  | raw :: ls' =>
      let? r := parse_line rs (S i) raw in
      parse_lines (match r with Some r => rs ++ [r] | None => rs end) (S i) ls'
  end.

(** Longest prefix first. *)
Definition rule_before (a b : Rule) : bool :=
  net_prefix (rule_net b) <=? net_prefix (rule_net a).

Definition parse (text : string) : result RouteError RouteTable :=
  let? rs := parse_lines [] 0 (lines text) in
  match rs with
  | [] => Err NoRoutes
  | _ => Ok (mkRouteTable (sort_by rule_before rs))
  end.

(** [RouteTable::load], the file's contents being [None] when it cannot be read. *)
Definition load (contents : option string) : result RouteError RouteTable :=
  let? text := ok_or contents CannotRead in parse text.

Definition rule_count (t : RouteTable) : nat := length (rules t).

Definition lookup_rule (t : RouteTable) (ip : IpAddr) : option Rule :=
  let ip := to_canonical ip in
  List.find (fun r => net_contains (rule_net r) ip) (rules t).

Definition costs_for (t : RouteTable) (ip : IpAddr) : option (gmap string f64) :=
  rule_costs <$> lookup_rule t ip.

(** ** The choice *)

Definition relay_total (sides : list (gmap string f64)) (relay : string) : f64 :=
  f64_sum ((fun s : gmap string f64 => default UNLISTED_COST_MS (s !! normalize relay)) <$> sides).

(** [costs[i].1]; the index is always in range. *)
Definition cost_at (costs : list (string * f64)) (i : nat) : f64 :=
  match costs !! i with Some (_, c) => c | None => S754_nan end.

(** The loop [for (i, (_, cost)) in costs.iter().enumerate()]. *)
Fixpoint best_loop (costs rest : list (string * f64)) (i best : nat) : nat :=
  match rest with
  | [] => best
  | (_, cost) :: rest' =>
      best_loop costs rest' (S i) (if f64_lt cost (cost_at costs best) then i else best)
  end.

Definition choose_from (healthy : list string) (sides : list (gmap string f64))
    : option Choice :=
  if bool_decide (healthy = []) || bool_decide (length sides = 0%nat) then None
  else
    let costs := (fun relay => (relay, relay_total sides relay)) <$> healthy in
    let best := best_loop costs costs 0 0 in
    let! (relay, cost) := costs !! best in
    Some (mkChoice relay cost costs).

(** [RouteTable::choose]. *)
Definition choose (t : RouteTable) (healthy : list string) (a b : IpAddr) : option Choice :=
  choose_from healthy (omap (costs_for t) [a; b]).

End RelayRoutes.

(** ** Facts about relay names *)

Section NormalizeFacts.
  Context {hbb : HbbCommon}.

Lemma contains_colon_port (s t : string) : contains_char ":" (s +:+ ":" +:+ t) = true.
Proof. unfold contains_char. rewrite str_exists_app. simpl. apply orb_true_r. Qed.

(** What the default port adds is unchanged by [trim] and [to_lowercase]. *)
Lemma port_suffix_lower (s : string) :
  to_lowercase (s +:+ ":" +:+ show_Z RELAY_PORT) = to_lowercase s +:+ ":" +:+ show_Z RELAY_PORT.
Proof.
  unfold to_lowercase. rewrite !str_map_app.
  by rewrite (str_map_fix is_dec _ (show_Z _) is_dec_lower (show_Z_dec _)).
Qed.

Lemma port_suffix_ends_black (s : string) :
  ends_black (s +:+ ":" +:+ show_Z RELAY_PORT) = true.
Proof.
  apply ends_black_app; [|done].
  apply (str_forall_ends_black (fun c => is_dec c || bool_decide (c = ":"%char))).
  - intros c. all_ascii c.
  - rewrite str_forall_app, andb_true_iff. split; [done|].
    pose proof (show_Z_dec RELAY_PORT) as H. revert H. generalize (show_Z RELAY_PORT).
    intros t. induction t as [|c t IH]; [done|].
    rewrite !str_forall_cons, !andb_true_iff. intros [-> Ht]. auto.
Qed.

Lemma port_suffix_trim (s : string) :
  starts_black s = true ->
  trim (s +:+ ":" +:+ show_Z RELAY_PORT) = s +:+ ":" +:+ show_Z RELAY_PORT.
Proof.
  intros Hs. apply trim_id; [|apply port_suffix_ends_black]. by destruct s.
Qed.

Lemma normalize_has_port (relay : string) : contains_char ":" (normalize relay) = true.
Proof.
  unfold normalize. destruct (contains_char ":" (to_lowercase (trim relay))) eqn:E; [done|].
  apply contains_colon_port.
Qed.

Lemma normalize_fixed (relay : string) :
  normalize (normalize relay) = normalize relay.
Proof.
  unfold normalize at 1. set (n := normalize relay).
  assert (Hn : to_lowercase (trim n) = n).
  { unfold n, normalize. destruct (trim_black relay) as [Hs _].
    destruct (contains_char ":" (to_lowercase (trim relay))).
    - by rewrite trim_lower, to_lowercase_idemp.
    - rewrite port_suffix_trim.
      + by rewrite port_suffix_lower, to_lowercase_idemp.
      + unfold to_lowercase. by rewrite starts_black_map by apply is_ws_lower. }
  rewrite Hn. unfold n. by rewrite normalize_has_port.
Qed.

Lemma normalize_default_port (host : string) :
  contains_char ":" host = false ->
  normalize (trim host +:+ ":" +:+ show_Z RELAY_PORT) = normalize host.
Proof.
  intros Hc. destruct (trim_black host) as [Hs _].
  unfold normalize. rewrite port_suffix_trim, port_suffix_lower by done.
  rewrite contains_colon_port.
  assert (contains_char ":" (to_lowercase (trim host)) = false) as ->; [|done].
  rewrite contains_colon_lower. apply not_true_iff_false. intros Ht.
  apply not_true_iff_false in Hc. apply Hc. by apply contains_char_trim.
Qed.

End NormalizeFacts.

(** ** The relay list *)

Section RelayListFacts.
  Context {hbb : HbbCommon}.

(** The entries of a relay list: trimmed, empty ones skipped. *)
Definition list_entries (raws : list string) : list string :=
  List.filter str_nonempty (trim <$> raws).

(** What [parse_relay_list] has established after the pieces [raws]. *)
Record relay_list_ok (raws : list string)
    (acc : list string * list (string * EntryProblem)) : Prop := {
  rl_distinct : NoDup (normalize <$> acc.1);
  rl_usable : Forall (fun e => relay_entry_problem e = None) acc.1;
  rl_order : acc.1 `sublist_of` list_entries raws;
  rl_partition : acc.1 ++ acc.2.*1 ≡ₚ list_entries raws;
  rl_complete : forall e, e ∈ list_entries raws -> relay_entry_problem e = None ->
    normalize e ∈ normalize <$> acc.1;
  rl_reasons : Forall (fun d => match relay_entry_problem d.1 with
                                | Some w => d.2 = w
                                | None => d.2 = ListedTwice /\ normalize d.1 ∈ normalize <$> acc.1
                                end) acc.2;
}.

Lemma list_entries_snoc (raws : list string) (raw : string) :
  list_entries (raws ++ [raw]) =
  list_entries raws ++ (if str_is_empty (trim raw) then [] else [trim raw]).
Proof.
  unfold list_entries. rewrite fmap_app, List.filter_app. simpl.
  by destruct (trim raw).
Qed.

Lemma existsb_normalize (kept : list string) (e : string) :
  existsb (fun k => bool_decide (normalize k = normalize e)) kept = true <->
  normalize e ∈ normalize <$> kept.
Proof.
  rewrite existsb_exists, list_elem_of_fmap. setoid_rewrite <- list_elem_of_In.
  setoid_rewrite bool_decide_eq_true.
  split; intros (k & H1 & H2); exists k; by split.
Qed.

Lemma relay_list_drop raws kept dropped raw why :
  str_is_empty (trim raw) = false ->
  (match relay_entry_problem (trim raw) with
   | Some w => why = w
   | None => why = ListedTwice /\ normalize (trim raw) ∈ normalize <$> kept end) ->
  relay_list_ok raws (kept, dropped) ->
  relay_list_ok (raws ++ [raw]) (kept, dropped ++ [(trim raw, why)]).
Proof.
  intros Hne Hwhy [Hd Hu Ho Hp Hc Hr].
  constructor; rewrite ?list_entries_snoc, ?Hne; simpl in *.
  - done.
  - done.
  - by apply sublist_inserts_r.
  - rewrite fmap_app, app_assoc, Hp. done.
  - intros e [He| ->%list_elem_of_singleton]%elem_of_app Hpe; [by apply Hc|].
    rewrite Hpe in Hwhy. apply Hwhy.
  - apply Forall_app. split; [done|]. by apply Forall_singleton.
Qed.

Lemma relay_list_keep raws kept dropped raw :
  str_is_empty (trim raw) = false ->
  relay_entry_problem (trim raw) = None ->
  normalize (trim raw) ∉ normalize <$> kept ->
  relay_list_ok raws (kept, dropped) ->
  relay_list_ok (raws ++ [raw]) (kept ++ [trim raw], dropped).
Proof.
  intros Hne Hpr Hnew [Hd Hu Ho Hp Hc Hr].
  constructor; rewrite ?list_entries_snoc, ?Hne; simpl in *; rewrite ?fmap_app; simpl.
  - apply NoDup_app. split; [done|]. split; [|apply NoDup_singleton].
    intros x Hx ->%list_elem_of_singleton. done.
  - apply Forall_app. split; [done|]. by apply Forall_singleton.
  - by apply sublist_app.
  - rewrite <- Hp, <- !app_assoc. apply Permutation_app_head, Permutation_app_comm.
  - intros e [He| ->%list_elem_of_singleton]%elem_of_app Hpe; apply elem_of_app; [left; by apply Hc|].
    right. by left.
  - eapply Forall_impl; [exact Hr|]. intros [e w]; simpl.
    destruct (relay_entry_problem e); [done|]. intros [? ?]. split; [done|].
    apply elem_of_app. by left.
Qed.

Lemma parse_relay_entry_ok raws acc raw :
  relay_list_ok raws acc -> relay_list_ok (raws ++ [raw]) (parse_relay_entry acc raw).
Proof.
  destruct acc as [kept dropped]. intros Hok. unfold parse_relay_entry.
  destruct (str_is_empty (trim raw)) eqn:Hne.
  { destruct Hok. constructor; rewrite ?list_entries_snoc, ?Hne, ?app_nil_r; done. }
  destruct (relay_entry_problem (trim raw)) as [why|] eqn:Hpr.
  { apply relay_list_drop; rewrite ?Hpr; done. }
  destruct (existsb _ kept) eqn:Hex.
  - apply relay_list_drop; rewrite ?Hpr; [done| |done].
    split; [done|]. by apply existsb_normalize.
  - apply relay_list_keep; [done..| |done].
    apply not_true_iff_false in Hex. by rewrite existsb_normalize in Hex.
Qed.

Lemma parse_relay_fold_ok (todo raws : list string) acc :
  relay_list_ok raws acc -> relay_list_ok (raws ++ todo) (fold_left parse_relay_entry todo acc).
Proof.
  revert raws acc. induction todo as [|raw todo IH]; intros raws acc Hok; simpl.
  { by rewrite app_nil_r. }
  replace (raws ++ raw :: todo) with ((raws ++ [raw]) ++ todo) by by rewrite <- app_assoc.
  by apply IH, parse_relay_entry_ok.
Qed.

End RelayListFacts.

(** ** Well-formed tables *)

Section TableFacts.
  Context {hbb : HbbCommon} {netlib : IpNetworkLib}.

(** Every cost is a finite time that is not negative, under a normalised name. *)
Definition costs_wf (costs : gmap string f64) : Prop :=
  map_Forall (fun k c => normalize k = k /\ is_finite c = true /\ nonneg c = true) costs.

Definition rule_wf (r : Rule) : Prop := rule_costs r <> ∅ /\ costs_wf (rule_costs r).

(** What identifies a line: the network it denotes. *)
Definition net_id (r : Rule) : IpAddr * Z :=
  (net_network (rule_net r), net_prefix (rule_net r)).

Definition rules_wf (rs : list Rule) : Prop := Forall rule_wf rs /\ NoDup (net_id <$> rs).

Definition longest_first (a b : Rule) : Prop :=
  net_prefix (rule_net b) <= net_prefix (rule_net a).

Definition table_wf (t : RouteTable) : Prop :=
  rules t <> [] /\ rules_wf (rules t) /\ StronglySorted longest_first (rules t).

Lemma parse_cost_wf n costs e costs' :
  costs_wf costs -> parse_cost n costs e = Ok costs' -> costs_wf costs'.
Proof.
  intros Hwf. unfold parse_cost.
  destruct (rsplit_once _ e) as [[relay ms_text]|]; simpl; [|done].
  destruct (parse_f64 ms_text) as [ms|]; simpl; [|done].
  destruct (negb (is_finite ms) || f64_lt ms (S754_zero false)) eqn:E; [done|].
  destruct (str_is_empty (trim relay)); [done|].
  destruct (costs !! normalize relay); [done|].
  apply orb_false_iff in E as [Hf%negb_false_iff Hlt]. intros [= <-].
  apply map_Forall_insert_2; [|done].
  split; [apply normalize_fixed|]. split; [done|]. by apply parse_bound_nonneg.
Qed.

Lemma parse_costs_wf n costs es costs' :
  costs_wf costs -> parse_costs n costs es = Ok costs' -> costs_wf costs'.
Proof.
  revert costs. induction es as [|e es IH]; intros costs Hwf; simpl.
  - by intros [= <-].
  - destruct (parse_cost n costs e) eqn:E; [|done]. eauto using parse_cost_wf.
Qed.

Lemma same_network_id (r : Rule) (net : IpNetwork) costs :
  same_network (rule_net r) net = true <-> net_id r = net_id (mkRule net costs).
Proof.
  unfold same_network, net_id. rewrite andb_true_iff, bool_decide_eq_true, Z.eqb_eq. simpl.
  split; [by intros [-> ->]|by intros [= -> ->]].
Qed.

Lemma parse_line_wf rs n raw r :
  rules_wf rs -> parse_line rs n raw = Ok (Some r) -> rules_wf (rs ++ [r]).
Proof.
  intros [Hwf Hnd]. unfold parse_line.
  destruct (str_is_empty _); [done|].
  destruct (net_parse _) as [net|]; simpl; [|done].
  destruct (existsb _ rs) eqn:Hex; [done|].
  destruct (parse_costs _ _ _) as [costs|] eqn:Hc; [|done].
  case_bool_decide as Hne; [done|]. intros [= <-].
  apply parse_costs_wf in Hc; [|apply map_Forall_empty].
  split; [apply Forall_app; split; [done|]; by apply Forall_singleton|].
  rewrite fmap_app. apply NoDup_app. split; [done|]. split; [|apply NoDup_singleton].
  intros x Hx ->%list_elem_of_singleton.
  apply list_elem_of_fmap in Hx as (r & Hid & Hr).
  apply not_true_iff_false in Hex. apply Hex, existsb_exists.
  exists r. split; [by apply list_elem_of_In|]. by rewrite (same_network_id _ _ costs).
Qed.

Lemma parse_lines_wf rs i ls rs' :
  rules_wf rs -> parse_lines rs i ls = Ok rs' -> rules_wf rs'.
Proof.
  revert rs i. induction ls as [|raw ls IH]; intros rs i Hwf; simpl.
  { by intros [= <-]. }
  destruct (parse_line rs (S i) raw) as [[r|]|] eqn:E; [..|done];
    eauto using parse_line_wf.
Qed.

Lemma rules_wf_perm rs rs' : rs ≡ₚ rs' -> rules_wf rs -> rules_wf rs'.
Proof. intros Hp [Hwf Hnd]. split; by rewrite <- Hp. Qed.

Lemma sort_table_wf rs :
  rs <> [] -> rules_wf rs -> table_wf (mkRouteTable (sort_by rule_before rs)).
Proof.
  intros Hne Hwf. unfold table_wf. cbn [rules]. split; [|split].
  - intros Hn. apply Hne, Permutation_nil_r. by rewrite <- Hn, sort_by_perm.
  - by eapply rules_wf_perm; [symmetry; apply sort_by_perm|].
  - eapply StronglySorted_impl; [|apply sort_by_sorted].
    + intros a b. unfold rule_before, longest_first. apply Z.leb_le.
    + unfold rule_before. intros x y z. rewrite !Z.leb_le. lia.
    + unfold rule_before. intros x y. rewrite Z.leb_gt, Z.leb_le. lia.
Qed.

Lemma parse_table_wf text t : parse text = Ok t -> table_wf t.
Proof.
  unfold parse. destruct (parse_lines [] 0 (lines text)) as [rs|] eqn:E; [|done].
  apply parse_lines_wf in E; [|by split; [|apply NoDup_nil_2]].
  destruct rs as [|r rs]; [done|]. intros [= <-]. by apply (sort_table_wf (r :: rs)).
Qed.

(** The line an error names. *)
Definition error_line (e : RouteError) : option nat :=
  match e with
  | NotANetwork n _ | NetworkTwice n _ | NotRelayMs n _ | NotANumber n _
  | NotFiniteTime n _ | NoRelayName n _ | RelayTwice n _ | NoRelays n _ => Some n
  | NoRoutes | CannotRead => None
  end.

Lemma parse_cost_line n costs e err :
  parse_cost n costs e = Err err -> error_line err = Some n.
Proof. unfold parse_cost, ok_or. repeat (case_match; simplify_eq/=); intros; by simplify_eq. Qed.

Lemma parse_costs_line n costs es err :
  parse_costs n costs es = Err err -> error_line err = Some n.
Proof.
  revert costs. induction es as [|e es IH]; intros costs; simpl; [done|].
  destruct (parse_cost n costs e) eqn:E; [apply IH|]. intros [= <-].
  by eapply parse_cost_line.
Qed.

Lemma parse_line_line rs n raw err :
  parse_line rs n raw = Err err -> error_line err = Some n.
Proof.
  unfold parse_line, ok_or. destruct (str_is_empty _); [done|].
  destruct (net_parse _) as [net|]; [|by intros [= <-]].
  destruct (existsb _ rs); [by intros [= <-]|].
  destruct (parse_costs _ _ _) eqn:Hc; [|intros [= <-]; by eapply parse_costs_line].
  case_bool_decide; by intros [= <-].
Qed.

(** Where a refused file goes wrong: every line before is accepted, and the named
    line is the one that is not. *)
Lemma parse_lines_located rs i ls err :
  parse_lines rs i ls = Err err ->
  exists pre raw post rs', ls = pre ++ raw :: post /\
    parse_lines rs i pre = Ok rs' /\
    parse_line rs' (S (i + length pre)) raw = Err err /\
    error_line err = Some (S (i + length pre)).
Proof.
  revert rs i. induction ls as [|raw ls IH]; intros rs i; simpl; [done|].
  destruct (parse_line rs (S i) raw) as [r|e] eqn:E.
  - intros H. apply IH in H as (pre & raw' & post & rs' & -> & H1 & H2 & H3).
    exists (raw :: pre), raw', post, rs'. simpl. rewrite E, Nat.add_succ_r. auto.
  - intros [= ->]. exists [], raw, ls, rs. simpl. rewrite Nat.add_0_r.
    eauto using parse_line_line.
Qed.

End TableFacts.

(** ** Longest prefix lookup *)

Section LookupFacts.
  Context {hbb : HbbCommon} {netlib : IpNetworkLib}.

Lemma find_first {A} (p : A -> bool) (l : list A) (x : A) :
  List.find p l = Some x <->
  exists pre post, l = pre ++ x :: post /\ p x = true /\ Forall (fun y => p y = false) pre.
Proof.
  split.
  - induction l as [|y l IH]; simpl; [done|]. destruct (p y) eqn:E.
    + intros [= <-]. by exists [], l.
    + intros H. apply IH in H as (pre & post & -> & Hx & Hpre).
      exists (y :: pre), post. split; [done|]. by split; [|constructor].
  - intros (pre & post & -> & Hx & Hpre).
    induction Hpre as [|y pre Hy _ IH]; simpl; [by rewrite Hx|by rewrite Hy].
Qed.

(** The rule found contains the address, and no rule that does has a longer
    prefix. *)
Lemma lookup_rule_longest t ip r :
  table_wf t -> lookup_rule t ip = Some r ->
  r ∈ rules t /\ net_contains (rule_net r) (to_canonical ip) = true /\
  forall r', r' ∈ rules t -> net_contains (rule_net r') (to_canonical ip) = true ->
    longest_first r r'.
Proof.
  intros (_ & _ & Hs) H. apply find_first in H as (pre & post & E & Hr & Hpre).
  rewrite E in *. split; [set_solver|]. split; [done|].
  intros r' Hr' Hc. apply elem_of_app in Hr' as [Hr'|Hr'].
  { rewrite Forall_forall in Hpre. by rewrite Hpre in Hc. }
  apply elem_of_cons in Hr' as [->|Hr']; [unfold longest_first; lia|].
  apply StronglySorted_app_1_r, StronglySorted_inv in Hs as [_ Hs].
  rewrite Forall_forall in Hs. by apply Hs.
Qed.

Lemma lookup_rule_none t ip :
  lookup_rule t ip = None ->
  forall r, r ∈ rules t -> net_contains (rule_net r) (to_canonical ip) = false.
Proof.
  intros H r Hr. apply (List.find_none _ _ H). by apply list_elem_of_In.
Qed.

  Context {laws : IpNetworkLaws netlib}.

(** Two lines of one table with the same prefix length do not share an address. *)
Lemma same_prefix_same_rule t r1 r2 ip :
  table_wf t -> r1 ∈ rules t -> r2 ∈ rules t ->
  net_contains (rule_net r1) ip = true -> net_contains (rule_net r2) ip = true ->
  net_prefix (rule_net r1) = net_prefix (rule_net r2) -> r1 = r2.
Proof.
  intros (_ & [_ Hnd] & _) H1 H2. rewrite !net_contains_spec, !bool_decide_eq_true.
  intros Hc1 Hc2 Hp.
  apply list_elem_of_lookup in H1 as [i Hi], H2 as [j Hj].
  assert (net_id r1 = net_id r2) as Hid.
  { unfold net_id. by rewrite <- Hc1, <- Hc2, Hp. }
  assert (i = j) as ->; [|congruence].
  eapply NoDup_lookup; [exact Hnd| |].
  - by rewrite list_lookup_fmap, Hi.
  - by rewrite list_lookup_fmap, Hj, Hid.
Qed.

End LookupFacts.

(** ** The choice is the earliest minimum *)

Section ChooseFacts.
  Context {hbb : HbbCommon}.

(** [k] is the earliest index of a minimum: nothing is cheaper, and everything
    before it is dearer. *)
Definition first_min (costs : list f64) (k : nat) : Prop :=
  exists c, costs !! k = Some c /\
    (forall j d, costs !! j = Some d -> f64_lt d c = false) /\
    (forall j d, (j < k)%nat -> costs !! j = Some d -> f64_lt c d = true).

(** [first_min] among the first [i] costs. *)
Definition first_min_upto (costs : list f64) (i k : nat) : Prop :=
  (k < i)%nat /\ first_min (take i costs) k.

Lemma cost_at_snd costs i r c : costs !! i = Some (r, c) -> cost_at costs i = c.
Proof. unfold cost_at. by intros ->. Qed.

Lemma first_min_step (costs : list f64) (i k : nat) (c d : f64) :
  Forall (fun x => is_nan x = false) costs ->
  costs !! k = Some c -> costs !! i = Some d ->
  first_min_upto costs i k ->
  first_min_upto costs (S i) (if f64_lt d c then i else k).
Proof.
  intros Hnan Hk Hi [Hlt (c' & Hc' & Hmin & Hfst)].
  rewrite lookup_take_lt in Hc' by done. assert (c' = c) as -> by congruence.
  assert (Hupto : forall j e, take (S i) costs !! j = Some e -> (j < i)%nat /\ costs !! j = Some e \/ j = i /\ e = d).
  { intros j e [Hj Hji]%lookup_take_Some. destruct (decide (j = i)) as [->|]; [right|left].
    - split; [done|congruence].
    - split; [lia|done]. }
  destruct (f64_lt d c) eqn:E; (split; [lia|]).
  - exists d. split; [by rewrite lookup_take_lt by lia|].
    assert (Hall : forall j e, (j < i)%nat -> costs !! j = Some e -> f64_lt d e = true).
    { intros j e Hj He. eapply f64_lt_not_lt_trans; [|exact E|].
      - rewrite Forall_lookup in Hnan. by eapply Hnan.
      - apply (Hmin j). by rewrite lookup_take_lt. }
    split.
    + intros j e He. apply Hupto in He as [[Hj He]|[-> ->]]; [|apply f64_lt_irrefl].
      apply not_true_iff_false. intros Hed.
      pose proof (f64_lt_trans _ _ _ (Hall j e Hj He) Hed) as Hdd.
      by rewrite f64_lt_irrefl in Hdd.
    + intros j e Hj He. apply Hupto in He as [[_ He]|[-> _]]; [by eapply Hall|lia].
  - exists c. split; [by rewrite lookup_take_lt by lia|]. split.
    + intros j e He. apply Hupto in He as [[Hj He]|[-> ->]]; [|done].
      apply (Hmin j). by rewrite lookup_take_lt.
    + intros j e Hj He. apply Hupto in He as [[Hji He]|[-> _]]; [|lia].
      apply (Hfst j); [done|]. by rewrite lookup_take_lt.
Qed.

Lemma best_loop_first_min (costs rest : list (string * f64)) (i best : nat) :
  Forall (fun x => is_nan x = false) costs.*2 ->
  rest = drop i costs -> first_min_upto costs.*2 i best ->
  first_min costs.*2 (best_loop costs rest i best).
Proof.
  intros Hnan. revert i best. induction rest as [|[r d] rest IH]; intros i best Hrest Hinv.
  - simpl. destruct Hinv as [_ Hinv].
    assert (length costs <= i)%nat.
    { apply (f_equal length) in Hrest. rewrite length_drop in Hrest. simpl in Hrest. lia. }
    by rewrite take_ge in Hinv by (by rewrite length_fmap).
  - simpl.
    assert (Hi : costs !! i = Some (r, d)).
    { rewrite <- (Nat.add_0_r i), <- lookup_drop, <- Hrest. done. }
    pose proof Hinv as [Hlt (c & Hc & _)]. rewrite lookup_take_lt in Hc by done.
    assert (Hcat : cost_at costs best = c).
    { apply list_lookup_fmap_Some in Hc as ([r' c'] & -> & Hb). by eapply cost_at_snd. }
    rewrite Hcat. apply IH.
    + rewrite (drop_S _ _ _ Hi) in Hrest. by injection Hrest.
    + eapply first_min_step; [done|exact Hc| |done]. by rewrite list_lookup_fmap, Hi.
Qed.

(** The costs one end of a session is known by are usable: none is NaN or
    negative. *)
Definition side_ok (s : gmap string f64) : Prop := map_Forall (fun _ c => nonneg c = true) s.

Lemma costs_wf_side_ok costs : costs_wf costs -> side_ok costs.
Proof. intros H k c Hk. by apply H in Hk as (_ & _ & Hn). Qed.

Lemma relay_total_nonneg sides relay :
  Forall side_ok sides -> nonneg (relay_total sides relay) = true.
Proof.
  intros H. unfold relay_total. apply f64_sum_nonneg, Forall_fmap.
  eapply Forall_impl; [exact H|]. intros s Hs. simpl.
  destruct (s !! normalize relay) eqn:E; [by apply Hs in E|done].
Qed.

(** What [choose_from] promises its callers. *)
Definition choice_spec (healthy : list string) (sides : list (gmap string f64))
    (o : option Choice) : Prop :=
  match o with
  | None => healthy = [] \/ sides = []
  | Some c =>
      sides <> [] /\
      choice_costs c = (fun r => (r, relay_total sides r)) <$> healthy /\
      cost_ms c = relay_total sides (choice_relay c) /\
      exists k, healthy !! k = Some (choice_relay c) /\
        first_min (relay_total sides <$> healthy) k
  end.

Lemma best_index_first_min (costs : list (string * f64)) :
  costs <> [] -> Forall (fun x => is_nan x = false) costs.*2 ->
  first_min costs.*2 (best_loop costs costs 0 0).
Proof.
  destruct costs as [|[r c] costs]; [done|]. intros _ Hnan.
  change (first_min ((r, c) :: costs).*2
    (best_loop ((r, c) :: costs) costs 1 (if f64_lt c c then 0 else 0))%nat).
  rewrite f64_lt_irrefl. apply best_loop_first_min; [done..|].
  split; [lia|]. exists c. simpl. split; [done|]. split; [|lia].
  intros [|j] d; simpl; [|done]. intros [= <-]. apply f64_lt_irrefl.
Qed.

Lemma choose_from_correct healthy sides :
  Forall side_ok sides -> choice_spec healthy sides (choose_from healthy sides).
Proof.
  intros Hok. unfold choose_from.
  case_bool_decide as Hh; [by left|]. case_bool_decide as Hs; simpl.
  { right. by apply nil_length_inv. }
  set (costs := (fun relay => (relay, relay_total sides relay)) <$> healthy).
  assert (Hsnd : costs.*2 = relay_total sides <$> healthy).
  { unfold costs. by rewrite <- list_fmap_compose. }
  assert (Hmin : first_min costs.*2 (best_loop costs costs 0 0)).
  { apply best_index_first_min; [by destruct healthy|]. rewrite Hsnd.
    apply Forall_fmap, Forall_true. intros r.
    apply nonneg_not_nan, relay_total_nonneg, Hok. }
  rewrite Hsnd in Hmin. pose proof Hmin as (c & Hc & _).
  apply list_lookup_fmap_Some in Hc as (r & -> & Hr).
  assert (costs !! best_loop costs costs 0 0 = Some (r, relay_total sides r)) as ->.
  { revert Hr. generalize (best_loop costs costs 0 0). intros k Hr.
    unfold costs. by rewrite list_lookup_fmap, Hr. }
  split; [by intros ->|]. eauto 10.
Qed.

(** The choice depends on the sides only through the totals. *)
Lemma choose_from_ext healthy sides sides' :
  length sides = length sides' ->
  (forall r, relay_total sides r = relay_total sides' r) ->
  choose_from healthy sides = choose_from healthy sides'.
Proof.
  intros Hl Ht. unfold choose_from. rewrite Hl.
  erewrite (list_fmap_ext (fun r => (r, relay_total sides r))); [done|].
  intros _ r _. by rewrite Ht.
Qed.

Lemma relay_total_swap x y r : relay_total [x; y] r = relay_total [y; x] r.
Proof. unfold relay_total. simpl. apply f64_sum_pair_comm. Qed.

Lemma choose_from_swap healthy x y : choose_from healthy [x; y] = choose_from healthy [y; x].
Proof. apply choose_from_ext; [done|]. apply relay_total_swap. Qed.

End ChooseFacts.

Section TableSides.
  Context {hbb : HbbCommon} {netlib : IpNetworkLib}.

Lemma costs_for_side_ok t ip s :
  table_wf t -> costs_for t ip = Some s -> side_ok s.
Proof.
  intros (_ & [Hwf _] & _) H. unfold costs_for in H.
  apply fmap_Some in H as (r & Hr & ->). unfold lookup_rule in Hr.
  apply List.find_some in Hr as [Hin _]. rewrite Forall_forall in Hwf.
  apply costs_wf_side_ok, Hwf. by apply list_elem_of_In.
Qed.

Lemma omap_costs_side_ok t ips :
  table_wf t -> Forall side_ok (omap (costs_for t) ips).
Proof.
  intros Hwf. apply Forall_forall. intros s Hs.
  apply list_elem_of_omap in Hs as (ip & _ & Hs). by eapply costs_for_side_ok.
Qed.

End TableSides.

(** ** Properties *)

Section RelayRoutesProperties.
  Context {hbb : HbbCommon} {netlib : IpNetworkLib}.

(** C19: for a table read from a file, [choose] answers [None] exactly when nothing
    is healthy or the table knows neither end; otherwise the relay is the earliest of
    the healthy ones whose summed cost no other beats, it is handed back exactly as it
    was configured, and the reported costs are the totals in the given order. *)
Theorem choose_is_earliest_cheapest text t healthy a b :
  parse text = Ok t ->
  choice_spec healthy (omap (costs_for t) [a; b]) (choose t healthy a b).
Proof. intros H%parse_table_wf. by apply choose_from_correct, omap_costs_side_ok. Qed.

(** The choice does not depend on which of the two addresses is the
    controller. *)
Theorem choose_symmetric t healthy a b : choose t healthy a b = choose t healthy b a.
Proof.
  unfold choose. simpl.
  destruct (costs_for t a), (costs_for t b); try done. apply choose_from_swap.
Qed.

(** C39: a file that [parse] accepts gives a table with at least one line, no
    network twice, longest prefix first, and on every line at least one relay, every
    relay under its normalised name with a finite, non-negative time. *)
Theorem parse_accepts_only_wf_tables text t : parse text = Ok t -> table_wf t.
Proof. apply parse_table_wf. Qed.

(** A refused file is refused at its first bad line: when the error names line
    [n], the [n - 1] lines before it are accepted and line [n] is the one that is not;
    an error without a line number means that no line was bad and there was no
    route. *)
Theorem parse_error_names_first_bad_line text e :
  parse text = Err e ->
  match error_line e with
  | Some n => exists pre raw post rs, lines text = pre ++ raw :: post /\
      n = S (length pre) /\ parse_lines [] 0 pre = Ok rs /\ parse_line rs n raw = Err e
  | None => e = NoRoutes /\ parse_lines [] 0 (lines text) = Ok []
  end.
Proof.
  unfold parse. destruct (parse_lines [] 0 (lines text)) as [[|r rs]|e'] eqn:E; [|done|].
  - by intros [= <-].
  - intros [= ->]. apply parse_lines_located in E as (pre & raw & post & rs & -> & H1 & H2 & ->).
    by exists pre, raw, post, rs.
Qed.

(** Comparing relay names by [normalize] is well defined (normalising twice is
    normalising once), and a host written without a port is the same relay as the host
    with hbbr's default port. *)
Theorem normalize_canonical (relay : string) :
  normalize (normalize relay) = normalize relay /\
  (contains_char ":" relay = true \/
   normalize (trim relay +:+ ":" +:+ show_Z RELAY_PORT) = normalize relay).
Proof.
  split; [apply normalize_fixed|].
  destruct (contains_char ":" relay) eqn:E; [by left|right]. by apply normalize_default_port.
Qed.

(** [parse_relay_list] loses and invents nothing: the kept and the dropped
    entries are together the non-empty trimmed entries, the kept ones in their order,
    all usable and no relay twice; every usable entry's relay is kept, and the reason
    given for each dropped one is its problem or that the relay is already kept. *)
Theorem parse_relay_list_correct (l : string) :
  relay_list_ok (split_on "," l) (parse_relay_list l).
Proof.
  apply (parse_relay_fold_ok _ []). constructor; simpl; try done.
  - apply NoDup_nil_2.
  - set_solver.
Qed.

  Context {laws : IpNetworkLaws netlib}.

(** C31: [lookup] is longest-prefix match.  A rule is found for an address exactly
    when it is the table's one rule that contains the (unwrapped) address with the
    longest prefix; none is found exactly when no line contains it. *)
Theorem lookup_is_longest_prefix_match t ip :
  table_wf t ->
  (forall r, lookup_rule t ip = Some r <->
     r ∈ rules t /\ net_contains (rule_net r) (to_canonical ip) = true /\
     forall r', r' ∈ rules t -> net_contains (rule_net r') (to_canonical ip) = true ->
       net_prefix (rule_net r') <= net_prefix (rule_net r)) /\
  (lookup_rule t ip = None <->
     forall r, r ∈ rules t -> net_contains (rule_net r) (to_canonical ip) = false).
Proof.
  intros Hwf. split; [intros r; split|split].
  - by apply lookup_rule_longest.
  - intros (Hr & Hc & Hmax). destruct (lookup_rule t ip) as [r'|] eqn:E.
    + apply lookup_rule_longest in E as (Hr' & Hc' & Hmax'); [|done]. f_equal.
      eapply same_prefix_same_rule; try done.
      pose proof (Hmax r' Hr' Hc'). pose proof (Hmax' r Hr Hc). unfold longest_first in *. lia.
    + by rewrite (lookup_rule_none _ _ E r Hr) in Hc.
  - apply lookup_rule_none.
  - intros Hno. destruct (lookup_rule t ip) as [r|] eqn:E; [|done].
    apply lookup_rule_longest in E as (Hr & Hc & _); [|done]. by rewrite Hno in Hc.
Qed.

End RelayRoutesProperties.

(** ** Witnesses: the table of the module's own tests *)

#[local] Existing Instance example_hbb.
#[local] Existing Instance example_net.
#[local] Existing Instance example_net_laws.

Definition example_text : string :=
  "# home is near HK, school is near Shanghai" +:+ String LF "" +:+
  "203.0.113.0/24   hk.example.com:21117=38, sh.example.com:21117=95" +:+ String LF "" +:+
  "198.51.100.0/22  sh.example.com:21117=12  hk.example.com:21117=80".

Definition example_table : RouteTable :=
  unwrap_or (mkRouteTable []) (parse example_text).

Definition example_relays : list string := ["hk.example.com:21117"; "sh.example.com"].

(** 203.0.113.7 and 198.51.100.9. *)
Definition example_home : IpAddr := V4 3405803783.
Definition example_school : IpAddr := V4 3325256713.

Lemma example_table_parses : parse example_text = Ok example_table.
Proof. apply is_ok_unwrap. vm_compute. reflexivity. Qed.

Lemma choose_is_earliest_cheapest_witness :
  choice_relay <$> choose example_table example_relays example_home example_school
    = Some "sh.example.com" /\
  choice_spec example_relays (omap (costs_for example_table) [example_home; example_school])
    (choose example_table example_relays example_home example_school).
Proof.
  split; [vm_compute; reflexivity|].
  apply (choose_is_earliest_cheapest example_text), example_table_parses.
Defined.

Lemma parse_accepts_only_wf_tables_witness :
  length (rules example_table) = 2%nat /\ table_wf example_table.
Proof.
  split; [vm_compute; reflexivity|].
  apply (parse_accepts_only_wf_tables example_text), example_table_parses.
Defined.

(** The third line repeats the second line's network. *)
Definition example_bad_text : string :=
  "# fine" +:+ String LF "" +:+ "10.0.0.0/8 a:1=5" +:+ String LF "" +:+ "10.0.0.0/8 b:1=5".

Lemma parse_error_names_first_bad_line_witness :
  exists pre raw post rs, lines example_bad_text = pre ++ raw :: post /\
    3%nat = S (length pre) /\ parse_lines [] 0 pre = Ok rs /\
    parse_line rs 3 raw = Err (NetworkTwice 3 "10.0.0.0/8").
Proof.
  apply (parse_error_names_first_bad_line example_bad_text (NetworkTwice 3 "10.0.0.0/8")).
  reflexivity.
Defined.

Lemma lookup_is_longest_prefix_match_witness :
  (net_prefix ∘ rule_net) <$> lookup_rule example_table example_home = Some 24 /\
  (forall r, lookup_rule example_table example_home = Some r <->
     r ∈ rules example_table /\
     net_contains (rule_net r) (to_canonical example_home) = true /\
     forall r', r' ∈ rules example_table ->
       net_contains (rule_net r') (to_canonical example_home) = true ->
       net_prefix (rule_net r') <= net_prefix (rule_net r)).
Proof.
  split; [vm_compute; reflexivity|].
  apply (lookup_is_longest_prefix_match example_table example_home).
  apply (parse_table_wf example_text), example_table_parses.
Defined.

(** A malformed bracketed address is accepted: the [?] on the missing [ ] ] returns
    "no problem". *)
Example unclosed_bracket_accepted :
  relay_entry_problem "[::1" = None /\ relay_entry_problem "[::1]x" = None.
Proof. vm_compute. done. Qed.
