(* ===== verification/RelayGeo.v ===== *)
(** * Geographic placement ([src/src/relay_geo.rs])

    Where a client is, from its address, and what every relay costs from there.  The
    locations parser, the great-circle distance and the database lookup are
    translated; the GeoIP reader (crate [maxminddb]) and the platform's trigonometric
    functions are parameters.  Copying the database before mapping it
    ([open_mapped]'s choice of folder) is not modelled: [open] starts from the
    reader. *)

From S2P Require Import Prelude RustStr RustFloat Net External RelayRoutes.
From Stdlib Require Import Ascii SpecFloat.

Local Open Scope Z_scope.

(** ** Parameters *)

(** [f64::sin], [cos] and [asin], whose precision Rust leaves to the platform. *)
Class FloatTrig : Type := {
  f64_sin : f64 -> f64;
  f64_cos : f64 -> f64;
  f64_asin : f64 -> f64;
}.

Definition F0 : f64 := S754_zero false.
Definition F1 : f64 := f64_of_Z 1.

(** The arc sine of a number between 0 and 1 is a finite, non-negative angle. *)
Class FloatTrigLaws (T : FloatTrig) : Prop := {
  asin_unit : forall x, f64_le F0 x = true -> f64_le x F1 = true ->
    is_finite (f64_asin x) = true /\ nonneg (f64_asin x) = true;
}.

(** An open MMDB file: its metadata and what it decodes for an address. *)
Class MaxMind : Type := {
  Reader : Type;
  reader_type : Reader -> string;
  reader_nodes : Reader -> Z;
  reader_latitude : Reader -> IpAddr -> option f64;
  reader_longitude : Reader -> IpAddr -> option f64;
}.

(** ** Data *)

Record Point := mkPoint { lat : f64; lon : f64 }.

(** Why a locations file is refused; the number is the line's, from 1. *)
Inductive LocError :=
| ExpectedLocation (n : nat)
| NeedsTwoNumbers (n : nat) (relay rest : string)
| NotALatitude (n : nat) (text : string)
| NotALongitude (n : nat) (text : string)
| LatitudeOutside (n : nat) (lat : f64)
| LongitudeOutside (n : nat) (lon : f64)
| LocationTwice (n : nat) (relay : string)
| NoLocations
| CannotReadLocations.

Record Locations := mkLocations { loc_relays : gmap string Point }.

Inductive CityProblem :=
| NotADatabase
| NotACity (kind : string)
| TooFewNodes (count : Z).

(** A closed range's [contains]; false for NaN. *)
Definition in_range (lo hi : Z) (x : f64) : bool :=
  f64_le (f64_of_Z lo) x && f64_le x (f64_of_Z hi).

Section RelayGeo.
  Context {hbb : HbbCommon} {trig : FloatTrig} {mm : MaxMind}.

Definition KM_PER_MS : f64 := f64_of_Z 50.

(** [f64::to_radians]: a product with pi / 180. *)
Definition PI : f64 := S754_finite false 7074237752028440 (-51).
Definition to_radians (x : f64) : f64 := f64_mul x (f64_div PI (f64_of_Z 180)).

(** [x.powi(2)]. *)
Definition square (x : f64) : f64 := f64_mul x x.

Definition EARTH_RADIUS_KM : f64 := f64_of_Z 6371.

Definition distance_km (a b : Point) : f64 :=
  let la := to_radians (lat a) in
  let lb := to_radians (lat b) in
  let dlat := f64_sub lb la in
  let dlon := to_radians (f64_sub (lon b) (lon a)) in
  let two := f64_of_Z 2 in
  let h := f64_add (square (f64_sin (f64_div dlat two)))
             (f64_mul (f64_mul (f64_cos la) (f64_cos lb)) (square (f64_sin (f64_div dlon two)))) in
  f64_mul (f64_mul two EARTH_RADIUS_KM) (f64_asin (f64_min (f64_sqrt h) F1)).

(** ** Locations *)

Definition is_sep (c : ascii) : bool := bool_decide (c = ","%char) || is_ws c.

(** The body of [Locations::parse]'s loop, line [n] of the file. *)
Definition loc_line (relays : gmap string Point) (n : nat) (raw : string)
    : result LocError (gmap string Point) :=
  let line := trim (split_first "#" raw) in
  if str_is_empty line then Ok relays
  else
    let? (relay, rest) := ok_or (split_once_by is_ws line) (ExpectedLocation n) in
    match List.filter str_nonempty (split_by is_sep rest) with
    | [lat_text; lon_text] =>
        let? lat := ok_or (parse_f64 lat_text) (NotALatitude n lat_text) in
        let? lon := ok_or (parse_f64 lon_text) (NotALongitude n lon_text) in
        if negb (in_range (-90) 90 lat) then Err (LatitudeOutside n lat)
        else if negb (in_range (-180) 180 lon) then Err (LongitudeOutside n lon)
        else match relays !! normalize relay with
             | Some _ => Err (LocationTwice n relay)
             | None => Ok (<[normalize relay := mkPoint lat lon]> relays)
             end
    | _ => Err (NeedsTwoNumbers n relay rest)
    end.

Fixpoint loc_lines (relays : gmap string Point) (i : nat) (ls : list string)
    : result LocError (gmap string Point) :=
  match ls with
  | [] => Ok relays
  | raw :: ls' => let? relays := loc_line relays (S i) raw in loc_lines relays (S i) ls'
  end.

Definition loc_parse (text : string) : result LocError Locations :=
  let? relays := loc_lines ∅ 0 (lines text) in
  if bool_decide (relays = ∅) then Err NoLocations else Ok (mkLocations relays).

Definition loc_load (contents : option string) : result LocError Locations :=
  let? text := ok_or contents CannotReadLocations in loc_parse text.

Definition loc_len (l : Locations) : nat := size (loc_relays l).

Definition knows (l : Locations) (relay : string) : bool :=
  match loc_relays l !! normalize relay with Some _ => true | None => false end.

(** The listed relays that are not among [relays], in order. *)
Definition not_in (l : Locations) (relays : list string) : list string :=
  let have := normalize <$> relays in
  sort_by String.leb
    (List.filter (fun r => negb (bool_decide (r ∈ have))) (map_to_list (loc_relays l)).*1).

Definition costs_from (l : Locations) (at_ : Point) : gmap string f64 :=
  (fun p => f64_div (distance_km at_ p) KM_PER_MS) <$> loc_relays l.

(** ** The database *)

Record GeoDb := mkGeoDb { db_locate : IpAddr -> option Point; db_kind : string }.

(** [GeoDb::open] from the mapped reader on. *)
Definition geodb_of_reader (r : Reader) : GeoDb := {|
  db_kind := reader_type r;
  db_locate ip :=
    let! lat := reader_latitude r ip in
    let! lon := reader_longitude r ip in
    if negb (is_finite lat && is_finite lon) || negb (in_range (-90) 90 lat)
       || negb (in_range (-180) 180 lon)
    then None else Some (mkPoint lat lon)
|}.

Definition geodb_locate (db : GeoDb) (ip : IpAddr) : option Point :=
  db_locate db (to_canonical ip).

(** [GeoDb::validate_city], the file's reader being [None] when it does not open. *)
Definition validate_city (file : option Reader) (min_nodes : Z) : result CityProblem unit :=
  let? r := ok_or file NotADatabase in
  if negb (contains_str "City" (reader_type r)) then Err (NotACity (reader_type r))
  else if reader_nodes r <? min_nodes then Err (TooFewNodes (reader_nodes r))
  else Ok tt.

End RelayGeo.

(** ** Facts *)

(** A position on the globe. *)
Definition point_wf (p : Point) : Prop :=
  in_range (-90) 90 (lat p) = true /\ in_range (-180) 180 (lon p) = true.

Section GeoFacts.
  Context {hbb : HbbCommon} {trig : FloatTrig} {mm : MaxMind}.

(** Every relay is listed under its normalised name at a position on the globe. *)
Definition locations_wf (relays : gmap string Point) : Prop :=
  map_Forall (fun k p => normalize k = k /\ point_wf p) relays.

Lemma loc_line_wf relays n raw relays' :
  locations_wf relays -> loc_line relays n raw = Ok relays' -> locations_wf relays'.
Proof.
  intros Hwf. unfold loc_line, ok_or.
  destruct (str_is_empty _); [by intros [= <-]|].
  destruct (split_once_by is_ws _) as [[relay rest]|]; [|done].
  destruct (List.filter _ _) as [|x [|y [|]]]; try done.
  destruct (parse_f64 x) as [la|]; [|done]. destruct (parse_f64 y) as [lo|]; [|done].
  destruct (in_range (-90) 90 la) eqn:E1; [|done].
  destruct (in_range (-180) 180 lo) eqn:E2; [|done]. cbn [negb].
  destruct (relays !! normalize relay); [done|]. intros [= <-].
  apply map_Forall_insert_2; [|done]. split; [apply normalize_fixed|done].
Qed.

Lemma loc_lines_wf relays i ls relays' :
  locations_wf relays -> loc_lines relays i ls = Ok relays' -> locations_wf relays'.
Proof.
  revert relays i. induction ls as [|raw ls IH]; intros relays i Hwf; simpl.
  { by intros [= <-]. }
  destruct (loc_line relays (S i) raw) eqn:E; [|done]. eauto using loc_line_wf.
Qed.

Lemma loc_parse_wf text l :
  loc_parse text = Ok l -> loc_relays l <> ∅ /\ locations_wf (loc_relays l).
Proof.
  unfold loc_parse. destruct (loc_lines ∅ 0 (lines text)) eqn:E; [|done].
  case_bool_decide; [done|]. intros [= <-]. split; [done|].
  eapply loc_lines_wf; [|exact E]. apply map_Forall_empty.
Qed.

(** The argument of the arc sine is between 0 and 1 whatever the rounding did: a
    negative or NaN radicand gives NaN, which [f64::min] discards. *)
Lemma f64_le_of_not_lt x y :
  is_nan x = false -> is_nan y = false -> f64_lt y x = false -> f64_le x y = true.
Proof.
  unfold f64_lt, f64_le, SFltb, SFleb.
  destruct x as [[]|[]| |[] m1 e1], y as [[]|[]| |[] m2 e2]; try done; simpl; intros _ _;
    rewrite (Z.compare_antisym e1 e2);
    destruct (e1 ?= e2); simpl; try done;
    change (Pos.compare_cont Eq m2 m1) with (Pos.compare m2 m1);
    change (Pos.compare_cont Eq m1 m2) with (Pos.compare m1 m2);
    rewrite (Pos.compare_antisym m1 m2); by destruct (m1 ?= m2)%positive.
Qed.

Lemma nonneg_le_zero x : nonneg x = true -> f64_le F0 x = true.
Proof. by destruct x as [[]|[]| |[] m e]. Qed.

Lemma aligned_nonneg (m : positive) (s : Z) :
  0 <= match s with Z0 => Zpos m | Zpos _ => Z.shiftl (Zpos m) s | Zneg _ => 0 end.
Proof. destruct s; [lia| |lia]. by apply Z.shiftl_nonneg. Qed.

Lemma f64_sqrt_nonneg x : is_nan (f64_sqrt x) = false -> nonneg (f64_sqrt x) = true.
Proof.
  unfold f64_sqrt, SFsqrt. destruct x as [[]|[]| |[] m e]; try done. intros _.
  unfold SFsqrt_core_binary.
  set (s := e - _). pose proof (aligned_nonneg m s) as Hn. revert Hn.
  generalize (match s with Z0 => Zpos m | Zpos _ => Z.shiftl (Zpos m) s | Zneg _ => 0 end).
  intros m' Hn. apply Z.sqrtrem_spec in Hn.
  destruct (Z.sqrtrem m') as [q r]. apply binary_round_aux_nonneg. lia.
Qed.

Lemma min_sqrt_unit h :
  f64_le F0 (f64_min (f64_sqrt h) F1) = true /\ f64_le (f64_min (f64_sqrt h) F1) F1 = true.
Proof.
  unfold f64_min. destruct (is_nan (f64_sqrt h)) eqn:En; [done|].
  change (is_nan F1) with false. cbn [negb].
  destruct (f64_lt F1 (f64_sqrt h)) eqn:El; [done|]. split.
  - by apply nonneg_le_zero, f64_sqrt_nonneg.
  - by apply f64_le_of_not_lt.
Qed.

Lemma f64_mul_nonneg x y :
  is_finite x = true -> nonneg x = true -> is_finite y = true -> nonneg y = true ->
  nonneg (f64_mul x y) = true.
Proof.
  destruct x as [[]|[]| |[] m1 e1], y as [[]|[]| |[] m2 e2]; try done. intros _ _ _ _.
  by apply binary_round_aux_nonneg.
Qed.

Lemma f64_div_nonneg x m e :
  nonneg x = true -> nonneg (f64_div x (S754_finite false m e)) = true.
Proof.
  destruct x as [[]|[]| |[] m1 e1]; try done. intros _.
  unfold f64_div, SFdiv, SFdiv_core_binary.
  set (s := e1 - e - _). pose proof (aligned_nonneg m1 s) as Hn. revert Hn.
  generalize (match s with Z0 => Zpos m1 | Zpos _ => Z.shiftl (Zpos m1) s | Zneg _ => 0 end).
  intros m' Hn. pose proof (Z.div_pos m' (Zpos m) Hn eq_refl) as Hq. unfold Z.div in Hq.
  destruct (Z.div_eucl m' (Zpos m)) as [q r]. by apply binary_round_aux_nonneg.
Qed.

  Context {laws : FloatTrigLaws trig}.

Lemma distance_nonneg a b : nonneg (distance_km a b) = true.
Proof.
  unfold distance_km. edestruct min_sqrt_unit as [H0 H1].
  destruct (asin_unit _ H0 H1). by apply f64_mul_nonneg.
Qed.

Lemma costs_from_side_ok l p : side_ok (costs_from l p).
Proof.
  intros k c. unfold costs_from. rewrite lookup_fmap_Some. intros (q & <- & _).
  by apply f64_div_nonneg, distance_nonneg.
Qed.

End GeoFacts.

(** ** Properties *)

Section GeoProperties.
  Context {hbb : HbbCommon} {trig : FloatTrig} {mm : MaxMind}.

(** A locations file that is accepted lists at least one relay, each under its
    normalised name at a latitude between -90 and 90 and a longitude between -180 and
    180. *)
Theorem loc_parse_on_globe text l :
  loc_parse text = Ok l -> loc_relays l <> ∅ /\ locations_wf (loc_relays l).
Proof. apply loc_parse_wf. Qed.

  Context {laws : FloatTrigLaws trig}.

(** Whatever a database file contains, an address it places is placed on the
    globe with finite coordinates, and the costs computed from there cover exactly the
    listed relays and are never NaN or negative, so that they can be summed and
    compared. *)
Theorem located_costs_usable (r : Reader) (l : Locations) (ip : IpAddr) (p : Point) :
  geodb_locate (geodb_of_reader r) ip = Some p ->
  point_wf p /\ is_finite (lat p) = true /\ is_finite (lon p) = true /\
  dom (costs_from l p) = dom (loc_relays l) /\ side_ok (costs_from l p).
Proof.
  unfold geodb_locate, geodb_of_reader. cbn [db_locate].
  destruct (reader_latitude r _) as [la|]; [|done].
  destruct (reader_longitude r _) as [lo|]; [|done].
  destruct (is_finite la) eqn:E1; [|done]. destruct (is_finite lo) eqn:E2; [|done].
  destruct (in_range (-90) 90 la) eqn:E3; [|done].
  destruct (in_range (-180) 180 lo) eqn:E4; [|done]. intros [= <-].
  do 3 (split; [done|]). split; [|apply costs_from_side_ok].
  unfold costs_from. by rewrite dom_fmap_L.
Qed.

End GeoProperties.

(** ** Witnesses *)

(** A platform whose functions are the identity on [0, 1] and 0 elsewhere. *)
Definition example_trig : FloatTrig := {|
  f64_sin x := x;
  f64_cos _ := F1;
  f64_asin x := if f64_le F0 x && f64_le x F1 then x else F0;
|}.

Lemma example_trig_laws : FloatTrigLaws example_trig.
Proof.
  constructor. intros x H0 H1.
  change (f64_asin x) with (if f64_le F0 x && f64_le x F1 then x else F0).
  rewrite H0, H1. cbn [andb].
  destruct x as [[]|[]| |[] m e]; first [done | discriminate H0 | discriminate H1].
Qed.

(** A one-network database: Hong Kong for 10.40.0.0/16. *)
Definition example_maxmind : MaxMind := {|
  Reader := unit;
  reader_type _ := "DBIP-City-Lite";
  reader_nodes _ := 200000;
  reader_latitude _ ip := if bool_decide (ip_mask 16 ip = V4 170393600) then parse_f64 "22.3" else None;
  reader_longitude _ ip := if bool_decide (ip_mask 16 ip = V4 170393600) then parse_f64 "114.2" else None;
|}.

#[local] Existing Instance example_hbb.
#[local] Existing Instance example_trig.
#[local] Existing Instance example_trig_laws.
#[local] Existing Instance example_maxmind.

Definition example_locations : Locations :=
  unwrap_or (mkLocations ∅)
    (loc_parse ("hk.example.com  22.32, 114.17  # Hong Kong" +:+ String LF "" +:+
                "sh.example.com:21117 31.23 121.47")).

Lemma loc_parse_on_globe_witness :
  loc_len example_locations = 2%nat /\
  loc_relays example_locations <> ∅ /\ locations_wf (loc_relays example_locations).
Proof.
  split; [vm_compute; reflexivity|].
  eapply loc_parse_on_globe. unfold example_locations.
  apply is_ok_unwrap. vm_compute. reflexivity.
Defined.

Definition example_reader : Reader := tt.

Definition example_point : Point :=
  default (mkPoint F0 F0) (geodb_locate (geodb_of_reader example_reader) (V4 170393607)).

Lemma located_costs_usable_witness :
  knows example_locations "HK.example.com" = true /\
  dom (costs_from example_locations example_point) = dom (loc_relays example_locations) /\
  side_ok (costs_from example_locations example_point).
Proof.
  split; [vm_compute; reflexivity|].
  apply (located_costs_usable example_reader example_locations (V4 170393607) example_point).
  reflexivity.
Defined.
