(* ===== verification/Messages.v ===== *)
(** * What is said about a refused file or entry ([src/src/relay_routes.rs],
    [src/src/relay_geo.rs])

    The parsers of the routing table, of the relay list and of the relay locations return
    texts that name what is wrong and where.  The model's parsers return the reasons; here
    are the texts of the reasons. *)

From S2P Require Import Prelude RustStr RustFloat Net External RelayRoutes RelayGeo.
From Stdlib Require Import Ascii SpecFloat.

Local Open Scope Z_scope.

(** [{:?}] of a text: in quotes, with the characters that would not show escaped.  Bytes
    outside ASCII are parts of printable characters. *)
Definition debug_char (c : ascii) : string :=
  let v := byte_val c in
  if v =? 0 then "\0"
  else if v =? 9 then "\t"
  else if v =? 10 then "\n"
  else if v =? 13 then "\r"
  else if bool_decide (c = DQUOTE) then String "\" (String DQUOTE "")
  else if bool_decide (c = "\"%char) then "\\"
  else if (v <? 32) || (v =? 127) then "\u{" +:+ show_hex v +:+ "}"
  else String c "".

Fixpoint debug_chars (s : string) : string :=
  match s with "" => "" | String c s' => debug_char c +:+ debug_chars s' end.

Definition show_debug (s : string) : string := String DQUOTE (debug_chars s +:+ String DQUOTE "").

(** Why an entry of the relay list was set aside. *)
Definition entry_problem_text (p : EntryProblem) : string :=
  match p with
  | ContainsSpace => "contains a space"
  | IsUrl => "is a URL; write just host or host:port"
  | SeveralColons => "has several colons; an IPv6 address needs brackets, [::1]:21117"
  | NoHost => "has no host"
  | NotAPort p => show_debug p +:+ " is not a port number"
  | ListedTwice => "listed twice"
  end.

Definition at_line (n : nat) (what : string) : string :=
  "line " +:+ show_Z (Z.of_nat n) +:+ ": " +:+ what.

(** Why a routing table was refused.  [unread] is the path and the system's reason, for a
    file that could not be read. *)
Definition route_error_text (unread : string) (e : RouteError) : string :=
  match e with
  | NotANetwork n t => at_line n (show_debug t +:+ " is not a network such as 203.0.113.0/24")
  | NetworkTwice n t => at_line n (t +:+ " appears twice")
  | NotRelayMs n t => at_line n (show_debug t +:+ " is not relay=milliseconds")
  | NotANumber n t => at_line n (show_debug t +:+ " is not a number of milliseconds")
  | NotFiniteTime n t => at_line n (show_debug t +:+ " must be a finite, non-negative time")
  | NoRelayName n t => at_line n (show_debug t +:+ " has no relay name")
  | RelayTwice n r => at_line n ("relay " +:+ r +:+ " is listed twice")
  | NoRelays n t => at_line n (t +:+ " lists no relays")
  | NoRoutes => "no routes found"
  | CannotRead => "cannot read " +:+ unread
  end.

(** Why a locations file was refused. *)
Definition loc_error_text (unread : string) (e : LocError) : string :=
  match e with
  | ExpectedLocation n => at_line n "expected `host:port  latitude,longitude`"
  | NeedsTwoNumbers n relay rest =>
      at_line n (relay +:+ " needs exactly a latitude and a longitude, got " +:+ show_debug rest)
  | NotALatitude n t => at_line n (show_debug t +:+ " is not a latitude")
  | NotALongitude n t => at_line n (show_debug t +:+ " is not a longitude")
  | LatitudeOutside n x => at_line n ("latitude " +:+ show_f64 x +:+ " is outside -90 to 90")
  | LongitudeOutside n x => at_line n ("longitude " +:+ show_f64 x +:+ " is outside -180 to 180")
  | LocationTwice n relay => at_line n ("relay " +:+ relay +:+ " is listed twice")
  | NoLocations => "no relay locations found"
  | CannotReadLocations => "cannot read " +:+ unread
  end.

(** A message about a line names it. *)
Lemma route_error_text_line unread e n :
  error_line e = Some n -> exists what, route_error_text unread e = at_line n what.
Proof. destruct e; intros [= <-]; cbn; eauto. Qed.

Example show_f64_examples :
  show_f64 <$> omap parse_f64 ["91"; "-180.5"; "0.1"; "1e23"; "5e-324"; "123456.75"; "-0"]
  = ["91"; "-180.5"; "0.1"; "100000000000000000000000";
     "0." +:+ repeat_zero 323 +:+ "5"; "123456.75"; "-0"].
Proof. vm_compute. reflexivity. Qed.
