(* ===== verification/RelaySelect.v ===== *)
(** * Choosing a relay for a session ([src/src/relay_select.rs])

    The selector keeps the healthy relays, the routing table, the geographic data, the
    operator's preferred relay and the choices held for recent connection attempts.
    Its mutexes are taken one at a time and never poisoned (the release profile aborts
    on panic), so an operation is a function from the state to the state; [pick] reads
    the clock twice and takes both readings.  The files are observed through an
    [FsView]: what their metadata and contents are at the moment of the call. *)

From S2P Require Import Prelude RustStr RustFloat Net External RelayRoutes RelayGeo.
From Stdlib Require Import Ascii SpecFloat.

Local Open Scope Z_scope.

Definition RELAY_PIN_TTL_DEFAULT_SEC : Z := 30.
Definition MAX_RELAY_PINS : nat := 4096%nat.

(** The two ends of a session, in a fixed order. *)
Abbreviation PinKey := (IpAddr * IpAddr)%type.

Record RelayPin := mkPin { pin_name : string; until : Instant }.

(** A file's modification time and length. *)
Abbreviation Stamp := (option (Z * Z)).

(** Where a pick came from. *)
Inductive Reason :=
| NoRelayConfigured | OnlyRelay | PreferredRelayUsed | Pinned
| ByRoutes | ByGeo | ByRoutesAndGeo | RoundRobin.

#[export] Instance Reason_eq_dec : EqDecision Reason.
Proof. solve_decision. Defined.

Inductive Source := FromRoutes | FromGeo.

#[export] Instance Source_eq_dec : EqDecision Source.
Proof. solve_decision. Defined.

Inductive GeoError := CannotReadDb | CannotOpenDb.

(** What [use-relay] answers, line by line, and what it does to the file that
    remembers the choice. *)
Inductive UseRelayLine :=
| NonePreferred
| ShowPreferred (relay : string) (answering : bool)
| AutomaticAgain
| CouldNotDelete (path : string)
| NotAnAnsweringRelay (want : string) (live : list string)
| EverySessionUses (relay : string)
| CouldNotSave (path error : string).

Inductive FsOp := FsRemove (path : string) | FsWrite (path text : string).

(** [fs::remove_file]'s outcome. *)
Inductive RemoveResult := Removed | RemoveNotFound | RemoveFailed.

(** How the console reports a configured file. *)
Inductive FileStatus (A E : Type) :=
| NotConfigured
| Loaded (path : string) (a : A)
| PreviousKept (path : string) (a : A) (e : E)
| NotLoaded (path : string) (e : option E).
Arguments NotConfigured {A E}.
Arguments Loaded {A E} path a.
Arguments PreviousKept {A E} path a e.
Arguments NotLoaded {A E} path e.

(** The lines the module's console commands print. *)
Inductive ConsoleLine :=
| LRelay (relay : string) (reason : Reason)
| LLocated (ip : IpAddr) (p : Point)
| LCost (relay : string) (cost : f64)
| LTestUsage
| LUseRelay (l : UseRelayLine)
| LNoTable
| LTable (path : string) (count : nat)
| LTableError (e : RouteError)
| LNoGeo
| LGeoDb (st : FileStatus unit GeoError)
| LLocations (st : FileStatus nat LocError)
| LNoLocationFor (relays : list string)
| LPins (ttl_sec : Z) (held : nat).

Section RelaySelect.
  Context {hbb : HbbCommon} {netlib : IpNetworkLib} {trig : FloatTrig} {mm : MaxMind}.

Record RouteState := mkRouteState {
  routes_path : option string;
  routes_table : option RouteTable;
  routes_seen : option Stamp;
  routes_error : option RouteError;
}.

Record GeoState := mkGeoState {
  geo_db_path : option string;
  geo_db : option GeoDb;
  geo_db_seen : option Stamp;
  geo_db_error : option GeoError;
  geo_loc_path : option string;
  geo_locations : option Locations;
  geo_loc_seen : option Stamp;
  geo_loc_error : option LocError;
}.

Record PreferredRelay := mkPreferred {
  pref_relay : option string;
  pref_path : string;
}.

Record RelayPick := mkPick {
  pick_relay : string;
  pick_reason : Reason;
  pick_costs : list (string * f64);
}.

(** [RelaySelector] with the module's two statics, [ROTATION_RELAY_SERVER] and
    [RELAY_PIN_TTL_MS]. *)
Record Selector := mkSelector {
  live : list string;
  routes : RouteState;
  pins : gmap PinKey RelayPin;
  preferred : PreferredRelay;
  geo : GeoState;
  rotation : Z;
  pin_ttl_ms : Z;
}.

Definition set_pins (p : gmap PinKey RelayPin) (s : Selector) : Selector :=
  mkSelector (live s) (routes s) p (preferred s) (geo s) (rotation s) (pin_ttl_ms s).
Definition set_routes (r : RouteState) (s : Selector) : Selector :=
  mkSelector (live s) r (pins s) (preferred s) (geo s) (rotation s) (pin_ttl_ms s).
Definition set_preferred (p : PreferredRelay) (s : Selector) : Selector :=
  mkSelector (live s) (routes s) (pins s) p (geo s) (rotation s) (pin_ttl_ms s).
Definition set_geo (g : GeoState) (s : Selector) : Selector :=
  mkSelector (live s) (routes s) (pins s) (preferred s) g (rotation s) (pin_ttl_ms s).
Definition set_rotation (n : Z) (s : Selector) : Selector :=
  mkSelector (live s) (routes s) (pins s) (preferred s) (geo s) n (pin_ttl_ms s).
Definition set_pin_ttl (n : Z) (s : Selector) : Selector :=
  mkSelector (live s) (routes s) (pins s) (preferred s) (geo s) (rotation s) n.

(** [set_live]. *)
Definition set_live (l : list string) (s : Selector) : Selector :=
  mkSelector l (routes s) (pins s) (preferred s) (geo s) (rotation s) (pin_ttl_ms s).

Definition empty_routes : RouteState := mkRouteState None None None None.
Definition empty_geo : GeoState := mkGeoState None None None None None None None None.

(** [RelaySelector::default()] with the statics' initial values. *)
Definition selector_default : Selector :=
  mkSelector [] empty_routes ∅ (mkPreferred None "") empty_geo 0
    (RELAY_PIN_TTL_DEFAULT_SEC * 1000).

(** ** Picking *)

Definition locate (s : Selector) (ip : IpAddr) : option Point :=
  let! _ := geo_locations (geo s) in
  let! db := geo_db (geo s) in
  geodb_locate db ip.

Definition side_costs (s : Selector) (ip : IpAddr) : option (gmap string f64 * Source) :=
  match (let! t := routes_table (routes s) in costs_for t ip) with
  | Some costs => Some (costs, FromRoutes)
  | None =>
      let! at_ := locate s ip in
      let! l := geo_locations (geo s) in
      Some (costs_from l at_, FromGeo)
  end.

(** A held choice that has not expired and names a healthy relay; any other entry
    under the key is dropped. *)
Definition pinned_relay (now : Instant) (key : PinKey) (s : Selector)
    : option string * Selector :=
  match pins s !! key with
  | Some p =>
      if (now <? until p) && bool_decide (pin_name p ∈ live s)
      then (Some (pin_name p), s)
      else (None, set_pins (delete key (pins s)) s)
  | None => (None, s)
  end.

Definition pin_relay (now : Instant) (key : PinKey) (relay : string) (s : Selector) : Selector :=
  let ttl := pin_ttl_ms s in
  if ttl =? 0 then s
  else
    let ps := pins s in
    let ps :=
      if (MAX_RELAY_PINS <=? size ps)%nat then
        let ps := filter (fun kp : PinKey * RelayPin => now < until kp.2) ps in
        if (MAX_RELAY_PINS <=? size ps)%nat then ∅ else ps
      else ps in
    set_pins (<[key := mkPin relay (now + ttl * NANOS_PER_MILLI)]> ps) s.

(** The ends of a session in a fixed order, IPv4 unwrapped. *)
Definition pin_key (pa pb : IpAddr) : PinKey :=
  let a := to_canonical pa in
  let b := to_canonical pb in
  if ip_le a b then (a, b) else (b, a).

Definition find_relay (want : string) (l : list string) : option string :=
  List.find (fun r => bool_decide (normalize r = normalize want)) l.

(** [live[n % live.len()]]. *)
Definition relay_at (l : list string) (n : Z) : string :=
  default "" (l !! Z.to_nat (n mod Z.of_nat (length l))).

Definition source_reason (sources : list Source) : Reason :=
  if forallb (fun x => bool_decide (x = FromRoutes)) sources then ByRoutes
  else if forallb (fun x => bool_decide (x = FromGeo)) sources then ByGeo
  else ByRoutesAndGeo.

(** [pick] after the preferred relay has been ruled out and no choice is held: the
    table and the locations, else the next relay in turn. *)
Definition decide_relay (pa pb : IpAddr) (commit : bool) (s : Selector)
    : RelayPick * Selector :=
  let known := omap (side_costs s) [pa; pb] in
  match choose_from (live s) known.*1 with
  | Some c => (mkPick (choice_relay c) (source_reason known.*2) (choice_costs c), s)
  | None =>
      (mkPick (relay_at (live s) (rotation s)) RoundRobin [],
       if commit then set_rotation (wrap64 (rotation s + 1)) s else s)
  end.

(** The part of [pick] that follows the preferred relay: the held choice, then the
    decision, held in its turn. *)
Definition pick_unpreferred (t_read t_hold : Instant) (pa pb : IpAddr) (commit : bool)
    (s : Selector) : RelayPick * Selector :=
  let key := pin_key pa pb in
  let '(held, s) := if commit then pinned_relay t_read key s else (None, s) in
  match held with
  | Some relay => (mkPick relay Pinned [], s)
  | None =>
      let '(p, s) := decide_relay pa pb commit s in
      (p, if commit then pin_relay t_hold key (pick_relay p) s else s)
  end.

(** [RelaySelector::pick]; [t_read] and [t_hold] are its two readings of the clock.  The code
    looks for a held choice and holds a new one under two locks; here a pick is not interrupted
    by another ([overlapping_picks_differ] shows what that can do). *)
Definition pick (t_read t_hold : Instant) (pa pb : IpAddr) (commit : bool)
    (s : Selector) : RelayPick * Selector :=
  match live s with
  | [] => (mkPick "" NoRelayConfigured [], s)
  | [r] => (mkPick r OnlyRelay [], s)
  | _ =>
      match (let! want := pref_relay (preferred s) in find_relay want (live s)) with
      | Some relay => (mkPick relay PreferredRelayUsed [], s)
      | None => pick_unpreferred t_read t_hold pa pb commit s
      end
  end.

(** ** The preferred relay *)

(** [load_preferred_relay], [path] being the configured file and [contents] what it
    holds. *)
Definition load_preferred_relay (path : string) (contents : option string) (s : Selector)
    : Selector :=
  let relay := let! t := contents in List.find str_nonempty (trim <$> lines t) in
  set_preferred (mkPreferred relay path) s.

(** [use_relay_command]; [rm] and [wr] are what removing and writing the file give. *)
Definition use_relay_command (arg : option string) (rm : RemoveResult) (wr : option string)
    (s : Selector) : list UseRelayLine * list FsOp * Selector :=
  let pref := preferred s in
  let path := pref_path pref in
  let '(res, ops, pref') :=
    match arg with
    | None =>
        match pref_relay pref with
        | None => ([NonePreferred], [], pref)
        | Some r =>
            ([ShowPreferred r
                (existsb (fun l => bool_decide (normalize l = normalize r)) (live s))], [], pref)
        end
    | Some want =>
        if bool_decide (want = "auto") then
          (AutomaticAgain :: (match rm with RemoveFailed => [CouldNotDelete path] | _ => [] end),
           [FsRemove path], mkPreferred None path)
        else
          match find_relay want (live s) with
          | None => ([NotAnAnsweringRelay want (live s)], [], pref)
          | Some relay =>
              (EverySessionUses relay :: (match wr with Some e => [CouldNotSave path e] | None => [] end),
               [FsWrite path (relay +:+ String LF "")], mkPreferred (Some relay) path)
          end
    end in
  (res, ops, set_pins ∅ (set_preferred pref' s)).

(** ** Reloading *)

(** What the files look like at the moment of a call. *)
Record FsView := mkFsView {
  fs_stamp : string -> Stamp;
  fs_text : string -> option string;
  fs_reader : string -> option Reader;
}.

Definition reload_relay_routes (fs : FsView) (s : Selector) : Selector :=
  let st := routes s in
  match routes_path st with
  | None => s
  | Some path =>
      let stamp := fs_stamp fs path in
      if bool_decide (routes_seen st = Some stamp) then s
      else
        let loaded := match stamp with
                      | Some _ => load (fs_text fs path)
                      | None => Err CannotRead
                      end in
        match loaded with
        | Ok t => set_pins ∅ (set_routes (mkRouteState (Some path) (Some t) (Some stamp) None) s)
        | Err e =>
            set_routes (mkRouteState (Some path) (routes_table st) (Some stamp) (Some e)) s
        end
  end.

(** Whether a configured file changed since it was last read. *)
Definition changed (path : option string) (seen : option Stamp) (fs : FsView) : bool :=
  match path with
  | Some p => negb (bool_decide (seen = Some (fs_stamp fs p)))
  | None => false
  end.

Definition open_db (fs : FsView) (path : string) : result GeoError GeoDb :=
  match fs_stamp fs path with
  | None => Err CannotReadDb
  | Some _ => let? r := ok_or (fs_reader fs path) CannotOpenDb in Ok (geodb_of_reader r)
  end.

Definition open_locations (fs : FsView) (path : string) : result LocError Locations :=
  match fs_stamp fs path with
  | None => Err CannotReadLocations
  | Some _ => loc_load (fs_text fs path)
  end.

(** The database's half of [reload_relay_geo]: the new state and whether data was
    replaced. *)
Definition reload_db (fs : FsView) (g : GeoState) : GeoState * bool :=
  match geo_db_path g with
  | Some path =>
      if changed (geo_db_path g) (geo_db_seen g) fs then
        let seen := Some (fs_stamp fs path) in
        match open_db fs path with
        | Ok db =>
            (mkGeoState (geo_db_path g) (Some db) seen None (geo_loc_path g)
               (geo_locations g) (geo_loc_seen g) (geo_loc_error g), true)
        | Err e =>
            (mkGeoState (geo_db_path g) (geo_db g) seen (Some e) (geo_loc_path g)
               (geo_locations g) (geo_loc_seen g) (geo_loc_error g), false)
        end
      else (g, false)
  | None => (g, false)
  end.

(** The locations' half. *)
Definition reload_locations (fs : FsView) (g : GeoState) : GeoState * bool :=
  match geo_loc_path g with
  | Some path =>
      if changed (geo_loc_path g) (geo_loc_seen g) fs then
        let seen := Some (fs_stamp fs path) in
        match open_locations fs path with
        | Ok l =>
            (mkGeoState (geo_db_path g) (geo_db g) (geo_db_seen g) (geo_db_error g)
               (geo_loc_path g) (Some l) seen None, true)
        | Err e =>
            (mkGeoState (geo_db_path g) (geo_db g) (geo_db_seen g) (geo_db_error g)
               (geo_loc_path g) (geo_locations g) seen (Some e), false)
        end
      else (g, false)
  | None => (g, false)
  end.

Definition reload_relay_geo (fs : FsView) (s : Selector) : Selector :=
  let '(g1, c1) := reload_db fs (geo s) in
  let '(g2, c2) := reload_locations fs g1 in
  let s := set_geo g2 s in
  if c1 || c2 then set_pins ∅ s else s.

Definition reload (fs : FsView) (s : Selector) : Selector :=
  reload_relay_geo fs (reload_relay_routes fs s).

(** ** Configuration *)

(** [configure]: the settings come from [get_arg]. *)
Definition configure (get_arg : string -> string) (get_arg_or : string -> string -> string)
    (fs : FsView) (s : Selector) : Selector :=
  let pin_ttl := default RELAY_PIN_TTL_DEFAULT_SEC (parse_u64 (get_arg "relay-pin-ttl")) in
  let s := set_pin_ttl (wrap64 (pin_ttl * 1000)) s in
  let pref_file := get_arg_or "relay-preferred-file" "relay_preferred" in
  let s := load_preferred_relay pref_file (fs_text fs pref_file) s in
  let db := get_arg "geo-db" in
  let loc := get_arg "relay-locations" in
  let g := geo s in
  let g := mkGeoState (if str_nonempty db then Some db else geo_db_path g)
             (geo_db g) (geo_db_seen g) (geo_db_error g)
             (if str_nonempty loc then Some loc else geo_loc_path g)
             (geo_locations g) (geo_loc_seen g) (geo_loc_error g) in
  let s := reload_relay_geo fs (set_geo g s) in
  let routes_file := get_arg "relay-routes" in
  if str_nonempty routes_file then
    let st := routes s in
    reload_relay_routes fs
      (set_routes (mkRouteState (Some routes_file) (routes_table st) (routes_seen st)
                     (routes_error st)) s)
  else s.

(** ** Console *)

Definition file_status {A B E} (path : option string) (a : option A) (f : A -> B)
    (e : option E) : FileStatus B E :=
  match path, a, e with
  | None, _, _ => NotConfigured
  | Some p, Some a, None => Loaded p (f a)
  | Some p, Some a, Some e => PreviousKept p (f a) e
  | Some p, None, e => NotLoaded p e
  end.

(** [relay-routes]: what is loaded, and what is wrong with it. *)
Definition relay_routes_report (s : Selector) : list ConsoleLine :=
  let st := routes s in
  let g := geo s in
  (match routes_path st with
   | None => [LNoTable]
   | Some path =>
       LTable path (match routes_table st with Some t => rule_count t | None => 0%nat end)
         :: (match routes_error st with Some e => [LTableError e] | None => [] end)
   end) ++
  (match geo_db_path g, geo_loc_path g with
   | None, None => [LNoGeo]
   | db, loc =>
       [LGeoDb (file_status db (geo_db g) (fun _ => tt) (geo_db_error g));
        LLocations (file_status loc (geo_locations g) loc_len (geo_loc_error g))]
   end) ++
  (match geo_locations g with
   | Some l =>
       match List.filter (fun r => negb (knows l r)) (live s) with
       | [] => []
       | missing => [LNoLocationFor missing]
       end
   | None => []
   end) ++
  [LPins (pin_ttl_ms s / 1000) (size (pins s))].

(** [test-relay <ip1> [<ip2>]]: the dry run. *)
Definition test_relay (t : Instant) (args : list string) (s : Selector) : list ConsoleLine :=
  match args with
  | [] => []
  | first :: rest =>
      match parse_ip first, parse_ip (default first (head rest)) with
      | Some a, Some b =>
          let p := (pick t t a b false s).1 in
          LRelay (pick_relay p) (pick_reason p)
            :: (omap (fun ip => LLocated ip <$> locate s ip) [a; b])
            ++ ((fun rc : string * f64 => LCost rc.1 rc.2) <$> pick_costs p)
      | _, _ => [LTestUsage]
      end
  end.

(** [RelaySelector::console]: [None] for a command of another module. *)
Definition console (t : Instant) (cmd : string) (rm : RemoveResult) (wr : option string)
    (s : Selector) : option (list ConsoleLine * list FsOp * Selector) :=
  match split_on " " (trim cmd) with
  | [] => None
  | name :: args =>
      if bool_decide (name = "test-relay" \/ name = "tr") then Some (test_relay t args s, [], s)
      else if bool_decide (name = "use-relay" \/ name = "ur") then
        let '(res, ops, s) := use_relay_command (head args) rm wr s in
        Some (LUseRelay <$> res, ops, s)
      else if bool_decide (name = "relay-routes" \/ name = "rr") then
        Some (relay_routes_report s, [], s)
      else None
  end.

End RelaySelect.

(** ** Facts *)

Section PickFacts.
  Context {hbb : HbbCommon} {netlib : IpNetworkLib} {trig : FloatTrig} {mm : MaxMind}.

Implicit Types s : Selector.

Lemma relay_at_elem (l : list string) (n : Z) : l <> [] -> relay_at l n ∈ l.
Proof.
  intros Hl. unfold relay_at.
  assert (0 < Z.of_nat (length l)) by (destruct l; [done|simpl; lia]).
  pose proof (Z.mod_pos_bound n (Z.of_nat (length l))).
  destruct (lookup_lt_is_Some_2 l (Z.to_nat (n mod Z.of_nat (length l)))) as [x Hx]; [lia|].
  rewrite Hx. simpl. by eapply list_elem_of_lookup_2.
Qed.

Lemma find_relay_elem want l r : find_relay want l = Some r -> r ∈ l.
Proof. intros [H _]%List.find_some. by apply list_elem_of_In. Qed.

Lemma choose_from_elem healthy sides c :
  choose_from healthy sides = Some c -> choice_relay c ∈ healthy.
Proof.
  unfold choose_from. destruct (_ || _); [done|].
  destruct (_ !! best_loop _ _ _ _) as [[r x]|] eqn:E; [|done]. intros [= <-].
  apply list_lookup_fmap_Some in E as (r' & [= -> _] & E). by eapply list_elem_of_lookup_2.
Qed.

Lemma pinned_relay_live now key s : live (pinned_relay now key s).2 = live s.
Proof. unfold pinned_relay. repeat case_match; done. Qed.

Lemma pinned_relay_elem now key s r : (pinned_relay now key s).1 = Some r -> r ∈ live s.
Proof.
  unfold pinned_relay. destruct (pins s !! key) as [p|]; [|done].
  destruct (now <? until p); simpl; [|done]. by case_bool_decide; [intros [= <-]|].
Qed.

Lemma decide_relay_elem pa pb commit s :
  live s <> [] -> pick_relay (decide_relay pa pb commit s).1 ∈ live s.
Proof.
  intros Hl. unfold decide_relay.
  destruct (choose_from _ _) eqn:E; simpl; [by eapply choose_from_elem|by apply relay_at_elem].
Qed.

(** The two branches of [pick_unpreferred], the held choice being looked at only when
    the pick is committed. *)
Definition held_choice (t : Instant) (key : PinKey) (commit : bool) s : option string * Selector :=
  if commit then pinned_relay t key s else (None, s).

Lemma pick_unpreferred_unfold t t' pa pb commit s :
  pick_unpreferred t t' pa pb commit s =
  let h := held_choice t (pin_key pa pb) commit s in
  match h.1 with
  | Some relay => (mkPick relay Pinned [], h.2)
  | None =>
      let d := decide_relay pa pb commit h.2 in
      (d.1, if commit then pin_relay t' (pin_key pa pb) (pick_relay d.1) d.2 else d.2)
  end.
Proof.
  unfold pick_unpreferred, held_choice. destruct commit.
  - destruct (pinned_relay t (pin_key pa pb) s) as [[r|] s']; [done|]. simpl.
    by destruct (decide_relay pa pb true s').
  - simpl. by destruct (decide_relay pa pb false s).
Qed.

Lemma held_choice_live t key commit s : live (held_choice t key commit s).2 = live s.
Proof. unfold held_choice. destruct commit; [apply pinned_relay_live|done]. Qed.

(** [pick] on a server with at least two healthy relays. *)
Lemma pick_many t t' pa pb commit s :
  (2 <= length (live s))%nat ->
  pick t t' pa pb commit s =
  match (let! want := pref_relay (preferred s) in find_relay want (live s)) with
  | Some relay => (mkPick relay PreferredRelayUsed [], s)
  | None => pick_unpreferred t t' pa pb commit s
  end.
Proof. unfold pick. destruct (live s) as [|r1 [|r2 l]]; simpl; intros; [lia|lia|done]. Qed.

Lemma pick_unpreferred_elem t t' pa pb commit s :
  live s <> [] -> pick_relay (pick_unpreferred t t' pa pb commit s).1 ∈ live s.
Proof.
  intros Hl. rewrite pick_unpreferred_unfold. simpl.
  pose proof (held_choice_live t (pin_key pa pb) commit s) as Hlive.
  destruct (held_choice t (pin_key pa pb) commit s) as [[r|] s'] eqn:E; simpl in *.
  - unfold held_choice in E. destruct commit; [|done].
    eapply pinned_relay_elem. by rewrite E.
  - rewrite <- Hlive. apply decide_relay_elem. by rewrite Hlive.
Qed.

(** *** What an operation leaves alone *)

Lemma pin_relay_frame now key r s :
  live (pin_relay now key r s) = live s /\ routes (pin_relay now key r s) = routes s /\
  geo (pin_relay now key r s) = geo s /\ preferred (pin_relay now key r s) = preferred s /\
  rotation (pin_relay now key r s) = rotation s /\
  pin_ttl_ms (pin_relay now key r s) = pin_ttl_ms s.
Proof. unfold pin_relay. by destruct (_ =? 0). Qed.

Lemma pick_frame t t' pa pb commit s :
  let s' := (pick t t' pa pb commit s).2 in
  live s' = live s /\ routes s' = routes s /\ geo s' = geo s /\ preferred s' = preferred s /\
  pin_ttl_ms s' = pin_ttl_ms s.
Proof.
  unfold pick. destruct (live s) as [|r1 [|r2 l]] eqn:El; [simpl; by rewrite El..|].
  destruct (let! want := pref_relay (preferred s) in find_relay want (r1 :: r2 :: l));
    [simpl; by rewrite El|].
  rewrite pick_unpreferred_unfold. simpl.
  assert (Hh : forall h, h = held_choice t (pin_key pa pb) commit s ->
    live h.2 = live s /\ routes h.2 = routes s /\ geo h.2 = geo s /\
    preferred h.2 = preferred s /\ pin_ttl_ms h.2 = pin_ttl_ms s).
  { intros h ->. unfold held_choice, pinned_relay. repeat case_match; done. }
  specialize (Hh _ eq_refl).
  destruct (held_choice t (pin_key pa pb) commit s) as [[r|] s']; simpl in *; [by rewrite <- El|].
  assert (Hd : let d := decide_relay pa pb commit s' in
    live d.2 = live s' /\ routes d.2 = routes s' /\ geo d.2 = geo s' /\
    preferred d.2 = preferred s' /\ pin_ttl_ms d.2 = pin_ttl_ms s').
  { unfold decide_relay. repeat case_match; done. }
  destruct (decide_relay pa pb commit s') as [p d]; simpl in *.
  destruct commit; [|split_and!; intuition congruence].
  pose proof (pin_relay_frame t' (pin_key pa pb) (pick_relay p) d). split_and!; intuition congruence.
Qed.

Lemma pin_key_sym pa pb : pin_key pa pb = pin_key pb pa.
Proof.
  unfold pin_key. destruct (ip_le (to_canonical pa) (to_canonical pb)) eqn:E1,
    (ip_le (to_canonical pb) (to_canonical pa)) eqn:E2; try done.
  - by rewrite (ip_le_antisym _ _ E1 E2).
  - apply ip_le_total in E1. congruence.
Qed.

(** *** The held choices are bounded *)

Lemma pin_relay_bounded now key r s :
  (size (pins s) <= MAX_RELAY_PINS)%nat ->
  (size (pins (pin_relay now key r s)) <= MAX_RELAY_PINS)%nat.
Proof.
  intros Hs. unfold pin_relay. destruct (_ =? 0); [done|]. cbn [pins set_pins].
  destruct (MAX_RELAY_PINS <=? size (pins s))%nat eqn:E1; [|apply Nat.leb_gt in E1].
  - destruct (MAX_RELAY_PINS <=? size (filter _ (pins s)))%nat eqn:E2; [|apply Nat.leb_gt in E2].
    + rewrite insert_empty, map_size_singleton. unfold MAX_RELAY_PINS. lia.
    + rewrite map_size_insert. case_match; simpl; lia.
  - rewrite map_size_insert. case_match; simpl; lia.
Qed.

Lemma pinned_relay_bounded now key s :
  (size (pins (pinned_relay now key s).2) <= size (pins s))%nat.
Proof.
  unfold pinned_relay. destruct (pins s !! key) as [p|] eqn:E; [|done].
  destruct (_ && _); [done|]. simpl. rewrite map_size_delete, E. lia.
Qed.

Lemma decide_relay_pins pa pb commit s : pins (decide_relay pa pb commit s).2 = pins s.
Proof. unfold decide_relay. repeat case_match; done. Qed.

Lemma pick_bounded t t' pa pb commit s :
  (size (pins s) <= MAX_RELAY_PINS)%nat ->
  (size (pins (pick t t' pa pb commit s).2) <= MAX_RELAY_PINS)%nat.
Proof.
  intros Hs. unfold pick. destruct (live s) as [|r1 [|r2 l]]; [done..|].
  destruct (let! want := _ in _); [done|].
  rewrite pick_unpreferred_unfold. simpl.
  assert (Hh : (size (pins (held_choice t (pin_key pa pb) commit s).2) <= MAX_RELAY_PINS)%nat).
  { unfold held_choice. destruct commit; [|done].
    pose proof (pinned_relay_bounded t (pin_key pa pb) s). lia. }
  destruct (held_choice _ _ _ _) as [[r|] s']; simpl in *; [done|].
  destruct commit; [apply pin_relay_bounded|]; by rewrite decide_relay_pins.
Qed.

(** *** The selector's operations as one step *)

(** Everything the server does to its selector after building it: start it up, answer
    for a session, publish the relays that answered the health check, re-read the
    files, and answer the console. *)
Inductive SelectorOp :=
| OpConfigure (get_arg : string -> string) (get_arg_or : string -> string -> string) (fs : FsView)
| OpPick (t_read t_hold : Instant) (pa pb : IpAddr) (commit : bool)
| OpSetLive (relays : list string)
| OpReload (fs : FsView)
| OpConsole (t : Instant) (cmd : string) (rm : RemoveResult) (wr : option string).

Definition run_op (s : Selector) (o : SelectorOp) : Selector :=
  match o with
  | OpConfigure ga gao fs => configure ga gao fs s
  | OpPick t t' pa pb commit => (pick t t' pa pb commit s).2
  | OpSetLive relays => set_live relays s
  | OpReload fs => reload fs s
  | OpConsole t cmd rm wr =>
      match console t cmd rm wr s with Some (_, _, s') => s' | None => s end
  end.

Definition run_ops (ops : list SelectorOp) (s : Selector) : Selector := foldl run_op s ops.

(** What every reachable selector satisfies: a loaded table is well formed, the loaded
    locations are on the globe, and the held choices are bounded. *)
Record selector_wf (s : Selector) : Prop := {
  wf_table : forall t, routes_table (routes s) = Some t -> table_wf t;
  wf_locations : forall l, geo_locations (geo s) = Some l ->
    loc_relays l <> ∅ /\ locations_wf (loc_relays l);
  wf_pins : (size (pins s) <= MAX_RELAY_PINS)%nat;
}.

Lemma selector_default_wf : selector_wf selector_default.
Proof. split; [done..|]. unfold selector_default. simpl. rewrite map_size_empty. lia. Qed.

(** An operation that keeps the table, the locations and the bound keeps [selector_wf]. *)
Lemma selector_wf_frame s s' :
  selector_wf s -> routes_table (routes s') = routes_table (routes s) ->
  geo_locations (geo s') = geo_locations (geo s) ->
  (size (pins s') <= MAX_RELAY_PINS)%nat -> selector_wf s'.
Proof. intros [Ht Hl _] E1 E2 Hp. split; [by rewrite E1|by rewrite E2|done]. Qed.

Lemma size_no_pins : (size (∅ : gmap PinKey RelayPin) <= MAX_RELAY_PINS)%nat.
Proof. rewrite map_size_empty. lia. Qed.

Lemma pick_wf t t' pa pb commit s : selector_wf s -> selector_wf (pick t t' pa pb commit s).2.
Proof.
  intros Hs. destruct (pick_frame t t' pa pb commit s) as (_ & E1 & E2 & _).
  eapply selector_wf_frame; [done|by rewrite E1|by rewrite E2|apply pick_bounded, Hs].
Qed.

Lemma load_table_wf contents t : load contents = Ok t -> table_wf t.
Proof. unfold load, ok_or. destruct contents; [|done]. apply parse_table_wf. Qed.

Lemma reload_relay_routes_wf fs s : selector_wf s -> selector_wf (reload_relay_routes fs s).
Proof.
  intros Hs. unfold reload_relay_routes. destruct (routes_path (routes s)) as [path|]; [|done].
  case_bool_decide; [done|].
  destruct (fs_stamp fs path) as [st|]; [|by eapply selector_wf_frame; [done..|apply Hs]].
  destruct (load (fs_text fs path)) as [t|e] eqn:E; [|by eapply selector_wf_frame; [done..|apply Hs]].
  split; simpl; [|apply Hs|apply size_no_pins].
  intros ? [= <-]. by eapply load_table_wf.
Qed.

Lemma open_locations_wf fs path l :
  open_locations fs path = Ok l -> loc_relays l <> ∅ /\ locations_wf (loc_relays l).
Proof.
  unfold open_locations, loc_load, ok_or. destruct (fs_stamp fs path); [|done].
  destruct (fs_text fs path); [|done]. apply loc_parse_wf.
Qed.

(** The two halves touch only their own fields. *)
Lemma reload_db_locations fs g : geo_locations (reload_db fs g).1 = geo_locations g.
Proof. unfold reload_db. repeat case_match; done. Qed.

Lemma reload_locations_cases fs g :
  geo_locations (reload_locations fs g).1 = geo_locations g \/
  exists path l, open_locations fs path = Ok l /\
    geo_locations (reload_locations fs g).1 = Some l.
Proof. unfold reload_locations. repeat case_match; eauto. Qed.

Lemma reload_relay_geo_wf fs s : selector_wf s -> selector_wf (reload_relay_geo fs s).
Proof.
  intros Hs. unfold reload_relay_geo.
  pose proof (reload_db_locations fs (geo s)) as H1.
  destruct (reload_db fs (geo s)) as [g1 c1]. simpl in H1.
  pose proof (reload_locations_cases fs g1) as H2.
  destruct (reload_locations fs g1) as [g2 c2]. simpl in H2.
  assert (Hg : selector_wf (set_geo g2 s)).
  { split; simpl; [apply Hs| |apply Hs].
    destruct H2 as [H2|(path & l & Hl & H2)]; rewrite H2; [rewrite H1; apply Hs|].
    intros ? [= <-]. by eapply open_locations_wf. }
  destruct (c1 || c2); [|done].
  eapply selector_wf_frame; [exact Hg|done..|apply size_no_pins].
Qed.

Lemma use_relay_wf arg rm wr s : selector_wf s -> selector_wf (use_relay_command arg rm wr s).2.
Proof.
  intros Hs. unfold use_relay_command.
  destruct (match arg with None => _ | Some _ => _ end) as [[res ops] pref].
  by eapply selector_wf_frame; [done..|apply size_no_pins].
Qed.

Lemma configure_wf ga gao fs s : selector_wf s -> selector_wf (configure ga gao fs s).
Proof.
  intros Hs. unfold configure. cbv zeta.
  match goal with |- context [reload_relay_geo fs ?x] =>
    assert (Hg : selector_wf (reload_relay_geo fs x)) end.
  { apply reload_relay_geo_wf. by eapply selector_wf_frame; [done..|apply Hs]. }
  destruct (str_nonempty (ga "relay-routes")); [|exact Hg].
  apply reload_relay_routes_wf. by eapply selector_wf_frame; [done..|apply Hg].
Qed.

Lemma console_wf t cmd rm wr s out ops s' :
  selector_wf s -> console t cmd rm wr s = Some (out, ops, s') -> selector_wf s'.
Proof.
  intros Hs. unfold console. destruct (split_on _ _) as [|name args]; [done|].
  case_bool_decide; [by intros [= <- <- <-]|]. case_bool_decide.
  { pose proof (use_relay_wf (head args) rm wr s Hs) as Hu.
    destruct (use_relay_command _ _ _ _) as [[res os] s1]. by intros [= <- <- <-]. }
  case_bool_decide; [by intros [= <- <- <-]|done].
Qed.

Lemma run_op_wf o s : selector_wf s -> selector_wf (run_op s o).
Proof.
  intros Hs. destruct o; simpl.
  - by apply configure_wf.
  - by apply pick_wf.
  - by eapply selector_wf_frame; [done..|apply Hs].
  - apply reload_relay_geo_wf. by apply reload_relay_routes_wf.
  - destruct (console _ _ _ _ _) as [[[out os] s']|] eqn:E; [|done]. by eapply console_wf.
Qed.

Lemma run_ops_wf ops s : selector_wf s -> selector_wf (run_ops ops s).
Proof.
  revert s. induction ops as [|o ops IH]; intros s Hs; [done|]. apply IH. by apply run_op_wf.
Qed.

End PickFacts.

(** ** Properties *)

Section SelectProperties.
  Context {hbb : HbbCommon} {netlib : IpNetworkLib} {trig : FloatTrig} {mm : MaxMind}.

Implicit Types s : Selector.

Lemma pick_elem t t' pa pb commit s :
  live s <> [] -> pick_relay (pick t t' pa pb commit s).1 ∈ live s.
Proof.
  intros Hl. unfold pick. destruct (live s) as [|r1 [|r2 l]] eqn:E; [done|simpl; set_solver|].
  destruct (let! want := pref_relay (preferred s) in find_relay want (r1 :: r2 :: l))
    as [r|] eqn:Er; simpl.
  - destruct (pref_relay (preferred s)); [|done]. by eapply find_relay_elem.
  - rewrite <- E. apply pick_unpreferred_elem. by rewrite E.
Qed.

(** C24: a session is only ever sent to a relay that answered the last health check,
    whatever is held, preferred, routed or located; with no healthy relay the answer
    is the empty string. *)
Theorem pick_only_healthy t t' pa pb commit s :
  (live s = [] /\ pick_relay (pick t t' pa pb commit s).1 = "") \/
  pick_relay (pick t t' pa pb commit s).1 ∈ live s.
Proof.
  destruct (live s) eqn:E; [left|right].
  - unfold pick. by rewrite E.
  - rewrite <- E. apply pick_elem. by rewrite E.
Qed.

Lemma decide_relay_commit pa pb s :
  (decide_relay pa pb true s).1 = (decide_relay pa pb false s).1.
Proof. unfold decide_relay. by case_match. Qed.

(** The dry run of [test-relay] changes nothing, and shows the relay, the reason
    and the costs the next real session between the two addresses would get when no
    choice is held for them. *)
Theorem dry_run_is_faithful t t' pa pb s :
  (pick t t' pa pb false s).2 = s /\
  (pins s !! pin_key pa pb = None ->
   (pick t t' pa pb false s).1 = (pick t t' pa pb true s).1).
Proof.
  unfold pick. destruct (live s) as [|r1 [|r2 l]]; [done..|].
  destruct (let! want := pref_relay (preferred s) in find_relay want (r1 :: r2 :: l)); [done|].
  rewrite !pick_unpreferred_unfold. cbn [held_choice fst snd]. split.
  - unfold decide_relay. by case_match.
  - intros Hp. unfold pinned_relay. rewrite Hp. cbn [fst snd]. by rewrite decide_relay_commit.
Qed.

(** Whatever sequence of configuration, sessions, health checks, reloads and
    console commands a server goes through, its routing table is one the parser
    accepts, its locations are on the globe and it holds at most 4096 choices. *)
Theorem reachable_selector_wf (ops : list SelectorOp) :
  selector_wf (run_ops ops selector_default).
Proof. apply run_ops_wf, selector_default_wf. Qed.

(** *** The preferred relay *)

(** The answer depends on the table and the geographic data in force, not on where
    they came from. *)
Definition same_data s1 s2 : Prop :=
  live s1 = live s2 /\ pins s1 = pins s2 /\ rotation s1 = rotation s2 /\
  routes_table (routes s1) = routes_table (routes s2) /\
  geo_db (geo s1) = geo_db (geo s2) /\ geo_locations (geo s1) = geo_locations (geo s2).

Lemma decide_relay_ext pa pb commit s1 s2 :
  same_data s1 s2 -> (decide_relay pa pb commit s1).1 = (decide_relay pa pb commit s2).1.
Proof.
  intros (E1 & _ & E3 & E4 & E5 & E6). unfold decide_relay, side_costs, locate.
  rewrite E1, E3, E4, E5, E6. by case_match.
Qed.

Lemma pick_unpreferred_ext t t' pa pb commit s1 s2 :
  same_data s1 s2 ->
  (pick_unpreferred t t' pa pb commit s1).1 = (pick_unpreferred t t' pa pb commit s2).1.
Proof.
  intros H. rewrite !pick_unpreferred_unfold. cbv zeta.
  destruct commit; cbn [held_choice fst snd]; [|by apply decide_relay_ext].
  unfold pinned_relay. pose proof H as (E1 & E2 & _). rewrite <- E1, <- E2.
  destruct (pins s1 !! _) as [p|]; [destruct (_ && _); [done|]|]; cbn [fst snd];
    apply decide_relay_ext; [|done].
  unfold same_data in *. simpl. intuition congruence.
Qed.

Lemma pick_answer_ext t t' pa pb commit s1 s2 :
  same_data s1 s2 -> pref_relay (preferred s1) = pref_relay (preferred s2) ->
  (pick t t' pa pb commit s1).1 = (pick t t' pa pb commit s2).1.
Proof.
  intros H Hp. unfold pick. pose proof H as (<- & _). rewrite <- Hp.
  destruct (live s1) as [|r1 [|r2 l]]; [done..|].
  case_match; [done|]. by apply pick_unpreferred_ext.
Qed.

Lemma pick_preferred_ignored t t' pa pb commit s want :
  pref_relay (preferred s) = Some want -> find_relay want (live s) = None ->
  (pick t t' pa pb commit s).1 =
  (pick t t' pa pb commit (set_preferred (mkPreferred None (pref_path (preferred s))) s)).1.
Proof.
  intros Hw Hf. unfold pick. cbn [live set_preferred preferred pref_relay].
  destruct (live s) as [|r1 [|r2 l]] eqn:E; [done..|]. rewrite Hw, Hf.
  by apply pick_unpreferred_ext.
Qed.

(** With several healthy relays, the operator's choice decides every session as
    long as it answers, whatever is held or routed; while it does not answer,
    sessions are placed exactly as if no choice had been made. *)
Theorem preferred_relay_policy t t' pa pb commit s want :
  pref_relay (preferred s) = Some want -> (2 <= length (live s))%nat ->
  match find_relay want (live s) with
  | Some relay =>
      normalize relay = normalize want /\
      pick t t' pa pb commit s = (mkPick relay PreferredRelayUsed [], s)
  | None =>
      (pick t t' pa pb commit s).1 =
      (pick t t' pa pb commit (set_preferred (mkPreferred None (pref_path (preferred s))) s)).1
  end.
Proof.
  intros Hw Hn. destruct (find_relay want (live s)) as [r|] eqn:E.
  - split; [|by rewrite pick_many, Hw, E].
    apply List.find_some in E as [_ E]. by apply bool_decide_eq_true in E.
  - by eapply pick_preferred_ignored.
Qed.

Lemma lines_single (r : string) :
  str_exists is_ws r = false -> r <> "" -> lines (r +:+ String LF "") = [r].
Proof.
  intros Hws Hne. unfold lines, split_on.
  assert (Hs : split_by (fun x => bool_decide (x = LF)) (r +:+ String LF "") = [r; ""]).
  { clear Hne. induction r as [|c r IH]; [done|]. rewrite str_app_cons. simpl in *.
    apply orb_false_iff in Hws as [Hc Hws]. case_bool_decide; [by subst|]. by rewrite IH. }
  rewrite Hs. simpl.
  assert (strip_cr r = r) as ->; [|done].
  clear Hs Hne. induction r as [|c [|c' r] IH]; [done| |].
  - cbn. destruct (decide (c = CR)); [by subst|done].
  - simpl in Hws. apply orb_false_iff in Hws as [_ Hws].
    change (strip_cr (String c (String c' r))) with (String c (strip_cr (String c' r))).
    by rewrite IH.
Qed.

Lemma trim_no_ws (r : string) : str_exists is_ws r = false -> trim r = r.
Proof.
  intros H. apply trim_id.
  - destruct r as [|c r]; [done|]. simpl in *. apply orb_false_iff in H as [H _].
    unfold starts_black. by rewrite H.
  - eapply (str_forall_ends_black (fun c => negb (is_ws c))).
    + intros c. by destruct (is_ws c).
    + unfold str_forall. erewrite str_exists_ext; [by rewrite H|]. intros c. by rewrite negb_involutive.
Qed.

(** A relay set with [use-relay] is still the preferred one after a restart: the
    text the command writes to the file is read back as that relay (a name of the
    relay list has no white space and is not empty), whatever the server's state. *)
Theorem use_relay_survives_restart want rm s s2 relay :
  find_relay want (live s) = Some relay -> want <> "auto" ->
  relay_entry_problem relay = None -> relay <> "" ->
  exists text res s',
    use_relay_command (Some want) rm None s =
      (res, [FsWrite (pref_path (preferred s)) text], s') /\
    pref_relay (preferred s') = Some relay /\ pins s' = ∅ /\
    preferred (load_preferred_relay (pref_path (preferred s)) (Some text) s2) = preferred s'.
Proof.
  intros Hf Ha Hp Hne. unfold use_relay_command.
  rewrite bool_decide_eq_false_2, Hf by done. eexists _, _, _. split; [done|].
  split; [done|]. split; [done|]. unfold load_preferred_relay. simpl.
  assert (Hws : str_exists is_ws relay = false).
  { unfold relay_entry_problem in Hp. by destruct (str_exists is_ws relay). }
  rewrite lines_single by done. simpl. rewrite trim_no_ws by done.
  by apply str_nonempty_true in Hne as ->.
Qed.

(** *** The held choice *)

(** A choice held for [key] until [u], naming a healthy relay. *)
Definition holds (key : PinKey) (r : string) (u : Instant) s : Prop :=
  pins s !! key = Some (mkPin r u) /\ r ∈ live s.

Lemma pinned_relay_holds now key key' r u s :
  holds key r u s -> now < u -> holds key r u (pinned_relay now key' s).2.
Proof.
  intros [Hp Hl] Hu. unfold pinned_relay. destruct (decide (key' = key)) as [->|Hk].
  - rewrite Hp. simpl. rewrite (proj2 (Z.ltb_lt _ _) Hu), bool_decide_eq_true_2 by done.
    by split.
  - destruct (pins s !! key'); [|by split]. destruct (_ && _); [by split|].
    split; [|done]. simpl. by rewrite lookup_delete_ne.
Qed.

Lemma pinned_relay_hit now key r u s :
  holds key r u s -> now < u -> pinned_relay now key s = (Some r, s).
Proof.
  intros [Hp Hl] Hu. unfold pinned_relay. rewrite Hp. simpl.
  by rewrite (proj2 (Z.ltb_lt _ _) Hu), bool_decide_eq_true_2.
Qed.

Lemma pin_relay_holds now key key' r r' u s :
  holds key r u s -> key' <> key -> (size (pins s) < MAX_RELAY_PINS)%nat ->
  holds key r u (pin_relay now key' r' s).
Proof.
  intros [Hp Hl] Hk Hn. unfold pin_relay. destruct (_ =? 0); [by split|].
  rewrite (proj2 (Nat.leb_gt _ _) Hn). split; [|done]. simpl. by rewrite lookup_insert_ne.
Qed.

Lemma pin_relay_size now key r s :
  (size (pins s) < MAX_RELAY_PINS)%nat ->
  (size (pins (pin_relay now key r s)) <= S (size (pins s)))%nat.
Proof.
  intros Hn. unfold pin_relay. destruct (_ =? 0); [lia|].
  rewrite (proj2 (Nat.leb_gt _ _) Hn). cbn [pins set_pins].
  rewrite map_size_insert. case_match; simpl; lia.
Qed.

Lemma decide_relay_frame pa pb commit s :
  let d := (decide_relay pa pb commit s).2 in
  live d = live s /\ pins d = pins s /\ pin_ttl_ms d = pin_ttl_ms s.
Proof. unfold decide_relay. repeat case_match; done. Qed.

(** A pick, for whatever session, keeps a held choice that has not expired. *)
Lemma pick_holds t t' pa pb commit key r u s :
  holds key r u s -> t < u -> (size (pins s) < MAX_RELAY_PINS)%nat ->
  let s' := (pick t t' pa pb commit s).2 in
  holds key r u s' /\ (size (pins s') <= S (size (pins s)))%nat.
Proof.
  intros Hh Hu Hn. unfold pick. destruct (live s) as [|r1 [|r2 l]]; [by split; [|simpl; lia]..|].
  destruct (let! want := pref_relay (preferred s) in find_relay want (r1 :: r2 :: l));
    [by split; [|simpl; lia]|].
  rewrite pick_unpreferred_unfold. simpl. destruct commit; cbn [held_choice fst snd].
  - pose proof (pinned_relay_holds t key (pin_key pa pb) r u s Hh Hu) as Hh1.
    pose proof (pinned_relay_bounded t (pin_key pa pb) s) as Hn1.
    destruct (decide (pin_key pa pb = key)) as [Hk|Hk].
    { rewrite Hk in *. rewrite (pinned_relay_hit _ _ _ _ _ Hh Hu). simpl. split; [done|lia]. }
    destruct (pinned_relay t (pin_key pa pb) s) as [[x|] s1]; simpl in *; [split; [done|lia]|].
    destruct (decide_relay_frame pa pb true s1) as (E1 & E2 & _).
    split.
    + apply pin_relay_holds; [|done|rewrite E2; lia].
      destruct Hh1. split; [by rewrite E2|by rewrite E1].
    + etransitivity; [apply pin_relay_size|]; rewrite E2; lia.
  - destruct (decide_relay_frame pa pb false s) as (E1 & E2 & _). destruct Hh.
    split; [split; [by rewrite E2|by rewrite E1]|rewrite E2; lia].
Qed.

(** The other operations, as long as they do not drop the held choices. *)
Definition spares (r : string) (u : Instant) (s : Selector) (o : SelectorOp) : Prop :=
  match o with
  | OpPick t _ _ _ _ => t < u /\ (size (pins s) < MAX_RELAY_PINS)%nat
  | OpSetLive relays => r ∈ relays
  | _ => pins (run_op s o) = pins s
  end.

Fixpoint all_spare (r : string) (u : Instant) (s : Selector) (ops : list SelectorOp) : Prop :=
  match ops with
  | [] => True
  | o :: ops => spares r u s o /\ all_spare r u (run_op s o) ops
  end.

(** Only the health check changes the list of answering relays. *)
Lemma reload_routes_live fs s : live (reload_relay_routes fs s) = live s.
Proof. unfold reload_relay_routes. by repeat case_match. Qed.

Lemma reload_geo_live fs s : live (reload_relay_geo fs s) = live s.
Proof. unfold reload_relay_geo. by repeat case_match. Qed.

Lemma run_op_live s o : match o with OpSetLive _ => True | _ => live (run_op s o) = live s end.
Proof.
  destruct o as [ga gao fs|t t' pa pb commit|relays|fs|t cmd rm wr]; cbn [run_op]; [| |done|..].
  - unfold configure. destruct (str_nonempty _); rewrite ?reload_routes_live; cbn [live set_routes];
      by rewrite reload_geo_live.
  - apply pick_frame.
  - unfold reload. by rewrite reload_geo_live, reload_routes_live.
  - unfold console, use_relay_command. by repeat case_match; simplify_eq/=.
Qed.

Lemma spared_holds key r u o s : holds key r u s -> spares r u s o -> holds key r u (run_op s o).
Proof.
  intros Hh Ho. pose proof (run_op_live s o) as El. destruct o; cbn [spares run_op] in *.
  2: { destruct Ho. by apply pick_holds. }
  2: { by split; [apply Hh|]. }
  all: destruct Hh; split; [by rewrite Ho|by rewrite El].
Qed.

Lemma all_spared_hold key r u ops s : holds key r u s -> all_spare r u s ops -> holds key r u (run_ops ops s).
Proof.
  revert s. induction ops as [|o ops IH]; intros s Hh Ho; [done|]. destruct Ho as [Ho Hos].
  apply IH; [by apply spared_holds|done].
Qed.

Lemma pin_relay_now now key r s :
  pin_ttl_ms s <> 0 -> r ∈ live s ->
  holds key r (now + pin_ttl_ms s * NANOS_PER_MILLI) (pin_relay now key r s).
Proof.
  intros Ht Hr. unfold pin_relay. rewrite (proj2 (Z.eqb_neq _ _) Ht).
  split; [|done]. apply lookup_insert_eq.
Qed.

(** A choice that was made, not found held, is held from then on. *)
Lemma pick_unpreferred_holds t t' pa pb s :
  live s <> [] -> pin_ttl_ms s <> 0 ->
  pick_reason (pick_unpreferred t t' pa pb true s).1 <> Pinned ->
  holds (pin_key pa pb) (pick_relay (pick_unpreferred t t' pa pb true s).1)
    (t' + pin_ttl_ms s * NANOS_PER_MILLI) (pick_unpreferred t t' pa pb true s).2.
Proof.
  intros Hl Ht. rewrite pick_unpreferred_unfold. simpl.
  pose proof (pinned_relay_live t (pin_key pa pb) s) as E1.
  assert (E2 : pin_ttl_ms (pinned_relay t (pin_key pa pb) s).2 = pin_ttl_ms s).
  { unfold pinned_relay. repeat case_match; done. }
  destruct (pinned_relay t (pin_key pa pb) s) as [[x|] s1]; simpl in *; [done|]. intros _.
  destruct (decide_relay_frame pa pb true s1) as (E3 & _ & E4).
  rewrite <- E2, <- E4. apply pin_relay_now; [congruence|].
  rewrite E3. apply decide_relay_elem. congruence.
Qed.

Lemma pin_key_canonical pa pb qa qb :
  to_canonical qa = to_canonical pa -> to_canonical qb = to_canonical pb ->
  pin_key qa qb = pin_key pa pb.
Proof. intros E1 E2. unfold pin_key. by rewrite E1, E2. Qed.

Definition same_ends (qa qb pa pb : IpAddr) : Prop :=
  (to_canonical qa = to_canonical pa /\ to_canonical qb = to_canonical pb) \/
  (to_canonical qa = to_canonical pb /\ to_canonical qb = to_canonical pa).

Lemma pin_key_same_ends qa qb pa pb : same_ends qa qb pa pb -> pin_key qa qb = pin_key pa pb.
Proof.
  intros [[E1 E2]|[E1 E2]]; [by apply pin_key_canonical|].
  rewrite (pin_key_sym pa pb). by apply pin_key_canonical.
Qed.

(** The relay was chosen by this question, among several. *)
Definition chosen_now (r : Reason) : bool :=
  match r with ByRoutes | ByGeo | ByRoutesAndGeo | RoundRobin => true | _ => false end.

(** A held choice is the answer, unless a preferred relay is answering. *)
Lemma pick_held t t' pa pb r u s :
  holds (pin_key pa pb) r u s -> t < u ->
  (let! want := pref_relay (preferred s) in find_relay want (live s)) = None ->
  pick_relay (pick t t' pa pb true s).1 = r.
Proof.
  intros Hh Ht Hp. pose proof (proj2 Hh) as Hl. unfold pick. destruct (live s) as [|r1 [|r2 l]] eqn:E.
  - by apply elem_of_nil in Hl.
  - by apply list_elem_of_singleton in Hl.
  - rewrite Hp, pick_unpreferred_unfold. simpl. by rewrite (pinned_relay_hit _ _ _ _ _ Hh Ht).
Qed.

(** C10: both ends of a connection attempt are sent to the same relay.  Once the selector has
    chosen among several relays for two addresses, every question about them, from either side,
    IPv4 or IPv4-mapped, that comes before the holding time is over gets the same relay,
    whatever the selector does in between, one operation after the other: other sessions may
    be placed, the list of answering relays may change, files may be re-read and console
    commands given; provided that the relay keeps answering, that nothing drops the held choices
    (a changed file, a use-relay command, more than 4096 of them) and that no preferred relay
    is in force when the question comes. *)
Theorem attempt_keeps_its_relay t t' pa pb s (ops : list SelectorOp) t2 t2' qa qb :
  let p := (pick t t' pa pb true s).1 in
  let s1 := (pick t t' pa pb true s).2 in
  let s2 := run_ops ops s1 in
  let u := t' + pin_ttl_ms s * NANOS_PER_MILLI in
  pin_ttl_ms s <> 0 ->
  chosen_now (pick_reason p) = true -> same_ends qa qb pa pb ->
  all_spare (pick_relay p) u s1 ops -> t2 < u ->
  (let! want := pref_relay (preferred s2) in find_relay want (live s2)) = None ->
  pick_relay (pick t2 t2' qa qb true s2).1 = pick_relay p.
Proof.
  intros p s1 s2 u Ht Hp He Ho Hu Hn.
  apply (pick_held _ _ _ _ _ u); [|done|done]. rewrite (pin_key_same_ends _ _ _ _ He).
  apply all_spared_hold; [|done]. subst p s1 s2 u. unfold pick in *.
  destruct (live s) as [|r1 [|r2 l]] eqn:E; [done..|].
  destruct (let! want := pref_relay (preferred s) in find_relay want (r1 :: r2 :: l)); [done|].
  apply pick_unpreferred_holds; [by rewrite E|done|]. intros Hr. by rewrite Hr in Hp.
Qed.

(** *** Reloading *)

(** What reading the routing file gives. *)
Definition routes_loaded (fs : FsView) (path : string) : result RouteError RouteTable :=
  match fs_stamp fs path with
  | Some _ => load (fs_text fs path)
  | None => Err CannotRead
  end.

Lemma reload_unchanged fs s path :
  routes_path (routes s) = Some path -> routes_seen (routes s) = Some (fs_stamp fs path) ->
  reload_relay_routes fs s = s.
Proof.
  intros Hp Hs. unfold reload_relay_routes. rewrite Hp. by rewrite bool_decide_eq_true_2.
Qed.

Lemma reload_changed fs s path :
  routes_path (routes s) = Some path -> routes_seen (routes s) <> Some (fs_stamp fs path) ->
  reload_relay_routes fs s =
  let seen := Some (fs_stamp fs path) in
  match routes_loaded fs path with
  | Ok t => set_pins ∅ (set_routes (mkRouteState (Some path) (Some t) seen None) s)
  | Err e => set_routes (mkRouteState (Some path) (routes_table (routes s)) seen (Some e)) s
  end.
Proof.
  intros Hp Hs. unfold reload_relay_routes. rewrite Hp. by rewrite bool_decide_eq_false_2.
Qed.

(** C40: a routing file that cannot be read or parsed leaves the table in force and the
    held choices as they were, so that every later pick is what it would have been,
    and only records the error; a good file takes effect whole and drops the choices
    made under the old table; and a file that has not changed is not read again. *)
Theorem reload_keeps_last_good_table fs s path :
  routes_path (routes s) = Some path ->
  let s' := reload_relay_routes fs s in
  (if bool_decide (routes_seen (routes s) = Some (fs_stamp fs path)) then s' = s
   else match routes_loaded fs path with
        | Ok t => routes_table (routes s') = Some t /\ routes_error (routes s') = None /\
                  pins s' = ∅
        | Err e => routes_error (routes s') = Some e /\
                   forall t t' pa pb commit,
                     (pick t t' pa pb commit s').1 = (pick t t' pa pb commit s).1
        end) /\
  reload_relay_routes fs s' = s'.
Proof.
  intros Hp. cbv zeta. case_bool_decide as Hs.
  { pose proof (reload_unchanged _ _ _ Hp Hs) as E. by rewrite !E. }
  rewrite (reload_changed _ _ _ Hp Hs). cbv zeta.
  destruct (routes_loaded fs path) as [t|e] eqn:El.
  - split; [done|]. by apply (reload_unchanged _ _ path).
  - split; [|by apply (reload_unchanged _ _ path)]. split; [done|].
    intros. apply pick_answer_ext; done.
Qed.

(** *** Round robin *)

(** No answering relay is preferred. *)
Definition unpreferred s : Prop :=
  (let! want := pref_relay (preferred s) in find_relay want (live s)) = None.

(** The relays a list of sessions is given, one after the other. *)
Fixpoint place (qs : list ((Instant * Instant) * (IpAddr * IpAddr))) s : list string :=
  match qs with
  | [] => []
  | ((t, t'), (pa, pb)) :: qs =>
      let '(p, s') := pick t t' pa pb true s in pick_relay p :: place qs s'
  end.

Definition session_key (q : (Instant * Instant) * (IpAddr * IpAddr)) : PinKey :=
  pin_key q.2.1 q.2.2.

Lemma pin_relay_other now key key' r s :
  key' <> key -> pins s !! key' = None -> pins (pin_relay now key r s) !! key' = None.
Proof.
  intros Hk Hn. unfold pin_relay. destruct (_ =? 0); [done|]. cbn [pins set_pins].
  rewrite lookup_insert_ne by done.
  destruct (_ <=? _)%nat; [|done]. destruct (_ <=? _)%nat; [done|].
  apply map_lookup_filter_None_2. by left.
Qed.

(** A session with no held choice and two unknown ends takes the next relay. *)
Lemma pick_round_robin t t' pa pb s :
  (2 <= length (live s))%nat -> unpreferred s -> pins s !! pin_key pa pb = None ->
  side_costs s pa = None -> side_costs s pb = None ->
  exists s', pick t t' pa pb true s = (mkPick (relay_at (live s) (rotation s)) RoundRobin [], s') /\
    live s' = live s /\ preferred s' = preferred s /\ routes s' = routes s /\ geo s' = geo s /\
    rotation s' = wrap64 (rotation s + 1) /\
    forall key, key <> pin_key pa pb -> pins s !! key = None -> pins s' !! key = None.
Proof.
  intros Hn Hu Hp Ha Hb. rewrite pick_many by done. rewrite Hu.
  rewrite pick_unpreferred_unfold. cbn [held_choice fst snd]. unfold pinned_relay.
  rewrite Hp. cbn [fst snd]. unfold decide_relay. cbn [omap list_omap fmap list_fmap].
  rewrite Ha, Hb. assert (choose_from (live s) [] = None) as E.
  { unfold choose_from. by rewrite orb_true_r. }
  cbn. rewrite E. cbn [fst snd pick_relay]. eexists. split; [reflexivity|].
  match goal with |- context [pin_relay ?n ?k ?r ?x] =>
    destruct (pin_relay_frame n k r x) as (-> & -> & -> & -> & -> & _);
    pose proof (fun key => pin_relay_other n k key r x) as Ho end.
  do 5 (split; [done|]). intros key. apply Ho.
Qed.

Lemma relay_at_nat (l : list string) (n : nat) :
  relay_at l (Z.of_nat n) = default "" (l !! (n mod length l)%nat).
Proof. unfold relay_at. by rewrite <- Nat2Z.inj_mod, Nat2Z.id. Qed.

Lemma place_round_robin qs s (n : nat) :
  (2 <= length (live s))%nat -> unpreferred s -> rotation s = Z.of_nat n ->
  Z.of_nat n + Z.of_nat (length qs) < 2 ^ 64 ->
  NoDup (session_key <$> qs) -> Forall (fun q => pins s !! session_key q = None) qs ->
  Forall (fun q => side_costs s q.2.1 = None /\ side_costs s q.2.2 = None) qs ->
  place qs s = (fun k => default "" (live s !! ((n + k) mod length (live s))%nat)) <$> seq 0 (length qs).
Proof.
  revert s n. induction qs as [|[[t t'] [pa pb]] qs IH]; intros s n Hn Hu Hr Hb Hd Hp Hs; [done|].
  cbn [fmap list_fmap] in Hd. apply NoDup_cons in Hd as [Hk Hd].
  apply Forall_cons in Hp as [Hp0 Hp]. apply Forall_cons in Hs as [[Ha Hb'] Hs]. simpl in Hb.
  destruct (pick_round_robin t t' pa pb s Hn Hu Hp0 Ha Hb')
    as (s' & E & El & Ep & Er & Eg & Ero & Hps).
  cbn [place length seq]. rewrite E. cbn [pick_relay].
  rewrite (IH s' (S n)).
  - rewrite El, <- fmap_S_seq, fmap_cons, <- list_fmap_compose. f_equal.
    + by rewrite Hr, relay_at_nat, Nat.add_0_r.
    + apply list_fmap_ext. intros _ k _. simpl. by rewrite Nat.add_succ_r.
  - by rewrite El.
  - unfold unpreferred. by rewrite El, Ep.
  - rewrite Ero, Hr, wrap64_small; lia.
  - lia.
  - done.
  - apply Forall_forall. intros q Hq. rewrite Forall_forall in Hp. apply Hps; [|by apply Hp].
    intros Hc. apply Hk. apply list_elem_of_fmap. exists q. split; [|done].
    unfold session_key at 1. simpl. by symmetry.
  - eapply Forall_impl; [exact Hs|]. intros q [H1 H2].
    unfold side_costs, locate in *. by rewrite Er, Eg.
Qed.

Lemma rotate_as_map (l : list string) (n : nat) :
  l <> [] ->
  (fun k => default "" (l !! ((n + k) mod length l)%nat)) <$> seq 0 (length l) = rotate n l.
Proof.
  intros Hl. assert (length l <> 0)%nat by (by destruct l).
  apply list_eq_same_length with (length l); [by rewrite length_rotate|by rewrite length_fmap, length_seq|].
  intros i x y Hi. rewrite list_lookup_fmap, lookup_seq_lt by done. simpl. intros [= <-].
  rewrite lookup_rotate_r by done. unfold rotate_nat_add.
  assert (Z.to_nat ((Z.of_nat n + Z.of_nat i) mod Z.of_nat (length l)) = (n + i) mod length l)%nat as ->.
  { by rewrite <- Nat2Z.inj_add, <- Nat2Z.inj_mod, Nat2Z.id. }
  by intros ->.
Qed.

(** When nothing is known about the addresses, as many sessions as there are
    healthy relays are given each relay exactly once, in the order of the relay list
    starting where the rotation stands. *)
Theorem round_robin_is_fair qs s :
  (2 <= length (live s))%nat -> unpreferred s ->
  0 <= rotation s -> rotation s + Z.of_nat (length (live s)) < 2 ^ 64 ->
  length qs = length (live s) ->
  NoDup (session_key <$> qs) -> Forall (fun q => pins s !! session_key q = None) qs ->
  Forall (fun q => side_costs s q.2.1 = None /\ side_costs s q.2.2 = None) qs ->
  place qs s = rotate (Z.to_nat (rotation s)) (live s) /\ place qs s ≡ₚ live s.
Proof.
  intros Hn Hu H0 Hr Hl Hd Hp Hs.
  assert (E : place qs s = rotate (Z.to_nat (rotation s)) (live s)).
  { rewrite (place_round_robin qs s (Z.to_nat (rotation s))); try done; [|lia|lia].
    rewrite Hl. apply rotate_as_map. intros Hnil. rewrite Hnil in Hn. simpl in Hn. lia. }
  split; [done|]. rewrite E. unfold rotate. rewrite Permutation_app_comm.
  by rewrite take_drop.
Qed.

(** *** The cheapest relay *)

  Context {laws : FloatTrigLaws trig}.

Lemma side_costs_ok s ip costs src :
  selector_wf s -> side_costs s ip = Some (costs, src) -> side_ok costs.
Proof.
  intros Hs. unfold side_costs.
  destruct (routes_table (routes s)) as [t|] eqn:Et.
  - destruct (costs_for t ip) eqn:Ec.
    { intros [= <- <-]. eapply costs_for_side_ok; [by eapply wf_table|done]. }
    destruct (locate s ip), (geo_locations (geo s)); try done.
    intros [= <- <-]. apply costs_from_side_ok.
  - destruct (locate s ip), (geo_locations (geo s)); try done.
    intros [= <- <-]. apply costs_from_side_ok.
Qed.

(** C26: on a reachable server, when no choice is held or preferred and at least one
    end is known, by the routing table or failing that by its location, the session
    goes to the earliest healthy relay whose summed cost over the known ends is
    least, and the costs reported are those of every healthy relay. *)
Theorem known_ends_get_cheapest_relay ops t t' pa pb commit :
  let s := run_ops ops selector_default in
  let sides := (omap (side_costs s) [pa; pb]).*1 in
  let p := (pick t t' pa pb commit s).1 in
  (2 <= length (live s))%nat -> unpreferred s -> pins s !! pin_key pa pb = None ->
  sides <> [] ->
  pick_costs p = (fun r => (r, relay_total sides r)) <$> live s /\
  exists k, live s !! k = Some (pick_relay p) /\ first_min (relay_total sides <$> live s) k.
Proof.
  intros s sides p Hn Hu Hp Hk.
  assert (Hok : Forall side_ok sides).
  { apply Forall_fmap, Forall_forall. intros [costs src] Hin.
    apply list_elem_of_omap in Hin as (ip & _ & Hin).
    eapply side_costs_ok; [|exact Hin]. apply run_ops_wf. apply selector_default_wf. }
  assert (E : p = (decide_relay pa pb commit s).1).
  { unfold p. rewrite pick_many, Hu, pick_unpreferred_unfold by done.
    destruct commit; cbn [held_choice fst snd]; [|done].
    unfold pinned_relay. by rewrite Hp. }
  rewrite E. unfold decide_relay. fold sides.
  pose proof (choose_from_correct (live s) sides Hok) as Hc.
  destruct (choose_from (live s) sides) as [c|].
  - destruct Hc as (_ & Ec & _ & Hm). done.
  - destruct Hc as [Hc|Hc]; [rewrite Hc in Hn; simpl in Hn; lia|done].
Qed.

End SelectProperties.

(** ** Witnesses *)

#[local] Existing Instance example_hbb.
#[local] Existing Instance example_net.
#[local] Existing Instance example_trig.
#[local] Existing Instance example_trig_laws.
#[local] Existing Instance example_maxmind.

(** A server with three relays, a routing file and the geographic files. *)
Definition example_live : list string :=
  ["hk.example.com:21117"; "sh.example.com"; "us.example.com:21117"].

Definition example_fs : FsView := {|
  fs_stamp _ := Some (1, 1);
  fs_text path := if bool_decide (path = "routes") then Some example_text else None;
  fs_reader path := if bool_decide (path = "city.mmdb") then Some example_reader else None;
|}.

Definition example_arg (name : string) : string :=
  if bool_decide (name = "relay-routes") then "routes"
  else if bool_decide (name = "geo-db") then "city.mmdb" else "".

Definition example_ops : list SelectorOp :=
  [OpSetLive example_live; OpConfigure example_arg (fun _ d => d) example_fs].

Definition example_selector : Selector := run_ops example_ops selector_default.

Example example_routed :
  let p := (pick 0 0 example_home example_school true example_selector).1 in
  pick_reason p = ByRoutes /\ pick_relay p = "sh.example.com".
Proof. vm_compute. split; reflexivity. Qed.

Lemma known_ends_get_cheapest_relay_witness :
  pick_relay (pick 0 0 example_home example_school true example_selector).1 = "sh.example.com" /\
  exists k,
    live example_selector !! k =
      Some (pick_relay (pick 0 0 example_home example_school true example_selector).1) /\
    first_min (relay_total (omap (side_costs example_selector) [example_home; example_school]).*1
                 <$> live example_selector) k.
Proof.
  split; [vm_compute; reflexivity|].
  apply (known_ends_get_cheapest_relay example_ops 0 0 example_home example_school true).
  - vm_compute. lia.
  - reflexivity.
  - reflexivity.
  - intros H. apply (f_equal length) in H. vm_compute in H. discriminate H.
Defined.

(** The other end asks a second later, with its address mapped into IPv6, after another
    session was placed and one of the relays stopped answering. *)
Definition example_between : list SelectorOp :=
  [OpPick 5 6 (V4 1) (V4 2) true; OpSetLive ["hk.example.com"; "sh.example.com"]; OpPick 7 8 (V4 3) (V4 4) false].

Lemma attempt_keeps_its_relay_witness :
  pick_relay (pick 0 0 example_home example_school true example_selector).1 = "sh.example.com" /\
  pick_relay (pick (10 ^ 9) (10 ^ 9) example_school (V6 (65535 * 2 ^ 32 + 3405803783)) true
    (run_ops example_between (pick 0 0 example_home example_school true example_selector).2)).1 =
  pick_relay (pick 0 0 example_home example_school true example_selector).1.
Proof.
  split; [vm_compute; reflexivity|].
  apply (attempt_keeps_its_relay 0 0 example_home example_school example_selector
    example_between (10 ^ 9) (10 ^ 9)).
  - vm_compute. discriminate.
  - reflexivity.
  - right. split; reflexivity.
  - split; [split; [reflexivity|vm_compute; lia]|]. split; [vm_compute; right; left|].
    split; [split; [reflexivity|vm_compute; lia]|]. exact I.
  - reflexivity.
  - vm_compute. reflexivity.
Defined.

(** Two picks for the same ends that overlap: both look for a held choice before either has
    made one, and the rotation gives them two relays. *)
Example overlapping_picks_differ :
  let key := pin_key (V4 1) (V4 2) in
  let '(h1, s) := held_choice 0 key true example_selector in
  let '(h2, s) := held_choice 0 key true s in
  let '(p1, s) := decide_relay (V4 1) (V4 2) true s in
  let s := pin_relay 0 key (pick_relay p1) s in
  let '(p2, s) := decide_relay (V4 2) (V4 1) true s in
  h1 = None /\ h2 = None /\ pick_relay p1 = "hk.example.com:21117" /\ pick_relay p2 = "sh.example.com".
Proof. vm_compute. auto. Qed.

Lemma dry_run_is_faithful_witness :
  pick_reason (pick 0 0 example_home example_school false example_selector).1 = ByRoutes /\
  (pick 0 0 example_home example_school false example_selector).1 =
  (pick 0 0 example_home example_school true example_selector).1.
Proof.
  split; [vm_compute; reflexivity|].
  apply (dry_run_is_faithful 0 0 example_home example_school example_selector). reflexivity.
Defined.

(** The operator chooses the relay in the United States. *)
Definition example_preferring : Selector :=
  set_preferred (mkPreferred (Some "US.example.com") "relay_preferred") example_selector.

Lemma preferred_relay_policy_witness :
  normalize "us.example.com:21117" = normalize "US.example.com" /\
  pick 0 0 example_home example_school true example_preferring =
    (mkPick "us.example.com:21117" PreferredRelayUsed [], example_preferring).
Proof.
  assert (Hn : (2 <= length (live example_preferring))%nat) by (vm_compute; lia).
  pose proof (preferred_relay_policy 0 0 example_home example_school true example_preferring
    "US.example.com" eq_refl Hn) as H.
  assert (E : find_relay "US.example.com" (live example_preferring) = Some "us.example.com:21117")
    by (vm_compute; reflexivity).
  rewrite E in H. exact H.
Defined.

Lemma use_relay_survives_restart_witness :
  exists text res s',
    use_relay_command (Some "SH.example.com:21117") RemoveNotFound None example_preferring =
      (res, [FsWrite "relay_preferred" text], s') /\
    pref_relay (preferred s') = Some "sh.example.com" /\ pins s' = ∅ /\
    preferred (load_preferred_relay "relay_preferred" (Some text) selector_default) = preferred s'.
Proof.
  apply (use_relay_survives_restart "SH.example.com:21117" RemoveNotFound example_preferring
    selector_default "sh.example.com"); [reflexivity|discriminate|reflexivity|discriminate].
Defined.

(** The file is replaced by one that does not parse. *)
Definition example_broken_fs : FsView := {|
  fs_stamp _ := Some (2, 2);
  fs_text _ := Some "10.0.0.0/8";
  fs_reader _ := None;
|}.

Lemma reload_keeps_last_good_table_witness :
  is_ok (routes_loaded example_broken_fs "routes") = false /\
  (let s' := reload_relay_routes example_broken_fs example_selector in
   reload_relay_routes example_broken_fs s' = s').
Proof.
  split; [vm_compute; reflexivity|].
  apply (reload_keeps_last_good_table example_broken_fs example_selector "routes"). reflexivity.
Defined.

(** Three sessions between unknown addresses on the same server. *)
Definition example_sessions : list ((Instant * Instant) * (IpAddr * IpAddr)) :=
  [((0, 0), (V4 1, V4 2)); ((1, 1), (V4 3, V4 4)); ((2, 2), (V4 5, V4 6))].

Lemma round_robin_is_fair_witness :
  place example_sessions (set_rotation 4 example_selector) =
    ["sh.example.com"; "us.example.com:21117"; "hk.example.com:21117"] /\
  place example_sessions (set_rotation 4 example_selector) ≡ₚ example_live.
Proof.
  split; [vm_compute; reflexivity|].
  apply (round_robin_is_fair example_sessions (set_rotation 4 example_selector)).
  - vm_compute. lia.
  - reflexivity.
  - vm_compute. discriminate.
  - reflexivity.
  - reflexivity.
  - apply (bool_decide_eq_true_1 _). vm_compute. reflexivity.
  - repeat constructor.
  - repeat constructor.
Defined.
