(* ===== verification/Panel.v ===== *)
(** * The Windows service panel ([src/ui/src])

    A window with a menu and a tray icon that starts and stops the two services and shows
    their log files.  Three tasks talk over two bounded channels: the view
    ([adapter/view/desktop.rs]) and the watcher of the log folder ([usecase/watcher.rs]) send
    to the presenter ([usecase/presenter.rs]), which sends to the view; a send waits while its
    channel is full.  A task that waits in a send does nothing else, so it is part of the
    state what each task is waiting to send.  The services are those of
    [adapter/service/windows.rs]; the command interpreter and the service manager are
    parameters on a state of the system that also changes by itself.  Drawing is reduced to
    what the view sets: titles, enabled items, the selected file and the visibility. *)

From S2P Require Import Prelude RustStr.
From Stdlib Require Import Ascii.

Local Open Scope Z_scope.

(** ** Events and states *)

Inductive DesktopServiceState := Paused | Started | Stopped | Unknown.

#[export] Instance DesktopServiceState_eq_dec : EqDecision DesktopServiceState.
Proof. solve_decision. Defined.

Inductive PanelEvent :=
| BrowserAction (action : string)
| BrowserInit
| BrowserUpdate (action data : string)
| BrowserRender (s : string)
| FileChange (path : string)
| ViewAction (action : string)
| ViewInit
| ViewUpdate (s : string)
| ViewRender (s : string)
| ViewRenderAppExit
| ViewRenderServiceState (state : DesktopServiceState).

Definition BUFFER : nat := 10.

(** [{:?}] of a state. *)
Definition show_state (s : DesktopServiceState) : string :=
  match s with Paused => "Paused" | Started => "Started" | Stopped => "Stopped" | Unknown => "Unknown" end.

(** ** The services *)

(** What is used of the system: running a program with its arguments, whose output is [None]
    when it cannot be started, and the service manager, whose answers are an error's text or
    the state of a service; and the folder of the program, [path()]. *)
Class WindowsLib : Type := {
  WinState : Type;
  win_path : string;
  win_output : string -> list string -> WinState -> option string * WinState;
  sm_connect : WinState -> result string unit;
  sm_open : string -> WinState -> result string unit;
  sm_query : string -> WinState -> result string string;
}.

Section Panel.
  Context {win : WindowsLib}.

(** [call]: a window of the command interpreter that runs a line, in the program's folder and
    with [%nssm%] set; [None] is the panic when there is no interpreter. *)
Definition call (line : string) (w : WinState) : option WinState :=
  let '(out, w') := win_output "cmd" ["/c"; "start"; "cmd"; "/c"; line] w in
  match out with Some _ => Some w' | None => None end.

(** [nssm], whose output is not looked at. *)
Definition nssm (args : list string) (w : WinState) : WinState :=
  (win_output (win_path +:+ "\service\nssm.exe") args w).2.

(** [service_status]: the state, or the text of what went wrong. *)
Definition service_status (name : string) (w : WinState) : string :=
  match sm_connect w with
  | Err e => e
  | Ok _ =>
      match sm_open name w with
      | Err e => e
      | Ok _ => match sm_query name w with Ok st => st | Err e => e end
      end
  end.

(** [WindowsDesktopService]: its methods on its state and the system's. *)
Record WindowsDesktopService := mkService { sv_state : DesktopServiceState }.

Definition service_new : WindowsDesktopService := mkService Stopped.

Definition service_check (w : WinState) : DesktopServiceState :=
  if bool_decide (service_status "hbbs" w = "Running") then Started else Stopped.

Definition start_line : string :=
  join " & " ["echo."; "%nssm% stop hbbr"; "%nssm% remove hbbr confirm"; "%nssm% stop hbbs";
    "%nssm% remove hbbs confirm"; "mkdir logs"; "echo."; "service\run.cmd hbbs"; "echo.";
    "service\run.cmd hbbr"; "echo."; "@ping 127.1 -n 3 >nul"].

Definition stop_line : string :=
  join " & " ["echo."; "%nssm% stop hbbr"; "%nssm% remove hbbr confirm"; "echo.";
    "%nssm% stop hbbs"; "%nssm% remove hbbs confirm"; "echo."; "@ping 127.1 -n 3 >nul"].

Definition pause_line : string :=
  join " & " ["echo."; "%nssm% stop hbbr"; "echo."; "%nssm% stop hbbs"; "echo.";
    "@ping 127.1 -n 3 >nul"].

Definition then_check (w : WinState) : WindowsDesktopService * WinState :=
  (mkService (service_check w), w).

Definition service_start (w : WinState) := then_check <$> call start_line w.
Definition service_stop (w : WinState) := then_check <$> call stop_line w.
Definition service_pause (w : WinState) := then_check <$> call pause_line w.
Definition service_restart (w : WinState) :=
  Some (then_check (nssm ["restart"; "hbbr"] (nssm ["restart"; "hbbs"] w))).

(** ** The presenter *)

Record Presenter := mkPresenter {
  pr_service : WindowsDesktopService;
  pr_state : DesktopServiceState;
  pr_file : string;
}.

Definition presenter_new : Presenter := mkPresenter service_new Unknown "hbbs.out".

Definition file_update (p : Presenter) : option PanelEvent := Some (BrowserUpdate "file" (pr_file p)).

Definition with_service (p : Presenter) (r : option (WindowsDesktopService * WinState))
    : option (Presenter * WinState * option PanelEvent) :=
  (fun r => (mkPresenter r.1 (pr_state p) (pr_file p), r.2, None)) <$> r.

(** One event: what it does, and what is sent to the view.  [None] is a panic, the end of the
    program. *)
Definition presenter_event (e : PanelEvent) (p : Presenter) (w : WinState)
    : option (Presenter * WinState * option PanelEvent) :=
  match e with
  | BrowserInit => Some (p, w, file_update p)
  | BrowserAction action =>
      if bool_decide (action = "restart") then with_service p (service_restart w)
      else Some (p, w, None)
  | FileChange path => Some (p, w, if bool_decide (path = pr_file p) then file_update p else None)
  | ViewAction action =>
      if bool_decide (action = "start") then with_service p (service_start w)
      else if bool_decide (action = "stop") then with_service p (service_stop w)
      else if bool_decide (action = "restart") then with_service p (service_restart w)
      else if bool_decide (action = "pause") then with_service p (service_pause w)
      else if bool_decide (action = "exit") then Some (p, w, Some ViewRenderAppExit)
      else
        let p := mkPresenter (pr_service p) (pr_state p) action in Some (p, w, file_update p)
  | _ => Some (p, w, None)
  end.

(** Once a second: the state is looked at, and told when it is another. *)
Definition presenter_check (p : Presenter) (w : WinState) : Presenter * option PanelEvent :=
  let state := service_check w in
  let p' := mkPresenter (mkService state) (pr_state p) (pr_file p) in
  if bool_decide (state = pr_state p) then (p', None)
  else (mkPresenter (mkService state) state (pr_file p), Some (ViewRenderServiceState state)).

(** ** The view *)

Definition product : string := "RustDesk Server".

Record View := mkView {
  v_title : string;
  v_window_title : string;
  v_blink : bool;
  v_span : Z;
  v_start : bool;
  v_stop : bool;
  v_restart : bool;
  v_selected : option string;
  v_visible : bool;
}.

Definition view_new : View := mkView "" "" false 0 true true true None true.

Definition log_files : list string := ["hbbs.out"; "hbbs.err"; "hbbr.out"; "hbbr.err"; ".env"].

Definition render_state (st : DesktopServiceState) (v : View) : View :=
  let title := product +:+ " " +:+ show_state st in
  let set start stop restart blink :=
    mkView title title blink (v_span v) start stop restart (v_selected v) (v_visible v) in
  match st with
  | Started => set false true true false
  | Stopped => set true false false true
  | _ => set false false false true
  end.

(** [None] is the end of the program. *)
Definition view_event (e : PanelEvent) (v : View) : option View :=
  match e with
  | BrowserUpdate action data =>
      if bool_decide (action = "file") && bool_decide (data ∈ log_files) then
        Some (mkView (v_title v) (v_window_title v) (v_blink v) (v_span v) (v_start v) (v_stop v)
                (v_restart v) (Some data) (v_visible v))
      else Some v
  | ViewRenderAppExit => None
  | ViewRenderServiceState st => Some (render_state st v)
  | _ => Some v
  end.

Definition set_window_title (t : string) (span : Z) (v : View) : View :=
  mkView (v_title v) t (v_blink v) span (v_start v) (v_stop v) (v_restart v) (v_selected v) (v_visible v).

(** The title blinks while the services do not run. *)
Definition view_blink (elapsed : Z) (v : View) : View :=
  if v_blink v then
    if 1000000 <? v_span v then set_window_title (v_title v) 0 v
    else
      let span := v_span v + elapsed in
      set_window_title (if 500000 <? span then product else v_window_title v) span v
  else v.

(** The end of a frame, after the toolkit had its turn: without a window the loop ends. *)
Definition view_frame (window_count : nat) (elapsed : Z) (v : View) : option View :=
  match window_count with O => None | S _ => Some (view_blink elapsed v) end.

Definition set_visible (b : bool) (v : View) : View :=
  mkView (v_title v) (v_window_title v) (v_blink v) (v_span v) (v_start v) (v_stop v)
    (v_restart v) (v_selected v) b.

(** What the user does, and the event it sends. *)
Inductive PanelInput :=
| MenuItemChosen (id : string)
| TrayItemChosen (id : string)
| TrayLeftClick
| CloseRequested
| PageMessage (payload : string).

Definition QUOTE : string := String "034"%char "".

Definition view_input (i : PanelInput) (v : View) : View * option PanelEvent :=
  match i with
  | MenuItemChosen id | TrayItemChosen id => (v, Some (ViewAction id))
  | TrayLeftClick => (set_visible (negb (v_visible v)) v, None)
  | CloseRequested => (set_visible false v, None)
  | PageMessage payload =>
      (v, if bool_decide (payload = QUOTE +:+ "__init__" +:+ QUOTE) then Some BrowserInit
          else if bool_decide (payload = QUOTE +:+ "restart" +:+ QUOTE) then Some (BrowserAction "restart")
          else None)
  end.

(** The items there are. *)
Definition menu_items : list string :=
  ["restart"; "start"; "stop"; "hbbs.out"; "hbbs.err"; "hbbr.out"; "hbbr.err"; ".env"].
Definition tray_items : list string := ["restart"; "start"; "stop"; "exit"].

(** ** The watcher *)

(** The events of the changed paths, by their file names. *)
Definition watch_events (names : list string) : list PanelEvent :=
  FileChange <$> List.filter str_nonempty names.

(** [watch], once its watcher is set up: the batches it sends on, one per notification, up to
    the first that is an error, which ends it. *)
Fixpoint watch {E} (rx : list (result E (list string))) : list (list PanelEvent) * result E unit :=
  match rx with
  | [] => ([], Ok tt)
  | Ok names :: rx' => let '(sent, r) := watch rx' in (watch_events names :: sent, r)
  | Err e :: _ => ([], Err e)
  end.

(** [watcher::create]: one [watch] after the other, a second apart, however they end; a round
    is the error of setting it up or what is notified. *)
Definition watcher_create {E} (rounds : list (result E (list (result E (list string)))))
    : list (list PanelEvent) :=
  mjoin ((fun round => match round with Ok rx => (watch rx).1 | Err _ => [] end) <$> rounds).

(** ** The three tasks *)

Record Panel := mkPanel {
  to_presenter : list PanelEvent;
  to_view : list PanelEvent;
  pa_presenter : Presenter;
  pa_view : View;
  pa_win : WinState;
  (** what each task is waiting to send *)
  presenter_sends : option PanelEvent;
  view_sends : option PanelEvent;
  watcher_sends : list PanelEvent;
}.

Definition panel_new (w : WinState) : Panel :=
  mkPanel [] [] presenter_new view_new w (Some (ViewRenderServiceState Unknown)) (Some ViewInit) [].

(** One step of one task, or of the system around them. *)
Inductive panel_step : Panel -> Panel -> Prop :=
| S_presenter_event e q tv p v w vs ws p' w' o :
    presenter_event e p w = Some (p', w', o) ->
    panel_step (mkPanel (e :: q) tv p v w None vs ws) (mkPanel q tv p' v w' o vs ws)
| S_presenter_check q tv p v w vs ws p' o :
    presenter_check p w = (p', o) ->
    panel_step (mkPanel q tv p v w None vs ws) (mkPanel q tv p' v w o vs ws)
| S_presenter_send q tv p v w e vs ws :
    (length tv < BUFFER)%nat ->
    panel_step (mkPanel q tv p v w (Some e) vs ws) (mkPanel q (tv ++ [e]) p v w None vs ws)
| S_view_event q e tv p v w ps ws v' :
    view_event e v = Some v' ->
    panel_step (mkPanel q (e :: tv) p v w ps None ws) (mkPanel q tv p v' w ps None ws)
| S_view_frame q tv p v w ps ws window_count elapsed v' :
    16666 < elapsed -> view_frame window_count elapsed v = Some v' ->
    panel_step (mkPanel q tv p v w ps None ws) (mkPanel q tv p v' w ps None ws)
| S_view_input q tv p v w ps ws i v' o :
    match i with
    | MenuItemChosen id => id ∈ menu_items
    | TrayItemChosen id => id ∈ tray_items
    | _ => True
    end ->
    view_input i v = (v', o) ->
    panel_step (mkPanel q tv p v w ps None ws) (mkPanel q tv p v' w ps o ws)
| S_view_send q tv p v w ps e ws :
    (length q < BUFFER)%nat ->
    panel_step (mkPanel q tv p v w ps (Some e) ws) (mkPanel (q ++ [e]) tv p v w ps None ws)
| S_watch q tv p v w ps vs names :
    panel_step (mkPanel q tv p v w ps vs []) (mkPanel q tv p v w ps vs (watch_events names))
| S_watch_send q tv p v w ps vs e ws :
    (length q < BUFFER)%nat ->
    panel_step (mkPanel q tv p v w ps vs (e :: ws)) (mkPanel (q ++ [e]) tv p v w ps vs ws)
| S_system q tv p v w ps vs ws w' :
    panel_step (mkPanel q tv p v w ps vs ws) (mkPanel q tv p v w' ps vs ws).

End Panel.

(** ** Facts *)

(** The states and the files an event announces to the view. *)
Definition state_news (e : PanelEvent) : option DesktopServiceState :=
  match e with ViewRenderServiceState st => Some st | _ => None end.
Definition file_news (e : PanelEvent) : option string :=
  match e with BrowserUpdate _ data => Some data | _ => None end.

(** The window as it is for a state: the title, what can be chosen, whether it blinks. *)
Definition shows (st : DesktopServiceState) (v : View) : Prop :=
  v_title v = product +:+ " " +:+ show_state st /\
  v_start v = bool_decide (st = Stopped) /\ v_stop v = bool_decide (st = Started) /\
  v_restart v = bool_decide (st = Started) /\ v_blink v = negb (bool_decide (st = Started)).

(** The last news under way, or what the view has. *)
Definition news_under_way {A} (f : PanelEvent -> option A) (tv : list PanelEvent)
    (ps : option PanelEvent) : option A :=
  last (omap f (tv ++ option_list ps)).

Section PanelFacts.
  Context {win : WindowsLib}.

(** An action there is an item for. *)
Definition action_ok (e : PanelEvent) : Prop :=
  match e with ViewAction id => id ∈ menu_items ++ tray_items | _ => True end.

Record panel_wf (s : Panel) : Prop := {
  wf_to_presenter : (length (to_presenter s) <= BUFFER)%nat;
  wf_to_view : (length (to_view s) <= BUFFER)%nat;
  wf_actions : Forall action_ok (to_presenter s ++ option_list (view_sends s) ++ watcher_sends s);
  wf_file : pr_file (pa_presenter s) ∈ log_files;
  wf_state : pr_state (pa_presenter s) <> Paused;
  wf_window : v_window_title (pa_view s) = v_title (pa_view s) \/
    v_blink (pa_view s) = true /\ v_window_title (pa_view s) = product;
  wf_state_news :
    match news_under_way state_news (to_view s) (presenter_sends s) with
    | Some st => st = pr_state (pa_presenter s)
    | None => shows (pr_state (pa_presenter s)) (pa_view s)
    end;
  wf_file_news :
    match news_under_way file_news (to_view s) (presenter_sends s) with
    | Some f => f = pr_file (pa_presenter s)
    | None => forall f, v_selected (pa_view s) = Some f -> f = pr_file (pa_presenter s)
    end;
  wf_updates : Forall (fun e => forall a d, e = BrowserUpdate a d -> a = "file" /\ d ∈ log_files)
    (to_view s ++ option_list (presenter_sends s));
}.

Lemma panel_new_wf (w : WinState) : panel_wf (panel_new w).
Proof.
  constructor; simpl; try done; try (unfold BUFFER; lia).
  - by repeat constructor.
  - set_solver.
  - by left.
  - by repeat constructor.
Qed.

(** Sending moves the news into the channel, where it is the last as before. *)
Lemma news_sent {A} (f : PanelEvent -> option A) tv e :
  news_under_way f (tv ++ [e]) None = news_under_way f tv (Some e).
Proof. unfold news_under_way. simpl. by rewrite app_nil_r. Qed.

(** What a task waits to send next comes after everything else. *)
Lemma news_next {A} (f : PanelEvent -> option A) tv o :
  news_under_way f tv o =
    match o ≫= f with Some a => Some a | None => news_under_way f tv None end.
Proof.
  unfold news_under_way. destruct o as [e|]; simpl; [|done].
  rewrite app_nil_r, omap_app. simpl. destruct (f e); simpl; [by rewrite last_snoc|by rewrite app_nil_r].
Qed.

(** What the view takes was the oldest: later news hides it. *)
Lemma news_taken {A} (f : PanelEvent -> option A) e tv ps :
  news_under_way f (e :: tv) ps =
    match news_under_way f tv ps with Some a => Some a | None => f e end.
Proof.
  unfold news_under_way. simpl. destruct (f e) as [a|]; [|by destruct (last _)].
  by rewrite last_cons.
Qed.

(** Every item is a command or a log file. *)
Lemma item_kinds id :
  id ∈ menu_items ++ tray_items -> id ∈ ["start"; "stop"; "restart"; "exit"] \/ id ∈ log_files.
Proof.
  intros Hid. cut (Forall (fun id => id ∈ ["start"; "stop"; "restart"; "exit"] \/ id ∈ log_files)
    (menu_items ++ tray_items)); [intros H; by apply (proj1 (Forall_forall _ _) H)|].
  apply (bool_decide_unpack _). by vm_compute.
Qed.

(** What the presenter does with an event: a log file stays chosen, the state it told is
    kept, and it announces nothing but its file or the end. *)
Lemma presenter_event_spec e p w p' w' o :
  presenter_event e p w = Some (p', w', o) -> action_ok e -> pr_file p ∈ log_files ->
  pr_state p' = pr_state p /\ pr_file p' ∈ log_files /\
  (o = file_update p' \/ pr_file p' = pr_file p /\ (o = None \/ o = Some ViewRenderAppExit)).
Proof.
  unfold presenter_event, with_service. intros E Ha Hf.
  destruct e; repeat case_bool_decide;
    first [injection E as <- <- <- | apply fmap_Some in E as (r & _ & E); injection E as -> -> ->];
    simpl; eauto 7.
  split; [done|]. split; [|by left]. destruct (item_kinds _ Ha) as [Hc|Hc]; [|done].
  exfalso. revert Hc. rewrite !elem_of_cons, elem_of_nil. by intuition.
Qed.

Lemma presenter_check_spec p w p' o :
  presenter_check p w = (p', o) ->
  pr_file p' = pr_file p /\ (pr_state p <> Paused -> pr_state p' <> Paused) /\
  (o = None /\ pr_state p' = pr_state p \/ o = Some (ViewRenderServiceState (pr_state p'))).
Proof.
  unfold presenter_check. intros E. case_bool_decide; simplify_eq/=.
  - split; [done|]. split; [done|]. by left.
  - split; [done|]. split; [|by right]. intros _. unfold service_check. by case_bool_decide.
Qed.

(** The view shows a state it is told and keeps what it shows otherwise. *)
Lemma render_shows st v : shows st (render_state st v).
Proof. by destruct st. Qed.

Lemma shows_of_view st v v' :
  v_title v' = v_title v -> v_start v' = v_start v -> v_stop v' = v_stop v ->
  v_restart v' = v_restart v -> v_blink v' = v_blink v -> shows st v -> shows st v'.
Proof. unfold shows. by intros -> -> -> -> ->. Qed.

(** What is under way when the presenter goes on with [o]. *)
Lemma wf_presenter q tv p v w vs ws p' w' o q' :
  panel_wf (mkPanel q tv p v w None vs ws) -> q' `suffix_of` q ->
  pr_file p' ∈ log_files -> pr_state p' <> Paused ->
  match o with
  | Some (ViewRenderServiceState st) => st = pr_state p' /\ pr_file p' = pr_file p
  | Some (BrowserUpdate a f) => a = "file" /\ f = pr_file p' /\ pr_state p' = pr_state p
  | _ => pr_state p' = pr_state p /\ pr_file p' = pr_file p
  end ->
  panel_wf (mkPanel q' tv p' v w' o vs ws).
Proof.
  intros [Hq Ht Ha Hf Hs Hw Hn Hfn Hu] [pre ->] Hf' Hs' Ho. simpl in *.
  rewrite length_app in Hq. rewrite <- app_assoc in Ha. apply Forall_app in Ha as [_ Ha].
  rewrite app_nil_r in Hu.
  constructor; simpl; try done; try lia.
  - rewrite news_next. destruct o as [[]|]; destruct_and?; simpl; try done;
      by replace (pr_state p') with (pr_state p) by congruence.
  - rewrite news_next. destruct o as [[]|]; destruct_and?; simpl; try done;
      by replace (pr_file p') with (pr_file p) by congruence.
  - apply Forall_app. split; [done|]. destruct o as [e|]; [|constructor].
    apply Forall_singleton. intros a d ->. destruct_and!. by subst.
Qed.

(** When the view changes by itself, in nothing that follows the presenter. *)
Lemma wf_view q tv p v w ps vs ws v' vs' :
  panel_wf (mkPanel q tv p v w ps vs ws) ->
  (forall st, shows st v -> shows st v') -> v_selected v' = v_selected v ->
  (v_window_title v' = v_title v' \/ v_blink v' = true /\ v_window_title v' = product) ->
  Forall action_ok (option_list vs') ->
  panel_wf (mkPanel q tv p v' w ps vs' ws).
Proof.
  intros [Hq Ht Ha Hf Hs Hw Hn Hfn Hu] Hsh Hsel Hw' Hvs. simpl in *.
  apply Forall_app in Ha as [Ha1 Ha2]. apply Forall_app in Ha2 as [_ Ha2].
  constructor; simpl; try done.
  - apply Forall_app. split; [done|]. by apply Forall_app.
  - destruct (news_under_way state_news tv ps); [done|by apply Hsh].
  - destruct (news_under_way file_news tv ps); [done|by rewrite Hsel].
Qed.

(** The view takes an event: news it takes is shown, and later news hides it. *)
Lemma wf_view_event q e tv p v w ps ws v' :
  panel_wf (mkPanel q (e :: tv) p v w ps None ws) -> view_event e v = Some v' ->
  panel_wf (mkPanel q tv p v' w ps None ws).
Proof.
  intros [Hq Ht Ha Hf Hs Hw Hn Hfn Hu] E. simpl in *.
  rewrite news_taken in Hn. rewrite news_taken in Hfn. apply Forall_cons in Hu as [He Hu].
  constructor; simpl; try done; try lia.
  - destruct e as [| |a d| | | | | | | |st]; simplify_eq/=; try done.
    + repeat case_bool_decide; by simplify_eq/=.
    + left. by destruct st.
  - destruct (news_under_way state_news tv ps); [done|].
    destruct e as [| |a d| | | | | | | |st]; simplify_eq/=; try done.
    + repeat case_bool_decide; by simplify_eq/=.
    + apply render_shows.
  - destruct (news_under_way file_news tv ps); [done|].
    destruct e as [| |a d| | | | | | | |st]; simplify_eq/=; try done.
    + destruct (He a _ eq_refl) as [-> Hd]. rewrite !bool_decide_true in E by done.
      simplify_eq/=. intros f [= <-]. done.
    + by destruct st.
Qed.

Lemma blink_shows st elapsed v : shows st v -> shows st (view_blink elapsed v).
Proof. unfold view_blink. repeat case_match; try done; by apply shows_of_view. Qed.

Lemma blink_window elapsed v :
  v_window_title v = v_title v \/ v_blink v = true /\ v_window_title v = product ->
  v_window_title (view_blink elapsed v) = v_title (view_blink elapsed v) \/
    v_blink (view_blink elapsed v) = true /\ v_window_title (view_blink elapsed v) = product.
Proof.
  unfold view_blink. intros [E|E]; destruct (v_blink v) eqn:Eb; repeat case_match; simpl;
    rewrite ?Eb; intuition congruence.
Qed.

(** What the user does sends no action there is no item for. *)
Lemma view_input_action i v v' o :
  match i with
  | MenuItemChosen id => id ∈ menu_items
  | TrayItemChosen id => id ∈ tray_items
  | _ => True
  end -> view_input i v = (v', o) -> Forall action_ok (option_list o).
Proof.
  intros Hi E. apply (f_equal snd) in E. simpl in E. subst o.
  destruct i; simpl; try by constructor.
  1,2: apply Forall_singleton; unfold action_ok; apply elem_of_app; by auto.
  repeat case_match; by repeat constructor.
Qed.

Lemma panel_step_wf s s' : panel_step s s' -> panel_wf s -> panel_wf s'.
Proof.
  intros St Wf. destruct St.
  - pose proof (wf_actions _ Wf) as Ha. simpl in Ha. apply Forall_cons in Ha as [Ha _].
    destruct (presenter_event_spec _ _ _ _ _ _ H Ha (wf_file _ Wf)) as (Es & Hf & Ho).
    eapply wf_presenter; eauto.
    + by exists [e].
    + rewrite Es. apply (wf_state _ Wf).
    + by destruct Ho as [->|[? [->| ->]]].
  - destruct (presenter_check_spec _ _ _ _ H) as (Ef & Hp & Ho).
    eapply wf_presenter; eauto.
    + rewrite Ef. apply (wf_file _ Wf).
    + apply Hp, (wf_state _ Wf).
    + by destruct Ho as [[-> ?]| ->].
  - destruct Wf as [Hq Ht Ha Hf Hs Hw Hn Hfn Hu]. simpl in *. constructor; simpl; try done.
    + rewrite length_app. simpl. lia.
    + by rewrite news_sent.
    + by rewrite news_sent.
    + by rewrite app_nil_r.
  - by eapply wf_view_event.
  - destruct window_count; simplify_eq/=. eapply wf_view; [done| | | |].
    + intros st. apply blink_shows.
    + unfold view_blink. by repeat case_match.
    + apply blink_window, (wf_window _ Wf).
    + constructor.
  - destruct Wf as [Hq Ht Ha Hf Hs Hw Hn Hfn Hu].
    eapply wf_view; [by constructor| | | |].
    + destruct i; simplify_eq/=; intros; try done; by eapply shows_of_view.
    + by destruct i; simplify_eq/=.
    + by destruct i; simplify_eq/=.
    + by eapply view_input_action.
  - destruct Wf as [Hq Ht Ha Hf Hs Hw Hn Hfn Hu]. simpl in *. constructor; simpl; try done.
    + rewrite length_app. simpl. lia.
    + by rewrite <- app_assoc.
  - destruct Wf as [Hq Ht Ha Hf Hs Hw Hn Hfn Hu]. simpl in *. constructor; simpl; try done.
    rewrite app_nil_r in Ha. rewrite app_assoc. apply Forall_app. split; [done|].
    unfold watch_events. by apply Forall_fmap, Forall_true.
  - destruct Wf as [Hq Ht Ha Hf Hs Hw Hn Hfn Hu]. simpl in *. constructor; simpl; try done.
    + rewrite length_app. simpl. lia.
    + rewrite <- app_assoc. revert Ha. rewrite !Forall_app, !Forall_cons. simpl. by intuition.
  - destruct Wf. by constructor.
Qed.

Lemma panel_reachable_wf w s : rtc panel_step (panel_new w) s -> panel_wf s.
Proof.
  revert s. apply rtc_ind_r; [apply panel_new_wf|eauto using panel_step_wf].
Qed.

(** Whatever the watcher sends is made of batches of changed files, as in [S_watch]. *)
Lemma watch_batches {E} (rx : list (result E (list string))) :
  Forall (fun b => exists names, b = watch_events names) (watch rx).1.
Proof.
  induction rx as [|[names|e] rx IH]; cbn [watch]; [constructor| |constructor].
  destruct (watch rx) as [sent r]. constructor; eauto.
Qed.

Lemma watcher_batches {E} (rounds : list (result E (list (result E (list string))))) :
  Forall (fun b => exists names, b = watch_events names) (watcher_create rounds).
Proof.
  unfold watcher_create. induction rounds as [|[rx|e] rounds IH]; cbn; [constructor| |done].
  apply Forall_app. split; [apply watch_batches|done].
Qed.

(** ** A deadlock *)

(** Every task waits in a send, and both channels are full. *)
Definition panel_stuck (s : Panel) : Prop :=
  length (to_presenter s) = BUFFER /\ length (to_view s) = BUFFER /\
  is_Some (presenter_sends s) /\ is_Some (view_sends s).

(** The moves of a schedule. *)
Inductive PanelMove := MPresenter | MPresenterSend | MView (i : PanelInput) | MViewSend
  | MWatch (names : list string) | MWatchSend.

(** The step of a move, when it can be made. *)
Definition panel_do (mv : PanelMove) (s : Panel) : option Panel :=
  let '(mkPanel q tv p v w ps vs ws) := s in
  match mv, q, ps, vs, ws with
  | MPresenter, e :: q, None, _, _ =>
      let! (p', w', o) := presenter_event e p w in Some (mkPanel q tv p' v w' o vs ws)
  | MPresenterSend, _, Some e, _, _ =>
      if Nat.ltb (length tv) BUFFER then Some (mkPanel q (tv ++ [e]) p v w None vs ws) else None
  | MView (MenuItemChosen id), _, _, None, _ =>
      if bool_decide (id ∈ menu_items)
      then Some (mkPanel q tv p v w ps (Some (ViewAction id)) ws) else None
  | MViewSend, _, _, Some e, _ =>
      if Nat.ltb (length q) BUFFER then Some (mkPanel (q ++ [e]) tv p v w ps None ws) else None
  | MWatch names, _, _, _, [] => Some (mkPanel q tv p v w ps vs (watch_events names))
  | MWatchSend, _, _, _, e :: ws =>
      if Nat.ltb (length q) BUFFER then Some (mkPanel (q ++ [e]) tv p v w ps vs ws) else None
  | _, _, _, _, _ => None
  end.

Lemma panel_do_step mv s s' : panel_do mv s = Some s' -> panel_step s s'.
Proof.
  destruct s as [q tv p v w ps vs ws]. unfold panel_do. intros E.
  destruct mv; repeat case_match; simplify_eq;
    repeat match goal with H : Nat.ltb _ _ = true |- _ => apply Nat.ltb_lt in H end;
    try (econstructor; by eauto).
  case_bool_decide; [|done]. by apply (S_view_input _ _ _ _ _ _ _ (MenuItemChosen id)).
Qed.

(** A whole schedule. *)
Definition panel_run (ms : list PanelMove) (s : Panel) : option Panel :=
  foldl (fun o mv => o ≫= panel_do mv) (Some s) ms.

Lemma panel_run_steps ms s s' : panel_run ms s = Some s' -> rtc panel_step s s'.
Proof.
  unfold panel_run. revert s. induction ms as [|mv ms IH]; simpl; intros s E; [by simplify_eq|].
  destruct (panel_do mv s) as [s1|] eqn:E1.
  - eapply rtc_l; eauto using panel_do_step.
  - exfalso. clear -E. induction ms; simpl in E; [done|auto].
Qed.

(** A log file written faster than the presenter reads, and one item chosen meanwhile. *)
Definition busy_log : list PanelMove :=
  [MPresenterSend; MViewSend; MPresenter; MWatch (replicate 20 "hbbs.out")] ++
  replicate 10 MWatchSend ++ [MView (MenuItemChosen "stop")] ++
  mjoin (replicate 9 [MPresenter; MPresenterSend; MWatchSend]) ++ [MPresenter; MWatchSend].

Lemma stuck_step s s' :
  panel_stuck s -> panel_step s s' -> panel_stuck s' /\ pa_view s' = pa_view s /\
    pa_presenter s' = pa_presenter s /\ view_sends s' = view_sends s.
Proof.
  intros (Hq & Ht & [a Hp] & [b Hv]) St. unfold panel_stuck.
  destruct St; simpl in *; simplify_eq; try (unfold BUFFER in *; lia); eauto 10.
Qed.

End PanelFacts.

(** ** Claims *)

(** C28: In every state the three tasks can reach, whatever the user, the log folder and the
    services do in any order: both channels hold at most [BUFFER] events; the presenter's file
    is one of the five there are items for and its state is never [Paused]; and the view
    follows the presenter: when no state is under way to it, its title, its enabled items
    and its blinking are those of the presenter's state, a running service's title is in the
    window itself, and a state under way last is the presenter's; likewise for the selected
    file. *)
Theorem panel_follows_service `{win : WindowsLib} (w : WinState) (s : Panel)
    (HR : rtc panel_step (panel_new w) s) :
  (length (to_presenter s) <= BUFFER)%nat /\ (length (to_view s) <= BUFFER)%nat /\
  pr_file (pa_presenter s) ∈ log_files /\ pr_state (pa_presenter s) <> Paused /\
  match news_under_way state_news (to_view s) (presenter_sends s) with
  | Some st => st = pr_state (pa_presenter s)
  | None => shows (pr_state (pa_presenter s)) (pa_view s) /\
      (pr_state (pa_presenter s) = Started -> v_window_title (pa_view s) = v_title (pa_view s))
  end /\
  match news_under_way file_news (to_view s) (presenter_sends s) with
  | Some f => f = pr_file (pa_presenter s)
  | None => forall f, v_selected (pa_view s) = Some f -> f = pr_file (pa_presenter s)
  end.
Proof.
  destruct (panel_reachable_wf w s HR) as [Hq Ht Ha Hf Hs Hw Hn Hfn Hu].
  repeat (split; [done|]). split; [|done].
  destruct (news_under_way state_news _ _); [done|]. split; [done|]. intros E.
  destruct Hn as (_ & _ & _ & _ & Hb). rewrite E in Hb. destruct Hw as [|[Hw _]]; [done|].
  rewrite Hw in Hb. discriminate.
Qed.

(** The panel can freeze for good: from its start a log file that grows while the presenter
    is at work and one menu item chosen meanwhile lead to a state in which the presenter waits
    to send to the view, the view waits in its menu handler to send to the presenter, and both
    channels are full; whatever happens afterwards, the view and the presenter stay as they
    are, and the chosen item is not acted on. *)
Theorem panel_can_freeze `{win : WindowsLib} (w : WinState) :
  exists s, rtc panel_step (panel_new w) s /\ view_sends s = Some (ViewAction "stop") /\
    forall s', rtc panel_step s s' ->
      panel_stuck s' /\ pa_view s' = pa_view s /\ pa_presenter s' = pa_presenter s /\
      view_sends s' = view_sends s.
Proof.
  destruct (panel_run busy_log (panel_new w)) as [s|] eqn:E; [|vm_compute in E; discriminate E].
  exists s. split; [by eapply panel_run_steps|].
  assert (panel_stuck s /\ view_sends s = Some (ViewAction "stop")) as [Hs Hv].
  { vm_compute in E. apply (inj Some) in E as <-. unfold panel_stuck. simpl. eauto 10. }
  split; [done|]. intros s' R. induction R as [|s1 s2 s3 St R IH] in Hs, Hv |- *; [done|].
  destruct (stuck_step _ _ Hs St) as (Hs2 & <- & <- & Ev). rewrite <- Ev.
  apply IH; [done|]. by rewrite Ev.
Qed.

(** ** A system for the witnesses: whether the services run *)

Definition ex_win : WindowsLib := {|
  WinState := bool;
  win_path := "C:\RustDesk";
  win_output program args running :=
    (Some "", if bool_decide (program = "cmd") then bool_decide (last args = Some start_line) else running);
  sm_connect _ := Ok tt;
  sm_open _ _ := Ok tt;
  sm_query _ running := Ok (if (running : bool) then "Running" else "Stopped");
|}.

(** Two log files change and an item is chosen. *)
Definition ex_moves : list PanelMove :=
  [MPresenterSend; MViewSend; MPresenter; MWatch ["hbbs.out"; ""; "hbbr.out"]; MWatchSend;
   MView (MenuItemChosen "hbbr.err"); MViewSend; MWatchSend; MPresenter; MPresenterSend; MPresenter].

Definition ex_panel : Panel (win := ex_win) :=
  default (panel_new (win := ex_win) false) (panel_run (win := ex_win) ex_moves (panel_new (win := ex_win) false)).

Lemma panel_follows_service_witness :
  pr_file (pa_presenter (win := ex_win) ex_panel) = "hbbr.err" /\
  (length (to_presenter (win := ex_win) ex_panel) <= BUFFER)%nat.
Proof.
  split; [by vm_compute|].
  apply (panel_follows_service (win := ex_win) false ex_panel).
  apply (panel_run_steps (win := ex_win) ex_moves). by vm_compute.
Defined.
