(* ===== verification/GeoUpdate.v ===== *)
(** * Keeping the GeoIP database current ([src/src/geo_update.rs])

    Once a month a new database is published.  [update] looks for this month's, then for
    last month's, downloads it beside the current one, checks it and renames it into place;
    what was installed is recorded in a second file.  A download is what the HTTP client
    (reqwest), the decompressor (flate2) and the database reader (maxminddb) make of it:
    the reply, the decompressor and the reader are parameters.  A stream is the list of the
    reads it serves; every file operation can fail. *)

From S2P Require Import Prelude RustStr RustFloat Net External RelayRoutes RelayGeo.
From Stdlib Require Import Ascii.

Local Open Scope Z_scope.

(** ** Options *)

Definition MAX_DOWNLOAD_BYTES : Z := Z.shiftl 300 20.
Definition MAX_UNPACKED_BYTES : Z := Z.shiftl 1 30.
Definition MIN_NODES : Z := 100000.

(** A year and a month. *)
Record Month := mkMonth { year : Z; month : Z }.

Record GeoOptions := mkGeoOptions {
  o_base_url : string;
  o_now : Month;
  o_force : bool;
  o_max_download : Z;
  o_max_unpacked : Z;
  o_min_nodes : Z;
}.

Definition options_new (base_url : string) (now : Month) : GeoOptions :=
  mkGeoOptions base_url now false MAX_DOWNLOAD_BYTES MAX_UNPACKED_BYTES MIN_NODES.

Inductive GeoOutcome := Updated (month : string) | UpToDate (month : string).

(** ** Months *)

Fixpoint zeros (n : nat) : string :=
  match n with O => "" | S n' => String "0" (zeros n') end.

(** [{z:0width}]: zeros between the sign and the digits. *)
Definition pad (width : nat) (z : Z) : string :=
  if z <? 0 then
    let d := show_Z (- z) in "-" +:+ zeros (width - 1 - String.length d) +:+ d
  else
    let d := show_Z z in zeros (width - String.length d) +:+ d.

Definition label (t : Month) : string := pad 4 (year t) +:+ "-" +:+ pad 2 (month t).

Definition previous (t : Month) : Month :=
  if month t <=? 1 then mkMonth (year t - 1) 12 else mkMonth (year t) (month t - 1).

(** ** Files *)

(** The database, the record of its month, and the file being written. *)
Record GeoFiles := mkGeoFiles {
  g_db : option string;
  g_version : option string;
  g_tmp : option string;
}.

Definition set_geo_db x g := mkGeoFiles x (g_version g) (g_tmp g).
Definition set_version x g := mkGeoFiles (g_db g) x (g_tmp g).
Definition set_tmp x g := mkGeoFiles (g_db g) (g_version g) x.

(** The month of the installed file, if there is a file and a record of it. *)
Definition is_label (l : string) : bool :=
  (String.length l =? 7)%nat &&
  bool_decide (String.get 4 l = Some "-"%char) &&
  str_forall is_ascii_digit (String.substring 0 4 l) &&
  str_forall is_ascii_digit (String.substring 5 2 l).

Definition installed (g : GeoFiles) : option string :=
  let! _ := g_db g in
  let! text := g_version g in
  let l := trim text in
  if is_label l then Some l else None.

(** [str::trim_end_matches('/')]. *)
Fixpoint trim_end_slashes (s : string) : string :=
  match s with
  | "" => ""
  | String c s' =>
      let t := trim_end_slashes s' in
      if bool_decide (c = "/"%char) && negb (str_nonempty t) then "" else String c t
  end.

(** ** Streams *)

Inductive FetchError :=
| NoHttpClient
| SendFailed
| HttpStatus (code : Z)
| TooLong (len : Z)
| CannotWriteTmp
| ReadFailed (e : string)
| FlushFailed
| NotUsable (p : CityProblem)
| CannotReplace
| CannotRecord (month : string)
| NotPublishedYet (now prev : string).

(** What the reads of a stream return, one after the other; then it is at its end. *)
Abbreviation ByteStream := (list (result string string)).

Definition bytes_len (s : string) : Z := Z.of_nat (String.length s).

(** [Capped]: an error once more than [left] bytes have passed. *)
Fixpoint capped (what : string) (left : Z) (s : ByteStream) : ByteStream :=
  match s with
  | [] => []
  | Err e :: _ => [Err e]
  | Ok b :: s' =>
      if left <? bytes_len b then [Err (what +:+ " is larger than the limit")]
      else Ok b :: capped what (left - bytes_len b) s'
  end.

(** [io::copy] to a file that takes [room] more bytes: what was written, and the error that
    ended it. *)
Fixpoint copy_to (room : option nat) (s : ByteStream) : string * option string :=
  match s with
  | [] => ("", None)
  | Err e :: _ => ("", Some e)
  | Ok b :: s' =>
      match room with
      | Some r =>
          if (r <? String.length b)%nat then (String.substring 0 r b, Some "the disk is full")
          else let '(w, e) := copy_to (Some (r - String.length b)%nat) s' in (b +:+ w, e)
      | None => let '(w, e) := copy_to None s' in (b +:+ w, e)
      end
  end.

(** ** Fetching *)

Record Reply := mkReply { r_status : Z; r_length : option Z; r_body : ByteStream }.

(** What the world does to one attempt: the client and its reply, and which file operations
    work. *)
Record Download := mkDownload {
  at_client : bool;
  at_reply : option Reply;
  at_create : bool;
  at_room : option nat;
  at_flush : bool;
  at_rename : bool;
  at_unlink : bool;
}.

Inductive Fetched := Installed | NotPublished.

(** Writing the record: it works, the file cannot be opened, or it is cut after some bytes. *)
Inductive Recording := RecordWorks | RecordNotOpened | RecordCut (n : nat).

(** The files and the states they went through, latest first. *)
Record GeoWorld := mkGeoWorld { gw_files : GeoFiles; gw_hist : list GeoFiles }.

Definition put (f : GeoFiles -> GeoFiles) (w : GeoWorld) : GeoWorld :=
  let g := f (gw_files w) in mkGeoWorld g (g :: gw_hist w).

Section Update.
  Context {mm : MaxMind}.
  (** [flate2::read::GzDecoder] and [maxminddb::Reader::open_mmap]. *)
  Context (gunzip : ByteStream -> ByteStream) (reader_of : string -> option Reader).

(** What the download of a body amounts to when every write works. *)
Definition unpacked (o : GeoOptions) (body : ByteStream) : ByteStream :=
  capped "the unpacked file" (o_max_unpacked o)
    (gunzip (capped "the download" (o_max_download o) body)).

(** [TempFile]'s drop: the temporary file is removed, if that works. *)
Definition drop_tmp (a : Download) (w : GeoWorld) : GeoWorld :=
  if at_unlink a then put (set_tmp None) w else w.

Definition fetch_url (o : GeoOptions) (month : string) : string :=
  trim_end_slashes (o_base_url o) +:+ "/dbip-city-lite-" +:+ month +:+ ".mmdb.gz".

(** The part of [fetch_month] between the reply and the end. *)
Definition install (o : GeoOptions) (a : Download) (body : ByteStream) (w : GeoWorld)
    : result FetchError Fetched * GeoWorld :=
  if negb (at_create a) then (Err CannotWriteTmp, drop_tmp a w)
  else
    let '(written, e) := copy_to (at_room a) (unpacked o body) in
    let w := put (set_tmp (Some written)) (put (set_tmp (Some "")) w) in
    match e with
    | Some e => (Err (ReadFailed e), drop_tmp a w)
    | None =>
        if negb (at_flush a) then (Err FlushFailed, drop_tmp a w)
        else
          match validate_city (reader_of written) (o_min_nodes o) with
          | Err p => (Err (NotUsable p), drop_tmp a w)
          | Ok _ =>
              if negb (at_rename a) then (Err CannotReplace, drop_tmp a w)
              else (Ok Installed, put (fun g => set_tmp None (set_geo_db (Some written) g)) w)
          end
    end.

Definition fetch_month (o : GeoOptions) (a : Download) (w : GeoWorld)
    : result FetchError Fetched * GeoWorld :=
  if negb (at_client a) then (Err NoHttpClient, w)
  else
    match at_reply a with
    | None => (Err SendFailed, w)
    | Some r =>
        if r_status r =? 404 then (Ok NotPublished, w)
        else if negb ((200 <=? r_status r) && (r_status r <=? 299)) then
          (Err (HttpStatus (r_status r)), w)
        else if match r_length r with
                | Some len => o_max_download o <? len
                | None => false
                end
        then (Err (TooLong (default 0 (r_length r))), w)
        else install o a (r_body r) w
    end.

(** The loop over this month and the one before: [web] is what answers at an address, and
    [record] what comes of writing the version file. *)
Fixpoint try_months (o : GeoOptions) (web : string -> Download) (record : Recording)
    (have : option string) (months : list Month) (w : GeoWorld)
    : result FetchError GeoOutcome * GeoWorld :=
  match months with
  | [] =>
      match have with
      | Some h => (Ok (UpToDate h), w)
      | None => (Err (NotPublishedYet (label (o_now o)) (label (previous (o_now o)))), w)
      end
  | m :: rest =>
      let cand := label m in
      let download :=
        match fetch_month o (web (fetch_url o cand)) w with
        | (Err e, w) => (Err e, w)
        | (Ok Installed, w) =>
            let text := cand +:+ String LF "" in
            match record with
            | RecordWorks => (Ok (Updated cand), put (set_version (Some text)) w)
            | RecordNotOpened => (Err (CannotRecord cand), w)
            | RecordCut n =>
                (Err (CannotRecord cand), put (set_version (Some (String.substring 0 n text))) w)
            end
        | (Ok NotPublished, w) => try_months o web record have rest w
        end in
      match have with
      | Some h =>
          if negb (o_force o) && String.leb cand h then (Ok (UpToDate h), w) else download
      | None => download
      end
  end.

Definition update (o : GeoOptions) (web : string -> Download) (record : Recording) (w : GeoWorld)
    : result FetchError GeoOutcome * GeoWorld :=
  try_months o web record (installed (gw_files w)) [o_now o; previous (o_now o)] w.

End Update.

(** ** Facts *)

Lemma copy_to_room (room : option nat) (s : ByteStream) (w : string) :
  copy_to room s = (w, None) -> copy_to None s = (w, None).
Proof.
  revert room w. induction s as [|[b|e] s IH]; intros room w; simpl; [done| |done].
  destruct room as [r|].
  - destruct (r <? String.length b)%nat; [done|].
    destruct (copy_to (Some (r - String.length b)%nat) s) as [w1 [e|]] eqn:E; [done|].
    by rewrite (IH _ _ E).
  - done.
Qed.

Lemma bytes_len_app (s t : string) : bytes_len (s +:+ t) = bytes_len s + bytes_len t.
Proof.
  unfold bytes_len. induction s as [|c s IH]; [done|]. rewrite str_app_cons. simpl. lia.
Qed.

Lemma substring_length (s : string) (n : nat) : bytes_len (String.substring 0 n s) <= bytes_len s.
Proof.
  unfold bytes_len. revert n. induction s as [|c s IH]; intros [|n]; simpl; try lia.
  specialize (IH n). lia.
Qed.

(** No more than the cap reaches the disk, whether or not the copy goes well. *)
Lemma copy_capped (what : string) (left : Z) (room : option nat) (s : ByteStream) (w : string)
    (e : option string) :
  0 <= left -> copy_to room (capped what left s) = (w, e) -> bytes_len w <= left.
Proof.
  revert left room w e. induction s as [|[b|x] s IH]; intros left room w e Hl; simpl.
  { by intros [= <- _]. }
  2: { by intros [= <- _]. }
  destruct (Z.ltb_spec left (bytes_len b)) as [Hb|Hb]; simpl; [by intros [= <- _]|].
  assert (Hrest : forall room' w1 e1,
    copy_to room' (capped what (left - bytes_len b) s) = (w1, e1) -> bytes_len (b +:+ w1) <= left).
  { intros room' w1 e1 E. rewrite bytes_len_app. pose proof (IH (left - bytes_len b) room' w1 e1 ltac:(lia) E). lia. }
  destruct room as [r|].
  - destruct (r <? String.length b)%nat.
    + intros [= <- _]. pose proof (substring_length b r). lia.
    + destruct (copy_to _ _) as [w1 e1] eqn:E. intros [= <- _]. by eapply Hrest.
  - destruct (copy_to _ _) as [w1 e1] eqn:E. intros [= <- _]. by eapply Hrest.
Qed.

Section UpdateFacts.
  Context {mm : MaxMind}.
  Context (gunzip : ByteStream -> ByteStream) (reader_of : string -> option Reader).

(** Contents that may become the database: a whole download some address answered with,
    within the limits, that is a City database. *)
Definition acceptable (o : GeoOptions) (web : string -> Download) (s : string) : Prop :=
  exists month r, at_reply (web (fetch_url o month)) = Some r /\
    200 <= r_status r <= 299 /\
    copy_to None (unpacked gunzip o (r_body r)) = (s, None) /\
    bytes_len s <= o_max_unpacked o /\
    validate_city (reader_of s) (o_min_nodes o) = Ok tt.

(** What a step of the updater may do to the files it goes through, given the database
    they started with. *)
Definition db_ok (o : GeoOptions) (web : string -> Download) (g0 g : GeoFiles) : Prop :=
  g_db g = g_db g0 \/ exists s, g_db g = Some s /\ acceptable o web s.

Definition unchanged (g0 g : GeoFiles) : Prop := g_db g = g_db g0 /\ g_version g = g_version g0.

Lemma drop_tmp_unchanged (a : Download) (g0 : GeoFiles) (w : GeoWorld) :
  unchanged g0 (gw_files w) -> Forall (unchanged g0) (gw_hist w) ->
  unchanged g0 (gw_files (drop_tmp a w)) /\ Forall (unchanged g0) (gw_hist (drop_tmp a w)).
Proof. intros Hu Hh. unfold drop_tmp. destruct (at_unlink a); simpl; auto. Qed.

Lemma failed_fetch (e : FetchError) (a : Download) (g0 : GeoFiles) (w : GeoWorld) :
  unchanged g0 (gw_files w) -> Forall (unchanged g0) (gw_hist w) ->
  (forall m, e <> CannotRecord m) ->
  unchanged g0 (gw_files (drop_tmp a w)) /\ Forall (unchanged g0) (gw_hist (drop_tmp a w)) /\
  forall m, e <> CannotRecord m.
Proof. intros Hu Hh He. destruct (drop_tmp_unchanged a g0 w Hu Hh). auto. Qed.

(** Fetching: the files it goes through have the database and the record they had, but for
    the last step of a success. *)
Lemma fetch_month_cases (o : GeoOptions) (web : string -> Download) (month : string) (g0 : GeoFiles)
    (w w' : GeoWorld) (r : result FetchError Fetched) :
  0 <= o_max_unpacked o -> unchanged g0 (gw_files w) -> Forall (unchanged g0) (gw_hist w) ->
  fetch_month gunzip reader_of o (web (fetch_url o month)) w = (r, w') ->
  match r with
  | Ok Installed => exists s h, acceptable o web s /\ g_db (gw_files w') = Some s /\
      g_version (gw_files w') = g_version g0 /\ gw_hist w' = gw_files w' :: h /\
      Forall (unchanged g0) h
  | Ok NotPublished => unchanged g0 (gw_files w') /\ Forall (unchanged g0) (gw_hist w')
  | Err e => unchanged g0 (gw_files w') /\ Forall (unchanged g0) (gw_hist w') /\
             forall m, e <> CannotRecord m
  end.
Proof.
  intros Hmax Hu Hh. unfold fetch_month. set (a := web (fetch_url o month)).
  destruct (at_client a); [|by intros [= <- <-]]. simpl.
  destruct (at_reply a) as [rep|] eqn:Hrep; [|by intros [= <- <-]].
  destruct (r_status rep =? 404); [by intros [= <- <-]|].
  destruct ((200 <=? r_status rep) && (r_status rep <=? 299)) eqn:Hst; [|by intros [= <- <-]].
  destruct (match r_length rep with Some len => _ | None => _ end); [by intros [= <- <-]|].
  simpl. unfold install.
  destruct (at_create a); simpl; [|intros [= <- <-]; by apply failed_fetch].
  destruct (copy_to (at_room a) (unpacked gunzip o (r_body rep))) as [s e] eqn:Hc.
  set (w1 := put (set_tmp (Some s)) (put (set_tmp (Some "")) w)).
  assert (Hw1 : unchanged g0 (gw_files w1) /\ Forall (unchanged g0) (gw_hist w1)).
  { subst w1. simpl. split; [done|]. by repeat constructor; try apply Hu. }
  destruct Hw1 as [Hu1 Hh1].
  destruct e as [e|]; [intros [= <- <-]; by apply failed_fetch|].
  destruct (at_flush a); simpl; [|intros [= <- <-]; by apply failed_fetch].
  destruct (validate_city (reader_of s) (o_min_nodes o)) as [[]|p] eqn:Hv;
    [|intros [= <- <-]; by apply failed_fetch].
  destruct (at_rename a); simpl; [|intros [= <- <-]; by apply failed_fetch].
  intros [= <- <-]. exists s. eexists. split.
  { exists month, rep. split; [done|]. split; [lia|]. split; [by eapply copy_to_room|].
    split; [|done]. by eapply copy_capped. }
  simpl. split; [done|]. split; [apply Hu|]. split; [done|].
  constructor; [exact Hu1|]. constructor; [exact Hu|done].
Qed.

(** One round of the loop over the months. *)
Lemma try_months_cases (o : GeoOptions) (web : string -> Download) (record : Recording)
    (have : option string) (months : list Month) (g0 : GeoFiles) (w w' : GeoWorld)
    (r : result FetchError GeoOutcome) :
  0 <= o_max_unpacked o -> unchanged g0 (gw_files w) -> Forall (unchanged g0) (gw_hist w) ->
  try_months gunzip reader_of o web record have months w = (r, w') ->
  Forall (db_ok o web g0) (gw_hist w') /\
  match r with
  | Ok (UpToDate h) => have = Some h /\ unchanged g0 (gw_files w')
  | Ok (Updated m) => m ∈ label <$> months /\
      (o_force o = true \/ forall h, have = Some h -> String.leb m h = false) /\
      g_version (gw_files w') = Some (m +:+ String LF "") /\
      exists s, g_db (gw_files w') = Some s /\ acceptable o web s
  | Err (CannotRecord _) =>
      ((forall n, record <> RecordCut n) -> g_version (gw_files w') = g_version g0) /\
      exists s, g_db (gw_files w') = Some s /\ acceptable o web s
  | Err _ => unchanged g0 (gw_files w')
  end.
Proof.
  intros Hmax. revert w. induction months as [|m rest IH]; intros w Hu Hh; simpl.
  all: assert (Hsame : Forall (db_ok o web g0) (gw_hist w))
    by (eapply Forall_impl; [exact Hh|]; intros g [Hg _]; by left).
  { destruct have; intros [= <- <-]; auto. }
  set (download := match fetch_month _ _ _ _ _ with (Err e, w) => _ | _ => _ end).
  assert (Hdown : (o_force o = true \/ forall h, have = Some h -> String.leb (label m) h = false) ->
    download = (r, w') -> Forall (db_ok o web g0) (gw_hist w') /\
    match r with
    | Ok (UpToDate h) => have = Some h /\ unchanged g0 (gw_files w')
    | Ok (Updated m') => m' ∈ label <$> m :: rest /\
        (o_force o = true \/ forall h, have = Some h -> String.leb m' h = false) /\
        g_version (gw_files w') = Some (m' +:+ String LF "") /\
        exists s, g_db (gw_files w') = Some s /\ acceptable o web s
    | Err (CannotRecord _) =>
        ((forall n, record <> RecordCut n) -> g_version (gw_files w') = g_version g0) /\
        exists s, g_db (gw_files w') = Some s /\ acceptable o web s
    | Err _ => unchanged g0 (gw_files w')
    end).
  { intros Hnew. subst download.
    destruct (fetch_month gunzip reader_of o (web (fetch_url o (label m))) w) as [r1 w1] eqn:Hf.
    pose proof (fetch_month_cases o web (label m) g0 w w1 r1 Hmax Hu Hh Hf) as Hc.
    destruct r1 as [[]|e].
    - destruct Hc as (s & h & Hs & Hdb & Hver & Hhist & Hold).
      assert (Hall : Forall (db_ok o web g0) (gw_hist w1)).
      { rewrite Hhist. constructor; [by right; exists s|].
        eapply Forall_impl; [exact Hold|]. intros g [Hg _]. by left. }
      destruct record as [| |n]; intros [= <- <-]; simpl.
      + split; [constructor; [by right; exists s|done]|]. split; [left|]. eauto 10.
      + eauto 10.
      + split; [constructor; [by right; exists s|done]|]. split; [intros Hn; by destruct (Hn n)|]. eauto 10.
    - destruct Hc as [Hu1 Hh1]. intros E. destruct (IH w1 Hu1 Hh1 E) as [H1 H2].
      split; [done|]. destruct r as [[m'|h]|e]; try done.
      destruct H2 as (Hin & H2). split; [by right|done].
    - destruct Hc as (Hu1 & Hh1 & He). intros [= <- <-].
      split; [eapply Forall_impl; [exact Hh1|]; intros g [Hg _]; by left|].
      destruct e; try done. by destruct (He month0). }
  destruct have as [h|]; [|by apply Hdown; right].
  destruct (negb (o_force o) && String.leb (label m) h) eqn:Hcmp.
  { intros [= <- <-]. auto. }
  apply Hdown. destruct (o_force o); [by left|right]. by intros ? [= <-].
Qed.

(** C13: whatever the server sends and whatever operation fails at whatever point, every state
    the files go through has the old database or one that came from a complete download
    within the size limits and passed the check for a City database, never a part of one.
    The updater says it updated only when the new file is in place and recorded; when it
    fails, the old database and its record are as they were, unless the failure is that
    the record of the new one could not be written. *)
Theorem geo_db_never_half_written (o : GeoOptions) (web : string -> Download) (record : Recording)
    (g : GeoFiles) :
  0 <= o_max_unpacked o ->
  let '(r, w') := update gunzip reader_of o web record (mkGeoWorld g []) in
  Forall (db_ok o web g) (gw_hist w') /\
  match r with
  | Ok (UpToDate h) => installed g = Some h /\ unchanged g (gw_files w')
  | Ok (Updated m) => g_version (gw_files w') = Some (m +:+ String LF "") /\
      exists s, g_db (gw_files w') = Some s /\ acceptable o web s
  | Err (CannotRecord _) =>
      ((forall n, record <> RecordCut n) -> g_version (gw_files w') = g_version g) /\
      exists s, g_db (gw_files w') = Some s /\ acceptable o web s
  | Err _ => unchanged g (gw_files w')
  end.
Proof.
  intros Hmax. destruct (update _ _ _ _ _ _) as [r w'] eqn:E.
  destruct (try_months_cases o web record _ _ g (mkGeoWorld g []) w' r Hmax
              (conj eq_refl eq_refl) (Forall_nil_2 _) E) as [H1 H2].
  split; [done|]. destruct r as [[m|h]|e]; [by destruct H2 as (_ & _ & ?)|done|done].
Qed.

End UpdateFacts.

(** ** Months *)

(** The character of a decimal digit. *)
Definition digit (d : Z) : ascii := ascii_of_N (Z.to_N (48 + d)).

Definition digits4 (y : Z) : string :=
  String (digit (y / 1000)) (String (digit (y / 100 mod 10))
    (String (digit (y / 10 mod 10)) (String (digit (y mod 10)) ""))).

Definition digits2 (m : Z) : string := String (digit (m / 10)) (String (digit (m mod 10)) "").

(** A digit, by its ten values. *)
Ltac digit_cases d :=
  let H := fresh in
  assert (H : d = 0 \/ d = 1 \/ d = 2 \/ d = 3 \/ d = 4 \/ d = 5 \/ d = 6 \/ d = 7 \/ d = 8 \/ d = 9)
    by lia;
  destruct_or! H; subst d.

Lemma char_digit (d : Z) : 0 <= d < 10 -> pretty_N_char (Z.to_N d) = digit d.
Proof.
  intros Hd. by digit_cases d.
Qed.

(** Printing a number: its last digit, then the others. *)
Lemma go_step (x : Z) (s : string) : 0 < x ->
  pretty_N_go (Z.to_N x) s = pretty_N_go (Z.to_N (x / 10)) (String (digit (x mod 10)) s).
Proof.
  intros Hx. rewrite pretty_N_go_step by lia.
  rewrite <-(char_digit (x mod 10)) by (apply Z.mod_pos_bound; lia).
  by rewrite Z2N.inj_div, Z2N.inj_mod by lia.
Qed.

Lemma go_end (x : Z) (s : string) : 0 < x < 10 ->
  pretty_N_go (Z.to_N x) s = String (digit x) s.
Proof.
  intros Hx. rewrite go_step, Z.div_small, Z.mod_small by lia. apply pretty_N_go_0.
Qed.

Lemma div_10_10 (x : Z) : x / 10 / 10 = x / 100.
Proof. by rewrite Z.div_div. Qed.

Lemma div_100_10 (x : Z) : x / 100 / 10 = x / 1000.
Proof. by rewrite Z.div_div. Qed.

(** The quotients of a number by a power of ten, as bounds for [lia]. *)
Ltac with_div x n :=
  pose proof (Z.div_mod x n ltac:(lia)); pose proof (Z.mod_pos_bound x n ltac:(lia)).

Lemma pad_year (y : Z) : 0 <= y < 10000 -> pad 4 y = digits4 y.
Proof.
  intros Hy. unfold pad, digits4. destruct (Z.ltb_spec y 0) as [|_]; [lia|].
  with_div y 10. with_div y 100. with_div y 1000.
  assert (y = 0 \/ 0 < y < 10 \/ 10 <= y < 100 \/ 100 <= y < 1000 \/ 1000 <= y < 10000) as Hc by lia.
  destruct_or! Hc.
  - by subst.
  - rewrite show_pos, go_end, !(Z.div_small y), (Z.mod_small y) by lia. done.
  - rewrite show_pos, go_step, go_end, (Z.div_small y 100), (Z.div_small y 1000),
      (Z.mod_small (y / 10)) by lia. done.
  - rewrite show_pos, go_step, go_step, div_10_10, go_end, (Z.div_small y 1000),
      (Z.mod_small (y / 100)) by lia. done.
  - rewrite show_pos, go_step, go_step, div_10_10, go_step, div_100_10, go_end by lia. done.
Qed.

Lemma pad_month (m : Z) : 0 <= m < 100 -> pad 2 m = digits2 m.
Proof.
  intros Hm. unfold pad, digits2. destruct (Z.ltb_spec m 0) as [|_]; [lia|].
  with_div m 10.
  assert (m = 0 \/ 0 < m < 10 \/ 10 <= m < 100) as Hc by lia. destruct_or! Hc.
  - by subst.
  - rewrite show_pos, go_end, (Z.div_small m), (Z.mod_small m) by lia. done.
  - rewrite show_pos, go_step, go_end by lia. done.
Qed.

Definition month_wf (t : Month) : Prop := 0 <= year t < 10000 /\ 1 <= month t <= 12.

(** Months since year 0. *)
Definition month_index (t : Month) : Z := 12 * year t + month t.

Lemma digit_compare (d e : Z) : 0 <= d < 10 -> 0 <= e < 10 ->
  Ascii.compare (digit d) (digit e) = (d ?= e).
Proof.
  intros Hd He. digit_cases d; by digit_cases e.
Qed.

Lemma str_app_nil_l (s : string) : "" +:+ s = s.
Proof. done. Qed.

(** Comparing two strings that begin with digits. *)
Lemma compare_digit (d e : Z) (s t : string) : 0 <= d < 10 -> 0 <= e < 10 ->
  String.compare (String (digit d) s) (String (digit e) t) =
    match d ?= e with Eq => String.compare s t | c => c end.
Proof. intros Hd He. simpl. by rewrite digit_compare. Qed.

(** Comparing two numbers digit by digit, the first digits first. *)
Lemma compare_lex (base d e r r' : Z) : 0 <= r < base -> 0 <= r' < base ->
  (base * d + r ?= base * e + r') = match d ?= e with Eq => r ?= r' | c => c end.
Proof.
  intros Hr Hr'. destruct (Z.compare_spec d e) as [->|H|H].
  - destruct (Z.compare_spec r r') as [->|H|H].
    + apply Z.compare_refl.
    + apply Z.compare_lt_iff. lia.
    + apply Z.compare_gt_iff. lia.
  - apply Z.compare_lt_iff. nia.
  - apply Z.compare_gt_iff. nia.
Qed.

Lemma label_digits (t : Month) : month_wf t ->
  label t = digits4 (year t) +:+ "-" +:+ digits2 (month t).
Proof. intros [Hy Hm]. unfold label. rewrite pad_year, pad_month by lia. done. Qed.

(** A number below 10000 as its digits. *)
Lemma digits_of (y : Z) : 0 <= y < 10000 ->
  y = 1000 * (y / 1000) + (100 * (y / 100 mod 10) + (10 * (y / 10 mod 10) + y mod 10)) /\
  0 <= y / 1000 < 10 /\ 0 <= y / 100 mod 10 < 10 /\ 0 <= y / 10 mod 10 < 10 /\ 0 <= y mod 10 < 10.
Proof.
  intros Hy. split; [|repeat split; try (apply Z.mod_pos_bound; lia);
    [apply Z.div_pos|apply Z.div_lt_upper_bound]; lia].
  pose proof (Z.div_mod y 10 ltac:(lia)) as E1.
  pose proof (Z.div_mod (y / 10) 10 ltac:(lia)) as E2.
  pose proof (Z.div_mod (y / 100) 10 ltac:(lia)) as E3.
  rewrite div_10_10 in E2. rewrite div_100_10 in E3. lia.
Qed.

Lemma compare_label (a b : Month) : month_wf a -> month_wf b ->
  String.compare (label a) (label b) = (100 * year a + month a ?= 100 * year b + month b).
Proof.
  intros Ha Hb. rewrite !label_digits by done. destruct Ha as [Hy Hm], Hb as [Hy' Hm'].
  destruct (digits_of (year a) Hy) as (E & B1 & B2 & B3 & B4).
  destruct (digits_of (year b) Hy') as (E' & B1' & B2' & B3' & B4').
  pose proof (Z.div_mod (month a) 10 ltac:(lia)) as M.
  pose proof (Z.div_mod (month b) 10 ltac:(lia)) as M'.
  pose proof (Z.mod_pos_bound (month a) 10 ltac:(lia)) as C2.
  pose proof (Z.mod_pos_bound (month b) 10 ltac:(lia)) as C2'.
  assert (C1 : 0 <= month a / 10 < 10) by (split; [apply Z.div_pos|apply Z.div_lt_upper_bound]; lia).
  assert (C1' : 0 <= month b / 10 < 10) by (split; [apply Z.div_pos|apply Z.div_lt_upper_bound]; lia).
  unfold digits4, digits2. rewrite !str_app_cons, !str_app_nil_l.
  revert E E' M M' B1 B2 B3 B4 B1' B2' B3' B4' C1 C2 C1' C2'.
  generalize (year a / 1000) (year a / 100 mod 10) (year a / 10 mod 10) (year a mod 10)
    (month a / 10) (month a mod 10).
  generalize (year b / 1000) (year b / 100 mod 10) (year b / 10 mod 10) (year b mod 10)
    (month b / 10) (month b mod 10).
  intros e1 e2 e3 e4 e5 e6 d1 d2 d3 d4 d5 d6 -> -> -> -> ? ? ? ? ? ? ? ? ? ? ? ?.
  rewrite !(compare_digit d1), !(compare_digit d2), !(compare_digit d3), !(compare_digit d4) by lia.
  change (String.compare (String "-" ?s) (String "-" ?t)) with (String.compare s t).
  rewrite !(compare_digit d5), !(compare_digit d6) by lia.
  replace (100 * (1000 * d1 + (100 * d2 + (10 * d3 + d4))) + (10 * d5 + d6))
    with (100000 * d1 + (10000 * d2 + (1000 * d3 + (100 * d4 + (10 * d5 + d6))))) by lia.
  replace (100 * (1000 * e1 + (100 * e2 + (10 * e3 + e4))) + (10 * e5 + e6))
    with (100000 * e1 + (10000 * e2 + (1000 * e3 + (100 * e4 + (10 * e5 + e6))))) by lia.
  rewrite !compare_lex by lia. by destruct (d6 ?= e6).
Qed.

Lemma label_is_label (t : Month) : month_wf t -> is_label (label t) = true.
Proof.
  intros Ht. rewrite label_digits by done. destruct Ht as [Hy Hm].
  assert (Hd : forall d, 0 <= d < 10 -> is_ascii_digit (digit d) = true).
  { intros d Hd. by digit_cases d. }
  destruct (digits_of (year t) Hy) as (_ & B1 & B2 & B3 & B4).
  pose proof (Z.mod_pos_bound (month t) 10 ltac:(lia)) as C2.
  assert (C1 : 0 <= month t / 10 < 10) by (split; [apply Z.div_pos|apply Z.div_lt_upper_bound]; lia).
  unfold is_label, digits4, digits2.
  rewrite !str_app_cons, !str_app_nil_l.
  cbn [String.length String.get String.substring].
  rewrite !str_forall_cons, !Hd by done. done.
Qed.

Lemma leb_label (a b : Month) : month_wf a -> month_wf b ->
  String.leb (label a) (label b) = true <-> month_index a <= month_index b.
Proof.
  intros Ha Hb. unfold String.leb. rewrite (compare_label a b Ha Hb).
  destruct Ha as [Hy Hm], Hb as [Hy' Hm']. unfold month_index.
  destruct (Z.compare_spec (100 * year a + month a) (100 * year b + month b)); split; try done; lia.
Qed.

Lemma previous_index (a : Month) : month_wf a -> month_index (previous a) = month_index a - 1.
Proof.
  intros Ha. unfold previous, month_index. destruct (Z.leb_spec (month a) 1); simpl; destruct Ha; lia.
Qed.

(** C38: the months the updater compares as texts are in the order of time: for any two months
    of the years 0 to 9999 one label is not after the other exactly when the month is not
    later, a label is recognised as one when it is read back, and the month before is the
    month before. *)
Theorem label_order_is_chronological (a b : Month) :
  month_wf a -> month_wf b ->
  (String.leb (label a) (label b) = true <-> month_index a <= month_index b) /\
  is_label (label a) = true /\
  month_index (previous a) = month_index a - 1.
Proof.
  intros Ha Hb. split_and!; [by apply leb_label|by apply label_is_label|by apply previous_index].
Qed.

(** ** One run after the other *)

(** A check: its date, what answers, and what comes of writing the record. *)
Record GeoRun := mkGeoRun { run_now : Month; run_web : string -> Download; run_record : Recording }.

Section RunsFacts.
  Context {mm : MaxMind}.
  Context (gunzip : ByteStream -> ByteStream) (reader_of : string -> option Reader).

(** Checks one after the other on the same files, none of them forced, with the defaults. *)
Fixpoint geo_runs (base_url : string) (runs : list GeoRun) (g : GeoFiles)
    : list (result FetchError GeoOutcome) :=
  match runs with
  | [] => []
  | x :: rest =>
      let '(r, w) := update gunzip reader_of (options_new base_url (run_now x)) (run_web x)
                       (run_record x) (mkGeoWorld g []) in
      r :: geo_runs base_url rest (gw_files w)
  end.

(** The months the updater says it installed. *)
Fixpoint updated_months (rs : list (result FetchError GeoOutcome)) : list string :=
  match rs with
  | [] => []
  | Ok (Updated m) :: rs => m :: updated_months rs
  | _ :: rs => updated_months rs
  end.

(** A date of our era, and a record that is written whole or not at all. *)
Definition run_ok (x : GeoRun) : Prop :=
  1 <= year (run_now x) < 10000 /\ 1 <= month (run_now x) <= 12 /\
  forall n, run_record x <> RecordCut n.

Lemma digit_black (d : Z) : 0 <= d < 10 -> is_ws (digit d) = false.
Proof. intros Hd. by digit_cases d. Qed.

(** A line without blanks, read back with [trim]. *)
Lemma trim_line (s : string) : str_forall (fun c => negb (is_ws c)) s = true -> s <> "" ->
  trim (s +:+ String LF "") = s.
Proof.
  intros Hs Hne. unfold trim.
  assert (trim_start (s +:+ String LF "") = s +:+ String LF "") as ->.
  { destruct s as [|c s]; [done|]. rewrite str_forall_cons in Hs. rewrite str_app_cons. cbn [trim_start].
    by destruct (is_ws c). }
  clear Hne. induction s as [|c s IH]; [done|]. rewrite str_forall_cons in Hs.
  apply andb_prop in Hs as [Hc Hs]. rewrite str_app_cons. cbn [trim_end]. rewrite (IH Hs).
  by destruct (is_ws c), s.
Qed.

(** The record of an installed file is read back as it was written. *)
Lemma installed_recorded (t : Month) (g : GeoFiles) (s : string) : month_wf t ->
  g_db g = Some s -> g_version g = Some (label t +:+ String LF "") -> installed g = Some (label t).
Proof.
  intros Ht Hdb Hv. unfold installed. rewrite Hdb, Hv. simpl.
  assert (trim (label t +:+ String LF "") = label t) as ->; [|by rewrite label_is_label].
  rewrite label_digits by done. destruct Ht as [Hy Hm].
  destruct (digits_of (year t) Hy) as (_ & B1 & B2 & B3 & B4).
  pose proof (Z.mod_pos_bound (month t) 10 ltac:(lia)) as C2.
  assert (C1 : 0 <= month t / 10 < 10) by (split; [apply Z.div_pos|apply Z.div_lt_upper_bound]; lia).
  apply trim_line; [|done].
  unfold digits4, digits2. rewrite !str_app_cons, !str_app_nil_l, !str_forall_cons.
  rewrite !digit_black by done. done.
Qed.

Lemma run_ok_months (x : GeoRun) : run_ok x ->
  month_wf (run_now x) /\ month_wf (previous (run_now x)).
Proof.
  intros (Hy & Hm & _). unfold month_wf, previous.
  destruct (Z.leb_spec (month (run_now x)) 1); simpl; lia.
Qed.

(** A run that follows the installation of the month [floor]: it installs a later month or
    leaves [floor] installed. *)
Lemma run_step (base_url : string) (x : GeoRun) (g : GeoFiles) (floor : option Month) :
  run_ok x ->
  (forall f, floor = Some f -> month_wf f /\ installed g = Some (label f)) ->
  let '(r, w) := update gunzip reader_of (options_new base_url (run_now x)) (run_web x)
                   (run_record x) (mkGeoWorld g []) in
  match r with
  | Ok (Updated m) => exists t, m = label t /\ month_wf t /\
      month_index (run_now x) - 1 <= month_index t <= month_index (run_now x) /\
      (forall f, floor = Some f -> month_index f < month_index t) /\
      installed (gw_files w) = Some (label t)
  | _ => forall f, floor = Some f -> installed (gw_files w) = Some (label f)
  end.
Proof.
  intros Hx Hf. destruct (run_ok_months x Hx) as [Hnow Hprev].
  destruct (update _ _ _ _ _ _) as [r w'] eqn:E.
  destruct (try_months_cases gunzip reader_of (options_new base_url (run_now x)) (run_web x)
    (run_record x) _ _ g (mkGeoWorld g []) w' r
    ltac:(by vm_compute) (conj eq_refl eq_refl)
    (Forall_nil_2 _) E) as [_ H]. clear E.
  assert (Hkeep : unchanged g (gw_files w') -> forall f, floor = Some f ->
    installed (gw_files w') = Some (label f)).
  { intros [Hdb Hv] f Ef. destruct (Hf f Ef) as [_ <-]. unfold installed. by rewrite Hdb, Hv. }
  destruct r as [[m|h]|e].
  - destruct H as (Hin & [H|Hnew] & Hv & s & Hdb & _); [done|].
    cbn in Hin, Hnew. assert (exists t, m = label t /\ month_wf t /\
      month_index (run_now x) - 1 <= month_index t <= month_index (run_now x)) as (t & -> & Ht & Hi).
    { apply elem_of_cons in Hin as [->|Hin]; [exists (run_now x); split_and!; [done..|lia|lia]|].
      apply list_elem_of_singleton in Hin as ->. exists (previous (run_now x)). split_and!; [done..| |].
      all: rewrite previous_index by done; lia. }
    exists t. split_and!; [done..|lia|lia| |by eapply installed_recorded].
    intros f Ef. destruct (Hf f Ef) as [Hwf Hg]. specialize (Hnew _ Hg).
    destruct (Z.le_gt_cases (month_index t) (month_index f)) as [Hle|]; [|lia].
    apply (leb_label t f Ht Hwf) in Hle. congruence.
  - by apply Hkeep, H.
  - destruct e; try by apply Hkeep.
    destruct H as [Hrec (s & Hdb & _)]. destruct Hx as (_ & _ & Hcut).
    specialize (Hrec Hcut). intros f Ef. destruct (Hf f Ef) as [Hwf Hg].
    revert Hg. unfold installed. rewrite Hdb, Hrec. by destruct (g_db g).
Qed.

Lemma runs_above (base_url : string) (runs : list GeoRun) (floor : option Month) (g : GeoFiles) :
  Forall run_ok runs ->
  (forall f, floor = Some f -> month_wf f /\ installed g = Some (label f)) ->
  exists ms : list Month,
    updated_months (geo_runs base_url runs g) = label <$> ms /\
    StronglySorted (fun a b => month_index a < month_index b) ms /\
    Forall (fun t => forall f, floor = Some f -> month_index f < month_index t) ms /\
    Forall (fun t => month_wf t /\
      exists x, x ∈ runs /\ month_index (run_now x) - 1 <= month_index t <= month_index (run_now x)) ms.
Proof.
  intros Hruns. revert floor g.
  induction Hruns as [|x runs Hx _ IH]; intros floor g Hf; [exists []; repeat constructor|].
  pose proof (run_step base_url x g floor Hx Hf) as Hstep. simpl.
  destruct (update _ _ _ _ _ _) as [r w].
  assert (Hlater : forall t, (month_wf t /\ exists y, y ∈ runs /\
      month_index (run_now y) - 1 <= month_index t <= month_index (run_now y)) ->
    month_wf t /\ exists y, y ∈ x :: runs /\
      month_index (run_now y) - 1 <= month_index t <= month_index (run_now y)).
  { intros t (? & y & ? & ?). split; [done|]. exists y. split; [by right|done]. }
  assert (Hskip : (forall f, floor = Some f -> installed (gw_files w) = Some (label f)) ->
    exists ms : list Month,
      updated_months (geo_runs base_url runs (gw_files w)) = label <$> ms /\
      StronglySorted (fun a b => month_index a < month_index b) ms /\
      Forall (fun t => forall f, floor = Some f -> month_index f < month_index t) ms /\
      Forall (fun t => month_wf t /\ exists y, y ∈ x :: runs /\
        month_index (run_now y) - 1 <= month_index t <= month_index (run_now y)) ms).
  { intros Hkeep. destruct (IH floor (gw_files w)) as (ms & E & Hs & Ha & Hw).
    { intros f Ef. split; [by apply Hf|by apply Hkeep]. }
    exists ms. split_and!; [done..|]. eapply Forall_impl; [exact Hw|done]. }
  destruct r as [[m|h]|e]; [|by apply Hskip..].
  destruct Hstep as (t & -> & Ht & Hi & Hgt & Hg).
  destruct (IH (Some t) (gw_files w)) as (ms & E & Hs & Ha & Hw); [by intros ? [= <-]|].
  exists (t :: ms). cbn [updated_months]. rewrite E. split; [done|].
  split; [constructor; [done|]; eapply Forall_impl; [exact Ha|]; intros a H; by apply H|].
  split; constructor; [done| | |eapply Forall_impl; [exact Hw|done]].
  - eapply Forall_impl; [exact Ha|]. intros a H f Ef. specialize (H t eq_refl). specialize (Hgt f Ef). lia.
  - split; [done|]. exists x. split; [by left|done].
Qed.

(** Over any number of checks, each on a date of its own and against a server and a disk
    of its own, the months the updater installs are strictly increasing: it never installs
    a month twice or goes back, even when the clock does, and none before the month of the
    check or the one before that is installed.  A record that could not be written does not
    change this; the only condition is that none was cut short by the disk. *)
Theorem geo_months_increase (base_url : string) (runs : list GeoRun) (g : GeoFiles) :
  Forall run_ok runs ->
  exists ms : list Month,
    updated_months (geo_runs base_url runs g) = label <$> ms /\
    StronglySorted (fun a b => month_index a < month_index b) ms /\
    Forall (fun t => month_wf t /\
      exists x, x ∈ runs /\ month_index (run_now x) - 1 <= month_index t <= month_index (run_now x)) ms.
Proof.
  intros Hruns. destruct (runs_above base_url runs None g Hruns ltac:(done)) as (ms & ? & ? & _ & ?).
  by exists ms.
Qed.

End RunsFacts.

(** ** Examples *)

#[local] Existing Instance example_maxmind.

(** A decompressor that does nothing, and a reader that opens any file that is not empty. *)
Definition example_reader_of (s : string) : option Reader :=
  if str_is_empty s then None else Some example_reader.

(** A server that has one month, and a disk on which everything works. *)
Definition example_attempt (r : Reply) : Download := mkDownload true (Some r) true None true true true.

Definition example_web (published : list string) (url : string) : Download :=
  example_attempt
    (if existsb (fun m => contains_str m url) published
     then mkReply 200 None [Ok "mm"; Ok "db"] else mkReply 404 None []).

Definition example_geo_options (now : Month) : GeoOptions :=
  mkGeoOptions "https://example.com/free/" now false 100 100 0.

(** Last month's database is installed, and this month's is fetched. *)
Definition example_geo_files : GeoFiles :=
  mkGeoFiles (Some "old") (Some ("2026-02" +:+ String LF "")) None.

Lemma geo_db_never_half_written_witness :
  let o := example_geo_options (mkMonth 2026 3) in
  let '(r, w) := update id example_reader_of o (example_web ["2026-03"]) RecordWorks
                   (mkGeoWorld example_geo_files []) in
  r = Ok (Updated "2026-03") /\ g_db (gw_files w) = Some "mmdb" /\
  Forall (db_ok id example_reader_of o (example_web ["2026-03"]) example_geo_files) (gw_hist w).
Proof.
  pose proof (geo_db_never_half_written id example_reader_of (example_geo_options (mkMonth 2026 3))
    (example_web ["2026-03"]) RecordWorks example_geo_files ltac:(by vm_compute)) as H.
  revert H. cbv zeta. destruct (update _ _ _ _ _ _) as [r w] eqn:E. intros [H _].
  revert E. vm_compute. intros [= <- <-]. split; [reflexivity|]. split; [reflexivity|]. exact H.
Defined.

Lemma label_order_is_chronological_witness :
  label (mkMonth 2025 12) = "2025-12" /\ String.leb "2026-10" "2026-09" = false /\
  month_index (previous (mkMonth 2026 1)) = month_index (mkMonth 2025 12).
Proof.
  destruct (label_order_is_chronological (mkMonth 2026 1) (mkMonth 2025 12)) as (_ & _ & H);
    [split; simpl; lia..|].
  split; [reflexivity|]. split; [reflexivity|]. rewrite H. reflexivity.
Defined.

(** Four checks: the month before is all there is; the new month comes out and is installed,
    but cannot be recorded; it is installed again, and recorded; the clock goes back. *)
Definition example_runs : list GeoRun :=
  [mkGeoRun (mkMonth 2026 3) (example_web ["2026-02"]) RecordWorks;
   mkGeoRun (mkMonth 2026 3) (example_web ["2026-02"; "2026-03"]) RecordNotOpened;
   mkGeoRun (mkMonth 2026 3) (example_web ["2026-02"; "2026-03"]) RecordWorks;
   mkGeoRun (mkMonth 2026 2) (example_web ["2026-02"; "2026-03"]) RecordWorks].

Lemma geo_months_increase_witness :
  exists ms : list Month,
    ms <> [] /\
    updated_months (geo_runs id example_reader_of "https://example.com" example_runs
      (mkGeoFiles None None None)) = label <$> ms /\
    StronglySorted (fun a b => month_index a < month_index b) ms.
Proof.
  destruct (geo_months_increase id example_reader_of "https://example.com" example_runs
    (mkGeoFiles None None None)) as (ms & H & Hs & _).
  { repeat constructor; simpl; try lia; done. }
  exists ms. split; [|split; [exact H|exact Hs]].
  intros ->. revert H. vm_compute. discriminate.
Defined.
