(* ===== verification/RateLimit.v ===== *)
(** * Burst counters

    The rendezvous server limits registrations with pairs of a count and the instant
    of the last accepted event: [IP_BLOCKER]'s first component (per address) and
    [Peer::reg_pk] (per id) in [src/src/rendezvous_server.rs].  Both forget the count
    after a quiet time and refuse once it exceeds a limit.  This file holds the shared
    step and what it promises to both clients: how many events a time window can let
    through, and that a quiet time always lets one through. *)

From S2P Require Import Prelude.

Local Open Scope Z_scope.

Abbreviation Counter := (Z * Instant)%type.

(** An event at [now]: the count restarts after more than [dur] seconds of quiet, is
    refused above [limit], and is counted otherwise. *)
Definition bump (dur limit : Z) (now : Instant) (c : Counter) : option Counter :=
  if dur <? elapsed_secs now c.2 then Some (1, now)
  else if limit <? c.1 then None
  else Some (c.1 + 1, now).

(** What happens to a counter over a sequence of events: a refused event leaves it. *)
Fixpoint admitted (dur limit : Z) (events : list Instant) (c : Counter) : nat :=
  match events with
  | [] => 0
  | now :: events =>
      match bump dur limit now c with
      | Some c' => S (admitted dur limit events c')
      | None => admitted dur limit events c
      end
  end.

Section RateFacts.
  Context (dur limit : Z) (limit_nonneg : 0 <= limit).

Lemma bump_bounded now c c' :
  0 <= c.1 <= limit + 1 -> bump dur limit now c = Some c' -> 1 <= c'.1 <= limit + 1.
Proof.
  unfold bump. intros Hc. destruct (_ <? _); [intros [= <-]; simpl; lia|].
  destruct (limit <? c.1) eqn:E; [done|]. apply Z.ltb_ge in E. intros [= <-]. simpl. lia.
Qed.

Lemma bump_time now c c' : bump dur limit now c = Some c' -> c'.2 = now.
Proof. unfold bump. destruct (_ <? _); [by intros [= <-]|]. by destruct (_ <? _); [|intros [= <-]]. Qed.

(** A quiet time lets an event through whatever the count. *)
Lemma bump_after_quiet now c :
  dur < elapsed_secs now c.2 -> bump dur limit now c = Some (1, now).
Proof. intros H. unfold bump. by rewrite (proj2 (Z.ltb_lt _ _) H). Qed.

(** Within a window that holds no quiet time, the count only grows. *)
Lemma admitted_recent events c :
  Forall (fun t => elapsed_secs t c.2 <= dur) events ->
  (forall t t', t ∈ events -> t' ∈ events -> elapsed_secs t' t <= dur) ->
  0 <= c.1 <= limit + 1 ->
  Z.of_nat (admitted dur limit events c) <= limit + 1 - c.1.
Proof.
  revert c. induction events as [|now events IH]; intros c Hc Hw Hb; [simpl; lia|].
  apply Forall_cons in Hc as [Hnow Hc]. cbn [admitted]. unfold bump.
  rewrite (proj2 (Z.ltb_ge _ _) Hnow).
  destruct (limit <? c.1) eqn:E; [|apply Z.ltb_ge in E].
  - apply IH; [done| |done]. intros; apply Hw; by right.
  - assert (Z.of_nat (admitted dur limit events (c.1 + 1, now)) <= limit + 1 - (c.1 + 1)).
    { apply IH; [| |simpl; lia].
      - apply Forall_forall. intros t Ht. apply Hw; [left|by right].
      - intros; apply Hw; by right. }
    lia.
Qed.

(** No window shorter than the quiet time lets more than [limit + 1] events through. *)
Lemma admitted_window events c :
  (forall t t', t ∈ events -> t' ∈ events -> elapsed_secs t' t <= dur) ->
  0 <= c.1 <= limit + 1 -> Z.of_nat (admitted dur limit events c) <= limit + 1.
Proof.
  revert c. induction events as [|now events IH]; intros c Hw Hb; [simpl; lia|].
  assert (Hw' : forall t t', t ∈ events -> t' ∈ events -> elapsed_secs t' t <= dur).
  { intros; apply Hw; by right. }
  cbn [admitted]. destruct (bump dur limit now c) as [c'|] eqn:E; [|by apply IH].
  pose proof (bump_bounded _ _ _ Hb E) as Hb'. pose proof (bump_time _ _ _ E) as Ht.
  assert (Z.of_nat (admitted dur limit events c') <= limit + 1 - c'.1); [|lia].
  apply admitted_recent; [|done|lia].
  apply Forall_forall. intros t Hin. rewrite Ht. apply Hw; [left|by right].
Qed.

End RateFacts.
