(* ===== verification/Guards.v ===== *)
(** * Abuse guards of the rendezvous server

    The process-wide tables of [src/src/peer.rs] and [src/src/rendezvous_server.rs]
    that bound what one address or one id can do: [IP_BLOCKER] with
    [check_ip_blocker], [IP_CHANGES] with its update in [handle_register_pk], and the
    log of punch-hole requests [PUNCH_REQS] with [record_punch_req].  Each table is
    behind one mutex held for the whole operation, so an operation is a function from
    the table to the table; all its readings of the clock are one instant [now]. *)

From S2P Require Import Prelude RustStr RateLimit.

Local Open Scope Z_scope.

Definition IP_CHANGE_DUR : Z := 180.
Definition IP_CHANGE_DUR_X2 : Z := IP_CHANGE_DUR * 2.
Definition DAY_SECONDS : Z := 3600 * 24.
Definition IP_BLOCK_DUR : Z := 60.
Definition MAX_PEER_ID_LEN : nat := 253.
Definition PUNCH_REQ_DEDUPE_SEC : Z := 60.

(** ** Registrations per address *)

(** The burst counter, and the ids seen with the instant one was last accepted. *)
Abbreviation IpBlockMap := (gmap string (Counter * (gset string * Instant))).

Definition check_ip_blocker (now : Instant) (ip id : string) (lock : IpBlockMap)
    : bool * IpBlockMap :=
  match lock !! ip with
  | Some (counter, (ids, last)) =>
      match bump IP_BLOCK_DUR 30 now counter with
      | None => (false, lock)
      | Some counter =>
          let is_new := bool_decide (id ∉ ids) in
          if DAY_SECONDS <? elapsed_secs now last then
            (true, <[ip := (counter, (if is_new then {[id]} else ∅, now))]> lock)
          else if (300 <? size ids)%nat then
            (negb is_new, <[ip := (counter, (ids, last))]> lock)
          else
            (true, <[ip := (counter, (if is_new then {[id]} ∪ ids else ids, now))]> lock)
      end
  | None => (true, <[ip := ((0, now), (∅, now))]> lock)
  end.

(** The console drops the entries that can no longer refuse anything. *)
Definition retain_ip_blocker (now : Instant) (lock : IpBlockMap) : IpBlockMap :=
  filter (fun e : string * (Counter * (gset string * Instant)) =>
    elapsed_secs now e.2.1.2 <= IP_BLOCK_DUR \/ elapsed_secs now e.2.2.2 <= DAY_SECONDS) lock.

(** ** Address changes per id *)

Abbreviation IpChangesMap := (gmap string (Instant * gmap string Z)).

(** [i32] addition wraps in a release build. *)
Definition wrap_i32 (z : Z) : Z := (z + 2 ^ 31) mod 2 ^ 32 - 2 ^ 31.

Definition record_ip_change (now : Instant) (id ip : string) (lock : IpChangesMap)
    : IpChangesMap :=
  match lock !! id with
  | Some (tm, ips) =>
      if IP_CHANGE_DUR <? elapsed_secs now tm then <[id := (now, {[ip := 1]})]> lock
      else match ips !! ip with
           | Some v => <[id := (tm, <[ip := wrap_i32 (v + 1)]> ips)]> lock
           | None => <[id := (tm, <[ip := 1]> ips)]> lock
           end
  | None => <[id := (now, {[ip := 1]})]> lock
  end.

Definition retain_ip_changes (now : Instant) (lock : IpChangesMap) : IpChangesMap :=
  filter (fun e : string * (Instant * gmap string Z) =>
    elapsed_secs now e.2.1 < IP_CHANGE_DUR_X2 /\ (1 < size e.2.2)%nat) lock.

(** ** Punch-hole requests *)

Record PunchReqEntry := mkPunchReq {
  tm : Instant;
  from_ip : string;
  to_ip : string;
  to_id : string;
}.

(** The request is from the same address for the same peer. *)
Definition same_request (f t : string) (e : PunchReqEntry) : bool :=
  bool_decide (from_ip e = f) && bool_decide (to_id e = t).

(** [record_punch_req]; [max] is [PUNCH_REQ_MAX].  Only the most recent entry for the
    same request, among the last thirty, can make it a duplicate. *)
Definition record_punch_req (max : nat) (now : Instant) (f t_ip t_id : string)
    (lock : list PunchReqEntry) : list PunchReqEntry :=
  match max with
  | O => lock
  | _ =>
      let dup :=
        match List.find (same_request f t_id) (take 30 (reverse lock)) with
        | Some e => elapsed_secs now (tm e) <? PUNCH_REQ_DEDUPE_SEC
        | None => false
        end in
      if dup then lock
      else (if (max <=? length lock)%nat then tail lock else lock)
             ++ [mkPunchReq now f t_ip t_id]
  end.

(** ** Facts *)

(** *** The address blocker *)

Definition ip_block_wf (e : Counter * (gset string * Instant)) : Prop :=
  0 <= e.1.1 <= 31 /\ (size e.2.1 <= 301)%nat.

Definition blocker_wf (lock : IpBlockMap) : Prop := map_Forall (fun _ e => ip_block_wf e) lock.

Lemma blocker_wf_insert lock ip e :
  blocker_wf lock -> ip_block_wf e -> blocker_wf (<[ip := e]> lock).
Proof. intros. by apply map_Forall_insert_2. Qed.

Lemma check_ip_blocker_wf now ip id lock :
  blocker_wf lock -> blocker_wf (check_ip_blocker now ip id lock).2.
Proof.
  intros Hwf. unfold check_ip_blocker. destruct (lock !! ip) as [[c [ids last]]|] eqn:E.
  - destruct (Hwf ip _ E) as [Hc Hids]. simpl in Hc, Hids.
    destruct (bump IP_BLOCK_DUR 30 now c) as [c'|] eqn:Eb; [|done].
    apply bump_bounded in Eb; [|done|simpl; lia].
    destruct (_ <? _) eqn:E1; cbn [snd].
    { apply blocker_wf_insert; [done|]. split; cbn [fst snd]; [lia|].
      case_bool_decide; [rewrite size_singleton|rewrite size_empty]; lia. }
    destruct (300 <? size ids)%nat eqn:E2; simpl.
    { apply blocker_wf_insert; [done|]. split; simpl; lia. }
    apply Nat.ltb_ge in E2. apply blocker_wf_insert; [done|]. split; simpl; [lia|].
    case_bool_decide as Hin; [|lia].
    rewrite size_union by (apply disjoint_singleton_l; exact Hin). rewrite size_singleton. lia.
  - apply blocker_wf_insert; [done|]. split; cbn [fst snd]; [lia|]. rewrite size_empty. lia.
Qed.

(** An accepted call on a known address is an accepted event of its counter. *)
Lemma check_ip_blocker_counter now ip id lock c x :
  lock !! ip = Some (c, x) ->
  match bump IP_BLOCK_DUR 30 now c with
  | Some c' => exists x', (check_ip_blocker now ip id lock).2 !! ip = Some (c', x')
  | None => check_ip_blocker now ip id lock = (false, lock)
  end.
Proof.
  destruct x as [ids last]. intros E. unfold check_ip_blocker. rewrite E.
  destruct (bump IP_BLOCK_DUR 30 now c) as [c'|]; [|done].
  repeat case_match; simpl; rewrite lookup_insert_eq; eauto.
Qed.

Lemma check_ip_blocker_other now ip ip' id lock :
  ip <> ip' -> (check_ip_blocker now ip' id lock).2 !! ip = lock !! ip.
Proof.
  intros Hne. unfold check_ip_blocker. repeat case_match; simpl; rewrite ?lookup_insert_ne; done.
Qed.

(** A registration attempt: when, from which address, for which id. *)
Record Attempt := mkAttempt { at_time : Instant; at_ip : string; at_id : string }.

(** How many attempts from [ip] get past the blocker. *)
Fixpoint accepted_from (ip : string) (l : list Attempt) (lock : IpBlockMap) : nat :=
  match l with
  | [] => 0
  | a :: l =>
      let '(ok, lock') := check_ip_blocker (at_time a) (at_ip a) (at_id a) lock in
      (if ok && bool_decide (at_ip a = ip) then 1 else 0) + accepted_from ip l lock'
  end.

Definition times_of (ip : string) (l : list Attempt) : list Instant :=
  at_time <$> filter (fun a => at_ip a = ip) l.

(** Once the address is known, accepted attempts are admitted events. *)
Lemma accepted_from_admitted ip l lock c x :
  lock !! ip = Some (c, x) ->
  (accepted_from ip l lock <= admitted IP_BLOCK_DUR 30 (times_of ip l) c)%nat.
Proof.
  revert lock c x. induction l as [|[now ip' id] l IH]; intros lock c x Hl; [simpl; lia|].
  cbn [accepted_from at_time at_ip at_id]. unfold times_of in *. rewrite filter_cons. simpl.
  destruct (decide (ip' = ip)) as [->|Hne].
  - cbn [fmap list_fmap admitted at_time].
    pose proof (check_ip_blocker_counter now ip id lock c x Hl) as Hb.
    destruct (bump IP_BLOCK_DUR 30 now c) as [c'|].
    + destruct Hb as [x' Hb]. destruct (check_ip_blocker now ip id lock) as [ok lock'].
      specialize (IH lock' c' x' Hb). case_match; lia.
    + rewrite Hb. simpl. eauto.
  - pose proof (check_ip_blocker_other now ip ip' id lock) as Ho.
    destruct (check_ip_blocker now ip' id lock) as [ok lock'].
    rewrite bool_decide_eq_false_2, andb_false_r by done. simpl.
    apply (IH _ _ x). rewrite <- Hl. by apply Ho.
Qed.

(** *** The request log *)

Definition spaced (l : list PunchReqEntry) : Prop :=
  forall i j e f, l !! i = Some e -> l !! j = Some f -> (i < j <= i + 30)%nat ->
    from_ip e = from_ip f -> to_id e = to_id f -> PUNCH_REQ_DEDUPE_SEC <= elapsed_secs (tm f) (tm e).

Definition log_wf (max : nat) (now : Instant) (l : list PunchReqEntry) : Prop :=
  (length l <= max)%nat /\ spaced l /\
  (forall i j e f, l !! i = Some e -> l !! j = Some f -> (i <= j)%nat -> tm e <= tm f) /\
  Forall (fun e => tm e <= now) l.

Lemma elapsed_secs_mono now t t' : t' <= t -> elapsed_secs now t <= elapsed_secs now t'.
Proof. intros. unfold_time. apply Z.div_le_mono; lia. Qed.

Lemma tail_lookup {A} (l : list A) i : tail l !! i = l !! S i.
Proof. by destruct l. Qed.

Lemma log_wf_later max now now' l : now <= now' -> log_wf max now l -> log_wf max now' l.
Proof.
  intros Hn (H1 & H2 & H3 & H4). do 3 (split; [done|]). eapply Forall_impl; [exact H4|]. simpl. lia.
Qed.

(** The most recent of the last thirty matching entries. *)
Lemma find_recent f t l i e :
  l !! i = Some e -> (length l <= i + 30)%nat -> same_request f t e = true ->
  exists j e', List.find (same_request f t) (take 30 (reverse l)) = Some e' /\
    l !! j = Some e' /\ (i <= j)%nat.
Proof.
  intros Hi Hlen Hs.
  pose proof (lookup_lt_Some _ _ _ Hi) as Hlt.
  assert (Hr : take 30 (reverse l) !! (length l - S i)%nat = Some e).
  { rewrite lookup_take_lt by lia. rewrite reverse_lookup by lia.
    by replace (length l - S (length l - S i))%nat with i by lia. }
  destruct (find_stops_before _ _ _ _ Hr Hs) as (j & e' & Hf & He' & Hj).
  apply lookup_take_Some in He' as [He' Hj30].
  assert (j < length l)%nat by lia.
  rewrite reverse_lookup in He' by done.
  exists (length l - S j)%nat, e'. split; [done|]. split; [done|]. lia.
Qed.

(** Appending an entry that is no duplicate keeps the spacing. *)
Lemma spaced_snoc l e :
  spaced l ->
  (forall i x, l !! i = Some x -> (length l <= i + 30)%nat -> from_ip x = from_ip e ->
     to_id x = to_id e -> PUNCH_REQ_DEDUPE_SEC <= elapsed_secs (tm e) (tm x)) ->
  spaced (l ++ [e]).
Proof.
  intros Hs He i j x y Hx Hy Hij Hf Ht.
  apply lookup_app_Some in Hy as [Hy|[Hj Hy]].
  - assert (i < length l)%nat by (apply lookup_lt_Some in Hy; lia).
    rewrite lookup_app_l in Hx by done. by eapply (Hs i j).
  - apply list_lookup_singleton_Some in Hy as [Hy <-].
    assert (i < length l)%nat by lia. rewrite lookup_app_l in Hx by done.
    apply (He i x); [done|lia|done|done].
Qed.

Lemma log_wf_tail max now l : log_wf max now l -> log_wf (max - 1) now (tail l).
Proof.
  intros (H1 & H2 & H3 & H4). split; [destruct l; simpl in *; lia|]. split.
  { intros i j e f He Hf Hij. rewrite tail_lookup in He, Hf. apply (H2 _ _ _ _ He Hf). lia. }
  split.
  { intros i j e f He Hf Hij. rewrite tail_lookup in He, Hf. apply (H3 _ _ _ _ He Hf). lia. }
  destruct l; [done|]. by apply Forall_cons in H4 as [_ H4].
Qed.

Lemma log_wf_snoc max now l e :
  log_wf max now l -> tm e = now ->
  (forall i x, l !! i = Some x -> (length l <= i + 30)%nat -> from_ip x = from_ip e ->
     to_id x = to_id e -> PUNCH_REQ_DEDUPE_SEC <= elapsed_secs (tm e) (tm x)) ->
  log_wf (S max) now (l ++ [e]).
Proof.
  intros (H1 & H2 & H3 & H4) Ht Hd. split; [rewrite length_app; simpl; lia|].
  split; [by apply spaced_snoc|]. rewrite Forall_forall in H4. split.
  - intros i j x y Hx Hy Hij. apply lookup_app_Some in Hy as [Hy|[Hj Hy]].
    + assert (i < length l)%nat by (apply lookup_lt_Some in Hy; lia).
      rewrite lookup_app_l in Hx by done. by eapply (H3 i j).
    + apply list_lookup_singleton_Some in Hy as [Hy <-].
      apply lookup_app_Some in Hx as [Hx|[_ Hx]].
      * rewrite Ht. apply H4. by eapply list_elem_of_lookup_2.
      * by apply list_lookup_singleton_Some in Hx as [_ <-].
  - apply Forall_app. split; [by apply Forall_forall|]. constructor; [lia|done].
Qed.

(** Every entry that can still be looked at is far enough in the past. *)
Lemma not_dup_spaced max now f t l :
  log_wf max now l ->
  (match List.find (same_request f t) (take 30 (reverse l)) with
   | Some e => elapsed_secs now (tm e) <? PUNCH_REQ_DEDUPE_SEC
   | None => false
   end) = false ->
  forall i x, l !! i = Some x -> (length l <= i + 30)%nat -> from_ip x = f -> to_id x = t ->
    PUNCH_REQ_DEDUPE_SEC <= elapsed_secs now (tm x).
Proof.
  intros (_ & _ & H3 & _) Hd i x Hx Hlen Hf Ht.
  destruct (find_recent f t l i x) as (j & e & He & Hj & Hij); [done|done| |].
  { unfold same_request. by rewrite !bool_decide_eq_true_2. }
  rewrite He in Hd. apply Z.ltb_ge in Hd.
  etransitivity; [exact Hd|]. apply elapsed_secs_mono, (H3 _ _ _ _ Hx Hj Hij).
Qed.

Lemma record_punch_req_wf max now f ti id l :
  log_wf max now l -> log_wf max now (record_punch_req max now f ti id l).
Proof.
  intros Hwf. unfold record_punch_req. destruct max as [|max]; [done|].
  destruct (match List.find _ _ with Some _ => _ | None => _ end) eqn:Hd; [done|].
  pose proof (not_dup_spaced _ _ _ _ _ Hwf Hd) as Hn.
  destruct (S max <=? length l)%nat eqn:E.
  - apply log_wf_snoc; [|done|].
    { apply log_wf_tail in Hwf. by replace (S max - 1)%nat with max in Hwf by lia. }
    intros i x Hx Hlen. rewrite tail_lookup in Hx. apply (Hn (S i)); [done|].
    destruct l; simpl in *; lia.
  - apply Nat.leb_gt in E. apply log_wf_snoc; [|done|exact Hn].
    destruct Hwf as (_ & H). split; [lia|done].
Qed.

(** ** Properties *)

Definition run_attempts (l : list Attempt) (lock : IpBlockMap) : IpBlockMap :=
  foldl (fun lock a => (check_ip_blocker (at_time a) (at_ip a) (at_id a) lock).2) lock l.

Lemma run_attempts_wf l lock : blocker_wf lock -> blocker_wf (run_attempts l lock).
Proof.
  revert lock. induction l as [|a l IH]; intros lock H; [done|]. by apply IH, check_ip_blocker_wf.
Qed.

(** Whatever happened before, and whatever other addresses do meanwhile, no
    address gets more than 32 registration attempts past the blocker in a window
    shorter than 61 seconds. *)
Theorem ip_burst_bounded (past l : list Attempt) (ip : string) :
  (forall t t', t ∈ times_of ip l -> t' ∈ times_of ip l -> elapsed_secs t' t <= IP_BLOCK_DUR) ->
  (accepted_from ip l (run_attempts past ∅) <= 32)%nat.
Proof.
  intros Hw. assert (Hwf : blocker_wf (run_attempts past ∅)).
  { apply run_attempts_wf, map_Forall_empty. }
  revert Hwf. generalize (run_attempts past ∅). intros lock Hwf.
  destruct (lock !! ip) as [[c x]|] eqn:E.
  { pose proof (accepted_from_admitted ip l lock c x E).
    destruct (Hwf _ _ E) as [Hc _]. simpl in Hc.
    assert (Z.of_nat (admitted IP_BLOCK_DUR 30 (times_of ip l) c) <= 30 + 1); [|lia].
    by apply admitted_window. }
  clear Hwf. revert lock E. induction l as [|[now ip' id] l IH]; intros lock E; [simpl; lia|].
  cbn [accepted_from at_time at_ip at_id]. unfold times_of in *. rewrite filter_cons in Hw. simpl in Hw.
  destruct (decide (ip' = ip)) as [->|Hne].
  - unfold check_ip_blocker. rewrite E. rewrite bool_decide_eq_true_2 by done. simpl.
    assert (Hl : <[ip := ((0, now), (∅, now))]> lock !! ip =
      Some ((0, now), ((∅ : gset string), now))) by apply lookup_insert_eq.
    pose proof (accepted_from_admitted ip l _ _ _ Hl) as Ha.
    assert (Z.of_nat (admitted IP_BLOCK_DUR 30 (times_of ip l) (0, now)) <= 30 + 1 - 0); [|lia].
    apply (admitted_recent IP_BLOCK_DUR 30).
    + apply Forall_forall. intros t Ht. apply Hw; [left|by right].
    + intros; apply Hw; by right.
    + simpl. lia.
  - pose proof (check_ip_blocker_other now ip ip' id lock) as Ho.
    destruct (check_ip_blocker now ip' id lock) as [ok lock'].
    rewrite bool_decide_eq_false_2, andb_false_r by done. simpl.
    apply IH; [done|]. rewrite <- E. by apply Ho.
Qed.

(** The memory the blocker keeps for one address is bounded, a count of at most
    31 and at most 301 ids, after any sequence of attempts. *)
Theorem ip_blocker_bounded (l : list Attempt) (ip : string) c ids last :
  run_attempts l ∅ !! ip = Some (c, (ids, last)) ->
  0 <= c.1 <= 31 /\ (size ids <= 301)%nat.
Proof.
  intros H. assert (Hwf : blocker_wf (run_attempts l ∅)).
  { apply run_attempts_wf, map_Forall_empty. }
  apply (Hwf _ _ H).
Qed.

(** No block is permanent: an address that was quiet for more than a minute is
    let in again for an id it already used, and after more than a day for any id. *)
Theorem ip_block_expires (now : Instant) (ip id : string) (lock : IpBlockMap) c ids last :
  lock !! ip = Some (c, (ids, last)) -> IP_BLOCK_DUR < elapsed_secs now c.2 ->
  id ∈ ids \/ DAY_SECONDS < elapsed_secs now last ->
  (check_ip_blocker now ip id lock).1 = true.
Proof.
  intros E Hc Hid. unfold check_ip_blocker. rewrite E, bump_after_quiet by done.
  destruct (DAY_SECONDS <? elapsed_secs now last) eqn:Ed; [done|]. apply Z.ltb_ge in Ed.
  destruct Hid as [Hid|Hid]; [|lia].
  rewrite bool_decide_eq_false_2 by (intros Hn; by apply Hn). by case_match.
Qed.

(** A punch-hole request as the server records it. *)
Definition run_requests (max : nat) (l : list PunchReqEntry) (log : list PunchReqEntry)
    : list PunchReqEntry :=
  foldl (fun log r => record_punch_req max (tm r) (from_ip r) (to_ip r) (to_id r) log) log l.

Lemma run_requests_wf max now l log :
  StronglySorted Z.le (now :: (tm <$> l)) -> log_wf max now log ->
  exists now', log_wf max now' (run_requests max l log).
Proof.
  revert now log. induction l as [|r l IH]; intros now log Hs Hwf; [by exists now|].
  apply StronglySorted_inv in Hs as [Hs Hn]. cbn [fmap list_fmap] in Hs, Hn.
  apply Forall_cons in Hn as [Hn _]. cbn [run_requests foldl]. apply (IH (tm r)); [done|].
  apply record_punch_req_wf. by eapply log_wf_later.
Qed.

(** On a clock that does not go back, the log of punch-hole requests never holds
    more than its maximum, is in time order, and never holds the same request (same
    source address, same peer) twice within 60 seconds among 31 consecutive entries. *)
Theorem punch_log_bounded_and_deduped (max : nat) (l : list PunchReqEntry) :
  StronglySorted Z.le (tm <$> l) ->
  let log := run_requests max l [] in
  (length log <= max)%nat /\ StronglySorted Z.le (tm <$> log) /\ spaced log.
Proof.
  intros Hs. simpl.
  assert (Hlog : exists now, log_wf max now (run_requests max l [])).
  { destruct l as [|r l].
    - exists 0. simpl. split; [simpl; lia|]. split; [by intros ?|]. split; [by intros ?|done].
    - apply (run_requests_wf max (tm r)).
      + constructor; [done|]. cbn [fmap list_fmap] in *.
        apply StronglySorted_inv in Hs as [_ Hs]. constructor; [lia|done].
      + split; [simpl; lia|]. split; [by intros ?|]. split; [by intros ?|done]. }
  destruct Hlog as (now & H1 & H2 & H3 & _). split; [done|]. split; [|done].
  revert H3. generalize (run_requests max l []). clear. intros l H3.
  induction l as [|e l IH]; [constructor|]. cbn [fmap list_fmap]. constructor.
  - apply IH. intros i j x y Hx Hy Hij. apply (H3 (S i) (S j)); [done|done|lia].
  - apply Forall_fmap, Forall_forall. intros x Hx. apply list_elem_of_lookup in Hx as [i Hx].
    simpl. apply (H3 0%nat (S i)); [done|done|lia].
Qed.

(** ** Witnesses *)

(** Forty attempts from one address in four seconds. *)
Definition example_attempts : list Attempt :=
  (fun i => mkAttempt (Z.of_nat i * 100000000) "203.0.113.7" "device-1") <$> seq 0 40.

Lemma ip_burst_bounded_witness :
  (accepted_from "203.0.113.7" example_attempts (run_attempts [] ∅) = 32 /\
   accepted_from "203.0.113.7" example_attempts (run_attempts [] ∅) <= 32)%nat.
Proof.
  split; [vm_compute; reflexivity|].
  apply (ip_burst_bounded [] example_attempts "203.0.113.7").
  assert (H : forallb (fun t => forallb (fun t' => elapsed_secs t' t <=? IP_BLOCK_DUR)
    (times_of "203.0.113.7" example_attempts)) (times_of "203.0.113.7" example_attempts) = true)
    by (vm_compute; reflexivity).
  intros t t' Ht Ht'. rewrite forallb_forall in H.
  apply list_elem_of_In in Ht, Ht'. specialize (H t Ht). rewrite forallb_forall in H.
  apply Z.leb_le, (H t' Ht').
Defined.

Lemma ip_blocker_bounded_witness :
  0 <= 31 <= 31 /\ (size ({["device-1"]} : gset string) <= 301)%nat.
Proof.
  apply (ip_blocker_bounded example_attempts "203.0.113.7" (31, 3100000000)
    {["device-1"]} 3100000000).
  vm_compute. reflexivity.
Defined.

Lemma ip_block_expires_witness :
  (check_ip_blocker 4000000000 "203.0.113.7" "device-1" (run_attempts example_attempts ∅)).1
    = false /\
  (check_ip_blocker 70000000000 "203.0.113.7" "device-1" (run_attempts example_attempts ∅)).1
    = true.
Proof.
  split; [vm_compute; reflexivity|].
  apply (ip_block_expires 70000000000 "203.0.113.7" "device-1" (run_attempts example_attempts ∅)
    (31, 3100000000) {["device-1"]} 3100000000).
  - vm_compute. reflexivity.
  - vm_compute. reflexivity.
  - left. set_solver.
Defined.

Definition example_requests : list PunchReqEntry :=
  [mkPunchReq 0 "198.51.100.9" "203.0.113.7" "device-1";
   mkPunchReq 5000000000 "198.51.100.9" "203.0.113.7" "device-1";
   mkPunchReq 60000000000 "198.51.100.9" "203.0.113.7" "device-1"].

Lemma punch_log_bounded_and_deduped_witness :
  length (run_requests 100 example_requests []) = 2%nat /\
  spaced (run_requests 100 example_requests []).
Proof.
  split; [vm_compute; reflexivity|].
  apply (punch_log_bounded_and_deduped 100 example_requests).
  repeat constructor; simpl; lia.
Defined.

(** The id that is being registered when the day's ids are forgotten is itself
    forgotten when it was one of them: whether it is new is decided before. *)
Example day_reset_forgets_current_id :
  let lock : IpBlockMap := {["ip" := ((1, 0), ({["device-1"]}, 0))]} in
  let now := (DAY_SECONDS + 1) * NANOS_PER_SEC in
  snd <$> (check_ip_blocker now "ip" "device-1" lock).2 !! "ip" = Some ((∅ : gset string), now) /\
  snd <$> (check_ip_blocker now "ip" "device-2" lock).2 !! "ip" =
    Some (({["device-2"]} : gset string), now).
Proof. vm_compute. split; reflexivity. Qed.
