(* ===== verification/PeerStore.v ===== *)
(** * Registered peers ([src/src/peer.rs], [src/src/database.rs])

    The database table [peer] is a list of rows; the three statements the server runs
    against it are functions that follow the SQL text and the table's constraints
    ([guid] is the primary key, [id] has a unique index).  Whether the connection
    works is decided outside, so each call takes that as an argument; so are the fresh
    [guid] of an insert and the text form of [PeerInfo] ([serde_json]).

    [PeerMap] keeps the peers seen since the start.  A [LockPeer] is a shared cell:
    the map holds the location of the cell, handlers hold copies of the location, and
    the cells are a heap.  The operations are given twice: as functions, for a handler
    that is not interrupted, and as the steps between their awaits, for handlers that
    interleave. *)

From S2P Require Import Prelude RustStr Net Guards.

Local Open Scope Z_scope.

(** Byte strings ([Vec<u8>], [Bytes]) are strings of bytes. *)
Abbreviation Bytes := string.

Record PeerInfo := mkPeerInfo { info_ip : string }.

#[export] Instance PeerInfo_eq_dec : EqDecision PeerInfo.
Proof. solve_decision. Defined.

(** [serde_json] on [PeerInfo]. *)
Class InfoJson : Type := {
  info_to_json : PeerInfo -> string;
  info_of_json : string -> option PeerInfo;
}.

(** What is written is read back. *)
Class InfoJsonLaws (J : InfoJson) : Prop := {
  info_json_roundtrip : forall i, info_of_json (info_to_json i) = Some i;
}.

(** ** The database *)

(** [database::Peer]: one row of the table. *)
Record Row := mkRow {
  row_guid : Bytes;
  row_id : string;
  row_uuid : Bytes;
  row_pk : Bytes;
  row_user : option Bytes;
  row_info : string;
  row_status : option Z;
}.

Record Database := mkDb { rows : list Row }.

(** Why a statement fails: the pool or the connection, or a constraint. *)
Inductive DbError := DbUnavailable | GuidTaken | IdTaken.

(** [select ... from peer where id = ?]. *)
Definition db_get_peer (up : bool) (id : string) (db : Database) : result DbError (option Row) :=
  if up then Ok (List.find (fun r => bool_decide (row_id r = id)) (rows db))
  else Err DbUnavailable.

(** [insert into peer(guid, id, uuid, pk, info) values(...)]. *)
Definition db_insert_peer (up : bool) (guid : Bytes) (id : string) (uuid pk : Bytes)
    (info : string) (db : Database) : result DbError (Bytes * Database) :=
  if negb up then Err DbUnavailable
  else if existsb (fun r => bool_decide (row_guid r = guid)) (rows db) then Err GuidTaken
  else if existsb (fun r => bool_decide (row_id r = id)) (rows db) then Err IdTaken
  else Ok (guid, mkDb (rows db ++ [mkRow guid id uuid pk None info None])).

(** [update peer set id=?, pk=?, info=? where guid=?]: no row, no change. *)
Definition db_update_pk (up : bool) (guid : Bytes) (id : string) (pk : Bytes) (info : string)
    (db : Database) : result DbError Database :=
  if negb up then Err DbUnavailable
  else if existsb (fun r => bool_decide (row_guid r = guid)) (rows db) &&
          existsb (fun r => bool_decide (row_id r = id /\ row_guid r <> guid)) (rows db)
  then Err IdTaken
  else Ok (mkDb ((fun r =>
         if bool_decide (row_guid r = guid)
         then mkRow (row_guid r) id (row_uuid r) pk (row_user r) info (row_status r)
         else r) <$> rows db)).

(** ** Peers *)

Record Peer := mkPeer {
  socket_addr : SocketAddr;
  last_reg_time : Instant;
  guid : Bytes;
  uuid : Bytes;
  pk : Bytes;
  info : PeerInfo;
  reg_pk : Z * Instant;
}.

(** [get_expired_time]: an hour ago.  [checked_sub] succeeds on Unix, whose clock also
    represents times before its start. *)
Definition get_expired_time (now : Instant) : Instant := now - 3600 * NANOS_PER_SEC.

(** [Peer::default()]. *)
Definition peer_default (now : Instant) : Peer := {|
  socket_addr := SocketV4 0 0;
  last_reg_time := get_expired_time now;
  guid := "";
  uuid := "";
  pk := "";
  info := mkPeerInfo "";
  reg_pk := (0, get_expired_time now);
|}.

(** The location of a shared cell, [LockPeer]. *)
Abbreviation Loc := positive.

Record PeerMap := mkPeerMap {
  pm_map : gmap string Loc;
  pm_heap : gmap Loc Peer;
  pm_db : Database;
}.

Definition set_map (m : gmap string Loc) (pm : PeerMap) : PeerMap :=
  mkPeerMap m (pm_heap pm) (pm_db pm).
Definition set_db (db : Database) (pm : PeerMap) : PeerMap :=
  mkPeerMap (pm_map pm) (pm_heap pm) db.

(** Allocating and writing a cell. *)
Definition alloc (p : Peer) (pm : PeerMap) : Loc * PeerMap :=
  let l := fresh (dom (pm_heap pm)) in
  (l, mkPeerMap (pm_map pm) (<[l := p]> (pm_heap pm)) (pm_db pm)).
Definition write (l : Loc) (f : Peer -> Peer) (pm : PeerMap) : PeerMap :=
  mkPeerMap (pm_map pm) (alter f l (pm_heap pm)) (pm_db pm).

(** [PeerMap::new] on an open database. *)
Definition pm_new (db : Database) : PeerMap := mkPeerMap ∅ ∅ db.

Inductive RegisterPkResult := RPK_OK | UUID_MISMATCH | TOO_FREQUENT | SERVER_ERROR.

#[export] Instance RegisterPkResult_eq_dec : EqDecision RegisterPkResult.
Proof. solve_decision. Defined.

(** What a handler's database calls meet: whether reading and writing work, and the
    next [Uuid::new_v4]. *)
Record DbEnv := mkDbEnv { can_read : bool; can_write : bool; next_guid : Bytes }.

Section PeerMap.
  Context {json : InfoJson}.

(** The peer a row describes. *)
Definition peer_of_row (now : Instant) (v : Row) : Peer :=
  let d := peer_default now in
  mkPeer (socket_addr d) (last_reg_time d) (row_guid v) (row_uuid v) (row_pk v)
    (default (mkPeerInfo "") (info_of_json (row_info v))) (reg_pk d).

(** [PeerMap::get]. *)
Definition pm_get (env : DbEnv) (now : Instant) (id : string) (pm : PeerMap)
    : option Loc * PeerMap :=
  match pm_map pm !! id with
  | Some l => (Some l, pm)
  | None =>
      match db_get_peer (can_read env) id (pm_db pm) with
      | Ok (Some v) =>
          let '(l, pm) := alloc (peer_of_row now v) pm in
          (Some l, set_map (<[id := l]> (pm_map pm)) pm)
      | _ => (None, pm)
      end
  end.

(** [PeerMap::get_or]: the map is looked at again under the write lock. *)
Definition pm_get_or (env : DbEnv) (now : Instant) (id : string) (pm : PeerMap)
    : Loc * PeerMap :=
  let '(p, pm) := pm_get env now id pm in
  match p with
  | Some l => (l, pm)
  | None =>
      match pm_map pm !! id with
      | Some l => (l, pm)
      | None =>
          let '(l, pm) := alloc (peer_default now) pm in
          (l, set_map (<[id := l]> (pm_map pm)) pm)
      end
  end.

Definition get_in_memory (id : string) (pm : PeerMap) : option Loc := pm_map pm !! id.
Definition is_in_memory (id : string) (pm : PeerMap) : bool := bool_decide (is_Some (pm_map pm !! id)).

(** What [update_pk] writes into the cell. *)
Definition registered (addr : SocketAddr) (u k : Bytes) (ip : string) (now : Instant)
    (p : Peer) : Peer :=
  mkPeer addr now (guid p) u k (mkPeerInfo ip) (reg_pk p).

Definition set_guid (g : Bytes) (p : Peer) : Peer :=
  mkPeer (socket_addr p) (last_reg_time p) g (uuid p) (pk p) (info p) (reg_pk p).

(** [PeerMap::update_pk]. *)
Definition pm_update_pk (env : DbEnv) (now : Instant) (id : string) (l : Loc)
    (addr : SocketAddr) (u k : Bytes) (ip : string) (pm : PeerMap)
    : RegisterPkResult * PeerMap :=
  let pm := write l (registered addr u k ip now) pm in
  let info_str := info_to_json (mkPeerInfo ip) in
  match guid <$> pm_heap pm !! l with
  | None => (RPK_OK, pm)
  | Some g =>
      if str_is_empty g then
        match db_insert_peer (can_write env) (next_guid env) id u k info_str (pm_db pm) with
        | Err _ => (SERVER_ERROR, pm)
        | Ok (g, db) => (RPK_OK, write l (set_guid g) (set_db db pm))
        end
      else
        match db_update_pk (can_write env) g id k info_str (pm_db pm) with
        | Err _ => (SERVER_ERROR, pm)
        | Ok db => (RPK_OK, set_db db pm)
        end
  end.

End PeerMap.

(** ** Facts *)

(** *** The table's constraints *)

Record db_wf (db : Database) : Prop := {
  guids_unique : NoDup (row_guid <$> rows db);
  ids_unique : NoDup (row_id <$> rows db);
  rows_named : Forall (fun r => row_guid r <> "" /\ row_uuid r <> "") (rows db);
}.

Lemma existsb_false_forall {A} (p : A -> bool) (l : list A) :
  existsb p l = false <-> Forall (fun x => p x = false) l.
Proof.
  induction l as [|x l IH]; simpl; [by split|]. rewrite orb_false_iff, Forall_cons. tauto.
Qed.

Lemma no_row_with {B} `{EqDecision B} (f : Row -> B) (x : B) (l : list Row) :
  existsb (fun r => bool_decide (f r = x)) l = false -> x ∉ (f <$> l).
Proof.
  rewrite existsb_false_forall, Forall_forall. intros H Hin.
  apply list_elem_of_fmap in Hin as (r & -> & Hr).
  specialize (H r Hr). by rewrite bool_decide_eq_true_2 in H.
Qed.

Lemma db_insert_ok up g id u k inf db g' db' :
  db_insert_peer up g id u k inf db = Ok (g', db') ->
  g' = g /\ (g ∉ (row_guid <$> rows db)) /\ (id ∉ (row_id <$> rows db)) /\
  db' = mkDb (rows db ++ [mkRow g id u k None inf None]).
Proof.
  unfold db_insert_peer. destruct up; [|done]. simpl.
  destruct (existsb _ _) eqn:E1; [done|]. destruct (existsb _ (rows db)) eqn:E2 in |- *; [done|].
  intros [= <- <-]. apply no_row_with in E1, E2. done.
Qed.

Lemma db_insert_wf up g id u k inf db g' db' :
  db_wf db -> g <> "" -> u <> "" ->
  db_insert_peer up g id u k inf db = Ok (g', db') -> db_wf db'.
Proof.
  intros [H1 H2 H3] Hg Hu (_ & Hng & Hni & ->)%db_insert_ok.
  constructor; simpl; rewrite ?fmap_app.
  - apply NoDup_app. split; [done|]. split; [|apply NoDup_singleton].
    intros x Hx ->%list_elem_of_singleton. done.
  - apply NoDup_app. split; [done|]. split; [|apply NoDup_singleton].
    intros x Hx ->%list_elem_of_singleton. done.
  - apply Forall_app. split; [done|]. by repeat constructor.
Qed.

(** The row updated by [update_pk] keeps its uuid. *)
Definition updated (id : string) (k : Bytes) (inf : string) (r : Row) : Row :=
  mkRow (row_guid r) id (row_uuid r) k (row_user r) inf (row_status r).

Lemma db_update_ok up g id k inf db db' :
  db_update_pk up g id k inf db = Ok db' ->
  db' = mkDb ((fun r => if bool_decide (row_guid r = g) then updated id k inf r else r) <$> rows db).
Proof. unfold db_update_pk. destruct up; [|done]. simpl. case_match; [done|]. by intros [= <-]. Qed.

(** The row of the peer's own guid and id. *)
Definition has_row (db : Database) (g : Bytes) (id : string) (u : Bytes) : Prop :=
  exists r, r ∈ rows db /\ row_guid r = g /\ row_id r = id /\ row_uuid r = u.

Lemma row_of_id db r r' :
  db_wf db -> r ∈ rows db -> r' ∈ rows db -> row_id r = row_id r' -> r = r'.
Proof.
  intros [_ Hid _] Hr Hr' E. apply list_elem_of_lookup in Hr as [i Hi].
  apply list_elem_of_lookup in Hr' as [j Hj].
  assert (i = j) as ->; [|congruence].
  eapply (NoDup_lookup (row_id <$> rows db)); [done| |];
    rewrite list_lookup_fmap, ?Hi, ?Hj; simpl; [done|by rewrite E].
Qed.

Lemma row_of_guid db r r' :
  db_wf db -> r ∈ rows db -> r' ∈ rows db -> row_guid r = row_guid r' -> r = r'.
Proof.
  intros [Hg _ _] Hr Hr' E. apply list_elem_of_lookup in Hr as [i Hi].
  apply list_elem_of_lookup in Hr' as [j Hj].
  assert (i = j) as ->; [|congruence].
  eapply (NoDup_lookup (row_guid <$> rows db)); [done| |];
    rewrite list_lookup_fmap, ?Hi, ?Hj; simpl; [done|by rewrite E].
Qed.

(** Updating a peer's own row changes neither its guid nor its id, so the constraints
    stay. *)
Lemma db_update_own up g id u k inf db db' :
  db_wf db -> has_row db g id u -> db_update_pk up g id k inf db = Ok db' ->
  (row_guid <$> rows db') = (row_guid <$> rows db) /\ (row_id <$> rows db') = (row_id <$> rows db) /\
  (row_uuid <$> rows db') = (row_uuid <$> rows db).
Proof.
  intros Hwf (r & Hr & Hg & Hi & Hu) ->%db_update_ok. simpl.
  rewrite <- !list_fmap_compose. split_and!; apply list_fmap_ext; intros i x Hx; simpl;
    case_bool_decide as Hxg; try done. simpl. symmetry.
  assert (x = r) as ->; [|done]. eapply row_of_guid; [done| |done|congruence].
  by eapply list_elem_of_lookup_2.
Qed.

Lemma Forall_by_columns (l l' : list Row) :
  (row_guid <$> l') = (row_guid <$> l) -> (row_uuid <$> l') = (row_uuid <$> l) ->
  Forall (fun r => row_guid r <> "" /\ row_uuid r <> "") l ->
  Forall (fun r => row_guid r <> "" /\ row_uuid r <> "") l'.
Proof.
  revert l. induction l' as [|r' l' IH]; intros [|r l] Hg Hu H; try done.
  cbn in Hg, Hu. injection Hg as E1 Hg. injection Hu as E2 Hu.
  apply Forall_cons in H as [H1 H2]. constructor; [by rewrite E1, E2|by apply (IH l)].
Qed.

Lemma db_update_wf up g id u k inf db db' :
  db_wf db -> has_row db g id u -> db_update_pk up g id k inf db = Ok db' -> db_wf db'.
Proof.
  intros Hwf Hr H. destruct (db_update_own _ _ _ _ _ _ _ _ Hwf Hr H) as (E1 & E2 & E3).
  destruct Hwf. constructor; [by rewrite E1|by rewrite E2|by eapply Forall_by_columns].
Qed.

(** Updating one peer's row keeps every row's guid, id and uuid. *)
Lemma db_update_has_row up g id u k inf db db' g' id' u' :
  db_wf db -> has_row db g id u -> db_update_pk up g id k inf db = Ok db' ->
  has_row db g' id' u' -> has_row db' g' id' u'.
Proof.
  intros Hwf (r & Hr & Hg & Hi & Hu) ->%db_update_ok (r' & Hr' & Hg' & Hi' & Hu').
  exists (if bool_decide (row_guid r' = g) then updated id k inf r' else r'). split.
  { simpl. apply list_elem_of_fmap. by exists r'. }
  case_bool_decide as E; [|done]. simpl.
  assert (r' = r) as ->; [eapply row_of_guid; [done|done|done|congruence]|].
  split; [done|]. split; [congruence|done].
Qed.

Lemma find_row (db : Database) r :
  db_wf db -> r ∈ rows db -> List.find (fun x => bool_decide (row_id x = row_id r)) (rows db) = Some r.
Proof.
  intros Hwf Hr. apply list_elem_of_lookup in Hr as [i Hi].
  destruct (find_stops_before (fun x => bool_decide (row_id x = row_id r)) (rows db) i r)
    as (j & y & Hf & Hy & _); [done|by apply bool_decide_eq_true_2|].
  rewrite Hf. f_equal. apply List.find_some in Hf as [_ Hf]. apply bool_decide_eq_true in Hf.
  eapply row_of_id; [done| | |exact Hf]; by eapply list_elem_of_lookup_2.
Qed.

(** *** The peer map *)

Section PeerMapFacts.
  Context {json : InfoJson}.

(** Every id has its own cell, and a cell that was stored in the database names the
    row that holds its id and its uuid. *)
Record pm_wf (pm : PeerMap) : Prop := {
  wf_db : db_wf (pm_db pm);
  wf_cell : forall id l, pm_map pm !! id = Some l -> is_Some (pm_heap pm !! l);
  wf_own : forall id id' l, pm_map pm !! id = Some l -> pm_map pm !! id' = Some l -> id = id';
  wf_row : forall id l p, pm_map pm !! id = Some l -> pm_heap pm !! l = Some p ->
    guid p <> "" -> has_row (pm_db pm) (guid p) id (uuid p);
}.

Lemma pm_new_wf db : db_wf db -> pm_wf (pm_new db).
Proof. intros. by constructor. Qed.

Lemma alloc_fresh pm : pm_heap pm !! fresh (dom (pm_heap pm)) = None.
Proof. apply not_elem_of_dom, is_fresh. Qed.

(** Filing a new cell under an id that has none. *)
Lemma file_new_cell pm id p :
  pm_wf pm -> pm_map pm !! id = None ->
  (guid p <> "" -> has_row (pm_db pm) (guid p) id (uuid p)) ->
  let l := fresh (dom (pm_heap pm)) in
  pm_wf (mkPeerMap (<[id := l]> (pm_map pm)) (<[l := p]> (pm_heap pm)) (pm_db pm)).
Proof.
  intros [H1 H2 H3 H4] Hid Hrow l. pose proof (alloc_fresh pm) as Hl. fold l in Hl.
  assert (Hne : forall id' l', pm_map pm !! id' = Some l' -> l' <> l).
  { intros id' l' E ->. destruct (H2 _ _ E). congruence. }
  constructor; simpl; [done|..].
  - intros id' l' [[<- <-]|[_ E]]%lookup_insert_Some; [rewrite lookup_insert_eq; eauto|].
    rewrite lookup_insert_ne by (intros <-; by eapply Hne). eauto.
  - intros id1 id2 l' [[<- <-]|[_ E1]]%lookup_insert_Some [[<- E2]|[_ E2]]%lookup_insert_Some;
      [done| | |eauto]; exfalso; [by eapply Hne|subst; by eapply Hne].
  - intros id' l' p' [[<- <-]|[_ E]]%lookup_insert_Some.
    + rewrite lookup_insert_eq. by intros [= <-].
    + rewrite lookup_insert_ne by (intros <-; by eapply Hne). eauto.
Qed.

Lemma find_by_id (id : string) (l : list Row) v :
  List.find (fun r => bool_decide (row_id r = id)) l = Some v -> v ∈ l /\ row_id v = id.
Proof.
  intros [Hin Hid]%List.find_some. split; [by apply list_elem_of_In|].
  by apply bool_decide_eq_true in Hid.
Qed.

Lemma pm_get_wf env now id pm : pm_wf pm -> pm_wf (pm_get env now id pm).2.
Proof.
  intros Hwf. unfold pm_get. destruct (pm_map pm !! id) eqn:E; [done|].
  unfold db_get_peer. destruct (can_read env); [|done].
  destruct (List.find _ _) as [v|] eqn:Ev; [|done]. simpl.
  apply (file_new_cell pm id (peer_of_row now v) Hwf E). intros _. apply find_by_id in Ev as [Hin Hid].
  exists v. done.
Qed.

Lemma pm_get_db env now id pm : pm_db (pm_get env now id pm).2 = pm_db pm.
Proof.
  unfold pm_get. destruct (pm_map pm !! id); [done|]. by destruct (db_get_peer _ _ _) as [[v|]|].
Qed.

Lemma pm_get_none env now id pm :
  (pm_get env now id pm).1 = None -> (pm_get env now id pm).2 = pm /\ pm_map pm !! id = None.
Proof.
  unfold pm_get. destruct (pm_map pm !! id); [done|]. by destruct (db_get_peer _ _ _) as [[v|]|].
Qed.

Lemma pm_get_or_wf env now id pm : pm_wf pm -> pm_wf (pm_get_or env now id pm).2.
Proof.
  intros Hwf. unfold pm_get_or. pose proof (pm_get_wf env now id pm Hwf) as Hg.
  pose proof (pm_get_none env now id pm) as Hn.
  destruct (pm_get env now id pm) as [[l|] pm1]; simpl in *; [done|].
  destruct (Hn eq_refl) as [-> E]. rewrite E. by apply (file_new_cell pm id (peer_default now) Hwf E).
Qed.

(** What [get_or] hands out is the cell filed under the id. *)
Lemma pm_get_or_filed env now id pm :
  pm_map (pm_get_or env now id pm).2 !! id = Some (pm_get_or env now id pm).1.
Proof.
  unfold pm_get_or, pm_get. destruct (pm_map pm !! id) eqn:E; simpl; [by rewrite E|].
  destruct (db_get_peer _ _ _) as [[v|]|]; simpl; [by rewrite lookup_insert_eq| |];
    rewrite E; simpl; by rewrite lookup_insert_eq.
Qed.

(** Writing a cell without touching its guid and uuid. *)
Lemma write_wf l f pm :
  pm_wf pm -> (forall p, guid (f p) = guid p) -> (forall p, uuid (f p) = uuid p) ->
  pm_wf (write l f pm).
Proof.
  intros [H1 H2 H3 H4] Hg Hu. constructor; simpl; [done| |done|].
  - intros id l' E. apply lookup_alter_is_Some. eauto.
  - intros id l' p E. destruct (decide (l' = l)) as [->|Hne].
    + rewrite lookup_alter_eq. intros (q & Hq & ->)%fmap_Some. rewrite Hg, Hu. eauto.
    + rewrite lookup_alter_ne by done. eauto.
Qed.

(** *** Registering *)

Lemma has_row_app db r g id u :
  has_row db g id u -> has_row (mkDb (rows db ++ [r])) g id u.
Proof. intros (x & Hx & E). exists x. split; [apply elem_of_app; by left|done]. Qed.

Definition put_cell (l : Loc) (q : Peer) (db : Database) (pm : PeerMap) : PeerMap :=
  mkPeerMap (pm_map pm) (<[l := q]> (pm_heap pm)) db.

Lemma alter_known {A} (f : A -> A) (l : Loc) (h : gmap Loc A) p :
  h !! l = Some p -> alter f l h = <[l := f p]> h.
Proof.
  intros E. apply map_eq. intros l'. destruct (decide (l' = l)) as [->|Hne].
  - by rewrite lookup_alter_eq, lookup_insert_eq, E.
  - by rewrite lookup_alter_ne, lookup_insert_ne.
Qed.

Lemma pm_update_pk_known env now id l addr u k ip pm p :
  pm_heap pm !! l = Some p ->
  let q := registered addr u k ip now p in
  let inf := info_to_json (mkPeerInfo ip) in
  pm_update_pk env now id l addr u k ip pm =
  if str_is_empty (guid p) then
    match db_insert_peer (can_write env) (next_guid env) id u k inf (pm_db pm) with
    | Err _ => (SERVER_ERROR, put_cell l q (pm_db pm) pm)
    | Ok (g, db) => (RPK_OK, put_cell l (set_guid g q) db pm)
    end
  else
    match db_update_pk (can_write env) (guid p) id k inf (pm_db pm) with
    | Err _ => (SERVER_ERROR, put_cell l q (pm_db pm) pm)
    | Ok db => (RPK_OK, put_cell l q db pm)
    end.
Proof.
  intros E q inf. unfold pm_update_pk, write, set_db. simpl.
  rewrite (alter_known _ _ _ _ E), lookup_insert_eq. simpl. fold q inf.
  destruct (str_is_empty (guid p)).
  - destruct (db_insert_peer _ _ _ _ _ _ _) as [[g db]|]; [|done].
    unfold put_cell. do 2 f_equal.
    rewrite (alter_known _ _ _ q) by apply lookup_insert_eq. by rewrite insert_insert_eq.
  - by destruct (db_update_pk _ _ _ _ _ _).
Qed.

Lemma put_cell_wf id l q db pm :
  pm_wf pm -> pm_map pm !! id = Some l -> db_wf db ->
  (forall g i u, has_row (pm_db pm) g i u -> has_row db g i u) ->
  (guid q <> "" -> has_row db (guid q) id (uuid q)) -> pm_wf (put_cell l q db pm).
Proof.
  intros [H1 H2 H3 H4] Hid Hdb Hold Hnew. constructor; simpl; [done| |done|].
  - intros id' l' E. apply lookup_insert_is_Some. destruct (decide (l = l')); [by left|].
    right. split; [done|]. eauto.
  - intros id' l' p E [[<- <-]|[Hne Hp]]%lookup_insert_Some.
    + by rewrite (H3 id' id l E Hid).
    + eauto.
Qed.

(** The cell of [id] is written; its uuid is new only when it was never stored. *)
Lemma pm_update_pk_wf env now id l addr u k ip pm p :
  pm_wf pm -> pm_map pm !! id = Some l -> pm_heap pm !! l = Some p ->
  next_guid env <> "" -> u <> "" -> (guid p <> "" -> uuid p = u) ->
  pm_wf (pm_update_pk env now id l addr u k ip pm).2.
Proof.
  intros Hwf Hid Hp Hg Hu Hsame. rewrite (pm_update_pk_known _ _ _ _ _ _ _ _ _ _ Hp). cbv zeta.
  pose proof (wf_db _ Hwf) as Hdb.
  destruct (str_is_empty (guid p)) eqn:Eg.
  - apply str_is_empty_true in Eg.
    destruct (db_insert_peer _ _ _ _ _ _ _) as [[g db]|] eqn:Ei; cbn [snd].
    + pose proof (db_insert_wf _ _ _ _ _ _ _ _ _ Hdb Hg Hu Ei) as Hdb'.
      apply db_insert_ok in Ei as (-> & _ & _ & ->).
      apply (put_cell_wf id); [done|done|done|intros; by apply has_row_app|].
      intros _. eexists. split; [apply elem_of_app; right; by apply list_elem_of_singleton|done].
    + apply (put_cell_wf id); [done..|]. simpl. by rewrite Eg.
  - assert (Hne : guid p <> "") by (intros E; rewrite E in Eg; done).
    pose proof (wf_row _ Hwf _ _ _ Hid Hp Hne) as Hrow. rewrite (Hsame Hne) in Hrow.
    destruct (db_update_pk _ _ _ _ _ _) as [db|] eqn:Ei; cbn [snd].
    + apply (put_cell_wf id); [done|done| | |].
      * eapply db_update_wf; [exact Hdb|exact Hrow|exact Ei].
      * intros. eapply db_update_has_row; [exact Hdb|exact Hrow|exact Ei|done].
      * intros _. eapply db_update_has_row; [exact Hdb|exact Hrow|exact Ei|exact Hrow].
    + by apply (put_cell_wf id).
Qed.

(** After a successful registration the table's row for the id is the one just
    written. *)
Lemma pm_update_pk_row env now id l addr u k ip pm p :
  pm_wf pm -> pm_map pm !! id = Some l -> pm_heap pm !! l = Some p ->
  next_guid env <> "" -> u <> "" -> (guid p <> "" -> uuid p = u) ->
  (pm_update_pk env now id l addr u k ip pm).1 = RPK_OK ->
  exists r, r ∈ rows (pm_db (pm_update_pk env now id l addr u k ip pm).2) /\
    row_id r = id /\ row_uuid r = u /\ row_pk r = k /\ row_info r = info_to_json (mkPeerInfo ip).
Proof.
  intros Hwf Hid Hp Hg Hu Hsame. rewrite (pm_update_pk_known _ _ _ _ _ _ _ _ _ _ Hp). cbv zeta.
  destruct (str_is_empty (guid p)) eqn:Eg.
  - destruct (db_insert_peer _ _ _ _ _ _ _) as [[g db]|] eqn:Ei; [|done]. intros _. simpl.
    apply db_insert_ok in Ei as (-> & _ & _ & ->).
    eexists. split; [apply elem_of_app; right; by apply list_elem_of_singleton|done].
  - assert (Hne : guid p <> "") by (intros E; rewrite E in Eg; done).
    pose proof (wf_row _ Hwf _ _ _ Hid Hp Hne) as (r & Hr & Hrg & Hri & Hru).
    destruct (db_update_pk _ _ _ _ _ _) as [db|] eqn:Ei; [|done]. intros _. simpl.
    apply db_update_ok in Ei as ->.
    exists (updated id k (info_to_json (mkPeerInfo ip)) r). split.
    + apply list_elem_of_fmap. exists r. split; [|done]. by rewrite bool_decide_eq_true_2.
    + simpl. split; [done|]. split; [rewrite Hru; by apply Hsame|done].
Qed.

End PeerMapFacts.

(** ** Interleaving

    [get] and [get_or] release the map's lock between reading it and writing it.  A
    call is a task that goes through these points; a schedule picks the task that
    moves next.  The database is read-only here. *)

Inductive Task :=
| TStart (id : string)             (** about to read the map *)
| TMiss (id : string)              (** not there: the database is next *)
| TInsert (id : string) (p : Peer) (** found there: to be filed *)
| TNoRow (id : string)             (** [get] gave nothing: [get_or] takes the lock *)
| TDone (id : string) (l : Loc).   (** the cell handed out *)

Section Interleaving.
  Context {json : InfoJson} (now : Instant).

(** One uninterrupted stretch of [get_or]. *)
Definition task_step (t : Task) (pm : PeerMap) : Task * PeerMap :=
  match t with
  | TStart id =>
      match pm_map pm !! id with
      | Some l => (TDone id l, pm)
      | None => (TMiss id, pm)
      end
  | TMiss id =>
      match db_get_peer true id (pm_db pm) with
      | Ok (Some v) => (TInsert id (peer_of_row now v), pm)
      | _ => (TNoRow id, pm)
      end
  | TInsert id p =>
      let '(l, pm) := alloc p pm in (TDone id l, set_map (<[id := l]> (pm_map pm)) pm)
  | TNoRow id =>
      match pm_map pm !! id with
      | Some l => (TDone id l, pm)
      | None =>
          let '(l, pm) := alloc (peer_default now) pm in
          (TDone id l, set_map (<[id := l]> (pm_map pm)) pm)
      end
  | TDone _ _ => (t, pm)
  end.

Inductive sched_step : list Task * PeerMap -> list Task * PeerMap -> Prop :=
| sched_step_intro i t t' ts pm pm' :
    ts !! i = Some t -> task_step t pm = (t', pm') ->
    sched_step (ts, pm) (<[i := t']> ts, pm').

(** A task run alone is [get_or]. *)
Fixpoint run_task (n : nat) (t : Task) (pm : PeerMap) : Task * PeerMap :=
  match n with
  | O => (t, pm)
  | S n => let '(t, pm) := task_step t pm in run_task n t pm
  end.

Lemma run_task_is_get_or g id pm :
  let '(l, pm') := pm_get_or (mkDbEnv true true g) now id pm in
  run_task 3 (TStart id) pm = (TDone id l, pm').
Proof.
  unfold pm_get_or, pm_get. cbn [run_task task_step can_read].
  destruct (pm_map pm !! id) as [l|] eqn:E; [done|]. simpl.
  destruct (List.find _ _) as [v|]; simpl; [done|]. by rewrite E.
Qed.

Definition no_row (id : string) (pm : PeerMap) : Prop :=
  List.find (fun r => bool_decide (row_id r = id)) (rows (pm_db pm)) = None.

(** For an id without a row: nobody is about to overwrite its entry, and every
    cell handed out is the one filed. *)
Definition task_ok (id : string) (pm : PeerMap) (t : Task) : Prop :=
  match t with
  | TInsert id' _ => id' <> id
  | TDone id' l => id' = id -> pm_map pm !! id = Some l
  | _ => True
  end.

Lemma task_step_frame id t pm t' pm' :
  no_row id pm -> task_ok id pm t -> task_step t pm = (t', pm') ->
  pm_db pm' = pm_db pm /\ task_ok id pm' t' /\
  (forall l, pm_map pm !! id = Some l -> pm_map pm' !! id = Some l).
Proof.
  intros Hno Ht Hstep. destruct t as [i|i|i p|i|i l]; cbn [task_step] in Hstep.
  - destruct (pm_map pm !! i) eqn:E; injection Hstep as <- <-; simpl; [|done].
    split; [done|]. split; [by intros ->|done].
  - unfold db_get_peer in Hstep.
    destruct (List.find _ _) as [v|] eqn:E; injection Hstep as <- <-; simpl; [|done].
    split; [done|]. split; [|done]. intros ->. unfold no_row in Hno. congruence.
  - unfold alloc in Hstep. injection Hstep as <- <-. simpl in *. split; [done|].
    split; [by intros ->|]. intros l Hl. by rewrite lookup_insert_ne.
  - destruct (pm_map pm !! i) eqn:E.
    { injection Hstep as <- <-. simpl. split; [done|]. split; [by intros ->|done]. }
    unfold alloc in Hstep. injection Hstep as <- <-. simpl. split; [done|]. split.
    + intros ->. by rewrite lookup_insert_eq.
    + intros l Hl. rewrite lookup_insert_ne; [done|]. intros ->. congruence.
  - by injection Hstep as <- <-.
Qed.

Lemma task_ok_mono id t pm pm' :
  (forall l, pm_map pm !! id = Some l -> pm_map pm' !! id = Some l) ->
  task_ok id pm t -> task_ok id pm' t.
Proof. intros H. destruct t; simpl; eauto. Qed.

Definition sched_ok (id : string) (s : list Task * PeerMap) : Prop :=
  no_row id s.2 /\ Forall (task_ok id s.2) s.1.

Lemma sched_step_ok id s s' : sched_step s s' -> sched_ok id s -> sched_ok id s'.
Proof.
  intros [i t t' ts pm pm' Hi Ht] [Hno Hok]. simpl in *.
  rewrite Forall_lookup in Hok. pose proof (Hok i t Hi) as Hti.
  destruct (task_step_frame id t pm t' pm' Hno Hti Ht) as (Edb & Hok' & Hkeep).
  split; simpl; [unfold no_row; by rewrite Edb|].
  apply Forall_insert; [|done]. apply Forall_lookup. intros j x Hx.
  eapply task_ok_mono; [exact Hkeep|eauto].
Qed.

Lemma sched_invariant id s s' : rtc sched_step s s' -> sched_ok id s -> sched_ok id s'.
Proof. induction 1; eauto using sched_step_ok. Qed.

End Interleaving.

(** ** Properties *)

Section PeerStoreProperties.
  Context {json : InfoJson} {laws : InfoJsonLaws json}.

(** C21: a registration that was answered with success survives a restart of the
    server: a server started on the same database finds the peer with the uuid, the
    public key and the address that were registered.  The peer's stored row, if it
    has one, must carry the uuid being registered, which is what the handler checks. *)
Theorem registration_survives_restart env env' now now' id l addr u k ip pm p :
  pm_wf pm -> pm_map pm !! id = Some l -> pm_heap pm !! l = Some p ->
  next_guid env <> "" -> u <> "" -> (guid p <> "" -> uuid p = u) ->
  (pm_update_pk env now id l addr u k ip pm).1 = RPK_OK -> can_read env' = true ->
  let db := pm_db (pm_update_pk env now id l addr u k ip pm).2 in
  exists l' p', (pm_get env' now' id (pm_new db)).1 = Some l' /\
    pm_heap (pm_get env' now' id (pm_new db)).2 !! l' = Some p' /\
    uuid p' = u /\ pk p' = k /\ info p' = mkPeerInfo ip /\ guid p' <> "".
Proof.
  intros Hwf Hid Hp Hg Hu Hsame Hok Hread db.
  destruct (pm_update_pk_row env now id l addr u k ip pm p) as (r & Hr & Hri & Hru & Hrk & Hrf); try done.
  assert (Hdb : db_wf db) by (unfold db; by eapply wf_db, pm_update_pk_wf).
  assert (Hf : List.find (fun x => bool_decide (row_id x = id)) (rows db) = Some r).
  { rewrite <- Hri. by apply find_row. }
  unfold pm_get, db_get_peer. rewrite Hread. cbn [pm_new pm_map pm_db]. rewrite lookup_empty, Hf.
  cbn [alloc fst snd]. eexists _, _. split; [done|].
  cbn [set_map pm_heap]. rewrite lookup_insert_eq. split; [done|].
  unfold peer_of_row. cbn. rewrite Hrf, info_json_roundtrip. split_and!; try done.
  pose proof (rows_named _ Hdb) as Hn. rewrite Forall_forall in Hn. by apply Hn.
Qed.

(** However calls of [get_or] for an id the database does not have are
    interleaved, all of them hand out the same cell, and it is the one filed under the
    id; so nothing registered through one of them is lost to another. *)
Theorem concurrent_get_or_agree now ids db id ts pm i j l l' :
  List.find (fun r => bool_decide (row_id r = id)) (rows db) = None ->
  rtc (sched_step now) (TStart <$> ids, pm_new db) (ts, pm) ->
  ts !! i = Some (TDone id l) -> ts !! j = Some (TDone id l') ->
  l = l' /\ pm_map pm !! id = Some l.
Proof.
  intros Hno Hr Hi Hj.
  destruct (sched_invariant now id _ _ Hr) as [_ Hok].
  { split; [done|]. by apply Forall_fmap, Forall_true. }
  simpl in Hok. rewrite Forall_lookup in Hok.
  pose proof (Hok _ _ Hi eq_refl) as H1. pose proof (Hok _ _ Hj eq_refl) as H2.
  split; [congruence|done].
Qed.

End PeerStoreProperties.

(** ** Witnesses *)

Definition example_json : InfoJson := {|
  info_to_json := info_ip;
  info_of_json s := Some (mkPeerInfo s);
|}.

Lemma example_json_laws : InfoJsonLaws example_json.
Proof. constructor. by intros []. Qed.

#[local] Existing Instance example_json.
#[local] Existing Instance example_json_laws.

Definition example_env : DbEnv := mkDbEnv true true "guid-1".

(** A new device's cell. *)
Definition example_pm : PeerMap := (pm_get_or example_env 0 "device-1" (pm_new (mkDb []))).2.

Lemma example_pm_wf : pm_wf example_pm.
Proof. apply pm_get_or_wf, pm_new_wf. constructor; constructor. Qed.

Lemma registration_survives_restart_witness :
  exists l' p',
    (pm_get example_env 5 "device-1"
       (pm_new (pm_db (pm_update_pk example_env 1 "device-1" 1%positive (SocketV4 1 2) "uuid" "pk"
          "203.0.113.7" example_pm).2))).1 = Some l' /\
    pm_heap (pm_get example_env 5 "device-1"
       (pm_new (pm_db (pm_update_pk example_env 1 "device-1" 1%positive (SocketV4 1 2) "uuid" "pk"
          "203.0.113.7" example_pm).2))).2 !! l' = Some p' /\
    uuid p' = "uuid" /\ pk p' = "pk" /\ info p' = mkPeerInfo "203.0.113.7" /\ guid p' <> "".
Proof.
  apply (registration_survives_restart example_env example_env 1 5 "device-1" 1%positive
    (SocketV4 1 2) "uuid" "pk" "203.0.113.7" example_pm (peer_default 0)).
  - apply example_pm_wf.
  - reflexivity.
  - reflexivity.
  - discriminate.
  - discriminate.
  - intros H. by destruct H.
  - reflexivity.
  - reflexivity.
Defined.

(** Two calls, the second overtaking the first between its look at the map and its
    taking of the lock. *)
Lemma concurrent_get_or_agree_witness :
  exists ts pm l, rtc (sched_step 0) (TStart <$> ["a"; "a"], pm_new (mkDb [])) (ts, pm) /\
    ts = [TDone "a" l; TDone "a" l] /\ (l = l /\ pm_map pm !! "a" = Some l).
Proof.
  assert (Hr : rtc (sched_step 0) (TStart <$> ["a"; "a"], pm_new (mkDb []))
    ([TDone "a" 1%positive; TDone "a" 1%positive],
     mkPeerMap {["a" := 1%positive]} {[1%positive := peer_default 0]} (mkDb []))).
  { eapply rtc_l; [by apply (sched_step_intro 0 0 (TStart "a"))|].
    eapply rtc_l; [by apply (sched_step_intro 0 0 (TMiss "a"))|].
    eapply rtc_l; [by apply (sched_step_intro 0 1 (TStart "a"))|].
    eapply rtc_l; [by apply (sched_step_intro 0 1 (TMiss "a"))|].
    eapply rtc_l; [by apply (sched_step_intro 0 1 (TNoRow "a"))|].
    eapply rtc_l; [by apply (sched_step_intro 0 0 (TNoRow "a"))|].
    apply rtc_refl. }
  eexists _, _, 1%positive. split; [exact Hr|]. split; [reflexivity|].
  by apply (concurrent_get_or_agree 0 ["a"; "a"] (mkDb []) "a" _ _ 0 1 1%positive 1%positive
    eq_refl Hr).
Defined.

(** With a row in the database the calls need not agree: [get] files the cell it built
    without looking at the map again, so the second of two calls replaces the first
    one's cell while the first caller goes on using it. *)
Example concurrent_get_can_disagree :
  let db := mkDb [mkRow "guid-1" "a" "uuid" "pk" None "ip" None] in
  exists ts pm, rtc (sched_step 0) (TStart <$> ["a"; "a"], pm_new db) (ts, pm) /\
    ts = [TDone "a" 1%positive; TDone "a" 2%positive] /\ pm_map pm !! "a" = Some 2%positive.
Proof.
  intros db. eexists _, _. split; [|split].
  - eapply rtc_l; [by apply (sched_step_intro 0 0 (TStart "a"))|].
    eapply rtc_l; [by apply (sched_step_intro 0 1 (TStart "a"))|].
    eapply rtc_l; [eapply (sched_step_intro 0 0 (TMiss "a")); reflexivity|].
    eapply rtc_l; [eapply (sched_step_intro 0 1 (TMiss "a")); reflexivity|].
    eapply rtc_l; [eapply (sched_step_intro 0 0); reflexivity|].
    eapply rtc_l; [eapply (sched_step_intro 0 1); reflexivity|].
    apply rtc_refl.
  - reflexivity.
  - reflexivity.
Qed.
