(* ===== verification/Jwt.v ===== *)
(** * Login tokens ([src/src/jwt.rs])

    A punch-hole request may have to carry a token minted by the companion API server.
    Signing and checking the signature is [jsonwebtoken]'s work: its [encode] and
    [decode] are parameters, and its documented treatment of the [exp] claim, with the
    default leeway of 60 seconds, is a law.  Times are Unix seconds. *)

From S2P Require Import Prelude RustStr.

Local Open Scope Z_scope.

Record Claims := mkClaims { user_id : Z; exp : Z }.

(** [jsonwebtoken::encode] and [decode] for HS256 with [Validation::new]; [decode]
    reads the clock. *)
Class JwtLib : Type := {
  jwt_encode : string -> Claims -> option string;
  jwt_decode : string -> Z -> string -> option Claims;
}.

(** The leeway of [Validation::new], in seconds. *)
Definition LEEWAY : Z := 60.

Class JwtLaws (J : JwtLib) : Prop := {
  (** A token signed with the secret is accepted until the leeway after its expiry. *)
  jwt_roundtrip : forall secret now c token,
    jwt_encode secret c = Some token ->
    jwt_decode secret now token = if exp c <? now - LEEWAY then None else Some c;
}.

Inductive TokenError := InvalidToken | TokenExpired.

Section Jwt.
  Context {jwt : JwtLib}.

(** [generate_token]: the expiry is an [i64] cast to [usize]. *)
Definition generate_token (secret : string) (now : Z) (user : Z) (lifetime : Z) : option string :=
  jwt_encode secret (mkClaims user (wrap64 (now + lifetime))).

(** [verify_token]; [t_decode] and [now] are the two readings of the clock. *)
Definition verify_token (secret : string) (t_decode now : Z) (token : string)
    : result TokenError Claims :=
  match jwt_decode secret t_decode token with
  | Some claims => if wrap64 now <? exp claims then Ok claims else Err TokenExpired
  | None => Err InvalidToken
  end.

End Jwt.

(** ** Properties *)

Section JwtProperties.
  Context {jwt : JwtLib} {laws : JwtLaws jwt}.

(** A token made by [generate_token] is accepted exactly until its lifetime is
    over: the leeway the library grants by default does not extend it, and the user it
    names is the one it was made for. *)
Theorem token_accepted_until_expiry secret t0 user lifetime token now :
  generate_token secret t0 user lifetime = Some token ->
  0 <= t0 + lifetime < 2 ^ 63 -> 0 <= now < 2 ^ 63 ->
  match verify_token secret now now token with
  | Ok claims => now < t0 + lifetime /\ user_id claims = user
  | Err _ => t0 + lifetime <= now
  end.
Proof.
  intros Hg Ht Hn. unfold generate_token in Hg.
  assert (Hw : forall z, 0 <= z < 2 ^ 63 -> wrap64 z = z).
  { intros z Hz. unfold wrap64. apply Z.mod_small. lia. }
  unfold verify_token. rewrite (jwt_roundtrip _ now _ _ Hg). cbn [exp].
  rewrite (Hw (t0 + lifetime)), (Hw now) by done.
  destruct (t0 + lifetime <? now - LEEWAY) eqn:E1.
  { apply Z.ltb_lt in E1. unfold LEEWAY in E1. lia. }
  cbn [exp]. rewrite ?(Hw (t0 + lifetime)) by done.
  destruct (now <? t0 + lifetime) eqn:E2; [apply Z.ltb_lt in E2|apply Z.ltb_ge in E2]; done.
Qed.

End JwtProperties.

(** ** Witnesses *)

(** A library that signs the claims of one user and one expiry. *)
Definition example_claims : Claims := mkClaims 7 150.

Definition example_jwt : JwtLib := {|
  jwt_encode secret c :=
    if bool_decide (user_id c = 7 /\ exp c = 150) then Some ("signed with " +:+ secret) else None;
  jwt_decode secret now token :=
    if bool_decide (token = "signed with " +:+ secret)
    then if 150 <? now - LEEWAY then None else Some example_claims
    else None;
|}.

Lemma example_jwt_laws : JwtLaws example_jwt.
Proof.
  constructor. intros secret now [u e] token. unfold jwt_encode, jwt_decode, example_jwt. simpl.
  case_bool_decide as E; [|done]. destruct E as [-> ->]. intros [= <-].
  by rewrite bool_decide_eq_true_2.
Qed.

#[local] Existing Instance example_jwt.
#[local] Existing Instance example_jwt_laws.

(** A minute after the expiry the library still decodes the token, and it is refused. *)
Lemma token_accepted_until_expiry_witness :
  is_ok (verify_token "secret" 149 149 "signed with secret") = true /\
  is_Some (jwt_decode "secret" 200 "signed with secret") /\
  match verify_token "secret" 200 200 "signed with secret" with
  | Ok claims => 200 < 100 + 50 /\ user_id claims = 7
  | Err _ => 100 + 50 <= 200
  end.
Proof.
  split; [vm_compute; reflexivity|]. split; [vm_compute; eauto|].
  apply (token_accepted_until_expiry "secret" 100 7 50 "signed with secret" 200).
  - reflexivity.
  - lia.
  - lia.
Defined.
