(* ===== verification/Settings.v ===== *)
(** * Settings and entry points

    How an argument is found ([src/src/common.rs]: [arg_name] to [get_arg_or]), what the two
    programs make of their arguments ([src/src/main.rs], [src/src/hbbr.rs]) and which ports
    they open ([listen_tcp], [listen_console], [console_addr]).  The environment is a map
    from names to values, [None] being a value that is not Unicode; a name that is not
    Unicode is read by nothing.  The command line is parsed by clap and the files by
    rust-ini: what they return is a parameter.  The two programs are built for release, so
    integer arithmetic wraps. *)

From S2P Require Import Prelude RustStr Net External Guards.
From Stdlib Require Import Ascii.

Local Open Scope Z_scope.

(** ** Arguments *)

Definition arg_name (name : string) : string := replace_char "_" "-" (to_uppercase name).

Abbreviation Environ := (gmap string (option string)).

(** [std::env::var]. *)
Definition env_var (e : Environ) (name : string) : option string := mjoin (e !! name).

(** [std::env::set_var], which panics on a name or a value the system cannot hold. *)
Definition settable (name value : string) : bool :=
  str_nonempty name && negb (contains_char "=" name) && negb (contains_char "000" name) &&
  negb (contains_char "000" value).

Definition set_arg (name value : string) (e : Environ) : option Environ :=
  if settable (arg_name name) value then Some (<[arg_name name := Some value]> e) else None.

(** The settings of a file's section, or of the command line, one after the other. *)
Fixpoint set_args (kvs : list (string * string)) (e : Environ) : option Environ :=
  match kvs with
  | [] => Some e
  | (k, v) :: kvs => let! e := set_arg k v e in set_args kvs e
  end.

(** [ArgMatches]: the values given for each argument. *)
Abbreviation Matches := (list (string * list string)).

Definition value_of (name : string) (m : Matches) : option string :=
  let! vs := snd <$> list_find (fun kv => kv.1 = name) m in head vs.2.

Definition matched (m : Matches) : list (string * string) :=
  omap (fun kv => pair kv.1 <$> head kv.2) m.

(** [init_args]; [ini] is the general section of a file, if it can be read and has one. *)
Definition init_args (ini : string -> option (list (string * string))) (m : Matches) (e : Environ)
    : option Environ :=
  let! e := set_args (default [] (ini ".env")) e in
  let! e := match value_of "config" m with
            | Some config => set_args (default [] (ini config)) e
            | None => Some e
            end in
  set_args (matched m) e.

(** The spellings tried first, and then the others, the first in the order of the names. *)
Definition aliases (name : string) : list string :=
  let dashed := arg_name name in
  let underscored := replace_char "-" "_" dashed in
  [dashed; underscored; to_lowercase dashed; to_lowercase underscored].

Definition get_arg_opt (name : string) (e : Environ) : option string :=
  match head (omap (env_var e) (aliases name)) with
  | Some value => Some value
  | None =>
      let others :=
        map_imap (fun key value => if bool_decide (arg_name key = arg_name name) then value else None) e in
      snd <$> head (sort_by (fun a b : string * string => String.leb a.1 b.1) (map_to_list others))
  end.

Definition get_arg_or (name default_value : string) (e : Environ) : string :=
  default default_value (get_arg_opt name e).

Definition get_arg (name : string) (e : Environ) : string := get_arg_or name "" e.

(** [now]: the seconds since 1970, 0 for a clock before that. *)
Definition now_secs (clock : Z) : Z := if clock <? 0 then 0 else clock.

(** ** Addresses *)

Inductive SettingError := InvalidBind (value : string) | BadNumber | InvalidPort.

Definition parse_bind_address (value : string) : result SettingError (option IpAddr) :=
  let value := trim value in
  if str_is_empty value then Ok None
  else match parse_ip value with Some ip => Ok (Some ip) | None => Err (InvalidBind value) end.

(** A request to listen: at one address, or hbb_common's [listen_any] at a port. *)
Inductive Listen := ListenAt (addr : SocketAddr) | ListenAny (port : Z).

#[export] Instance Listen_eq_dec : EqDecision Listen.
Proof. solve_decision. Defined.

Definition listen_tcp (bind_addr : option IpAddr) (port : Z) : Listen :=
  match bind_addr with Some ip => ListenAt (socket_new ip port) | None => ListenAny port end.

Definition console_addr (bind_addr : option IpAddr) (port : Z) : option SocketAddr :=
  let! ip := bind_addr in
  if is_unspecified ip || bool_decide (ip = LOCALHOST_V4) then None
  else Some (socket_new LOCALHOST_V4 port).

Definition listen_console (bind_addr : option IpAddr) (port : Z) : option Listen :=
  ListenAt <$> console_addr bind_addr port.

(** [test_if_valid_server] and [get_servers]; [resolve] is the system's resolver. *)
Definition test_if_valid_server (resolve : string -> option (list SocketAddr)) (host : string)
    : option SocketAddr :=
  let! addrs := resolve (if contains_char ":" host then host else host +:+ ":0") in head addrs.

Definition get_servers (resolve : string -> option (list SocketAddr)) (s : string) : list string :=
  List.filter (fun x => str_nonempty x && bool_decide (is_Some (test_if_valid_server resolve x)))
    (split_on "," s).

(** ** The two programs *)

(** [as u16]. *)
Definition wrap_u16 (z : Z) : Z := z mod 2 ^ 16.

(** What [main] calls [RendezvousServer::start_with_bind] with. *)
Record HbbsArgs := mkHbbsArgs {
  h_bind : option IpAddr;
  h_port : Z;
  h_serial : Z;
  h_key : string;
  h_rmem : Z;
}.

Definition RMEM : Z := 0.

Section Programs.
  Context {hbb : HbbCommon}.

Definition hbbs_main (e : Environ) : result SettingError HbbsArgs :=
  let? port := ok_or (parse_i32 (get_arg_or "port" (show_Z RENDEZVOUS_PORT) e)) BadNumber in
  if port <? 3 then Err InvalidPort
  else
    let? bind := parse_bind_address (get_arg "bind" e) in
    let rmem := default RMEM (parse_usize (get_arg "rmem" e)) in
    let serial := default 0 (parse_i32 (get_arg "serial" e)) in
    Ok (mkHbbsArgs bind port serial (get_arg_or "key" "-" e) rmem).

(** hbbr's [main]: the environment has the values of .env already; [m] is the command line. *)
Record HbbrArgs := mkHbbrArgs { r_bind : option IpAddr; r_port : string; r_key : string }.

Definition hbbr_port (e : Environ) : Z :=
  match get_arg_opt "PORT" e with
  | Some v =>
      let v := default 0 (parse_i32 v) in
      if 0 <? v then wrap_i32 (v + 1) else RELAY_PORT
  | None => RELAY_PORT
  end.

Definition hbbr_main (m : Matches) (e : Environ) : result SettingError HbbrArgs :=
  let port := hbbr_port e in
  let bind := default (get_arg "BIND" e) (value_of "bind" m) in
  let? bind := parse_bind_address bind in
  let key := default (get_arg "KEY" e) (value_of "key" m) in
  Ok (mkHbbrArgs bind (default (show_Z port) (value_of "port" m)) key).

(** The sockets of hbbs: UDP and TCP at the port, the port before it for the NAT test, and
    the one two after it for websockets, with the console's own listener if it needs one. *)
Definition nat_port (port : Z) : Z := wrap_i32 (port - 1).
Definition ws_port (port : Z) : Z := wrap_i32 (port + 2).

Definition hbbs_ports (port : Z) : list Z :=
  wrap_u16 <$> [port; nat_port port; ws_port port].

(** hbbr's: the port and the one two after it. *)
Definition hbbr_ports (port : string) : result SettingError (list Z) :=
  let? p := ok_or (parse_u16 port) BadNumber in Ok [p; wrap_u16 (p + 2)].

End Programs.

(** ** Facts *)

(** *** Arguments *)

Lemma str_map_map (f g : ascii -> ascii) (s : string) :
  str_map f (str_map g s) = str_map (fun c => f (g c)) s.
Proof. induction s as [|c s IH]; [done|]. simpl. by rewrite IH. Qed.

Lemma str_map_ext (f g : ascii -> ascii) (s : string) :
  (forall c, f c = g c) -> str_map f s = str_map g s.
Proof. intros H. induction s as [|c s IH]; [done|]. simpl. by rewrite H, IH. Qed.

Lemma alias_name (name a : string) : a ∈ aliases name -> arg_name a = arg_name name.
Proof.
  unfold aliases, arg_name, replace_char, to_uppercase, to_lowercase.
  rewrite !elem_of_cons, elem_of_nil.
  intros [-> | [-> | [-> | [-> | []]]]]; rewrite !str_map_map; apply str_map_ext; intros c; all_ascii c.
Qed.

(** A variable that some spelling of [name] finds. *)
Definition spells (name : string) (e : Environ) (k v : string) : Prop :=
  arg_name k = arg_name name /\ e !! k = Some (Some v).

Lemma env_var_Some (e : Environ) (k v : string) : env_var e k = Some v <-> e !! k = Some (Some v).
Proof. unfold env_var. by destruct (e !! k) as [[w|]|]; simpl; split; intros [= ->]. Qed.

Lemma string_leb_total (a b : string) : String.leb a b = false -> String.leb b a = true.
Proof. intros H. destruct (String.leb_total a b) as [H'|H']; [congruence|done]. Qed.

(** Variables that agree on the spellings of a name give it the same value. *)
Lemma get_arg_opt_agree (name : string) (e e' : Environ) :
  (forall k, arg_name k = arg_name name -> e !! k = e' !! k) ->
  get_arg_opt name e = get_arg_opt name e'.
Proof.
  intros H. unfold get_arg_opt.
  assert (omap (env_var e) (aliases name) = omap (env_var e') (aliases name)) as ->.
  { assert (Hin : forall a, a ∈ aliases name -> env_var e a = env_var e' a).
    { intros a Ha. unfold env_var. by rewrite (H a (alias_name name a Ha)). }
    revert Hin. generalize (aliases name). intros l Hin. induction l as [|a l IH]; [done|].
    simpl. rewrite (Hin a) by left. unfold omap in IH. rewrite IH; [done|]. intros b Hb. apply Hin. by right. }
  assert (forall f : string -> option string -> option string,
    map_imap (fun k v => if bool_decide (arg_name k = arg_name name) then f k v else None) e =
    map_imap (fun k v => if bool_decide (arg_name k = arg_name name) then f k v else None) e') as Hmap.
  { intros f. apply map_eq. intros k. rewrite !map_lookup_imap.
    case_bool_decide as Hk; [by rewrite (H k Hk)|]. by destruct (e !! k), (e' !! k). }
  by rewrite (Hmap (fun _ v => v)).
Qed.

Lemma string_leb_trans (a b c : string) :
  String.leb a b = true -> String.leb b c = true -> String.leb a c = true.
Proof.
  unfold String.leb. revert b c.
  induction a as [|x a IH]; intros [|y b] [|z c]; simpl; try done.
  specialize (IH b c). unfold Ascii.compare.
  destruct (N.compare_spec (N_of_ascii x) (N_of_ascii y)) as [E|E|E]; [| |done];
    destruct (N.compare_spec (N_of_ascii y) (N_of_ascii z)) as [E'|E'|E']; try done;
    destruct (N.compare_spec (N_of_ascii x) (N_of_ascii z)) as [E''|E''|E'']; try done; lia.
Qed.

Lemma head_omap_env (e : Environ) (l : list string) :
  match head (omap (env_var e) l) with
  | Some v => exists k, k ∈ l /\ e !! k = Some (Some v)
  | None => forall k v, k ∈ l -> e !! k <> Some (Some v)
  end.
Proof.
  induction l as [|a l IH]; [intros k v Hk; by apply elem_of_nil in Hk|].
  change (omap (env_var e) (a :: l)) with
    (match env_var e a with Some v => v :: omap (env_var e) l | None => omap (env_var e) l end).
  destruct (env_var e a) as [v|] eqn:E; simpl.
  - exists a. split; [by left|]. by apply env_var_Some.
  - destruct (head (omap (env_var e) l)) as [v|].
    + destruct IH as (k & Hk & Hv). exists k. split; [by right|done].
    + intros k v Hk Hv. apply elem_of_cons in Hk as [->|Hk]; [|by apply (IH k v)].
      apply env_var_Some in Hv. congruence.
Qed.

(** an argument is found under every spelling of its name, in either case and with dashes
    or underscores, and only there: the lookup gives nothing exactly when no variable spelled
    so has a text for a value.  The four usual spellings come first; among the others, the
    first in alphabetical order. *)
Theorem arguments_found (name : string) (e : Environ) :
  match get_arg_opt name e with
  | Some v => exists k, spells name e k v /\
      (k ∈ aliases name \/
       forall k' v', spells name e k' v' -> (k' ∉ aliases name) /\ String.leb k k' = true)
  | None => forall k v, ~ spells name e k v
  end.
Proof.
  unfold get_arg_opt. pose proof (head_omap_env e (aliases name)) as Hal.
  destruct (head (omap (env_var e) (aliases name))) as [v|].
  { destruct Hal as (k & Hk & Hv). exists k. split; [|by left]. split; [by apply alias_name|done]. }
  set (others := map_imap _ e).
  assert (Hin : forall k v, others !! k = Some v <-> spells name e k v).
  { intros k v. unfold others, spells. rewrite map_lookup_imap.
    destruct (e !! k) as [w|]; simpl; [|split; [done|by intros [_ [=]]]].
    case_bool_decide as Hk; [|split; [done|by intros [? _]]].
    split; [by intros ->|by intros [_ [= ->]]]. }
  pose proof (sort_by_sorted (fun a b : string * string => String.leb a.1 b.1)
    (fun a b c => string_leb_trans a.1 b.1 c.1) (fun a b => string_leb_total a.1 b.1)
    (map_to_list others)) as Hs.
  assert (Hel : forall k v, (k, v) ∈ sort_by (fun a b : string * string => String.leb a.1 b.1)
    (map_to_list others) <-> spells name e k v).
  { intros k v. rewrite elem_of_sort_by, elem_of_map_to_list. apply Hin. }
  destruct (sort_by _ _) as [|[k v] l]; simpl.
  - intros k v Hk. by apply Hel, elem_of_nil in Hk.
  - exists k. split; [apply Hel; by left|]. right. intros k' v' Hk'. split.
    + intros Ha. by apply (Hal k' v' Ha), Hk'.
    + apply Hel in Hk'. inversion Hs as [|? ? _ Hall]; subst.
      apply elem_of_cons in Hk' as [[= -> ->]|Hk'].
      * by destruct (String.leb_total k k).
      * rewrite Forall_forall in Hall. apply (Hall _ Hk').
Qed.

(** The last of some settings that sets an argument. *)
Fixpoint last_setting (name : string) (kvs : list (string * string)) : option string :=
  match kvs with
  | [] => None
  | (k, v) :: kvs =>
      match last_setting name kvs with
      | Some w => Some w
      | None => if bool_decide (arg_name k = arg_name name) then Some v else None
      end
  end.

Lemma arg_name_idemp (name : string) : arg_name (arg_name name) = arg_name name.
Proof. apply alias_name. by left. Qed.

Lemma set_arg_spec (name k v : string) (e e' : Environ) : set_arg k v e = Some e' ->
  get_arg_opt name e' =
    if bool_decide (arg_name k = arg_name name) then Some v else get_arg_opt name e.
Proof.
  unfold set_arg. destruct (settable _ _); [|done]. intros [= <-]. case_bool_decide as Hk.
  - unfold get_arg_opt, aliases. cbn. unfold env_var at 1. rewrite <- Hk, lookup_insert_eq. done.
  - apply get_arg_opt_agree. intros k' Hk'. apply lookup_insert_ne. intros <-.
    by rewrite arg_name_idemp in Hk'.
Qed.

Lemma set_args_spec (name : string) (kvs : list (string * string)) (e e' : Environ) :
  set_args kvs e = Some e' ->
  get_arg_opt name e' =
    match last_setting name kvs with Some v => Some v | None => get_arg_opt name e end.
Proof.
  revert e. induction kvs as [|[k v] kvs IH]; intros e; simpl; [by intros [= ->]|].
  destruct (set_arg k v e) as [e1|] eqn:E; simpl; [|done]. intros H.
  rewrite (IH _ H), (set_arg_spec name _ _ _ _ E).
  destruct (last_setting name kvs); [done|]. by case_bool_decide.
Qed.

(** C34: which of the places an argument is set in counts: the command line before the file
    named by its [--config], that before the file [.env], and that before the environment,
    whatever the spelling in each; in one place the last setting counts. *)
Theorem argument_precedence (ini : string -> option (list (string * string))) (m : Matches)
    (e e' : Environ) (name : string) :
  init_args ini m e = Some e' ->
  get_arg_opt name e' =
    match last_setting name (matched m) with
    | Some v => Some v
    | None =>
        match (let! config := value_of "config" m in last_setting name (default [] (ini config))) with
        | Some v => Some v
        | None =>
            match last_setting name (default [] (ini ".env")) with
            | Some v => Some v
            | None => get_arg_opt name e
            end
        end
    end.
Proof.
  unfold init_args. destruct (set_args (default [] (ini ".env")) e) as [e1|] eqn:E1; simpl; [|done].
  destruct (value_of "config" m) as [config|]; simpl.
  - destruct (set_args (default [] (ini config)) e1) as [e2|] eqn:E2; simpl; [|done]. intros E3.
    by rewrite (set_args_spec name _ _ _ E3), (set_args_spec name _ _ _ E2), (set_args_spec name _ _ _ E1).
  - intros E3. by rewrite (set_args_spec name _ _ _ E3), (set_args_spec name _ _ _ E1).
Qed.

(** *** Ports *)

(** Whether a connection to an address meets a listener: an address with no host part stands
    for all of its family, [::] for IPv4 too when the system lets it ([dual]). *)
Definition meets (dual : bool) (l : Listen) (a : SocketAddr) : bool :=
  match l with
  | ListenAny port => port =? socket_port a
  | ListenAt b =>
      (socket_port b =? socket_port a) &&
      (bool_decide (socket_ip b = socket_ip a) ||
       match socket_ip b, socket_ip a with
       | V4 0, V4 _ => true
       | V6 0, V6 _ => true
       | V6 0, V4 _ => dual
       | _, _ => false
       end)
  end.

Lemma socket_ip_new (ip : IpAddr) (port : Z) : socket_ip (socket_new ip port) = ip.
Proof. by destruct ip. Qed.

Lemma socket_port_new (ip : IpAddr) (port : Z) : socket_port (socket_new ip port) = port.
Proof. by destruct ip. Qed.

(** whatever the address the server is bound to, the console can be reached at 127.0.0.1:
    through the listener of the port itself or through one of its own, which is opened only
    when the other does not serve 127.0.0.1, and which no other address reaches. *)
Theorem console_reached_locally (dual : bool) (bind : option IpAddr) (port : Z) :
  (bind = Some UNSPECIFIED_V6 -> dual = true) ->
  let here := socket_new LOCALHOST_V4 port in
  meets dual (listen_tcp bind port) here = negb (bool_decide (is_Some (listen_console bind port))) /\
  forall l, listen_console bind port = Some l ->
    meets dual l here = true /\ forall a, meets dual l a = true -> socket_ip a = LOCALHOST_V4.
Proof.
  intros Hdual here. subst here. unfold listen_console, console_addr, listen_tcp.
  destruct bind as [ip|]; simpl; [|by rewrite Z.eqb_refl].
  assert (Hown : forall a, meets dual (ListenAt (socket_new LOCALHOST_V4 port)) a = true ->
    socket_ip a = LOCALHOST_V4).
  { intros a H. simpl in H. apply andb_prop in H as [_ H]. apply orb_prop in H as [H|H]; [|done].
    symmetry. by apply bool_decide_eq_true in H. }
  unfold meets. rewrite !socket_port_new, !socket_ip_new, Z.eqb_refl. cbn [andb].
  destruct (decide (ip = LOCALHOST_V4)) as [->|Hne]; [done|].
  repeat rewrite (bool_decide_eq_false_2 (ip = LOCALHOST_V4)) by done.
  rewrite orb_false_r. destruct (is_unspecified ip) eqn:Hu; simpl.
  - destruct ip as [a|a]; simpl in Hu; apply Z.eqb_eq in Hu as ->; [done|]. by rewrite Hdual.
  - split; [destruct ip as [[]|[]]; simpl in *; done|]. intros l [= <-].
    split; [simpl; by rewrite Z.eqb_refl|exact Hown].
Qed.

Section PortFacts.
  Context {hbb : HbbCommon} {laws : HbbCommonLaws hbb}.

(** A port of hbbs that leaves room for the ports beside it, hbbr's included. *)
Definition port_fits (p : Z) : Prop := 3 <= p <= 65532.

Lemma wrap_i32_small (z : Z) : - 2 ^ 31 <= z < 2 ^ 31 -> wrap_i32 z = z.
Proof. intros H. unfold wrap_i32. rewrite Z.mod_small; lia. Qed.

Lemma wrap_u16_small (z : Z) : 0 <= z < 2 ^ 16 -> wrap_u16 z = z.
Proof. apply Z.mod_small. Qed.

Lemma hbbs_ports_fit (p : Z) : port_fits p -> hbbs_ports p = [p; p - 1; p + 2].
Proof.
  intros Hp. unfold port_fits in Hp. unfold hbbs_ports, nat_port, ws_port. simpl.
  by rewrite !wrap_i32_small, !wrap_u16_small by lia.
Qed.

(** A number printed and read back. *)
Lemma digits_val_go (x : N) (s : string) : digits_val 0 (pretty_N_go x s) = digits_val (Z.of_N x) s.
Proof.
  revert s. induction (N.lt_wf_0 x) as [x _ IH]; intros s.
  assert (x = 0 \/ 0 < x)%N as [->|Hx] by lia; [by rewrite pretty_N_go_0|].
  rewrite pretty_N_go_step, IH by (try done; by apply N.div_lt).
  assert (Hc : forall d, (d < 10)%N -> is_ascii_digit (pretty_N_char d) = true /\
    digit_val (pretty_N_char d) = Z.of_N d).
  { intros d Hd. assert (d = 0 \/ d = 1 \/ d = 2 \/ d = 3 \/ d = 4 \/ d = 5 \/ d = 6 \/ d = 7 \/ d = 8 \/ d = 9)%N
      as Hcase by lia. destruct_or! Hcase; by subst. }
  destruct (Hc (x `mod` 10)%N) as [E1 E2]; [by apply N.mod_lt|].
  cbn [digits_val]. rewrite E1, E2. f_equal.
  pose proof (N.div_mod x 10 ltac:(done)). lia.
Qed.

Lemma go_nonempty (x : N) (s : string) : s <> "" -> exists c t, pretty_N_go x s = String c t /\
  (s = String c t \/ is_ascii_digit c = true).
Proof.
  revert s. induction (N.lt_wf_0 x) as [x _ IH]; intros s Hs.
  assert (x = 0 \/ 0 < x)%N as [->|Hx] by lia.
  { rewrite pretty_N_go_0. destruct s as [|c t]; [done|]. exists c, t. auto. }
  rewrite pretty_N_go_step by done.
  destruct (IH (x `div` 10)%N ltac:(by apply N.div_lt) (String (pretty_N_char (x `mod` 10)) s))
    as (c & t & E & H); [done|].
  exists c, t. split; [done|]. right. destruct H as [[= <- <-]|H]; [|done].
  unfold pretty_N_char. by repeat case_match.
Qed.

Lemma parse_digits_show (z : Z) : 0 < z ->
  exists c t, show_Z z = String c t /\ is_ascii_digit c = true /\ parse_digits (show_Z z) = Some z.
Proof.
  intros Hz. rewrite show_pos by done.
  assert (Hg : exists c t, pretty_N_go (Z.to_N z) "" = String c t /\ is_ascii_digit c = true).
  { rewrite pretty_N_go_step by lia.
    destruct (go_nonempty (Z.to_N z `div` 10)%N (String (pretty_N_char (Z.to_N z `mod` 10)) ""))
      as (c & t & E & H); [done|].
    exists c, t. split; [done|]. destruct H as [[= <- <-]|H]; [|done].
    unfold pretty_N_char. by repeat case_match. }
  destruct Hg as (c & t & E & Hc). exists c, t. split_and!; [done..|].
  unfold parse_digits. rewrite E. simpl str_nonempty. rewrite <- E, digits_val_go. simpl. f_equal. lia.
Qed.

Lemma digit_not_sign (c d : ascii) (t : string) : is_ascii_digit c = true -> is_ascii_digit d = false ->
  strip_prefix (String d "") (String c t) = None.
Proof. intros Hc Hd. simpl. case_decide as H; [congruence|done]. Qed.

(** A positive number that fits is read back as it was printed. *)
Lemma parse_unsigned_show (max z : Z) : 0 < z <= max -> parse_unsigned max (show_Z z) = Some z.
Proof.
  intros Hz. destruct (parse_digits_show z ltac:(lia)) as (c & t & E & Hc & Hp).
  unfold parse_unsigned. rewrite E, digit_not_sign by done. cbn [default]. rewrite <- E, Hp. simpl.
  by destruct (Z.leb_spec z max); [|lia].
Qed.

Lemma parse_i32_show (z : Z) : 0 < z < 2 ^ 31 -> parse_i32 (show_Z z) = Some z.
Proof.
  intros Hz. destruct (parse_digits_show z ltac:(lia)) as (c & t & E & Hc & Hp).
  unfold parse_i32. rewrite E, digit_not_sign by done. rewrite <- E. apply parse_unsigned_show. lia.
Qed.

(** hbbs and hbbr that read the same settings never want the same port: hbbr, unless told
    otherwise, listens at the port after hbbs's and at the third after it, hbbs at its port, the
    one before it and the second after it, whether the port is set or the default, as long
    as these are all port numbers. *)
Theorem ports_never_clash (e : Environ) (m : Matches) (a : HbbsArgs) (b : HbbrArgs) :
  hbbs_main e = Ok a -> hbbr_main m e = Ok b -> value_of "port" m = None -> port_fits (h_port a) ->
  hbbs_ports (h_port a) = [h_port a; h_port a - 1; h_port a + 2] /\
  hbbr_ports (r_port b) = Ok [h_port a + 1; h_port a + 3] /\
  NoDup (hbbs_ports (h_port a) ++ [h_port a + 1; h_port a + 3]).
Proof.
  intros Ha Hb Hm Hfit.
  assert (Hport : hbbr_port e = h_port a + 1).
  { revert Ha. unfold hbbs_main, hbbr_port, get_arg_or, ok_or.
    change (get_arg_opt "PORT" e) with (get_arg_opt "port" e).
    destruct (get_arg_opt "port" e) as [v|]; simpl.
    - destruct (parse_i32 v) as [p|] eqn:E; simpl; [|done].
      destruct (Z.ltb_spec p 3) as [|Hp]; [done|].
      destruct (parse_bind_address _); simpl; [|done]. intros [= <-]. cbn in *. unfold port_fits in Hfit.
      destruct (Z.ltb_spec 0 p); [|lia]. apply wrap_i32_small. lia.
    - pose proof relay_port_range. pose proof default_ports. unfold u16_max in *.
      destruct (parse_i32 (show_Z RENDEZVOUS_PORT)) as [p|] eqn:E; simpl; [|done].
      destruct (Z.ltb_spec p 3) as [|Hp]; [done|].
      destruct (parse_bind_address _); simpl; [|done]. intros [= <-]. cbn in *.
      assert (RENDEZVOUS_PORT = 0 \/ 0 < RENDEZVOUS_PORT) as [H1|H1] by lia.
      { rewrite H1 in E. vm_compute in E. injection E as <-. lia. }
      rewrite parse_i32_show in E by lia. injection E as <-. done. }
  split; [by apply hbbs_ports_fit|]. split.
  - revert Hb. unfold hbbr_main. rewrite Hm, Hport. destruct (parse_bind_address _); simpl; [|done].
    intros [= <-]. unfold hbbr_ports, parse_u16, port_fits, u16_max in *. cbn [r_port].
    rewrite parse_unsigned_show by lia. simpl. rewrite wrap_u16_small by lia.
    by replace (h_port a + 1 + 2) with (h_port a + 3) by lia.
  - rewrite hbbs_ports_fit by done. apply (bool_decide_eq_true_1 (NoDup _)).
    unfold port_fits in Hfit. clear -Hfit. apply bool_decide_eq_true_2.
    repeat (constructor; [rewrite ?elem_of_cons, elem_of_nil; lia|]). constructor.
Qed.

End PortFacts.

(** ** Examples *)

#[local] Existing Instance example_hbb.
#[local] Existing Instance example_hbb_laws.

(** The port in the environment, in .env, in a file and on the command line. *)
Definition example_ini (file : string) : option (list (string * string)) :=
  if bool_decide (file = ".env") then Some [("port", "30"); ("relay_servers", "a"); ("relay-servers", "b")]
  else if bool_decide (file = "hbbs.conf") then Some [("Port", "40"); ("KEY", "k")] else None.

Definition example_environ : Environ := {["PORT" := Some "20"; "MUST_LOGIN" := Some "y"]}.

Lemma argument_precedence_witness :
  exists e, init_args example_ini [("config", ["hbbs.conf"]); ("port", ["50"])] example_environ = Some e /\
    get_arg_opt "port" e = Some "50" /\ get_arg_opt "key" e = Some "k" /\
    get_arg_opt "relay-servers" e = Some "b" /\ get_arg_opt "must-login" e = Some "y".
Proof.
  destruct (init_args example_ini [("config", ["hbbs.conf"]); ("port", ["50"])] example_environ) as [e|] eqn:E;
    [|vm_compute in E; discriminate].
  exists e. split; [reflexivity|].
  pose proof (fun name => argument_precedence _ _ _ _ name E) as H.
  split; [rewrite (H "port")|split; [rewrite (H "key")|split; [rewrite (H "relay-servers")|rewrite (H "must-login")]]];
    vm_compute; reflexivity.
Defined.

Lemma console_reached_locally_witness :
  listen_console (Some (V4 3405803783)) 21115 = Some (ListenAt (SocketV4 2130706433 21115)) /\
  meets true (ListenAt (SocketV4 2130706433 21115)) (SocketV4 2130706433 21115) = true /\
  meets true (listen_tcp (Some (V4 3405803783)) 21115) (SocketV4 2130706433 21115) = false.
Proof.
  destruct (console_reached_locally true (Some (V4 3405803783)) 21115 ltac:(done)) as [H1 H2].
  split; [reflexivity|]. split; [exact (proj1 (H2 _ eq_refl))|exact H1].
Defined.

Lemma ports_never_clash_witness :
  exists a b, hbbs_main {["Port" := Some "21116"]} = Ok a /\ hbbr_main [] {["Port" := Some "21116"]} = Ok b /\
    hbbs_ports (h_port a) = [21116; 21115; 21118] /\ hbbr_ports (r_port b) = Ok [21117; 21119] /\
    NoDup [21116; 21115; 21118; 21117; 21119].
Proof.
  exists (mkHbbsArgs None 21116 0 "-" 0), (mkHbbrArgs None "21117" "").
  assert (Ha : hbbs_main {["Port" := Some "21116"]} = Ok (mkHbbsArgs None 21116 0 "-" 0))
    by (vm_compute; reflexivity).
  assert (Hb : hbbr_main [] {["Port" := Some "21116"]} = Ok (mkHbbrArgs None "21117" ""))
    by (vm_compute; reflexivity).
  destruct (ports_never_clash _ _ _ _ Ha Hb eq_refl ltac:(split; simpl; lia)) as (H1 & H2 & H3).
  split; [exact Ha|]. split; [exact Hb|]. split; [exact H1|]. split; [exact H2|].
  rewrite H1 in H3. exact H3.
Defined.
