(* ===== verification/Common.v ===== *)
(** * Signals, optional listeners and the version check ([src/src/common.rs])

    Both servers run their main task beside [listen_signal] and end with whichever ends
    first; a listener that is not there is one that never accepts; and hbbs asks once a day
    whether a newer version was published, which it only reports. *)

From S2P Require Import Prelude RustStr.
From Stdlib Require Import Ascii.

Local Open Scope Z_scope.

(** ** Listeners that may be missing *)

(** [accept_or_pending], asked whether it is ready: without a listener it never is. *)
Definition accept_or_pending {L C} (accept : L -> option C) (listener : option L) : option C :=
  match listener with Some l => accept l | None => None end.

(** ** Signals *)

Inductive Signal := SIGTERM | SIGINT | SIGQUIT | OtherSignal (n : Z).

Definition awaited (s : Signal) : bool :=
  match s with SIGTERM | SIGINT | SIGQUIT => true | OtherSignal _ => false end.

(** [listen_signal] as built for Unix, after the signals in [arrived]; [None] while it
    waits.  The three handlers are installed in this order, and the first that cannot be
    ends it. *)
Definition listen_signal {E} (install : Signal -> option E) (arrived : list Signal)
    : option (result E unit) :=
  match install SIGTERM, install SIGINT, install SIGQUIT with
  | Some e, _, _ | None, Some e, _ | None, None, Some e => Some (Err e)
  | None, None, None => if existsb awaited arrived then Some (Ok tt) else None
  end.

(** [tokio::select!] over the main task and the signals: one that has ended, either of them
    when both have, and nothing while neither has. *)
Inductive select {A} (main signal : option A) : option A -> Prop :=
| SelectMain r : main = Some r -> select main signal (Some r)
| SelectSignal r : signal = Some r -> select main signal (Some r)
| SelectNone : main = None -> signal = None -> select main signal None.

(** A server runs until its main task ends or one of the three signals comes. *)
Lemma server_runs_until {E} (install : Signal -> option E) arrived (main : option (result E unit)) r :
  (forall s, install s = None) -> select main (listen_signal install arrived) r ->
  r = None <-> main = None /\ existsb awaited arrived = false.
Proof.
  intros Hi Hs. unfold listen_signal in Hs. rewrite !Hi in Hs.
  destruct Hs as [x Hm|x H|Hm H]; subst; [by split; [|intros []]| |].
  - split; [done|]. intros [_ E0]. by rewrite E0 in H.
  - split; [|done]. destruct (existsb awaited arrived); [done|by split].
Qed.

(** It ends without an error when it ends by a signal. *)
Lemma stops_cleanly {E} (install : Signal -> option E) arrived r :
  (forall s, install s = None) -> existsb awaited arrived = true ->
  select None (listen_signal install arrived) r -> r = Some (Ok tt).
Proof.
  intros Hi Ha Hs. unfold listen_signal in Hs. rewrite !Hi, Ha in Hs.
  destruct Hs as [x H|x H|_ H]; by simplify_eq.
Qed.

(** ** The version check *)

Section VersionCheck.
  (** hbb_common's [get_version_number], the version this program was built as, and what
      [serde_json] makes of the answer: its [url]. *)
  Context (get_version_number : string -> Z) (VERSION : string) (response_url : string -> option string).

Inductive UpdateError := HttpFailed | NotAResponse.

(** The text after the last slash. *)
Definition latest_version (url : string) : string :=
  match rsplit_once "/" url with Some (_, v) => v | None => url end.

(** [check_software_update_], the body of the answer being [None] when the request or the
    transfer failed; gives the version it reports, if any. *)
Definition check_software_update_ (body : option string) : result UpdateError (option string) :=
  let? bytes := ok_or body HttpFailed in
  let? url := ok_or (response_url bytes) NotAResponse in
  let latest := latest_version url in
  Ok (if get_version_number VERSION <? get_version_number latest then Some latest else None).

(** [check_software_update]: a check each day, whatever became of the last one; what is
    reported. *)
Definition check_software_update (days : list (option string)) : list string :=
  omap (fun body => mjoin (result_ok (check_software_update_ body))) days.

Lemma no_slash_after_last url a v : rsplit_once "/" url = Some (a, v) -> contains_char "/" v = false.
Proof.
  revert a. induction url as [|c url IH]; intros a; [done|]. cbn [rsplit_once].
  destruct (rsplit_once "/" url) as [[a' v']|] eqn:E.
  - intros [= <- <-]. by eapply IH.
  - case_decide; [|done]. intros [= <- <-]. clear -E. induction url as [|c url IH]; [done|].
    cbn [rsplit_once] in E. destruct (rsplit_once "/" url) as [[]|]; [done|].
    case_decide as Hc; [done|]. unfold contains_char. cbn [str_exists].
    rewrite bool_decide_eq_false_2 by done. by apply IH.
Qed.

(** Only versions newer than this one are reported, and a day without an answer changes
    nothing for the others. *)
Lemma reported_versions_are_newer days v :
  v ∈ check_software_update days -> get_version_number VERSION < get_version_number v.
Proof.
  unfold check_software_update. rewrite list_elem_of_omap. intros (body & _ & Hv).
  unfold check_software_update_ in Hv. destruct body as [b|]; [|done]. cbn in Hv.
  destruct (response_url b) as [url|]; [|done]. cbn in Hv.
  destruct (_ <? _) eqn:E in Hv; [|done]. injection Hv as <-. by apply Z.ltb_lt.
Qed.

Lemma check_software_update_app d1 d2 :
  check_software_update (d1 ++ d2) = check_software_update d1 ++ check_software_update d2.
Proof. apply omap_app. Qed.

End VersionCheck.

Example latest_version_examples :
  latest_version <$> ["https://github.com/rustdesk/rustdesk-server/releases/tag/1.1.14"; "1.2"; "x/"]
  = ["1.1.14"; "1.2"; ""].
Proof. reflexivity. Qed.
