(* ===== verification/DbOpen.v ===== *)
(** * Opening the peer database ([src/src/database.rs], [Database::new]; [src/src/peer.rs],
    [PeerMap::new])

    The place of the database is an argument; a file that is not there is made, empty, and
    the table [peer] is created unless it exists.  What sqlx makes of the place
    ([SqliteConnectOptions::from_str]) is a parameter; a connection is handed out by a pool
    (deadpool) that waits while all it may open are in use.  A file is blank (a database
    without the table), holds the table, or is anything else. *)

From S2P Require Import Prelude RustStr Net External Guards PeerStore Settings.

Local Open Scope Z_scope.

Inductive DbFile := Blank | Tables (db : Database) | OtherContents.

(** The file a place stands for. *)
Class SqliteLib : Type := { sqlite_file : string -> option string }.

(** What the calls meet: whether a file can be made, and whether the connection works. *)
Record OpenEnv := mkOpenEnv { can_make : bool; can_connect : bool }.

Inductive OpenOutcome A := Opened (a : A) | OpenFailed (e : DbError) | OpenWaits | OpenPanics.
Arguments Opened {A}.
Arguments OpenFailed {A}.
Arguments OpenWaits {A}.
Arguments OpenPanics {A}.

Section DbOpen.
  Context {sqlite : SqliteLib}.

(** [create table if not exists peer ...] and its indexes. *)
Definition create_tables (file : DbFile) : result DbError (Database * DbFile) :=
  match file with
  | Blank => Ok (mkDb [], Tables (mkDb []))
  | Tables db => Ok (db, Tables db)
  | OtherContents => Err DbUnavailable
  end.

(** How many connections the pool may open. *)
Definition max_connections (e : Environ) : Z :=
  default 1 (parse_usize (get_arg_or "MAX_DATABASE_CONNECTIONS" "1" e)).

(** [File::create] for a file that is not there; its failure is ignored. *)
Definition make_file (env : OpenEnv) (url : string) (disk : gmap string DbFile) : gmap string DbFile :=
  match disk !! url with
  | Some _ => disk
  | None => if can_make env then <[url := Blank]> disk else disk
  end.

Definition database_new (env : OpenEnv) (e : Environ) (url : string) (disk : gmap string DbFile)
    : OpenOutcome Database * gmap string DbFile :=
  let disk := make_file env url disk in
  if max_connections e =? 0 then (OpenWaits, disk)
  else
    match sqlite_file url with
    | None => (OpenPanics, disk)
    | Some f =>
        match disk !! f with
        | Some file =>
            if can_connect env then
              match create_tables file with
              | Ok (db, file) => (Opened db, <[f := file]> disk)
              | Err err => (OpenFailed err, disk)
              end
            else (OpenFailed DbUnavailable, disk)
        | None => (OpenFailed DbUnavailable, disk)
        end
    end.

(** The place of the database where the server is not built for Windows. *)
Definition db_url (e : Environ) : string := default "./db_v2.sqlite3" (get_arg_opt "DB_URL" e).

Definition peer_map_new (env : OpenEnv) (e : Environ) (disk : gmap string DbFile)
    : OpenOutcome PeerMap * gmap string DbFile :=
  let '(o, disk) := database_new env e (db_url e) disk in
  (match o with
   | Opened db => Opened (pm_new db)
   | OpenFailed err => OpenFailed err
   | OpenWaits => OpenWaits
   | OpenPanics => OpenPanics
   end, disk).

(** ** Facts *)

Lemma make_file_keeps env url disk f x : disk !! f = Some x -> make_file env url disk !! f = Some x.
Proof.
  intros E. unfold make_file. destruct (disk !! url) eqn:Eu; [done|].
  destruct (can_make env); [|done]. rewrite lookup_insert_ne; [done|]. intros ->. congruence.
Qed.

(** Opening loses nothing, whatever fails: every table there is keeps its rows, and no other
    file than a blank one is changed. *)
Theorem opening_loses_nothing env e url disk f x :
  disk !! f = Some x ->
  (database_new env e url disk).2 !! f = Some x \/
  x = Blank /\ sqlite_file url = Some f /\ (database_new env e url disk).2 !! f = Some (Tables (mkDb [])).
Proof.
  intros E. apply (make_file_keeps env url) in E. unfold database_new.
  destruct (max_connections e =? 0); [by left|]. destruct (sqlite_file url) as [g|]; [|by left].
  destruct (make_file env url disk !! g) as [file|] eqn:Eg; [|by left].
  destruct (can_connect env); [|by left].
  destruct file as [|db|]; simpl; [| |by left]; destruct (decide (g = f)) as [->|Hne];
    rewrite ?lookup_insert_eq, ?lookup_insert_ne by done; try by left.
  - right. split; [congruence|done].
  - left. congruence.
Qed.

(** When the place is that of a file, can be made and reached, the server starts: with the
    rows there are, or with none when there was no file. *)
Theorem server_opens_its_rows env e disk :
  can_make env = true -> can_connect env = true -> max_connections e <> 0 ->
  sqlite_file (db_url e) = Some (db_url e) -> disk !! db_url e <> Some OtherContents ->
  exists db, peer_map_new env e disk = (Opened (pm_new db), <[db_url e := Tables db]> disk) /\
    (disk !! db_url e = Some (Tables db) \/ db = mkDb [] /\ forall d, disk !! db_url e <> Some (Tables d)).
Proof.
  intros Hm Hc Hn Hf Ho. unfold peer_map_new, database_new, make_file. rewrite Hm, Hc, Hf.
  rewrite (proj2 (Z.eqb_neq _ _) Hn).
  destruct (disk !! db_url e) as [[|db|]|] eqn:E; rewrite ?lookup_insert_eq, ?E; simpl; try done.
  - exists (mkDb []). split; [done|]. right. by split.
  - exists db. by auto.
  - exists (mkDb []). split; [by rewrite insert_insert_eq|]. right. by split.
Qed.

(** A limit of no connections at all is accepted, and the server waits for ever. *)
Theorem no_connections_waits env e disk :
  get_arg_opt "MAX_DATABASE_CONNECTIONS" e = Some "0" -> (peer_map_new env e disk).1 = OpenWaits.
Proof.
  intros E. unfold peer_map_new, database_new, max_connections, get_arg_or. by rewrite E.
Qed.

End DbOpen.
