(* ===== verification/KeyFiles.v ===== *)
(** * The server's key pair on disk ([src/src/common.rs], [get_server_sk])

    hbbs and hbbr identify themselves by an Ed25519 key pair kept in [id_ed25519] and
    [id_ed25519.pub].  [gen_sk] reads it, or makes it when there is none.  The file system
    is modelled at the level of the calls the code makes: names lead to inodes or are
    symbolic links, a file is written through the inode it was opened with, and every call
    can fail, as the happenings listed in the world decide (a failed write may have written
    a part), and other processes may act on the files between any two calls.  What the
    file system makes of a requested mode (the umask, or a file system without modes) is a
    parameter.  Error contexts are dropped, the kind of error is kept.  This is the code
    as built for Unix.

    The key pairs and their encoding (sodiumoxide, base64) and the atomic publication of a
    temporary file (tempfile) are classes with the laws the code relies on. *)

From S2P Require Import Prelude RustStr.
From Stdlib Require Import Ascii.

Local Open Scope Z_scope.

(** ** Libraries *)

Definition SECRETKEYBYTES : nat := 64.

(** [base64] and [sodiumoxide::crypto::sign]. *)
Class KeyLib : Type := {
  SecretKey : Type;
  b64_encode : string -> string;
  b64_decode : string -> option string;
  sk_from_slice : string -> option SecretKey;
  sk_bytes : SecretKey -> string;
  sk_public : SecretKey -> string;
}.

Class KeyLibLaws (L : KeyLib) : Prop := {
  b64_round : forall b, b64_decode (b64_encode b) = Some b;
  b64_trim : forall b, trim (b64_encode b) = b64_encode b;
  sk_round : forall sk, sk_from_slice (sk_bytes sk) = Some sk;
  sk_length : forall b, is_Some (sk_from_slice b) <-> String.length b = SECRETKEYBYTES;
  (** An Ed25519 secret key ends with its public key. *)
  sk_tail : forall b sk, sk_from_slice b = Some sk ->
    String.substring (SECRETKEYBYTES / 2) (SECRETKEYBYTES / 2) b = sk_public sk;
}.

(** ** Paths *)

(** Absolute or not, and the components. *)
Abbreviation FPath := (bool * list string)%type.

(** [PathBuf::pop] and [push]. *)
Definition pop (p : FPath) : FPath := (p.1, removelast p.2).
Definition push (p t : FPath) : FPath := if t.1 then t else (p.1, p.2 ++ t.2).

(** [Path::with_file_name]. *)
Definition with_file_name (p : FPath) (name : string) : FPath :=
  match last p.2 with
  | None | Some ".." => push p (false, [name])
  | Some _ => push (pop p) (false, [name])
  end.

(** ** Files *)

Inductive IoKind := NotFound | AlreadyExists | OtherIo.

Record Inode := mkInode { i_contents : string; i_mode : Z; i_dir : bool }.

Inductive Node := NFile (i : nat) | NLink (target : FPath).

Record FS := mkFS { fs_names : gmap FPath Node; fs_inodes : gmap nat Inode }.

(** What becomes of the mode asked for when a file is made and when it is changed. *)
Record Os := mkOs { os_create : Z -> Z; os_chmod : Z -> Z }.

(** [tempfile]: moving a temporary file to a name that is not taken. *)
Class TempFileLib : Type := {
  tf_persist : FPath -> FPath -> FS -> result IoKind FS;
}.

Class TempFileLaws (T : TempFileLib) : Prop := {
  tf_persist_Ok : forall from to fs fs', tf_persist from to fs = Ok fs' ->
    fs_names fs !! to = None /\
    exists n, fs_names fs !! from = Some n /\
      fs' = mkFS (<[to := n]> (delete from (fs_names fs))) (fs_inodes fs);
  tf_persist_taken : forall from to fs n,
    fs_names fs !! to = Some n -> tf_persist from to fs = Err AlreadyExists;
  tf_persist_free : forall from to fs n,
    fs_names fs !! to = None -> fs_names fs !! from = Some n ->
    tf_persist from to fs = Ok (mkFS (<[to := n]> (delete from (fs_names fs))) (fs_inodes fs));
}.

Inductive KeyError :=
| Io (k : IoKind)
| TooManySymlinks
| UnsafeInitialPermissions (mode : Z)
| WrongPermissions (mode : Z)
| RemoveFailed (k : KeyError)
| PublicKeyMismatch
| PublicKeyDisappeared
| MalformedPrivateKey.

(** What happens around one call: what other processes did to the files just before it,
    and whether it fails (a write, after [n] bytes). *)
Record Hap := mkHap { h_others : FS -> FS; h_fault : option nat }.

Definition fine : Hap := mkHap (fun fs => fs) None.

(** The files, what will happen around the calls to come (nothing, once the list is used
    up), and the states the files went through, latest first. *)
Record World := mkWorld { w_fs : FS; w_haps : list Hap; w_hist : list FS }.

Definition K (A : Type) : Type := World -> (result KeyError A * World)%type.

#[export] Instance K_ret : MRet K := fun A a w => (Ok a, w).
#[export] Instance K_bind : MBind K := fun A B f m w =>
  match m w with
  | (Ok a, w') => f a w'
  | (Err e, w') => (Err e, w')
  end.

Definition kfail {A} (e : KeyError) : K A := fun w => (Err e, w).
Definition kensure (b : bool) (e : KeyError) : K unit := if b then mret tt else kfail e.

(** The result of a call, for the code that looks at it. *)
Definition attempt {A} (m : K A) : K (result KeyError A) := fun w =>
  let '(r, w') := m w in (Ok r, w').

Definition of_result {A} (r : result KeyError A) : K A := fun w => (r, w).

(** One call: it fails as the world says or does what the file system does. *)
Definition sys {A} (partial : nat -> FS -> FS) (f : FS -> result IoKind (A * FS)) : K A := fun w =>
  let h := default fine (head (w_haps w)) in
  let fs := h_others h (w_fs w) in
  let '(r, fs') := match h_fault h with
                   | Some n => (Err (Io OtherIo), partial n fs)
                   | None => match f fs with
                             | Ok (a, fs') => (Ok a, fs')
                             | Err k => (Err (Io k), fs)
                             end
                   end in
  (r, mkWorld fs' (tail (w_haps w)) (fs' :: w_hist w)).

Definition intact : nat -> FS -> FS := fun _ fs => fs.

(** A call that changes nothing. *)
Definition query {A} (f : FS -> result IoKind A) : K A :=
  sys intact (fun fs => match f fs with Ok a => Ok (a, fs) | Err k => Err k end).

(** [fs::symlink_metadata] and [fs::read_link]. *)
Definition lstat (p : FPath) : K Node := query (fun fs => ok_or (fs_names fs !! p) NotFound).
Definition read_link (p : FPath) : K FPath :=
  query (fun fs => match fs_names fs !! p with
                   | Some (NLink t) => Ok t
                   | Some (NFile _) => Err OtherIo
                   | None => Err NotFound
                   end).

(** How the system follows links when it opens a file: at most 40 of them. *)
Definition SYSTEM_SYMLINKS : nat := 40.

Fixpoint follow (n : nat) (fs : FS) (p : FPath) : result IoKind nat :=
  match fs_names fs !! p with
  | None => Err NotFound
  | Some (NFile i) => Ok i
  | Some (NLink t) =>
      match n with
      | O => Err OtherIo
      | S n' => follow n' fs (push (pop p) t)
      end
  end.

(** [fs::File::open] for reading, [Path::exists]. *)
Definition open_read (p : FPath) : K nat := query (fun fs => follow SYSTEM_SYMLINKS fs p).
Definition path_exists (p : FPath) : K bool :=
  r ← attempt (open_read p); mret (is_ok r).

Definition inode_of (fs : FS) (h : nat) : Inode :=
  default (mkInode "" 0 false) (fs_inodes fs !! h).

(** [Read::read_to_string] of an open file, and [fs::read_to_string]. *)
Definition read_handle (h : nat) : K string :=
  query (fun fs => let i := inode_of fs h in if i_dir i then Err OtherIo else Ok (i_contents i)).
Definition read_to_string (p : FPath) : K string := h ← open_read p; read_handle h.

Definition fstat_mode (h : nat) : K Z := query (fun fs => Ok (i_mode (inode_of fs h))).

Definition set_inode (h : nat) (i : Inode) (fs : FS) : FS :=
  mkFS (fs_names fs) (<[h := i]> (fs_inodes fs)).

Definition fchmod (os : Os) (h : nat) (mode : Z) : K unit :=
  sys intact (fun fs =>
    let i := inode_of fs h in
    Ok (tt, set_inode h (mkInode (i_contents i) (os_chmod os mode) (i_dir i)) fs)).

(** [OpenOptions::write(true).create_new(true).mode(mode).open(p)]: a name that exists,
    be it a link, is refused. *)
Definition create_new (os : Os) (p : FPath) (mode : Z) : K nat :=
  sys intact (fun fs =>
    match fs_names fs !! p with
    | Some _ => Err AlreadyExists
    | None =>
        let h := fresh (dom (fs_inodes fs)) in
        Ok (h, mkFS (<[p := NFile h]> (fs_names fs))
                 (<[h := mkInode "" (os_create os mode) false]> (fs_inodes fs)))
    end).

Definition append_to (h : nat) (s : string) (fs : FS) : FS :=
  let i := inode_of fs h in
  set_inode h (mkInode (i_contents i +:+ s) (i_mode i) (i_dir i)) fs.

(** [Write::write_all]. *)
Definition write_all (h : nat) (s : string) : K unit :=
  sys (fun n => append_to h (String.substring 0 n s)) (fun fs => Ok (tt, append_to h s fs)).

(** [File::sync_all]. *)
Definition sync_all (h : nat) : K unit := query (fun _ => Ok tt).

(** [fs::remove_file]. *)
Definition remove_file (p : FPath) : K unit :=
  sys intact (fun fs =>
    match fs_names fs !! p with
    | Some _ => Ok (tt, mkFS (delete p (fs_names fs)) (fs_inodes fs))
    | None => Err NotFound
    end).

(** ** The key files *)

Definition PRIVATE_KEY_FILE_MODE : Z := 384.
Definition MAX_KEY_SYMLINKS : nat := 40.
Definition PERMISSION_BITS : Z := 4095.

Fixpoint resolve_loop (n : nat) (p : FPath) : K FPath :=
  match n with
  | O => kfail TooManySymlinks
  | S n' =>
      r ← attempt (lstat p);
      match r with
      | Ok (NLink _) => target ← read_link p; resolve_loop n' (push (pop p) target)
      | Ok (NFile _) => mret p
      | Err (Io NotFound) => mret p
      | Err e => kfail e
      end
  end.

Definition resolve_key_path (p : FPath) : K FPath := resolve_loop MAX_KEY_SYMLINKS p.

(** Bits other than the owner's read and write. *)
Definition excess (mode : Z) : Z := Z.land mode (Z.lnot PRIVATE_KEY_FILE_MODE).

Section KeyFiles.
  Context {keylib : KeyLib} {temp : TempFileLib} (os : Os).

Definition set_private_key_permissions (h : nat) (newly_created : bool) : K unit :=
  mode ← fstat_mode h;
  let mode := Z.land mode PERMISSION_BITS in
  if negb newly_created && (excess mode =? 0) then mret tt
  else
    kensure (negb newly_created || (excess mode =? 0)) (UnsafeInitialPermissions mode);;
    if mode =? PRIVATE_KEY_FILE_MODE then mret tt
    else
      fchmod os h PRIVATE_KEY_FILE_MODE;;
      mode ← fstat_mode h;
      let mode := Z.land mode PERMISSION_BITS in
      kensure (mode =? PRIVATE_KEY_FILE_MODE) (WrongPermissions mode).

Definition create_private_key_file (path : FPath) (contents : string) : K unit :=
  p ← resolve_key_path path;
  h ← create_new os p PRIVATE_KEY_FILE_MODE;
  r ← attempt (set_private_key_permissions h true;; write_all h contents);
  match r with
  | Err e =>
      removed ← attempt (remove_file p);
      match removed with
      | Err k => kfail (RemoveFailed k)
      | Ok _ => kfail e
      end
  | Ok _ => mret tt
  end.

(** The place the public key is to be written to, [None] when it is there already. *)
Definition missing_public_key_path (path : FPath) (pk : string) : K (option FPath) :=
  p ← resolve_key_path path;
  r ← attempt (read_to_string p);
  match r with
  | Ok contents =>
      if bool_decide (trim contents = pk) then mret None else kfail PublicKeyMismatch
  | Err (Io NotFound) => mret (Some p)
  | Err e => kfail e
  end.

(** A [TempPath] that goes out of scope removes its file and ignores the outcome. *)
Definition drop_temp (t : FPath) : K unit := attempt (remove_file t);; mret tt.

Definition persist_noclobber (t p : FPath) : K unit :=
  sys intact (fun fs => match tf_persist t p fs with
                        | Ok fs' => Ok (tt, fs')
                        | Err k => Err k
                        end).

Definition publish_public_key (t p : FPath) (pk : string) : K unit :=
  r ← attempt (persist_noclobber t p);
  match r with
  | Ok _ => mret tt
  | Err (Io AlreadyExists) =>
      r ← attempt (missing ← missing_public_key_path p pk;
                   kensure (bool_decide (missing = None)) PublicKeyDisappeared);
      drop_temp t;; of_result r
  | Err e => drop_temp t;; kfail e
  end.

Definition OWNER_READ_WRITE : Z := 384.
(** The mode a file is made with when none is asked for. *)
Definition DEFAULT_FILE_MODE : Z := 438.

(** [write_public_key]; [uuid] is the random part of the temporary name. *)
Definition write_public_key (uuid : string) (path : FPath) (pk : string) (required : bool)
    : K unit :=
  missing ← missing_public_key_path path pk;
  match missing with
  | None => mret tt
  | Some p =>
      let t := with_file_name p (".id_ed25519.pub." +:+ uuid) in
      r ← attempt (create_new os t DEFAULT_FILE_MODE);
      match r with
      | Err e => if required then kfail e else mret tt
      | Ok h =>
          r ← attempt (
            mode ← fstat_mode h;
            (if Z.land mode OWNER_READ_WRITE =? OWNER_READ_WRITE then mret tt
             else fchmod os h (Z.lor mode OWNER_READ_WRITE));;
            write_all h pk;; sync_all h);
          match r with
          | Err e => drop_temp t;; kfail e
          | Ok _ => publish_public_key t p pk
          end
      end
  end.

(** [sign::gen_keypair], draw by draw: a key without [/] and [:] in its public half, or the
    301st. *)
Definition pk_usable (pk : string) : bool :=
  negb (contains_char "/" pk) && negb (contains_char ":" pk).

Fixpoint choose_key (tries : nat) (draw : nat -> SecretKey) (i : nat) : SecretKey :=
  if pk_usable (b64_encode (sk_public (draw i))) then draw i
  else match tries with O => draw i | S tries' => choose_key tries' draw (S i) end.

Definition sk_file : FPath := (false, ["id_ed25519"]).
Definition pub_file : FPath := (false, ["id_ed25519.pub"]).

(** What the process draws from outside: keys and the random file name. *)
Record Chance := mkChance { ch_key : nat -> SecretKey; ch_uuid : string }.

(** [thread::sleep]: a moment in which other processes act. *)
Definition ksleep : K unit := attempt (query (fun _ => Ok tt));; mret tt.

(** The key is read when there is one. *)
Definition load_sk (ch : Chance) (h : nat) : K (string * SecretKey) :=
  set_private_key_permissions h false;;
  contents ← read_handle h;
  match b64_decode (trim contents) with
  | None => kfail MalformedPrivateKey
  | Some b =>
      match sk_from_slice b with
      | None => kfail MalformedPrivateKey
      | Some sk =>
          let pk := b64_encode (sk_public sk) in
          write_public_key (ch_uuid ch) pub_file pk false;;
          mret (pk, sk)
      end
  end.

Definition create_sk (ch : Chance) : K (string * SecretKey) :=
  let sk := choose_key 300 (ch_key ch) 0 in
  let pk := b64_encode (sk_public sk) in
  missing_public_key_path pub_file pk;;
  create_private_key_file sk_file (b64_encode (sk_bytes sk));;
  write_public_key (ch_uuid ch) pub_file pk true;;
  mret (pk, sk).

Definition gen_sk (ch : Chance) (wait : Z) : K (string * SecretKey) :=
  (if 0 <? wait then
     found ← path_exists sk_file;
     if (found : bool) then mret tt else ksleep
   else mret tt);;
  r ← attempt (open_read sk_file);
  match r with
  | Ok h => load_sk ch h
  | Err (Io NotFound) => create_sk ch
  | Err e => kfail e
  end.

(** ** The key the servers ask clients for *)

(** A secret key given as the argument stands for its public half. *)
Definition given_key (key : string) : string * option SecretKey :=
  match b64_decode key with
  | Some b =>
      if (String.length b =? SECRETKEYBYTES)%nat then
        (b64_encode (String.substring (SECRETKEYBYTES / 2) (SECRETKEYBYTES / 2) b),
         sk_from_slice b)
      else (key, None)
  | None => (key, None)
  end.

(** hbbs: without an argument it has a key of its own but asks for none. *)
Definition get_server_sk (ch : Chance) (arg : string) : K (string * option SecretKey) :=
  let '(key, out_sk) := given_key arg in
  if bool_decide (key = "") || bool_decide (key = "-") || bool_decide (key = "_") then
    '(pk, sk) ← gen_sk ch 0;
    mret (if str_nonempty key then pk else key, Some sk)
  else mret (key, out_sk).

(** hbbr. *)
Definition relay_server_sk (ch : Chance) (arg : string) : K string :=
  let key := (given_key arg).1 in
  if bool_decide (key = "-") || bool_decide (key = "_") then
    '(pk, _) ← gen_sk ch 300; mret pk
  else mret key.

End KeyFiles.
