(* ===== verification/KeyFacts.v ===== *)
(** * What the key files guarantee ([KeyFiles])

    Hoare-style rules for the programs of [KeyFiles], over predicates on the files: [good]
    says what the happenings around the calls may be, [H] what is to hold of every state
    the files go through.  On top of them: nothing that was there is overwritten, a new
    private key is never readable by others while it has contents, links are followed a
    bounded number of times, and [gen_sk] implements a store that holds at most one key pair. *)

From S2P Require Import Prelude RustStr KeyFiles.
From Stdlib Require Import Ascii.

Local Open Scope Z_scope.

(** ** Rules *)

Section Rules.
  Context (good : Hap -> Prop) (H : FS -> Prop).

Definition tri {A} (P : FS -> Prop) (m : K A) (Q : result KeyError A -> FS -> Prop) : Prop :=
  forall w, Forall good (w_haps w) -> Forall H (w_hist w) -> P (w_fs w) ->
    Forall good (w_haps (m w).2) /\ Forall H (w_hist (m w).2) /\ Q (m w).1 (w_fs (m w).2).

Lemma tri_conseq {A} (P P' : FS -> Prop) (m : K A) (Q Q' : result KeyError A -> FS -> Prop) :
  tri P' m Q' -> (forall fs, P fs -> P' fs) -> (forall r fs, Q' r fs -> Q r fs) -> tri P m Q.
Proof. intros Ht HP HQ w Hg Hh Hw. destruct (Ht w Hg Hh (HP _ Hw)) as (? & ? & ?). auto. Qed.

Lemma tri_ret {A} (a : A) (P : FS -> Prop) (Q : result KeyError A -> FS -> Prop) :
  (forall fs, P fs -> Q (Ok a) fs) -> tri P (mret a) Q.
Proof. intros HQ w Hg Hh Hw. simpl. auto. Qed.

Lemma tri_fail {A} (e : KeyError) (P : FS -> Prop) (Q : result KeyError A -> FS -> Prop) :
  (forall fs, P fs -> Q (Err e) fs) -> tri P (kfail e) Q.
Proof. intros HQ w Hg Hh Hw. simpl. auto. Qed.

Lemma tri_of_result {A} (r : result KeyError A) (P : FS -> Prop)
    (Q : result KeyError A -> FS -> Prop) :
  (forall fs, P fs -> Q r fs) -> tri P (of_result r) Q.
Proof. intros HQ w Hg Hh Hw. simpl. auto. Qed.

Lemma tri_bind {A B} (R : A -> FS -> Prop) (P : FS -> Prop) (m : K A) (f : A -> K B)
    (Q : result KeyError B -> FS -> Prop) :
  tri P m (fun r fs => match r with Ok a => R a fs | Err e => Q (Err e) fs end) ->
  (forall a, tri (R a) (f a) Q) -> tri P (m ≫= f) Q.
Proof.
  intros Hm Hf w Hg Hh Hw. destruct (Hm w Hg Hh Hw) as (Hg1 & Hh1 & HQ1).
  unfold mbind, K_bind. destruct (m w) as [[a|e] w1]; simpl in *; [|done].
  by apply Hf.
Qed.

Lemma tri_attempt {A} (P : FS -> Prop) (m : K A) (Q : result KeyError A -> FS -> Prop) :
  tri P m Q ->
  tri P (attempt m) (fun r fs => match r with Ok r => Q r fs | Err _ => False end).
Proof.
  intros Hm w Hg Hh Hw. specialize (Hm w Hg Hh Hw). unfold attempt.
  by destruct (m w) as [r w1].
Qed.

Lemma tri_ensure (b : bool) (e : KeyError) (P : FS -> Prop)
    (Q : result KeyError unit -> FS -> Prop) :
  (forall fs, P fs -> if b then Q (Ok tt) fs else Q (Err e) fs) -> tri P (kensure b e) Q.
Proof. intros HQ. destruct b; [by apply tri_ret|by apply tri_fail]. Qed.

(** A call: what holds before it survives what the others do, and what it leads to is fit
    for the record. *)
Lemma tri_sys {A} (P : FS -> Prop) (partial : nat -> FS -> FS)
    (f : FS -> result IoKind (A * FS)) (Q : result KeyError A -> FS -> Prop) :
  (forall h fs, good h -> P fs -> P (h_others h fs)) -> (forall fs, P fs -> P (h_others fine fs)) ->
  (forall n fs, P fs -> Q (Err (Io OtherIo)) (partial n fs)) ->
  (forall fs, P fs -> match f fs with Ok (a, fs') => Q (Ok a) fs' | Err k => Q (Err (Io k)) fs end) ->
  (forall r fs, Q r fs -> H fs) ->
  tri P (sys partial f) Q.
Proof.
  intros Hst Hfine Hpart Hf HH w Hg Hh Hw. unfold sys.
  assert (Hw' : P (h_others (default fine (head (w_haps w))) (w_fs w))).
  { destruct (w_haps w) as [|h l]; simpl; [by apply Hfine|].
    apply Forall_cons in Hg as [Hg _]. by apply Hst. }
  assert (Hg' : Forall good (tail (w_haps w))).
  { destruct (w_haps w); simpl; [constructor|by apply Forall_cons in Hg as []]. }
  set (fs := h_others _ _) in *.
  assert (HQ : exists r fs', (let '(r, fs') := match h_fault (default fine (head (w_haps w))) with
       | Some n => (Err (Io OtherIo), partial n fs)
       | None => match f fs with Ok (a, fs') => (Ok a, fs') | Err k => (Err (Io k), fs) end
       end in (r, mkWorld fs' (tail (w_haps w)) (fs' :: w_hist w))) =
       (r, mkWorld fs' (tail (w_haps w)) (fs' :: w_hist w)) /\ Q r fs').
  { destruct (h_fault _) as [n|]; [eauto 10|].
    specialize (Hf fs Hw'). destruct (f fs) as [[a fs']|k]; eauto 10. }
  destruct HQ as (r & fs' & -> & HQ). simpl. split; [done|]. split; [|done].
  constructor; [by eapply HH|done].
Qed.

End Rules.

Lemma tri_pure (good : Hap -> Prop) (H : FS -> Prop) {A} (phi : Prop) (P : FS -> Prop) (m : K A)
    (Q : result KeyError A -> FS -> Prop) :
  (phi -> tri good H P m Q) -> tri good H (fun fs => P fs /\ phi) m Q.
Proof. intros Hm w Hg Hh [Hw Hphi]. by apply Hm. Qed.

(** ** Nothing is overwritten *)

(** Every name of [fs0] still leads where it led, and every file of [fs0] has the contents
    it had. *)
Definition extends (fs0 fs : FS) : Prop :=
  fs_names fs0 ⊆ fs_names fs /\
  forall i n, fs_inodes fs0 !! i = Some n ->
    exists n', fs_inodes fs !! i = Some n' /\ i_contents n' = i_contents n /\ i_dir n' = i_dir n.

Lemma extends_refl (fs : FS) : extends fs fs.
Proof. split; [done|]. intros i n Hi. by exists n. Qed.

Lemma extends_trans (fs1 fs2 fs3 : FS) : extends fs1 fs2 -> extends fs2 fs3 -> extends fs1 fs3.
Proof.
  intros [Hn1 Hi1] [Hn2 Hi2]. split; [by trans (fs_names fs2)|].
  intros i n (n2 & H2 & E2 & D2)%Hi1. destruct (Hi2 i n2 H2) as (n3 & H3 & E3 & D3).
  exists n3. split; [done|]. split; congruence.
Qed.

#[export] Instance extends_preorder : PreOrder extends.
Proof. split; [exact extends_refl|exact extends_trans]. Qed.

Section Steady.
  Context {keylib : KeyLib} {temp : TempFileLib} {temp_laws : TempFileLaws temp} (os : Os).
  Context (fs0 : FS).

(** What other processes may do: anything to the files that came later. *)
Definition respectful (h : Hap) : Prop :=
  forall fs, extends fs0 fs -> extends fs0 (h_others h fs).

  Context (good : Hap -> Prop) (good_ok : forall h, good h -> respectful h).
  Context (H : FS -> Prop) (H_ok : forall fs, extends fs0 fs -> H fs).

Definition keeps {A} (m : K A) (Q : A -> Prop) : Prop :=
  tri good H (extends fs0) m (fun r fs => extends fs0 fs /\ forall a, r = Ok a -> Q a).

Lemma keeps_ret {A} (a : A) (Q : A -> Prop) : Q a -> keeps (mret a) Q.
Proof. intros HQ. apply tri_ret. intros fs Hfs. split; [done|]. by intros ? [= <-]. Qed.

Lemma keeps_fail {A} (e : KeyError) (Q : A -> Prop) : keeps (kfail e) Q.
Proof. apply tri_fail. by intros fs Hfs. Qed.

Lemma keeps_of_result {A} (r : result KeyError A) : keeps (of_result r) (fun _ => True).
Proof. by apply tri_of_result. Qed.

Lemma keeps_ensure (b : bool) (e : KeyError) : keeps (kensure b e) (fun _ => b = true).
Proof. destruct b; [by apply keeps_ret|apply keeps_fail]. Qed.

Lemma keeps_bind {A B} (R : A -> Prop) (m : K A) (f : A -> K B) (Q : B -> Prop) :
  keeps m R -> (forall a, R a -> keeps (f a) Q) -> keeps (m ≫= f) Q.
Proof.
  intros Hm Hf. apply tri_bind with (R := fun a fs => extends fs0 fs /\ R a).
  - eapply tri_conseq; [exact Hm|done|]. intros [a|e] fs [Hfs HR]; split; auto.
    by intros ? [=].
  - intros a. apply tri_pure. apply Hf.
Qed.

Lemma keeps_attempt {A} (m : K A) (R : A -> Prop) :
  keeps m R -> keeps (attempt m) (fun r => forall a, r = Ok a -> R a).
Proof.
  intros Hm. eapply tri_conseq; [apply tri_attempt, Hm|done|].
  intros [r|e] fs; [|done]. intros [Hfs HR]. split; [done|]. by intros ? [= <-].
Qed.

Lemma keeps_weaken {A} (m : K A) (R Q : A -> Prop) :
  keeps m R -> (forall a, R a -> Q a) -> keeps m Q.
Proof.
  intros Hm HRQ. eapply tri_conseq; [exact Hm|done|]. intros r fs [Hfs HR]. auto.
Qed.

Lemma keeps_sys {A} (partial : nat -> FS -> FS) (f : FS -> result IoKind (A * FS)) (Q : A -> Prop) :
  (forall n fs, extends fs0 fs -> extends fs0 (partial n fs)) ->
  (forall fs a fs', extends fs0 fs -> f fs = Ok (a, fs') -> extends fs0 fs' /\ Q a) ->
  keeps (sys partial f) Q.
Proof.
  intros Hp Hf. apply tri_sys.
  - intros h fs Hh%good_ok. apply Hh.
  - done.
  - intros n fs Hfs. split; [by apply Hp|]. by intros a [=].
  - intros fs Hfs. destruct (f fs) as [[a fs']|k] eqn:E.
    + destruct (Hf fs a fs' Hfs E) as [? ?]. split; [done|]. by intros ? [= <-].
    + split; [done|]. by intros a [=].
  - intros r fs [? ?]. by apply H_ok.
Qed.

Lemma keeps_query {A} (f : FS -> result IoKind A) : keeps (query f) (fun _ => True).
Proof.
  apply keeps_sys; [done|]. intros fs a fs' Hfs E. destruct (f fs); by simplify_eq.
Qed.

Lemma extends_set_inode (fs : FS) (h : nat) (i : Inode) :
  extends fs0 fs ->
  (forall n, fs_inodes fs0 !! h = Some n -> i_contents i = i_contents n /\ i_dir i = i_dir n) ->
  extends fs0 (set_inode h i fs).
Proof.
  intros [Hn Hi] Hh. split; [done|]. intros j n Hj. simpl.
  destruct (decide (j = h)) as [->|Hne].
  - exists i. rewrite lookup_insert_eq. split; [done|]. by apply Hh.
  - rewrite lookup_insert_ne by done. by apply Hi.
Qed.

Lemma extends_inode_of (fs : FS) (h : nat) (n : Inode) :
  extends fs0 fs -> fs_inodes fs0 !! h = Some n ->
  i_contents (inode_of fs h) = i_contents n /\ i_dir (inode_of fs h) = i_dir n.
Proof. intros [_ Hi] (n' & Hn & ? & ?)%Hi. unfold inode_of. by rewrite Hn. Qed.

Lemma keeps_fchmod (h : nat) (mode : Z) : keeps (fchmod os h mode) (fun _ => True).
Proof.
  apply keeps_sys; [done|]. intros fs a fs' Hfs [= _ <-]. split; [|done].
  apply extends_set_inode; [done|]. intros n Hn. by apply extends_inode_of.
Qed.

(** A file that is made is new, and so is its name. *)
Lemma keeps_create_new (p : FPath) (mode : Z) :
  keeps (create_new os p mode)
    (fun h => fs_inodes fs0 !! h = None /\ fs_names fs0 !! p = None).
Proof.
  apply keeps_sys; [done|]. intros fs h fs' [Hn Hi] E.
  destruct (fs_names fs !! p) eqn:Hp; [done|]. injection E as <- <-.
  assert (Hnew : fs_names fs0 !! p = None) by (by eapply lookup_weaken_None).
  assert (Hfresh : fs_inodes fs0 !! fresh (dom (fs_inodes fs)) = None).
  { apply eq_None_not_Some. intros [n (n' & Hn' & _)%Hi].
    apply elem_of_dom_2 in Hn'. by apply is_fresh in Hn'. }
  split; [|done]. split; simpl.
  - by apply insert_subseteq_r.
  - intros i n Hin. rewrite lookup_insert_ne by congruence. by apply Hi.
Qed.

Lemma keeps_write_all (h : nat) (s : string) :
  fs_inodes fs0 !! h = None -> keeps (write_all h s) (fun _ => True).
Proof.
  intros Hh.
  assert (Happ : forall s fs, extends fs0 fs -> extends fs0 (append_to h s fs)).
  { intros s' fs Hfs. apply extends_set_inode; [done|]. congruence. }
  apply keeps_sys; [auto|]. intros fs a fs' Hfs [= _ <-]. auto.
Qed.

Lemma keeps_remove_file (p : FPath) :
  fs_names fs0 !! p = None -> keeps (remove_file p) (fun _ => True).
Proof.
  intros Hp. apply keeps_sys; [done|]. intros fs a fs' [Hn Hi] E.
  destruct (fs_names fs !! p); [|done]. injection E as <-. subst.
  split; [|done]. split; [|done]. simpl.
  rewrite <- (delete_id (fs_names fs0) p Hp). by apply delete_mono.
Qed.

Lemma keeps_persist (t p : FPath) :
  fs_names fs0 !! t = None -> keeps (persist_noclobber t p) (fun _ => True).
Proof.
  intros Ht. apply keeps_sys; [done|]. intros fs a fs' [Hn Hi] E.
  destruct (tf_persist t p fs) as [fs1|] eqn:Ep; [|done]. injection E as <-. subst.
  apply tf_persist_Ok in Ep as (Hp & n & _ & ->). split; [|done]. split; [|done]. simpl.
  apply insert_subseteq_r; [by eapply lookup_weaken_None|].
  rewrite <- (delete_id (fs_names fs0) t Ht). by apply delete_mono.
Qed.

Lemma keeps_true {A} (m : K A) (R : A -> Prop) : keeps m R -> keeps m (fun _ => True).
Proof. intros Hm. by eapply keeps_weaken. Qed.

(** One call, with what is known after it. *)
Ltac keep_call :=
  first
    [ apply keeps_query | apply keeps_fchmod | apply keeps_create_new | apply keeps_ensure
    | apply keeps_of_result | apply keeps_write_all; assumption
    | apply keeps_remove_file; assumption | apply keeps_persist; assumption
    | apply keeps_attempt; keep_call | eassumption ].

(** The control structures of the programs. *)
Ltac keep_step :=
  match goal with
  | |- keeps (mret _) _ => apply keeps_ret; try done
  | |- keeps (kfail _) _ => apply keeps_fail
  | |- keeps (_ ≫= _) _ => eapply keeps_bind; [keep_call|intros ? ?]
  | |- keeps (if ?b then _ else _) _ => destruct b eqn:?
  | |- keeps (match ?x with _ => _ end) _ => destruct x eqn:?
  | |- keeps _ (fun _ => True) => eapply keeps_true; keep_call
  end.

Lemma keeps_resolve (p : FPath) : keeps (resolve_key_path p) (fun _ => True).
Proof.
  unfold resolve_key_path. generalize MAX_KEY_SYMLINKS. intros n. revert p.
  induction n as [|n IH]; intros p; simpl; [apply keeps_fail|].
  unfold lstat, read_link. repeat keep_step; apply IH.
Qed.

Lemma keeps_permissions (h : nat) (newly : bool) :
  keeps (set_private_key_permissions os h newly) (fun _ => True).
Proof. unfold set_private_key_permissions, fstat_mode. repeat keep_step. Qed.

Lemma keeps_missing (p : FPath) (pk : string) :
  keeps (missing_public_key_path p pk) (fun _ => True).
Proof.
  unfold missing_public_key_path.
  assert (forall q, keeps (read_to_string q) (fun _ => True)).
  { intros q. unfold read_to_string, open_read, read_handle. repeat keep_step. }
  eapply keeps_bind; [apply keeps_resolve|]. intros q _.
  eapply keeps_bind; [apply keeps_attempt; auto|]. intros r _. repeat keep_step.
Qed.

Lemma keeps_drop_temp (t : FPath) : fs_names fs0 !! t = None -> keeps (drop_temp t) (fun _ => True).
Proof. intros Ht. unfold drop_temp. repeat keep_step. Qed.

Lemma keeps_publish (t p : FPath) (pk : string) :
  fs_names fs0 !! t = None -> keeps (publish_public_key t p pk) (fun _ => True).
Proof.
  intros Ht. pose proof (keeps_drop_temp t Ht) as Hd. unfold publish_public_key.
  eapply keeps_bind; [keep_call|]. intros r _.
  destruct r as [[]|[[]| | | | | | |]]; try (by repeat keep_step).
  eapply keeps_bind; [apply keeps_attempt with (R := fun _ => True)|].
  { eapply keeps_bind; [apply keeps_missing|]. intros m _. repeat keep_step. }
  intros r _. repeat keep_step.
Qed.

Lemma keeps_write_public_key (uuid : string) (p : FPath) (pk : string) (required : bool) :
  keeps (write_public_key os uuid p pk required) (fun _ => True).
Proof.
  unfold write_public_key. eapply keeps_bind; [apply keeps_missing|]. intros [q|] _; [|by keep_step].
  eapply keeps_bind; [keep_call|]. intros [h|e] Hh; [|by repeat keep_step].
  destruct (Hh h eq_refl) as [Hi Hn]. pose proof (keeps_drop_temp _ Hn) as Hd.
  eapply keeps_bind; [apply keeps_attempt with (R := fun _ => True)|].
  { unfold fstat_mode, sync_all. eapply keeps_bind; [keep_call|]. intros mode _.
    eapply keeps_bind with (R := fun _ => True); [by repeat keep_step|]. intros _ _.
    repeat keep_step. }
  intros r _. destruct r; [by apply keeps_publish|by repeat keep_step].
Qed.

Lemma keeps_create_private (p : FPath) (contents : string) :
  keeps (create_private_key_file os p contents) (fun _ => True).
Proof.
  unfold create_private_key_file. eapply keeps_bind; [apply keeps_resolve|]. intros q _.
  eapply keeps_bind; [keep_call|]. intros h [Hi Hn].
  eapply keeps_bind; [apply keeps_attempt with (R := fun _ => True)|].
  { eapply keeps_bind; [apply keeps_permissions|]. intros _ _. repeat keep_step. }
  intros r _. repeat keep_step.
Qed.

Lemma keeps_gen_sk (ch : Chance) (wait : Z) : keeps (gen_sk os ch wait) (fun _ => True).
Proof.
  unfold gen_sk, path_exists, ksleep, open_read.
  eapply keeps_bind with (R := fun _ => True).
  { destruct (0 <? wait); [|by keep_step].
    eapply keeps_bind with (R := fun _ => True); [by repeat keep_step|]. intros found _.
    repeat keep_step. }
  intros _ _. eapply keeps_bind; [keep_call|]. intros r _.
  destruct r as [h|[[]| | | | | | |]]; try (by repeat keep_step).
  - unfold load_sk, read_handle. eapply keeps_bind; [apply keeps_permissions|]. intros _ _.
    eapply keeps_bind; [keep_call|]. intros c _.
    destruct (b64_decode (trim c)); [|by keep_step]. destruct (sk_from_slice _); [|by keep_step].
    eapply keeps_bind; [apply keeps_write_public_key|]. intros _ _. by keep_step.
  - unfold create_sk. eapply keeps_bind; [apply keeps_missing|]. intros _ _.
    eapply keeps_bind; [apply keeps_create_private|]. intros _ _.
    eapply keeps_bind; [apply keeps_write_public_key|]. intros _ _. by keep_step.
Qed.

Lemma keeps_read_handle (h : nat) (n : Inode) :
  fs_inodes fs0 !! h = Some n ->
  keeps (read_handle h) (fun c => c = i_contents n /\ i_dir n = false).
Proof.
  intros Hn. apply keeps_sys; [done|]. intros fs c fs' Hfs E.
  destruct (extends_inode_of fs h n Hfs Hn) as [Hc Hd].
  cbn beta zeta in E. rewrite Hd, Hc in E.
  destruct (i_dir n); by simplify_eq.
Qed.

Definition parse_key (contents : string) : option SecretKey :=
  b ← b64_decode (trim contents); sk_from_slice b.

(** The key that is handed out is the one in the file. *)
Lemma keeps_load_sk (ch : Chance) (h : nat) (n : Inode) :
  fs_inodes fs0 !! h = Some n ->
  keeps (load_sk os ch h) (fun r => i_dir n = false /\
    parse_key (i_contents n) = Some r.2 /\ r.1 = b64_encode (sk_public r.2)).
Proof.
  intros Hn. unfold load_sk. eapply keeps_bind; [apply keeps_permissions|]. intros _ _.
  eapply keeps_bind; [by apply keeps_read_handle|]. intros c [-> Hd]. unfold parse_key.
  destruct (b64_decode (trim (i_contents n))) as [b|]; [|by keep_step]. simpl.
  destruct (sk_from_slice b) as [sk|]; [|by keep_step].
  eapply keeps_bind; [apply keeps_write_public_key|]. intros _ _. by keep_step.
Qed.

End Steady.

Section Untouched.
  Context {keylib : KeyLib} {temp : TempFileLib} {temp_laws : TempFileLaws temp} (os : Os).

(** C23: starting a server overwrites and removes nothing that was there: through every state
    the files go through, whatever calls fail at whatever point and whatever other
    processes add meanwhile, every name leads where it led and every file has the contents
    it had.  In particular an existing private or public key is never replaced. *)
Theorem existing_files_untouched (ch : Chance) (wait : Z) (w : World) :
  Forall (respectful (w_fs w)) (w_haps w) -> w_hist w = [] ->
  Forall (extends (w_fs w)) (w_hist (gen_sk os ch wait w).2) /\
  extends (w_fs w) (w_fs (gen_sk os ch wait w).2).
Proof.
  intros Hg Hh.
  destruct (keeps_gen_sk os (w_fs w) (respectful (w_fs w)) (fun _ H => H) (extends (w_fs w))
              (fun _ H => H) ch wait w Hg) as (_ & H1 & H2 & _); [|done|done].
  by rewrite Hh.
Qed.

End Untouched.

(** ** Following links *)

Section Links.

(** [q] is reached from [p] by following [k] links. *)
Inductive links (fs : FS) : FPath -> nat -> FPath -> Prop :=
| links_here p : links fs p 0 p
| links_next p t k q :
    fs_names fs !! p = Some (NLink t) -> links fs (push (pop p) t) k q -> links fs p (S k) q.

Definition is_link (fs : FS) (p : FPath) : Prop :=
  exists t, fs_names fs !! p = Some (NLink t).

Definition calm (h : Hap) : Prop := forall fs, h_others h fs = fs.

(** A query, when the others do nothing. *)
Lemma tri_query {A} (H : FS -> Prop) (fs0 : FS) (f : FS -> result IoKind A) :
  H fs0 ->
  tri calm H (eq fs0) (query f) (fun r fs => fs0 = fs /\
    match r with
    | Ok a => f fs0 = Ok a
    | Err e => e = Io OtherIo \/ exists k, e = Io k /\ f fs0 = Err k
    end).
Proof.
  intros HH. apply tri_sys.
  - intros h fs Hh <-. by rewrite Hh.
  - done.
  - intros n fs <-. auto.
  - intros fs <-. destruct (f fs0); eauto.
  - by intros r fs [<- _].
Qed.

(** The number of calls a program makes. *)
Definition within {A} (m : K A) (n : nat) : Prop :=
  forall w, (length (w_hist (m w).2) <= length (w_hist w) + n)%nat.

Lemma within_sys {A} (partial : nat -> FS -> FS) (f : FS -> result IoKind (A * FS)) :
  within (sys partial f) 1.
Proof.
  intros w. unfold sys. destruct (h_fault _); [simpl; lia|].
  destruct (f _) as [[a fs']|k]; simpl; lia.
Qed.

Lemma within_bind {A B} (m : K A) (f : A -> K B) (n1 n2 : nat) :
  within m n1 -> (forall a, within (f a) n2) -> within (m ≫= f) (n1 + n2).
Proof.
  intros Hm Hf w. unfold mbind, K_bind. specialize (Hm w).
  destruct (m w) as [[a|e] w1]; simpl in *; [|lia]. specialize (Hf a w1). lia.
Qed.

Lemma within_attempt {A} (m : K A) (n : nat) : within m n -> within (attempt m) n.
Proof. intros Hm w. specialize (Hm w). unfold attempt. by destruct (m w). Qed.

Lemma within_pure {A} (r : result KeyError A) (n : nat) : within (of_result r) n.
Proof. intros w. simpl. lia. Qed.

Lemma within_resolve (n : nat) (p : FPath) : within (resolve_loop n p) (2 * n).
Proof.
  revert p. induction n as [|n IH]; intros p; [intros w; simpl; lia|].
  change (2 * S n)%nat with (S n + S (n + 0))%nat. simpl.
  replace (S (n + S (n + 0)))%nat with (1 + (1 + 2 * n))%nat by lia.
  apply within_bind; [apply within_attempt, within_sys|]. intros r.
  destruct r as [[i|t]|[[]| | | | | | |]]; try (intros w; simpl; lia).
  apply within_bind; [apply within_sys|]. intros t'. apply IH.
Qed.

(** What the loop finds when nothing else touches the files. *)
Lemma tri_resolve (H : FS -> Prop) (fs0 : FS) (n : nat) (p : FPath) :
  H fs0 ->
  tri calm H (eq fs0) (resolve_loop n p)
    (fun r fs => fs0 = fs /\ forall q, r = Ok q ->
       exists k, (k < n)%nat /\ links fs0 p k q /\ ~ is_link fs0 q).
Proof.
  intros HH. revert p. induction n as [|n IH]; intros p; simpl.
  { apply tri_fail. by intros fs <-. }
  apply tri_bind with (R := fun r fs => fs0 = fs /\
    match r with
    | Ok x => fs_names fs0 !! p = Some x
    | Err (Io NotFound) => fs_names fs0 !! p = None
    | Err _ => True
    end).
  { eapply tri_conseq; [apply tri_attempt, tri_query, HH|done|].
    intros [r|e] fs; [|done]. intros [<- Hr]. split; [done|].
    destruct (fs_names fs0 !! p) eqn:Hp; simpl in Hr.
    - destruct r as [x|e]; [by simplify_eq|]. by destruct Hr as [->|(k & -> & [=])].
    - destruct r as [x|e]; [done|]. destruct Hr as [->|(k & -> & [= <-])]; done. }
  intros r. apply tri_pure. intros Hr.
  assert (Hdone : ~ is_link fs0 p -> tri calm H (eq fs0) (mret p) (fun r fs => fs0 = fs /\
    forall q, r = Ok q -> exists k, (k < S n)%nat /\ links fs0 p k q /\ ~ is_link fs0 q)).
  { intros Hl. apply tri_ret. intros fs <-. split; [done|]. intros q [= <-].
    exists 0%nat. split; [lia|]. split; [constructor|done]. }
  assert (Hfail : forall e, tri calm H (eq fs0) (kfail e) (fun r fs => fs0 = fs /\
    forall q, r = Ok q -> exists k, (k < S n)%nat /\ links fs0 p k q /\ ~ is_link fs0 q)).
  { intros e. apply tri_fail. by intros fs <-. }
  destruct r as [[i|t]|[[]| | | | | | |]]; try apply Hfail.
  - apply Hdone. intros [t Ht]. congruence.
  - apply tri_bind with (R := fun t' fs => fs0 = fs /\ t' = t).
    { eapply tri_conseq; [apply tri_query, HH|done|]. intros r fs [<- Ht].
      rewrite Hr in Ht. destruct r; [by simplify_eq|done]. }
    intros t'. apply tri_pure. intros ->.
    eapply tri_conseq; [apply IH|done|]. intros r fs [<- Hq]. split; [done|].
    intros q (k & Hk & Hl & Hn)%Hq. exists (S k). split; [lia|]. split; [|done].
    by econstructor.
  - apply Hdone. intros [t Ht]. congruence.
Qed.

(** The loop as a function of the files, when nothing happens around the calls. *)
Fixpoint resolve_ref (n : nat) (fs : FS) (p : FPath) : result KeyError FPath :=
  match n with
  | O => Err TooManySymlinks
  | S n' => match fs_names fs !! p with
            | Some (NLink t) => resolve_ref n' fs (push (pop p) t)
            | _ => Ok p
            end
  end.

(** One call in an uneventful world. *)
Lemma sys_plain {A} (partial : nat -> FS -> FS) (f : FS -> result IoKind (A * FS)) (fs : FS)
    (h : list FS) :
  sys partial f (mkWorld fs [] h) =
    match f fs with
    | Ok (a, fs') => (Ok a, mkWorld fs' [] (fs' :: h))
    | Err k => (Err (Io k), mkWorld fs [] (fs :: h))
    end.
Proof. unfold sys. simpl. by destruct (f fs) as [[a fs']|k]. Qed.

Lemma resolve_plain (n : nat) (p : FPath) (fs : FS) (h : list FS) :
  exists h', resolve_loop n p (mkWorld fs [] h) = (resolve_ref n fs p, mkWorld fs [] h').
Proof.
  revert p h. induction n as [|n IH]; intros p h; simpl; [by exists h|].
  unfold mbind, K_bind, attempt, lstat, read_link, query. rewrite sys_plain.
  destruct (fs_names fs !! p) as [[i|t]|] eqn:Hp; simpl; [by eexists| |by eexists].
  rewrite sys_plain, Hp. simpl. apply IH.
Qed.

Lemma resolve_ref_spec (n : nat) (fs : FS) (p q : FPath) :
  resolve_ref n fs p = Ok q <->
  exists k, (k < n)%nat /\ links fs p k q /\ ~ is_link fs q.
Proof.
  revert p. induction n as [|n IH]; intros p; simpl.
  { split; [done|]. intros (k & Hk & _). lia. }
  destruct (fs_names fs !! p) as [[i|t]|] eqn:Hp.
  2: { rewrite IH. split.
       - intros (k & Hk & Hl & Hn). exists (S k). split; [lia|]. split; [by econstructor|done].
       - intros (k & Hk & Hl & Hn). destruct Hl as [p|p t' k q Ht Hl]; [by destruct Hn; exists t|].
         simplify_eq. exists k. split; [lia|done]. }
  all: split; [intros [= <-]; exists 0%nat; split; [lia|]; split; [constructor|];
                 intros [t Ht]; congruence|].
  all: intros (k & Hk & Hl & Hn); destruct Hl as [p|p t' k q Ht Hl]; [done|congruence].
Qed.

Lemma resolve_ref_error (n : nat) (fs : FS) (p : FPath) (e : KeyError) :
  resolve_ref n fs p = Err e -> e = TooManySymlinks.
Proof.
  revert p. induction n as [|n IH]; intros p; simpl; [by intros [= <-]|].
  destruct (fs_names fs !! p) as [[i|t]|]; [done|apply IH|done].
Qed.

(** C35: looking for the place a key path leads to ends after at most 80 calls, also when
    other processes change the links meanwhile.  When nothing happens around the calls it
    finds the end of every chain of less than 40 links, be there a file or nothing yet,
    and fails with its own error on every longer chain and on every cycle. *)
Theorem resolve_key_path_terminates (p : FPath) :
  within (resolve_key_path p) 80 /\
  forall fs h, let r := (resolve_key_path p (mkWorld fs [] h)).1 in
    (forall q, r = Ok q <-> exists k, (k < 40)%nat /\ links fs p k q /\ ~ is_link fs q) /\
    ((forall q k, (k < 40)%nat -> links fs p k q -> is_link fs q) -> r = Err TooManySymlinks).
Proof.
  split; [apply (within_resolve 40)|]. intros fs h. cbv zeta. unfold resolve_key_path.
  destruct (resolve_plain MAX_KEY_SYMLINKS p fs h) as [h' ->]. cbn [fst]. split.
  - intros q. apply (resolve_ref_spec 40).
  - intros Hloop. destruct (resolve_ref MAX_KEY_SYMLINKS fs p) as [q|e] eqn:E.
    + apply (resolve_ref_spec 40) in E as (k & Hk & Hl & Hn). by destruct Hn; eapply Hloop.
    + by apply resolve_ref_error in E as ->.
Qed.

Lemma links_mono (fs fs' : FS) (p q : FPath) (k : nat) :
  fs_names fs ⊆ fs_names fs' -> links fs p k q -> links fs' p k q.
Proof.
  intros Hsub. induction 1 as [p|p t k q Hp _ IH]; [constructor|].
  econstructor; [by eapply lookup_weaken|done].
Qed.

Lemma follow_links (fs : FS) (p q : FPath) (k n : nat) :
  links fs p k q -> follow (k + n) fs p = follow n fs q.
Proof.
  induction 1 as [p|p t k q Hp _ IH]; [done|]. simpl. by rewrite Hp.
Qed.

(** What is found when a file is opened stays, as long as names are only added. *)
Lemma follow_mono (n : nat) (fs fs' : FS) (p : FPath) :
  fs_names fs ⊆ fs_names fs' -> follow n fs p <> Err NotFound -> follow n fs' p = follow n fs p.
Proof.
  intros Hsub. revert p. induction n as [|n IH]; intros p; simpl;
    destruct (fs_names fs !! p) as [[i|t]|] eqn:Hp; intros Hf; try done;
    rewrite (lookup_weaken _ _ _ _ Hp Hsub); auto.
Qed.

End Links.

(** ** A new private key is never exposed *)

Section Private.
  Context {keylib : KeyLib} {temp : TempFileLib} (os : Os) (fs0 : FS).

(** A file that was not there and has contents is the owner's alone. *)
Definition tight (fs : FS) : Prop :=
  forall i n, fs_inodes fs !! i = Some n -> fs_inodes fs0 !! i = None -> i_contents n <> "" ->
    Z.land (i_mode n) PERMISSION_BITS = PRIVATE_KEY_FILE_MODE.

  Context (H : FS -> Prop) (H_ok : forall fs, tight fs -> H fs).

Lemma tight_here : tight fs0.
Proof. intros i n Hi Hn. congruence. Qed.

(** The files with one more, under the name [p]. *)
Definition with_file (p : FPath) (h : nat) (n : Inode) : FS :=
  mkFS (<[p := NFile h]> (fs_names fs0)) (<[h := n]> (fs_inodes fs0)).

Lemma tight_with_file (p : FPath) (h : nat) (n : Inode) :
  i_contents n = "" \/ Z.land (i_mode n) PERMISSION_BITS = PRIVATE_KEY_FILE_MODE ->
  tight (with_file p h n).
Proof.
  intros Hn i n' Hi Hnew Hc. simpl in Hi. destruct (decide (i = h)) as [->|Hne].
  - rewrite lookup_insert_eq in Hi. simplify_eq. tauto.
  - rewrite lookup_insert_ne in Hi by done. congruence.
Qed.

Lemma inode_with_file (p : FPath) (h : nat) (n : Inode) : inode_of (with_file p h n) h = n.
Proof. unfold inode_of. simpl. by rewrite lookup_insert_eq. Qed.

Lemma set_with_file (p : FPath) (h : nat) (n n' : Inode) :
  set_inode h n' (with_file p h n) = with_file p h n'.
Proof. unfold set_inode, with_file. simpl. by rewrite insert_insert_eq. Qed.

Lemma tri_create_new (p : FPath) (mode : Z) :
  tri calm H (eq fs0) (create_new os p mode) (fun r fs =>
    match r with
    | Ok h => fs_names fs0 !! p = None /\ fs_inodes fs0 !! h = None /\
              fs = with_file p h (mkInode "" (os_create os mode) false)
    | Err _ => fs = fs0
    end).
Proof.
  apply tri_sys.
  - intros h fs Hh <-. by rewrite Hh.
  - done.
  - by intros m fs <-.
  - intros fs <-. destruct (fs_names fs0 !! p) eqn:Hp; [done|]. split; [done|]. split; [|done].
    apply not_elem_of_dom, is_fresh.
  - intros [h|e] fs; [|by intros ->; apply H_ok, tight_here].
    intros (_ & _ & ->). apply H_ok, tight_with_file. by left.
Qed.

(** The permissions of a file that was just made are checked, and set if need be. *)
Lemma tri_permissions (p : FPath) (h : nat) (mode : Z) :
  tri calm H (eq (with_file p h (mkInode "" mode false))) (set_private_key_permissions os h true)
    (fun r fs => exists mode', fs = with_file p h (mkInode "" mode' false) /\
       (r = Ok tt -> Z.land mode' PERMISSION_BITS = PRIVATE_KEY_FILE_MODE)).
Proof.
  assert (Hempty : forall m, tight (with_file p h (mkInode "" m false)))
    by (intros m; apply tight_with_file; by left).
  assert (Hfstat : forall m, tri calm H (eq (with_file p h (mkInode "" m false))) (fstat_mode h)
    (fun r fs => fs = with_file p h (mkInode "" m false) /\ forall a, r = Ok a -> a = m)).
  { intros m. eapply tri_conseq; [apply tri_query, H_ok, Hempty|done|]. intros r fs [<- Hr].
    rewrite inode_with_file in Hr. split; [done|]. intros a ->. by injection Hr. }
  unfold set_private_key_permissions.
  apply tri_bind with (R := fun a fs => with_file p h (mkInode "" mode false) = fs /\ a = mode).
  { eapply tri_conseq; [apply Hfstat|done|]. intros [a|e] fs [-> Ha]; [auto|].
    exists mode. split; [done|]. by intros [=]. }
  intros a. apply tri_pure. intros ->. simpl.
  set (bits := Z.land mode PERMISSION_BITS).
  apply tri_bind with (R := fun _ fs => with_file p h (mkInode "" mode false) = fs /\ excess bits = 0).
  { apply tri_ensure. intros fs <-. destruct (Z.eqb_spec (excess bits) 0); simpl; [done|].
    exists mode. split; [done|]. by intros [=]. }
  intros _. apply tri_pure. intros _.
  destruct (Z.eqb_spec bits PRIVATE_KEY_FILE_MODE) as [Hb|_].
  { apply tri_ret. intros fs <-. by exists mode. }
  apply tri_bind with (R := fun _ fs =>
    with_file p h (mkInode "" (os_chmod os PRIVATE_KEY_FILE_MODE) false) = fs).
  { apply tri_sys.
    - intros h' fs Hh <-. by rewrite Hh.
    - done.
    - intros n fs <-. exists mode. split; [done|]. by intros [=].
    - intros fs <-. cbn beta iota zeta. by rewrite set_with_file, inode_with_file.
    - intros [a|e] fs; [by intros <-; apply H_ok|]. intros (m & -> & _). by apply H_ok. }
  intros _. set (m := os_chmod os PRIVATE_KEY_FILE_MODE).
  apply tri_bind with (R := fun a fs => with_file p h (mkInode "" m false) = fs /\ a = m).
  { eapply tri_conseq; [apply Hfstat|done|]. intros [a|e] fs [-> Ha]; [auto|].
    exists m. split; [done|]. by intros [=]. }
  intros a. apply tri_pure. intros ->. apply tri_ensure. intros fs <-.
  destruct (Z.eqb_spec (Z.land m PERMISSION_BITS) PRIVATE_KEY_FILE_MODE) as [Hm|_];
    exists m; (split; [done|]); [done|by intros [=]].
Qed.

Lemma tri_write (p : FPath) (h : nat) (mode : Z) (s : string) :
  Z.land mode PERMISSION_BITS = PRIVATE_KEY_FILE_MODE ->
  tri calm H (eq (with_file p h (mkInode "" mode false))) (write_all h s)
    (fun r fs => exists c, fs = with_file p h (mkInode c mode false) /\ (r = Ok tt -> c = s)).
Proof.
  intros Hm.
  assert (Happ : forall c, append_to h c (with_file p h (mkInode "" mode false)) =
                           with_file p h (mkInode c mode false)).
  { intros c. unfold append_to. by rewrite inode_with_file, set_with_file. }
  apply tri_sys.
  - intros h' fs Hh <-. by rewrite Hh.
  - done.
  - intros n fs <-. rewrite Happ. eexists. split; [done|]. by intros [=].
  - intros fs <-. cbn beta iota zeta. rewrite Happ. by exists s.
  - intros r fs (c & -> & _). apply H_ok, tight_with_file. by right.
Qed.

Lemma tri_remove (p : FPath) (h : nat) (n : Inode) :
  tight (with_file p h n) -> fs_names fs0 !! p = None ->
  tri calm H (eq (with_file p h n)) (remove_file p)
    (fun r fs => fs_inodes fs = <[h := n]> (fs_inodes fs0) /\
                 (r = Ok tt -> fs_names fs = fs_names fs0)).
Proof.
  intros Ht Hp. apply tri_sys.
  - intros h' fs Hh <-. by rewrite Hh.
  - done.
  - intros m fs <-. split; [done|]. by intros [=].
  - intros fs <-. simpl. rewrite lookup_insert_eq. simpl.
    split; [done|]. intros _. by rewrite delete_insert_id.
  - intros r fs [Hi _]. apply H_ok. intros i n' Hi' Hnew. rewrite Hi in Hi'. exact (Ht i n' Hi' Hnew).
Qed.

(** The way out of a failure: the file is removed and the failure reported, or the failure
    to remove it. *)
Lemma tri_undo (p : FPath) (h : nat) (n : Inode) (e : KeyError) :
  tight (with_file p h n) -> fs_names fs0 !! p = None -> fs_inodes fs0 !! h = None ->
  tri calm H (eq (with_file p h n))
    (removed ← attempt (remove_file p);
     match removed with Err k => kfail (A := unit) (RemoveFailed k) | Ok _ => kfail e end)
    (fun r fs => match r with
       | Ok _ => False
       | Err (RemoveFailed _) => True
       | Err _ => fs_names fs = fs_names fs0 /\ fs_inodes fs0 ⊆ fs_inodes fs
       end).
Proof.
  intros Ht Hp Hh. eapply tri_bind with (R := fun r fs =>
    r = Ok tt -> fs_names fs = fs_names fs0 /\ fs_inodes fs0 ⊆ fs_inodes fs).
  { eapply tri_conseq; [apply tri_attempt, tri_remove; done|done|].
    intros [r|e'] fs; [|done]. intros [Hi Hn] Hok. split; [auto|]. rewrite Hi.
    by apply insert_subseteq. }
  intros [[]|k']; [|by apply tri_fail].
  apply tri_fail. intros fs Hfs. destruct e; auto.
Qed.

(** The private key file: made whole and the owner's alone, or not at all, unless removing
    what was made failed too. *)
Lemma tri_create_private (path : FPath) (contents : string) :
  tri calm H (eq fs0) (create_private_key_file os path contents) (fun r fs =>
    match r with
    | Ok _ => exists p h mode k, (k < 40)%nat /\ links fs0 path k p /\ fs_names fs0 !! p = None /\
        fs_inodes fs0 !! h = None /\ fs = with_file p h (mkInode contents mode false) /\
        Z.land mode PERMISSION_BITS = PRIVATE_KEY_FILE_MODE
    | Err (RemoveFailed _) => True
    | Err _ => fs_names fs = fs_names fs0 /\ fs_inodes fs0 ⊆ fs_inodes fs
    end).
Proof.
  unfold create_private_key_file.
  apply tri_bind with (R := fun p fs => fs0 = fs /\ exists k, (k < 40)%nat /\ links fs0 path k p).
  { eapply tri_conseq; [apply (tri_resolve H fs0 40), H_ok, tight_here|done|].
    intros [p|e] fs [<- Hp]; [|by destruct e].
    split; [done|]. destruct (Hp p eq_refl) as (k & ? & ? & _). eauto. }
  intros p. apply tri_pure. intros (k & Hk & Hl).
  apply tri_bind with (R := fun h fs =>
    with_file p h (mkInode "" (os_create os PRIVATE_KEY_FILE_MODE) false) = fs /\
    (fs_names fs0 !! p = None /\ fs_inodes fs0 !! h = None)).
  { eapply tri_conseq; [apply tri_create_new|done|]. intros [h|e] fs.
    - by intros (? & ? & ->).
    - intros ->. by destruct e. }
  intros h. apply tri_pure. intros [Hp Hh].
  apply tri_bind with (R := fun r fs => exists c mode, fs = with_file p h (mkInode c mode false) /\
    tight fs /\ (r = Ok tt -> c = contents /\ Z.land mode PERMISSION_BITS = PRIVATE_KEY_FILE_MODE)).
  { eapply tri_conseq; [apply tri_attempt|done|intros [r|e] fs Hr; [exact Hr|done]].
    apply tri_bind with (R := fun _ fs => exists mode,
      fs = with_file p h (mkInode "" mode false) /\
      Z.land mode PERMISSION_BITS = PRIVATE_KEY_FILE_MODE).
    { eapply tri_conseq; [apply tri_permissions|done|].
      intros [[]|e] fs (mode & -> & Hm); [by eauto|].
      exists "", mode. split; [done|]. split; [apply tight_with_file; by left|]. by intros [=]. }
    intros _ w Hg HH (mode & Hw & Hm).
    destruct (tri_write p h mode contents Hm w Hg HH (eq_sym Hw)) as (? & ? & c & Hc & Hr).
    split; [done|]. split; [done|]. exists c, mode. split; [done|]. split; [|by auto].
    rewrite Hc. apply tight_with_file. by right. }
  intros r w Hg HH (c & mode & Hw & Ht & Hr).
  destruct r as [[]|e].
  { simpl. split; [done|]. split; [done|]. destruct (Hr eq_refl) as [-> Hm].
    exists p, h, mode, k. auto 10. }
  rewrite Hw in Ht. destruct (tri_undo p h _ e Ht Hp Hh w Hg HH (eq_sym Hw)) as (? & ? & Hq).
  split; [done|]. split; [done|]. revert Hq.
  match goal with |- context [(?m w).1] => by destruct (m w) as [[?|?] ?] end.
Qed.

End Private.

(** ** The same among other processes *)

Section Watched.
  Context {keylib : KeyLib} {temp : TempFileLib} (os : Os) (fs0 : FS).

(** What other processes may do: anything to the names, be it moving links about between two
    calls, and anything to the files that were there from the start; and add files of their own,
    as long as these are their owner's alone or empty.  They leave a file that came later alone. *)
Definition hands_off (h : Hap) : Prop := forall fs i,
  match fs_inodes fs0 !! i with
  | Some _ => is_Some (fs_inodes fs !! i) -> is_Some (fs_inodes (h_others h fs) !! i)
  | None => fs_inodes (h_others h fs) !! i = fs_inodes fs !! i \/
      fs_inodes fs !! i = None /\
      forall n, fs_inodes (h_others h fs) !! i = Some n -> i_contents n <> "" ->
        Z.land (i_mode n) PERMISSION_BITS = PRIVATE_KEY_FILE_MODE
  end.

Definition watched (fs : FS) : Prop :=
  (forall i, is_Some (fs_inodes fs0 !! i) -> is_Some (fs_inodes fs !! i)) /\ tight fs0 fs.

(** The file that was made, still without contents. *)
Definition empty_file (h : nat) (mode : Z) (fs : FS) : Prop :=
  watched fs /\ exists d, fs_inodes fs !! h = Some (mkInode "" mode d).

Abbreviation guarded P m Q := (tri hands_off (tight fs0) P m Q).

Lemma watched_others h fs : hands_off h -> watched fs -> watched (h_others h fs).
Proof.
  intros Hh [Hd Ht]. split.
  - intros i Hi. specialize (Hh fs i). destruct Hi as [n Hn]. rewrite Hn in Hh. apply Hh, Hd. eauto.
  - intros i n Hn Hnew Hc. specialize (Hh fs i). rewrite Hnew in Hh.
    destruct Hh as [E|[_ Hadd]]; [|by apply Hadd]. rewrite E in Hn. by apply (Ht i n).
Qed.

Lemma empty_others h mode hap fs : fs_inodes fs0 !! h = None ->
  hands_off hap -> empty_file h mode fs -> empty_file h mode (h_others hap fs).
Proof.
  intros Hnew Hh [Hw [d Hd]]. split; [by apply watched_others|]. exists d.
  specialize (Hh fs h). rewrite Hnew in Hh. by destruct Hh as [->|[E _]]; [|rewrite E in Hd].
Qed.

Lemma watched_query {A} (f : FS -> result IoKind A) : guarded watched (query f) (fun _ => watched).
Proof.
  apply tri_sys; [by intros; apply watched_others|done|done| |by intros ? ? []].
  intros fs Hw. by destruct (f fs).
Qed.

Lemma empty_query {A} h mode (f : FS -> result IoKind A) : fs_inodes fs0 !! h = None ->
  guarded (empty_file h mode) (query f)
    (fun r fs => empty_file h mode fs /\ forall a, r = Ok a -> f fs = Ok a).
Proof.
  intros Hnew. apply tri_sys; [by intros; apply empty_others|done| | |].
  - intros ? fs He. split; [done|]. by intros ? [=].
  - intros fs He. destruct (f fs) eqn:E; (split; [done|]); [by intros ? [= <-]|by intros ? [=]].
  - by intros ? ? [[[]] _].
Qed.

Lemma watched_resolve n p : guarded watched (resolve_loop n p) (fun _ => watched).
Proof.
  revert p. induction n as [|n IH]; intros p; simpl; [by apply tri_fail|].
  apply tri_bind with (R := fun _ => watched).
  { eapply tri_conseq; [apply tri_attempt, watched_query|done|]. by intros []. }
  intros [[i|t]|[[]| | | | | | |]]; try (by apply tri_fail); try (by apply tri_ret).
  apply tri_bind with (R := fun _ => watched); [|intros; apply IH].
  eapply tri_conseq; [apply watched_query|done|]. by intros [].
Qed.

(** Replacing a new file by one that is in order. *)
Lemma watched_set_inode h n fs :
  (i_contents n <> "" -> Z.land (i_mode n) PERMISSION_BITS = PRIVATE_KEY_FILE_MODE) ->
  watched fs -> watched (set_inode h n fs).
Proof.
  intros Hn [Hd Ht]. split.
  - intros i Hi. simpl. apply lookup_insert_is_Some'. auto.
  - intros i n' Hi Hnew Hc. simpl in Hi. apply lookup_insert_Some in Hi as [[<- <-]|[_ Hi]]; [auto|].
    by apply (Ht i n').
Qed.

Lemma watched_create_new p mode : guarded watched (create_new os p mode) (fun r fs =>
  match r with
  | Ok h => fs_inodes fs0 !! h = None /\ empty_file h (os_create os mode) fs
  | Err _ => watched fs
  end).
Proof.
  apply tri_sys; [by intros; apply watched_others|done|done| |].
  - intros fs Hw. destruct (fs_names fs !! p); [done|].
    set (h := fresh _). assert (Hf : fs_inodes fs !! h = None) by apply not_elem_of_dom, is_fresh.
    split; [|split; [|exists false; apply lookup_insert_eq]].
    + apply eq_None_not_Some. intros Hi%(proj1 Hw). rewrite Hf in Hi. by destruct Hi.
    + by apply (watched_set_inode h (mkInode "" (os_create os mode) false) fs).
  - intros [h|e] fs; [by intros (_ & [] & _)|by intros []].
Qed.

Lemma empty_fstat h mode : fs_inodes fs0 !! h = None ->
  guarded (empty_file h mode) (fstat_mode h)
    (fun r fs => empty_file h mode fs /\ forall a, r = Ok a -> a = mode).
Proof.
  intros Hnew. eapply tri_conseq; [by apply empty_query|done|]. intros r fs [He Hr].
  split; [done|]. intros a Ha%Hr. destruct He as [_ [d Hd]]. unfold inode_of in Ha. rewrite Hd in Ha.
  by injection Ha.
Qed.

Lemma empty_fchmod h mode mode' : fs_inodes fs0 !! h = None ->
  guarded (empty_file h mode) (fchmod os h mode') (fun r fs =>
    match r with Ok _ => empty_file h (os_chmod os mode') fs | Err _ => empty_file h mode fs end).
Proof.
  intros Hnew. apply tri_sys; [by intros; apply empty_others|done|done| |].
  - intros fs [Hw [d Hd]]. cbn beta iota zeta. unfold inode_of. rewrite Hd. cbn.
    split; [by apply watched_set_inode|]. exists d. apply lookup_insert_eq.
  - by intros [] fs [[]].
Qed.

(** The permissions of the file that was made are in order before it is written. *)
Lemma empty_permissions h mode : fs_inodes fs0 !! h = None ->
  guarded (empty_file h mode) (set_private_key_permissions os h true)
    (fun r fs => exists mode', empty_file h mode' fs /\
       (r = Ok tt -> Z.land mode' PERMISSION_BITS = PRIVATE_KEY_FILE_MODE)).
Proof.
  intros Hnew. unfold set_private_key_permissions.
  assert (Hst : forall m {B} (f : Z -> K B) Q, guarded (empty_file h m) (f m) Q ->
    (forall fs e, empty_file h m fs -> Q (Err e) fs) -> guarded (empty_file h m) (fstat_mode h ≫= f) Q).
  { intros m B f Q Hf HQ. apply tri_bind with (R := fun a fs => empty_file h m fs /\ a = m).
    - eapply tri_conseq; [by apply empty_fstat|done|]. intros [a|e] fs [He Ha]; auto.
    - intros a. apply tri_pure. by intros ->. }
  assert (Hfail : forall m fs e, empty_file h m fs -> exists m', empty_file h m' fs /\
    (@Err KeyError unit e = Ok tt -> Z.land m' PERMISSION_BITS = PRIVATE_KEY_FILE_MODE)).
  { intros m fs e He. exists m. split; [done|]. by intros [=]. }
  apply Hst; [|eauto]. cbn [negb andb orb].
  apply tri_bind with (R := fun _ => empty_file h mode).
  { apply tri_ensure. intros fs He. destruct (_ =? 0); eauto. }
  intros _. destruct (Z.eqb_spec (Z.land mode PERMISSION_BITS) PRIVATE_KEY_FILE_MODE) as [Hb|_].
  { apply tri_ret. intros fs He. by exists mode. }
  apply tri_bind with (R := fun _ => empty_file h (os_chmod os PRIVATE_KEY_FILE_MODE)).
  { eapply tri_conseq; [by apply (empty_fchmod h mode)|done|]. intros [[]|e] fs He; eauto. }
  intros _. apply Hst; [|eauto]. apply tri_ensure. intros fs He.
  destruct (Z.eqb_spec (Z.land (os_chmod os PRIVATE_KEY_FILE_MODE) PERMISSION_BITS) PRIVATE_KEY_FILE_MODE);
    eauto.
Qed.

Lemma empty_write h mode s : fs_inodes fs0 !! h = None ->
  Z.land mode PERMISSION_BITS = PRIVATE_KEY_FILE_MODE ->
  guarded (empty_file h mode) (write_all h s) (fun _ => watched).
Proof.
  intros Hnew Hm.
  assert (Happ : forall s fs, empty_file h mode fs -> watched (append_to h s fs)).
  { intros s' fs [Hw [d Hd]]. unfold append_to, inode_of. rewrite Hd. by apply watched_set_inode. }
  apply tri_sys; [by intros; apply empty_others|done|by intros; apply Happ|by intros; apply Happ|].
  by intros ? ? [].
Qed.

Lemma watched_remove p : guarded watched (remove_file p) (fun _ => watched).
Proof.
  apply tri_sys; [by intros; apply watched_others|done|done| |by intros ? ? []].
  intros fs Hw. by destruct (fs_names fs !! p).
Qed.

Lemma watched_create_private path contents :
  guarded watched (create_private_key_file os path contents) (fun _ => watched).
Proof.
  unfold create_private_key_file. apply tri_bind with (R := fun _ => watched).
  { eapply tri_conseq; [apply watched_resolve|done|]. by intros []. }
  intros p. apply tri_bind with (R := fun h fs =>
    empty_file h (os_create os PRIVATE_KEY_FILE_MODE) fs /\ fs_inodes fs0 !! h = None).
  { eapply tri_conseq; [apply watched_create_new|done|]. by intros [h|e] fs; [intros []|]. }
  intros h. apply tri_pure. intros Hnew. apply tri_bind with (R := fun _ => watched).
  { eapply tri_conseq; [apply tri_attempt with (Q := fun _ => watched)|done|by intros []].
    apply tri_bind with (R := fun _ fs => exists m, empty_file h m fs /\
      Z.land m PERMISSION_BITS = PRIVATE_KEY_FILE_MODE).
    { eapply tri_conseq; [by apply empty_permissions|done|]. intros [[]|e] fs (m & He & Hm); [eauto|].
      apply He. }
    intros _ w Hg HH (m & He & Hm). by apply (empty_write h m contents Hnew Hm w Hg HH). }
  intros [[]|e]; [by apply tri_ret|]. apply tri_bind with (R := fun _ => watched).
  { eapply tri_conseq; [apply tri_attempt, watched_remove|done|]. by intros []. }
  intros [[]|k]; by apply tri_fail.
Qed.

End Watched.

Section KeyClaims.
  Context {keylib : KeyLib} {key_laws : KeyLibLaws keylib}.
  Context {temp : TempFileLib} {temp_laws : TempFileLaws temp} (os : Os).

(** Others do not change this file's mode. *)
Definition leaves_mode (h : nat) (hap : Hap) : Prop :=
  forall fs, i_mode (inode_of (h_others hap fs) h) = i_mode (inode_of fs h).

(** Accepting a private key that was already there: it has no more permissions than it may
    have. *)
Lemma permissions_checked (h : nat) (w : World) :
  Forall (leaves_mode h) (w_haps w) ->
  (set_private_key_permissions os h false w).1 = Ok tt ->
  excess (Z.land (i_mode (inode_of (w_fs (set_private_key_permissions os h false w).2) h))
            PERMISSION_BITS) = 0.
Proof.
  intros Hc. set (any := fun _ : FS => True).
  assert (Hst : forall m, tri (leaves_mode h) any (fun fs => i_mode (inode_of fs h) = m) (fstat_mode h)
    (fun r fs => i_mode (inode_of fs h) = m /\ forall a, r = Ok a -> a = m)).
  { intros m. apply tri_sys; try done.
    - intros h' fs Hh Hm. by rewrite Hh.
    - intros fs Hm. split; [done|]. by intros a [= <-]. }
  assert (Ht : forall m, tri (leaves_mode h) any (fun fs => i_mode (inode_of fs h) = m)
    (set_private_key_permissions os h false) (fun r fs => r = Ok tt ->
       excess (Z.land (i_mode (inode_of fs h)) PERMISSION_BITS) = 0)).
  { intros m. unfold set_private_key_permissions.
    apply tri_bind with (R := fun a fs => i_mode (inode_of fs h) = m /\ a = m).
    { eapply tri_conseq; [apply (Hst m)|done|]. intros [a|e] fs [Hm Ha]; [auto|by intros [=]]. }
    intros a. apply tri_pure. intros ->. cbn [negb andb orb].
    destruct (Z.eqb_spec (excess (Z.land m PERMISSION_BITS)) 0) as [He|_].
    { apply tri_ret. by intros fs -> _. }
    apply tri_bind with (R := fun _ fs => i_mode (inode_of fs h) = m); [by apply tri_ret|].
    intros _. destruct (Z.eqb_spec (Z.land m PERMISSION_BITS) PRIVATE_KEY_FILE_MODE) as [He|_].
    { apply tri_ret. intros fs -> _. by rewrite He. }
    apply tri_bind with (R := fun _ fs => i_mode (inode_of fs h) = os_chmod os PRIVATE_KEY_FILE_MODE).
    { apply tri_sys; try done.
      - intros h' fs Hh Hm. by rewrite Hh.
      - intros fs _. unfold inode_of, set_inode. simpl. by rewrite lookup_insert_eq. }
    intros _. set (m' := os_chmod os PRIVATE_KEY_FILE_MODE).
    apply tri_bind with (R := fun a fs => i_mode (inode_of fs h) = m' /\ a = m').
    { eapply tri_conseq; [apply (Hst m')|done|]. intros [a|e] fs [Hm Ha]; [auto|by intros [=]]. }
    intros a. apply tri_pure. intros ->. apply tri_ensure. intros fs ->.
    destruct (Z.eqb_spec (Z.land m' PERMISSION_BITS) PRIVATE_KEY_FILE_MODE) as [E|_];
      [by rewrite E|by intros [=]]. }
  destruct (Ht (i_mode (inode_of (w_fs w) h)) w Hc) as (_ & _ & H); [|done|exact H].
  by apply Forall_true.
Qed.

(** C8: while [create_private_key_file] makes a new private key file, whatever call fails and
    whatever other processes do to names and links and to the files that were there, as long as
    they leave files that are new alone and add none of their own that others can read: in every
    state the files go through, a file that was not there before and has contents is readable
    and writable by its owner and by nobody else, whatever mode the system gave it at first.
    And [set_private_key_permissions] accepts a file that was there as private key, unless
    others change its mode meanwhile, only with no more than these permissions. *)
Theorem private_key_never_exposed (path : FPath) (contents : string) (w : World) (h : nat) :
  w_hist w = [] ->
  (Forall (hands_off (w_fs w)) (w_haps w) ->
   Forall (tight (w_fs w)) (w_hist (create_private_key_file os path contents w).2)) /\
  (Forall (leaves_mode h) (w_haps w) -> (set_private_key_permissions os h false w).1 = Ok tt ->
   excess (Z.land (i_mode (inode_of (w_fs (set_private_key_permissions os h false w).2) h))
             PERMISSION_BITS) = 0).
Proof.
  intros Hh. split; [|by apply permissions_checked]. intros Hg.
  apply (watched_create_private os (w_fs w) path contents w Hg); [by rewrite Hh|].
  split; [done|]. apply tight_here.
Qed.

(** ** A store of one key *)

(** What the files hold: no key, one key, or something that is not a key. *)
Inductive KeyStore := KsEmpty | KsKey (sk : SecretKey) | KsBroken.

Definition key_store (fs : FS) : KeyStore :=
  match follow SYSTEM_SYMLINKS fs sk_file with
  | Err NotFound => KsEmpty
  | Err _ => KsBroken
  | Ok i =>
      let n := inode_of fs i in
      if i_dir n then KsBroken
      else match parse_key (i_contents n) with Some sk => KsKey sk | None => KsBroken end
  end.

(** What the name of the public key leads to: nothing, a text, or something that is no file. *)
Inductive PubStore := PubNone | PubText (text : string) | PubBroken.

Definition public_key (fs : FS) : PubStore :=
  match follow SYSTEM_SYMLINKS fs pub_file with
  | Err NotFound => PubNone
  | Err _ => PubBroken
  | Ok i =>
      let n := inode_of fs i in if i_dir n then PubBroken else PubText (trim (i_contents n))
  end.

(** The operation on the private half, given the key that would be made: it hands out the key
    that is there, or makes one.  A failure leaves it as it was, or with the new key, or, when
    half a key could not be removed, in a state the error says nothing about. *)
Inductive secret_get (new : SecretKey) : KeyStore -> result KeyError (string * SecretKey) ->
    KeyStore -> Prop :=
| ks_have sk : secret_get new (KsKey sk) (Ok (b64_encode (sk_public sk), sk)) (KsKey sk)
| ks_make : secret_get new KsEmpty (Ok (b64_encode (sk_public new), new)) (KsKey new)
| ks_fail s e : secret_get new s (Err e) s
| ks_unpublished e : secret_get new KsEmpty (Err e) (KsKey new)
| ks_left_over e s : secret_get new KsEmpty (Err (RemoveFailed e)) s.

(** The store's one operation, on both halves: a public key that is there is left as it is; when
    a key is handed out it is the public half of that key, or, for a key that was there, still
    missing. *)
Definition ks_get (new : SecretKey) (x : KeyStore * PubStore) (r : result KeyError (string * SecretKey))
    (y : KeyStore * PubStore) : Prop :=
  secret_get new x.1 r y.1 /\
  (x.2 <> PubNone -> y.2 = x.2) /\
  match r with
  | Ok (pk, _) => y.2 = PubText pk \/ (x.1 <> KsEmpty /\ y.2 = PubNone)
  | Err _ => True
  end.

Definition key_pair (fs : FS) : KeyStore * PubStore := (key_store fs, public_key fs).

(** Every name of a file has the file. *)
Definition fs_wf (fs : FS) : Prop :=
  forall p i, fs_names fs !! p = Some (NFile i) -> is_Some (fs_inodes fs !! i).

Lemma follow_wf (n : nat) (fs : FS) (p : FPath) (i : nat) :
  fs_wf fs -> follow n fs p = Ok i -> is_Some (fs_inodes fs !! i).
Proof.
  intros Hwf. revert p. induction n as [|n IH]; intros p; simpl;
    destruct (fs_names fs !! p) as [[j|t]|] eqn:Hp; try done; intros Hi; eauto.
  all: injection Hi as <-; by eapply Hwf.
Qed.

(** A store that is not empty does not change as long as nothing is overwritten. *)
Lemma key_store_extends (fs fs' : FS) :
  fs_wf fs -> extends fs fs' -> key_store fs <> KsEmpty -> key_store fs' = key_store fs.
Proof.
  intros Hwf Hext Hne. unfold key_store in *.
  assert (Hf : follow SYSTEM_SYMLINKS fs sk_file <> Err NotFound).
  { intros E. by rewrite E in Hne. }
  destruct Hext as [Hn Hi] eqn:He.
  rewrite (follow_mono _ _ _ _ Hn Hf). destruct (follow _ fs sk_file) as [i|k] eqn:Ei; [|done].
  destruct (follow_wf _ _ _ _ Hwf Ei) as [n Hin].
  destruct (extends_inode_of fs fs' i n Hext Hin) as [-> ->].
  unfold inode_of. by rewrite Hin.
Qed.

Lemma key_store_names (fs fs' : FS) :
  fs_names fs' = fs_names fs -> key_store fs = KsEmpty -> key_store fs' = KsEmpty.
Proof.
  intros Hn. unfold key_store.
  assert (Hf : forall n p, follow n fs' p = follow n fs p).
  { intros n. induction n as [|n IH]; intros p; simpl; rewrite Hn; [done|].
    destruct (fs_names fs !! p) as [[]|]; auto. }
  rewrite Hf. destruct (follow _ fs sk_file) as [i|[]]; try done.
  destruct (i_dir (inode_of fs i)); [done|]. by destruct (parse_key _).
Qed.

(** From here on the others do nothing; calls may still fail. *)
Definition anything : FS -> Prop := fun _ => True.

Lemma calm_respectful (fs : FS) (h : Hap) : calm h -> respectful fs h.
Proof. intros Hh fs' Hfs. by rewrite Hh. Qed.

Abbreviation keeps_calm fs m Q := (keeps fs calm anything m Q).

Lemma tri_of_keeps {A} (fs : FS) (m : K A) (Q : A -> Prop) :
  keeps_calm fs m Q ->
  tri calm anything (eq fs) m (fun r fs' => extends fs fs' /\ forall a, r = Ok a -> Q a).
Proof. intros Hm. eapply tri_conseq; [exact Hm| |done]. by intros ? <-. Qed.

(** Publishing the public key leaves the store alone. *)
Lemma tri_pub (uuid pk : string) (required : bool) (s : KeyStore) :
  s <> KsEmpty ->
  tri calm anything (fun fs => key_store fs = s /\ fs_wf fs)
    (write_public_key os uuid pub_file pk required) (fun _ fs => key_store fs = s).
Proof.
  intros Hs w Hg HH [Hw Hwf].
  destruct (tri_of_keeps _ _ _ (keeps_write_public_key os (w_fs w) calm (calm_respectful _)
              anything (fun _ _ => I) uuid pub_file pk required) w Hg HH eq_refl)
    as (? & ? & Hext & _).
  split; [done|]. split; [done|]. rewrite <- Hw. by apply key_store_extends; rewrite ?Hw.
Qed.

(** Following links to a name that is no link. *)
Lemma follow_end (fs : FS) (p q : FPath) (k : nat) :
  (k < 40)%nat -> links fs p k q -> ~ is_link fs q ->
  follow SYSTEM_SYMLINKS fs p =
    match fs_names fs !! q with Some (NFile i) => Ok i | _ => Err NotFound end.
Proof.
  intros Hk Hl Hq. replace SYSTEM_SYMLINKS with (k + (40 - k))%nat by (unfold SYSTEM_SYMLINKS; lia).
  rewrite (follow_links _ _ _ _ _ Hl).
  destruct (40 - k)%nat; simpl; destruct (fs_names fs !! q) as [[i|t]|] eqn:E; try done;
    by destruct Hq; exists t.
Qed.

(** Reading a file by its name. *)
Definition read_of (fs : FS) (q : FPath) (r : result KeyError string) : Prop :=
  match r with
  | Ok c => exists i, follow SYSTEM_SYMLINKS fs q = Ok i /\ i_dir (inode_of fs i) = false /\
      c = i_contents (inode_of fs i)
  | Err (Io NotFound) => follow SYSTEM_SYMLINKS fs q = Err NotFound
  | Err _ => True
  end.

Lemma tri_read (fs0 : FS) (q : FPath) :
  tri calm anything (eq fs0) (read_to_string q) (fun r fs => fs0 = fs /\ read_of fs0 q r).
Proof.
  unfold read_to_string. apply tri_bind with (R := fun h fs => fs0 = fs /\ follow SYSTEM_SYMLINKS fs0 q = Ok h).
  - eapply tri_conseq; [by apply tri_query|done|]. intros [h|e] fs [<- Hr]; [done|].
    split; [done|]. destruct Hr as [->|(x & -> & Hx)]; [done|]. by destruct x.
  - intros h. apply tri_pure. intros Hh. eapply tri_conseq; [by apply tri_query|done|].
    intros r fs [<- Hr]. split; [done|]. cbv zeta in Hr. destruct r as [c|e].
    + exists h. destruct (i_dir (inode_of fs0 h)); [done|]. by injection Hr as <-.
    + destruct Hr as [->|(x & -> & Hx)]; [done|]. destruct (i_dir _); [|done]. by injection Hx as <-.
Qed.

(** Where the public key is, or where it is to be. *)
Lemma tri_missing (fs0 : FS) (pk : string) :
  tri calm anything (eq fs0) (missing_public_key_path pub_file pk) (fun r fs => fs0 = fs /\
    match r with
    | Ok None => public_key fs0 = PubText pk
    | Ok (Some p) => exists k, (k < 40)%nat /\ links fs0 pub_file k p /\ fs_names fs0 !! p = None
    | Err _ => True
    end).
Proof.
  unfold missing_public_key_path. apply tri_bind with (R := fun q fs => fs0 = fs /\
    exists k, (k < 40)%nat /\ links fs0 pub_file k q /\ ~ is_link fs0 q).
  { eapply tri_conseq; [by apply (tri_resolve anything fs0 40)|done|]. intros [q|e] fs [<- Hq]; auto. }
  intros q. apply tri_pure. intros (k & Hk & Hl & Hq).
  pose proof (follow_end fs0 pub_file q k Hk Hl Hq) as Hf.
  pose proof (follow_end fs0 q q 0 ltac:(lia) (links_here fs0 q) Hq) as Hfq.
  apply tri_bind with (R := fun r fs => fs0 = fs /\ read_of fs0 q r).
  { eapply tri_conseq; [apply tri_attempt, tri_read|done|]. by intros [r|e] fs. }
  intros r. apply tri_pure. intros Hr.
  destruct r as [c|[[]| | | | | | |]]; try (by apply tri_fail; intros fs <-).
  - destruct Hr as (i & Hi & Hd & ->). case_bool_decide as Hc; [|by apply tri_fail; intros fs <-].
    apply tri_ret. intros fs <-. split; [done|]. unfold public_key. by rewrite Hf, <- Hfq, Hi, Hd, Hc.
  - apply tri_ret. intros fs <-. split; [done|]. exists k. split; [done|]. split; [done|].
    unfold read_of in Hr. rewrite Hfq in Hr. destruct (fs_names fs0 !! q) as [[i|t]|] eqn:E; [done| |done].
    by destruct Hq; exists t.
Qed.

(** Making a key in an empty store. *)
Lemma tri_create_sk (fs0 : FS) (ch : Chance) :
  fs_wf fs0 -> key_store fs0 = KsEmpty ->
  let new := choose_key 300 (ch_key ch) 0 in
  tri calm anything (eq fs0) (create_sk os ch) (fun r fs => secret_get new KsEmpty r (key_store fs)).
Proof.
  intros Hwf Hempty new. unfold create_sk. fold new.
  apply tri_bind with (R := fun _ fs => fs0 = fs).
  { eapply tri_conseq; [apply tri_missing|done|]. intros [o|e] fs [<- _]; [done|].
    rewrite Hempty. apply ks_fail. }
  intros _. apply tri_bind with (R := fun _ fs => key_store fs = KsKey new /\ fs_wf fs).
  - eapply tri_conseq; [apply (tri_create_private os fs0 anything (fun _ _ => I))|done|].
    intros [[]|e] fs.
    + intros (p & h & mode & k & Hk & Hl & Hp & Hh & -> & _). split.
      * unfold key_store.
        assert (Hsub : fs_names fs0 ⊆ fs_names (with_file fs0 p h
          (mkInode (b64_encode (sk_bytes new)) mode false))) by (by apply insert_subseteq).
        rewrite (follow_end _ _ p k Hk (links_mono _ _ _ _ _ Hsub Hl)).
        2: { intros [x Hx]. simpl in Hx. by rewrite lookup_insert_eq in Hx. }
        simpl. rewrite lookup_insert_eq, inode_with_file. simpl.
        unfold parse_key. rewrite b64_trim, b64_round. simpl. by rewrite sk_round.
      * intros q i. simpl. rewrite lookup_insert_Some. intros [[<- [= <-]]|[_ Hq]].
        { rewrite lookup_insert_eq. eauto. }
        apply Hwf in Hq. apply lookup_insert_is_Some. destruct (decide (h = i)); auto.
    + assert (Hsame : fs_names fs = fs_names fs0 -> secret_get new KsEmpty (Err e) (key_store fs)).
      { intros Hn. rewrite (key_store_names fs0 fs Hn Hempty). apply ks_fail. }
      destruct e; try (intros [Hn _]; by apply Hsame). intros _. apply ks_left_over.
  - intros _. apply tri_bind with (R := fun _ fs => key_store fs = KsKey new).
    { eapply tri_conseq; [by apply (tri_pub _ _ _ (KsKey new))|done|].
      intros [[]|e] fs Hfs; [done|]. rewrite Hfs. apply ks_unpublished. }
    intros _. apply tri_ret. intros fs ->. apply ks_make.
Qed.

(** Handing out the key that is there. *)
Lemma tri_load_sk (fs0 : FS) (ch : Chance) (h : nat) (new : SecretKey) :
  fs_wf fs0 -> follow SYSTEM_SYMLINKS fs0 sk_file = Ok h ->
  tri calm anything (eq fs0) (load_sk os ch h)
    (fun r fs => secret_get new (key_store fs0) r (key_store fs)).
Proof.
  intros Hwf Hf. destruct (follow_wf _ _ _ _ Hwf Hf) as [n Hn].
  eapply tri_conseq; [eapply tri_of_keeps, (keeps_load_sk os fs0 calm (calm_respectful _)
                        anything (fun _ _ => I) ch h n Hn)|done|].
  intros r fs [Hext Hr].
  assert (Hs : key_store fs = key_store fs0).
  { apply key_store_extends; [done|done|]. unfold key_store. rewrite Hf.
    cbv zeta. by repeat case_match. }
  rewrite Hs. destruct r as [[pk sk]|e]; [|apply ks_fail].
  destruct (Hr _ eq_refl) as (Hd & Hp & Hpk). cbn [fst snd] in *. subst pk.
  assert (Hi : inode_of fs0 h = n) by (unfold inode_of; by rewrite Hn).
  unfold key_store. rewrite Hf, Hi, Hd, Hp. apply ks_have.
Qed.

Lemma tri_wait (fs0 : FS) (wait : Z) :
  tri calm anything (eq fs0)
    (if 0 <? wait then
       found ← path_exists sk_file; if (found : bool) then mret tt else ksleep
     else mret tt) (fun _ fs => fs0 = fs).
Proof.
  destruct (0 <? wait); [|by apply tri_ret].
  assert (Hq : forall A (f : FS -> result IoKind A), tri calm anything (eq fs0) (attempt (query f))
    (fun _ fs => fs0 = fs)).
  { intros A f. eapply tri_conseq; [by apply tri_attempt, tri_query|done|]. intros [r|e] fs; [|done].
    by intros [<- _]. }
  apply tri_bind with (R := fun _ fs => fs0 = fs).
  { unfold path_exists. apply tri_bind with (R := fun _ fs => fs0 = fs); [|by intros; apply tri_ret].
    eapply tri_conseq; [apply Hq|done|]. by intros [] fs. }
  intros []; [by apply tri_ret|]. unfold ksleep.
  apply tri_bind with (R := fun _ fs => fs0 = fs); [|by intros; apply tri_ret].
  eapply tri_conseq; [apply Hq|done|]. by intros [] fs.
Qed.

Lemma tri_secret (fs0 : FS) (ch : Chance) (wait : Z) : fs_wf fs0 ->
  let new := choose_key 300 (ch_key ch) 0 in
  tri calm anything (eq fs0) (gen_sk os ch wait)
    (fun r fs => secret_get new (key_store fs0) r (key_store fs)).
Proof.
  intros Hwf new.
  unfold gen_sk. apply tri_bind with (R := fun _ fs => fs0 = fs).
  { eapply tri_conseq; [apply tri_wait|done|]. intros [[]|e] fs <-; [done|]. apply ks_fail. }
  intros _. apply tri_bind with (R := fun r fs => fs0 = fs /\
    match r with
    | Ok h => follow SYSTEM_SYMLINKS fs0 sk_file = Ok h
    | Err (Io NotFound) => key_store fs0 = KsEmpty
    | Err _ => True
    end).
  { eapply tri_conseq; [by apply tri_attempt, tri_query|done|]. intros [r|e] fs; [|done].
    intros [<- Hr]. split; [done|]. destruct r as [h|e]; [done|].
    destruct Hr as [->|(k & -> & Hk)]; [done|]. unfold key_store. rewrite Hk. by destruct k. }
  intros r. apply tri_pure. intros Hr.
  assert (Hfail : forall e, tri calm anything (eq fs0) (kfail e)
    (fun r fs => secret_get new (key_store fs0) r (key_store fs))).
  { intros e. apply tri_fail. intros fs <-. apply ks_fail. }
  destruct r as [h|[[]| | | | | | |]]; try apply Hfail.
  - by apply tri_load_sk.
  - rewrite Hr. by apply tri_create_sk.
Qed.


(** The temporary name is not one that the public key's links lead to. *)
Definition unused (uuid : string) (fs : FS) : Prop :=
  forall k q, links fs pub_file k q -> last q.2 <> Some (".id_ed25519.pub." +:+ uuid).

Lemma with_file_name_last (p : FPath) (name : string) : last (with_file_name p name).2 = Some name.
Proof. unfold with_file_name, push. simpl. repeat case_match; simpl; apply last_snoc. Qed.

Lemma links_add_file (fs fs' : FS) (p a q : FPath) (h k : nat) :
  fs_names fs' = <[p := NFile h]> (fs_names fs) -> links fs' a k q -> links fs a k q.
Proof.
  intros Hn. induction 1 as [a|a t k q Ha _ IH]; [constructor|].
  rewrite Hn in Ha. apply lookup_insert_Some in Ha as [[_ [=]]|[_ Ha]]. by econstructor.
Qed.

Lemma unused_names (uuid : string) (fs fs' : FS) :
  fs_names fs' = fs_names fs -> unused uuid fs -> unused uuid fs'.
Proof. intros Hn Hu k q Hl. apply (Hu k q). eapply links_mono; [|exact Hl]. by rewrite Hn. Qed.

(** Nothing was done that a result would tell of. *)
Lemma tri_drop_fail (t : FPath) (e : KeyError) (Q : FS -> Prop) (P : FS -> Prop) :
  tri calm anything P (drop_temp t;; kfail (A := unit) e) (fun r fs => r = Ok tt -> Q fs).
Proof.
  apply tri_conseq with (P' := fun _ => True) (Q' := fun r fs => r = Ok tt -> Q fs); [|done|done].
  apply tri_bind with (R := fun _ _ => True); [|intros _; by apply tri_fail].
  unfold drop_temp. apply tri_bind with (R := fun _ _ => True); [|intros _; by apply tri_ret].
  apply tri_conseq with (P' := fun _ => True) (Q' := fun r _ => match r with Ok _ => True | Err _ => False end);
    [apply tri_attempt with (Q := fun _ _ => True)|done|by intros []].
  apply tri_sys; try done. intros fs _. by destruct (fs_names fs !! t).
Qed.

(** Filling the temporary file. *)
Lemma tri_fill (fs0 : FS) (t : FPath) (h : nat) (mode : Z) (pk : string) :
  tri calm anything (eq (with_file fs0 t h (mkInode "" mode false)))
    (mode ← fstat_mode h;
     (if Z.land mode OWNER_READ_WRITE =? OWNER_READ_WRITE then mret tt
      else fchmod os h (Z.lor mode OWNER_READ_WRITE));;
     write_all h pk;; sync_all h)
    (fun r fs => r = Ok tt -> exists m, with_file fs0 t h (mkInode pk m false) = fs).
Proof.
  apply tri_bind with (R := fun _ fs => exists m, with_file fs0 t h (mkInode "" m false) = fs).
  { eapply tri_conseq; [by apply tri_query|done|]. intros [m|e] fs [<- _]; [eauto|done]. }
  intros m. apply tri_bind with (R := fun _ fs => exists m, with_file fs0 t h (mkInode "" m false) = fs).
  { case_match; [apply tri_ret; eauto|]. apply tri_sys; try done.
    - intros x fs Hx Hf. by rewrite Hx.
    - intros fs (m' & <-). cbn beta iota zeta. rewrite inode_with_file, set_with_file. simpl. eauto. }
  intros _. apply tri_bind with (R := fun _ fs => exists m, with_file fs0 t h (mkInode pk m false) = fs).
  { apply tri_sys; try done.
    - intros x fs Hx Hf. by rewrite Hx.
    - intros fs (m' & <-). cbn beta iota zeta. unfold append_to. rewrite inode_with_file, set_with_file.
      simpl. eauto. }
  intros _. apply tri_sys; try done. intros x fs Hx Hf. by rewrite Hx.
Qed.

(** Publishing it: the name of the public key then leads to it. *)
Lemma tri_publish (fs0 : FS) (t p : FPath) (h k : nat) (mode : Z) (pk : string) :
  trim pk = pk -> (k < 40)%nat -> links fs0 pub_file k p -> fs_names fs0 !! p = None -> t <> p ->
  fs_names fs0 !! t = None ->
  tri calm anything (eq (with_file fs0 t h (mkInode pk mode false))) (publish_public_key t p pk)
    (fun r fs => r = Ok tt -> public_key fs = PubText pk).
Proof.
  intros Htrim Hk Hl Hp Hne Ht. unfold publish_public_key.
  apply tri_bind with (R := fun r fs =>
    match r with
    | Ok _ => public_key fs = PubText pk
    | Err (Io AlreadyExists) => False
    | Err _ => True
    end).
  { eapply tri_conseq with (P' := eq (with_file fs0 t h (mkInode pk mode false)));
      [apply tri_attempt with (Q := fun r fs =>
        match r with
        | Ok _ => public_key fs = PubText pk
        | Err (Io AlreadyExists) => False
        | Err _ => True
        end)|done|by intros [r|e] fs]. apply tri_sys; try done.
    - intros x fs Hx <-. by rewrite Hx.
    - intros fs <-.
      rewrite (tf_persist_free t p _ (NFile h)) by (simpl; first [apply lookup_insert_eq|by rewrite lookup_insert_ne]).
      simpl. rewrite delete_insert_id by done. unfold public_key.
      assert (Hsub : fs_names fs0 ⊆ <[p := NFile h]> (fs_names fs0)) by by apply insert_subseteq.
      rewrite (follow_end _ _ p k Hk).
      + simpl. rewrite lookup_insert_eq. unfold inode_of. simpl. rewrite lookup_insert_eq. simpl. by rewrite Htrim.
      + by eapply links_mono.
      + intros [x Hx]. simpl in Hx. by rewrite lookup_insert_eq in Hx. }
  intros [[]|[[]| | | | | | |]]; try apply tri_drop_fail; [by apply tri_ret|].
  by intros w _ _ [].
Qed.

Lemma tri_write_public (fs0 : FS) (uuid pk : string) (required : bool) :
  trim pk = pk -> unused uuid fs0 ->
  tri calm anything (eq fs0) (write_public_key os uuid pub_file pk required)
    (fun r fs => r = Ok tt ->
       public_key fs = PubText pk \/ (required = false /\ public_key fs = PubNone)).
Proof.
  intros Htrim Hu. unfold write_public_key. eapply tri_bind; [|].
  { eapply tri_conseq; [apply tri_missing|done|]. intros [o|e] fs Hm; [exact Hm|done]. }
  intros [p|]; [|apply tri_ret; intros fs [<- Hm]; auto].
  apply tri_pure. intros (k & Hk & Hl & Hp).
  set (t := with_file_name p _). assert (Hne : t <> p).
  { intros E. apply (Hu k p Hl). rewrite <- E. apply with_file_name_last. }
  apply tri_bind with (R := fun r fs =>
    match r with
    | Ok h => with_file fs0 t h (mkInode "" (os_create os DEFAULT_FILE_MODE) false) = fs /\
              fs_names fs0 !! t = None
    | Err _ => fs0 = fs
    end).
  { eapply tri_conseq; [apply tri_attempt, (tri_create_new os fs0 anything (fun _ _ => I))|done|].
    intros [[h|e']|e] fs; [|by intros ->|done]. by intros (? & _ & ->). }
  intros [h|e].
  2: { destruct required; [by apply tri_fail|]. apply tri_ret. intros fs <- _. right. split; [done|].
       unfold public_key. rewrite (follow_end fs0 _ p k Hk Hl); [by rewrite Hp|]. intros [x Hx]. congruence. }
  apply tri_pure. intros Ht. apply tri_bind with (R := fun r fs =>
    r = Ok tt -> exists m, with_file fs0 t h (mkInode pk m false) = fs).
  { eapply tri_conseq; [apply tri_attempt, tri_fill|done|]. by intros [r|e] fs. }
  intros [[]|e]; [|apply tri_drop_fail].
  intros w Hg HH (m & Hm)%(fun H => H eq_refl).
  destruct (tri_publish fs0 t p h k m pk Htrim Hk Hl Hp Hne Ht w Hg HH Hm) as (? & ? & Hr). auto 10.
Qed.

Lemma permissions_names (h : nat) (newly : bool) (N : gmap FPath Node) :
  tri calm anything (fun fs => fs_names fs = N) (set_private_key_permissions os h newly)
    (fun _ fs => fs_names fs = N).
Proof.
  assert (Hst : tri calm anything (fun fs => fs_names fs = N) (fstat_mode h) (fun _ fs => fs_names fs = N)).
  { apply tri_sys; try done. intros x fs Hx Hn. by rewrite Hx. }
  assert (Hen : forall b e, tri calm anything (fun fs => fs_names fs = N) (kensure b e) (fun _ fs => fs_names fs = N)).
  { intros b e. apply tri_ensure. by destruct b. }
  unfold set_private_key_permissions. apply tri_bind with (R := fun _ fs => fs_names fs = N).
  { eapply tri_conseq; [exact Hst|done|by intros []]. }
  intros m. cbv zeta. destruct (_ && _); [by apply tri_ret|].
  apply tri_bind with (R := fun _ fs => fs_names fs = N).
  { eapply tri_conseq; [apply Hen|done|by intros []]. }
  intros _. destruct (_ =? _); [by apply tri_ret|].
  apply tri_bind with (R := fun _ fs => fs_names fs = N).
  { apply tri_sys; try done. intros x fs Hx Hn. by rewrite Hx. }
  intros _. apply tri_bind with (R := fun _ fs => fs_names fs = N).
  { eapply tri_conseq; [exact Hst|done|by intros []]. }
  intros m'. apply Hen.
Qed.

(** The public half after a start that succeeds. *)
Lemma tri_public (fs0 : FS) (ch : Chance) (wait : Z) : unused (ch_uuid ch) fs0 ->
  tri calm anything (eq fs0) (gen_sk os ch wait) (fun r fs => forall x, r = Ok x ->
    public_key fs = PubText x.1 \/ (key_store fs0 <> KsEmpty /\ public_key fs = PubNone)).
Proof.
  intros Hu. unfold gen_sk. apply tri_bind with (R := fun _ fs => fs0 = fs).
  { eapply tri_conseq; [apply tri_wait|done|]. by intros [[]|e] fs <-. }
  intros _. apply tri_bind with (R := fun r fs => fs0 = fs /\
    match r with Ok h => follow SYSTEM_SYMLINKS fs0 sk_file = Ok h | Err _ => True end).
  { eapply tri_conseq; [by apply tri_attempt, tri_query|done|]. intros [r|e] fs; [|done].
    intros [<- Hr]. split; [done|]. by destruct r. }
  intros r. apply tri_pure. intros Hr.
  destruct r as [h|[[]| | | | | | |]]; try (by apply tri_fail).
  - assert (Hk : key_store fs0 <> KsEmpty).
    { unfold key_store. rewrite Hr. cbv zeta. by repeat case_match. }
    apply tri_conseq with (P' := fun fs => fs_names fs = fs_names fs0)
      (Q' := fun r fs => forall x, r = Ok x ->
         public_key fs = PubText x.1 \/ (key_store fs0 <> KsEmpty /\ public_key fs = PubNone));
      [|by intros ? <-|done].
    unfold load_sk. apply tri_bind with (R := fun _ fs => fs_names fs = fs_names fs0).
    { eapply tri_conseq; [apply (permissions_names h false (fs_names fs0))|done|by intros []]. }
    intros _. apply tri_bind with (R := fun _ fs => fs_names fs = fs_names fs0).
    { apply tri_sys; try done; [intros x fs Hx Hn; by rewrite Hx|].
      intros fs Hn. cbv zeta. by destruct (i_dir _). }
    intros c. destruct (b64_decode (trim c)) as [b|]; [|by apply tri_fail].
    destruct (sk_from_slice b) as [sk|]; [|by apply tri_fail].
    apply tri_bind with (R := fun _ fs => public_key fs = PubText (b64_encode (sk_public sk)) \/
      public_key fs = PubNone); [|intros _; apply tri_ret; intros fs Hp x [= <-]; tauto].
    intros w Hg HH Hn.
    destruct (tri_write_public (w_fs w) (ch_uuid ch) (b64_encode (sk_public sk)) false (b64_trim _)
      (unused_names _ _ _ Hn Hu) w Hg HH eq_refl) as (H1 & H2 & H3).
    split; [done|]. split; [done|]. destruct (write_public_key _ _ _ _ _ w) as [[[]|e] w']; [|done].
    simpl in *. destruct (H3 eq_refl) as [?|[_ ?]]; auto.
  - unfold create_sk. apply tri_bind with (R := fun _ fs => fs0 = fs).
    { eapply tri_conseq; [apply tri_missing|done|]. by intros [o|e] fs [<- _]. }
    intros _. apply tri_bind with (R := fun _ fs => unused (ch_uuid ch) fs).
    { eapply tri_conseq; [apply (tri_create_private os fs0 anything (fun _ _ => I))|done|].
      intros [[]|e] fs; [|done]. intros (p & h & mode & k & _ & _ & _ & _ & -> & _) j q Hl.
      apply (Hu j q). refine (links_add_file fs0 _ p _ _ h _ _ Hl). done. }
    intros _. apply tri_bind with (R := fun _ fs =>
      public_key fs = PubText (b64_encode (sk_public (choose_key 300 (ch_key ch) 0))));
      [|intros _; apply tri_ret; intros fs Hp x [= <-]; auto].
    intros w Hg HH Hw.
    destruct (tri_write_public (w_fs w) (ch_uuid ch)
      (b64_encode (sk_public (choose_key 300 (ch_key ch) 0))) true (b64_trim _) Hw w Hg HH eq_refl) as (H1 & H2 & H3).
    split; [done|]. split; [done|]. destruct (write_public_key _ _ _ _ _ w) as [[[]|e] w']; [|done].
    simpl in *. by destruct (H3 eq_refl) as [?|[? ?]].
Qed.

(** A public key that is there stays. *)
Lemma public_key_extends (fs fs' : FS) :
  fs_wf fs -> extends fs fs' -> public_key fs <> PubNone -> public_key fs' = public_key fs.
Proof.
  intros Hwf Hext Hne. unfold public_key in *.
  assert (Hf : follow SYSTEM_SYMLINKS fs pub_file <> Err NotFound) by (intros E; by rewrite E in Hne).
  rewrite (follow_mono _ _ _ _ (proj1 Hext) Hf).
  destruct (follow _ fs pub_file) as [i|k] eqn:Ei; [|done].
  destruct (follow_wf _ _ _ _ Hwf Ei) as [n Hin].
  destruct (extends_inode_of fs fs' i n Hext Hin) as [-> ->]. unfold inode_of. by rewrite Hin.
Qed.

(** C22: whatever calls fail, as long as no other process touches the files and the random
    temporary name is not one the public key's links lead to, starting a server does with the
    key files what the store of one key pair does.  A private key that is there is handed out
    and stays; one is made only when there is none; a broken key file is never repaired by
    overwriting it; a failure leaves the private key as it was or the new one, half a key being
    left only when removing it failed and the error says so.  A public key file that is there
    stays as it is; after a success it holds the public half of the key that was handed out,
    or, where the private key was there already, is still missing (as in a folder that cannot
    be written to). *)
Theorem gen_sk_refines_key_store (ch : Chance) (wait : Z) (w : World) :
  Forall calm (w_haps w) -> fs_wf (w_fs w) -> unused (ch_uuid ch) (w_fs w) ->
  ks_get (choose_key 300 (ch_key ch) 0) (key_pair (w_fs w)) (gen_sk os ch wait w).1
    (key_pair (w_fs (gen_sk os ch wait w).2)).
Proof.
  intros Hc Hwf Hu. assert (HH : Forall anything (w_hist w)) by by apply Forall_true.
  destruct (tri_secret (w_fs w) ch wait Hwf w Hc HH eq_refl) as (_ & _ & Hs).
  destruct (tri_public (w_fs w) ch wait Hu w Hc HH eq_refl) as (_ & _ & Hp).
  destruct (tri_of_keeps _ _ _ (keeps_gen_sk os (w_fs w) calm (calm_respectful _)
    anything (fun _ _ => I) ch wait) w Hc HH eq_refl) as (_ & _ & Hext & _).
  split; [exact Hs|]. split; [by apply public_key_extends|].
  destruct (gen_sk os ch wait w) as [[[pk sk]|e] w']; [|done]. exact (Hp _ eq_refl).
Qed.

(** ** An uneventful start *)

(** In a world in which nothing happens around the calls, [m] takes the files from [fs] to
    [fs'] with the result [r]. *)
Definition runs_to {A} (m : K A) (fs : FS) (r : result KeyError A) (fs' : FS) : Prop :=
  forall h, exists h', m (mkWorld fs [] h) = (r, mkWorld fs' [] h').

Lemma runs_ret {A} (a : A) (fs : FS) : runs_to (mret a) fs (Ok a) fs.
Proof. intros h. by exists h. Qed.

Lemma runs_bind {A B} (m : K A) (f : A -> K B) (fs fs1 fs2 : FS) (a : A) (r : result KeyError B) :
  runs_to m fs (Ok a) fs1 -> runs_to (f a) fs1 r fs2 -> runs_to (m ≫= f) fs r fs2.
Proof.
  intros Hm Hf h. destruct (Hm h) as [h1 E1]. destruct (Hf h1) as [h2 E2]. exists h2.
  unfold mbind, K_bind. by rewrite E1.
Qed.

Lemma runs_attempt {A} (m : K A) (fs fs' : FS) (r : result KeyError A) :
  runs_to m fs r fs' -> runs_to (attempt m) fs (Ok r) fs'.
Proof. intros Hm h. destruct (Hm h) as [h1 E1]. exists h1. unfold attempt. by rewrite E1. Qed.

Lemma runs_sys {A} (partial : nat -> FS -> FS) (f : FS -> result IoKind (A * FS)) (fs fs' : FS)
    (a : A) :
  f fs = Ok (a, fs') -> runs_to (sys partial f) fs (Ok a) fs'.
Proof. intros E h. rewrite sys_plain, E. by eexists. Qed.

Lemma runs_query {A} (f : FS -> result IoKind A) (fs : FS) (a : A) :
  f fs = Ok a -> runs_to (query f) fs (Ok a) fs.
Proof. intros E. apply runs_sys. by rewrite E. Qed.

Lemma runs_query_err {A} (f : FS -> result IoKind A) (fs : FS) (k : IoKind) :
  f fs = Err k -> runs_to (query f) fs (Err (Io k)) fs.
Proof. intros E h. unfold query. rewrite sys_plain, E. by eexists. Qed.

Lemma runs_resolve (p : FPath) (fs : FS) :
  ~ is_link fs p -> runs_to (resolve_key_path p) fs (Ok p) fs.
Proof.
  intros Hl h. destruct (resolve_plain MAX_KEY_SYMLINKS p fs h) as [h' E]. exists h'.
  unfold resolve_key_path. rewrite E. f_equal. cbn [resolve_ref MAX_KEY_SYMLINKS].
  destruct (fs_names fs !! p) as [[i|t]|] eqn:Hp; [done| |done].
  destruct Hl. by exists t.
Qed.

Lemma runs_open_absent (p : FPath) (fs : FS) :
  fs_names fs !! p = None -> runs_to (open_read p) fs (Err (Io NotFound)) fs.
Proof. intros Hp. apply runs_query_err. unfold SYSTEM_SYMLINKS. cbn [follow]. by rewrite Hp. Qed.

Lemma runs_open (p : FPath) (fs : FS) (i : nat) :
  fs_names fs !! p = Some (NFile i) -> runs_to (open_read p) fs (Ok i) fs.
Proof. intros Hp. apply runs_query. unfold SYSTEM_SYMLINKS. cbn [follow]. by rewrite Hp. Qed.

Lemma runs_missing_absent (p : FPath) (pk : string) (fs : FS) :
  fs_names fs !! p = None -> runs_to (missing_public_key_path p pk) fs (Ok (Some p)) fs.
Proof.
  intros Hp. unfold missing_public_key_path.
  eapply runs_bind; [apply runs_resolve; intros [t Ht]; congruence|].
  eapply runs_bind; [apply runs_attempt|].
  - intros h. destruct (runs_open_absent p fs Hp h) as [h' E]. exists h'.
    unfold read_to_string, mbind, K_bind. by rewrite E.
  - apply runs_ret.
Qed.

(** A file with the given contents under a name. *)
Definition holds (fs : FS) (p : FPath) (c : string) (mode_ok : Z -> Prop) : Prop :=
  exists i n, fs_names fs !! p = Some (NFile i) /\ fs_inodes fs !! i = Some n /\
    i_contents n = c /\ i_dir n = false /\ mode_ok (i_mode n).

Lemma runs_missing_there (p : FPath) (pk : string) (fs : FS) (ok : Z -> Prop) :
  holds fs p pk ok -> trim pk = pk -> runs_to (missing_public_key_path p pk) fs (Ok None) fs.
Proof.
  intros (i & n & Hp & Hi & Hc & Hd & _) Ht. unfold missing_public_key_path.
  eapply runs_bind; [apply runs_resolve; intros [t Hl]; congruence|].
  eapply runs_bind; [apply runs_attempt|].
  - unfold read_to_string. eapply runs_bind; [by apply runs_open|].
    apply runs_query. unfold inode_of. rewrite Hi. simpl. by rewrite Hd.
  - simpl. rewrite Hc, Ht. rewrite bool_decide_true by done. apply runs_ret.
Qed.

(** A system that keeps to the modes it is asked for: a umask may take bits away. *)
Definition honest : Prop :=
  excess (Z.land (os_create os PRIVATE_KEY_FILE_MODE) PERMISSION_BITS) = 0 /\
  forall m, os_chmod os m = m.

Lemma runs_create_new (p : FPath) (mode : Z) (fs : FS) :
  fs_names fs !! p = None ->
  exists h, fs_inodes fs !! h = None /\
    runs_to (create_new os p mode) fs (Ok h) (with_file fs p h (mkInode "" (os_create os mode) false)).
Proof.
  intros Hp. exists (fresh (dom (fs_inodes fs))).
  split; [apply not_elem_of_dom, is_fresh|]. apply runs_sys. by rewrite Hp.
Qed.

Lemma runs_fstat (fs : FS) (p : FPath) (h : nat) (n : Inode) :
  runs_to (fstat_mode h) (with_file fs p h n) (Ok (i_mode n)) (with_file fs p h n).
Proof. apply runs_query. by rewrite inode_with_file. Qed.

Lemma runs_fchmod (fs : FS) (p : FPath) (h : nat) (n : Inode) (mode : Z) :
  runs_to (fchmod os h mode) (with_file fs p h n) (Ok tt)
    (with_file fs p h (mkInode (i_contents n) (os_chmod os mode) (i_dir n))).
Proof. apply runs_sys. cbn beta zeta. by rewrite set_with_file, inode_with_file. Qed.

Lemma runs_write (fs : FS) (p : FPath) (h : nat) (mode : Z) (s : string) :
  runs_to (write_all h s) (with_file fs p h (mkInode "" mode false)) (Ok tt)
    (with_file fs p h (mkInode s mode false)).
Proof. apply runs_sys. unfold append_to. by rewrite inode_with_file, set_with_file. Qed.

Lemma runs_permissions_new (fs : FS) (p : FPath) (h : nat) :
  honest ->
  exists mode, Z.land mode PERMISSION_BITS = PRIVATE_KEY_FILE_MODE /\
    runs_to (set_private_key_permissions os h true)
      (with_file fs p h (mkInode "" (os_create os PRIVATE_KEY_FILE_MODE) false)) (Ok tt)
      (with_file fs p h (mkInode "" mode false)).
Proof.
  intros [Hc Hm]. set (m0 := os_create os PRIVATE_KEY_FILE_MODE) in *.
  destruct (Z.eqb_spec (Z.land m0 PERMISSION_BITS) PRIVATE_KEY_FILE_MODE) as [E|E].
  - exists m0. split; [done|]. unfold set_private_key_permissions.
    eapply runs_bind; [apply runs_fstat|]. cbn [negb andb orb i_mode].
    rewrite Hc, Z.eqb_refl. eapply runs_bind; [apply runs_ret|].
    rewrite E, Z.eqb_refl. apply runs_ret.
  - exists PRIVATE_KEY_FILE_MODE. split; [done|]. unfold set_private_key_permissions.
    eapply runs_bind; [apply runs_fstat|]. cbn [negb andb orb i_mode].
    rewrite Hc, Z.eqb_refl. eapply runs_bind; [apply runs_ret|].
    apply Z.eqb_neq in E. rewrite E. eapply runs_bind; [apply runs_fchmod|]. rewrite Hm.
    eapply runs_bind; [apply runs_fstat|]. apply runs_ret.
Qed.

Lemma runs_create_private (p : FPath) (c : string) (fs : FS) :
  honest -> fs_names fs !! p = None ->
  exists h mode, fs_inodes fs !! h = None /\ Z.land mode PERMISSION_BITS = PRIVATE_KEY_FILE_MODE /\
    runs_to (create_private_key_file os p c) fs (Ok tt) (with_file fs p h (mkInode c mode false)).
Proof.
  intros Hos Hp. destruct (runs_create_new p PRIVATE_KEY_FILE_MODE fs Hp) as (h & Hh & Hnew).
  destruct (runs_permissions_new fs p h Hos) as (mode & Hm & Hperm).
  exists h, mode. split; [done|]. split; [done|]. unfold create_private_key_file.
  eapply runs_bind; [apply runs_resolve; intros [t Ht]; congruence|].
  eapply runs_bind; [exact Hnew|].
  eapply runs_bind; [apply runs_attempt; eapply runs_bind; [exact Hperm|apply runs_write]|].
  apply runs_ret.
Qed.

Lemma runs_write_public (uuid : string) (p : FPath) (pk : string) (required : bool) (fs : FS) :
  let t := with_file_name p (".id_ed25519.pub." +:+ uuid) in
  fs_names fs !! p = None -> fs_names fs !! t = None -> t <> p ->
  exists h mode, fs_inodes fs !! h = None /\
    runs_to (write_public_key os uuid p pk required) fs (Ok tt)
      (with_file fs p h (mkInode pk mode false)).
Proof.
  intros t Hp Ht Hne. destruct (runs_create_new t DEFAULT_FILE_MODE fs Ht) as (h & Hh & Hnew).
  set (m0 := os_create os DEFAULT_FILE_MODE) in *.
  assert (Hmode : exists mode, runs_to
    (if Z.land m0 OWNER_READ_WRITE =? OWNER_READ_WRITE then mret tt
     else fchmod os h (Z.lor m0 OWNER_READ_WRITE))
    (with_file fs t h (mkInode "" m0 false)) (Ok tt) (with_file fs t h (mkInode "" mode false))).
  { destruct (_ =? _); [exists m0; apply runs_ret|]. eexists. apply runs_fchmod. }
  destruct Hmode as [mode Hmode]. exists h, mode. split; [done|]. unfold write_public_key.
  eapply runs_bind; [by apply runs_missing_absent|]. cbv zeta. fold t.
  eapply runs_bind; [apply runs_attempt, Hnew|].
  eapply runs_bind; [apply runs_attempt|].
  { eapply runs_bind; [apply runs_fstat|]. eapply runs_bind; [exact Hmode|].
    eapply runs_bind; [apply runs_write|]. by apply runs_query. }
  unfold publish_public_key. eapply runs_bind; [apply runs_attempt, runs_sys|apply runs_ret].
  rewrite (tf_persist_free t p _ (NFile h)).
  - simpl. unfold with_file. rewrite delete_insert_id by done. done.
  - simpl. by rewrite lookup_insert_ne.
  - simpl. by rewrite lookup_insert_eq.
Qed.

(** A key that is there, permissions and public key in order, is handed out. *)
Lemma runs_load (ch : Chance) (wait : Z) (sk : SecretKey) (fs : FS) :
  let pk := b64_encode (sk_public sk) in
  holds fs sk_file (b64_encode (sk_bytes sk))
    (fun m => Z.land m PERMISSION_BITS = PRIVATE_KEY_FILE_MODE) ->
  holds fs pub_file pk (fun _ => True) ->
  runs_to (gen_sk os ch wait) fs (Ok (pk, sk)) fs.
Proof.
  intros pk (i & n & Hp & Hi & Hc & Hd & Hm) Hpub.
  assert (Hin : inode_of fs i = n) by (unfold inode_of; by rewrite Hi).
  unfold gen_sk. eapply runs_bind with (a := tt) (fs1 := fs).
  { destruct (0 <? wait); [|apply runs_ret]. apply runs_bind with (a := true) (fs1 := fs).
    - unfold path_exists. eapply runs_bind; [apply runs_attempt; by apply runs_open|].
      apply runs_ret.
    - apply runs_ret. }
  eapply runs_bind; [apply runs_attempt; by apply runs_open|]. unfold load_sk.
  eapply runs_bind with (a := tt) (fs1 := fs).
  { unfold set_private_key_permissions. eapply runs_bind; [by apply runs_query|].
    rewrite Hin, Hm. apply runs_ret. }
  eapply runs_bind; [apply runs_query; cbv zeta; by rewrite Hin, Hd|].
  rewrite Hc, b64_trim, b64_round, sk_round.
  eapply runs_bind with (a := tt) (fs1 := fs); [|apply runs_ret].
  unfold write_public_key. eapply runs_bind; [by eapply runs_missing_there, b64_trim|].
  apply runs_ret.
Qed.

(** C33: in a directory with no key files, on a system that keeps to the modes it is asked
    for, the first start makes a key pair and answers with it, the public key being the
    contents of [id_ed25519.pub]; every later start, of either server, hands out the same
    pair. *)
Theorem key_survives_restart (ch ch' : Chance) (wait wait' : Z) (fs : FS) (h : list FS) :
  let new := choose_key 300 (ch_key ch) 0 in
  let pk := b64_encode (sk_public new) in
  honest -> fs_names fs !! sk_file = None -> fs_names fs !! pub_file = None ->
  fs_names fs !! with_file_name pub_file (".id_ed25519.pub." +:+ ch_uuid ch) = None ->
  exists w1, gen_sk os ch wait (mkWorld fs [] h) = (Ok (pk, new), w1) /\
    holds (w_fs w1) pub_file pk (fun _ => True) /\
    (gen_sk os ch' wait' w1).1 = Ok (pk, new).
Proof.
  intros new pk Hos Hsk Hpub Htemp.
  destruct (runs_create_private sk_file (b64_encode (sk_bytes new)) fs Hos Hsk)
    as (i & mode & Hi & Hm & Hpriv).
  set (fs1 := with_file fs sk_file i _) in *.
  destruct (runs_write_public (ch_uuid ch) pub_file pk true fs1) as (j & mode' & Hj & Hw).
  { simpl. by rewrite lookup_insert_ne. }
  { simpl. rewrite lookup_insert_ne; [exact Htemp|]. by intros [=]. }
  { by intros [=]. }
  set (fs2 := with_file fs1 pub_file j _) in *.
  assert (Hij : i <> j).
  { intros ->. simpl in Hj. by rewrite lookup_insert_eq in Hj. }
  assert (Hgen : runs_to (gen_sk os ch wait) fs (Ok (pk, new)) fs2).
  { unfold gen_sk. eapply runs_bind with (a := tt) (fs1 := fs).
    { destruct (0 <? wait); [|apply runs_ret]. apply runs_bind with (a := false) (fs1 := fs).
      - unfold path_exists. eapply runs_bind; [by apply runs_attempt, runs_open_absent|].
        apply runs_ret.
      - simpl. unfold ksleep. eapply runs_bind; [apply runs_attempt; by apply runs_query|].
        apply runs_ret. }
    eapply runs_bind; [by apply runs_attempt, runs_open_absent|]. unfold create_sk.
    eapply runs_bind; [by apply runs_missing_absent|].
    eapply runs_bind; [exact Hpriv|]. eapply runs_bind; [exact Hw|]. apply runs_ret. }
  assert (Hholds : holds fs2 pub_file pk (fun _ => True)).
  { eexists j, _. split; [apply lookup_insert_eq|]. split; [apply lookup_insert_eq|done]. }
  destruct (Hgen h) as [h1 E]. eexists. split; [exact E|]. split; [exact Hholds|].
  assert (Hkey : holds fs2 sk_file (b64_encode (sk_bytes new))
            (fun m => Z.land m PERMISSION_BITS = PRIVATE_KEY_FILE_MODE)).
  { eexists i, _. split; [simpl; rewrite lookup_insert_ne by done; apply lookup_insert_eq|].
    split; [simpl; rewrite lookup_insert_ne by done; apply lookup_insert_eq|done]. }
  destruct (runs_load ch' wait' new fs2 Hkey Hholds h1) as [h2 ->]. done.
Qed.

(** The key the clients of both servers are asked for, by the argument and the pair on disk. *)
Definition shared_key (arg : string) (sk : SecretKey) : string :=
  let key := (given_key arg).1 in
  if bool_decide (key = "-") || bool_decide (key = "_") then b64_encode (sk_public sk) else key.

(** Once the key files are in order, hbbs and hbbr started with the same key argument, be it
    empty, a public key, a whole secret key or the request for the key on disk, ask their
    clients for the same key, and a secret key hbbs signs with belongs to the public key it asks
    for. *)
Theorem servers_share_key (ch ch' : Chance) (arg : string) (sk : SecretKey) (fs : FS) :
  holds fs sk_file (b64_encode (sk_bytes sk))
    (fun m => Z.land m PERMISSION_BITS = PRIVATE_KEY_FILE_MODE) ->
  holds fs pub_file (b64_encode (sk_public sk)) (fun _ => True) ->
  let key := shared_key arg sk in
  exists out_sk,
    runs_to (get_server_sk os ch arg) fs (Ok (key, out_sk)) fs /\
    runs_to (relay_server_sk os ch' arg) fs (Ok key) fs /\
    (forall sk', out_sk = Some sk' -> key <> "" -> key = b64_encode (sk_public sk')).
Proof.
  intros Hk Hp.
  assert (Hgiven : forall sk', (given_key arg).2 = Some sk' ->
                     (given_key arg).1 = b64_encode (sk_public sk')).
  { intros sk'. unfold given_key. destruct (b64_decode arg) as [b|]; [|done].
    destruct (String.length b =? SECRETKEYBYTES)%nat; [|done]. cbn [fst snd]. intros Hb.
    by rewrite (sk_tail b sk' Hb). }
  unfold get_server_sk, relay_server_sk, shared_key. destruct (given_key arg) as [key out]. cbn [fst snd] in *.
  destruct (bool_decide (key = "-") || bool_decide (key = "_")) eqn:Ed.
  - exists (Some sk). split; [|split].
    + rewrite <- orb_assoc, Ed, orb_true_r.
      eapply runs_bind; [by apply runs_load|].
      assert (Hne : str_nonempty key = true).
      { apply str_nonempty_true. intros ->. by rewrite !bool_decide_false in Ed. }
      rewrite Hne. apply runs_ret.
    + eapply runs_bind; [by apply runs_load|]. apply runs_ret.
    + by intros sk' [= <-].
  - destruct (decide (key = "")) as [->|Hne].
    + exists (Some sk). split; [|split; [apply runs_ret|done]].
      eapply runs_bind; [by apply runs_load|]. apply runs_ret.
    + exists out. rewrite <- orb_assoc, Ed, bool_decide_false by done.
      split; [apply runs_ret|]. split; [apply runs_ret|]. auto.
Qed.

End KeyClaims.
