(* ===== verification/KeyWitnesses.v ===== *)
(** * The properties of the key files on concrete files *)

From S2P Require Import Prelude RustStr KeyFiles KeyFacts.
From Stdlib Require Import Ascii.

Local Open Scope Z_scope.

(** ** Concrete libraries *)

(** A secret key is its 64 bytes, the second half being the public key; the encoding puts
    a mark at both ends. *)
Fixpoint drop_last (s : string) : string :=
  match s with
  | "" => ""
  | String _ "" => ""
  | String c s' => String c (drop_last s')
  end.

Definition example_keys : KeyLib := {|
  SecretKey := dsig (fun b : string => String.length b = SECRETKEYBYTES);
  b64_encode b := "=" +:+ b +:+ "=";
  b64_decode s := match s with String "=" r => Some (drop_last r) | _ => None end;
  sk_from_slice b := match decide (String.length b = SECRETKEYBYTES) with
                     | left H => Some (dexist b H)
                     | right _ => None
                     end;
  sk_bytes sk := `sk;
  sk_public sk := String.substring (SECRETKEYBYTES / 2) (SECRETKEYBYTES / 2) (`sk);
|}.

Lemma drop_last_app (s : string) (c : ascii) : drop_last (s +:+ String c "") = s.
Proof.
  induction s as [|d s IH]; [done|]. rewrite str_app_cons. simpl. rewrite IH.
  by destruct s.
Qed.

Lemma example_keys_laws : KeyLibLaws example_keys.
Proof.
  constructor.
  - intros b. change (Some (drop_last (b +:+ "=")) = Some b). by rewrite drop_last_app.
  - intros b. apply trim_id; [done|]. change (ends_black ("=" +:+ (b +:+ "=")) = true).
    rewrite <- (str_app_assoc "="). by apply ends_black_app.
  - intros sk. simpl. destruct (decide _) as [Hl|Hl].
    + f_equal. by apply dsig_eq.
    + destruct Hl. exact (proj2_dsig sk).
  - intros b. simpl. destruct (decide _) as [Hl|Hl]; split; try done.
  - intros b sk. simpl. destruct (decide _) as [Hl|Hl]; [|done]. by intros [= <-].
Qed.

Definition example_temp : TempFileLib := {|
  tf_persist from to fs :=
    match fs_names fs !! to with
    | Some _ => Err AlreadyExists
    | None => match fs_names fs !! from with
              | Some n => Ok (mkFS (<[to := n]> (delete from (fs_names fs))) (fs_inodes fs))
              | None => Err NotFound
              end
    end;
|}.

Lemma example_temp_laws : TempFileLaws example_temp.
Proof.
  constructor; simpl.
  - intros from to fs fs' E. destruct (fs_names fs !! to); [done|].
    destruct (fs_names fs !! from) as [n|]; [|done]. injection E as <-. eauto.
  - intros from to fs n E. by rewrite E.
  - intros from to fs n E1 E2. by rewrite E1, E2.
Qed.

#[local] Existing Instances example_keys example_keys_laws example_temp example_temp_laws.

(** A Unix system with umask 022. *)
Definition example_os : Os := mkOs (fun m => Z.land m (Z.lnot 18)) (fun m => m).

Definition example_secret : string :=
  "0123456789abcdef0123456789abcdef0123456789ABCDEF0123456789ABCDEF".
Definition example_sk : SecretKey := dexist example_secret eq_refl.
Definition example_pk : string := b64_encode (sk_public example_sk).
Definition example_chance : Chance := mkChance (fun _ => example_sk) "uuid".

(** ** Witnesses *)

Definition no_files : FS := mkFS ∅ ∅.

(** A private key everybody can read, and no public key. *)
Definition old_key : FS :=
  mkFS {[sk_file := NFile 0]} {[0%nat := mkInode (b64_encode example_secret) 420 false]}.

(** The third call fails. *)
Definition unlucky (fs : FS) : World := mkWorld fs [fine; fine; mkHap (fun fs => fs) (Some 3%nat)] [].

Lemma unlucky_calm (fs : FS) : Forall calm (w_haps (unlucky fs)).
Proof. repeat constructor; done. Qed.

Lemma existing_files_untouched_witness :
  (gen_sk example_os example_chance 0 (unlucky old_key)).1 = Err (Io OtherIo) /\
  extends old_key (w_fs (gen_sk example_os example_chance 0 (unlucky old_key)).2).
Proof.
  split; [by vm_compute|].
  apply (existing_files_untouched example_os example_chance 0 (unlucky old_key)); [|done].
  apply (Forall_impl _ _ _ (unlucky_calm old_key)). intros h Hh. by apply calm_respectful.
Defined.

(** Somebody lets the name of the public key point elsewhere before the third call. *)
Definition example_meddling : list Hap :=
  [fine; fine; mkHap (fun fs => mkFS (<[pub_file := NLink (true, ["etc"])]> (fs_names fs)) (fs_inodes fs)) None].

Lemma private_key_never_exposed_witness :
  Forall (tight no_files)
    (w_hist (create_private_key_file example_os sk_file example_secret
       (mkWorld no_files example_meddling [])).2).
Proof.
  destruct (private_key_never_exposed example_os sk_file example_secret
              (mkWorld no_files example_meddling []) 0) as [H _]; [done|apply H].
  repeat constructor; intros fs i; simpl; by left.
Defined.

Lemma old_key_unused : unused "uuid" old_key.
Proof.
  intros k q Hl. inversion Hl as [|? ? ? ? Hq]; subst; [by vm_compute|].
  assert (E : fs_names old_key !! pub_file = None) by by vm_compute. congruence.
Qed.

Lemma gen_sk_refines_key_store_witness :
  key_pair old_key = (KsKey example_sk, PubNone) /\
  public_key (w_fs (gen_sk example_os example_chance 0 (mkWorld old_key [] [])).2) = PubText example_pk /\
  ks_get example_sk (key_pair old_key)
    (gen_sk example_os example_chance 0 (mkWorld old_key [] [])).1
    (key_pair (w_fs (gen_sk example_os example_chance 0 (mkWorld old_key [] [])).2)).
Proof.
  split; [by vm_compute|]. split; [by vm_compute|].
  apply (gen_sk_refines_key_store example_os example_chance 0 (mkWorld old_key [] []));
    [constructor| |apply old_key_unused].
  intros p i. simpl. rewrite lookup_singleton_Some. intros [_ [= <-]]. by eexists.
Defined.

Lemma key_survives_restart_witness :
  let new := choose_key 300 (ch_key example_chance) 0 in
  exists w1, gen_sk example_os example_chance 0 (mkWorld no_files [] [])
             = (Ok (b64_encode (sk_public new), new), w1) /\
    (gen_sk example_os example_chance 300 w1).1 = Ok (b64_encode (sk_public new), new).
Proof.
  intros new.
  destruct (key_survives_restart example_os example_chance example_chance 0 300 no_files [])
    as (w1 & H1 & _ & H2); [by split|done|done|done|].
  exists w1. split; [exact H1|exact H2].
Defined.

Lemma first_key_is_the_first_usable : choose_key 300 (ch_key example_chance) 0 = example_sk.
Proof. by vm_compute. Qed.

Definition both_files : FS :=
  mkFS {[sk_file := NFile 0; pub_file := NFile 1]}
       {[0%nat := mkInode (b64_encode example_secret) 384 false;
         1%nat := mkInode example_pk 420 false]}.

Lemma both_files_in_order :
  holds both_files sk_file (b64_encode (sk_bytes example_sk))
    (fun m => Z.land m PERMISSION_BITS = PRIVATE_KEY_FILE_MODE) /\
  holds both_files pub_file (b64_encode (sk_public example_sk)) (fun _ => True).
Proof.
  split; [by exists 0%nat, (mkInode (b64_encode example_secret) 384 false)|].
  by exists 1%nat, (mkInode example_pk 420 false).
Qed.
