(* ===== verification/GeoOpen.v ===== *)
(** * Opening the GeoIP database ([src/src/relay_geo.rs], [open_mapped])

    The database is mapped into memory, and a mapped file that another process shortens
    kills the program at the next look into it.  So a copy is mapped that nobody else can
    reach: it is made under a name of its own beside the database, or in the temporary
    folder, mapped, and its name removed at once.  The files are those of [KeyFiles]:
    names, inodes, and calls that can fail, with other processes at work in between.  A
    mapping is an inode, whose contents are those it has when it is looked at.  The reader
    (maxminddb) is a parameter: what it makes of the contents of a file. *)

From S2P Require Import Prelude RustStr KeyFiles KeyFacts.
From Stdlib Require Import Ascii.

Local Open Scope Z_scope.

(** ** Calls *)

(** [str::ends_with]. *)
Definition ends_with (p s : string) : bool :=
  (String.length p <=? String.length s)%nat &&
  bool_decide (String.substring (String.length s - String.length p) (String.length p) s = p).

(** [Path::file_name] and [Path::parent]: the parent of a bare name is the empty path. *)
Definition file_name (p : FPath) : option string :=
  match last p.2 with None | Some ".." => None | Some n => Some n end.
Definition parent (p : FPath) : option FPath :=
  match p.2 with [] => None | _ => Some (pop p) end.

(** The names in a folder. *)
Definition entries (fs : FS) (dir : FPath) : list string :=
  omap (fun p : FPath =>
          if bool_decide (p.1 = dir.1) && bool_decide (removelast p.2 = dir.2) then last p.2 else None)
    (map_to_list (fs_names fs)).*1.

(** [fs::read_dir]; the empty path is not the current folder. *)
Definition read_dir (dir : FPath) : K (list string) :=
  query (fun fs =>
    match follow SYSTEM_SYMLINKS fs dir with
    | Ok i => if i_dir (inode_of fs i) then Ok (entries fs dir) else Err OtherIo
    | Err k => Err k
    end).

(** The name a link stands for, and the place a file is made at when there is none. *)
Fixpoint target (n : nat) (fs : FS) (p : FPath) : result IoKind FPath :=
  match fs_names fs !! p with
  | Some (NLink t) =>
      match n with O => Err OtherIo | S n' => target n' fs (push (pop p) t) end
  | _ => Ok p
  end.

(** [OpenOptions::write(true).create(true).truncate(true).mode(mode).open(p)]. *)
Definition create_truncate (os : Os) (p : FPath) (mode : Z) : K nat :=
  sys intact (fun fs =>
    match target SYSTEM_SYMLINKS fs p with
    | Err k => Err k
    | Ok q =>
        match fs_names fs !! q with
        | Some (NFile i) =>
            let n := inode_of fs i in
            if i_dir n then Err OtherIo else Ok (i, set_inode i (mkInode "" (i_mode n) false) fs)
        | _ =>
            let h := fresh (dom (fs_inodes fs)) in
            Ok (h, mkFS (<[q := NFile h]> (fs_names fs))
                     (<[h := mkInode "" (os_create os mode) false]> (fs_inodes fs)))
        end
    end).

(** A read at a place in an open file: at most [n] bytes, or all that is left. *)
Definition read_at (h : nat) (from : nat) (n : option nat) : K string :=
  query (fun fs =>
    let s := i_contents (inode_of fs h) in
    let rest := (String.length s - from)%nat in
    Ok (String.substring from (match n with Some n => Nat.min n rest | None => rest end) s)).

(** [io::copy] between two files; [chunks] is how much each read returns. *)
Fixpoint copy_loop (chunks : list nat) (src dst from : nat) : K unit :=
  match chunks with
  | [] => s ← read_at src from None; write_all dst s
  | n :: chunks =>
      s ← read_at src from (Some n);
      if str_nonempty s then write_all dst s;; copy_loop chunks src dst (from + String.length s)
      else mret tt
  end.

(** [fs::copy]. *)
Definition fs_copy (os : Os) (chunks : list nat) (from to : FPath) : K unit :=
  src ← open_read from;
  mode ← query (fun fs => let i := inode_of fs src in if i_dir i then Err OtherIo else Ok (i_mode i));
  dst ← create_truncate os to mode;
  fchmod os dst mode;;
  copy_loop chunks src dst 0.

(** ** The database *)

(** A mapping: the file, what its reader was made from, and the name it was opened by. *)
Record Mapping := mkMapping { m_inode : nat; m_contents : string; m_from : FPath }.

Section GeoOpen.
  (** [maxminddb::Reader::open_mmap] accepts the contents. *)
  Context (os : Os) (opens : string -> bool).

Definition open_mmap (p : FPath) : K Mapping :=
  h ← open_read p;
  s ← read_handle h;
  kensure (opens s) (Io OtherIo);;
  mret (mkMapping h s p).

(** The names copies have, and the one of this process's [n]-th copy. *)
Definition is_leftover (name f : string) : bool :=
  starts_with ("." +:+ name +:+ ".") f && ends_with ".loaded" f.
Definition copy_name (name : string) (pid n : Z) : string :=
  "." +:+ name +:+ "." +:+ show_Z pid +:+ "." +:+ show_Z n +:+ ".loaded".

Fixpoint remove_all (dir : FPath) (fs : list string) : K unit :=
  match fs with
  | [] => mret tt
  | f :: fs => attempt (remove_file (push dir (false, [f])));; remove_all dir fs
  end.

Definition remove_leftovers (path : FPath) (name : string) : K unit :=
  let dir := default (false, ["."]) (parent path) in
  r ← attempt (read_dir dir);
  match r with
  | Ok l => remove_all dir (List.filter (is_leftover name) l)
  | Err _ => mret tt
  end.

(** The folders in turn; [None] when no copy could be made. *)
Fixpoint try_dirs (chunks : list nat) (path : FPath) (cname : string) (dirs : list FPath)
    : K (option Mapping) :=
  match dirs with
  | [] => mret None
  | dir :: dirs =>
      let copy := push dir (false, [cname]) in
      r ← attempt (fs_copy os chunks path copy);
      match r with
      | Ok _ =>
          reader ← attempt (open_mmap copy);
          attempt (remove_file copy);;
          m ← of_result reader; mret (Some m)
      | Err _ => attempt (remove_file copy);; try_dirs chunks path cname dirs
      end
  end.

Definition open_mapped (chunks : list nat) (pid n : Z) (temp_dir path : FPath) : K Mapping :=
  let name := default "" (file_name path) in
  remove_leftovers path name;;
  r ← try_dirs chunks path (copy_name name pid n) (option_list (parent path) ++ [temp_dir]);
  match r with
  | Some m => mret m
  | None => open_mmap path
  end.

(** Where the copies are made. *)
Definition copy_paths (pid n : Z) (temp_dir path : FPath) : list FPath :=
  (fun dir => push dir (false, [copy_name (default "" (file_name path)) pid n])) <$>
    (option_list (parent path) ++ [temp_dir]).

End GeoOpen.

(** ** Facts *)

(** Some name outside [C] leads to the file. *)
Definition named_outside (C : FPath -> Prop) (fs : FS) (i : nat) : Prop :=
  exists p, ~ C p /\ fs_names fs !! p = Some (NFile i).

(** What others do to the files when they know nothing of the names in [C]: they may remove
    such a name, which is what cleaning up does; they open, write, rename and link files by
    other names, and make new ones. *)
Record by_name (C : FPath -> Prop) (fs fs' : FS) : Prop := {
  bn_copies : forall p n, C p -> fs_names fs' !! p = Some n -> fs_names fs !! p = Some n;
  bn_others : forall p i, ~ C p -> fs_names fs' !! p = Some (NFile i) ->
    named_outside C fs i \/ fs_inodes fs !! i = None;
  bn_inodes : forall i n, fs_inodes fs !! i = Some n -> ~ named_outside C fs i ->
    fs_inodes fs' !! i = Some n;
  bn_wf : fs_wf fs -> fs_wf fs';
}.

Section GeoOpenFacts.
  Context (os : Os) (opens : string -> bool) (C : FPath -> Prop).

Definition discreet (h : Hap) : Prop := forall fs, by_name C fs (h_others h fs).

(** Nobody else can come to the file: only names of [C] lead to it. *)
Definition private (i : nat) (fs : FS) : Prop :=
  is_Some (fs_inodes fs !! i) /\ ~ named_outside C fs i.

(** A name of [C] is free, or leads to a private file. *)
Definition copies_private (fs : FS) : Prop :=
  fs_wf fs /\
  forall p n, C p -> fs_names fs !! p = Some n -> exists i, n = NFile i /\ private i fs.

Lemma private_by_name i fs fs' : by_name C fs fs' -> private i fs -> private i fs'.
Proof.
  intros [B1 B2 B3 B4] [[n Hn] Ho]. split; [by rewrite (B3 i n Hn Ho)|].
  intros (p & Hp & E). destruct (B2 p i Hp E) as [|E2]; [done|congruence].
Qed.

Lemma copies_private_by_name fs fs' :
  by_name C fs fs' -> copies_private fs -> copies_private fs'.
Proof.
  intros B [Hwf Hc]. split; [by eapply bn_wf|]. intros p n Hp E.
  destruct (Hc p n Hp (bn_copies _ _ _ B p n Hp E)) as (i & -> & Hi). eauto using private_by_name.
Qed.

Lemma contents_by_name i s fs fs' :
  by_name C fs fs' -> private i fs -> i_contents (inode_of fs i) = s ->
  i_contents (inode_of fs' i) = s.
Proof.
  intros [B1 B2 B3 B4] [[n Hn] Ho]. unfold inode_of. by rewrite (B3 i n Hn Ho), Hn.
Qed.

(** Removing a name and writing to a file keep privacy. *)
Lemma private_remove i p fs :
  private i fs -> private i (mkFS (delete p (fs_names fs)) (fs_inodes fs)).
Proof.
  intros [Hi Ho]. split; [done|]. intros (q & Hq & E). simpl in E.
  apply lookup_delete_Some in E as [_ E]. apply Ho. by exists q.
Qed.

Lemma copies_private_remove p fs :
  copies_private fs -> copies_private (mkFS (delete p (fs_names fs)) (fs_inodes fs)).
Proof.
  intros [Hwf Hc]. split.
  { intros q i E. simpl in E. apply lookup_delete_Some in E as [_ E]. by apply (Hwf q). }
  intros q n Hq E. simpl in E. apply lookup_delete_Some in E as [_ E].
  destruct (Hc q n Hq E) as (i & -> & Hi). eauto using private_remove.
Qed.

Lemma private_set i j n fs : private i fs -> private i (set_inode j n fs).
Proof.
  intros [Hi Ho]. split; [|done]. unfold set_inode. simpl.
  destruct (decide (i = j)) as [->|Hne]; [rewrite lookup_insert_eq; eauto|by rewrite lookup_insert_ne].
Qed.

Lemma copies_private_set j n fs : copies_private fs -> copies_private (set_inode j n fs).
Proof.
  intros [Hwf Hc]. split.
  { intros p i E. specialize (Hwf p i E). unfold set_inode. simpl.
    destruct (decide (i = j)) as [->|Hne]; [rewrite lookup_insert_eq; eauto|by rewrite lookup_insert_ne]. }
  intros p m Hp E. destruct (Hc p m Hp E) as (i & -> & Hi). eauto using private_set.
Qed.

Lemma by_name_refl fs : by_name C fs fs.
Proof. constructor; eauto. intros p i Hp E. left. by exists p. Qed.

(** *** Safe programs: what holds survives the others, and after an error the copies are
    still private *)

Definition stable (P : FS -> Prop) : Prop :=
  (forall fs, P fs -> copies_private fs) /\ forall fs fs', by_name C fs fs' -> P fs -> P fs'.

Definition safe {A} (P : FS -> Prop) (m : K A) (R : A -> FS -> Prop) : Prop :=
  tri discreet (fun _ => True) P m
    (fun r fs => match r with Ok a => R a fs | Err _ => copies_private fs end).

Lemma safe_ret {A} (a : A) (P : FS -> Prop) (R : A -> FS -> Prop) :
  (forall fs, P fs -> R a fs) -> safe P (mret a) R.
Proof. intros HR. by apply tri_ret. Qed.

Lemma safe_bind {A B} (R : A -> FS -> Prop) (P : FS -> Prop) (m : K A) (f : A -> K B)
    (Q : B -> FS -> Prop) :
  safe P m R -> (forall a, safe (R a) (f a) Q) -> safe P (m ≫= f) Q.
Proof. intros Hm Hf. by apply (tri_bind _ _ R). Qed.

Lemma safe_conseq {A} (P P' : FS -> Prop) (m : K A) (R R' : A -> FS -> Prop) :
  safe P' m R' -> (forall fs, P fs -> P' fs) -> (forall a fs, R' a fs -> R a fs) -> safe P m R.
Proof.
  intros Hm HP HR. eapply tri_conseq; [exact Hm|exact HP|]. intros [a|e] fs; simpl; auto.
Qed.

Lemma safe_attempt {A} (P : FS -> Prop) (m : K A) (R : A -> FS -> Prop) :
  safe P m R ->
  safe P (attempt m) (fun r fs => match r with Ok a => R a fs | Err _ => copies_private fs end).
Proof.
  intros Hm. eapply tri_conseq; [exact (tri_attempt _ _ _ _ _ Hm)|done|].
  by intros [a|e] fs; simpl.
Qed.

Lemma safe_sys {A} (P : FS -> Prop) (partial : nat -> FS -> FS)
    (f : FS -> result IoKind (A * FS)) (R : A -> FS -> Prop) :
  stable P -> (forall n fs, P fs -> copies_private (partial n fs)) ->
  (forall fs a fs', P fs -> f fs = Ok (a, fs') -> R a fs') ->
  safe P (sys partial f) R.
Proof.
  intros [HP Hst] Hpart Hf. apply tri_sys; auto.
  - intros h fs Hh HPfs. eapply Hst; [apply Hh|done].
  - intros fs HPfs. specialize (Hf fs). destruct (f fs) as [[a fs']|k]; [by apply Hf|by apply HP].
Qed.

Lemma safe_query {A} (P : FS -> Prop) (f : FS -> result IoKind A) :
  stable P -> safe P (query f) (fun a fs => P fs /\ f fs = Ok a).
Proof.
  intros HP. apply safe_sys; [done|intros; by apply HP|].
  intros fs a fs' HPfs E. destruct (f fs) as [b|k] eqn:Ef; simplify_eq. done.
Qed.

(** The predicates the program goes through. *)
Lemma stable_copies : stable copies_private.
Proof. split; eauto using copies_private_by_name. Qed.

Definition owns (i : nat) (fs : FS) : Prop := copies_private fs /\ private i fs.

Lemma stable_owns i : stable (owns i).
Proof.
  split; [by intros fs []|]. intros fs fs' B []. split; eauto using copies_private_by_name, private_by_name.
Qed.

Definition maps (m : Mapping) (fs : FS) : Prop :=
  owns (m_inode m) fs /\ i_contents (inode_of fs (m_inode m)) = m_contents m.

Lemma stable_maps m : stable (maps m).
Proof.
  split; [by intros fs [[] _]|]. intros fs fs' B [Ho E].
  split; [by eapply stable_owns|]. destruct Ho. by eapply contents_by_name.
Qed.

(** Adding a file under a free name of [C]. *)
Lemma copies_private_add p n fs :
  C p -> fs_names fs !! p = None -> copies_private fs ->
  let h := fresh (dom (fs_inodes fs)) in
  owns h (mkFS (<[p := NFile h]> (fs_names fs)) (<[h := n]> (fs_inodes fs))).
Proof.
  intros Hp Hn [Hwf Hc] h.
  assert (Hh : fs_inodes fs !! h = None) by apply not_elem_of_dom, is_fresh.
  set (fs' := mkFS _ _).
  assert (Hin : forall i, is_Some (fs_inodes fs !! i) -> is_Some (fs_inodes fs' !! i)).
  { intros i [m Hi]. simpl. rewrite lookup_insert_ne; [eauto|]. intros ->. congruence. }
  assert (Hout : forall i, named_outside C fs' i -> named_outside C fs i).
  { intros i (q & Hq & E). exists q. split; [done|]. simpl in E.
    rewrite lookup_insert_ne in E; [done|]. by intros ->. }
  assert (Hnew : private h fs').
  { split; [simpl; rewrite lookup_insert_eq; eauto|]. intros Ho%Hout. destruct Ho as (q & _ & E).
    destruct (Hwf q h E). congruence. }
  split; [|done]. split.
  - intros q i E. simpl in E. apply lookup_insert_Some in E as [[_ [= <-]]|[_ E]]; [apply Hnew|].
    by eapply Hin, Hwf.
  - intros q m Hq E. simpl in E. apply lookup_insert_Some in E as [[_ <-]|[_ E]]; [eauto|].
    destruct (Hc q m Hq E) as (i & -> & Hi & Ho). exists i. split; [done|]. split; eauto.
Qed.

Lemma copy_target fs p n : C p -> copies_private fs -> target n fs p = Ok p.
Proof.
  intros Hp [_ Hc]. destruct n; simpl; destruct (fs_names fs !! p) as [[i|t]|] eqn:E; try done.
  all: destruct (Hc p _ Hp E) as (i & [=] & _).
Qed.

Lemma copy_follow fs p n i :
  C p -> copies_private fs -> follow n fs p = Ok i -> private i fs.
Proof.
  intros Hp [_ Hc] E. destruct n; simpl in E; destruct (fs_names fs !! p) as [[j|t]|] eqn:En; try done.
  all: destruct (Hc p _ Hp En) as (k & [= <-] & Hk); by simplify_eq.
Qed.

Lemma safe_create p mode :
  C p -> safe copies_private (create_truncate os p mode) (fun i => owns i).
Proof.
  intros Hp. apply safe_sys; [apply stable_copies|done|]. intros fs a fs' Hc E.
  rewrite (copy_target fs p _ Hp Hc) in E. destruct (fs_names fs !! p) as [[i|t]|] eqn:En.
  - destruct (i_dir (inode_of fs i)) eqn:Ed; simpl in E; rewrite Ed in E; simplify_eq.
    destruct Hc as [Hwf Hc]. destruct (Hc p _ Hp En) as (j & [= <-] & Hj).
    split; [by apply copies_private_set|by apply private_set].
  - destruct Hc as [_ Hc]. destruct (Hc p _ Hp En) as (j & [=] & _).
  - injection E as <- <-. by apply copies_private_add.
Qed.

Lemma owns_set i j n fs : owns i fs -> owns i (set_inode j n fs).
Proof. intros []. split; [by apply copies_private_set|by apply private_set]. Qed.

Lemma safe_fchmod i j mode : safe (owns i) (fchmod os j mode) (fun _ => owns i).
Proof.
  apply safe_sys; [apply stable_owns|by intros ?? []|]. intros fs a fs' Ho [= <- <-]. by apply owns_set.
Qed.

Lemma safe_write i j s : safe (owns i) (write_all j s) (fun _ => owns i).
Proof.
  apply safe_sys; [apply stable_owns| |].
  - intros n fs Ho. by apply (owns_set i).
  - intros fs a fs' Ho [= <- <-]. by apply owns_set.
Qed.

Lemma safe_copy_loop i chunks src dst from :
  safe (owns i) (copy_loop chunks src dst from) (fun _ => owns i).
Proof.
  revert from. induction chunks as [|n chunks IH]; intros from; simpl.
  - eapply safe_bind; [apply safe_query, stable_owns|]. intros s.
    eapply safe_conseq; [apply safe_write|by intros fs []|done].
  - eapply safe_bind; [apply safe_query, stable_owns|]. intros s.
    apply (safe_conseq _ (owns i) _ _ (fun _ => owns i)); [|by intros fs []|done].
    destruct (str_nonempty s); [|by apply safe_ret].
    eapply safe_bind; [apply safe_write|]. intros ?. apply IH.
Qed.

Lemma safe_copy chunks from to :
  C to -> safe copies_private (fs_copy os chunks from to) (fun _ => copies_private).
Proof.
  intros Hto. eapply safe_bind; [apply safe_query, stable_copies|]. intros src.
  eapply safe_bind.
  { eapply safe_conseq; [apply safe_query, stable_copies|by intros fs []|done]. }
  intros mode. eapply safe_bind.
  { eapply safe_conseq; [by apply safe_create|by intros fs []|done]. }
  intros dst. eapply safe_bind; [apply safe_fchmod|]. intros ?.
  eapply safe_conseq; [apply safe_copy_loop|done|by intros _ fs []].
Qed.

(** A copy that could be mapped is private, and the reader was made from what it holds. *)
Lemma safe_open_copy p :
  C p -> safe copies_private (open_mmap opens p)
    (fun m fs => maps m fs /\ m_from m = p /\ opens (m_contents m) = true).
Proof.
  intros Hp. eapply safe_bind; [apply safe_query, stable_copies|]. intros h.
  apply (safe_bind (fun s fs => owns h fs /\ i_contents (inode_of fs h) = s)).
  - eapply safe_conseq; [apply safe_query, (stable_owns h)| |].
    + intros fs [Hc E]. split; [done|]. by eapply copy_follow.
    + intros s fs [Ho E]. split; [done|]. simpl in E.
      by destruct (i_dir (inode_of fs h)); simplify_eq.
  - intros s. unfold kensure. destruct (opens s) eqn:Eo.
    + apply (safe_bind (fun _ fs => owns h fs /\ i_contents (inode_of fs h) = s)); [by apply safe_ret|].
      intros ?. apply safe_ret. by intros fs [Ho E].
    + apply tri_bind with (R := fun _ _ => False); [|by intros []].
      apply tri_fail. by intros fs [[] _].
Qed.

(** Removing a name keeps everything, and so does looking into the folder. *)
Lemma safe_remove P p :
  stable P -> (forall fs, P fs -> P (mkFS (delete p (fs_names fs)) (fs_inodes fs))) ->
  safe P (attempt (remove_file p)) (fun _ => P).
Proof.
  intros HP Hd w Hg Hh Hw. unfold attempt.
  assert (Ht : tri discreet (fun _ => True) P (remove_file p) (fun _ fs => P fs)).
  { destruct HP as [HP Hst]. apply tri_sys; auto.
    - intros h fs Hgd HPfs. eapply Hst; [apply Hgd|done].
    - intros fs HPfs. destruct (fs_names fs !! p); auto. }
  specialize (Ht w Hg Hh Hw). by destruct (remove_file p w) as [r w'].
Qed.

Lemma maps_remove m p fs : maps m fs -> maps m (mkFS (delete p (fs_names fs)) (fs_inodes fs)).
Proof.
  intros [[Hc Hp] E]. split; [|done]. split; [by apply copies_private_remove|by apply private_remove].
Qed.

Lemma safe_remove_all dir l :
  safe copies_private (remove_all dir l) (fun _ => copies_private).
Proof.
  induction l as [|f l IH]; simpl; [by apply safe_ret|].
  eapply safe_bind; [|intros ?; apply IH].
  apply safe_remove; [apply stable_copies|]. intros. by apply copies_private_remove.
Qed.

Lemma safe_leftovers path name :
  safe copies_private (remove_leftovers path name) (fun _ => copies_private).
Proof.
  eapply safe_bind; [apply safe_attempt, safe_query, stable_copies|].
  intros [l|e]; [|by apply safe_ret].
  eapply safe_conseq; [apply safe_remove_all|by intros fs []|done].
Qed.

(** What [try_dirs] ends with. *)
Definition copy_mapped (m : Mapping) (fs : FS) : Prop :=
  maps m fs /\ C (m_from m) /\ opens (m_contents m) = true.

Lemma stable_mapped m : stable (copy_mapped m).
Proof.
  destruct (stable_maps m) as [H1 H2]. split; [by intros fs [? _]; apply H1|].
  intros fs fs' B [? ?]. split; [by eapply H2|done].
Qed.

Lemma safe_try_dirs chunks path cname dirs :
  (forall d, d ∈ dirs -> C (push d (false, [cname]))) ->
  safe copies_private (try_dirs os opens chunks path cname dirs)
    (fun o fs => match o with Some m => copy_mapped m fs | None => copies_private fs end).
Proof.
  induction dirs as [|dir dirs IH]; intros Hd; simpl; [by apply safe_ret|].
  assert (Hp : C (push dir (false, [cname]))) by (apply Hd; set_solver).
  eapply safe_bind; [by apply safe_attempt, safe_copy|]. intros [[]|e].
  - eapply safe_bind; [by apply safe_attempt, safe_open_copy|]. intros [m|e].
    + apply (safe_bind (fun _ => copy_mapped m)).
      * eapply safe_conseq; [apply (safe_remove (copy_mapped m)); [apply stable_mapped|]| |done].
        -- intros fs [? ?]. split; [by apply maps_remove|done].
        -- intros fs (? & E & ?). split; [done|]. by rewrite E.
      * intros _. apply (safe_bind (fun m' fs => m' = m /\ copy_mapped m fs)).
        -- apply tri_of_result. by intros fs.
        -- intros m'. apply safe_ret. by intros fs [-> ?].
    + apply (safe_bind (fun _ => copies_private)).
      * apply safe_remove; [apply stable_copies|]. intros. by apply copies_private_remove.
      * intros _. apply (safe_bind (fun _ _ => False)); [by apply tri_of_result|].
        intros m. by apply safe_ret.
  - apply (safe_bind (fun _ => copies_private)).
    + apply safe_remove; [apply stable_copies|]. intros. by apply copies_private_remove.
    + intros _. apply IH. intros d Hin. apply Hd. by apply elem_of_cons; right.
Qed.

Lemma safe_open_in_place p :
  safe copies_private (open_mmap opens p) (fun m _ => m_from m = p).
Proof.
  eapply safe_bind; [apply safe_query, stable_copies|]. intros h.
  eapply safe_bind.
  { eapply safe_conseq; [apply safe_query, stable_copies|by intros fs []|done]. }
  intros s. apply (safe_bind (fun _ => copies_private)); [|intros _; by apply safe_ret].
  unfold kensure. destruct (opens s); [by apply safe_ret; intros fs []|].
  apply tri_fail. by intros fs [].
Qed.

(** Whatever others do to the files by the names they know, a private mapping stays as it
    was. *)
Lemma maps_for_ever m fs fs' : rtc (by_name C) fs fs' -> maps m fs -> maps m fs'.
Proof.
  destruct (stable_maps m) as [_ Hst]. induction 1 as [|fs1 fs2 fs3 B R IH]; [done|].
  intros Hm. by eapply IH, Hst.
Qed.

(** *** The copies' names *)

(** None of the names is there; none but [p]. *)
Definition names_free (fs : FS) : Prop := forall q, C q -> fs_names fs !! q = None.
Definition only_name (p : FPath) (fs : FS) : Prop := forall q, C q -> q <> p -> fs_names fs !! q = None.

(** A call that does not fail of itself. *)
Definition unfailing (h : Hap) : Prop := discreet h /\ h_fault h = None.

Definition leaves {A} (P : FS -> Prop) (m : K A) (Q : FS -> Prop) : Prop :=
  tri unfailing (fun _ => True) P m (fun _ => Q).

Lemma leaves_sys {A} (P Q : FS -> Prop) (partial : nat -> FS -> FS) (f : FS -> result IoKind (A * FS)) :
  (forall fs fs', by_name C fs fs' -> P fs -> P fs') ->
  (forall fs, P fs -> match f fs with Ok (_, fs') => Q fs' | Err _ => Q fs end) ->
  leaves P (sys partial f) Q.
Proof.
  intros Hst Hf w Hg Hh Hw. unfold sys.
  assert (Hhd : unfailing (default fine (head (w_haps w))) /\ Forall unfailing (tail (w_haps w))).
  { destruct (w_haps w) as [|h l]; simpl; [|by apply Forall_cons in Hg].
    split; [|constructor]. split; [intros fs; apply by_name_refl|done]. }
  destruct Hhd as [[Hd Hn] Ht]. rewrite Hn.
  specialize (Hf _ (Hst _ _ (Hd (w_fs w)) Hw)).
  destruct (f _) as [[a fs']|k]; simpl; (split; [done|]; split; [by constructor|done]).
Qed.

Lemma leaves_bind {A B} (R P Q : FS -> Prop) (m : K A) (f : A -> K B) :
  leaves P m R -> (forall fs, R fs -> Q fs) -> (forall a, leaves R (f a) Q) -> leaves P (m ≫= f) Q.
Proof.
  intros Hm HQ Hf. apply tri_bind with (R := fun _ => R); [|done].
  eapply tri_conseq; [exact Hm|done|]. intros [a|e] fs; auto.
Qed.

Lemma leaves_pure {A} (r : result KeyError A) (P : FS -> Prop) : leaves P (of_result r) P.
Proof. by apply tri_of_result. Qed.

Lemma leaves_attempt {A} (P Q : FS -> Prop) (m : K A) : leaves P m Q -> leaves P (attempt m) Q.
Proof.
  intros Hm. eapply tri_conseq; [exact (tri_attempt _ _ _ _ _ Hm)|done|]. by intros [r|e] fs.
Qed.

Lemma leaves_weaken {A} (P P' Q : FS -> Prop) (m : K A) :
  leaves P' m Q -> (forall fs, P fs -> P' fs) -> leaves P m Q.
Proof. intros Hm HP. by eapply tri_conseq. Qed.

Lemma only_name_by_name p fs fs' : by_name C fs fs' -> only_name p fs -> only_name p fs'.
Proof.
  intros B Ho q Hq Hne. destruct (fs_names fs' !! q) as [n|] eqn:E; [|done].
  apply (bn_copies _ _ _ B q n Hq) in E. by rewrite (Ho q Hq Hne) in E.
Qed.

Lemma names_free_by_name fs fs' : by_name C fs fs' -> names_free fs -> names_free fs'.
Proof.
  intros B Ho q Hq. destruct (fs_names fs' !! q) as [n|] eqn:E; [|done].
  apply (bn_copies _ _ _ B q n Hq) in E. by rewrite (Ho q Hq) in E.
Qed.

Lemma free_only p fs : names_free fs -> only_name p fs.
Proof. intros Hf q Hq _. by apply Hf. Qed.

Lemma only_query {A} p (f : FS -> result IoKind A) : leaves (only_name p) (query f) (only_name p).
Proof. apply leaves_sys; [apply only_name_by_name|]. intros fs Hf. by destruct (f fs). Qed.

Lemma free_query {A} (f : FS -> result IoKind A) : leaves names_free (query f) names_free.
Proof. apply leaves_sys; [apply names_free_by_name|]. intros fs Hf. by destruct (f fs). Qed.

Lemma only_write p h s : leaves (only_name p) (write_all h s) (only_name p).
Proof. apply leaves_sys; [apply only_name_by_name|done]. Qed.

Lemma only_copy_loop p chunks src dst from :
  leaves (only_name p) (copy_loop chunks src dst from) (only_name p).
Proof.
  revert from. induction chunks as [|n chunks IH]; intros from; simpl.
  - eapply leaves_bind; [apply only_query|done|]. intros s. apply only_write.
  - eapply leaves_bind; [apply only_query|done|]. intros s.
    destruct (str_nonempty s); [|apply (leaves_pure (Ok tt))].
    eapply leaves_bind; [apply only_write|done|]. intros _. apply IH.
Qed.

(** A copy leaves no other name than its own. *)
Lemma free_copy chunks from to : C to ->
  leaves names_free (fs_copy os chunks from to) (only_name to).
Proof.
  intros Hto. unfold fs_copy. eapply leaves_bind; [apply free_query|apply free_only|]. intros src.
  eapply leaves_bind; [apply free_query|apply free_only|]. intros mode.
  apply (leaves_bind (only_name to)); [|done|].
  - apply leaves_sys; [apply names_free_by_name|]. intros fs Hf.
    assert (target SYSTEM_SYMLINKS fs to = Ok to) as ->
      by (unfold SYSTEM_SYMLINKS; simpl; by rewrite (Hf to Hto)).
    rewrite (Hf to Hto). intros q Hq Hne. simpl. rewrite lookup_insert_ne by done. by apply Hf.
  - intros dst. apply (leaves_bind (only_name to)); [|done|intros _; apply only_copy_loop].
    apply leaves_sys; [apply only_name_by_name|done].
Qed.

(** Removing the copy's name leaves none. *)
Lemma only_remove p : leaves (only_name p) (attempt (remove_file p)) names_free.
Proof.
  apply leaves_attempt, leaves_sys; [apply only_name_by_name|]. intros fs Ho.
  destruct (fs_names fs !! p) eqn:E; intros q Hq; simpl.
  - destruct (decide (q = p)) as [->|Hne]; [apply lookup_delete_eq|]. rewrite lookup_delete_ne by done. auto.
  - destruct (decide (q = p)) as [->|Hne]; auto.
Qed.

Lemma free_remove_all dir l : leaves names_free (remove_all dir l) names_free.
Proof.
  induction l as [|f l IH]; simpl; [apply (leaves_pure (Ok tt))|].
  eapply leaves_bind; [|done|intros _; exact IH].
  apply leaves_attempt, leaves_sys; [apply names_free_by_name|]. intros fs Hf.
  destruct (fs_names fs !! _); [|done]. intros q Hq. simpl. apply lookup_delete_None. right. by apply Hf.
Qed.

Lemma free_open p : leaves names_free (open_mmap opens p) names_free.
Proof.
  unfold open_mmap. eapply leaves_bind; [apply free_query|done|]. intros h.
  eapply leaves_bind; [apply free_query|done|]. intros s.
  apply (leaves_bind names_free); [|done|intros _; apply (leaves_pure (Ok _))].
  unfold kensure. destruct (opens s); [apply (leaves_pure (Ok tt))|by apply tri_fail].
Qed.

Lemma only_open p q : leaves (only_name p) (open_mmap opens q) (only_name p).
Proof.
  unfold open_mmap. eapply leaves_bind; [apply only_query|done|]. intros h.
  eapply leaves_bind; [apply only_query|done|]. intros s.
  apply (leaves_bind (only_name p)); [|done|intros _; apply (leaves_pure (Ok _))].
  unfold kensure. destruct (opens s); [apply (leaves_pure (Ok tt))|by apply tri_fail].
Qed.

Lemma free_try_dirs chunks path cname dirs : (forall d, d ∈ dirs -> C (push d (false, [cname]))) ->
  leaves names_free (try_dirs os opens chunks path cname dirs) names_free.
Proof.
  induction dirs as [|dir dirs IH]; intros Hd; simpl; [apply (leaves_pure (Ok None))|].
  assert (Hp : C (push dir (false, [cname]))) by (apply Hd; set_solver).
  apply tri_bind with (R := fun _ => only_name (push dir (false, [cname]))).
  { eapply tri_conseq; [apply tri_attempt, free_copy, Hp|done|]. by intros [r|e] fs. }
  intros [[]|e].
  - apply tri_bind with (R := fun _ => only_name (push dir (false, [cname]))).
    { eapply tri_conseq; [apply tri_attempt, only_open|done|]. by intros [r|e] fs. }
    intros reader. eapply leaves_bind; [apply only_remove|done|]. intros _.
    eapply leaves_bind; [apply leaves_pure|done|]. intros m. apply (leaves_pure (Ok (Some m))).
  - eapply leaves_bind; [apply only_remove|done|]. intros _. apply IH. intros d Hin. apply Hd.
    by apply elem_of_cons; right.
Qed.

Lemma free_leftovers path name : leaves names_free (remove_leftovers path name) names_free.
Proof.
  unfold remove_leftovers. eapply leaves_bind; [apply leaves_attempt, free_query|done|].
  intros [l|e]; [apply free_remove_all|apply (leaves_pure (Ok tt))].
Qed.

End GeoOpenFacts.

(** The names copies are made by, as a predicate. *)
Definition copies_of (pid n : Z) (temp_dir path p : FPath) : Prop :=
  p ∈ copy_paths pid n temp_dir path.

(** No folder could take a copy: making one failed in each of them, in turn. *)
Inductive no_room (os : Os) (chunks : list nat) (path : FPath) (cname : string)
    : list FPath -> World -> World -> Prop :=
| no_room_end w : no_room os chunks path cname [] w w
| no_room_next dir dirs w e w1 r w2 w3 :
    fs_copy os chunks path (push dir (false, [cname])) w = (Err e, w1) ->
    attempt (remove_file (push dir (false, [cname]))) w1 = (Ok r, w2) ->
    no_room os chunks path cname dirs w2 w3 -> no_room os chunks path cname (dir :: dirs) w w3.

Lemma attempt_is {A} (m : K A) (w : World) : attempt m w = (Ok (m w).1, (m w).2).
Proof. unfold attempt. by destruct (m w). Qed.

Lemma try_dirs_None os opens chunks path cname dirs w w' :
  try_dirs os opens chunks path cname dirs w = (Ok None, w') -> no_room os chunks path cname dirs w w'.
Proof.
  revert w. induction dirs as [|dir dirs IH]; intros w E; simpl in E.
  { injection E as <-. constructor. }
  set (q := push dir (false, [cname])) in *. unfold mbind, K_bind in E.
  rewrite attempt_is in E. destruct (fs_copy os chunks path q w) as [[[]|e] w1] eqn:Ec; cbn [fst snd] in E.
  - rewrite !attempt_is in E. cbn [fst snd] in E. unfold of_result in E.
    by destruct (open_mmap opens q w1).1.
  - rewrite attempt_is in E. cbn [fst snd] in E.
    eapply no_room_next; [exact Ec|apply attempt_is|by apply IH].
Qed.

(** How a database is opened: from a copy, or in place because no copy could be made. *)
Lemma open_mapped_cases os opens chunks pid n temp_dir path w m w' :
  let name := default "" (file_name path) in
  let tried := try_dirs os opens chunks path (copy_name name pid n) (option_list (parent path) ++ [temp_dir]) in
  open_mapped os opens chunks pid n temp_dir path w = (Ok m, w') ->
  exists w1, remove_leftovers path name w = (Ok tt, w1) /\
    (tried w1 = (Ok (Some m), w') \/
     exists w2, tried w1 = (Ok None, w2) /\ open_mmap opens path w2 = (Ok m, w')).
Proof.
  intros name tried. unfold open_mapped. fold name. fold tried. unfold mbind, K_bind.
  destruct (remove_leftovers path name w) as [[[]|e] w1]; [|done]. intros E. exists w1. split; [done|].
  destruct (tried w1) as [[[m'|]|e] w2] eqn:Et; [|by eauto|done]. left. by injection E as -> ->.
Qed.

Lemma copies_of_dirs pid n temp_dir path d :
  d ∈ option_list (parent path) ++ [temp_dir] ->
  copies_of pid n temp_dir path (push d (false, [copy_name (default "" (file_name path)) pid n])).
Proof. intros Hd. unfold copies_of, copy_paths. apply list_elem_of_fmap. eauto. Qed.

(** ** A quiet run *)

Lemma substring_all s : String.substring 0 (String.length s) s = s.
Proof. induction s as [|c s IH]; simpl; [done|by rewrite IH]. Qed.

Lemma substring_inside_length n m s :
  (n + m <= String.length s)%nat -> String.length (String.substring n m s) = m.
Proof.
  revert n m. induction s as [|c s IH]; intros [|n] [|m] Hl; simpl in *; try lia; try done.
  - rewrite IH; lia.
  - apply IH. lia.
  - apply (IH n (S m)). lia.
Qed.

Lemma substring_split n a b s :
  (n + a + b <= String.length s)%nat ->
  String.substring n (a + b) s = String.substring n a s +:+ String.substring (n + a) b s.
Proof.
  revert n a. induction s as [|c s IH]; intros n a Hl.
  - simpl in Hl. replace n with 0%nat by lia. replace a with 0%nat by lia. by replace b with 0%nat by lia.
  - destruct n as [|n].
    + destruct a as [|a]; [done|]. exact (f_equal (String c) (IH 0%nat a ltac:(simpl in Hl; lia))).
    + simpl. apply IH. simpl in Hl. lia.
Qed.

Lemma substring_none n s : String.substring n 0 s = "".
Proof. revert n. induction s as [|c s IH]; intros [|n]; simpl; auto. Qed.

Lemma append_nothing h fs : is_Some (fs_inodes fs !! h) -> append_to h "" fs = fs.
Proof.
  intros [i Hi]. destruct fs as [names inodes]. unfold append_to, set_inode, inode_of. simpl in *.
  rewrite Hi. simpl. rewrite str_app_nil_r. f_equal. apply insert_id. by destruct i.
Qed.

Lemma append_to_append_to h a b fs :
  append_to h b (append_to h a fs) = append_to h (a +:+ b) fs.
Proof.
  unfold append_to, set_inode, inode_of. simpl. rewrite lookup_insert_eq. simpl.
  by rewrite insert_insert_eq, str_app_assoc.
Qed.

Lemma append_to_other h j a fs : h <> j -> inode_of (append_to h a fs) j = inode_of fs j.
Proof. intros Hne. unfold append_to, set_inode, inode_of. simpl. by rewrite lookup_insert_ne. Qed.

(** The copy is exact however the reads are cut. *)
Lemma copy_loop_plain chunks src dst from s fs h :
  src <> dst -> Forall (fun n => 0 < n)%nat chunks -> i_contents (inode_of fs src) = s ->
  (from <= String.length s)%nat -> is_Some (fs_inodes fs !! dst) ->
  exists h', copy_loop chunks src dst from (mkWorld fs [] h) =
    (Ok tt, mkWorld (append_to dst (String.substring from (String.length s - from) s) fs) [] h').
Proof.
  intros Hne Hc. revert from fs h.
  induction Hc as [|n chunks Hn Hc IH]; intros from fs h Es Hf Hd;
    unfold copy_loop; fold copy_loop; unfold read_at, write_all, query, mbind, K_bind;
    rewrite sys_plain, Es.
  - rewrite sys_plain. eauto.
  - set (k := Nat.min n (String.length s - from)).
    assert (Hlen : String.length (String.substring from k s) = k) by (apply substring_inside_length; lia).
    destruct (String.substring from k s) as [|c t] eqn:Et; simpl str_nonempty.
    + simpl in Hlen. replace (String.length s - from)%nat with 0%nat by lia.
      eexists. f_equal. by rewrite substring_none, append_nothing.
    + destruct (IH (from + k)%nat (append_to dst (String c t) fs)
        (append_to dst (String c t) fs :: fs :: h)) as [h' E].
      { by rewrite append_to_other. } { lia. }
      { unfold append_to, set_inode. simpl. rewrite lookup_insert_eq. eauto. }
      exists h'. cbv beta iota delta [str_nonempty]. rewrite sys_plain, Hlen. rewrite E. f_equal. f_equal.
      rewrite append_to_append_to, <- Et. f_equal.
      replace (String.length s - from)%nat with (k + (String.length s - (from + k)))%nat by lia.
      symmetry. apply substring_split. lia.
Qed.

Lemma inode_of_new names d n inodes : inode_of (mkFS names (<[d := n]> inodes)) d = n.
Proof. unfold inode_of. simpl. by rewrite lookup_insert_eq. Qed.

Lemma fs_copy_plain os chunks from to src n fs h :
  Forall (fun n => 0 < n)%nat chunks -> follow SYSTEM_SYMLINKS fs from = Ok src ->
  fs_inodes fs !! src = Some n -> i_dir n = false -> fs_names fs !! to = None ->
  let d := fresh (dom (fs_inodes fs)) in
  exists h', fs_copy os chunks from to (mkWorld fs [] h) =
    (Ok tt, mkWorld (mkFS (<[to := NFile d]> (fs_names fs))
      (<[d := mkInode (i_contents n) (os_chmod os (i_mode n)) false]> (fs_inodes fs))) [] h').
Proof.
  intros Hc Ef Es Hdir Et d.
  assert (Hd : fs_inodes fs !! d = None) by apply not_elem_of_dom, is_fresh.
  assert (Hne : src <> d) by (intros ->; congruence).
  assert (Hsrc : inode_of fs src = n) by (unfold inode_of; by rewrite Es).
  unfold fs_copy, open_read, query, create_truncate, fchmod, mbind, K_bind.
  rewrite sys_plain, Ef, sys_plain, Hsrc, Hdir, sys_plain.
  assert (target SYSTEM_SYMLINKS fs to = Ok to) as -> by (unfold SYSTEM_SYMLINKS; simpl; by rewrite Et).
  rewrite Et. cbv zeta. fold d. rewrite sys_plain.
  unfold set_inode. rewrite inode_of_new. simpl.
  edestruct (copy_loop_plain chunks src d 0 (i_contents n)) as [h' E]; [done|done| |lia| |].
  3: { exists h'. rewrite E. f_equal. f_equal. rewrite Nat.sub_0_r, substring_all.
    unfold append_to, set_inode. rewrite inode_of_new. simpl. by rewrite !insert_insert_eq. }
  - unfold inode_of. simpl. rewrite !lookup_insert_ne by done. by rewrite Es.
  - simpl. rewrite lookup_insert_eq. eauto.
Qed.

Lemma open_mmap_plain opens p d n fs h :
  fs_names fs !! p = Some (NFile d) -> fs_inodes fs !! d = Some n -> i_dir n = false ->
  opens (i_contents n) = true ->
  exists h', open_mmap opens p (mkWorld fs [] h) = (Ok (mkMapping d (i_contents n) p), mkWorld fs [] h').
Proof.
  intros Ep Ed Hdir Ho. unfold open_mmap, open_read, read_handle, query, mbind, K_bind.
  assert (follow SYSTEM_SYMLINKS fs p = Ok d) as Ef by (unfold SYSTEM_SYMLINKS; simpl; by rewrite Ep).
  assert (inode_of fs d = n) as Hn by (unfold inode_of; by rewrite Ed).
  rewrite sys_plain, Ef, sys_plain, Hn, Hdir, Ho. eauto.
Qed.

Definition without (p : FPath) (fs : FS) : FS := mkFS (delete p (fs_names fs)) (fs_inodes fs).

Lemma remove_plain p fs h :
  exists r h', attempt (remove_file p) (mkWorld fs [] h) = (Ok r, mkWorld (without p fs) [] h').
Proof.
  unfold attempt, remove_file. rewrite sys_plain. destruct (fs_names fs !! p) eqn:E; eexists _, _; [done|].
  unfold without. rewrite delete_id by done. by destruct fs.
Qed.

Lemma remove_all_plain dir l fs h :
  exists h', remove_all dir l (mkWorld fs [] h) =
    (Ok tt, mkWorld (foldl (fun fs f => without (push dir (false, [f])) fs) fs l) [] h').
Proof.
  revert fs h. induction l as [|f l IH]; intros fs h; simpl; [by eexists|].
  unfold mbind, K_bind. destruct (remove_plain (push dir (false, [f])) fs h) as (r & h1 & ->). apply IH.
Qed.

Lemma without_all dir l fs :
  let fs' := foldl (fun fs f => without (push dir (false, [f])) fs) fs l in
  fs_inodes fs' = fs_inodes fs /\
  forall p, fs_names fs' !! p =
    if bool_decide (p ∈ (fun f => push dir (false, [f])) <$> l) then None else fs_names fs !! p.
Proof.
  revert fs. induction l as [|f l IH]; intros fs; cbn [foldl].
  - split; [done|]. intros p. rewrite bool_decide_false; [done|]. apply not_elem_of_nil.
  - destruct (IH (without (push dir (false, [f])) fs)) as [E1 E2]. rewrite E1. split; [done|].
    intros p. rewrite E2. unfold without. cbn [fs_names]. rewrite fmap_cons.
    destruct (decide (p = push dir (false, [f]))) as [->|Hne].
    + rewrite lookup_delete_eq, (bool_decide_true (_ ∈ _ :: _)) by by apply elem_of_cons; left.
      by destruct (bool_decide _).
    + rewrite lookup_delete_ne by done. erewrite bool_decide_ext; [done|].
      rewrite elem_of_cons. tauto.
Qed.

(** The entries are the names there are. *)
Lemma removelast_snoc {A} (l : list A) (x : A) : removelast (l ++ [x]) = l.
Proof. apply removelast_last. Qed.

Lemma elem_of_entries fs dir f :
  f ∈ entries fs dir <-> is_Some (fs_names fs !! push dir (false, [f])).
Proof.
  unfold entries. rewrite list_elem_of_omap. split.
  - intros (p & Hp & E). apply list_elem_of_fmap in Hp as ([q n] & -> & Hq%elem_of_map_to_list).
    destruct q as [a l], dir as [b k]. cbn [fst snd] in E.
    case_bool_decide as Ha; [|done]. case_bool_decide as Hk; [|done]. subst b k. simpl in E.
    destruct l as [|x l _] using rev_ind; [done|]. rewrite last_snoc in E. apply (inj Some) in E as <-.
    unfold push. cbn [fst snd]. rewrite removelast_snoc. eauto.
  - intros [n Hn]. exists (push dir (false, [f])). split.
    + apply list_elem_of_fmap. exists (push dir (false, [f]), n). split; [done|]. by apply elem_of_map_to_list.
    + simpl. rewrite removelast_snoc, !bool_decide_true by done. apply last_snoc.
Qed.

Lemma starts_with_app p s : starts_with p (p +:+ s) = true.
Proof.
  unfold starts_with. cut (strip_prefix p (p +:+ s) = Some s); [by intros ->|].
  induction p as [|c p IH]; [done|].
  change ((if decide (c = c) then strip_prefix p (p +:+ s) else None) = Some s).
  by destruct (decide (c = c)).
Qed.

Lemma starts_with_longer p s :
  starts_with p s = true -> (String.length p <= String.length s)%nat.
Proof.
  unfold starts_with. revert s.
  induction p as [|c p IH]; intros [|d s] E; simpl in *; try lia.
  destruct (decide (c = d)); [|discriminate E]. specialize (IH _ E). lia.
Qed.

Lemma ends_with_app p s : ends_with p (s +:+ p) = true.
Proof.
  unfold ends_with.
  rewrite str_length_app, (proj2 (Nat.leb_le _ _)) by lia. simpl.
  rewrite Nat.add_sub. apply bool_decide_eq_true_2.
  induction s as [|c s IH]; [apply substring_all|exact IH].
Qed.

Lemma copy_is_leftover name pid n : is_leftover name (copy_name name pid n) = true.
Proof.
  unfold is_leftover, copy_name. apply andb_true_intro. split.
  - replace ("." +:+ name +:+ "." +:+ show_Z pid +:+ "." +:+ show_Z n +:+ ".loaded")
      with (("." +:+ name +:+ ".") +:+ (show_Z pid +:+ "." +:+ show_Z n +:+ ".loaded"))
      by by rewrite !str_app_assoc. apply starts_with_app.
  - replace ("." +:+ name +:+ "." +:+ show_Z pid +:+ "." +:+ show_Z n +:+ ".loaded")
      with (("." +:+ name +:+ "." +:+ show_Z pid +:+ "." +:+ show_Z n) +:+ ".loaded")
      by by rewrite !str_app_assoc. apply ends_with_app.
Qed.

Lemma name_is_no_leftover name : is_leftover name name = false.
Proof.
  unfold is_leftover. destruct (starts_with _ name) eqn:E; [|done].
  apply starts_with_longer in E. rewrite !str_length_app in E. simpl in E. lia.
Qed.

(** The files without the copies left over in a folder. *)
Definition leftovers (name : string) (dir : FPath) (fs : FS) : list string :=
  List.filter (is_leftover name) (entries fs dir).

Definition cleaned (name : string) (dir : FPath) (fs : FS) : FS :=
  foldl (fun fs f => without (push dir (false, [f])) fs) fs (leftovers name dir fs).

Lemma cleaned_spec name dir fs :
  fs_inodes (cleaned name dir fs) = fs_inodes fs /\
  (forall f, is_leftover name f = true -> fs_names (cleaned name dir fs) !! push dir (false, [f]) = None) /\
  (forall p, (forall f, is_leftover name f = true -> p <> push dir (false, [f])) ->
    fs_names (cleaned name dir fs) !! p = fs_names fs !! p) /\
  (forall p x, fs_names (cleaned name dir fs) !! p = Some x -> fs_names fs !! p = Some x).
Proof.
  destruct (without_all dir (leftovers name dir fs) fs) as [E1 E2].
  assert (Hl : forall f, f ∈ leftovers name dir fs <-> is_leftover name f = true /\ f ∈ entries fs dir).
  { intros f. unfold leftovers. rewrite !list_elem_of_In, filter_In. tauto. }
  split; [exact E1|]. split; [|split].
  - intros f Hf. unfold cleaned. rewrite E2. case_bool_decide as Hin; [done|].
    destruct (fs_names fs !! _) eqn:E; [|done]. destruct Hin. apply list_elem_of_fmap.
    exists f. split; [done|]. apply Hl. split; [done|]. apply elem_of_entries. by rewrite E.
  - intros p Hp. unfold cleaned. rewrite E2. case_bool_decide as Hin; [|done].
    apply list_elem_of_fmap in Hin as (f & -> & [Hf _]%Hl). by destruct (Hp f Hf).
  - intros p x. unfold cleaned. rewrite E2. by case_bool_decide.
Qed.

Lemma leftovers_plain name path dir d fs h :
  parent path = Some dir -> follow SYSTEM_SYMLINKS fs dir = Ok d -> i_dir (inode_of fs d) = true ->
  exists h', remove_leftovers path name (mkWorld fs [] h) = (Ok tt, mkWorld (cleaned name dir fs) [] h').
Proof.
  intros Ep Ed Hd. unfold remove_leftovers, read_dir, query, attempt, mbind, K_bind.
  rewrite Ep. cbn [default]. unfold default, id. rewrite sys_plain, Ed, Hd. apply remove_all_plain.
Qed.

(** The first folder, when all goes well there. *)
Lemma try_dirs_first os opens chunks path cname dir dirs w w1 w2 w3 m r :
  let q := push dir (false, [cname]) in
  fs_copy os chunks path q w = (Ok tt, w1) -> open_mmap opens q w1 = (Ok m, w2) ->
  attempt (remove_file q) w2 = (Ok r, w3) ->
  try_dirs os opens chunks path cname (dir :: dirs) w = (Ok (Some m), w3).
Proof.
  intros q E1 E2 E3. cbn [try_dirs]. fold q. unfold mbind, K_bind.
  assert (attempt (fs_copy os chunks path q) w = (Ok (Ok tt), w1)) as ->
    by (unfold attempt; by rewrite E1).
  cbv beta iota.
  assert (attempt (open_mmap opens q) w1 = (Ok (Ok m), w2)) as -> by (unfold attempt; by rewrite E2).
  cbv beta iota. by rewrite E3.
Qed.

Lemma push_inj dir f g : push dir (false, [f]) = push dir (false, [g]) -> f = g.
Proof. unfold push. cbn [fst snd]. intros E. injection E as E. by apply app_inj_tail in E as [_ ?]. Qed.

Lemma path_parts path dir name :
  parent path = Some dir -> file_name path = Some name -> path = push dir (false, [name]).
Proof.
  destruct path as [a l]. unfold parent, file_name, pop, push. cbn [fst snd].
  destruct l as [|x l _] using rev_ind; [done|]. rewrite last_snoc, removelast_snoc.
  intros E1 E2. assert (x = name) as -> by (repeat case_match; congruence).
  destruct (l ++ [name]) eqn:El; [by destruct l|]. apply (inj Some) in E1 as <-. cbn. by rewrite El.
Qed.

(** C14: The database the server looks into is out of everyone's reach.  While it is being
    opened others may do anything but meddle with the copies' names, which they may remove.
    Then either a copy is mapped, or the database itself, and the latter only when copying into
    every folder failed.  A mapped copy was accepted by the reader, and keeps exactly the
    contents its reader was made from, whatever calls failed and whatever others do afterwards
    to the files they know by other names.  When no call failed of itself and the copies' names
    were free at the start, no name at all leads to it, and so it keeps its contents whatever
    others do afterwards to any file by any name. *)
Theorem mapped_copy_never_changes (os : Os) (opens : string -> bool) (chunks : list nat)
    (pid n : Z) (temp_dir path : FPath) (w w' : World) (m : Mapping) :
  let C := copies_of pid n temp_dir path in
  let name := default "" (file_name path) in
  Forall (discreet C) (w_haps w) -> copies_private C (w_fs w) ->
  open_mapped os opens chunks pid n temp_dir path w = (Ok m, w') ->
  (m_from m = path /\ exists w1 w2, remove_leftovers path name w = (Ok tt, w1) /\
     no_room os chunks path (copy_name name pid n) (option_list (parent path) ++ [temp_dir]) w1 w2) \/
  (C (m_from m) /\ opens (m_contents m) = true /\
   (forall fs', rtc (by_name C) (w_fs w') fs' ->
      i_contents (inode_of fs' (m_inode m)) = m_contents m) /\
   (Forall (fun h => h_fault h = None) (w_haps w) -> names_free C (w_fs w) ->
    forall fs', rtc (by_name (fun _ => False)) (w_fs w') fs' ->
      i_contents (inode_of fs' (m_inode m)) = m_contents m /\
      forall p, fs_names fs' !! p <> Some (NFile (m_inode m)))).
Proof.
  intros C name Hh Hc E. destruct (open_mapped_cases _ _ _ _ _ _ _ _ _ _ E) as (w1 & El & Et).
  fold name in El, Et. assert (Htrue : forall l : list FS, Forall (fun _ => True) l) by (intros; by apply Forall_true).
  destruct (safe_leftovers C path name w Hh (Htrue _) Hc) as (Hh1 & _ & Hc1). rewrite El in Hh1, Hc1. simpl in Hh1, Hc1.
  destruct (safe_try_dirs os opens C chunks path _ _ (copies_of_dirs pid n temp_dir path) w1 Hh1 (Htrue _) Hc1)
    as (Hh2 & _ & Hm). fold name in Hh2, Hm.
  destruct Et as [Et|(w2 & Et & Eo)]; rewrite Et in Hh2, Hm; simpl in Hh2, Hm.
  2: { left. split; [|exists w1, w2; split; [done|by eapply try_dirs_None]].
       destruct (safe_open_in_place opens C path w2 Hh2 (Htrue _) Hm) as (_ & _ & Hp). by rewrite Eo in Hp. }
  right. destruct Hm as (Hm & Hp & Ho). split; [done|]. split; [done|]. split.
  { intros fs' R. by destruct (maps_for_ever C m _ _ R Hm). }
  intros Hf Hfree fs' R.
  assert (Hu : Forall (unfailing C) (w_haps w)) by (by apply Forall_and).
  destruct (free_leftovers C path name w Hu (Htrue _) Hfree) as (Hu1 & _ & Hf1). rewrite El in Hu1, Hf1. simpl in Hu1, Hf1.
  destruct (free_try_dirs os opens C chunks path _ _ (copies_of_dirs pid n temp_dir path) w1 Hu1 (Htrue _) Hf1)
    as (_ & _ & Hf2). fold name in Hf2. rewrite Et in Hf2. simpl in Hf2.
  destruct Hm as [[[Hwf _] [Hi Hout]] Hcon].
  assert (Hm' : maps (fun _ => False) m (w_fs w')).
  { split; [|done]. split; [by split|]. split; [done|]. intros (p & _ & Ep).
    destruct (decide (p ∈ copy_paths pid n temp_dir path)) as [Hin|Hin].
    - by rewrite (Hf2 p Hin) in Ep.
    - apply Hout. by exists p. }
  destruct (maps_for_ever _ m _ _ R Hm') as [[_ [_ Hn]] Hc']. split; [done|].
  intros p Ep. apply Hn. exists p. split; [by intros []|done].
Qed.

(** C30: When nothing fails and nobody interferes, opening a database that the reader accepts
    and that lies in a folder which can be listed succeeds, however the reads of the copy are
    cut: the reader is made from exactly the contents of the database; afterwards every file
    that was there is as it was, every name is as it was except that copies left over beside
    the database are gone, and no name at all leads to the file that is mapped.  (For a bare
    file name the parent is the empty path, which is no folder, and left-overs stay:
    [bare_name_leftovers_stay].) *)
Theorem open_mapped_quietly (os : Os) (opens : string -> bool) (chunks : list nat)
    (pid n : Z) (temp_dir path dir : FPath) (name : string) (fs : FS) (h : list FS)
    (d i : nat) (ino : Inode)
    (Hchunks : Forall (fun n => 0 < n)%nat chunks) (Hwf : fs_wf fs)
    (Hparent : parent path = Some dir) (Hname : file_name path = Some name)
    (Hdir : follow SYSTEM_SYMLINKS fs dir = Ok d) (Hd : i_dir (inode_of fs d) = true)
    (Hpath : fs_names fs !! path = Some (NFile i)) (Hi : fs_inodes fs !! i = Some ino)
    (Hfile : i_dir ino = false) (Hopens : opens (i_contents ino) = true) :
  exists m w', open_mapped os opens chunks pid n temp_dir path (mkWorld fs [] h) = (Ok m, w') /\
    m_contents m = i_contents ino /\
    (forall j, is_Some (fs_inodes fs !! j) -> fs_inodes (w_fs w') !! j = fs_inodes fs !! j) /\
    (forall p, (forall f, is_leftover name f = true -> p <> push dir (false, [f])) ->
      fs_names (w_fs w') !! p = fs_names fs !! p) /\
    (forall f, is_leftover name f = true -> fs_names (w_fs w') !! push dir (false, [f]) = None) /\
    (forall p, fs_names (w_fs w') !! p <> Some (NFile (m_inode m))).
Proof.
  destruct (cleaned_spec name dir fs) as (Ei & Eg & Ek & Es).
  destruct (leftovers_plain name path dir d fs h Hparent Hdir Hd) as [h1 E1].
  set (fs1 := cleaned name dir fs) in *. set (q := push dir (false, [copy_name name pid n])).
  assert (Ep : fs_names fs1 !! path = Some (NFile i)).
  { rewrite Ek; [done|]. intros f Hf E. rewrite (path_parts _ _ _ Hparent Hname) in E.
    apply push_inj in E as ->. by rewrite name_is_no_leftover in Hf. }
  assert (Eq : fs_names fs1 !! q = None) by apply Eg, copy_is_leftover.
  assert (Ef : follow SYSTEM_SYMLINKS fs1 path = Ok i) by (unfold SYSTEM_SYMLINKS; simpl; by rewrite Ep).
  destruct (fs_copy_plain os chunks path q i ino fs1 h1) as [h2 E2]; [done|done|by rewrite Ei|done|done|].
  set (c := fresh (dom (fs_inodes fs1))) in *.
  assert (Hc : fs_inodes fs !! c = None) by (rewrite <- Ei; apply not_elem_of_dom, is_fresh).
  set (fs2 := mkFS _ _) in E2.
  destruct (open_mmap_plain opens q c (mkInode (i_contents ino) (os_chmod os (i_mode ino)) false) fs2 h2)
    as [h3 E3]; [apply lookup_insert_eq|apply lookup_insert_eq|done|done|].
  destruct (remove_plain q fs2 h3) as (r & h4 & E4).
  eexists _, (mkWorld (without q fs2) [] h4). split.
  { unfold open_mapped, mbind, K_bind. rewrite Hname. cbn [default]. unfold default, id.
    rewrite E1, Hparent. change (option_list (Some dir) ++ [temp_dir]) with (dir :: [temp_dir]).
    by rewrite (try_dirs_first _ _ _ _ _ _ _ _ _ _ _ _ _ E2 E3 E4). }
  cbn [m_contents m_inode w_fs fs_inodes fs_names without fs2].
  split; [done|]. split.
  { intros j Hj. rewrite Ei, lookup_insert_ne; [done|]. intros <-. rewrite Hc in Hj. by destruct Hj. }
  assert (Hn : forall p, delete q (<[q := NFile c]> (fs_names fs1)) !! p = fs_names fs1 !! p).
  { intros p. destruct (decide (p = q)) as [->|Hne]; [by rewrite lookup_delete_eq|].
    by rewrite lookup_delete_ne, lookup_insert_ne by done. }
  split; [|split]; intros p; rewrite Hn; auto.
  intros E%Es. destruct (Hwf p c E). congruence.
Qed.

(** When the database is given by a bare name its parent is the empty path, which is no
    folder: copies left over beside it are never removed. *)
Theorem bare_name_leftovers_stay (path : FPath) (name : string) (fs : FS) (h : list FS)
    (Hbare : parent path = Some (false, [])) (Hempty : fs_names fs !! (false, []) = None) :
  exists h', remove_leftovers path name (mkWorld fs [] h) = (Ok tt, mkWorld fs [] h').
Proof.
  unfold remove_leftovers, read_dir, query, attempt, mbind, K_bind. rewrite Hbare.
  unfold default, id. rewrite sys_plain.
  assert (follow SYSTEM_SYMLINKS fs (false, []) = Err NotFound) as ->
    by (unfold SYSTEM_SYMLINKS; simpl; by rewrite Hempty).
  by eexists.
Qed.

(** ** Examples *)

(** Writing to the file a name leads to, as [curl -o] does. *)
Definition write_by_name (p : FPath) (s : string) (fs : FS) : FS :=
  match fs_names fs !! p with
  | Some (NFile i) => let n := inode_of fs i in set_inode i (mkInode s (i_mode n) (i_dir n)) fs
  | _ => fs
  end.

Lemma write_by_name_discreet C p s fs : ~ C p -> by_name C fs (write_by_name p s fs).
Proof.
  intros Hp. unfold write_by_name. destruct (fs_names fs !! p) as [[i|t]|] eqn:E; try apply by_name_refl.
  constructor; simpl; try done.
  - intros q j Hq Ej. left. by exists q.
  - intros j n Hj Ho. rewrite lookup_insert_ne; [done|]. intros <-. destruct Ho. by exists p.
  - intros Hwf q j Ej. specialize (Hwf q j Ej). simpl.
    destruct (decide (i = j)) as [->|]; [rewrite lookup_insert_eq; eauto|by rewrite lookup_insert_ne].
Qed.

Lemma fs_wf_check fs :
  forallb (fun x : FPath * Node =>
      match x.2 with NFile i => bool_decide (is_Some (fs_inodes fs !! i)) | NLink _ => true end)
    (map_to_list (fs_names fs)) = true -> fs_wf fs.
Proof.
  intros Hm p i E. rewrite forallb_forall in Hm.
  specialize (Hm (p, NFile i)). simpl in Hm. apply bool_decide_eq_true_1 in Hm; [done|].
  by apply list_elem_of_In, elem_of_map_to_list.
Qed.

Definition ex_os : Os := mkOs (fun m => m) (fun m => m).
Definition ex_data : FPath := (true, ["data"]).
Definition ex_tmp : FPath := (true, ["tmp"]).
Definition ex_geo : FPath := (true, ["data"; "geo.mmdb"]).
Definition ex_left : FPath := (true, ["data"; ".geo.mmdb.7.0.loaded"]).
Definition ex_opens (s : string) : bool := starts_with "MMDB" s.

Definition ex_files : FS := mkFS
  (list_to_map [(ex_data, NFile 1); (ex_tmp, NFile 2); (ex_geo, NFile 3); (ex_left, NFile 4)])
  (list_to_map [(1, mkInode "" 493 true); (2, mkInode "" 511 true);
     (3, mkInode "MMDB january" 420 false); (4, mkInode "MMDB" 420 false)]%nat).

Lemma ex_files_wf : fs_wf ex_files.
Proof. apply fs_wf_check. by vm_compute. Qed.

(** The database is cut short just before the copy is mapped, and again when it is in use. *)
Definition ex_cut : Hap := mkHap (write_by_name ex_geo "MM") None.
Definition ex_world : World := mkWorld ex_files (replicate 12 fine ++ [ex_cut]) [].
Definition ex_open : result KeyError Mapping * World :=
  open_mapped ex_os ex_opens [3%nat; 2%nat] 1 0 ex_tmp ex_geo ex_world.
Definition ex_mapping : Mapping :=
  match ex_open.1 with Ok m => m | Err _ => mkMapping 0 "" ex_tmp end.

Lemma ex_geo_no_copy : ~ copies_of 1 0 ex_tmp ex_geo ex_geo.
Proof. unfold copies_of. apply (bool_decide_unpack _). by vm_compute. Qed.

Lemma ex_names_free : names_free (copies_of 1 0 ex_tmp ex_geo) ex_files.
Proof.
  intros p Hp.
  assert (Hf : forallb (fun p => negb (bool_decide (is_Some (fs_names ex_files !! p))))
    (copy_paths 1 0 ex_tmp ex_geo) = true) by by vm_compute.
  rewrite forallb_forall in Hf. specialize (Hf p (proj1 (list_elem_of_In _ _) Hp)).
  apply negb_true_iff, bool_decide_eq_false_1 in Hf. by apply eq_None_not_Some.
Qed.

Lemma ex_copies_private : copies_private (copies_of 1 0 ex_tmp ex_geo) ex_files.
Proof.
  split; [apply ex_files_wf|]. intros p n Hp E. by rewrite (ex_names_free p Hp) in E.
Qed.

Lemma mapped_copy_never_changes_witness :
  i_contents (inode_of (write_by_name ex_geo "" (w_fs ex_open.2)) (m_inode ex_mapping)) = "MMDB january".
Proof.
  destruct (mapped_copy_never_changes ex_os ex_opens [3%nat; 2%nat] 1 0 ex_tmp ex_geo ex_world ex_open.2
    ex_mapping) as [[E _]|(_ & _ & _ & H)].
  - apply Forall_app. split; [|apply Forall_singleton].
    + apply Forall_replicate. intros fs. apply by_name_refl.
    + intros fs. apply write_by_name_discreet, ex_geo_no_copy.
  - apply ex_copies_private.
  - rewrite (surjective_pairing (open_mapped _ _ _ _ _ _ _ _)). f_equal.
  - exfalso. vm_compute in E. discriminate E.
  - destruct (H ltac:(by repeat constructor) ex_names_free (write_by_name ex_geo "" (w_fs ex_open.2))) as [E _].
    + apply rtc_once, write_by_name_discreet. by intros [].
    + rewrite E. by vm_compute.
Defined.

Lemma open_mapped_quietly_witness :
  exists m w', open_mapped ex_os ex_opens [3%nat; 2%nat] 1 0 ex_tmp ex_geo (mkWorld ex_files [] []) = (Ok m, w') /\
    m_contents m = "MMDB january" /\ fs_names (w_fs w') !! ex_left = None.
Proof.
  destruct (open_mapped_quietly ex_os ex_opens [3%nat; 2%nat] 1 0 ex_tmp ex_geo ex_data "geo.mmdb" ex_files []
    1 3 (mkInode "MMDB january" 420 false)) as (m & w' & E & Ec & _ & _ & El & _);
    [by repeat constructor|apply ex_files_wf|by vm_compute..|].
  exists m, w'. split; [exact E|]. split; [exact Ec|]. by apply (El ".geo.mmdb.7.0.loaded").
Defined.

(** The name of the copy in the temporary folder is known beforehand and a link by that name
    is followed: with no room beside the database, opening it overwrites the file the link
    stands for. *)
Theorem temporary_copy_follows_links :
  let victim := (true, ["etc"; "settings"]) in
  let trap := push ex_tmp (false, [copy_name "geo.mmdb" 1 0]) in
  let fs := mkFS (<[trap := NLink victim]> (<[victim := NFile 5]> (fs_names ex_files)))
              (<[5%nat := mkInode "keep" 420 false]> (fs_inodes ex_files)) in
  let no_room := mkHap (fun fs => fs) (Some 0%nat) in
  let w := mkWorld fs ([fine; fine; fine; fine; no_room]) [] in
  i_contents (inode_of (w_fs (open_mapped ex_os ex_opens [] 1 0 ex_tmp ex_geo w).2) 5) = "MMDB january".
Proof. by vm_compute. Qed.
