(* ===== verification/Utils.v ===== *)
(** * rustdesk-utils ([src/src/utils.rs])

    The command-line tool: it makes and checks key pairs, looks a server up and tries its ports,
    and keeps the GeoIP database current.  What the tool prints is a value; [process::exit] and
    a panic are results.  Signing (sodiumoxide), the resolver and connecting are parameters, and
    so is each day's world of the update loop. *)

From S2P Require Import Prelude RustStr Net External RelayGeo GeoUpdate Settings KeyFiles KeyWitnesses.
From Stdlib Require Import Ascii.

Local Open Scope Z_scope.

(** ** Key pairs *)

(** The rest of [sodiumoxide::crypto::sign]. *)
Class SignLib (L : KeyLib) : Type := {
  PublicKey : Type;
  pk_from_slice : string -> option PublicKey;
  key_sign : string -> SecretKey -> string;
  key_verify : string -> PublicKey -> option string;
}.

Definition PUBLICKEYBYTES : nat := 32.

Class SignLaws (L : KeyLib) (S : SignLib L) : Prop := {
  pk_length : forall b, is_Some (pk_from_slice b) <-> String.length b = PUBLICKEYBYTES;
  sk_public_length : forall sk, String.length (sk_public sk) = PUBLICKEYBYTES;
  verify_own : forall sk pk m, pk_from_slice (sk_public sk) = Some pk ->
    key_verify (key_sign m sk) pk = Some m;
}.

Inductive KeyPairError := BadSecretText | BadSecretKey | BadPublicText | BadPublicKey | PairInvalid.

Section KeyPairs.
  Context {keys : KeyLib} {signs : SignLib keys}.

(** [gen_keypair]: what is printed for the pair of a fresh secret key. *)
Definition gen_keypair (sk : SecretKey) : string * string :=
  (b64_encode (sk_public sk), b64_encode (sk_bytes sk)).

Definition validate_keypair (pk sk : string) : result KeyPairError unit :=
  let? sk1 := ok_or (b64_decode sk) BadSecretText in
  let? secret_key := ok_or (sk_from_slice sk1) BadSecretKey in
  let? pk1 := ok_or (b64_decode pk) BadPublicText in
  let? public_key := ok_or (pk_from_slice pk1) BadPublicKey in
  let random_data_to_test := "This is meh." in
  match key_verify (key_sign random_data_to_test secret_key) public_key with
  | None => Err PairInvalid
  | Some data => if bool_decide (random_data_to_test = data) then Ok tt else Err PairInvalid
  end.

End KeyPairs.

(** ** The doctor *)

Inductive DoctorLine :=
| DChecking (ip : IpAddr)
| DVersion (v4 v6 : bool)
| DPort (port desc : string) (ok : bool)
| DReverse (name : string) (matches : bool)
| DFound (ips : list IpAddr).

(** [doctor_tcp]; the time a connection took is not part of the line here. *)
Definition doctor_tcp (connect : string -> bool) (ip : IpAddr) (port desc : string) : DoctorLine :=
  DPort port desc (connect (show_ip ip +:+ ":" +:+ port)).

Definition doctor_ports : list (string * string) :=
  [("21114", "API"); ("21115", "hbbs extra port for nat test"); ("21116", "hbbs");
   ("21117", "hbbr tcp"); ("21118", "hbbs websocket"); ("21119", "hbbr websocket")].

(** [doctor_ip]; [None] is a panic.  An IPv6 address is joined to the port without
    brackets, and [connect] is asked for that text. *)
Definition doctor_ip (reverse : IpAddr -> option string) (connect : string -> bool)
    (ip : IpAddr) (server_address : option string) : option (list DoctorLine) :=
  let! name := reverse ip in
  Some ([DChecking ip; DVersion (match ip with V4 _ => true | _ => false end)
                                (match ip with V6 _ => true | _ => false end)] ++
        match server_address with
        | Some a => [DReverse name (bool_decide (name = a))]
        | None => []
        end ++ ((fun '(p, desc) => doctor_tcp connect ip p desc) <$> doctor_ports)).

(** The addresses one after the other, up to a panic. *)
Fixpoint doctor_all (reverse : IpAddr -> option string) (connect : string -> bool)
    (ips : list IpAddr) (name : string) : option (list DoctorLine) :=
  match ips with
  | [] => Some []
  | ip :: ips =>
      let! l := doctor_ip reverse connect ip (Some name) in
      let! rest := doctor_all reverse connect ips name in Some (l ++ rest)
  end.

Definition doctor (lookup_host : string -> option (list IpAddr)) (reverse : IpAddr -> option string)
    (connect : string -> bool) (unclean : string) : option (list DoctorLine) :=
  let server_address := to_lowercase (trim unclean) in
  match parse_ip server_address with
  | Some ip => doctor_ip reverse connect ip None
  | None =>
      let! ips := lookup_host server_address in
      let! l := doctor_all reverse connect ips server_address in Some (DFound ips :: l)
  end.

(** ** Keeping the database current *)

Definition DEFAULT_BASE_URL : string := "https://download.db-ip.com/free".

Record GeoArgs := mkGeoArgs {
  ga_out : option string;
  ga_base : string;
  ga_force : bool;
  ga_loop : bool;
}.

(** [env::var(..).ok().filter(|v| !v.is_empty())]. *)
Definition set_var_of (e : Environ) (name : string) : option string :=
  let! v := env_var e name in if str_nonempty v then Some v else None.

(** The options, left to right; [Err] names one that is unknown, which ends the tool. *)
Fixpoint geo_args (a : GeoArgs) (args : list string) : result string GeoArgs :=
  match args with
  | [] => Ok a
  | x :: rest =>
      if bool_decide (x = "--out") then
        match rest with
        | [] => Ok (mkGeoArgs None (ga_base a) (ga_force a) (ga_loop a))
        | v :: rest => geo_args (mkGeoArgs (Some v) (ga_base a) (ga_force a) (ga_loop a)) rest
        end
      else if bool_decide (x = "--base-url") then
        match rest with
        | [] => Ok a
        | v :: rest => geo_args (mkGeoArgs (ga_out a) v (ga_force a) (ga_loop a)) rest
        end
      else if bool_decide (x = "--force") then
        geo_args (mkGeoArgs (ga_out a) (ga_base a) true (ga_loop a)) rest
      else if bool_decide (x = "--loop") then
        geo_args (mkGeoArgs (ga_out a) (ga_base a) (ga_force a) true) rest
      else Err x
  end.

Definition geo_args_start (e : Environ) : GeoArgs :=
  mkGeoArgs (set_var_of e "GEO_DB") (default DEFAULT_BASE_URL (set_var_of e "GEO_UPDATE_BASE_URL"))
    false false.

Definition geo_out (a : GeoArgs) : string := default "geo.mmdb" (ga_out a).

(** How a round ends: the next one follows after some seconds, or the tool ends. *)
Inductive AfterRound := Sleeps (secs : Z) | Ends (code : Z).

Definition is_failure {E A} (r : result E A) : bool := match r with Err _ => true | Ok _ => false end.

Definition after_round (looping failed : bool) : AfterRound :=
  if looping then Sleeps (if failed then 6 * 3600 else 24 * 3600)
  else Ends (if failed then 1 else 0).

Section GeoUpdateTool.
  Context {mm : MaxMind}.
  Context (gunzip : ByteStream -> ByteStream) (reader_of : string -> option Reader).

Definition with_force (force : bool) (o : GeoOptions) : GeoOptions :=
  mkGeoOptions (o_base_url o) (o_now o) force (o_max_download o) (o_max_unpacked o) (o_min_nodes o).

(** [geo_update]'s loop, round by round: what [update] gives and what follows it; a forced
    refresh is forced once. *)
Fixpoint geo_update_loop (base : string) (looping force : bool) (runs : list GeoRun) (g : GeoFiles)
    : list (result FetchError GeoOutcome * AfterRound) :=
  match runs with
  | [] => []
  | x :: rest =>
      let o := with_force force (options_new base (run_now x)) in
      let '(r, w) := update gunzip reader_of o (run_web x) (run_record x) (mkGeoWorld g []) in
      let next := after_round looping (is_failure r) in
      (r, next) ::
        match next with
        | Sleeps _ => geo_update_loop base looping false rest (gw_files w)
        | Ends _ => []
        end
  end.

End GeoUpdateTool.

(** ** The command line *)

Inductive UtilCommand :=
| UHelp
| UGenKeypair
| UValidate (pk sk : string)
| UGeoUpdate (args : list string)
| UDoctor (server : string)
(** a message, the help, and the end with status 1 *)
| UMissing (msg : string).

Definition util_command (args : list string) : UtilCommand :=
  match args with
  | [] | [_] => UHelp
  | _ :: cmd :: rest =>
      let command := to_lowercase cmd in
      if bool_decide (command = "genkeypair") then UGenKeypair
      else if bool_decide (command = "validatekeypair") then
        match rest with
        | pk :: sk :: _ => UValidate pk sk
        | _ => UMissing "You must supply both the public and the secret key"
        end
      else if bool_decide (command = "geo-update") then UGeoUpdate rest
      else if bool_decide (command = "doctor") then
        match rest with
        | server :: _ => UDoctor server
        | [] => UMissing "You must supply the rustdesk-server address"
        end
      else UHelp
  end.

(** ** Facts *)

Section KeyPairFacts.
  Context {keys : KeyLib} {laws : KeyLibLaws keys} {signs : SignLib keys} {slaws : SignLaws keys signs}.

(** the two keys [genkeypair] prints are accepted by [validatekeypair] in the order it asks
    for them, and refused the other way round; hbbs and hbbr given the printed secret key by
    [--key] serve the printed public key. *)
Theorem generated_pair_validates (sk : SecretKey) :
  let '(pk_text, sk_text) := gen_keypair sk in
  validate_keypair pk_text sk_text = Ok tt /\
  validate_keypair sk_text pk_text = Err BadSecretKey /\
  given_key sk_text = (pk_text, Some sk).
Proof.
  unfold gen_keypair, validate_keypair. rewrite !b64_round. simpl. rewrite sk_round. simpl.
  destruct (pk_from_slice (sk_public sk)) as [pk|] eqn:Epk.
  2: { destruct (proj2 (pk_length (sk_public sk)) (sk_public_length sk)). congruence. }
  simpl. rewrite (verify_own sk pk _ Epk). split; [done|]. split.
  - destruct (sk_from_slice (sk_public sk)) eqn:E; [|done].
    assert (H : String.length (sk_public sk) = SECRETKEYBYTES) by (apply sk_length; by eexists).
    rewrite sk_public_length in H. done.
  - assert (Hl : String.length (sk_bytes sk) = SECRETKEYBYTES) by (apply sk_length; rewrite sk_round; by eexists).
    unfold given_key. rewrite b64_round, Hl, Nat.eqb_refl, sk_round.
    by rewrite (sk_tail _ _ (sk_round sk)).
Qed.

End KeyPairFacts.

Section GeoToolFacts.
  Context {mm : MaxMind}.
  Context (gunzip : ByteStream -> ByteStream) (reader_of : string -> option Reader).

(** With [--loop] the tool goes on for ever, whatever fails: the rounds are the runs of
    [GeoUpdate], six hours after a failure and a day after anything else. *)
Lemma geo_loop_is_runs (base : string) (runs : list GeoRun) (g : GeoFiles) :
  geo_update_loop gunzip reader_of base true false runs g =
    (fun r => (r, Sleeps (if is_failure r then 21600 else 86400)))
      <$> geo_runs gunzip reader_of base runs g.
Proof.
  revert g. induction runs as [|x runs IH]; intros g; [done|]. simpl.
  change (with_force false (options_new base (run_now x))) with (options_new base (run_now x)).
  destruct (update _ _ _ _ _ _) as [r w]. simpl. rewrite IH. by destruct (is_failure r).
Qed.

(** Without it there is one round, and the status says whether it failed. *)
Lemma geo_once (base : string) (force : bool) (x : GeoRun) (runs : list GeoRun) (g : GeoFiles) :
  exists r, geo_update_loop gunzip reader_of base false force (x :: runs) g =
    [(r, Ends (if is_failure r then 1 else 0))].
Proof. simpl. destruct (update _ _ _ _ _ _) as [r w]. by exists r. Qed.

(** The update loop never ends and never goes back, whatever the servers answer and the
    disk refuses: each round is followed by a wait, six hours after a failure and a day
    otherwise, and the months installed over all rounds after a forced one strictly increase. *)
Theorem geo_loop_goes_forward (base : string) (force : bool) (x : GeoRun) (runs : list GeoRun)
    (g : GeoFiles) :
  Forall run_ok runs ->
  let rounds := geo_update_loop gunzip reader_of base true force (x :: runs) g in
  length rounds = S (length runs) /\
  Forall (fun r => r.2 = Sleeps (if is_failure r.1 then 21600 else 86400)) rounds /\
  exists ms, updated_months (tail rounds).*1 = label <$> ms /\
    StronglySorted (fun a b => month_index a < month_index b) ms.
Proof.
  intros Hok. cbn [geo_update_loop].
  destruct (update _ _ _ _ _ _) as [r w]. cbn [after_round tail fst snd length].
  rewrite geo_loop_is_runs. split_and!.
  - rewrite length_fmap. f_equal. generalize (gw_files w). clear. induction runs as [|y runs IH]; intros g; [done|].
    simpl. destruct (update _ _ _ _ _ _) as [r' w']. simpl. by rewrite IH.
  - constructor; [simpl; by destruct (is_failure r)|]. apply Forall_fmap. by apply Forall_true.
  - destruct (runs_above gunzip reader_of base runs None (gw_files w) Hok ltac:(done)) as (ms & E & Hs & _).
    exists ms. split; [|done]. rewrite <- E. f_equal. rewrite <- list_fmap_compose. apply list_fmap_id.
Qed.

End GeoToolFacts.

(** ** Examples *)

#[local] Existing Instance example_maxmind.

Lemma geo_loop_goes_forward_witness :
  let rounds := geo_update_loop id example_reader_of "https://example.com" true true
    example_runs (mkGeoFiles None None None) in
  length rounds = 4%nat /\
  exists ms, updated_months (tail rounds).*1 = label <$> ms /\
    StronglySorted (fun a b => month_index a < month_index b) ms.
Proof.
  destruct (geo_loop_goes_forward id example_reader_of "https://example.com" true
    (mkGeoRun (mkMonth 2026 3) (example_web ["2026-02"]) RecordWorks) (tail example_runs)
    (mkGeoFiles None None None)) as (H1 & _ & H2).
  { repeat constructor; simpl; try lia; done. }
  split; [exact H1|exact H2].
Defined.

#[local] Existing Instance example_keys.
#[local] Existing Instance example_keys_laws.

(** A signature names its signer. *)
Definition example_signs : SignLib example_keys := {|
  PublicKey := string;
  pk_from_slice b := if (String.length b =? PUBLICKEYBYTES)%nat then Some b else None;
  key_sign m sk := sk_public sk +:+ m;
  key_verify s pk := strip_prefix pk s;
|}.

Lemma strip_prefix_app (p s : string) : strip_prefix p (p +:+ s) = Some s.
Proof.
  induction p as [|c p IH]; [done|]. rewrite str_app_cons. simpl. by rewrite decide_True.
Qed.

Lemma substring_tail_length (n m : nat) (s : string) : String.length s = (n + m)%nat ->
  String.length (String.substring n m s) = m.
Proof.
  revert m s. induction n as [|n IH]; intros m s.
  - revert s. induction m as [|m IHm]; intros [|c s]; simpl; [done..|]. intros [= E]. f_equal. by apply IHm.
  - destruct s as [|c s]; simpl; [done|]. intros [= E]. by apply IH.
Qed.

Lemma example_signs_laws : SignLaws example_keys example_signs.
Proof.
  constructor.
  - intros b. unfold pk_from_slice, example_signs. destruct (Nat.eqb_spec (String.length b) PUBLICKEYBYTES).
    + split; [done|by eexists].
    + split; [by intros [? ?]|done].
  - intros sk. apply substring_tail_length. exact (proj2_dsig sk).
  - intros sk pk m. unfold pk_from_slice, example_signs. case_match; [|done]. intros [= <-].
    apply strip_prefix_app.
Qed.

#[local] Existing Instance example_signs.
#[local] Existing Instance example_signs_laws.

Fixpoint bytes64 (n : nat) : string := match n with O => "" | S n => String "k" (bytes64 n) end.

Definition example_pair_sk : SecretKey := dexist (bytes64 64) (eq_refl : String.length (bytes64 64) = SECRETKEYBYTES).

Lemma generated_pair_validates_witness :
  validate_keypair (gen_keypair example_pair_sk).1 (gen_keypair example_pair_sk).2 = Ok tt /\
  validate_keypair (gen_keypair example_pair_sk).2 (gen_keypair example_pair_sk).1 = Err BadSecretKey.
Proof.
  destruct (generated_pair_validates example_pair_sk) as (H1 & H2 & _). split; [exact H1|exact H2].
Defined.
