(* ===== verification/Rendezvous.v ===== *)
(** * The rendezvous server's handlers ([src/src/rendezvous_server.rs])

    [Server] is the state behind [RendezvousServer] together with the process-wide
    tables and switches its handlers use.  A handler is a program of the small monad
    [M], which threads the server and collects what the handler sends.  A handler runs
    from its message to its end without interruption, its readings of the clock being
    one instant: what happens between the awaits of two handlers is the subject of
    [PeerStore]'s interleavings and of the websocket system of [Connection].

    The protocol's messages are those the server reads or writes, each with the fields
    it reads or writes; the generated parser and printer are parameters. *)

From S2P Require Import Prelude RustStr Net External RelayRoutes RelayGeo RelaySelect.
From S2P Require Import RateLimit Guards PeerStore Jwt.
From Stdlib Require Import Ascii.

Local Open Scope Z_scope.

(** ** Messages *)

(** What is used of the generated protocol code: the wire value of [nat_type] and
    which values are known, and parsing. *)
Record RegisterPeer := mkRegisterPeer { rp_id : string; rp_serial : Z }.
Record RegisterPk := mkRegisterPk { rk_id : string; rk_uuid : Bytes; rk_pk : Bytes }.
Record PunchHoleRequest := mkPunchHoleRequest {
  ph_id : string; ph_nat_type : Z; ph_licence_key : string; ph_token : string }.
(** hbbr reads [rf_uuid] and [rf_licence_key]; hbbs passes them on, like the remaining
    fields [rf_other], as they came. *)
Record RequestRelay := mkRequestRelay {
  rf_id : string; rf_socket_addr : Bytes; rf_uuid : string; rf_licence_key : string;
  rf_other : Bytes }.
(** The response names the peer by [id] or carries its [pk]. *)
Inductive IdOrPk := RrId (id : string) | RrPk (k : Bytes) | RrNeither.
Record RelayResponse := mkRelayResponse {
  rr_socket_addr : Bytes; rr_union : IdOrPk; rr_relay_server : string;
  rr_version : string; rr_other : Bytes }.
Record PunchHoleSent := mkPunchHoleSent {
  phs_socket_addr : Bytes; phs_id : string; phs_relay_server : string;
  phs_nat_type : Z; phs_version : string }.
Record LocalAddr := mkLocalAddr {
  la_socket_addr : Bytes; la_local_addr : Bytes; la_relay_server : string;
  la_id : string; la_version : string }.
Record ConfigUpdate := mkConfigUpdate { cu_serial : Z; cu_rendezvous_servers : list string }.

Inductive PunchFailure := LICENSE_MISMATCH | OFFLINE | ID_NOT_EXIST.

#[export] Instance PunchFailure_eq_dec : EqDecision PunchFailure.
Proof. solve_decision. Defined.

(** A field that is not set is at its default. *)
Record PunchHoleResponse := mkPunchHoleResponse {
  phr_socket_addr : Bytes; phr_pk : Bytes; phr_failure : option PunchFailure;
  phr_relay_server : string; phr_other_failure : string;
  phr_nat_type : option Z; phr_is_local : bool }.

Record FetchLocalAddr := mkFetchLocalAddr { fla_socket_addr : Bytes; fla_relay_server : string }.
Record PunchHole := mkPunchHole {
  pun_socket_addr : Bytes; pun_nat_type : Z; pun_relay_server : string }.

Inductive RendezvousMessage :=
| MRegisterPeer (rp : RegisterPeer)
| MRegisterPk (rk : RegisterPk)
| MPunchHoleRequest (ph : PunchHoleRequest)
| MPunchHoleSent (phs : PunchHoleSent)
| MLocalAddr (la : LocalAddr)
| MConfigureUpdate (cu : ConfigUpdate)
| MSoftwareUpdate (url : string)
| MRequestRelay (rf : RequestRelay)
| MRelayResponse (rr : RelayResponse)
| MTestNatRequest (serial : Z)
| MOnlineRequest (peers : list string)
| MKeyExchange (keys : list Bytes)
| MRegisterPeerResponse (request_pk : bool)
| MRegisterPkResponse (res : RegisterPkResult)
| MPunchHoleResponse (p : PunchHoleResponse)
| MFetchLocalAddr (f : FetchLocalAddr)
| MPunchHole (p : PunchHole)
| MTestNatResponse (port : Z) (cu : option ConfigUpdate)
| MOnlineResponse (states : list Z)
| MOtherUnion.

(** The generated code: parsing and writing a frame, the enum [NatType], and the bytes of the
    [IdPk] message that [get_pk] signs. *)
Class RendezvousProto : Type := {
  parse_from_bytes : Bytes -> option RendezvousMessage;
  write_to_bytes : RendezvousMessage -> option Bytes;
  NAT_SYMMETRIC : Z;
  nat_type_known : Z -> bool;
  idpk_bytes : string -> Bytes -> Bytes;
}.

(** ** State *)

Section Server.
  Context {hbb : HbbCommon} {netlib : IpNetworkLib} {v4net : Ipv4NetworkLib}
    {trig : FloatTrig} {mm : MaxMind} {sodium : Sodium} {json : InfoJson} {jwt : JwtLib}
    {proto : RendezvousProto}.

Record Inner := mkInner {
  serial : Z;
  version : string;
  software_url : string;
  mask : option Ipv4Network;
  local_ip : string;
  sk : option SignKey;
}.

(** A connection's write half; [sink_encrypt] is set once the key exchange has run. *)
Record Sink := mkSink { sink_conn : Z; sink_ws : bool; sink_encrypt : option Crypt }.

(** A way to reach a websocket peer: the connection's serial and the channel into its
    task. *)
Record WsPeer := mkWsPeer { wp_conn : Z; wp_tx : Z }.

Record Server := mkServer {
  tcp_punch : gmap SocketAddr Sink;
  pm : PeerMap;
  relay_servers : Selector;
  relay_servers0 : list string;
  rendezvous_servers : list string;
  inner : Inner;
  ws_peers : gmap SocketAddr WsPeer;
  (** the channels whose receiving task still runs *)
  ws_open : gset Z;
  (** process-wide *)
  ip_blocker : IpBlockMap;
  ip_changes : IpChangesMap;
  punch_reqs : list PunchReqEntry;
  ALWAYS_USE_RELAY : bool;
  MUST_LOGIN : bool;
  (** read once *)
  PUNCH_REQ_MAX : nat;
  SECRET : string;
}.

Definition set_tcp_punch x s := mkServer x (pm s) (relay_servers s) (relay_servers0 s)
  (rendezvous_servers s) (inner s) (ws_peers s) (ws_open s) (ip_blocker s) (ip_changes s)
  (punch_reqs s) (ALWAYS_USE_RELAY s) (MUST_LOGIN s) (PUNCH_REQ_MAX s) (SECRET s).
Definition set_pm x s := mkServer (tcp_punch s) x (relay_servers s) (relay_servers0 s)
  (rendezvous_servers s) (inner s) (ws_peers s) (ws_open s) (ip_blocker s) (ip_changes s)
  (punch_reqs s) (ALWAYS_USE_RELAY s) (MUST_LOGIN s) (PUNCH_REQ_MAX s) (SECRET s).
Definition set_relays x x0 s := mkServer (tcp_punch s) (pm s) x x0
  (rendezvous_servers s) (inner s) (ws_peers s) (ws_open s) (ip_blocker s) (ip_changes s)
  (punch_reqs s) (ALWAYS_USE_RELAY s) (MUST_LOGIN s) (PUNCH_REQ_MAX s) (SECRET s).
Definition set_config rs i s := mkServer (tcp_punch s) (pm s) (relay_servers s) (relay_servers0 s)
  rs i (ws_peers s) (ws_open s) (ip_blocker s) (ip_changes s)
  (punch_reqs s) (ALWAYS_USE_RELAY s) (MUST_LOGIN s) (PUNCH_REQ_MAX s) (SECRET s).
Definition set_ws x o s := mkServer (tcp_punch s) (pm s) (relay_servers s) (relay_servers0 s)
  (rendezvous_servers s) (inner s) x o (ip_blocker s) (ip_changes s)
  (punch_reqs s) (ALWAYS_USE_RELAY s) (MUST_LOGIN s) (PUNCH_REQ_MAX s) (SECRET s).
Definition set_guards b c r s := mkServer (tcp_punch s) (pm s) (relay_servers s) (relay_servers0 s)
  (rendezvous_servers s) (inner s) (ws_peers s) (ws_open s) b c
  r (ALWAYS_USE_RELAY s) (MUST_LOGIN s) (PUNCH_REQ_MAX s) (SECRET s).
Definition set_switches a m s := mkServer (tcp_punch s) (pm s) (relay_servers s) (relay_servers0 s)
  (rendezvous_servers s) (inner s) (ws_peers s) (ws_open s) (ip_blocker s) (ip_changes s)
  (punch_reqs s) a m (PUNCH_REQ_MAX s) (SECRET s).

(** What goes into the channel to the main loop. *)
Inductive Data :=
| DMsg (msg : RendezvousMessage) (addr : SocketAddr)
| DRelayServers0 (rs : string)
| DRelayServers (rs : list string).

(** What a handler does to the outside. *)
Inductive Effect :=
| SendUdp (msg : RendezvousMessage) (addr : SocketAddr)
| SendData (d : Data)
(** [msg], written to the connection as [frame] *)
| SendSink (conn : Z) (ws : bool) (msg : RendezvousMessage) (frame : Bytes)
| SendWs (tx : Z) (msg : RendezvousMessage).

(** ** The handlers' monad *)

Definition M (A : Type) : Type := Server -> (A * Server * list Effect)%type.

#[export] Instance M_ret : MRet M := fun A a s => (a, s, []).
#[export] Instance M_bind : MBind M := fun A B f m s =>
  let '(a, s1, e1) := m s in let '(b, s2, e2) := f a s1 in (b, s2, e1 ++ e2).

Definition gets {A} (f : Server -> A) : M A := fun s => (f s, s, []).
Definition modify (f : Server -> Server) : M unit := fun s => (tt, f s, []).
Definition emit (e : Effect) : M unit := fun s => (tt, s, [e]).
(** Run an operation of a component on its part of the state. *)
Definition on_pm {A} (f : PeerMap -> A * PeerMap) : M A := fun s =>
  let '(a, p) := f (pm s) in (a, set_pm p s, []).
Definition on_selector {A} (f : Selector -> A * Selector) : M A := fun s =>
  let '(a, r) := f (relay_servers s) in (a, set_relays r (relay_servers0 s) s, []).
Definition when (b : bool) (m : M unit) : M unit := if b then m else mret tt.

(** What one run of a handler meets. *)
Record Env := mkEnv {
  now : Instant;
  unix_now : Z;
  db_env : DbEnv;
  (** whether the UDP socket accepts a datagram *)
  udp_ok : RendezvousMessage -> SocketAddr -> bool;
  (** a connection's task works on the copy of the server it was given when the connection was
      accepted: the serial and the rendezvous servers in it; [None] for the main loop, which
      works on the server itself *)
  env_config : option ConfigUpdate;
}.

(** The run of a task with such a copy. *)
Definition as_task (cfg : ConfigUpdate) (env : Env) : Env :=
  mkEnv (now env) (unix_now env) (db_env env) (udp_ok env) (Some cfg).

(** ** Registration *)

Definition with_peer {A} (l : Loc) (f : Peer -> A) : M (option A) :=
  gets (fun s => f <$> pm_heap (pm s) !! l).

Definition set_reg_pk (c : Counter) (p : Peer) : Peer :=
  mkPeer (socket_addr p) (last_reg_time p) (guid p) (uuid p) (pk p) (info p) c.

(** The check against the stored peer: [None] for a mismatch, otherwise whether
    anything, and whether the address, changed. *)
Definition register_check (p : Peer) (rk : RegisterPk) (ip : string) : option (bool * bool) :=
  if str_is_empty (uuid p) then Some (true, false)
  else if bool_decide (uuid p = rk_uuid rk) then
    if negb (bool_decide (info_ip (info p) = ip)) && negb (bool_decide (pk p = rk_pk rk))
    then None
    else
      let ip_changed := negb (bool_decide (info_ip (info p) = ip)) in
      Some (negb (bool_decide (uuid p = rk_uuid rk)) || negb (bool_decide (pk p = rk_pk rk))
              || ip_changed, ip_changed)
  else None.

(** [check_ip_blocker] on the server's table. *)
Definition ip_allowed (env : Env) (ip id : string) : M bool := fun s =>
  let '(ok, lock) := check_ip_blocker (now env) ip id (ip_blocker s) in
  (ok, set_guards lock (ip_changes s) (punch_reqs s) s, []).

(** [handle_register_pk]; [None] means no answer.  The result of [update_pk] is
    dropped. *)
Definition handle_register_pk (env : Env) (rk : RegisterPk) (addr : SocketAddr) (ws : bool)
    : M (option RegisterPkResult) :=
  if str_is_empty (rk_uuid rk) || str_is_empty (rk_pk rk) then mret None
  else
    let id := rk_id rk in
    let ip := show_ip (socket_ip addr) in
    if (String.length id <? 6)%nat || (MAX_PEER_ID_LEN <? String.length id)%nat
    then mret (Some UUID_MISMATCH)
    else
      ok ← ip_allowed env ip id;
      if negb ok then mret (Some TOO_FREQUENT)
      else
        l ← on_pm (pm_get_or (db_env env) (now env) id);
        p ← with_peer l (fun p => p);
        let p := default (peer_default (now env)) p in
        match register_check p rk ip with
        | None => mret (Some UUID_MISMATCH)
        | Some (changed, ip_changed) =>
            match bump 6 2 (now env) (reg_pk p) with
            | None => mret (Some TOO_FREQUENT)
            | Some c =>
                on_pm (fun q => (tt, write l (set_reg_pk c) q));;
                when ip_changed
                  (modify (fun s => set_guards (ip_blocker s)
                     (record_ip_change (now env) id ip (ip_changes s)) (punch_reqs s) s));;
                when (changed || ws)
                  (_ ← on_pm (pm_update_pk (db_env env) (now env) id l addr
                                 (rk_uuid rk) (rk_pk rk) ip); mret tt);;
                mret (Some RPK_OK)
            end
        end.

(** What [update_addr] decides about the old record: whether the address changed. *)
Definition addr_changed (p : Peer) (addr : SocketAddr) : bool :=
  let ip := socket_ip addr in
  (if negb (socket_port (socket_addr p) =? 0)
   then negb (bool_decide (ip = socket_ip (socket_addr p)))
   else negb (bool_decide (show_ip ip = info_ip (info p)))) && negb (is_loopback ip).

Definition seen_at (addr : SocketAddr) (t : Instant) (p : Peer) : Peer :=
  mkPeer addr t (guid p) (uuid p) (pk p) (info p) (reg_pk p).

(** [update_addr]: whether the peer must send its public key again.  Only a peer that
    need not has its address and its last-seen time refreshed. *)
Definition update_addr (env : Env) (id : string) (addr : SocketAddr) : M bool :=
  old ← gets (fun s => l ← get_in_memory id (pm s); p ← pm_heap (pm s) !! l; Some (l, p));
  match old with
  | None => mret true
  | Some (l, p) =>
      let request_pk := str_is_empty (pk p) || addr_changed p addr in
      when (negb request_pk) (on_pm (fun q => (tt, write l (seen_at addr (now env)) q)));;
      mret request_pk
  end.

(** ** Reaching a peer *)

Definition register_ws_peer (addr : SocketAddr) (ctx : WsPeer) : M unit :=
  modify (fun s => set_ws (<[try_into_v4 addr := ctx]> (ws_peers s)) (ws_open s) s).

Definition push_to_ws_peer (addr : SocketAddr) (msg : RendezvousMessage) : M bool := fun s =>
  let key := try_into_v4 addr in
  match ws_peers s !! key with
  | None => (false, s, [])
  | Some peer =>
      if bool_decide (wp_tx peer ∈ ws_open s) then (true, s, [SendWs (wp_tx peer) msg])
      else (false, set_ws (delete key (ws_peers s)) (ws_open s) s, [])
  end.

Definition ws_peer_count (s : Server) : nat := size (ws_peers s).

(** [Sink::set_key] and [Sink::send]: once a key is set every frame is encrypted, and
    the cipher's counter moves on. *)
Definition sink_set_key (key : SymKey) (k : Sink) : Sink :=
  mkSink (sink_conn k) (sink_ws k) (Some (crypt_new key)).

Definition sink_send (k : Sink) (msg : RendezvousMessage) : M Sink :=
  match write_to_bytes msg with
  | None => mret k
  | Some bytes =>
      let '(frame, enc) :=
        match sink_encrypt k with
        | Some c => let '(b, c') := crypt_enc c bytes in (b, Some c')
        | None => (bytes, None)
        end in
      emit (SendSink (sink_conn k) (sink_ws k) msg frame);;
      mret (mkSink (sink_conn k) (sink_ws k) enc)
  end.

Definition send_to_sink (sink : option Sink) (msg : RendezvousMessage) : M (option Sink) :=
  match sink with
  | Some k => k ← sink_send k msg; mret (Some k)
  | None => mret None
  end.

(** [self.tcp_punch.lock().await.remove(..)]. *)
Definition take_tcp_punch (addr : SocketAddr) : M (option Sink) := fun s =>
  let key := try_into_v4 addr in
  (tcp_punch s !! key, set_tcp_punch (delete key (tcp_punch s)) s, []).

Definition send_to_tcp (msg : RendezvousMessage) (addr : SocketAddr) : M unit :=
  pushed ← push_to_ws_peer addr msg;
  if (pushed : bool) then mret tt
  else sink ← take_tcp_punch addr; _ ← send_to_sink sink msg; mret tt.

(** [send_to_tcp_sync] waits for the write that [send_to_tcp] leaves to a task. *)
Definition send_to_tcp_sync (msg : RendezvousMessage) (addr : SocketAddr) : M unit :=
  pushed ← push_to_ws_peer addr msg;
  if (pushed : bool) then mret tt
  else sink ← take_tcp_punch addr; _ ← send_to_sink sink msg; mret tt.

(** ** Punch-hole requests *)

Definition is_lan_at (i : Inner) (addr : SocketAddr) : bool :=
  match mask i with
  | None => false
  | Some network =>
      match addr with
      | SocketV4 a _ => v4net_contains network a
      | SocketV6 a _ _ _ =>
          match to_ipv4 a with Some b => v4net_contains network b | None => false end
      end
  end.

Definition is_lan (addr : SocketAddr) : M bool := gets (fun s => is_lan_at (inner s) addr).

Definition get_relay_server (env : Env) (pa pb : IpAddr) : M string :=
  p ← on_selector (pick (now env) (now env) pa pb true); mret (pick_relay p).

(** [get_pk]: the peer's id and public key signed by the server. *)
Definition get_pk (env : Env) (ver : string) (id : string) : M Bytes :=
  key ← gets (fun s => sk (inner s));
  match key with
  | None => mret ""
  | Some key =>
      if str_is_empty ver then mret ""
      else
        l ← on_pm (pm_get (db_env env) (now env) id);
        match l with
        | None => mret ""
        | Some l =>
            k ← with_peer l pk;
            mret (sign (idpk_bytes id (default "" k)) key)
        end
  end.

Definition REG_TIMEOUT : Z := 30000.

Definition refusal (f : option PunchFailure) (other : string) : RendezvousMessage :=
  MPunchHoleResponse (mkPunchHoleResponse "" "" f "" other None false).

Definition same_ip (a b : SocketAddr) : bool :=
  match a, b with
  | SocketV4 x _, SocketV4 y _ => x =? y
  | SocketV6 x _ _ _, SocketV6 y _ _ _ => x =? y
  | _, _ => false
  end.

(** What refuses a request before its peer is looked at. *)
Definition punch_gate (env : Env) (s : Server) (ph : PunchHoleRequest) (key : string)
    : option RendezvousMessage :=
  if str_nonempty key && negb (bool_decide (ph_licence_key ph = key))
  then Some (refusal (Some LICENSE_MISMATCH) "")
  else if MUST_LOGIN s then
    if str_is_empty (ph_token ph) then Some (refusal None "Connection failed, please login!")
    else if str_nonempty (SECRET s) &&
            negb (is_ok (verify_token (SECRET s) (unix_now env) (unix_now env) (ph_token ph)))
    then Some (refusal None "Token error, please log out and log back in!")
    else None
  else None.

(** The message a reachable peer is sent. *)
Definition punch_message (env : Env) (addr peer_addr : SocketAddr) (ph : PunchHoleRequest)
    (ws : bool) : M RendezvousMessage :=
  peer_is_lan ← is_lan peer_addr;
  lan ← is_lan addr;
  relay ← get_relay_server env (socket_ip addr) (socket_ip peer_addr);
  always ← gets ALWAYS_USE_RELAY;
  here ← gets (fun s => local_ip (inner s));
  let force := always || xorb peer_is_lan lan in
  let relay := if force && peer_is_lan then here else relay in
  let nat := if force then NAT_SYMMETRIC else ph_nat_type ph in
  let same_intranet := negb ws && (peer_is_lan && lan || same_ip peer_addr addr) in
  let sa := AddrMangle_encode addr in
  mret (if same_intranet then MFetchLocalAddr (mkFetchLocalAddr sa relay)
        else MPunchHole (mkPunchHole sa nat relay)).

(** [handle_punch_hole_request]: the message and the peer it is for, or the refusal. *)
Definition handle_punch_hole_request (env : Env) (addr : SocketAddr) (ph : PunchHoleRequest)
    (key : string) (ws : bool) : M (RendezvousMessage * option SocketAddr) :=
  gate ← gets (fun s => punch_gate env s ph key);
  match gate with
  | Some msg => mret (msg, None)
  | None =>
      let id := ph_id ph in
      l ← on_pm (pm_get (db_env env) (now env) id);
      match l with
      | None => mret (refusal (Some ID_NOT_EXIST) "", None)
      | Some l =>
          p ← with_peer l (fun p => p);
          let p := default (peer_default (now env)) p in
          let peer_addr := socket_addr p in
          if REG_TIMEOUT <=? elapsed_millis (now env) (last_reg_time p)
          then mret (refusal (Some OFFLINE) "", None)
          else
            modify (fun s => set_guards (ip_blocker s) (ip_changes s)
              (record_punch_req (PUNCH_REQ_MAX s) (now env)
                 (show_ip (socket_ip (try_into_v4 addr)))
                 (show_ip (socket_ip (try_into_v4 peer_addr))) id (punch_reqs s)) s);;
            msg ← punch_message env addr peer_addr ph ws;
            mret (msg, Some peer_addr)
      end
  end.

(** [handle_udp_punch_hole_request], which no dispatcher calls: the peer or the asker, by
    UDP. *)
Definition handle_udp_punch_hole_request (env : Env) (addr : SocketAddr) (ph : PunchHoleRequest)
    (key : string) : M unit :=
  '(msg, to_addr) ← handle_punch_hole_request env addr ph key false;
  emit (SendData (DMsg msg (default addr to_addr))).

(** [handle_tcp_punch_hole_request]: the peer over its websocket or by UDP, the
    refusal back to the asker. *)
Definition handle_tcp_punch_hole_request (env : Env) (addr : SocketAddr) (ph : PunchHoleRequest)
    (key : string) (ws : bool) : M unit :=
  r ← handle_punch_hole_request env addr ph key ws;
  match r with
  | (msg, Some to) =>
      pushed ← push_to_ws_peer to msg;
      when (negb pushed) (emit (SendData (DMsg msg to)))
  | (msg, None) => send_to_tcp_sync msg addr
  end.

(** ** The answers of the asked peer *)

Definition handle_hole_sent (env : Env) (phs : PunchHoleSent) (addr : SocketAddr) : M unit :=
  let addr_a := AddrMangle_decode (phs_socket_addr phs) in
  k ← get_pk env (phs_version phs) (phs_id phs);
  let nat := if nat_type_known (phs_nat_type phs) then Some (phs_nat_type phs) else None in
  send_to_tcp (MPunchHoleResponse (mkPunchHoleResponse (AddrMangle_encode addr) k None
    (phs_relay_server phs) "" nat false)) addr_a.

Definition handle_local_addr (env : Env) (la : LocalAddr) (addr : SocketAddr) : M unit :=
  let addr_a := AddrMangle_decode (la_socket_addr la) in
  k ← get_pk env (la_version la) (la_id la);
  send_to_tcp (MPunchHoleResponse (mkPunchHoleResponse (la_local_addr la) k None
    (la_relay_server la) "" None true)) addr_a.

(** The [RelayResponse] branch of [handle_tcp]. *)
Definition handle_relay_response (env : Env) (rr : RelayResponse) (addr : SocketAddr) : M unit :=
  let addr_b := AddrMangle_decode (rr_socket_addr rr) in
  let id := match rr_union rr with RrId id => id | _ => "" end in
  union ← (if str_nonempty id then k ← get_pk env (rr_version rr) id; mret (RrPk k)
           else mret (rr_union rr));
  here ← gets (fun s => local_ip (inner s));
  lan ← is_lan addr_b;
  relay ← (if str_nonempty (rr_relay_server rr) then
             if (lan : bool) then mret here
             else if bool_decide (rr_relay_server rr = here)
             then get_relay_server env (socket_ip addr) (socket_ip addr_b)
             else mret (rr_relay_server rr)
           else mret (rr_relay_server rr));
  send_to_tcp_sync (MRelayResponse (mkRelayResponse "" union relay (rr_version rr) (rr_other rr)))
    addr_b.

(** ** Online state *)

Definition is_online (t : Instant) (id : string) (m : PeerMap) : bool :=
  match get_in_memory id m with
  | Some l =>
      match pm_heap m !! l with
      | Some p => elapsed_millis t (last_reg_time p) <? REG_TIMEOUT
      | None => false
      end
  | None => false
  end.

(** One turn of the loop: [states[i / 8] |= 0x01 << (7 - i % 8)]. *)
Definition mark_online (t : Instant) (m : PeerMap) (states : list Z) (i : nat) (id : string)
    : list Z :=
  if is_online t id m
  then alter (fun b => Z.lor b (Z.shiftl 1 (7 - Z.of_nat (i mod 8)))) (i / 8)%nat states
  else states.

Fixpoint mark_all (t : Instant) (m : PeerMap) (states : list Z) (i : nat) (peers : list string)
    : list Z :=
  match peers with
  | [] => states
  | id :: peers => mark_all t m (mark_online t m states i id) (S i) peers
  end.

Definition peers_online_state (t : Instant) (peers : list string) (m : PeerMap) : list Z :=
  mark_all t m (replicate ((length peers + 7) / 8) 0) 0 peers.

(** ** The two dispatchers *)

Definition config_update (s : Server) : ConfigUpdate :=
  mkConfigUpdate (serial (inner s)) (rendezvous_servers s).

(** As the one who runs the handler sees it. *)
Definition own_config (env : Env) (s : Server) : ConfigUpdate := default (config_update s) (env_config env).

Definition id_ok (id : string) : bool :=
  str_nonempty id && (String.length id <=? MAX_PEER_ID_LEN)%nat.

(** [socket.send(..).await?]. *)
Definition udp_send (env : Env) (msg : RendezvousMessage) (addr : SocketAddr) : M bool :=
  if udp_ok env msg addr then emit (SendUdp msg addr);; mret true else mret false.

Definition set_serial (n : Z) (i : Inner) : Inner :=
  mkInner n (version i) (software_url i) (mask i) (local_ip i) (sk i).

(** [handle_udp]: [false] for a send that failed.  [valid] is [test_if_valid_server]. *)
Definition handle_udp (env : Env) (valid : string -> bool) (bytes : Bytes) (addr : SocketAddr)
    : M bool :=
  match parse_from_bytes bytes with
  | Some (MRegisterPeer rp) =>
      if id_ok (rp_id rp) then
        request_pk ← update_addr env (rp_id rp) addr;
        sent ← udp_send env (MRegisterPeerResponse request_pk) addr;
        if (sent : bool) then
          s ← gets (fun s => s);
          if rp_serial rp <? serial (inner s)
          then udp_send env (MConfigureUpdate (config_update s)) addr
          else mret true
        else mret false
      else mret true
  | Some (MRegisterPk rk) =>
      res ← handle_register_pk env rk addr false;
      match res with
      | Some res => udp_send env (MRegisterPkResponse res) addr
      | None => mret true
      end
  | Some (MConfigureUpdate cu) =>
      modify (fun s =>
        if is_loopback (socket_ip (try_into_v4 addr)) && (serial (inner s) <? cu_serial cu)
        then set_config (List.filter (fun x => str_nonempty x && valid x) (cu_rendezvous_servers cu))
               (set_serial (cu_serial cu) (inner s)) s
        else s);;
      mret true
  | Some (MSoftwareUpdate url) =>
      i ← gets inner;
      if str_nonempty (version i) && negb (bool_decide (url = version i))
      then udp_send env (MSoftwareUpdate (software_url i)) addr
      else mret true
  | _ => mret true
  end.

(** A caller must be reachable by whoever answers: over a websocket through the
    registry, over TCP by handing its sink to [tcp_punch].  Gives the sink that is
    left. *)
Definition leave_route_back (addr : SocketAddr) (sink : option Sink) (ws_conn : option WsPeer)
    : M (option Sink) :=
  match ws_conn with
  | Some ctx => register_ws_peer addr ctx;; mret sink
  | None =>
      match sink with
      | Some k =>
          modify (fun s => set_tcp_punch (<[try_into_v4 addr := k]> (tcp_punch s)) s);; mret None
      | None => mret None
      end
  end.

Definition register_if_ws (addr : SocketAddr) (ws_conn : option WsPeer) : M unit :=
  match ws_conn with Some ctx => register_ws_peer addr ctx | None => mret tt end.

(** The [RequestRelay] branch: the request goes on to the asked peer. *)
Definition forward_relay_request (addr : SocketAddr) (rf : RequestRelay) : M unit :=
  to ← gets (fun s => l ← get_in_memory (rf_id rf) (pm s); socket_addr <$> pm_heap (pm s) !! l);
  match to with
  | None => mret tt
  | Some peer_addr =>
      let msg := MRequestRelay (mkRequestRelay (rf_id rf) (AddrMangle_encode addr)
                                (rf_uuid rf) (rf_licence_key rf) (rf_other rf)) in
      pushed ← push_to_ws_peer peer_addr msg;
      when (negb pushed) (emit (SendData (DMsg msg peer_addr)))
  end.

(** [handle_tcp]: whether the connection stays open, and the sink that is left. *)
Definition handle_tcp (env : Env) (bytes : Bytes) (sink : option Sink) (addr : SocketAddr)
    (key : string) (ws : bool) (ws_conn : option WsPeer) : M (bool * option Sink) :=
  match parse_from_bytes bytes with
  | Some (MPunchHoleRequest ph) =>
      sink ← leave_route_back addr sink ws_conn;
      handle_tcp_punch_hole_request env addr ph key ws;;
      mret (true, sink)
  | Some (MRequestRelay rf) =>
      sink ← leave_route_back addr sink ws_conn;
      forward_relay_request addr rf;;
      mret (true, sink)
  | Some (MRelayResponse rr) => handle_relay_response env rr addr;; mret (ws, sink)
  | Some (MPunchHoleSent phs) => handle_hole_sent env phs addr;; mret (ws, sink)
  | Some (MLocalAddr la) => handle_local_addr env la addr;; mret (ws, sink)
  | Some (MTestNatRequest ser) =>
      cfg ← gets (own_config env);
      sink ← send_to_sink sink (MTestNatResponse (socket_port addr)
        (if ser <? cu_serial cfg then Some cfg else None));
      mret (ws, sink)
  | Some (MOnlineRequest peers) =>
      states ← gets (fun s => peers_online_state (now env) peers (pm s));
      sink ← send_to_sink sink (MOnlineResponse states);
      mret (ws, sink)
  | Some (MRegisterPeer rp) =>
      if id_ok (rp_id rp) then
        request_pk ← update_addr env (rp_id rp) addr;
        sink ← send_to_sink sink (MRegisterPeerResponse request_pk);
        register_if_ws addr ws_conn;;
        cfg ← gets (own_config env);
        sink ← (if rp_serial rp <? cu_serial cfg
                then send_to_sink sink (MConfigureUpdate cfg) else mret sink);
        mret (ws, sink)
      else mret (ws, sink)
  | Some (MRegisterPk rk) =>
      res ← handle_register_pk env rk addr ws;
      match res with
      | None => mret (false, sink)
      | Some res =>
          sink ← send_to_sink sink (MRegisterPkResponse res);
          if bool_decide (res = RPK_OK) then register_if_ws addr ws_conn;; mret (true, sink)
          else mret (false, sink)
      end
  | _ => mret (ws, sink)
  end.

End Server.
