(* ===== verification/RegRace.v ===== *)
(** * Registrations that overlap ([handle_register_pk] of [src/src/rendezvous_server.rs],
    [get], [get_or] and [update_pk] of [src/src/peer.rs])

    Datagrams are handled one after the other, but every websocket connection registers from
    a task of its own, and a registration gives up its locks between looking for the id in the
    map, asking the database, filing what it found there, comparing with the record, counting,
    writing the record and storing it.  Here a registration is its steps between those points,
    from the first look at the map to the answer.  Any number of them interleave, with the
    look-ups of the other handlers ([get], which may file a record as well) and with
    heartbeats, and every step meets the database in whatever condition it is.  Left out are
    the guard on the address, which is asked before, and the record of address changes, which
    nothing here reads. *)

From S2P Require Import Prelude RustStr Net RateLimit Guards PeerStore External Rendezvous.

Local Open Scope Z_scope.

(** A registration under way: the request, where it came from and the cell of its id. *)
Record Reg := mkReg {
  rg_rk : RegisterPk;
  rg_addr : SocketAddr;
  rg_ip : string;
  rg_ws : bool;
  rg_cell : Loc;
}.

(** Who looks for an id: a registration, through [get_or], or another handler, through [get]. *)
Inductive Want :=
| WReg (rk : RegisterPk) (addr : SocketAddr) (ip : string) (ws : bool)
| WLook (id : string).

Definition want_id (w : Want) : string :=
  match w with WReg rk _ _ _ => rk_id rk | WLook id => id end.

(** What a task is about to do. *)
Inductive RegTask :=
| RMap (w : Want)                                     (** look into the map *)
| RDb (w : Want)                                      (** and into the database *)
| RFile (w : Want) (p : Peer)                         (** file what is stored there *)
| ROr (w : Want)                                      (** or take or make a cell in the map *)
| RLooked (id : string) (l : option Loc)              (** a look-up that is over *)
| RGot (r : Reg)                                      (** compare with the record *)
| RChecked (r : Reg) (changed : bool)                 (** read the counter *)
| RCounted (r : Reg) (changed : bool) (c : Counter)   (** write the counter *)
| RUpdate (r : Reg) (changed : bool)                  (** write the record *)
| RStore (r : Reg) (g : Bytes) (inf : string)         (** store it *)
| RGuid (r : Reg) (g : Bytes)                         (** note the row's guid *)
| RAnswered (r : Reg) (a : RegisterPkResult).

Section RegRace.
  Context {json : InfoJson}.

Definition cell_of (now : Instant) (l : Loc) (pm : PeerMap) : Peer :=
  default (peer_default now) (pm_heap pm !! l).

(** [alloc] and [insert], as [get] files what it read, whatever the map has by then. *)
Definition file_peer (id : string) (p : Peer) (m : PeerMap) : Loc * PeerMap :=
  let '(l, m) := alloc p m in (l, set_map (<[id := l]> (pm_map m)) m).

(** The cell is handed out. *)
Definition handed (w : Want) (l : Loc) : RegTask :=
  match w with
  | WReg rk addr ip ws => RGot (mkReg rk addr ip ws l)
  | WLook id => RLooked id (Some l)
  end.

(** [get] gave nothing. *)
Definition not_stored (w : Want) : RegTask :=
  match w with WReg _ _ _ _ => ROr w | WLook id => RLooked id None end.

(** One uninterrupted stretch. *)
Definition reg_step (env : DbEnv) (now : Instant) (t : RegTask) (pm : PeerMap) : RegTask * PeerMap :=
  match t with
  | RMap w =>
      match pm_map pm !! want_id w with
      | Some l => (handed w l, pm)
      | None => (RDb w, pm)
      end
  | RDb w =>
      match db_get_peer (can_read env) (want_id w) (pm_db pm) with
      | Ok (Some v) => (RFile w (peer_of_row now v), pm)
      | _ => (not_stored w, pm)
      end
  | RFile w p => let '(l, pm) := file_peer (want_id w) p pm in (handed w l, pm)
  | ROr w =>
      match pm_map pm !! want_id w with
      | Some l => (handed w l, pm)
      | None => let '(l, pm) := file_peer (want_id w) (peer_default now) pm in (handed w l, pm)
      end
  | RLooked _ _ => (t, pm)
  | RGot r =>
      match register_check (cell_of now (rg_cell r) pm) (rg_rk r) (rg_ip r) with
      | None => (RAnswered r UUID_MISMATCH, pm)
      | Some (changed, _) => (RChecked r changed, pm)
      end
  | RChecked r changed =>
      match bump 6 2 now (reg_pk (cell_of now (rg_cell r) pm)) with
      | None => (RAnswered r TOO_FREQUENT, pm)
      | Some c => (RCounted r changed c, pm)
      end
  | RCounted r changed c => (RUpdate r changed, write (rg_cell r) (set_reg_pk c) pm)
  | RUpdate r changed =>
      if changed || rg_ws r then
        (RStore r (guid (cell_of now (rg_cell r) pm)) (info_to_json (mkPeerInfo (rg_ip r))),
         write (rg_cell r) (registered (rg_addr r) (rk_uuid (rg_rk r)) (rk_pk (rg_rk r)) (rg_ip r) now) pm)
      else (RAnswered r RPK_OK, pm)
  | RStore r g inf =>
      if str_is_empty g then
        match db_insert_peer (can_write env) (next_guid env) (rk_id (rg_rk r)) (rk_uuid (rg_rk r))
                (rk_pk (rg_rk r)) inf (pm_db pm) with
        | Err _ => (RAnswered r RPK_OK, pm)
        | Ok (g, db) => (RGuid r g, set_db db pm)
        end
      else
        match db_update_pk (can_write env) g (rk_id (rg_rk r)) (rk_pk (rg_rk r)) inf (pm_db pm) with
        | Err _ => (RAnswered r RPK_OK, pm)
        | Ok db => (RAnswered r RPK_OK, set_db db pm)
        end
  | RGuid r g => (RAnswered r RPK_OK, write (rg_cell r) (set_guid g) pm)
  | RAnswered _ _ => (t, pm)
  end.

(** Registrations and look-ups arrive, go on in any order, and heartbeats refresh addresses. *)
Inductive reg_sched : list RegTask * PeerMap -> list RegTask * PeerMap -> Prop :=
| RS_step i t t' ts pm pm' env now :
    ts !! i = Some t -> reg_step env now t pm = (t', pm') ->
    reg_sched (ts, pm) (<[i := t']> ts, pm')
| RS_arrive ts pm w : reg_sched (ts, pm) (ts ++ [RMap w], pm)
| RS_heartbeat ts pm l addr now :
    reg_sched (ts, pm) (ts, write l (seen_at addr now) pm).

(** ** Alone, a registration is the handler's *)

Fixpoint run_reg (n : nat) (env : DbEnv) (now : Instant) (t : RegTask) (pm : PeerMap)
    : RegTask * PeerMap :=
  match n with
  | O => (t, pm)
  | S n => let '(t, pm) := reg_step env now t pm in run_reg n env now t pm
  end.

(** The handler from the cell on, without interruption. *)
Definition register_at (env : DbEnv) (now : Instant) (r : Reg) (pm : PeerMap)
    : RegisterPkResult * PeerMap :=
  let p := cell_of now (rg_cell r) pm in
  match register_check p (rg_rk r) (rg_ip r) with
  | None => (UUID_MISMATCH, pm)
  | Some (changed, _) =>
      match bump 6 2 now (reg_pk p) with
      | None => (TOO_FREQUENT, pm)
      | Some c =>
          let pm := write (rg_cell r) (set_reg_pk c) pm in
          if changed || rg_ws r then
            (RPK_OK, (pm_update_pk env now (rk_id (rg_rk r)) (rg_cell r) (rg_addr r)
                       (rk_uuid (rg_rk r)) (rk_pk (rg_rk r)) (rg_ip r) pm).2)
          else (RPK_OK, pm)
      end
  end.

Lemma run_reg_answered n env now r a pm : run_reg n env now (RAnswered r a) pm = (RAnswered r a, pm).
Proof. induction n; [done|]. exact IHn. Qed.

Lemma run_reg_S n env now t pm :
  run_reg (S n) env now t pm = let '(t, pm) := reg_step env now t pm in run_reg n env now t pm.
Proof. done. Qed.

Lemma run_reg_add n m env now t pm :
  run_reg (n + m) env now t pm = let '(t, pm) := run_reg n env now t pm in run_reg m env now t pm.
Proof.
  revert t pm. induction n as [|n IH]; intros t pm; [done|]. cbn [Nat.add run_reg].
  destruct (reg_step env now t pm) as [t1 pm1]. apply IH.
Qed.

Lemma cell_of_some now l pm p : pm_heap pm !! l = Some p -> cell_of now l pm = p.
Proof. unfold cell_of. by intros ->. Qed.

Lemma heap_write l f pm : pm_heap (write l f pm) !! l = f <$> pm_heap pm !! l.
Proof. apply lookup_alter_eq. Qed.

(** From the cell on. *)
Lemma alone_from_the_cell env now r pm p :
  pm_heap pm !! rg_cell r = Some p ->
  let '(a, pm') := register_at env now r pm in
  run_reg 6 env now (RGot r) pm = (RAnswered r a, pm').
Proof.
  intros Hp. unfold register_at. rewrite (cell_of_some now _ pm p Hp). cbn [run_reg reg_step].
  rewrite (cell_of_some now _ pm p Hp).
  destruct (register_check p (rg_rk r) (rg_ip r)) as [[ch ich]|]; [|done]. cbn [run_reg reg_step].
  rewrite (cell_of_some now _ pm p Hp).
  destruct (bump 6 2 now (reg_pk p)) as [c|]; [|done]. cbn [run_reg reg_step].
  destruct (ch || rg_ws r); [|done]. cbn [run_reg reg_step].
  set (pm1 := write (rg_cell r) (set_reg_pk c) pm).
  assert (H1 : pm_heap pm1 !! rg_cell r = Some (set_reg_pk c p)).
  { unfold pm1. by rewrite heap_write, Hp. }
  rewrite (cell_of_some now _ pm1 _ H1). unfold pm_update_pk.
  set (pm2 := write (rg_cell r) (registered _ _ _ _ _) pm1).
  assert (guid <$> pm_heap pm2 !! rg_cell r = Some (guid p)) as ->.
  { unfold pm2. by rewrite heap_write, H1. }
  change (guid (set_reg_pk c p)) with (guid p).
  destruct (str_is_empty (guid p)).
  - by destruct (db_insert_peer _ _ _ _ _ _ _) as [[g db]|e].
  - by destruct (db_update_pk _ _ _ _ _ _) as [db|e].
Qed.

(** A registration that nobody interrupts is [get_or] and the rest of the handler. *)
Theorem alone_is_the_handler env now rk addr ip ws pm :
  pm_wf pm ->
  let '(l, pm1) := pm_get_or env now (rk_id rk) pm in
  let r := mkReg rk addr ip ws l in
  let '(a, pm') := register_at env now r pm1 in
  run_reg 9 env now (RMap (WReg rk addr ip ws)) pm = (RAnswered r a, pm').
Proof.
  intros Hwf. pose proof (pm_get_or_wf env now (rk_id rk) pm Hwf) as Hwf'.
  pose proof (pm_get_or_filed env now (rk_id rk) pm) as Hl.
  destruct (pm_get_or env now (rk_id rk) pm) as [l pm1] eqn:E. cbn [fst snd] in *.
  destruct (wf_cell _ Hwf' _ _ Hl) as [p Hp].
  pose proof (alone_from_the_cell env now (mkReg rk addr ip ws l) pm1 p Hp) as Ha.
  destruct (register_at env now (mkReg rk addr ip ws l) pm1) as [a pm'].
  assert (Hmore : forall n, run_reg (6 + n) env now (RGot (mkReg rk addr ip ws l)) pm1
                    = (RAnswered (mkReg rk addr ip ws l) a, pm')).
  { intros n. rewrite run_reg_add, Ha. apply run_reg_answered. }
  unfold pm_get_or, pm_get in E.
  rewrite run_reg_S. cbn [reg_step want_id].
  destruct (pm_map pm !! rk_id rk) as [l0|] eqn:Em.
  { injection E as -> ->. exact (Hmore 2%nat). }
  rewrite run_reg_S. cbn [reg_step want_id].
  destruct (db_get_peer _ _ _) as [[v|]|e]; cbn [not_stored].
  - rewrite run_reg_S. cbn [reg_step want_id].
    unfold file_peer. destruct (alloc _ pm) as [l1 pm2]. injection E as -> <-. exact (Hmore 0%nat).
  - rewrite run_reg_S. cbn [reg_step want_id].
    rewrite Em in E |- *. unfold file_peer. destruct (alloc _ pm) as [l1 pm2]. injection E as -> <-. exact (Hmore 0%nat).
  - rewrite run_reg_S. cbn [reg_step want_id].
    rewrite Em in E |- *. unfold file_peer. destruct (alloc _ pm) as [l1 pm2]. injection E as -> <-. exact (Hmore 0%nat).
Qed.

(** ** Whose an id is *)

Section Owner.
  Context (id : string) (u : Bytes).

(** A guid that leads to no row but the device's. *)
Definition guid_ok (db : Database) (g : Bytes) : Prop :=
  g = "" \/ exists r, r ∈ rows db /\ row_guid r = g /\ row_uuid r = u.

(** The id is the device's in memory and on disk.  [made] says for which id each cell was made:
    the id has a cell; all cells made for it, filed or not, have the device's uuid and a guid
    that leads to no other device's row; and so has the row of the id, if there is one. *)
Record settled (made : gmap Loc string) (pm : PeerMap) : Prop := {
  st_made : forall i l, pm_map pm !! i = Some l -> made !! l = Some i;
  st_heap : dom made = dom (pm_heap pm);
  st_known : is_Some (pm_map pm !! id);
  st_cells : forall l p, made !! l = Some id -> pm_heap pm !! l = Some p ->
    uuid p = u /\ guid_ok (pm_db pm) (guid p);
  st_guids : NoDup (row_guid <$> rows (pm_db pm));
  st_rows : forall r, r ∈ rows (pm_db pm) -> row_id r = id -> row_uuid r = u;
}.

(** A task works on a cell made for its id, and past its look at the record it is the
    device's, if it is about this id. *)
Definition fits (made : gmap Loc string) (db : Database) (t : RegTask) : Prop :=
  match t with
  | RMap _ | RDb _ | ROr _ | RLooked _ _ | RAnswered _ _ => True
  | RFile w p => want_id w = id -> uuid p = u /\ guid_ok db (guid p)
  | RGot r => made !! rg_cell r = Some (rk_id (rg_rk r))
  | RChecked r _ | RCounted r _ _ | RUpdate r _ =>
      made !! rg_cell r = Some (rk_id (rg_rk r)) /\ (rk_id (rg_rk r) = id -> rk_uuid (rg_rk r) = u)
  | RStore r g _ => made !! rg_cell r = Some (rk_id (rg_rk r)) /\
      (rk_id (rg_rk r) = id -> rk_uuid (rg_rk r) = u /\ guid_ok db g)
  | RGuid r g => made !! rg_cell r = Some (rk_id (rg_rk r)) /\ (rk_id (rg_rk r) = id -> guid_ok db g)
  end.

Lemma fits_mono made made' db db' t :
  made ⊆ made' -> (forall g, guid_ok db g -> guid_ok db' g) -> fits made db t -> fits made' db' t.
Proof.
  intros Hm Hg. pose proof (fun l i => lookup_weaken made made' l i) as Hw. destruct t; simpl; intuition eauto.
Qed.

(** Writing to a cell. *)
Lemma settled_write made pm k f :
  settled made pm ->
  (made !! k = Some id -> forall p, uuid p = u -> guid_ok (pm_db pm) (guid p) ->
     uuid (f p) = u /\ guid_ok (pm_db pm) (guid (f p))) ->
  settled made (write k f pm).
Proof.
  intros [H1 H2 H3 H4 H5 H6] Hf. constructor; try done; simpl.
  - by rewrite dom_alter_L.
  - intros l p Hl Hp. destruct (decide (k = l)) as [->|Hne].
    + rewrite lookup_alter_eq in Hp. destruct (pm_heap pm !! l) as [q|] eqn:E; [|done].
      injection Hp as <-. destruct (H4 l q Hl E). by apply Hf.
    + rewrite lookup_alter_ne in Hp by done. by eapply H4.
Qed.

(** Filing a new cell. *)
Lemma settled_file made pm i p l pm' :
  settled made pm -> file_peer i p pm = (l, pm') ->
  (i = id -> uuid p = u /\ guid_ok (pm_db pm) (guid p)) ->
  settled (<[l := i]> made) pm' /\ made ⊆ <[l := i]> made /\ pm_db pm' = pm_db pm.
Proof.
  intros [H1 H2 H3 H4 H5 H6] E Hp. unfold file_peer, alloc in E.
  remember (fresh (dom (pm_heap pm))) as n eqn:En. injection E as <- <-.
  assert (Hn : made !! n = None).
  { apply not_elem_of_dom. rewrite H2, En. apply is_fresh. }
  split; [|split; [by apply insert_subseteq|done]]. constructor; cbn [set_map pm_map pm_heap pm_db]; try done.
  - intros j k [(-> & ->)|(Hne & Hj)]%lookup_insert_Some; [by rewrite lookup_insert_eq|].
    rewrite lookup_insert_ne; [by apply H1|]. intros <-. apply H1 in Hj. congruence.
  - by rewrite !dom_insert_L, H2.
  - destruct (decide (i = id)) as [->|]; [by rewrite lookup_insert_eq|by rewrite lookup_insert_ne].
  - intros k q Hk Hq. destruct (decide (n = k)) as [<-|Hne].
    + rewrite lookup_insert_eq in Hk. rewrite lookup_insert_eq in Hq. simplify_eq. by apply Hp.
    + rewrite lookup_insert_ne in Hk by done. rewrite lookup_insert_ne in Hq by done. by eapply H4.
Qed.

(** Changing the table. *)
Lemma settled_db made pm db :
  settled made pm -> (forall g, guid_ok (pm_db pm) g -> guid_ok db g) ->
  NoDup (row_guid <$> rows db) -> (forall r, r ∈ rows db -> row_id r = id -> row_uuid r = u) ->
  settled made (set_db db pm).
Proof.
  intros [H1 H2 H3 H4 H5 H6] Hg Hn Hr. constructor; try done. simpl. intros l p Hl Hp.
  destruct (H4 l p Hl Hp). auto.
Qed.

Lemma insert_settled made pm up g i v k inf g' db :
  settled made pm -> (i = id -> v = u) -> db_insert_peer up g i v k inf (pm_db pm) = Ok (g', db) ->
  settled made (set_db db pm) /\ (forall x, guid_ok (pm_db pm) x -> guid_ok db x) /\ (i = id -> guid_ok db g').
Proof.
  intros Hs Hv (-> & Hng & _ & ->)%db_insert_ok.
  assert (Hg : forall x, guid_ok (pm_db pm) x ->
    guid_ok (mkDb (rows (pm_db pm) ++ [mkRow g i v k None inf None])) x).
  { intros x [->|(r & Hr & Hx)]; [by left|]. right. exists r. split; [|done]. apply elem_of_app. by left. }
  split; [|split; [done|]].
  - apply settled_db; [done..| |]; simpl.
    + rewrite fmap_app. simpl. apply NoDup_app. split; [by eapply st_guids|]. split; [|apply NoDup_singleton].
      by intros x Hx ->%list_elem_of_singleton.
    + intros r [Hr| ->%list_elem_of_singleton]%elem_of_app; [by eapply st_rows|]. simpl. auto.
  - intros Hi. right. eexists. split; [apply elem_of_app; right; by left|]. auto.
Qed.

Lemma update_settled made pm up g i k inf db :
  settled made pm -> (i = id -> g <> "" /\ guid_ok (pm_db pm) g) -> db_update_pk up g i k inf (pm_db pm) = Ok db ->
  settled made (set_db db pm) /\ (forall x, guid_ok (pm_db pm) x -> guid_ok db x).
Proof.
  intros Hs Hi ->%db_update_ok. set (f := fun r : Row => if bool_decide (row_guid r = g) then _ else r).
  assert (Hf : forall r, row_guid (f r) = row_guid r /\ row_uuid (f r) = row_uuid r).
  { intros r. unfold f. by case_bool_decide. }
  assert (Hg : forall x, guid_ok (pm_db pm) x -> guid_ok (mkDb (f <$> rows (pm_db pm))) x).
  { intros x [->|(r & Hr & Hx & Hu)]; [by left|]. right. exists (f r). destruct (Hf r) as [-> ->].
    split; [by apply list_elem_of_fmap_2|done]. }
  split; [|done]. apply settled_db; [done..| |]; simpl.
  - rewrite <- list_fmap_compose. rewrite (list_fmap_ext _ row_guid); [by eapply st_guids|].
    intros ? r _. apply Hf.
  - intros r (r0 & -> & Hr)%list_elem_of_fmap Hid. rewrite (proj2 (Hf r0)). unfold f in Hid.
    case_bool_decide as Eg; [|by eapply st_rows]. simpl in Hid. destruct (Hi Hid) as [Hne [?|(q & Hq & Eq & Hu)]]; [done|].
    rewrite <- Hu. f_equal. pose proof (st_guids _ _ Hs) as Hn.
    apply list_elem_of_lookup in Hr as [a Ha]. apply list_elem_of_lookup in Hq as [b Hb].
    assert (a = b) as ->; [|congruence].
    eapply (NoDup_lookup _ _ _ g Hn); rewrite list_lookup_fmap, ?Ha, ?Hb; simpl; congruence.
Qed.

(** What the check says of a record of the device. *)
Lemma check_owned p rk ip : u <> "" -> uuid p = u -> register_check p rk ip <> None -> rk_uuid rk = u.
Proof.
  intros Hu Hp. unfold register_check. rewrite Hp. destruct u as [|c v] eqn:E; [done|].
  cbn [str_is_empty str_nonempty negb]. case_bool_decide; [done|]. by intros [].
Qed.

Lemma cell_owned made now pm l : settled made pm -> made !! l = Some id -> uuid (cell_of now l pm) = u /\
  guid_ok (pm_db pm) (guid (cell_of now l pm)).
Proof.
  intros Hs Hl. assert (is_Some (pm_heap pm !! l)) as [p Hp].
  { apply elem_of_dom. rewrite <- (st_heap _ _ Hs). by eapply elem_of_dom_2. }
  rewrite (cell_of_some now l pm p Hp). by eapply st_cells.
Qed.

Lemma handed_fits made db w l : made !! l = Some (want_id w) -> fits made db (handed w l).
Proof. by destruct w. Qed.

Lemma row_found made pm up v now :
  settled made pm -> db_get_peer up id (pm_db pm) = Ok (Some v) ->
  uuid (peer_of_row now v) = u /\ guid_ok (pm_db pm) (guid (peer_of_row now v)).
Proof.
  intros Hs Hv. unfold db_get_peer in Hv. destruct up; [|done]. injection Hv as [Hv Hid]%find_by_id.
  pose proof (st_rows _ _ Hs v Hv Hid). split; [done|]. right. by exists v.
Qed.

(** One stretch keeps it so. *)
Lemma step_settled made env now t pm t' pm' :
  u <> "" -> settled made pm -> fits made (pm_db pm) t -> reg_step env now t pm = (t', pm') ->
  exists made', settled made' pm' /\ made ⊆ made' /\
    (forall g, guid_ok (pm_db pm) g -> guid_ok (pm_db pm') g) /\ fits made' (pm_db pm') t'.
Proof.
  intros Hu Hs Hf E.
  destruct t as [w|w|w p|w|i o|r|r ch|r ch c|r ch|r g inf|r g|r a]; cbn [reg_step fits] in E, Hf.
  - exists made. destruct (pm_map pm !! want_id w) as [l|] eqn:El; simplify_eq; split_and!; try done.
    apply handed_fits. by eapply st_made.
  - exists made. destruct (db_get_peer _ _ _) as [[v|]|e] eqn:Ev; simplify_eq; split_and!; try done.
    + cbn [fits]. intros Hw. rewrite Hw in Ev. by eapply row_found.
    + by destruct w.
    + by destruct w.
  - destruct (file_peer (want_id w) p pm) as [l pm1] eqn:Ep. simplify_eq.
    destruct (settled_file _ _ _ _ _ _ Hs Ep Hf) as (H1 & H2 & H3).
    exists (<[l := want_id w]> made). rewrite H3. split_and!; try done. apply handed_fits, lookup_insert_eq.
  - destruct (pm_map pm !! want_id w) as [l|] eqn:El.
    { simplify_eq. exists made. split_and!; try done. apply handed_fits. by eapply st_made. }
    destruct (file_peer (want_id w) _ pm) as [l pm1] eqn:Ep. simplify_eq.
    destruct (settled_file _ _ _ _ _ _ Hs Ep) as (H1 & H2 & H3).
    { intros Hw. destruct (st_known _ _ Hs) as [l' Hl']. congruence. }
    exists (<[l := want_id w]> made). rewrite H3. split_and!; try done. apply handed_fits, lookup_insert_eq.
  - simplify_eq. exists made. by split_and!.
  - exists made. destruct (register_check _ _ _) as [[ch ich]|] eqn:Ec; simplify_eq; split_and!; try done.
    split; [done|]. intros Hid. rewrite Hid in Hf. eapply check_owned; [done| |by rewrite Ec].
    by eapply cell_owned.
  - exists made. destruct (bump _ _ _ _) as [c|]; simplify_eq; by split_and!.
  - simplify_eq. exists made. split_and!; try done. by apply settled_write.
  - exists made. destruct Hf as [Hc Hid]. destruct (ch || rg_ws r); simplify_eq; [|by split_and!].
    split_and!; try done.
    + apply settled_write; [done|]. intros Hm p Hp Hg. split; [|done]. simpl. apply Hid. congruence.
    + split; [done|]. intros Hi. split; [by apply Hid|]. rewrite Hi in Hc.
      exact (proj2 (cell_owned made now pm _ Hs Hc)).
  - exists made. destruct Hf as [Hc Hid]. destruct (str_is_empty g) eqn:Eg.
    + destruct (db_insert_peer _ _ _ _ _ _ _) as [[g' db]|e] eqn:Ei; simplify_eq; [|by split_and!].
      destruct (insert_settled _ _ _ _ _ _ _ _ _ _ Hs (fun H => proj1 (Hid H)) Ei) as (H1 & H2 & H3).
      by split_and!.
    + destruct (db_update_pk _ _ _ _ _ _) as [db|e] eqn:Ei; simplify_eq; [|by split_and!].
      assert (Hi : rk_id (rg_rk r) = id -> g <> "" /\ guid_ok (pm_db pm) g).
      { intros H. split; [by intros ->|by apply Hid]. }
      destruct (update_settled _ _ _ _ _ _ _ _ Hs Hi Ei) as [H1 H2]. by split_and!.
  - simplify_eq. exists made. destruct Hf as [Hc Hid]. split_and!; try done.
    apply settled_write; [done|]. intros Hm p Hp _. split; [done|]. apply Hid. congruence.
  - simplify_eq. exists made. by split_and!.
Qed.

(** The registration a task is of, and that it has not been let in. *)
Definition registers (t : RegTask) : option RegisterPk :=
  match t with
  | RMap (WReg rk _ _ _) | RDb (WReg rk _ _ _) | RFile (WReg rk _ _ _) _ | ROr (WReg rk _ _ _) => Some rk
  | RGot r | RChecked r _ | RCounted r _ _ | RUpdate r _ | RStore r _ _ | RGuid r _ | RAnswered r _ => Some (rg_rk r)
  | _ => None
  end.

Definition outside (t : RegTask) : Prop :=
  match t with
  | RMap _ | RDb _ | RFile _ _ | ROr _ | RLooked _ _ | RGot _ => True
  | RAnswered _ a => a = UUID_MISMATCH
  | _ => False
  end.

(** A registration for the id by somebody else is not let in. *)
Definition kept_out (t : RegTask) : Prop :=
  forall rk, registers t = Some rk -> rk_id rk = id -> rk_uuid rk <> u -> outside t.

Lemma step_kept_out made env now t pm t' pm' :
  u <> "" -> settled made pm -> fits made (pm_db pm) t -> reg_step env now t pm = (t', pm') ->
  kept_out t -> kept_out t'.
Proof.
  intros Hu Hs Hf E Hk.
  destruct t as [w|w|w p|w|i o|r|r ch|r ch c|r ch|r g inf|r g|r a]; cbn [reg_step fits] in E, Hf.
  6: { destruct (register_check _ _ _) as [[ch ich]|] eqn:Ec; simplify_eq; [|by intros rk].
       intros rk [= <-] Hid Hne. destruct Hne. rewrite Hid in Hf.
       eapply check_owned; [done| |by rewrite Ec]. by eapply cell_owned. }
  all: repeat case_match; simplify_eq; try done; try (by destruct w).
  all: intros rk Hrk Hid Hne; simpl in *; try (destruct w; simplify_eq/=; done).
  all: by destruct (Hk _ Hrk Hid Hne).
Qed.

End Owner.

(** All tasks and the map. *)
Definition device_has (id : string) (u : Bytes) (s : list RegTask * PeerMap) : Prop :=
  exists made, settled id u made s.2 /\ Forall (fits id u made (pm_db s.2)) s.1.

Lemma device_has_step id u n s s' :
  u <> "" -> reg_sched s s' -> device_has id u s /\ (forall i t, s.1 !! i = Some t -> (n <= i)%nat -> kept_out id u t) ->
  device_has id u s' /\ (forall i t, s'.1 !! i = Some t -> (n <= i)%nat -> kept_out id u t).
Proof.
  intros Hu St [(made & Hs & Hf) Hk]. destruct St as [i t t' ts pm pm' env now Hi E|ts pm w|ts pm l addr now];
    cbn [fst snd] in *.
  - pose proof (proj1 (Forall_lookup _ _) Hf i t Hi) as Hft.
    destruct (step_settled _ _ _ _ _ _ _ _ _ Hu Hs Hft E) as (made' & Hs' & Hm & Hg & Hf'). split.
    + exists made'. split; [done|]. apply Forall_insert; [|done].
      eapply Forall_impl; [exact Hf|]. intros x. by apply fits_mono.
    + intros j x [(-> & <- & _)|[_ Hj]]%list_lookup_insert_Some Hn; [|by eapply Hk].
      eapply step_kept_out; [done|exact Hs|exact Hft|exact E|by eapply Hk].
  - split.
    + exists made. split; [done|]. by apply Forall_app_2; [|constructor].
    + intros j x [Hj|[_ Hj]]%lookup_app_Some Hn; [by eapply Hk|].
      apply list_lookup_singleton_Some in Hj as [_ <-]. by intros rk.
  - split; [|done]. exists made. split; [by apply settled_write|done].
Qed.

Lemma device_has_run id u n s s' :
  u <> "" -> rtc reg_sched s s' ->
  device_has id u s /\ (forall i t, s.1 !! i = Some t -> (n <= i)%nat -> kept_out id u t) ->
  device_has id u s' /\ (forall i t, s'.1 !! i = Some t -> (n <= i)%nat -> kept_out id u t).
Proof. intros Hu. induction 1 as [|s1 s2 s3 St R IH]; [done|]. eauto using device_has_step. Qed.

(** Where nothing is under way it is enough that the map is in order. *)
Definition makers (id : string) (pm : PeerMap) : gmap Loc string :=
  list_to_map (prod_swap <$> map_to_list (pm_map pm)) ∪ ((fun _ => id +:+ "'") <$> pm_heap pm).

Lemma makers_filed id pm i l : pm_wf pm -> pm_map pm !! i = Some l -> makers id pm !! l = Some i.
Proof.
  intros Hwf Hl. apply lookup_union_Some_l, elem_of_list_to_map_1'.
  - intros j (x & Ex & Hx)%list_elem_of_fmap. destruct x as [j' l']. simplify_eq/=.
    apply elem_of_map_to_list in Hx. by eapply wf_own.
  - apply list_elem_of_fmap. exists (i, l). split; [done|]. by apply elem_of_map_to_list.
Qed.

Lemma makers_inv id pm i l :
  makers id pm !! l = Some i -> pm_map pm !! i = Some l \/ (i = id +:+ "'" /\ is_Some (pm_heap pm !! l)).
Proof.
  intros [H|[_ H]]%lookup_union_Some_raw.
  - left. apply elem_of_list_to_map_2, list_elem_of_fmap in H as ([j k] & Ex & Hx). simplify_eq/=.
    by apply elem_of_map_to_list in Hx.
  - right. rewrite lookup_fmap in H. destruct (pm_heap pm !! l) eqn:E; [|done]. simplify_eq/=. eauto.
Qed.

Lemma device_has_quiet id u pm l p :
  pm_wf pm -> pm_map pm !! id = Some l -> pm_heap pm !! l = Some p -> uuid p = u ->
  (forall r, r ∈ rows (pm_db pm) -> row_id r = id -> row_uuid r = u) ->
  device_has id u ([], pm).
Proof.
  intros Hwf Hl Hp Hu Hr. exists (makers id pm). split; [|constructor]. constructor; cbn [snd]; try done.
  - intros i k. by apply makers_filed.
  - apply set_eq. intros k. rewrite !elem_of_dom. split.
    + intros [i [Hi|[_ Hk]]%makers_inv]; [|done]. by eapply wf_cell.
    + intros [q Hq]. unfold makers. apply lookup_union_is_Some. right. by rewrite lookup_fmap, Hq.
  - intros k q [Hk|[Hid _]]%makers_inv Hq.
    + assert (k = l) as -> by congruence. assert (q = p) as -> by congruence. split; [done|].
      destruct (decide (guid p = "")) as [|Hg]; [by left|].
      destruct (wf_row _ Hwf _ _ _ Hl Hp Hg) as (r & Hin & Hrg & _ & Hru). right. exists r. by rewrite Hru.
    + exfalso. apply (f_equal String.length) in Hid. rewrite str_length_app in Hid. simpl in Hid. lia.
  - apply Hwf.
Qed.

End RegRace.

(** ** Claims *)

(** C6: An id stays with its device also when registrations overlap.  Once an id is a device's
    in memory and, if it has a row, on disk, and whatever is under way for it at that moment
    works on the device's own record ([device_has]), then however any number of registrations,
    look-ups and heartbeats interleave from there on, also where a look-up files a record it
    read before another took its place, and whatever the database does, the record filed under
    the id is the device's and so is its row, and a registration for the id with another uuid
    that arrives later gets no answer but [UUID_MISMATCH]. *)
Theorem owner_survives_races `{json : InfoJson} (id : string) (u : Bytes)
    (ts : list RegTask) (pm : PeerMap) (ts' : list RegTask) (pm' : PeerMap) :
  u <> "" -> device_has id u (ts, pm) -> rtc reg_sched (ts, pm) (ts', pm') ->
  (exists l p, pm_map pm' !! id = Some l /\ pm_heap pm' !! l = Some p /\ uuid p = u) /\
  (forall r, r ∈ rows (pm_db pm') -> row_id r = id -> row_uuid r = u) /\
  (forall i r a, (length ts <= i)%nat -> ts' !! i = Some (RAnswered r a) -> rk_id (rg_rk r) = id ->
    rk_uuid (rg_rk r) <> u -> a = UUID_MISMATCH).
Proof.
  intros Hu Hd R. destruct (device_has_run id u (length ts) _ _ Hu R) as [(made & Hs & _) Hk].
  { split; [done|]. intros i t Hi%lookup_lt_Some Hn. simpl in Hi. lia. }
  cbn [fst snd] in Hs, Hk. split; [|split].
  - destruct (st_known _ _ _ _ Hs) as [l Hl]. pose proof (st_made _ _ _ _ Hs _ _ Hl) as Hm.
    assert (is_Some (pm_heap pm' !! l)) as [p Hp].
    { apply elem_of_dom. rewrite <- (st_heap _ _ _ _ Hs). by eapply elem_of_dom_2. }
    exists l, p. split; [done|]. split; [done|]. by eapply st_cells.
  - by eapply st_rows.
  - intros i r a Hn Hi Hid Hne. exact (Hk i _ Hi Hn (rg_rk r) eq_refl Hid Hne).
Qed.

(** ** Races *)

Section Race.
  Context {json : InfoJson}.

(** A schedule: whose turn it is. *)
Fixpoint run_order (env : DbEnv) (now : Instant) (order : list nat) (s : list RegTask * PeerMap)
    : list RegTask * PeerMap :=
  match order with
  | [] => s
  | i :: order =>
      run_order env now order
        (match s.1 !! i with
         | Some t => let '(t, pm) := reg_step env now t s.2 in (<[i := t]> s.1, pm)
         | None => s
         end)
  end.

Lemma run_order_steps env now order s : rtc reg_sched s (run_order env now order s).
Proof.
  revert s. induction order as [|i order IH]; intros [ts pm]; [done|]. cbn [run_order fst snd].
  destruct (ts !! i) as [t|] eqn:E; [|apply IH].
  destruct (reg_step env now t pm) as [t' pm'] eqn:E1. eapply rtc_l; [|apply IH].
  by apply (RS_step i t t' ts pm pm' env now).
Qed.

(** Two devices register a new id at the same moment, from two addresses: both are told that
    they have it.  In memory it is the second one's; the stored row has the first one's uuid
    with the second one's key and address.  After a restart neither device is let in. *)
Theorem race_locks_both_out (laws : InfoJsonLaws json) :
  let env := mkDbEnv true true "guid-1" in
  let rk1 := mkRegisterPk "device-1" "uuid-1" "pk-1" in
  let rk2 := mkRegisterPk "device-1" "uuid-2" "pk-2" in
  let start := ([RMap (WReg rk1 (SocketV4 1 1) "ip-1" true); RMap (WReg rk2 (SocketV4 2 2) "ip-2" true)],
                pm_new (mkDb [])) in
  exists r1 r2 l pm',
    rg_rk r1 = rk1 /\ rg_rk r2 = rk2 /\
    rtc reg_sched start ([RAnswered r1 RPK_OK; RAnswered r2 RPK_OK], pm') /\
    pm_map pm' !! "device-1" = Some l /\ uuid <$> pm_heap pm' !! l = Some "uuid-2" /\
    pm_db pm' = mkDb [mkRow "guid-1" "device-1" "uuid-1" "pk-2" None (info_to_json (mkPeerInfo "ip-2")) None] /\
    forall now, exists p,
      (let '(l', pm0) := pm_get_or env now "device-1" (pm_new (pm_db pm')) in pm_heap pm0 !! l' = Some p) /\
      register_check p rk1 "ip-1" = None /\ register_check p rk2 "ip-2" = None.
Proof.
  intros env rk1 rk2 start.
  pose proof (run_order_steps env 0 ([0; 0; 0; 1; 1] ++ replicate 6 0 ++ replicate 5 1)%nat start) as R.
  destruct (run_order _ _ _ start) as [ts' pm'] eqn:E.
  assert (H : exists l, let r1 := mkReg rk1 (SocketV4 1 1) "ip-1" true l in
    let r2 := mkReg rk2 (SocketV4 2 2) "ip-2" true l in
    ts' = [RAnswered r1 RPK_OK; RAnswered r2 RPK_OK] /\
    pm_map pm' !! "device-1" = Some l /\ uuid <$> pm_heap pm' !! l = Some "uuid-2" /\
    pm_db pm' = mkDb [mkRow "guid-1" "device-1" "uuid-1" "pk-2" None (info_to_json (mkPeerInfo "ip-2")) None]).
  { vm_compute in E. injection E as <- <-. eexists. split; [reflexivity|]. split_and!; vm_compute; reflexivity. }
  destruct H as (l & -> & Em & Eu & Ed). do 2 eexists. exists l, pm'. split; [|split; [|split; [exact R|]]]; [done..|].
  split; [done|]. split; [done|]. split; [done|]. rewrite Ed.
  intros now. eexists. split.
  - unfold pm_get_or, pm_get, pm_new. cbn -[lookup insert bool_decide].
    rewrite lookup_empty, bool_decide_true by done. cbn -[lookup insert]. apply lookup_insert_eq.
  - unfold peer_of_row. simpl row_info. rewrite info_json_roundtrip. split; reflexivity.
Qed.

(** The counter of an id is read and written under two locks: of registrations that overlap all
    get through, however many they are, where one after the other only three would. *)
Theorem overlapping_registrations_escape_the_limit :
  let env := mkDbEnv true true "guid-1" in
  let rk := mkRegisterPk "device-1" "uuid-1" "pk-1" in
  let w := WReg rk (SocketV4 1 1) "ip-1" true in
  exists r pm', rg_rk r = rk /\
    rtc reg_sched (replicate 5 (RMap w), pm_new (mkDb [])) (replicate 5 (RAnswered r RPK_OK), pm').
Proof.
  intros env rk w.
  pose proof (run_order_steps env 0
    (concat (replicate 9 [0; 1; 2; 3; 4]))%nat (replicate 5 (RMap w), pm_new (mkDb []))) as R.
  vm_compute in R. do 2 eexists. split; [|exact R]. done.
Qed.

End Race.

(** ** An example: a device has the id, and another one asks for it *)

#[local] Existing Instance example_json.

Definition ex_dbenv : DbEnv := mkDbEnv true true "guid-1".
Definition ex_first : Want := WReg (mkRegisterPk "device-1" "uuid-1" "pk-1") (SocketV4 1 1) "ip-1" true.
Definition ex_second : Want := WReg (mkRegisterPk "device-1" "uuid-2" "pk-2") (SocketV4 2 2) "ip-2" true.
Definition ex_registered : PeerMap := (run_reg 9 ex_dbenv 0 (RMap ex_first) (pm_new (mkDb []))).2.

(** A look-up and the other device's registration, the one in the middle of the other. *)
Definition ex_after : list RegTask * PeerMap :=
  run_order ex_dbenv 1 [1; 0; 1]%nat ([RMap (WLook "device-1"); RMap ex_second], ex_registered).

Lemma ex_registered_has : device_has "device-1" "uuid-1" ([], ex_registered).
Proof.
  assert (Em : pm_map ex_registered = {["device-1" := 1%positive]}) by by vm_compute.
  assert (Hwf : pm_wf ex_registered).
  { constructor; rewrite ?Em.
    - constructor; vm_compute; repeat constructor; try (intros [=]); set_solver.
    - intros i l [_ <-]%lookup_singleton_Some. by eexists.
    - by intros i j l [<- _]%lookup_singleton_Some [<- _]%lookup_singleton_Some.
    - intros i l p [<- <-]%lookup_singleton_Some Hp _. vm_compute in Hp. injection Hp as <-.
      eexists. split; [by left|]. done. }
  eapply (device_has_quiet "device-1" "uuid-1" ex_registered 1%positive); [exact Hwf|by vm_compute..|].
  intros r Hr _. vm_compute in Hr. apply list_elem_of_singleton in Hr as ->. done.
Qed.

Lemma owner_survives_races_witness :
  exists r a, ex_after.1 !! 1%nat = Some (RAnswered r a) /\ a = UUID_MISMATCH /\
  exists l p, pm_map ex_after.2 !! "device-1" = Some l /\ pm_heap ex_after.2 !! l = Some p /\ uuid p = "uuid-1".
Proof.
  destruct (owner_survives_races "device-1" "uuid-1" [] ex_registered ex_after.1 ex_after.2) as (H1 & _ & H3).
  - discriminate.
  - exact ex_registered_has.
  - eapply rtc_l; [apply (RS_arrive [] _ (WLook "device-1"))|].
    eapply rtc_l; [apply (RS_arrive [RMap (WLook "device-1")] _ ex_second)|].
    unfold ex_after. rewrite <- surjective_pairing. apply run_order_steps.
  - eexists _, _. split; [vm_compute; reflexivity|]. split; [|exact H1].
    eapply (H3 1%nat); [simpl; lia|vm_compute; reflexivity|reflexivity|discriminate].
Defined.
