(* ===== verification/HandlerLogic.v ===== *)
(** * Reasoning about handlers

    Two judgements on programs of [M], both closed under the monad's operations:
    [preserves P m] says that [m] keeps an invariant of the server, and
    [emits Q m] that everything it sends satisfies [Q].  The rules are collected in the
    hint database [handlers], so that a handler is checked by following its text. *)

From S2P Require Import Prelude RustStr Net External RelayRoutes RelayGeo RelaySelect.
From S2P Require Import RateLimit Guards PeerStore Jwt Rendezvous.

Local Open Scope Z_scope.

Create HintDb handlers.

Section HandlerLogic.
  Context {hbb : HbbCommon} {netlib : IpNetworkLib} {v4net : Ipv4NetworkLib}
    {trig : FloatTrig} {mm : MaxMind} {sodium : Sodium} {json : InfoJson} {jwt : JwtLib}
    {proto : RendezvousProto}.

(** The server after a run, its result and what it sent. *)
Definition result_of {A} (m : M A) (s : Server) : A := (m s).1.1.
Definition after {A} (m : M A) (s : Server) : Server := (m s).1.2.
Definition sent {A} (m : M A) (s : Server) : list Effect := (m s).2.

Lemma run_bind {A B} (m : M A) (f : A -> M B) s :
  result_of (m ≫= f) s = result_of (f (result_of m s)) (after m s) /\
  after (m ≫= f) s = after (f (result_of m s)) (after m s) /\
  sent (m ≫= f) s = sent m s ++ sent (f (result_of m s)) (after m s).
Proof.
  unfold result_of, after, sent, mbind, M_bind. destruct (m s) as [[a s1] e1]. simpl.
  by destruct (f a s1) as [[b s2] e2].
Qed.

Lemma result_bind {A B} (m : M A) (f : A -> M B) s :
  result_of (m ≫= f) s = result_of (f (result_of m s)) (after m s).
Proof. apply run_bind. Qed.
Lemma after_bind {A B} (m : M A) (f : A -> M B) s :
  after (m ≫= f) s = after (f (result_of m s)) (after m s).
Proof. apply run_bind. Qed.
Lemma sent_bind {A B} (m : M A) (f : A -> M B) s :
  sent (m ≫= f) s = sent m s ++ sent (f (result_of m s)) (after m s).
Proof. apply run_bind. Qed.

Lemma on_pm_run {A} (f : PeerMap -> A * PeerMap) s :
  result_of (on_pm f) s = (f (pm s)).1 /\ after (on_pm f) s = set_pm (f (pm s)).2 s.
Proof. unfold result_of, after, on_pm. by destruct (f (pm s)). Qed.

Definition preserves {A} (P : Server -> Prop) (m : M A) : Prop :=
  forall s, P s -> P (after m s).

Definition emits {A} (Q : Effect -> Prop) (m : M A) : Prop :=
  forall s, Forall Q (sent m s).

Lemma preserves_ret {A} P (a : A) : preserves P (mret a).
Proof. by intros s. Qed.

Lemma preserves_bind {A B} P (m : M A) (f : A -> M B) :
  preserves P m -> (forall a, preserves P (f a)) -> preserves P (m ≫= f).
Proof.
  intros Hm Hf s Hs. destruct (run_bind m f s) as (_ & -> & _). by apply Hf, Hm.
Qed.

Lemma preserves_gets {A} P (f : Server -> A) : preserves P (gets f).
Proof. by intros s. Qed.

Lemma preserves_emit P e : preserves P (emit e).
Proof. by intros s. Qed.

Lemma preserves_modify P f : (forall s, P s -> P (f s)) -> preserves P (modify f).
Proof. intros H s Hs. by apply H. Qed.

Lemma preserves_when P b m : preserves P m -> preserves P (when b m).
Proof. intros H. destruct b; [done|apply preserves_ret]. Qed.

Lemma preserves_on_pm {A} P (f : PeerMap -> A * PeerMap) :
  (forall s, P s -> P (set_pm (f (pm s)).2 s)) -> preserves P (on_pm f).
Proof.
  intros H s Hs. specialize (H s Hs). unfold after, on_pm. by destruct (f (pm s)).
Qed.

Lemma preserves_on_selector {A} P (f : Selector -> A * Selector) :
  (forall s, P s -> P (set_relays (f (relay_servers s)).2 (relay_servers0 s) s)) ->
  preserves P (on_selector f).
Proof.
  intros H s Hs. specialize (H s Hs). unfold after, on_selector. by destruct (f (relay_servers s)).
Qed.

Lemma preserves_if {A} P (b : bool) (m1 m2 : M A) :
  preserves P m1 -> preserves P m2 -> preserves P (if b then m1 else m2).
Proof. by destruct b. Qed.

Lemma emits_ret {A} Q (a : A) : emits Q (mret a).
Proof. intros s. constructor. Qed.

Lemma emits_bind {A B} Q (m : M A) (f : A -> M B) :
  emits Q m -> (forall a, emits Q (f a)) -> emits Q (m ≫= f).
Proof.
  intros Hm Hf s. destruct (run_bind m f s) as (_ & _ & ->). apply Forall_app.
  split; [apply Hm|apply Hf].
Qed.

Lemma emits_gets {A} Q (f : Server -> A) : emits Q (gets f).
Proof. intros s. constructor. Qed.

Lemma emits_modify Q f : emits Q (modify f).
Proof. intros s. constructor. Qed.

Lemma emits_emit (Q : Effect -> Prop) e : Q e -> emits Q (emit e).
Proof. intros H s. by constructor. Qed.

Lemma emits_when Q b m : emits Q m -> emits Q (when b m).
Proof. intros H. destruct b; [done|apply emits_ret]. Qed.

Lemma emits_on_pm {A} Q (f : PeerMap -> A * PeerMap) : emits Q (on_pm f).
Proof. intros s. unfold sent, on_pm. destruct (f (pm s)). constructor. Qed.

Lemma emits_on_selector {A} Q (f : Selector -> A * Selector) : emits Q (on_selector f).
Proof. intros s. unfold sent, on_selector. destruct (f (relay_servers s)). constructor. Qed.

Lemma emits_if {A} Q (b : bool) (m1 m2 : M A) :
  emits Q m1 -> emits Q m2 -> emits Q (if b then m1 else m2).
Proof. by destruct b. Qed.

End HandlerLogic.

#[export] Hint Resolve preserves_ret preserves_gets preserves_emit preserves_bind
  preserves_when preserves_if : handlers.
#[export] Hint Resolve emits_ret emits_gets emits_modify emits_bind emits_when emits_on_pm
  emits_on_selector emits_if : handlers.

(** Follow a handler's text: one rule per construct, a case split at each [match]. *)
Ltac handler_step :=
  match goal with
  | |- preserves _ (mret _) => apply preserves_ret
  | |- preserves _ (mbind _ _) => apply preserves_bind; [|intros ?]
  | |- preserves _ (gets _) => apply preserves_gets
  | |- preserves _ (emit _) => apply preserves_emit
  | |- preserves _ (when _ _) => apply preserves_when
  | |- emits _ (mret _) => apply emits_ret
  | |- emits _ (mbind _ _) => apply emits_bind; [|intros ?]
  | |- emits _ (gets _) => apply emits_gets
  | |- emits _ (modify _) => apply emits_modify
  | |- emits _ (when _ _) => apply emits_when
  | |- emits _ (on_pm _) => apply emits_on_pm
  | |- emits _ (on_selector _) => apply emits_on_selector
  | |- preserves _ (let '(_, _) := ?x in _) => destruct x
  | |- emits _ (let '(_, _) := ?x in _) => destruct x
  | |- preserves _ (match ?x with _ => _ end) => destruct x
  | |- emits _ (match ?x with _ => _ end) => destruct x
  end.
Ltac handler_auto := repeat (handler_step; eauto with handlers); eauto with handlers.
