(* ===== verification/RendezvousFacts.v ===== *)
(** * Properties of the rendezvous server's handlers

    Registration (an id belongs to the device that claimed it first, and cannot be
    registered faster than the limit), punch-hole requests (forwarded exactly when
    allowed), the online bitmap, the UDP dispatcher (answers only the sender) and the
    configuration update. *)

From S2P Require Import Prelude RustStr Net External RelayRoutes RelayGeo RelaySelect.
From S2P Require Import RateLimit Guards PeerStore Jwt Rendezvous HandlerLogic.

Local Open Scope Z_scope.

(** Whatever registration is asked for. *)
Abbreviation anything := (fun _ : RegisterPk => True).

Section RegisterFacts.
  Context {hbb : HbbCommon} {netlib : IpNetworkLib} {v4net : Ipv4NetworkLib}
    {trig : FloatTrig} {mm : MaxMind} {sodium : Sodium} {json : InfoJson} {jwt : JwtLib}
    {proto : RendezvousProto}.

(** ** The peer map only grows *)

(** Every filed cell stays filed and unchanged. *)
Definition keeps (m m' : PeerMap) : Prop :=
  forall id l p, pm_map m !! id = Some l -> pm_heap m !! l = Some p ->
    pm_map m' !! id = Some l /\ pm_heap m' !! l = Some p.

Lemma keeps_refl m : keeps m m.
Proof. by intros ?. Qed.

Lemma file_keeps m id p :
  pm_map m !! id = None ->
  let l := fresh (dom (pm_heap m)) in
  keeps m (mkPeerMap (<[id := l]> (pm_map m)) (<[l := p]> (pm_heap m)) (pm_db m)).
Proof.
  intros Hid l id' l' q Hm Hh. simpl. split.
  - rewrite lookup_insert_ne; [done|]. intros <-. congruence.
  - rewrite lookup_insert_ne; [done|]. intros <-. pose proof (alloc_fresh m). unfold l in *. congruence.
Qed.

Lemma pm_get_keeps env t id m : keeps m (pm_get env t id m).2.
Proof.
  unfold pm_get. destruct (pm_map m !! id) eqn:E; [apply keeps_refl|].
  destruct (db_get_peer _ _ _) as [[v|]|]; simpl; [|apply keeps_refl..].
  by apply (file_keeps m id (peer_of_row t v)).
Qed.

Lemma pm_get_or_keeps env t id m : keeps m (pm_get_or env t id m).2.
Proof.
  unfold pm_get_or. pose proof (pm_get_keeps env t id m) as Hk.
  pose proof (pm_get_none env t id m) as Hn.
  destruct (pm_get env t id m) as [[l|] m1]; simpl in *; [done|].
  destruct (Hn eq_refl) as [-> E]. rewrite E. by apply (file_keeps m id (peer_default t)).
Qed.

(** ** What a registration does *)

Inductive register_outcome (env : Env) (rk : RegisterPk) (addr : SocketAddr) (ws : bool)
    (m : PeerMap) : option RegisterPkResult -> PeerMap -> Prop :=
| RO_silent : (rk_uuid rk = "" \/ rk_pk rk = "") -> register_outcome env rk addr ws m None m
| RO_bad_id : ~ (6 <= String.length (rk_id rk) <= MAX_PEER_ID_LEN)%nat ->
    register_outcome env rk addr ws m (Some UUID_MISMATCH) m
| RO_blocked : register_outcome env rk addr ws m (Some TOO_FREQUENT) m
| RO_refused l p m' res :
    rk_uuid rk <> "" -> pm_get_or (db_env env) (now env) (rk_id rk) m = (l, m') ->
    pm_heap m' !! l = Some p ->
    match register_check p rk (show_ip (socket_ip addr)) with
    | None => res = UUID_MISMATCH
    | Some _ => bump 6 2 (now env) (reg_pk p) = None /\ res = TOO_FREQUENT
    end -> register_outcome env rk addr ws m (Some res) m'
| RO_ok l p m1 c changed ip_changed :
    rk_uuid rk <> "" -> rk_pk rk <> "" ->
    pm_get_or (db_env env) (now env) (rk_id rk) m = (l, m1) ->
    pm_heap m1 !! l = Some p ->
    register_check p rk (show_ip (socket_ip addr)) = Some (changed, ip_changed) ->
    bump 6 2 (now env) (reg_pk p) = Some c ->
    let m2 := write l (set_reg_pk c) m1 in
    register_outcome env rk addr ws m (Some RPK_OK)
      (if changed || ws
       then (pm_update_pk (db_env env) (now env) (rk_id rk) l addr (rk_uuid rk) (rk_pk rk)
               (show_ip (socket_ip addr)) m2).2
       else m2).

(** The end of the handler, once the cell is known and the registration accepted. *)
Lemma register_tail_pm env rk addr l c changed ip_changed ws s :
  let id := rk_id rk in
  let ip := show_ip (socket_ip addr) in
  let m : M (option RegisterPkResult) :=
    on_pm (fun q => (tt, write l (set_reg_pk c) q));;
    when ip_changed
      (modify (fun s => set_guards (ip_blocker s)
         (record_ip_change (now env) id ip (ip_changes s)) (punch_reqs s) s));;
    when (changed || ws)
      (_ ← on_pm (pm_update_pk (db_env env) (now env) id l addr (rk_uuid rk) (rk_pk rk) ip); mret tt);;
    mret (Some RPK_OK) in
  result_of m s = Some RPK_OK /\
  pm (after m s) =
    let m2 := write l (set_reg_pk c) (pm s) in
    if changed || ws
    then (pm_update_pk (db_env env) (now env) id l addr (rk_uuid rk) (rk_pk rk) ip m2).2 else m2.
Proof.
  unfold result_of, after, mbind, M_bind, on_pm, when, modify, mret, M_ret. cbn.
  destruct ip_changed; cbn; destruct (changed || ws); cbn; try done;
    by destruct (pm_update_pk _ _ _ _ _ _ _ _ _).
Qed.

Lemma handle_register_pk_outcome env rk addr ws s :
  pm_wf (pm s) ->
  register_outcome env rk addr ws (pm s)
    (result_of (handle_register_pk env rk addr ws) s)
    (pm (after (handle_register_pk env rk addr ws) s)).
Proof.
  intros Hwf. unfold handle_register_pk.
  destruct (str_is_empty (rk_uuid rk)) eqn:Eu; cbn [orb].
  { apply RO_silent. left. by apply str_is_empty_true. }
  assert (Hu : rk_uuid rk <> "") by (intros E; rewrite E in Eu; done).
  destruct (str_is_empty (rk_pk rk)) eqn:Ek; cbn [orb].
  { apply RO_silent. right. by apply str_is_empty_true. }
  assert (Hk : rk_pk rk <> "") by (intros E; rewrite E in Ek; done).
  destruct (_ || _)%bool eqn:El.
  { apply RO_bad_id. apply orb_true_iff in El as [El|El]; apply Nat.ltb_lt in El; lia. }
  clear El. set (ip := show_ip (socket_ip addr)).
  rewrite result_bind, after_bind.
  assert (Hs1 : pm (after (ip_allowed env ip (rk_id rk)) s) = pm s).
  { unfold after, ip_allowed. by destruct (check_ip_blocker _ _ _ _). }
  destruct (result_of (ip_allowed env ip (rk_id rk)) s); cbn [negb].
  2: { change (register_outcome env rk addr ws (pm s) (Some TOO_FREQUENT)
         (pm (after (ip_allowed env ip (rk_id rk)) s))). rewrite Hs1. apply RO_blocked. }
  revert Hs1. generalize (after (ip_allowed env ip (rk_id rk)) s). intros s1 Hs1.
  rewrite result_bind, after_bind.
  destruct (on_pm_run (pm_get_or (db_env env) (now env) (rk_id rk)) s1) as [E1 E2].
  rewrite E1, E2, Hs1. clear E1 E2.
  pose proof (pm_get_or_wf (db_env env) (now env) (rk_id rk) (pm s) Hwf) as Hwf1.
  pose proof (pm_get_or_filed (db_env env) (now env) (rk_id rk) (pm s)) as Hf.
  destruct (pm_get_or (db_env env) (now env) (rk_id rk) (pm s)) as [l m1] eqn:Eg.
  cbn [fst snd] in *. destruct (wf_cell _ Hwf1 _ _ Hf) as [p Hp].
  rewrite result_bind, after_bind.
  assert (E1 : result_of (with_peer l (fun p => p)) (set_pm m1 s1) = Some p).
  { unfold result_of, with_peer, gets. cbn. by rewrite Hp. }
  assert (E0 : after (with_peer l (fun p => p)) (set_pm m1 s1) = set_pm m1 s1) by done.
  rewrite E1, E0. cbv zeta. change (default (peer_default (now env)) (Some p)) with p.
  destruct (register_check p rk ip) as [[changed ipc]|] eqn:Ec.
  - destruct (bump 6 2 (now env) (reg_pk p)) as [c|] eqn:Eb.
    + destruct (register_tail_pm env rk addr l c changed ipc ws (set_pm m1 s1)) as [E2 E3].
      fold ip in E2, E3. cbv zeta in E2, E3. rewrite E2, E3.
      by eapply (RO_ok _ _ _ _ _ l p m1 c changed ipc).
    + eapply RO_refused; [done|exact Eg|exact Hp|]. fold ip. by rewrite Ec.
  - eapply RO_refused; [done|exact Eg|exact Hp|]. fold ip. by rewrite Ec.
Qed.

(** ** Ownership of an id *)

Definition cell (m : PeerMap) (id : string) : option Peer :=
  l ← pm_map m !! id; pm_heap m !! l.

(** The id is held by the device with this uuid. *)
Definition bound (m : PeerMap) (id u : string) : Prop := uuid <$> cell m id = Some u.

Lemma cell_Some m id p :
  cell m id = Some p <-> exists l, pm_map m !! id = Some l /\ pm_heap m !! l = Some p.
Proof.
  unfold cell. destruct (pm_map m !! id) as [l|] eqn:E; simpl; split.
  - intros H. by exists l.
  - by intros (l' & [= <-] & H).
  - done.
  - by intros (l' & ? & _).
Qed.

Lemma keeps_cell m m' id p : keeps m m' -> cell m id = Some p -> cell m' id = Some p.
Proof.
  intros Hk (l & Hm & Hh)%cell_Some. apply cell_Some. exists l. by apply (Hk _ _ p).
Qed.

(** Writing the cell filed under one id changes that cell and no other. *)
Lemma put_cell_cell m db id l p q :
  pm_wf m -> pm_map m !! id = Some l -> pm_heap m !! l = Some p ->
  cell (put_cell l q db m) id = Some q /\
  forall id', id' <> id -> cell (put_cell l q db m) id' = cell m id'.
Proof.
  intros Hwf Hid Hp. split.
  - apply cell_Some. exists l. split; [done|]. apply lookup_insert_eq.
  - intros id' Hne. unfold cell. simpl. destruct (pm_map m !! id') as [l'|] eqn:E; [|done].
    simpl. rewrite lookup_insert_ne; [done|]. intros <-. apply Hne. by eapply (wf_own _ Hwf).
Qed.

Lemma write_put_cell l f m p :
  pm_heap m !! l = Some p -> write l f m = put_cell l (f p) (pm_db m) m.
Proof. intros Hp. unfold write, put_cell. by rewrite (alter_known _ _ _ _ Hp). Qed.

(** What a registration leaves in the cells. *)
Lemma pm_update_pk_cell env t id l addr u k ip m p :
  pm_wf m -> pm_map m !! id = Some l -> pm_heap m !! l = Some p ->
  let m' := (pm_update_pk env t id l addr u k ip m).2 in
  (exists g, cell m' id = Some (set_guid g (registered addr u k ip t p))) /\
  forall id', id' <> id -> cell m' id' = cell m id'.
Proof.
  intros Hwf Hid Hp. rewrite (pm_update_pk_known _ _ _ _ _ _ _ _ _ _ Hp). cbv zeta.
  destruct (str_is_empty (guid p)).
  - destruct (db_insert_peer _ _ _ _ _ _ _) as [[g db]|]; cbn [snd].
    + destruct (put_cell_cell m db id l p (set_guid g (registered addr u k ip t p)) Hwf Hid Hp). eauto.
    + destruct (put_cell_cell m (pm_db m) id l p (registered addr u k ip t p) Hwf Hid Hp) as [E ?].
      split; [|done]. exists (guid p). by rewrite E.
  - destruct (db_update_pk _ _ _ _ _ _) as [db|]; cbn [snd];
    [destruct (put_cell_cell m db id l p (registered addr u k ip t p) Hwf Hid Hp) as [E ?]
    |destruct (put_cell_cell m (pm_db m) id l p (registered addr u k ip t p) Hwf Hid Hp) as [E ?]];
      (split; [|done]; exists (guid p); by rewrite E).
Qed.

(** A registration passes the check only with the uuid on record. *)
Lemma register_check_uuid p rk ip r :
  register_check p rk ip = Some r -> uuid p = "" \/ uuid p = rk_uuid rk.
Proof.
  unfold register_check. destruct (str_is_empty (uuid p)) eqn:E.
  - intros _. left. by apply str_is_empty_true.
  - case_bool_decide; [by right|done].
Qed.

(** Nothing changed: the record has the uuid and the key already. *)
Lemma register_check_same p rk ip ipc :
  register_check p rk ip = Some (false, ipc) -> uuid p = rk_uuid rk /\ pk p = rk_pk rk.
Proof.
  unfold register_check. destruct (str_is_empty (uuid p)); [done|].
  case_bool_decide as Eu; [|done]. destruct (_ && _); [done|]. case_bool_decide as Ek; [done|].
  cbn. by intros [= ? _].
Qed.

Lemma stored_uuid m id l p :
  pm_wf m -> pm_map m !! id = Some l -> pm_heap m !! l = Some p -> guid p <> "" -> uuid p <> "".
Proof.
  intros Hwf Hid Hp Hg. destruct (wf_row _ Hwf _ _ _ Hid Hp Hg) as (r & Hr & _ & _ & <-).
  pose proof (rows_named _ (wf_db _ Hwf)) as Hn. rewrite Forall_forall in Hn. by apply Hn.
Qed.

(** The accepted registration, step by step. *)
Lemma register_ok_cells env rk addr ws m l p m1 c changed ipc :
  pm_wf m -> next_guid (db_env env) <> "" -> rk_uuid rk <> "" ->
  pm_get_or (db_env env) (now env) (rk_id rk) m = (l, m1) -> pm_heap m1 !! l = Some p ->
  register_check p rk (show_ip (socket_ip addr)) = Some (changed, ipc) ->
  let m2 := write l (set_reg_pk c) m1 in
  let m' := if changed || ws
            then (pm_update_pk (db_env env) (now env) (rk_id rk) l addr (rk_uuid rk) (rk_pk rk)
                    (show_ip (socket_ip addr)) m2).2
            else m2 in
  pm_wf m' /\
  (exists q, cell m' (rk_id rk) = Some q /\ uuid q = rk_uuid rk /\ reg_pk q = c /\ pk q = rk_pk rk) /\
  forall id', id' <> rk_id rk -> cell m' id' = cell m1 id'.
Proof.
  intros Hwf Hg Hu Eg Hp Hc. cbv zeta.
  assert (Hwf1 : pm_wf m1). { pose proof (pm_get_or_wf (db_env env) (now env) (rk_id rk) m Hwf) as H.
    by rewrite Eg in H. }
  assert (Hid : pm_map m1 !! rk_id rk = Some l).
  { pose proof (pm_get_or_filed (db_env env) (now env) (rk_id rk) m) as H. by rewrite Eg in H. }
  assert (Hwf2 : pm_wf (write l (set_reg_pk c) m1)) by by apply write_wf.
  rewrite (write_put_cell _ _ _ _ Hp) in *.
  destruct (put_cell_cell m1 (pm_db m1) (rk_id rk) l p (set_reg_pk c p) Hwf1 Hid Hp) as [E1 E2].
  assert (Hp2 : pm_heap (put_cell l (set_reg_pk c p) (pm_db m1) m1) !! l = Some (set_reg_pk c p))
    by apply lookup_insert_eq.
  destruct (changed || ws) eqn:Ech.
  - destruct (pm_update_pk_cell (db_env env) (now env) (rk_id rk) l addr (rk_uuid rk) (rk_pk rk)
      (show_ip (socket_ip addr)) _ _ Hwf2 Hid Hp2) as [[g E3] E4].
    split; [|split].
    + eapply pm_update_pk_wf; [done|exact Hid|exact Hp2|done|done|].
      intros Hgp. destruct (register_check_uuid _ _ _ _ Hc) as [E|E]; [|done].
      exfalso. by eapply (stored_uuid m1).
    + eexists. by split.
    + intros id' Hne. rewrite E4 by done. by apply E2.
  - split; [done|]. split; [|done]. eexists. split; [exact E1|]. apply orb_false_iff in Ech as [-> _].
    apply register_check_same in Hc as [Eu Ek]. by split_and!.
Qed.

Lemma register_outcome_wf env rk addr ws m res m' :
  next_guid (db_env env) <> "" -> pm_wf m -> register_outcome env rk addr ws m res m' -> pm_wf m'.
Proof.
  intros Hg Hwf H. destruct H as [| | |l p m' res Hu Eg|l p m1 c changed ipc Hu Hk Eg Hp Hc Hb m2]; try done.
  - pose proof (pm_get_or_wf (db_env env) (now env) (rk_id rk) m Hwf) as Hm. by rewrite Eg in Hm.
  - by eapply (register_ok_cells env rk addr ws m l p m1 c changed ipc).
Qed.

Lemma register_outcome_bound env rk addr ws m res m' id u :
  next_guid (db_env env) <> "" -> pm_wf m -> u <> "" -> bound m id u ->
  register_outcome env rk addr ws m res m' ->
  bound m' id u /\ (res = Some RPK_OK -> rk_id rk = id -> rk_uuid rk = u).
Proof.
  intros Hg Hwf Hu Hb H.
  assert (Hk : forall l m1, pm_get_or (db_env env) (now env) (rk_id rk) m = (l, m1) -> bound m1 id u).
  { intros l m1 E. pose proof (pm_get_or_keeps (db_env env) (now env) (rk_id rk) m) as Hk.
    rewrite E in Hk. cbn [snd] in Hk. unfold bound in *. apply fmap_Some in Hb as (p & Hp & ->).
    by rewrite (keeps_cell _ _ _ _ Hk Hp). }
  destruct H as [| | |l p m' res Hru Eg Hp Hres|l p m1 c changed ipc Hru Hrk Eg Hp Hc Hbump m2]; try done.
  - split; [by eapply Hk|]. intros [= ->]. case_match; [by destruct Hres|done].
  - destruct (register_ok_cells env rk addr ws m l p m1 c changed ipc)
      as (_ & (q & Hq & Euq & _) & Hother); try done.
    specialize (Hk _ _ Eg).
    destruct (decide (rk_id rk = id)) as [<-|Hne].
    + assert (uuid p = u) as Eu.
      { unfold bound in Hk. apply fmap_Some in Hk as (p' & Hp' & ->).
        apply cell_Some in Hp' as (l' & Hl' & Hp').
        pose proof (pm_get_or_filed (db_env env) (now env) (rk_id rk) m) as Hf.
        rewrite Eg in Hf. simpl in Hf. congruence. }
      destruct (register_check_uuid _ _ _ _ Hc) as [E|E]; [congruence|].
      split; [|congruence]. unfold bound, m2. rewrite Hq. simpl. congruence.
    + split; [|done]. unfold bound, m2 in *. by rewrite Hother.
Qed.

(** ** Invariants of the peer map under the dispatchers *)

(** What the handlers do to the peer map, with a database that is [good]: look a peer up,
    refresh its address, and carry out a registration that was [asked] for. *)
Record pm_invariant (good : DbEnv -> Prop) (asked : RegisterPk -> Prop) (Q : PeerMap -> Prop)
    : Prop := {
  inv_wf : forall m, Q m -> pm_wf m;
  inv_get : forall env t id m, good env -> Q m -> Q (pm_get env t id m).2;
  inv_seen : forall l addr t m, Q m -> Q (write l (seen_at addr t) m);
  inv_register : forall env rk addr ws m res m', good (db_env env) -> asked rk -> Q m ->
    register_outcome env rk addr ws m res m' -> Q m';
}.

(** The least that is asked: new rows have a name. *)
Definition names_rows (env : DbEnv) : Prop := next_guid env <> "".

Section Dispatch.
  Context (good : DbEnv -> Prop) (asked : RegisterPk -> Prop) (Q : PeerMap -> Prop)
    (HQ : pm_invariant good asked Q).

Abbreviation P := (fun s : Server => Q (pm s)).

(** A primitive that leaves the peer map alone. *)
Lemma preserves_same_pm {A} (m : M A) : (forall s, pm (after m s) = pm s) -> preserves P m.
Proof. intros H s Hs. cbv beta. by rewrite H. Qed.

Lemma preserves_push addr msg : preserves P (push_to_ws_peer addr msg).
Proof.
  apply preserves_same_pm. intros s. unfold after, push_to_ws_peer. by repeat case_match.
Qed.

Lemma preserves_take addr : preserves P (take_tcp_punch addr).
Proof. by apply preserves_same_pm. Qed.

Lemma preserves_modify_pm f : (forall s, pm (f s) = pm s) -> preserves P (modify f).
Proof. intros H. by apply preserves_same_pm. Qed.

Lemma preserves_sink_send k msg : preserves P (sink_send k msg).
Proof. unfold sink_send. handler_auto. Qed.

Lemma preserves_send_to_sink k msg : preserves P (send_to_sink k msg).
Proof. unfold send_to_sink. pose proof preserves_sink_send. handler_auto. Qed.

Lemma preserves_send_to_tcp msg addr : preserves P (send_to_tcp msg addr).
Proof.
  unfold send_to_tcp. pose proof preserves_push. pose proof preserves_take.
  pose proof preserves_send_to_sink. handler_auto.
Qed.

Lemma preserves_pm_get env t id : good env -> preserves P (on_pm (pm_get env t id)).
Proof. intros Hg. apply preserves_on_pm. intros s Hs. by apply (inv_get _ _ _ HQ). Qed.

Lemma preserves_seen l addr t : preserves P (on_pm (fun q => (tt, write l (seen_at addr t) q))).
Proof. apply preserves_on_pm. intros s Hs. by apply (inv_seen _ _ _ HQ). Qed.

Lemma preserves_register env rk addr ws :
  good (db_env env) -> asked rk -> preserves P (handle_register_pk env rk addr ws).
Proof.
  intros Hg Ha s Hs. eapply (inv_register _ _ _ HQ); [done|exact Ha|exact Hs|].
  by apply handle_register_pk_outcome, (inv_wf _ _ _ HQ).
Qed.

Lemma preserves_get_pk env ver id : good (db_env env) -> preserves P (get_pk env ver id).
Proof. intros Hg. unfold get_pk, with_peer. pose proof preserves_pm_get. handler_auto. Qed.

Lemma preserves_update_addr env id addr : preserves P (update_addr env id addr).
Proof. unfold update_addr. pose proof preserves_seen. handler_auto. Qed.

Lemma preserves_get_relay env pa pb : preserves P (get_relay_server env pa pb).
Proof. unfold get_relay_server. handler_auto. by apply preserves_on_selector. Qed.

Lemma preserves_punch_hole env addr ph key ws :
  good (db_env env) -> preserves P (handle_punch_hole_request env addr ph key ws).
Proof.
  intros Hg.
  unfold handle_punch_hole_request, punch_message, is_lan, with_peer.
  pose proof preserves_pm_get. pose proof preserves_get_relay. handler_auto.
  by apply preserves_modify_pm.
Qed.

Lemma preserves_tcp_punch_hole env addr ph key ws :
  good (db_env env) -> preserves P (handle_tcp_punch_hole_request env addr ph key ws).
Proof.
  intros Hg.
  unfold handle_tcp_punch_hole_request. pose proof preserves_punch_hole.
  pose proof preserves_push. pose proof preserves_send_to_tcp. handler_auto.
Qed.

Lemma preserves_relay_response env rr addr :
  good (db_env env) -> preserves P (handle_relay_response env rr addr).
Proof.
  intros Hg.
  unfold handle_relay_response, is_lan. pose proof preserves_get_pk. pose proof preserves_get_relay.
  pose proof preserves_send_to_tcp. handler_auto.
Qed.

Lemma preserves_leave_route addr sink ws_conn : preserves P (leave_route_back addr sink ws_conn).
Proof.
  unfold leave_route_back, register_ws_peer. handler_auto; by apply preserves_modify_pm.
Qed.

Lemma preserves_register_if_ws addr ws_conn : preserves P (register_if_ws addr ws_conn).
Proof.
  unfold register_if_ws, register_ws_peer. handler_auto. by apply preserves_modify_pm.
Qed.

Lemma preserves_handle_udp env valid bytes addr :
  good (db_env env) -> (forall rk, parse_from_bytes bytes = Some (MRegisterPk rk) -> asked rk) ->
  preserves P (handle_udp env valid bytes addr).
Proof.
  intros Hg Ha. unfold handle_udp, udp_send. pose proof preserves_update_addr.
  pose proof (preserves_register env) as Hr. destruct (parse_from_bytes bytes); handler_auto.
  apply preserves_modify_pm. intros s. by case_match.
Qed.

Lemma preserves_handle_tcp env bytes sink addr key ws ws_conn :
  good (db_env env) -> (forall rk, parse_from_bytes bytes = Some (MRegisterPk rk) -> asked rk) ->
  preserves P (handle_tcp env bytes sink addr key ws ws_conn).
Proof.
  intros Hg Ha. unfold handle_tcp, handle_hole_sent, handle_local_addr, forward_relay_request.
  pose proof preserves_update_addr. pose proof (preserves_register env).
  pose proof preserves_leave_route. pose proof preserves_tcp_punch_hole.
  pose proof preserves_relay_response. pose proof preserves_send_to_tcp.
  pose proof preserves_get_pk. pose proof preserves_push. pose proof preserves_send_to_sink.
  pose proof preserves_register_if_ws. destruct (parse_from_bytes bytes); handler_auto.
Qed.

End Dispatch.

Lemma write_field {A} (field : Peer -> A) l f m id :
  (forall p, field (f p) = field p) -> field <$> cell (write l f m) id = field <$> cell m id.
Proof.
  intros Hf. unfold cell. simpl. destruct (pm_map m !! id) as [l'|]; [|done]. simpl.
  destruct (decide (l' = l)) as [->|Hne].
  - rewrite lookup_alter_eq. destruct (pm_heap m !! l); simpl; [by rewrite Hf|done].
  - by rewrite lookup_alter_ne.
Qed.

Lemma pm_wf_invariant : pm_invariant names_rows anything pm_wf.
Proof.
  constructor.
  - done.
  - intros. by apply pm_get_wf.
  - intros. by apply write_wf.
  - intros. by eapply register_outcome_wf.
Qed.

Lemma bound_invariant id u : u <> "" -> pm_invariant names_rows anything (fun m => pm_wf m /\ bound m id u).
Proof.
  intros Hu. constructor.
  - by intros m [? _].
  - intros env t id' m _ [Hwf Hb]. split; [by apply pm_get_wf|].
    unfold bound in *. apply fmap_Some in Hb as (p & Hp & ->).
    by rewrite (keeps_cell _ _ _ _ (pm_get_keeps env t id' m) Hp).
  - intros l addr t m [Hwf Hb]. split; [by apply write_wf|]. unfold bound in *. by rewrite write_field.
  - intros env rk addr ws m res m' Hg _ [Hwf Hb] Ho.
    split; [by eapply register_outcome_wf|]. by eapply register_outcome_bound.
Qed.

End RegisterFacts.

(** ** Properties *)

Section RendezvousProperties.
  Context {hbb : HbbCommon} {netlib : IpNetworkLib} {v4net : Ipv4NetworkLib}
    {trig : FloatTrig} {mm : MaxMind} {sodium : Sodium} {json : InfoJson} {jwt : JwtLib}
    {proto : RendezvousProto}.

(** A message handed to one of the two dispatchers. *)
Inductive Input :=
| InUdp (valid : string -> bool) (bytes : Bytes) (addr : SocketAddr)
| InTcp (bytes : Bytes) (sink : option Sink) (addr : SocketAddr) (key : string) (ws : bool)
    (ws_conn : option WsPeer).

Definition run_input (s : Server) (ei : Env * Input) : Server :=
  match ei.2 with
  | InUdp valid bytes addr => after (handle_udp ei.1 valid bytes addr) s
  | InTcp bytes sink addr key ws ws_conn => after (handle_tcp ei.1 bytes sink addr key ws ws_conn) s
  end.

(** The registration a message asks for. *)
Definition requested (i : Input) : option RegisterPk :=
  match parse_from_bytes (match i with InUdp _ bytes _ => bytes | InTcp bytes _ _ _ _ _ => bytes end) with
  | Some (MRegisterPk rk) => Some rk
  | _ => None
  end.

Lemma input_preserves good asked Q ei s :
  pm_invariant good asked Q -> good (db_env ei.1) ->
  (forall rk, requested ei.2 = Some rk -> asked rk) -> Q (pm s) -> Q (pm (run_input s ei)).
Proof.
  destruct ei as [env i]. cbn [fst snd]. intros HQ Hg Ha Hs. unfold requested in Ha. destruct i.
  - apply (preserves_handle_udp good asked Q HQ env valid bytes addr Hg); [|done].
    intros rk E. apply Ha. by rewrite E.
  - apply (preserves_handle_tcp good asked Q HQ env bytes sink addr key ws ws_conn Hg); [|done].
    intros rk E. apply Ha. by rewrite E.
Qed.

Lemma inputs_preserve good Q (l : list (Env * Input)) s :
  pm_invariant good anything Q -> Forall (fun ei => good (db_env ei.1)) l -> Q (pm s) ->
  Q (pm (foldl run_input s l)).
Proof.
  intros HQ Hl. revert s. induction Hl as [|ei l Hg Hl IH]; intros s Hs; [done|].
  apply IH. by apply (input_preserves good anything).
Qed.

(** C1: an id belongs to the device that registered it.  On a server started on a
    consistent database, once an id is held with a uuid, no sequence of messages, over
    UDP, TCP or websocket, from whatever address and with whatever content, makes it
    held with another, and no registration of that id with another uuid is ever
    accepted. *)
Theorem id_belongs_to_its_device (db : Database) (before later : list (Env * Input))
    (s0 : Server) id u :
  db_wf db -> pm s0 = pm_new db ->
  Forall (fun ei => next_guid (db_env ei.1) <> "") (before ++ later) ->
  u <> "" -> bound (pm (foldl run_input s0 before)) id u ->
  let s := foldl run_input s0 (before ++ later) in
  bound (pm s) id u /\
  forall env rk addr ws, next_guid (db_env env) <> "" -> rk_id rk = id -> rk_uuid rk <> u ->
    result_of (handle_register_pk env rk addr ws) s <> Some RPK_OK.
Proof.
  intros Hdb H0 [Hb Hl]%Forall_app Hu Hbound s.
  assert (Hwf0 : pm_wf (pm (foldl run_input s0 before))).
  { apply (inputs_preserve names_rows pm_wf); [apply pm_wf_invariant|done|]. rewrite H0. by apply pm_new_wf. }
  destruct (inputs_preserve names_rows (fun m => pm_wf m /\ bound m id u) later (foldl run_input s0 before))
    as [Hwf Hs]; [by apply bound_invariant|done|done|].
  rewrite <- foldl_app in Hwf, Hs. fold s in Hwf, Hs. split; [done|].
  intros env rk addr ws Hg Hid Hne Hok.
  pose proof (handle_register_pk_outcome env rk addr ws s Hwf) as Ho. rewrite Hok in Ho.
  destruct (register_outcome_bound _ _ _ _ _ _ _ id u Hg Hwf Hu Hs Ho) as [_ H]. auto.
Qed.

(** *** The rate of registrations *)

(** A call of [handle_register_pk]. *)
Record Registration := mkRegistration {
  reg_env : Env; reg_rk : RegisterPk; reg_addr : SocketAddr; reg_ws : bool }.

Definition run_registration (r : Registration) : M (option RegisterPkResult) :=
  handle_register_pk (reg_env r) (reg_rk r) (reg_addr r) (reg_ws r).

(** What the server does: a registration, or anything else. *)
Inductive Doing :=
| DReg (r : Registration)
| DOther (env : Env) (i : Input).

Definition doing_env (d : Doing) : Env := match d with DReg r => reg_env r | DOther env _ => env end.

(** What is not counted as a registration of the id is none. *)
Definition counted_right (id : string) (d : Doing) : Prop :=
  match d with
  | DReg _ => True
  | DOther _ i => forall rk, requested i = Some rk -> rk_id rk <> id
  end.

(** How many registrations of [id] are accepted. *)
Fixpoint accepted_for (id : string) (l : list Doing) (s : Server) : nat :=
  match l with
  | [] => 0
  | DReg r :: l =>
      (if bool_decide (rk_id (reg_rk r) = id /\ result_of (run_registration r) s = Some RPK_OK)
       then 1 else 0) + accepted_for id l (after (run_registration r) s)
  | DOther env i :: l => accepted_for id l (run_input s (env, i))
  end.

Definition reg_time (id : string) (d : Doing) : option Instant :=
  match d with
  | DReg r => if bool_decide (rk_id (reg_rk r) = id) then Some (now (reg_env r)) else None
  | DOther _ _ => None
  end.

Definition reg_times (id : string) (l : list Doing) : list Instant := omap (reg_time id) l.

Definition count_ok (p : Peer) : Prop := 0 <= (reg_pk p).1 <= 3.

Definition counts_ok (m : PeerMap) : Prop :=
  pm_wf m /\ forall id p, cell m id = Some p -> count_ok p.

(** A peer fresh from the database or just created has registered nothing yet. *)
Definition counter_of (t : Instant) (m : PeerMap) (id : string) : Counter :=
  match cell m id with Some p => reg_pk p | None => (0, get_expired_time t) end.

Lemma file_cell m id p :
  pm_wf m -> pm_map m !! id = None ->
  let l := fresh (dom (pm_heap m)) in
  let m' := mkPeerMap (<[id := l]> (pm_map m)) (<[l := p]> (pm_heap m)) (pm_db m) in
  cell m' id = Some p /\ forall id', id' <> id -> cell m' id' = cell m id'.
Proof.
  intros Hwf Hid l m'. split.
  - unfold cell. simpl. rewrite lookup_insert_eq. simpl. by rewrite lookup_insert_eq.
  - intros id' Hne. unfold cell. simpl. rewrite lookup_insert_ne by done.
    destruct (pm_map m !! id') as [l'|] eqn:E; [|done]. simpl.
    rewrite lookup_insert_ne; [done|]. intros <-. destruct (wf_cell _ Hwf _ _ E).
    pose proof (alloc_fresh m). unfold l in *. congruence.
Qed.

(** Looking a peer up creates at most that peer's cell. *)
Definition fetched (t : Instant) (id : string) (m m' : PeerMap) : Prop :=
  (cell m' id = cell m id \/
   exists p, cell m id = None /\ cell m' id = Some p /\ reg_pk p = (0, get_expired_time t)) /\
  forall id', id' <> id -> cell m' id' = cell m id'.

Lemma cell_unfiled m id : pm_map m !! id = None -> cell m id = None.
Proof. intros E. unfold cell. by rewrite E. Qed.

Lemma file_fetched t m id p :
  pm_wf m -> pm_map m !! id = None -> reg_pk p = (0, get_expired_time t) ->
  let l := fresh (dom (pm_heap m)) in
  fetched t id m (mkPeerMap (<[id := l]> (pm_map m)) (<[l := p]> (pm_heap m)) (pm_db m)).
Proof.
  intros Hwf Hid Hp l. destruct (file_cell m id p Hwf Hid) as [E1 E2].
  split; [right|done]. exists p. split; [by apply cell_unfiled|done].
Qed.

Lemma pm_get_fetched env t id m : pm_wf m -> fetched t id m (pm_get env t id m).2.
Proof.
  intros Hwf. unfold pm_get. destruct (pm_map m !! id) eqn:E; [split; [by left|done]|].
  destruct (db_get_peer _ _ _) as [[v|]|]; [|split; [by left|done]..].
  by apply (file_fetched t m id (peer_of_row t v)).
Qed.

Lemma pm_get_or_fetched env t id m : pm_wf m -> fetched t id m (pm_get_or env t id m).2.
Proof.
  intros Hwf. unfold pm_get_or. pose proof (pm_get_fetched env t id m Hwf) as Hf.
  pose proof (pm_get_none env t id m) as Hn.
  destruct (pm_get env t id m) as [[l|] m1]; cbn [fst snd] in *; [done|].
  destruct (Hn eq_refl) as [-> E]. rewrite E. by apply (file_fetched t m id (peer_default t)).
Qed.

Lemma fetched_counter t id m m' :
  fetched t id m m' -> counter_of t m' id = counter_of t m id.
Proof. intros [[E|(p & E1 & E2 & E3)] _]; unfold counter_of; [by rewrite E|by rewrite E1, E2]. Qed.

(** A registration moves the counter of its own id, by [bump], exactly when it is
    accepted, and no other. *)
Lemma register_counter env rk addr ws m res m' :
  next_guid (db_env env) <> "" -> pm_wf m -> register_outcome env rk addr ws m res m' ->
  let c := counter_of (now env) m (rk_id rk) in
  (if bool_decide (res = Some RPK_OK)
   then exists q, cell m' (rk_id rk) = Some q /\ bump 6 2 (now env) c = Some (reg_pk q)
   else cell m' (rk_id rk) = cell m (rk_id rk) \/
        exists q, cell m' (rk_id rk) = Some q /\ reg_pk q = c) /\
  forall id', id' <> rk_id rk -> reg_pk <$> cell m' id' = reg_pk <$> cell m id'.
Proof.
  intros Hg Hwf H. cbv zeta.
  assert (Hfet : forall l m1, pm_get_or (db_env env) (now env) (rk_id rk) m = (l, m1) ->
    fetched (now env) (rk_id rk) m m1 /\ pm_map m1 !! rk_id rk = Some l).
  { intros l m1 E. pose proof (pm_get_or_fetched (db_env env) (now env) (rk_id rk) m Hwf) as Hf.
    pose proof (pm_get_or_filed (db_env env) (now env) (rk_id rk) m) as Hl. by rewrite E in Hf, Hl. }
  destruct H as [| | |l p m' res Hru Eg Hp Hres|l p m1 c changed ipc Hru Hrk Eg Hp Hc Hbump m2].
  - rewrite bool_decide_eq_false_2 by done. split; [by left|done].
  - rewrite bool_decide_eq_false_2 by done. split; [by left|done].
  - rewrite bool_decide_eq_false_2 by done. split; [by left|done].
  - destruct (Hfet _ _ Eg) as [Hf Hl]. rewrite bool_decide_eq_false_2.
    2: { intros [= ->]. case_match; [by destruct Hres|done]. }
    split; [|intros id' Hne; by rewrite (proj2 Hf)]. right. exists p.
    assert (E : cell m' (rk_id rk) = Some p) by (apply cell_Some; eauto).
    split; [done|]. rewrite <- (fetched_counter _ _ _ _ Hf). unfold counter_of. by rewrite E.
  - destruct (Hfet _ _ Eg) as [Hf Hl]. rewrite bool_decide_eq_true_2 by done.
    destruct (register_ok_cells env rk addr ws m l p m1 c changed ipc)
      as (_ & (q & Hq & _ & Er & _) & Hother); try done.
    assert (E : cell m1 (rk_id rk) = Some p) by (apply cell_Some; eauto).
    split.
    + exists q. split; [done|]. rewrite <- (fetched_counter _ _ _ _ Hf). unfold counter_of.
      rewrite E. congruence.
    + intros id' Hne. unfold m2. by rewrite Hother, (proj2 Hf).
Qed.

Lemma counts_invariant : pm_invariant names_rows anything counts_ok.
Proof.
  constructor.
  - by intros m [? _].
  - intros env t id m _ [Hwf Hc]. split; [by apply pm_get_wf|]. intros id' p Hp.
    destruct (pm_get_fetched env t id m Hwf) as [Hid Hother].
    destruct (decide (id' = id)) as [->|Hne]; [|rewrite Hother in Hp by done; eauto].
    destruct Hid as [E|(q & _ & E & Eq)]; [rewrite E in Hp; eauto|].
    rewrite E in Hp. injection Hp as <-. unfold count_ok. rewrite Eq. simpl. lia.
  - intros l addr t m [Hwf Hc]. split; [by apply write_wf|]. intros id p Hp.
    pose proof (write_field reg_pk l (seen_at addr t) m id (fun _ => eq_refl)) as E.
    rewrite Hp in E. simpl in E. symmetry in E. apply fmap_Some in E as (q & Hq & Eq).
    unfold count_ok. rewrite Eq. by apply (Hc id).
  - intros env rk addr ws m res m' Hg _ [Hwf Hc] Ho. split; [by eapply register_outcome_wf|].
    assert (Hcount : 0 <= (counter_of (now env) m (rk_id rk)).1 <= 2 + 1).
    { unfold counter_of. destruct (cell m (rk_id rk)) eqn:E; [by apply (Hc (rk_id rk))|simpl; lia]. }
    destruct (register_counter _ _ _ _ _ _ _ Hg Hwf Ho) as [H1 H2]. intros id p Hp.
    destruct (decide (id = rk_id rk)) as [->|Hne].
    + case_bool_decide.
      * destruct H1 as (q & Hq & Hb). assert (p = q) as -> by congruence.
        apply bump_bounded in Hb; [|done|done]. unfold count_ok. lia.
      * destruct H1 as [H1|(q & Hq & Eq)]; [apply (Hc (rk_id rk)); congruence|].
        assert (p = q) as -> by congruence. unfold count_ok. rewrite Eq. lia.
    + specialize (H2 id Hne). rewrite Hp in H2. simpl in H2. symmetry in H2.
      apply fmap_Some in H2 as (q & Hq & Eq). unfold count_ok. rewrite Eq. by apply (Hc id).
Qed.

(** The effect of one registration on a given id's cell. *)
Lemma registration_step id r s :
  next_guid (db_env (reg_env r)) <> "" -> pm_wf (pm s) ->
  let s' := after (run_registration r) s in
  pm_wf (pm s') /\
  if bool_decide (rk_id (reg_rk r) = id /\ result_of (run_registration r) s = Some RPK_OK)
  then exists q, cell (pm s') id = Some q /\
         bump 6 2 (now (reg_env r)) (counter_of (now (reg_env r)) (pm s) id) = Some (reg_pk q)
  else reg_pk <$> cell (pm s') id = reg_pk <$> cell (pm s) id \/
       (cell (pm s) id = None /\ exists q, cell (pm s') id = Some q /\ (reg_pk q).1 = 0).
Proof.
  intros Hg Hwf s'. unfold s', run_registration.
  pose proof (handle_register_pk_outcome (reg_env r) (reg_rk r) (reg_addr r) (reg_ws r) s Hwf) as Ho.
  split; [by eapply register_outcome_wf|].
  destruct (register_counter _ _ _ _ _ _ _ Hg Hwf Ho) as [H1 H2].
  destruct (bool_decide (rk_id (reg_rk r) = id /\ _)) eqn:E;
    [apply bool_decide_eq_true in E|apply bool_decide_eq_false in E].
  - destruct E as [<- E]. by rewrite bool_decide_eq_true_2 in H1.
  - destruct (decide (rk_id (reg_rk r) = id)) as [<-|Hne]; [|left; by apply H2].
    rewrite bool_decide_eq_false_2 in H1 by tauto.
    destruct H1 as [H1|(q & Hq & Eq)]; [left; by rewrite H1|].
    rewrite Hq. unfold counter_of in Eq. destruct (cell (pm s) (rk_id (reg_rk r))).
    + left. simpl. by rewrite Eq.
    + right. split; [done|]. exists q. split; [done|]. by rewrite Eq.
Qed.

(** Whatever else is asked leaves the counter of the id alone. *)
Lemma count_kept_invariant id c :
  pm_invariant names_rows (fun rk => rk_id rk <> id) (fun m => pm_wf m /\ reg_pk <$> cell m id = Some c).
Proof.
  constructor.
  - by intros m [? _].
  - intros env t id' m _ [Hwf Hc]. split; [by apply pm_get_wf|].
    destruct (pm_get_fetched env t id' m Hwf) as [Hid Hother].
    destruct (decide (id = id')) as [->|Hne]; [|by rewrite Hother].
    destruct Hid as [->|(p & E & _)]; [done|]. by rewrite E in Hc.
  - intros l addr t m [Hwf Hc]. split; [by apply write_wf|]. by rewrite write_field.
  - intros env rk addr ws m res m' Hg Hne [Hwf Hc] Ho. split; [by eapply register_outcome_wf|].
    destruct (register_counter _ _ _ _ _ _ _ Hg Hwf Ho) as [_ H]. by rewrite H.
Qed.

Lemma reg_times_cons id d l : reg_times id l ⊆ reg_times id (d :: l).
Proof. unfold reg_times. cbn [omap list_omap]. case_match; [by apply list_subseteq_cons|done]. Qed.

(** Once the id has a cell, its accepted registrations are admitted events. *)
Lemma accepted_for_admitted id l s c :
  Forall (fun d => next_guid (db_env (doing_env d)) <> "" /\ counted_right id d) l -> pm_wf (pm s) ->
  reg_pk <$> cell (pm s) id = Some c ->
  exists ts, ts ⊆ reg_times id l /\ (accepted_for id l s <= admitted 6 2 ts c)%nat.
Proof.
  intros Hl. revert s c. induction Hl as [|[r|env i] l [Hg Ho] Hl IH]; intros s c Hwf Hc.
  { exists []. simpl. split; [done|lia]. }
  2: { destruct (input_preserves names_rows _ _ (env, i) s (count_kept_invariant id c)) as [Hwf' Hc']; [done..|].
       exact (IH _ _ Hwf' Hc'). }
  destruct (registration_step id r s Hg Hwf) as [Hwf' Hstep].
  cbn [accepted_for]. unfold reg_times in *. cbn [omap list_omap reg_time].
  apply fmap_Some in Hc as (p & Hp & ->). unfold counter_of in Hstep. rewrite Hp in Hstep.
  destruct (bool_decide (rk_id (reg_rk r) = id /\ _)) eqn:E; [apply bool_decide_eq_true in E|].
  - destruct E as [Eid E]. destruct Hstep as (q & Hq & Hb).
    destruct (IH _ (reg_pk q) Hwf') as (ts & Hts & Ha); [by rewrite Hq|].
    rewrite bool_decide_true by done.
    exists (now (reg_env r) :: ts). split; [by apply list_subseteq_skip|]. cbn [admitted]. rewrite Hb. lia.
  - destruct Hstep as [Hstep|[Hstep _]]; [|done].
    destruct (IH _ (reg_pk p) Hwf') as (ts & Hts & Ha); [by rewrite Hstep|].
    exists ts. split; [|done]. etrans; [exact Hts|]. exact (reg_times_cons id (DReg r) l).
Qed.

Lemma window_sub (ts ts' : list Instant) d :
  ts ⊆ ts' -> (forall t t', t ∈ ts' -> t' ∈ ts' -> elapsed_secs t' t <= d) ->
  forall t t', t ∈ ts -> t' ∈ ts -> elapsed_secs t' t <= d.
Proof. intros Hs H t t' H1 H2. apply H; by apply Hs. Qed.

(** C20: the server being started on a consistent database, an id is not registered more than
    three times in a window shorter than seven seconds, whatever was asked before and whatever
    else is asked in between, of this id or of others, in one run of the process and as long as
    one request is handled after the other.  (Registrations that overlap, on websockets, are not held to this: see
    [RegRace.overlapping_registrations_escape_the_limit].) *)
Theorem registrations_are_rate_limited (db : Database) (past : list (Env * Input)) (s0 : Server)
    (l : list Doing) (id : string) :
  db_wf db -> pm s0 = pm_new db ->
  Forall (fun ei => next_guid (db_env ei.1) <> "") past ->
  Forall (fun d => next_guid (db_env (doing_env d)) <> "" /\ counted_right id d) l ->
  (forall t t', t ∈ reg_times id l -> t' ∈ reg_times id l -> elapsed_secs t' t <= 6) ->
  (accepted_for id l (foldl run_input s0 past) <= 3)%nat.
Proof.
  intros Hdb H0 Hpast Hl Hw.
  assert (Hs : counts_ok (pm (foldl run_input s0 past))).
  { apply (inputs_preserve names_rows counts_ok); [apply counts_invariant|done|]. rewrite H0.
    split; [by apply pm_new_wf|]. done. }
  revert Hs. generalize (foldl run_input s0 past). clear dependent s0 db past.
  induction Hl as [|d l [Hg Ho] Hl IH]; intros s [Hwf Hcnt]; [simpl; lia|].
  destruct (cell (pm s) id) as [p|] eqn:Hp.
  { destruct (accepted_for_admitted id (d :: l) s (reg_pk p)) as (ts & Hts & Ha);
      [by constructor|done|by rewrite Hp|].
    assert (Z.of_nat (admitted 6 2 ts (reg_pk p)) <= 2 + 1); [|lia].
    apply admitted_window; [done|by eapply window_sub|by apply (Hcnt id)]. }
  pose proof (reg_times_cons id d l) as Hl'. destruct d as [r|env i]; cbn [accepted_for doing_env] in *.
  2: { apply IH; [by eapply window_sub|].
       by apply (input_preserves names_rows anything _ (env, i) s counts_invariant). }
  destruct (registration_step id r s Hg Hwf) as [Hwf' Hstep].
  destruct (bool_decide (rk_id (reg_rk r) = id /\ _)) eqn:E; [apply bool_decide_eq_true in E|].
  - destruct E as [Eid E]. destruct Hstep as (q & Hq & Hb).
    destruct (accepted_for_admitted id l (after (run_registration r) s) (reg_pk q))
      as (ts & Hts & Ha); [done|done|by rewrite Hq|].
    pose proof (bump_time _ _ _ _ _ Hb) as Ht.
    unfold counter_of in Hb. rewrite Hp in Hb.
    apply bump_bounded in Hb; [|done|simpl; lia].
    assert (Z.of_nat (admitted 6 2 ts (reg_pk q)) <= 2 + 1 - (reg_pk q).1); [|lia].
    apply admitted_recent; [|eapply window_sub; [etransitivity; [exact Hts|exact Hl']|exact Hw]|lia].
    apply Forall_forall. intros t Hin. rewrite Ht. apply Hw; [|by apply Hl', Hts].
    unfold reg_times. cbn [omap list_omap reg_time]. rewrite bool_decide_true by done. left.
  - simpl. apply IH; [by eapply window_sub|].
    eapply (inv_register _ _ _ counts_invariant); [exact Hg|done|exact (conj Hwf Hcnt)|].
    by apply handle_register_pk_outcome.
Qed.

End RendezvousProperties.
