(* ===== verification/Directory.v ===== *)
(** * The directory of ids, as a specification

    What the registration of keys promises, without cells, tables and locks: a directory
    of the owners in use and a directory of the owners on disk.  A registration may claim
    an id that is free or already the claimant's; the claim reaches the disk or, when the
    database fails, does not; a restart goes back to what is on disk.  The server, with
    its peer map and its database, refines it: every message does at most the claim it
    asks for, and no other step happens. *)

From S2P Require Import Prelude RustStr Net External RelayRoutes RelayGeo RelaySelect.
From S2P Require Import RateLimit Guards PeerStore Jwt Rendezvous HandlerLogic RendezvousFacts.

Local Open Scope Z_scope.

(** ** The specification *)

(** A device's uuid and its public key. *)
Definition Owner : Type := Bytes * Bytes.

Record Directory := mkDirectory {
  in_use : gmap string Owner;
  on_disk : gmap string Owner;
}.

(** The id is free, or the device's own. *)
Definition allows (d : Directory) (id : string) (u : Bytes) : Prop :=
  forall o, in_use d !! id = Some o -> o.1 = u.

(** A claim, stored or not. *)
Inductive claim (id : string) (u k : Bytes) (d : Directory) : Directory -> Prop :=
| claim_lost : claim id u k d (mkDirectory (<[id := (u, k)]> (in_use d)) (on_disk d))
| claim_kept : claim id u k d (mkDirectory (<[id := (u, k)]> (in_use d)) (<[id := (u, k)]> (on_disk d))).

Lemma claim_live id u k d d' : claim id u k d d' -> in_use d' = <[id := (u, k)]> (in_use d).
Proof. by destruct 1. Qed.

(** Claiming twice is claiming once. *)
Lemma claim_claim id u k d d1 d2 : claim id u k d d1 -> claim id u k d1 d2 -> claim id u k d d2.
Proof. destruct 1; destruct 1; simpl; rewrite ?insert_insert_eq; constructor. Qed.

Section Directory.
  Context {hbb : HbbCommon} {netlib : IpNetworkLib} {v4net : Ipv4NetworkLib}
    {trig : FloatTrig} {mm : MaxMind} {sodium : Sodium} {json : InfoJson} {jwt : JwtLib}
    {proto : RendezvousProto}.

(** What happens to a server: a message, or the end of the process and a new one, with
    whatever state it starts in, on the same database. *)
Inductive Event :=
| Message (i : Input)
| Restart (s : Server).

Definition run_event (s : Server) (ev : Env * Event) : Server :=
  match ev.2 with
  | Message i => run_input s (ev.1, i)
  | Restart s' => set_pm (pm_new (pm_db (pm s))) s'
  end.

(** What it may do to the directory. *)
Inductive dir_step (d : Directory) : Event -> Directory -> Prop :=
| DirQuiet i : dir_step d (Message i) d
| DirClaim i rk d' :
    requested i = Some rk -> rk_uuid rk <> "" -> allows d (rk_id rk) (rk_uuid rk) ->
    claim (rk_id rk) (rk_uuid rk) (rk_pk rk) d d' -> dir_step d (Message i) d'
| DirRestart s : dir_step d (Restart s) (mkDirectory (on_disk d) (on_disk d)).

Inductive dir_run (d : Directory) : list Event -> Directory -> Prop :=
| DirDone : dir_run d [] d
| DirNext e l d1 d2 : dir_step d e d1 -> dir_run d1 l d2 -> dir_run d (e :: l) d2.

(** *** What the specification gives *)

(** What is on disk is in use by the same device. *)
Definition dir_ok (d : Directory) : Prop :=
  forall id o, on_disk d !! id = Some o -> fst <$> in_use d !! id = Some o.1.

Lemma dir_step_ok d e d' : dir_step d e d' -> dir_ok d -> dir_ok d'.
Proof.
  intros [i|i rk d1 Hr Hu Ha Hc|s] Hok id o; [apply Hok| |].
  - rewrite (claim_live _ _ _ _ _ Hc). destruct Hc; cbn [on_disk]; intros Ho.
    + destruct (decide (id = rk_id rk)) as [->|Hne]; [|rewrite lookup_insert_ne by done; by apply Hok].
      rewrite lookup_insert_eq. specialize (Hok _ _ Ho). apply fmap_Some in Hok as (o' & Ho' & ->).
      cbn. by rewrite (Ha _ Ho').
    + destruct (decide (id = rk_id rk)) as [->|Hne].
      * rewrite lookup_insert_eq in Ho |- *. by injection Ho as <-.
      * rewrite lookup_insert_ne in Ho |- * by done. by apply Hok.
  - cbn. intros ->. done.
Qed.

(** An id on disk keeps its owner. *)
Lemma dir_step_keeps d e d' id u :
  dir_step d e d' -> dir_ok d -> fst <$> on_disk d !! id = Some u -> fst <$> on_disk d' !! id = Some u.
Proof.
  intros [i|i rk d1 Hr Hu Ha Hc|s] Hok Ho; [done| |done].
  destruct Hc; cbn [on_disk]; [done|].
  destruct (decide (id = rk_id rk)) as [->|Hne]; [|by rewrite lookup_insert_ne].
  rewrite lookup_insert_eq. apply fmap_Some in Ho as (o & Ho & ->). cbn.
  specialize (Hok _ _ Ho). apply fmap_Some in Hok as (o' & Ho' & ->). by rewrite (Ha _ Ho').
Qed.

Lemma dir_run_keeps d l d' id u :
  dir_run d l d' -> dir_ok d -> fst <$> on_disk d !! id = Some u ->
  dir_ok d' /\ fst <$> on_disk d' !! id = Some u.
Proof. induction 1; eauto using dir_step_ok, dir_step_keeps. Qed.

Lemma dir_run_ok d l d' : dir_run d l d' -> dir_ok d -> dir_ok d'.
Proof. induction 1; eauto using dir_step_ok. Qed.

(** ** The server's directory *)

Definition row_owner (db : Database) (id : string) : option Owner :=
  (fun r => (row_uuid r, row_pk r)) <$> List.find (fun r => bool_decide (row_id r = id)) (rows db).

(** A cell no device has claimed has no uuid. *)
Definition cell_owner (p : Peer) : option Owner :=
  if str_is_empty (uuid p) then None else Some (uuid p, pk p).

(** The owner in use: the cell's, or the row's when there is no cell yet. *)
Definition owner (m : PeerMap) (id : string) : option Owner :=
  match cell m id with
  | Some p => cell_owner p
  | None => row_owner (pm_db m) id
  end.

Record represents (m : PeerMap) (d : Directory) : Prop := {
  rep_live : forall id, in_use d !! id = owner m id;
  rep_stored : forall id, on_disk d !! id = row_owner (pm_db m) id;
}.

(** The directory of a database. *)
Definition dir_of (db : Database) : gmap string Owner :=
  list_to_map ((fun r => (row_id r, (row_uuid r, row_pk r))) <$> rows db).

Lemma dir_of_lookup db id : dir_of db !! id = row_owner db id.
Proof.
  unfold dir_of, row_owner. induction (rows db) as [|r l IH]; [done|].
  cbn [fmap list_fmap List.find list_to_map foldr]. cbn. case_bool_decide as E.
  - by rewrite <- E, lookup_insert_eq.
  - by rewrite lookup_insert_ne.
Qed.

Definition dir_start (db : Database) : Directory := mkDirectory (dir_of db) (dir_of db).

Lemma pm_new_represents db : represents (pm_new db) (dir_start db).
Proof. constructor; intros id; apply dir_of_lookup. Qed.

Lemma represents_restart m d :
  represents m d -> represents (pm_new (pm_db m)) (mkDirectory (on_disk d) (on_disk d)).
Proof. intros [_ H]. by constructor. Qed.

(** *** Looking a peer up *)

(** The same owners, as far as the directory can tell. *)
Record same_owners (m m' : PeerMap) : Prop := {
  same_live : forall id, owner m' id = owner m id;
  same_db : pm_db m' = pm_db m;
}.

#[export] Instance same_owners_preorder : PreOrder same_owners.
Proof.
  split; [done|]. intros a b c [H1 H2] [H3 H4]. split; [|congruence].
  intros id. by rewrite H3.
Qed.

Lemma represents_same m m' d : same_owners m m' -> represents m d -> represents m' d.
Proof. intros [H1 H2] [H3 H4]. constructor; intros id; [by rewrite H1|by rewrite H2]. Qed.

(** Filing a cell with the owner the id has. *)
Lemma file_same m id p :
  pm_wf m -> pm_map m !! id = None -> cell_owner p = row_owner (pm_db m) id ->
  let l := fresh (dom (pm_heap m)) in
  same_owners m (mkPeerMap (<[id := l]> (pm_map m)) (<[l := p]> (pm_heap m)) (pm_db m)).
Proof.
  intros Hwf Hid Hp l. split; [|done]. intros id'. unfold owner, cell. cbn [pm_map pm_heap pm_db].
  destruct (decide (id' = id)) as [->|Hne].
  - rewrite lookup_insert_eq, Hid. cbn. by rewrite lookup_insert_eq.
  - rewrite lookup_insert_ne by done. destruct (pm_map m !! id') as [l'|] eqn:E; [|done]. cbn.
    rewrite lookup_insert_ne; [done|]. intros <-. destruct (wf_cell _ Hwf _ _ E) as [q Hq].
    pose proof (alloc_fresh m). unfold l in *. congruence.
Qed.

(** A row's peer has the row's owner. *)
Lemma row_cell_owner db t id v :
  db_wf db -> List.find (fun r => bool_decide (row_id r = id)) (rows db) = Some v ->
  cell_owner (peer_of_row t v) = row_owner db id.
Proof.
  intros Hdb E. unfold row_owner. rewrite E. unfold cell_owner, peer_of_row. cbn.
  apply find_by_id in E as [Hin _]. pose proof (rows_named _ Hdb) as Hn. rewrite Forall_forall in Hn.
  destruct (Hn v Hin) as [_ Hu]. destruct (str_is_empty (row_uuid v)) eqn:Ee; [|done].
  by apply str_is_empty_true in Ee.
Qed.

Lemma pm_get_same env t id m : pm_wf m -> same_owners m (pm_get env t id m).2.
Proof.
  intros Hwf. unfold pm_get. destruct (pm_map m !! id) eqn:E; [done|].
  unfold db_get_peer. destruct (can_read env); [|done].
  destruct (List.find _ _) as [v|] eqn:Ev; [|done].
  apply (file_same m id (peer_of_row t v) Hwf E). apply row_cell_owner; [apply Hwf|done].
Qed.

Lemma pm_get_or_same env t id m :
  pm_wf m -> can_read env = true -> same_owners m (pm_get_or env t id m).2.
Proof.
  intros Hwf Hr. unfold pm_get_or, pm_get. destruct (pm_map m !! id) eqn:E; [done|].
  unfold db_get_peer. rewrite Hr. destruct (List.find _ _) as [v|] eqn:Ev; cbn [fst snd].
  - apply (file_same m id (peer_of_row t v) Hwf E). apply row_cell_owner; [apply Hwf|done].
  - rewrite E. apply (file_same m id (peer_default t) Hwf E). unfold row_owner. by rewrite Ev.
Qed.

(** A write that changes neither the uuid nor the key. *)
Lemma write_same l f m :
  (forall p, uuid (f p) = uuid p) -> (forall p, pk (f p) = pk p) -> same_owners m (write l f m).
Proof.
  intros Hu Hk. split; [|done]. intros id. unfold owner.
  assert (E : cell_owner <$> cell (write l f m) id = cell_owner <$> cell m id).
  { apply write_field. intros p. unfold cell_owner. by rewrite Hu, Hk. }
  destruct (cell (write l f m) id), (cell m id); simplify_eq/=; congruence.
Qed.

(** *** Registering *)

Lemma row_owner_spec db id o :
  db_wf db -> row_owner db id = Some o <->
  exists r, r ∈ rows db /\ row_id r = id /\ o = (row_uuid r, row_pk r).
Proof.
  intros Hwf. unfold row_owner. split.
  - intros (r & E & ->)%fmap_Some. apply find_by_id in E as [Hin E]. eauto.
  - intros (r & Hr & <- & ->). by rewrite (find_row db r Hwf Hr).
Qed.

(** The table after a claim was stored: the rows of other ids are the ones it had. *)
Lemma row_owner_claimed db db' id u k :
  db_wf db -> db_wf db' ->
  (exists r, r ∈ rows db' /\ row_id r = id /\ row_uuid r = u /\ row_pk r = k) ->
  (forall r, row_id r <> id -> r ∈ rows db' <-> r ∈ rows db) ->
  forall id', row_owner db' id' = (<[id := (u, k)]> (dir_of db)) !! id'.
Proof.
  intros Hdb Hdb' (r & Hr & Hi & <- & <-) Hother id'. destruct (decide (id' = id)) as [->|Hne].
  - rewrite lookup_insert_eq. apply row_owner_spec; eauto.
  - rewrite lookup_insert_ne, dir_of_lookup by done. apply option_eq. intros o.
    rewrite !row_owner_spec by done. split; intros (x & Hx & Hxi & ->); exists x;
      (split; [|done]); apply (Hother x); congruence.
Qed.

Lemma insert_claimed up g id u k inf db g' db' :
  db_wf db -> g <> "" -> u <> "" -> db_insert_peer up g id u k inf db = Ok (g', db') ->
  forall id', row_owner db' id' = (<[id := (u, k)]> (dir_of db)) !! id'.
Proof.
  intros Hwf Hg Hu E. apply row_owner_claimed; [done|exact (db_insert_wf _ _ _ _ _ _ _ _ _ Hwf Hg Hu E)| |].
  - apply db_insert_ok in E as (_ & _ & _ & ->). eexists. split; [apply elem_of_app; right; by apply list_elem_of_singleton|done].
  - apply db_insert_ok in E as (_ & _ & _ & ->). intros r Hne. cbn [rows].
    rewrite elem_of_app, list_elem_of_singleton. split; [|by left]. intros [?| ->]; [done|]. by cbn in Hne.
Qed.

Lemma update_claimed up g id u k inf db db' :
  db_wf db -> has_row db g id u -> db_update_pk up g id k inf db = Ok db' ->
  forall id', row_owner db' id' = (<[id := (u, k)]> (dir_of db)) !! id'.
Proof.
  intros Hwf Hrow E. apply row_owner_claimed; [done|exact (db_update_wf _ _ _ _ _ _ _ _ Hwf Hrow E)| |].
  - apply db_update_ok in E as ->. destruct Hrow as (r & Hr & Hg & Hi & Hu).
    exists (updated id k inf r). split; [|done]. cbn [rows]. apply list_elem_of_fmap. exists r.
    by rewrite bool_decide_eq_true_2.
  - apply db_update_ok in E as ->. destruct Hrow as (r & Hr & Hg & Hi & Hu).
    intros x Hne. cbn [rows]. rewrite list_elem_of_fmap. split.
    + intros (y & -> & Hy). case_bool_decide; [by cbn in Hne|done].
    + intros Hx. exists x. split; [|done]. rewrite bool_decide_eq_false_2; [done|].
      intros Ex. apply Hne. assert (x = r) as ->; [eapply row_of_guid; eauto; congruence|done].
Qed.

(** What [update_pk] does to the table. *)
Lemma pm_update_pk_table env t id l addr u k ip m p :
  pm_wf m -> pm_map m !! id = Some l -> pm_heap m !! l = Some p ->
  next_guid env <> "" -> u <> "" -> (guid p <> "" -> uuid p = u) ->
  let db' := pm_db (pm_update_pk env t id l addr u k ip m).2 in
  db' = pm_db m \/ forall id', row_owner db' id' = (<[id := (u, k)]> (dir_of (pm_db m))) !! id'.
Proof.
  intros Hwf Hid Hp Hg Hu Hsame. rewrite (pm_update_pk_known _ _ _ _ _ _ _ _ _ _ Hp). cbv zeta.
  destruct (str_is_empty (guid p)) eqn:Eg.
  - destruct (db_insert_peer _ _ _ _ _ _ _) as [[g db]|] eqn:Ei; cbn [snd put_cell pm_db]; [right|by left].
    eapply insert_claimed; [apply Hwf|exact Hg|exact Hu|exact Ei].
  - assert (Hne : guid p <> "") by (intros E; rewrite E in Eg; done).
    destruct (db_update_pk _ _ _ _ _ _) as [db|] eqn:Ei; cbn [snd put_cell pm_db]; [right|by left].
    eapply update_claimed; [apply Hwf| |exact Ei].
    rewrite <- (Hsame Hne). by apply (wf_row _ Hwf id l).
Qed.

(** A claim on the directory from what it did to the cells and to the table. *)
Lemma represents_claim m m' d id u k q :
  represents m d -> u <> "" -> cell m' id = Some q -> uuid q = u -> pk q = k ->
  (forall id', id' <> id -> cell m' id' = cell m id') ->
  (pm_db m' = pm_db m \/
   forall id', row_owner (pm_db m') id' = (<[id := (u, k)]> (dir_of (pm_db m))) !! id') ->
  exists d', claim id u k d d' /\ represents m' d'.
Proof.
  intros [Hl Hs] Hu Hq Eu Ek Hother Hdb.
  assert (Hlive : forall id', (<[id := (u, k)]> (in_use d)) !! id' = owner m' id').
  { intros id'. destruct (decide (id' = id)) as [->|Hne].
    - rewrite lookup_insert_eq. unfold owner. rewrite Hq. unfold cell_owner. rewrite Eu, Ek.
      destruct (str_is_empty u) eqn:E; [by apply str_is_empty_true in E|done].
    - rewrite lookup_insert_ne, Hl by done. unfold owner. rewrite Hother by done.
      destruct (cell m id'); [done|]. destruct Hdb as [->|E]; [done|].
      by rewrite E, lookup_insert_ne, dir_of_lookup. }
  destruct Hdb as [E|E]; [exists (mkDirectory (<[id := (u, k)]> (in_use d)) (on_disk d))
    |exists (mkDirectory (<[id := (u, k)]> (in_use d)) (<[id := (u, k)]> (on_disk d)))];
    (split; [by constructor|constructor; cbn [in_use on_disk]; [done|]]).
  - intros id'. by rewrite E.
  - intros id'. rewrite E. destruct (decide (id' = id)) as [->|Hne]; [by rewrite !lookup_insert_eq|].
    by rewrite !lookup_insert_ne, Hs, dir_of_lookup.
Qed.

(** Reading works and new rows are named. *)
Definition readable (env : DbEnv) : Prop := can_read env = true /\ next_guid env <> "".

(** One registration: the directory stays, or, when the answer is yes, the claim is made. *)
Lemma register_represents env rk addr ws m res m' d :
  readable (db_env env) -> pm_wf m -> represents m d -> register_outcome env rk addr ws m res m' ->
  (res <> Some RPK_OK /\ represents m' d) \/
  (res = Some RPK_OK /\ rk_uuid rk <> "" /\ allows d (rk_id rk) (rk_uuid rk) /\
   exists d', claim (rk_id rk) (rk_uuid rk) (rk_pk rk) d d' /\ represents m' d').
Proof.
  intros [Hread Hg] Hwf Hrep H.
  assert (Hget : forall l m1, pm_get_or (db_env env) (now env) (rk_id rk) m = (l, m1) -> same_owners m m1).
  { intros l m1 E. pose proof (pm_get_or_same (db_env env) (now env) (rk_id rk) m Hwf Hread) as Hs.
    by rewrite E in Hs. }
  destruct H as [| | |l p m' res Hru Eg Hp Hres|l p m1 c changed ipc Hru Hrk Eg Hp Hc Hbump m2];
    [by left..| |].
  - left. split; [|by eapply represents_same; [by eapply Hget|]].
    intros [= ->]. case_match; [by destruct Hres|done].
  - right. split; [done|]. split; [done|]. pose proof (Hget _ _ Eg) as Hs.
    pose proof (represents_same _ _ _ Hs Hrep) as Hrep1.
    assert (Hwf1 : pm_wf m1).
    { pose proof (pm_get_or_wf (db_env env) (now env) (rk_id rk) m Hwf) as H. by rewrite Eg in H. }
    assert (Hid : pm_map m1 !! rk_id rk = Some l).
    { pose proof (pm_get_or_filed (db_env env) (now env) (rk_id rk) m) as H. by rewrite Eg in H. }
    assert (Ecell : cell m1 (rk_id rk) = Some p) by (apply cell_Some; eauto).
    split.
    { intros o. rewrite (rep_live _ _ Hrep1). unfold owner. rewrite Ecell. unfold cell_owner.
      destruct (register_check_uuid _ _ _ _ Hc) as [->|E]; [done|].
      destruct (str_is_empty (uuid p)); [done|]. by intros [= <-]. }
    destruct (register_ok_cells env rk addr ws m l p m1 c changed ipc)
      as (_ & (q & Hq & Eu & _ & Ek) & Hother); try done.
    apply (represents_claim m1 _ d (rk_id rk) (rk_uuid rk) (rk_pk rk) q); try done.
    destruct (changed || ws); [|by left].
    apply (pm_update_pk_table _ _ _ _ _ _ _ _ m2 (set_reg_pk c p)); try done.
    + by apply write_wf.
    + unfold m2. rewrite (write_put_cell _ _ _ _ Hp). apply lookup_insert_eq.
    + cbn. intros Hgp. destruct (register_check_uuid _ _ _ _ Hc) as [E|E]; [|done].
      exfalso. by eapply (stored_uuid m1).
Qed.

(** *** One message, one step *)

(** The directory before a message or after the claim it asks for. *)
Definition moved (d : Directory) (i : Input) (m : PeerMap) : Prop :=
  pm_wf m /\ exists d', dir_step d (Message i) d' /\ represents m d'.

Lemma dir_step_claim d i rk d1 d2 :
  requested i = Some rk -> rk_uuid rk <> "" -> dir_step d (Message i) d1 ->
  allows d1 (rk_id rk) (rk_uuid rk) -> claim (rk_id rk) (rk_uuid rk) (rk_pk rk) d1 d2 ->
  dir_step d (Message i) d2.
Proof.
  intros Hr Hu Hs Ha Hc. inversion Hs as [|? rk' ? Hr' Hu' Ha' Hc'|]; subst; [by eapply DirClaim|].
  assert (rk' = rk) as -> by congruence. eapply DirClaim; [done..|]. by eapply claim_claim.
Qed.

Lemma moved_invariant d i : pm_invariant readable (fun rk => requested i = Some rk) (moved d i).
Proof.
  constructor.
  - by intros m [? _].
  - intros env t id m _ [Hwf (d' & Hd & Hr)]. split; [by apply pm_get_wf|].
    exists d'. split; [done|]. eapply represents_same; [by apply pm_get_same|done].
  - intros l addr t m [Hwf (d' & Hd & Hr)]. split; [by apply write_wf|].
    exists d'. split; [done|]. eapply represents_same; [by apply write_same|done].
  - intros env rk addr ws m res m' Hg Ha [Hwf (d' & Hd & Hr)] Ho.
    split; [by eapply register_outcome_wf; [apply Hg|..]|].
    destruct (register_represents _ _ _ _ _ _ _ _ Hg Hwf Hr Ho)
      as [[_ Hr']|(_ & Hu & Hal & d2 & Hc & Hr')]; [by exists d'|].
    exists d2. split; [|done]. by eapply dir_step_claim.
Qed.

Lemma event_simulated d s ev :
  readable (db_env ev.1) -> pm_wf (pm s) -> represents (pm s) d ->
  pm_wf (pm (run_event s ev)) /\ exists d', dir_step d ev.2 d' /\ represents (pm (run_event s ev)) d'.
Proof.
  destruct ev as [env [i|s']]; cbn [fst snd run_event]; intros Hg Hwf Hr.
  - apply (input_preserves readable (fun rk => requested i = Some rk) (moved d i));
      [apply moved_invariant|done|done|]. split; [done|]. exists d. split; [constructor|done].
  - split; [apply pm_new_wf, Hwf|]. eexists. split; [constructor|]. by apply represents_restart.
Qed.

(** The answer to one more registration. *)
Lemma register_simulated env rk addr ws d s :
  readable (db_env env) -> pm_wf (pm s) -> represents (pm s) d ->
  result_of (handle_register_pk env rk addr ws) s = Some RPK_OK ->
  allows d (rk_id rk) (rk_uuid rk) /\
  exists d', claim (rk_id rk) (rk_uuid rk) (rk_pk rk) d d' /\
    represents (pm (after (handle_register_pk env rk addr ws) s)) d'.
Proof.
  intros Hg Hwf Hr Hok. pose proof (handle_register_pk_outcome env rk addr ws s Hwf) as Ho.
  rewrite Hok in Ho. by destruct (register_represents _ _ _ _ _ _ _ _ Hg Hwf Hr Ho)
    as [[? _]|(_ & _ & Hal & Hd)].
Qed.

Lemma events_simulated l d s :
  Forall (fun ev => readable (db_env ev.1)) l -> pm_wf (pm s) -> represents (pm s) d ->
  pm_wf (pm (foldl run_event s l)) /\
  exists d', dir_run d (snd <$> l) d' /\ represents (pm (foldl run_event s l)) d'.
Proof.
  intros Hl. revert d s. induction Hl as [|ev l Hg Hl IH]; intros d s Hwf Hr.
  { split; [done|]. exists d. split; [constructor|done]. }
  destruct (event_simulated d s ev Hg Hwf Hr) as (Hwf' & d1 & Hs & Hr1).
  destruct (IH _ _ Hwf' Hr1) as (Hwf2 & d2 & Hrun & Hr2). split; [done|].
  exists d2. split; [by econstructor|done].
Qed.

(** ** Properties *)

(** C2: the server is a directory of ids.  Through any sequence of messages and restarts,
    on a database whose reads work and whose writes may fail at any time, its records are
    those of a directory in which each message claimed at most the id it asks to register,
    and only when that id was free or the claimant's own, and in which a restart goes back
    to the claims that were stored; and a registration that is answered with OK is such a
    claim, carried out. *)
Theorem server_refines_directory (db : Database) (s0 : Server) (l : list (Env * Event)) :
  db_wf db -> pm s0 = pm_new db -> Forall (fun ev => readable (db_env ev.1)) l ->
  let s := foldl run_event s0 l in
  exists d, dir_run (dir_start db) (snd <$> l) d /\ represents (pm s) d /\
    forall env rk addr ws, readable (db_env env) ->
      result_of (handle_register_pk env rk addr ws) s = Some RPK_OK ->
      allows d (rk_id rk) (rk_uuid rk) /\
      exists d', claim (rk_id rk) (rk_uuid rk) (rk_pk rk) d d' /\
        represents (pm (after (handle_register_pk env rk addr ws) s)) d'.
Proof.
  intros Hdb H0 Hl s. destruct (events_simulated l (dir_start db) s0 Hl) as (Hwf & d & Hrun & Hr);
    [rewrite H0; by apply pm_new_wf|rewrite H0; apply pm_new_represents|].
  exists d. split; [done|]. split; [done|]. intros. by eapply register_simulated.
Qed.

(** C3: an id on disk never changes hands.  Once the database has an id with a uuid, no
    sequence of messages, restarts and failing writes gives the id another uuid there,
    and no registration of the id with another uuid is accepted at any later time. *)
Theorem stored_id_never_changes_hands (db : Database) (s0 : Server)
    (before later : list (Env * Event)) (id : string) (u : Bytes) :
  db_wf db -> pm s0 = pm_new db -> Forall (fun ev => readable (db_env ev.1)) (before ++ later) ->
  fst <$> row_owner (pm_db (pm (foldl run_event s0 before))) id = Some u ->
  let s := foldl run_event s0 (before ++ later) in
  fst <$> row_owner (pm_db (pm s)) id = Some u /\
  forall env rk addr ws, readable (db_env env) -> rk_id rk = id ->
    result_of (handle_register_pk env rk addr ws) s = Some RPK_OK -> rk_uuid rk = u.
Proof.
  intros Hdb H0 [Hb Hl]%Forall_app Hu s. unfold s. rewrite foldl_app.
  destruct (events_simulated before (dir_start db) s0 Hb) as (Hwf1 & d1 & Hrun1 & Hr1);
    [rewrite H0; by apply pm_new_wf|rewrite H0; apply pm_new_represents|].
  destruct (events_simulated later d1 _ Hl Hwf1 Hr1) as (Hwf2 & d2 & Hrun2 & Hr2).
  assert (Hok : dir_ok d1).
  { eapply dir_run_ok; [done|]. intros i o. cbn. by intros ->. }
  rewrite <- (rep_stored _ _ Hr1) in Hu.
  destruct (dir_run_keeps _ _ _ _ _ Hrun2 Hok Hu) as [Hok2 Hu2]. split.
  { by rewrite <- (rep_stored _ _ Hr2). }
  intros env rk addr ws Hg Hid Hans.
  destruct (register_simulated env rk addr ws d2 _ Hg Hwf2 Hr2 Hans) as [Hal _].
  apply fmap_Some in Hu2 as (o & Ho & ->). specialize (Hok2 _ _ Ho).
  apply fmap_Some in Hok2 as (o' & Ho' & ->). rewrite Hid in Hal. by rewrite (Hal _ Ho').
Qed.

End Directory.
