(* ===== verification/RoutingFacts.v ===== *)
(** * Properties of what the rendezvous server sends where

    Punch-hole requests are forwarded exactly when they are allowed and the peer is
    online; the online bitmap says which peers are; the UDP dispatcher answers nobody
    but the sender and takes a new configuration only from the machine itself. *)

From S2P Require Import Prelude RustStr Net External RelayRoutes RelayGeo RelaySelect.
From S2P Require Import RateLimit Guards PeerStore Jwt Rendezvous HandlerLogic.
From S2P Require Import RendezvousFacts.

Local Open Scope Z_scope.

(** ** The online bitmap *)

(** Bit [i] of the bitmap, most significant bit of each byte first. *)
Definition state_bit (st : list Z) (i : nat) : bool :=
  match st !! (i / 8)%nat with
  | Some b => Z.testbit b (7 - Z.of_nat (i mod 8))
  | None => false
  end.

Definition is_byte (b : Z) : Prop := 0 <= b < 256.

Lemma bit_index i : 0 <= 7 - Z.of_nat (i mod 8) < 8.
Proof. pose proof (Nat.mod_upper_bound i 8). lia. Qed.

Lemma is_byte_lor b k : is_byte b -> 0 <= k < 8 -> is_byte (Z.lor b (Z.shiftl 1 k)).
Proof.
  intros Hb Hk. assert (Hs : 0 <= Z.shiftl 1 k < 2 ^ 8).
  { rewrite Z.shiftl_1_l. split; [lia|]. apply Z.pow_lt_mono_r; lia. }
  assert (H0 : 0 <= Z.lor b (Z.shiftl 1 k)) by (apply Z.lor_nonneg; unfold is_byte in *; lia).
  assert (E : Z.lor b (Z.shiftl 1 k) = Z.lor b (Z.shiftl 1 k) mod 2 ^ 8).
  { apply Z.bits_inj_iff'. intros n Hn. destruct (Z.lt_ge_cases n 8).
    - by rewrite Z.mod_pow2_bits_low.
    - rewrite Z.mod_pow2_bits_high by lia. rewrite Z.lor_spec.
      rewrite <- (Z.mod_small b (2 ^ 8)), <- (Z.mod_small (Z.shiftl 1 k) (2 ^ 8))
        by (unfold is_byte in *; lia).
      by rewrite !Z.mod_pow2_bits_high by lia. }
  unfold is_byte. rewrite E. change 256 with (2 ^ 8). apply Z.mod_pos_bound. lia.
Qed.

Lemma same_byte_bit (i j : nat) :
  (i / 8 = j / 8)%nat -> 7 - Z.of_nat (i mod 8) = 7 - Z.of_nat (j mod 8) -> i = j.
Proof.
  intros Hd Hm. rewrite (Nat.div_mod_eq i 8), (Nat.div_mod_eq j 8), Hd.
  assert (i mod 8 = j mod 8)%nat as -> by lia. done.
Qed.

(** Setting one bit sets that bit. *)
Lemma state_bit_set st i j :
  (i / 8 < length st)%nat ->
  state_bit (alter (fun b => Z.lor b (Z.shiftl 1 (7 - Z.of_nat (i mod 8)))) (i / 8)%nat st) j =
  state_bit st j || bool_decide (i = j).
Proof.
  intros Hi. unfold state_bit. destruct (decide (i / 8 = j / 8)%nat) as [E|E].
  - rewrite <- E, list_lookup_alter_eq. destruct (lookup_lt_is_Some_2 st (i / 8)%nat Hi) as [b Hb].
    rewrite Hb. simpl. rewrite Z.lor_spec. f_equal.
    rewrite Z.shiftl_1_l, Z.pow2_bits_eqb by apply bit_index.
    destruct (decide (i = j)) as [->|Hne].
    + by rewrite Z.eqb_refl, bool_decide_eq_true_2.
    + rewrite bool_decide_eq_false_2 by done. apply Z.eqb_neq. intros H. by apply Hne, same_byte_bit.
  - rewrite list_lookup_alter_ne by done. rewrite bool_decide_eq_false_2 by (by intros ->).
    by rewrite orb_false_r.
Qed.

Lemma mark_all_spec t m peers st i :
  (i + length peers <= 8 * length st)%nat -> Forall is_byte st ->
  let st' := mark_all t m st i peers in
  length st' = length st /\ Forall is_byte st' /\
  forall j, state_bit st' j =
    state_bit st j ||
    (bool_decide (i <= j)%nat &&
     match peers !! (j - i)%nat with Some id => is_online t id m | None => false end).
Proof.
  revert st i. induction peers as [|id peers IH]; intros st i Hl Hb.
  { simpl. split; [done|]. split; [done|]. intros j. by rewrite andb_false_r, orb_false_r. }
  cbn [mark_all]. simpl in Hl.
  assert (Hi : (i / 8 < length st)%nat) by (apply Nat.Div0.div_lt_upper_bound; lia).
  assert (Hm : length (mark_online t m st i id) = length st /\
    Forall is_byte (mark_online t m st i id) /\
    forall j, state_bit (mark_online t m st i id) j =
      state_bit st j || (bool_decide (i = j) && is_online t id m)).
  { unfold mark_online. destruct (is_online t id m).
    - split; [apply length_alter|]. split.
      + apply Forall_alter; [done|]. intros b _ Hbb. apply is_byte_lor; [done|apply bit_index].
      + intros j. rewrite state_bit_set by done. by rewrite andb_true_r.
    - split; [done|]. split; [done|]. intros j. by rewrite andb_false_r, orb_false_r. }
  destruct Hm as (Hm1 & Hm2 & Hm3).
  destruct (IH (mark_online t m st i id) (S i)) as (H1 & H2 & H3); [rewrite Hm1; lia|done|].
  split; [by rewrite H1|]. split; [done|]. intros j. rewrite H3, Hm3, <- orb_assoc. f_equal.
  destruct (decide (i = j)) as [->|Hne].
  - rewrite (bool_decide_eq_true_2 (j = j)), (bool_decide_eq_false_2 (S j <= j)%nat),
      (bool_decide_eq_true_2 (j <= j)%nat), Nat.sub_diag by lia.
    simpl. by rewrite orb_false_r.
  - rewrite (bool_decide_eq_false_2 (i = j)) by done. simpl.
    destruct (decide (i <= j)%nat) as [Hle|Hle].
    + rewrite !bool_decide_eq_true_2 by lia. by replace (j - i)%nat with (S (j - S i)) by lia.
    + by rewrite !bool_decide_eq_false_2 by lia.
Qed.

(** C37: the online bitmap has one bit per requested peer, in the order asked, most
    significant bit of each byte first; a bit is set exactly when that peer registered
    within the last 30 seconds; the bits left over in the last byte are clear. *)
Theorem online_bitmap_correct t (peers : list string) (m : PeerMap) :
  let st := peers_online_state t peers m in
  length st = ((length peers + 7) / 8)%nat /\ Forall is_byte st /\
  forall i, state_bit st i =
    match peers !! i with Some id => is_online t id m | None => false end.
Proof.
  unfold peers_online_state. cbv zeta.
  destruct (mark_all_spec t m peers (replicate ((length peers + 7) / 8) 0) 0) as (H1 & H2 & H3).
  - rewrite length_replicate. pose proof (Nat.div_mod_eq (length peers + 7) 8).
    pose proof (Nat.mod_upper_bound (length peers + 7) 8). lia.
  - apply Forall_replicate. unfold is_byte. lia.
  - split; [by rewrite H1, length_replicate|]. split; [done|]. intros i.
    rewrite H3, bool_decide_eq_true_2, Nat.sub_0_r by lia.
    assert (state_bit (replicate ((length peers + 7) / 8) 0) i = false) as ->; [|done].
    unfold state_bit. destruct (_ !! _) as [b|] eqn:E; [|done].
    apply lookup_replicate in E as [-> _]. apply Z.bits_0.
Qed.

Section Routing.
  Context {hbb : HbbCommon} {netlib : IpNetworkLib} {v4net : Ipv4NetworkLib}
    {trig : FloatTrig} {mm : MaxMind} {sodium : Sodium} {json : InfoJson} {jwt : JwtLib}
    {proto : RendezvousProto}.

(** ** Punch-hole requests *)

(** Who may ask: anyone with the server's key, if it has one, and, where login is
    required, with a token, verified where there is a secret to verify it with. *)
Definition may_punch (env : Env) (s : Server) (ph : PunchHoleRequest) (key : string) : Prop :=
  (key = "" \/ ph_licence_key ph = key) /\
  (MUST_LOGIN s = true ->
   ph_token ph <> "" /\
   (SECRET s = "" \/
    exists claims, verify_token (SECRET s) (unix_now env) (unix_now env) (ph_token ph) = Ok claims)).

Lemma str_is_empty_false (x : string) : str_is_empty x = false <-> x <> "".
Proof. rewrite <- str_is_empty_true. by destruct (str_is_empty x). Qed.

Lemma str_nonempty_false (x : string) : str_nonempty x = false <-> x = "".
Proof. by destruct x. Qed.

Lemma punch_gate_spec env s ph key :
  punch_gate env s ph key = None <-> may_punch env s ph key.
Proof.
  assert (Hlogin :
    (if MUST_LOGIN s then
       if str_is_empty (ph_token ph) then Some (refusal None "Connection failed, please login!")
       else if str_nonempty (SECRET s) &&
               negb (is_ok (verify_token (SECRET s) (unix_now env) (unix_now env) (ph_token ph)))
       then Some (refusal None "Token error, please log out and log back in!") else None
     else None) = None <->
    (MUST_LOGIN s = true -> ph_token ph <> "" /\ (SECRET s = "" \/ exists claims,
       verify_token (SECRET s) (unix_now env) (unix_now env) (ph_token ph) = Ok claims))).
  { destruct (MUST_LOGIN s); [|by split].
    destruct (str_is_empty (ph_token ph)) eqn:Et; [apply str_is_empty_true in Et; naive_solver|].
    apply str_is_empty_false in Et.
    destruct (str_nonempty (SECRET s)) eqn:Es; cbn [andb];
      [apply str_nonempty_true in Es|apply str_nonempty_false in Es; naive_solver].
    destruct (verify_token _ _ _ _); simpl; naive_solver. }
  unfold punch_gate, may_punch. rewrite <- Hlogin.
  destruct (str_nonempty key) eqn:Ek; cbn [andb];
    [apply str_nonempty_true in Ek|apply str_nonempty_false in Ek; naive_solver].
  case_bool_decide; cbn [negb]; naive_solver.
Qed.

(** A peer that has just been read from the database last registered an hour ago. *)
Lemma expired_is_offline t : elapsed_millis t (get_expired_time t) = 3600000.
Proof.
  unfold get_expired_time. unfold_time.
  replace (t - (t - 3600 * 1000000000)) with (3600000 * 1000000) by lia.
  rewrite Z.max_r by lia. by apply Z.div_mul.
Qed.

Lemma is_online_cell t id m :
  is_online t id m =
  match cell m id with
  | Some p => elapsed_millis t (last_reg_time p) <? REG_TIMEOUT
  | None => false
  end.
Proof.
  unfold is_online, cell, get_in_memory. by destruct (pm_map m !! id) as [l|]; simpl.
Qed.

(** The peer [get] gives, seen through the server's memory before the call. *)
Lemma pm_get_online env t id m l m1 :
  pm_wf m -> pm_get env t id m = (Some l, m1) ->
  exists p, pm_heap m1 !! l = Some p /\
    if REG_TIMEOUT <=? elapsed_millis t (last_reg_time p)
    then is_online t id m = false
    else is_online t id m = true /\ socket_addr <$> cell m id = Some (socket_addr p).
Proof.
  intros Hwf. unfold pm_get. destruct (pm_map m !! id) as [l0|] eqn:E.
  - intros [= <- <-]. destruct (wf_cell _ Hwf _ _ E) as [p Hp]. exists p. split; [done|].
    rewrite is_online_cell. assert (cell m id = Some p) as -> by (apply cell_Some; eauto).
    destruct (_ <=? _) eqn:El; [apply Z.leb_le in El; apply Z.ltb_ge; lia|].
    apply Z.leb_gt in El. split; [apply Z.ltb_lt; lia|done].
  - destruct (db_get_peer _ _ _) as [[v|]|]; [|done..]. simpl. intros [= <- <-]. simpl.
    exists (peer_of_row t v). rewrite lookup_insert_eq. split; [done|].
    unfold peer_of_row. cbn [last_reg_time peer_default]. rewrite expired_is_offline.
    cbn [Z.leb]. unfold REG_TIMEOUT. simpl. rewrite is_online_cell. by rewrite (cell_unfiled _ _ E).
Qed.

(** The outcome of a request, in terms of what may be asked and who is online. *)
Lemma punch_outcome env addr ph key ws s :
  pm_wf (pm s) ->
  match (result_of (handle_punch_hole_request env addr ph key ws) s).2 with
  | Some to =>
      may_punch env s ph key /\ is_online (now env) (ph_id ph) (pm s) = true /\
      socket_addr <$> cell (pm s) (ph_id ph) = Some to
  | None => ~ (may_punch env s ph key /\ is_online (now env) (ph_id ph) (pm s) = true)
  end.
Proof.
  intros Hwf. unfold handle_punch_hole_request. rewrite result_bind.
  change (result_of (gets ?f) s) with (f s). change (after (gets ?f) s) with s. cbv beta.
  destruct (punch_gate env s ph key) as [msg|] eqn:Eg.
  { cbn. intros [Hm _]. apply punch_gate_spec in Hm. congruence. }
  apply punch_gate_spec in Eg. cbv zeta. rewrite result_bind.
  destruct (on_pm_run (pm_get (db_env env) (now env) (ph_id ph)) s) as [E1 E2].
  rewrite E1, E2. clear E1 E2.
  destruct (pm_get (db_env env) (now env) (ph_id ph) (pm s)) as [[l|] m1] eqn:El; cbn [fst snd].
  - destruct (pm_get_online _ _ _ _ _ _ Hwf El) as (p & Hp & Hon).
    rewrite result_bind.
    assert (E1 : result_of (with_peer l (fun p => p)) (set_pm m1 s) = Some p).
    { unfold result_of, with_peer, gets. cbn. by rewrite Hp. }
    rewrite E1. change (default (peer_default (now env)) (Some p)) with p.
    destruct (REG_TIMEOUT <=? _).
    + cbn. intros [_ H]. congruence.
    + rewrite !result_bind. cbn [snd]. change ((result_of (mret (?a, ?b)) ?x).2) with b.
      done.
  - assert (En : (pm_get (db_env env) (now env) (ph_id ph) (pm s)).1 = None) by by rewrite El.
    apply pm_get_none in En as [_ En]. cbn. intros [_ H].
    rewrite is_online_cell, (cell_unfiled _ _ En) in H. done.
Qed.

(** C17: a punch-hole request is passed on exactly when its sender may ask, by key and
    by login, and the peer it names registered within the last 30 seconds; it is then
    addressed to where that peer registered from.  Otherwise the answer goes back to
    the asker and nothing is passed on. *)
Theorem punch_forwarded_iff_allowed env addr ph key ws s :
  pm_wf (pm s) ->
  match (result_of (handle_punch_hole_request env addr ph key ws) s).2 with
  | Some to =>
      may_punch env s ph key /\ is_online (now env) (ph_id ph) (pm s) = true /\
      socket_addr <$> cell (pm s) (ph_id ph) = Some to
  | None => ~ (may_punch env s ph key /\ is_online (now env) (ph_id ph) (pm s) = true)
  end.
Proof. apply punch_outcome. Qed.

(** ** The UDP dispatcher *)

Lemma emits_nothing {A} (m : M A) s : emits (fun _ => False) m -> sent m s = [].
Proof. intros H. specialize (H s). by destruct H. Qed.

Lemma register_silent env rk addr ws : emits (fun _ => False) (handle_register_pk env rk addr ws).
Proof.
  unfold handle_register_pk, with_peer. handler_auto.
  intros s. unfold sent, ip_allowed. destruct (check_ip_blocker _ _ _ _). constructor.
Qed.

Lemma update_addr_silent env id addr : emits (fun _ => False) (update_addr env id addr).
Proof. unfold update_addr. handler_auto. Qed.

Lemma udp_send_sent env msg addr s :
  sent (udp_send env msg addr) s = if udp_ok env msg addr then [SendUdp msg addr] else [].
Proof. unfold udp_send. by destruct (udp_ok env msg addr). Qed.

(** A datagram to this address. *)
Definition datagram_to (addr : SocketAddr) (e : Effect) : Prop := exists msg, e = SendUdp msg addr.

(** C27: a datagram makes the server send at most two datagrams, both to the address it
    came from, and nothing else: a forged source cannot have the server write to a
    third party that the datagram names. *)
Theorem udp_answers_only_the_sender env valid bytes addr s :
  (length (sent (handle_udp env valid bytes addr) s) <= 2)%nat /\
  Forall (datagram_to addr) (sent (handle_udp env valid bytes addr) s).
Proof.
  unfold handle_udp.
  destruct (parse_from_bytes bytes) as [[rp|rk| | | |cu|url| | | | | | | | | | | | |]|]; try by split; [simpl; lia|].
  - destruct (id_ok _); [|by split; [simpl; lia|]].
    rewrite !sent_bind, (emits_nothing _ _ (update_addr_silent _ _ _)), udp_send_sent. simpl.
    destruct (result_of (udp_send _ _ _) _).
    + rewrite sent_bind. change (sent (gets ?f) ?x) with (@nil Effect). cbn [app].
      destruct (_ <? _).
      * rewrite udp_send_sent. repeat case_match; simpl; (split; [lia|repeat constructor; by eexists]).
      * case_match; simpl; (split; [lia|repeat constructor; by eexists]).
    + rewrite app_nil_r. case_match; simpl; (split; [lia|repeat constructor; by eexists]).
  - rewrite sent_bind, (emits_nothing _ _ (register_silent _ _ _ _)). simpl.
    destruct (result_of _ _); [|by split; [simpl; lia|]].
    rewrite udp_send_sent. case_match; simpl; (split; [lia|repeat constructor; by eexists]).
  - rewrite sent_bind. change (sent (gets ?f) ?x) with (@nil Effect). cbn [app].
    destruct (_ && _); [|by split; [simpl; lia|]].
    rewrite udp_send_sent. case_match; simpl; (split; [lia|repeat constructor; by eexists]).
Qed.

(** The server's configuration: its serial number and the rendezvous servers. *)
Definition configuration (s : Server) : Inner * list string := (inner s, rendezvous_servers s).

Lemma preserves_configuration_register c env rk addr ws :
  preserves (fun s => configuration s = c) (handle_register_pk env rk addr ws).
Proof.
  unfold handle_register_pk, with_peer. handler_auto.
  - intros s Hs. unfold after, ip_allowed. by destruct (check_ip_blocker _ _ _ _).
  - by apply preserves_on_pm.
  - by apply preserves_on_pm.
  - by apply preserves_modify.
  - by apply preserves_on_pm.
Qed.

Lemma preserves_configuration_udp c env valid bytes addr :
  (forall cu, parse_from_bytes bytes <> Some (MConfigureUpdate cu)) ->
  preserves (fun s => configuration s = c) (handle_udp env valid bytes addr).
Proof.
  intros Hno. unfold handle_udp, update_addr, udp_send.
  pose proof preserves_configuration_register.
  destruct (parse_from_bytes bytes) as [[]|] eqn:E; handler_auto.
  - by apply preserves_on_pm.
  - by destruct (Hno cu).
Qed.

(** No datagram changes the configuration, except a configuration update that
    comes from the machine itself and carries a greater serial number; it sets that
    serial number, keeps only servers that are valid, and changes nothing else. *)
Theorem configuration_only_from_loopback env valid bytes addr s :
  let s' := after (handle_udp env valid bytes addr) s in
  configuration s' = configuration s \/
  exists cu, parse_from_bytes bytes = Some (MConfigureUpdate cu) /\
    is_loopback (socket_ip (try_into_v4 addr)) = true /\
    serial (inner s) < cu_serial cu /\
    inner s' = set_serial (cu_serial cu) (inner s) /\
    Forall (fun x => x <> "" /\ valid x = true) (rendezvous_servers s') /\
    rendezvous_servers s' ⊆ cu_rendezvous_servers cu /\ pm s' = pm s.
Proof.
  cbv zeta. destruct (parse_from_bytes bytes) as [msg|] eqn:E.
  2: { left. by apply preserves_configuration_udp; [rewrite E|]. }
  destruct msg; try (left; by apply preserves_configuration_udp; [rewrite E|]).
  unfold handle_udp. rewrite E, after_bind. change (after (mret true) ?x) with x.
  change (after (modify ?f) s) with (f s). cbv beta.
  destruct (_ && _) eqn:Ea; [right|by left].
  apply andb_true_iff in Ea as [Ha Hs]. apply Z.ltb_lt in Hs.
  exists cu. split; [done|]. split; [done|]. split; [done|]. split; [done|]. simpl. split.
  - apply Forall_forall. intros x Hx. apply list_elem_of_In, List.filter_In in Hx as [_ Hx].
    apply andb_true_iff in Hx as [Hx Hv]. by apply str_nonempty_true in Hx.
  - split; [|done]. intros x Hx. apply list_elem_of_In, List.filter_In in Hx as [Hx _].
    by apply list_elem_of_In.
Qed.

End Routing.
