(* ===== verification/Connection.v ===== *)
(** * Connections of the rendezvous server ([handle_listener_inner] and its like)

    A TCP connection is a small state machine: it may be offered a key exchange, whose
    second phase can only be its first frame, and from then on everything is encrypted
    both ways.  A websocket connection lives in a task of its own, registers itself so
    that others can push messages to it, and takes its entry back when it ends.  The
    read loops are given frame by frame; running out of frames is the end of the loop
    (the peer closed, the stream broke, or the read timed out). *)

From S2P Require Import Prelude RustStr Net External RelayRoutes RelayGeo RelaySelect.
From S2P Require Import RateLimit Guards PeerStore Jwt Rendezvous.
From Stdlib Require Import Ascii.

Local Open Scope Z_scope.

Definition WS_IDLE_TIMEOUT_DEFAULT_SEC : Z := 90.
Definition WS_PING_INTERVAL_MS : Z := 30000.

Section Connection.
  Context {hbb : HbbCommon} {netlib : IpNetworkLib} {v4net : Ipv4NetworkLib}
    {trig : FloatTrig} {mm : MaxMind} {sodium : Sodium} {json : InfoJson} {jwt : JwtLib}
    {proto : RendezvousProto}.

(** ** TCP *)

(** The loop's variables: the write half (until a request moves it away), the secret of
    the offered key exchange (for one frame), what incoming frames are decrypted with, and
    the settings in the task's copy of the server. *)
Record TcpConn := mkTcpConn {
  tc_sink : option Sink;
  tc_handshake : option BoxSecret;
  tc_recv : option Crypt;
  tc_config : ConfigUpdate;
}.

(** [key_exchange_phase1]; [sk_b] is the fresh secret key. *)
Definition key_exchange_phase1 (sk_b : BoxSecret) (sink : option Sink)
    : M (option BoxSecret * option Sink) :=
  key ← gets (fun s => sk (inner s));
  match key with
  | None => mret (None, sink)
  | Some key =>
      sink ← send_to_sink sink (MKeyExchange [sign (box_public sk_b) key]);
      mret (Some sk_b, sink)
  end.

Definition tcp_open (conn : Z) (sk_b : BoxSecret) (key : string) : M TcpConn :=
  cfg ← gets config_update;
  let sink := Some (mkSink conn false None) in
  if str_nonempty key then
    r ← key_exchange_phase1 sk_b sink;
    mret (mkTcpConn r.2 r.1 None cfg)
  else mret (mkTcpConn sink None None cfg).

(** What the connection's first frame means when a key exchange was offered. *)
Inductive Phase2 := NotAnExchange | BadExchange | Agreed (key : SymKey).

Definition phase2 (sk_b : BoxSecret) (bytes : Bytes) : Phase2 :=
  match parse_from_bytes bytes with
  | Some (MKeyExchange keys) =>
      match keys with
      | [k0; k1] => match encrypt_decode k1 k0 sk_b with
                    | Some key => Agreed key
                    | None => BadExchange
                    end
      | _ => BadExchange
      end
  | _ => NotAnExchange
  end.

(** One turn of the loop: whether it goes on, and its variables. *)
Definition tcp_frame (env : Env) (addr : SocketAddr) (key : string) (c : TcpConn) (bytes : Bytes)
    : M (bool * TcpConn) :=
  match (match tc_recv c with
         | Some cr => let! (b, cr') := crypt_dec cr bytes in Some (b, Some cr')
         | None => Some (bytes, None)
         end) with
  | None => mret (false, c)
  | Some (bytes, recv) =>
      let dispatch :=
        r ← handle_tcp (as_task (tc_config c) env) bytes (tc_sink c) addr key false None;
        mret (r.1, mkTcpConn r.2 None recv (tc_config c)) in
      match tc_handshake c with
      | None => dispatch
      | Some sk_b =>
          match phase2 sk_b bytes with
          | NotAnExchange => dispatch
          | BadExchange => mret (false, mkTcpConn (tc_sink c) None recv (tc_config c))
          | Agreed sym =>
              mret (true, mkTcpConn (sink_set_key sym <$> tc_sink c) None (Some (crypt_new sym)) (tc_config c))
          end
      end
  end.

(** The loop over the frames that arrive. *)
Fixpoint tcp_loop (addr : SocketAddr) (key : string) (c : TcpConn) (frames : list (Env * Bytes))
    : M TcpConn :=
  match frames with
  | [] => mret c
  | (env, bytes) :: frames =>
      r ← tcp_frame env addr key c bytes;
      if (r.1 : bool) then tcp_loop addr key r.2 frames else mret r.2
  end.

(** After the loop: a sink that was moved away is taken back out. *)
Definition tcp_end (addr : SocketAddr) (c : TcpConn) : M unit :=
  match tc_sink c with
  | None => _ ← take_tcp_punch addr; mret tt
  | Some _ => mret tt
  end.

Definition handle_tcp_connection (conn : Z) (sk_b : BoxSecret) (addr : SocketAddr) (key : string)
    (frames : list (Env * Bytes)) : M unit :=
  c ← tcp_open conn sk_b key;
  c ← tcp_loop addr key c frames;
  tcp_end addr c.

(** ** Websocket *)

(** The address a connection is known by: the proxy's header, taken as it is, or the
    socket's. *)
Definition ws_real_addr (real_ip : option string) (addr : SocketAddr) : SocketAddr :=
  match real_ip with
  | None => addr
  | Some ip =>
      if contains_char "." ip then
        match parse_ip ip with Some (V4 a) => SocketV4 a 0 | _ => addr end
      else
        let '(host, scope) := match split_once "%" ip with
                              | Some (h, sc) => (h, parse_unsigned u32_max sc)
                              | None => (ip, Some 0)
                              end in
        match parse_ip host, scope with
        | Some (V6 a), Some sc => SocketV6 a 0 0 sc
        | _, _ => addr
        end
  end.

(** The task of a websocket connection. *)
Record WsConn := mkWsConn {
  wc_addr : SocketAddr;
  wc_ctx : WsPeer;
  wc_sink : option Sink;
  wc_last_seen : Instant;
  wc_config : ConfigUpdate;
}.

(** What wakes the task: a message pushed to it, a frame, the end of the stream, or
    nothing for the polling time. *)
Inductive WsEvent :=
| WsPushed (msg : RendezvousMessage)
| WsBinary (bytes : Bytes)
| WsOtherFrame
| WsClosed
| WsQuiet.

(** One turn of the websocket loop: [None] when it ends.  A ping is a transport frame
    and changes nothing here. *)
Definition ws_turn (env : Env) (key : string) (idle_timeout_ms : Z) (c : WsConn) (e : WsEvent)
    : M (option WsConn) :=
  match e with
  | WsPushed msg =>
      sink ← send_to_sink (wc_sink c) msg;
      mret (Some (mkWsConn (wc_addr c) (wc_ctx c) sink (wc_last_seen c) (wc_config c)))
  | WsBinary bytes =>
      r ← handle_tcp (as_task (wc_config c) env) bytes (wc_sink c) (wc_addr c) key true (Some (wc_ctx c));
      let c' := mkWsConn (wc_addr c) (wc_ctx c) r.2 (now env) (wc_config c) in
      mret (if (r.1 : bool) then Some c' else None)
  | WsOtherFrame => mret (Some (mkWsConn (wc_addr c) (wc_ctx c) (wc_sink c) (now env) (wc_config c)))
  | WsClosed => mret None
  | WsQuiet =>
      mret (if idle_timeout_ms <=? elapsed_millis (now env) (wc_last_seen c) then None else Some c)
  end.

(** [WsPeerGuard::drop]: the entry goes only if it is still this connection's. *)
Definition guard_drop (addr : SocketAddr) (conn : Z) (peers : gmap SocketAddr WsPeer)
    : gmap SocketAddr WsPeer :=
  match peers !! addr with
  | Some p => if wp_conn p =? conn then delete addr peers else peers
  | None => peers
  end.

(** ** The server with its websocket tasks *)

Record WsSystem := mkWsSystem {
  sys_server : Server;
  WS_CONN_SERIAL : Z;
  sys_conns : gmap Z WsConn;
}.

(** The task's variables are dropped: the guard, then the channel's receiver. *)
Definition ws_finish (conn : Z) (c : WsConn) (sys : WsSystem) : WsSystem :=
  let s := sys_server sys in
  mkWsSystem
    (set_ws (guard_drop (try_into_v4 (wc_addr c)) (wp_conn (wc_ctx c)) (ws_peers s))
       (ws_open s ∖ {[wp_tx (wc_ctx c)]}) s)
    (WS_CONN_SERIAL sys) (delete conn (sys_conns sys)).

Inductive SysEvent :=
| EvConnect (real_ip : option string) (addr : SocketAddr) (t : Instant)
| EvWs (conn : Z) (env : Env) (key : string) (idle_timeout_ms : Z) (e : WsEvent)
| EvUdp (env : Env) (valid : string -> bool) (bytes : Bytes) (addr : SocketAddr)
| EvTcp (env : Env) (bytes : Bytes) (sink : option Sink) (addr : SocketAddr) (key : string).

Definition sys_step (sys : WsSystem) (e : SysEvent) : WsSystem :=
  let s := sys_server sys in
  match e with
  | EvConnect real_ip addr t =>
      let conn := WS_CONN_SERIAL sys in
      let c := mkWsConn (ws_real_addr real_ip addr) (mkWsPeer conn conn)
                 (Some (mkSink conn true None)) t (config_update s) in
      mkWsSystem (set_ws (ws_peers s) ({[conn]} ∪ ws_open s) s) (wrap64 (conn + 1))
        (<[conn := c]> (sys_conns sys))
  | EvWs conn env key idle ev =>
      match sys_conns sys !! conn with
      | None => sys
      | Some c =>
          let '(r, s', _) := ws_turn env key idle c ev s in
          match r with
          | Some c' => mkWsSystem s' (WS_CONN_SERIAL sys) (<[conn := c']> (sys_conns sys))
          | None => ws_finish conn c (mkWsSystem s' (WS_CONN_SERIAL sys) (sys_conns sys))
          end
      end
  | EvUdp env valid bytes addr =>
      mkWsSystem (handle_udp env valid bytes addr s).1.2 (WS_CONN_SERIAL sys) (sys_conns sys)
  | EvTcp env bytes sink addr key =>
      mkWsSystem (handle_tcp env bytes sink addr key false None s).1.2 (WS_CONN_SERIAL sys)
        (sys_conns sys)
  end.

(** ** The NAT-test and console port *)

(** [handle_online_request]. *)
Definition handle_online_request (t : Instant) (s : Server) (peers : list string) : RendezvousMessage :=
  MOnlineResponse (peers_online_state t peers (pm s)).

(** What [handle_listener2] answers over the protocol; [None] for nothing. *)
Definition listener2_reply (t : Instant) (s : Server) (addr : SocketAddr) (bytes : Bytes)
    : option RendezvousMessage :=
  match parse_from_bytes bytes with
  | Some (MTestNatRequest _) => Some (MTestNatResponse (socket_port addr) None)
  | Some (MOnlineRequest peers) => Some (handle_online_request t s peers)
  | _ => None
  end.

End Connection.
