(* ===== verification/RoundTrip.v ===== *)
(** * Requests and their answers

    A session between two clients takes several messages: the asker's request goes on to the
    peer, and the peer's answer, which arrives on another connection and possibly much later,
    has to find its way back to the asker.  What holds the way open is the asker's sink in
    [tcp_punch].  Here the handlers are composed: a request, anything else that happens on the
    server meanwhile, and the answer. *)

From S2P Require Import Prelude RustStr Net External RelayRoutes RelayGeo RelaySelect.
From S2P Require Import RateLimit Guards PeerStore Jwt Rendezvous HandlerLogic.
From S2P Require Import RendezvousFacts RoutingFacts Connection.

Local Open Scope Z_scope.

Section RoundTrip.
  Context {hbb : HbbCommon} {netlib : IpNetworkLib} {v4net : Ipv4NetworkLib}
    {trig : FloatTrig} {mm : MaxMind} {sodium : Sodium} {json : InfoJson} {jwt : JwtLib}
    {proto : RendezvousProto}.

(** ** The way back *)

(** Whoever answers to [a] reaches the sink [k]. *)
Definition route (a : SocketAddr) (k : Sink) (s : Server) : Prop :=
  tcp_punch s !! a = Some k /\ ws_peers s !! a = None.

(** What else happens: a message to one of the dispatchers, the end of a TCP connection (closed,
    failed, or without a frame for 30 seconds), a websocket that opens, one that ends. *)
Inductive Meanwhile :=
| MwInput (env : Env) (i : Input)
| MwTcpEnd (addr : SocketAddr) (c : TcpConn)
| MwWsOpen (tx : Z)
| MwWsEnd (addr : SocketAddr) (ctx : WsPeer).

Definition run_meanwhile (s : Server) (m : Meanwhile) : Server :=
  match m with
  | MwInput env i => run_input s (env, i)
  | MwTcpEnd addr c => after (tcp_end addr c) s
  | MwWsOpen tx => set_ws (ws_peers s) ({[tx]} ∪ ws_open s) s
  | MwWsEnd addr ctx =>
      set_ws (guard_drop (try_into_v4 addr) (wp_conn ctx) (ws_peers s)) (ws_open s ∖ {[wp_tx ctx]}) s
  end.

(** Nothing of it comes from [a] or is addressed to it, and it is not [a]'s connection that
    ends. *)
Definition elsewhere (a : SocketAddr) (m : Meanwhile) : Prop :=
  match m with
  | MwTcpEnd addr _ => try_into_v4 addr <> a
  | MwWsOpen _ | MwWsEnd _ _ => True
  | MwInput _ (InUdp _ _ _) => True
  | MwInput _ (InTcp bytes _ addr _ _ _) =>
      try_into_v4 addr <> a /\
      match parse_from_bytes bytes with
      | Some (MPunchHoleSent phs) => try_into_v4 (AddrMangle_decode (phs_socket_addr phs)) <> a
      | Some (MLocalAddr la) => try_into_v4 (AddrMangle_decode (la_socket_addr la)) <> a
      | Some (MRelayResponse rr) => try_into_v4 (AddrMangle_decode (rr_socket_addr rr)) <> a
      | _ => True
      end
  end.

Section Route.
  Context (a : SocketAddr) (k : Sink).

Lemma route_on_pm {A} (f : PeerMap -> A * PeerMap) : preserves (route a k) (on_pm f).
Proof. intros s Hs. unfold after, on_pm. by destruct (f (pm s)). Qed.

Lemma route_on_selector {A} (f : Selector -> A * Selector) : preserves (route a k) (on_selector f).
Proof. intros s Hs. unfold after, on_selector. by destruct (f (relay_servers s)). Qed.

Lemma route_ip_allowed env ip id : preserves (route a k) (ip_allowed env ip id).
Proof. intros s Hs. unfold after, ip_allowed. by destruct (check_ip_blocker _ _ _ _). Qed.

Lemma route_push addr msg : preserves (route a k) (push_to_ws_peer addr msg).
Proof.
  intros s [Ht Hw]. unfold after, push_to_ws_peer.
  destruct (ws_peers s !! try_into_v4 addr); [|done]. case_bool_decide; [done|].
  split; [done|]. simpl. apply lookup_delete_None. by right.
Qed.

Lemma route_take addr : try_into_v4 addr <> a -> preserves (route a k) (take_tcp_punch addr).
Proof. intros Hne s [Ht Hw]. split; [|done]. simpl. by rewrite lookup_delete_ne. Qed.

Lemma route_register_ws addr ctx : try_into_v4 addr <> a -> preserves (route a k) (register_ws_peer addr ctx).
Proof. intros Hne s [Ht Hw]. split; [done|]. simpl. by rewrite lookup_insert_ne. Qed.

Lemma route_keep_sink addr k' :
  try_into_v4 addr <> a ->
  preserves (route a k) (modify (fun s => set_tcp_punch (<[try_into_v4 addr := k']> (tcp_punch s)) s)).
Proof. intros Hne s [Ht Hw]. split; [|done]. simpl. by rewrite lookup_insert_ne. Qed.

Lemma route_sink_send k' msg : preserves (route a k) (sink_send k' msg).
Proof. unfold sink_send. handler_auto. Qed.

Lemma route_send_to_sink sink msg : preserves (route a k) (send_to_sink sink msg).
Proof. unfold send_to_sink. pose proof route_sink_send. handler_auto. Qed.

Lemma route_send_to_tcp msg addr : try_into_v4 addr <> a -> preserves (route a k) (send_to_tcp msg addr).
Proof.
  intros Hne. unfold send_to_tcp. pose proof route_push. pose proof (route_take addr Hne).
  pose proof route_send_to_sink. handler_auto.
Qed.

#[local] Hint Resolve route_on_pm route_on_selector route_ip_allowed route_push route_take
  route_register_ws route_send_to_sink route_send_to_tcp : handlers.

Lemma route_register env rk addr ws : preserves (route a k) (handle_register_pk env rk addr ws).
Proof. unfold handle_register_pk, with_peer. handler_auto. all: by apply preserves_modify. Qed.

Lemma route_update_addr env id addr : preserves (route a k) (update_addr env id addr).
Proof. unfold update_addr. handler_auto. Qed.

Lemma route_get_pk env ver id : preserves (route a k) (get_pk env ver id).
Proof. unfold get_pk, with_peer. handler_auto. Qed.

Lemma route_get_relay env pa pb : preserves (route a k) (get_relay_server env pa pb).
Proof. unfold get_relay_server. handler_auto. Qed.

Lemma route_punch env addr ph key ws : preserves (route a k) (handle_punch_hole_request env addr ph key ws).
Proof.
  unfold handle_punch_hole_request, punch_message, with_peer, is_lan. pose proof route_get_relay.
  handler_auto. by apply preserves_modify.
Qed.

Lemma route_leave addr sink ctx :
  try_into_v4 addr <> a -> preserves (route a k) (leave_route_back addr sink ctx).
Proof. intros Hne. unfold leave_route_back. pose proof route_keep_sink. handler_auto. Qed.

Lemma route_register_if_ws addr ctx : try_into_v4 addr <> a -> preserves (route a k) (register_if_ws addr ctx).
Proof. intros Hne. unfold register_if_ws. handler_auto. Qed.

#[local] Hint Resolve route_register route_update_addr route_get_pk route_get_relay route_punch
  route_leave route_register_if_ws : handlers.

Lemma route_udp env valid bytes addr : preserves (route a k) (handle_udp env valid bytes addr).
Proof.
  unfold handle_udp, udp_send. handler_auto. apply preserves_modify. intros s Hs. by case_match.
Qed.

Lemma route_tcp env bytes sink addr key ws ctx :
  elsewhere a (MwInput env (InTcp bytes sink addr key ws ctx)) ->
  preserves (route a k) (handle_tcp env bytes sink addr key ws ctx).
Proof.
  intros [Ha Hm]. unfold handle_tcp.
  destruct (parse_from_bytes bytes) as [[]|]; try by apply preserves_ret.
  all: unfold handle_tcp_punch_hole_request, forward_relay_request, handle_relay_response,
    handle_hole_sent, handle_local_addr, is_lan; handler_auto.
Qed.

Lemma route_meanwhile l s :
  Forall (elsewhere a) l -> route a k s -> route a k (foldl run_meanwhile s l).
Proof.
  intros Hl. revert s. induction Hl as [|m l Hm Hl IH]; intros s Hs; [done|].
  apply IH. destruct m as [env [valid bytes addr|bytes sink addr key ws ctx]|addr c|tx|addr ctx].
  - by apply (route_udp env valid bytes addr).
  - by apply (route_tcp env bytes sink addr key ws ctx).
  - simpl. unfold tcp_end. destruct (tc_sink c); [done|]. exact (route_take addr Hm s Hs).
  - done.
  - destruct Hs as [Ht Hw]. split; [done|]. simpl. unfold guard_drop.
    destruct (ws_peers s !! try_into_v4 addr); [|done]. destruct (_ =? _); [|done].
    apply lookup_delete_None. by right.
Qed.

End Route.

(** ** Requests *)

(** The message tells the peer who asks. *)
Definition asks_for (addr : SocketAddr) (msg : RendezvousMessage) : Prop :=
  (exists relay, msg = MFetchLocalAddr (mkFetchLocalAddr (AddrMangle_encode addr) relay)) \/
  (exists nat relay, msg = MPunchHole (mkPunchHole (AddrMangle_encode addr) nat relay)).

(** It is passed to the peer at [to]: over the websocket the registry has under that address if
    it is open, and otherwise by the main loop, which sends it there by UDP. *)
Definition passed_to (s : Server) (to : SocketAddr) (msg : RendezvousMessage) (es : list Effect) : Prop :=
  match ws_peers s !! try_into_v4 to with
  | Some p => es = if bool_decide (wp_tx p ∈ ws_open s) then [SendWs (wp_tx p) msg] else [SendData (DMsg msg to)]
  | None => es = [SendData (DMsg msg to)]
  end.

(** The frame that reaches the connection of the sink. *)
Definition delivered (k : Sink) (msg : RendezvousMessage) (es : list Effect) : Prop :=
  match write_to_bytes msg with
  | None => es = []
  | Some bytes => es = [SendSink (sink_conn k) (sink_ws k) msg
      (match sink_encrypt k with Some c => (crypt_enc c bytes).1 | None => bytes end)]
  end.

Lemma sent_ret {A} (x : A) s : sent (mret x) s = [].
Proof. done. Qed.

Lemma sink_send_delivered k msg s : delivered k msg (sent (sink_send k msg) s).
Proof.
  unfold delivered, sink_send. destruct (write_to_bytes msg) as [b|]; [|done].
  destruct (sink_encrypt k) as [c|]; [|done]. by destruct (crypt_enc c b).
Qed.

(** An answer finds the sink that was left. *)
Lemma send_to_tcp_delivered msg addr k s :
  route (try_into_v4 addr) k s -> delivered k msg (sent (send_to_tcp msg addr) s).
Proof.
  intros [Ht Hw]. unfold send_to_tcp. rewrite sent_bind.
  assert (E : push_to_ws_peer addr msg s = (false, s, [])) by (unfold push_to_ws_peer; by rewrite Hw).
  unfold sent at 1, result_of, after. rewrite E. cbn [fst snd app].
  rewrite sent_bind. unfold sent at 1, result_of at 1, after at 1, take_tcp_punch. rewrite Ht. cbn [fst snd app].
  rewrite sent_bind, sent_ret, app_nil_r. unfold send_to_sink. rewrite sent_bind, sent_ret, app_nil_r.
  apply sink_send_delivered.
Qed.

Lemma push_passed to msg s :
  passed_to s to msg (sent (pushed ← push_to_ws_peer to msg;
                            when (negb pushed) (emit (SendData (DMsg msg to)))) s).
Proof.
  rewrite sent_bind. unfold sent, result_of, after, push_to_ws_peer, passed_to.
  destruct (ws_peers s !! _) as [p|]; [|done]. by case_bool_decide.
Qed.

(** The registry stays as it is while the peer is looked for. *)
Definition registry_is (w : gmap SocketAddr WsPeer) (o : gset Z) (s : Server) : Prop :=
  ws_peers s = w /\ ws_open s = o.

Lemma registry_punch w o env addr ph key ws :
  preserves (registry_is w o) (handle_punch_hole_request env addr ph key ws).
Proof.
  assert (Hp : forall A (f : PeerMap -> A * PeerMap), preserves (registry_is w o) (on_pm f)).
  { intros A f s Hs. unfold after, on_pm. by destruct (f (pm s)). }
  assert (Hs : forall A (f : Selector -> A * Selector), preserves (registry_is w o) (on_selector f)).
  { intros A f s Hs. unfold after, on_selector. by destruct (f (relay_servers s)). }
  unfold handle_punch_hole_request, punch_message, with_peer, is_lan, get_relay_server. handler_auto.
  by apply preserves_modify.
Qed.

Lemma passed_same s s' to msg es :
  registry_is (ws_peers s) (ws_open s) s' -> passed_to s' to msg es -> passed_to s to msg es.
Proof. intros [E1 E2]. unfold passed_to. by rewrite E1, E2. Qed.

Lemma punch_message_asks env addr to ph ws s :
  asks_for addr (result_of (punch_message env addr to ph ws) s).
Proof.
  unfold punch_message. rewrite !result_bind. change (result_of (mret ?x) ?y) with x. cbv zeta.
  unfold asks_for. set (b := result_of (is_lan to) s). case_match; eauto.
Qed.

Lemma punch_hole_asks env addr ph key ws s :
  match result_of (handle_punch_hole_request env addr ph key ws) s with
  | (msg, Some _) => asks_for addr msg
  | _ => True
  end.
Proof.
  unfold handle_punch_hole_request. rewrite result_bind.
  destruct (result_of (gets _) s); [done|]. cbv zeta. rewrite result_bind.
  destruct (result_of (on_pm _) _) as [l|]; [|done]. rewrite result_bind.
  destruct (REG_TIMEOUT <=? _); [done|]. rewrite !result_bind.
  change (result_of (mret ?x) ?y) with x. apply punch_message_asks.
Qed.

Lemma punch_hole_silent env addr ph key ws s :
  sent (handle_punch_hole_request env addr ph key ws) s = [].
Proof.
  apply emits_nothing. unfold handle_punch_hole_request, punch_message, with_peer, is_lan, get_relay_server.
  handler_auto.
Qed.

Lemma leave_route_sink a k s :
  ws_peers s !! try_into_v4 a = None ->
  let m := leave_route_back a (Some k) None in
  result_of m s = None /\ sent m s = [] /\ route (try_into_v4 a) k (after m s) /\
  after m s = set_tcp_punch (<[try_into_v4 a := k]> (tcp_punch s)) s.
Proof. intros Hw m. repeat split; [|done]. apply lookup_insert_eq. Qed.

(** A request that may be made, from a client that keeps its connection: it is passed on, and
    the way back to that connection is open. *)
Lemma tcp_request_passed env req ph k a key s :
  parse_from_bytes req = Some (MPunchHoleRequest ph) -> pm_wf (pm s) ->
  may_punch env s ph key -> is_online (now env) (ph_id ph) (pm s) = true ->
  ws_peers s !! try_into_v4 a = None ->
  let r := handle_tcp env req (Some k) a key false None in
  exists to msg, socket_addr <$> cell (pm s) (ph_id ph) = Some to /\ asks_for a msg /\
    passed_to s to msg (sent r s) /\ result_of r s = (true, None) /\
    route (try_into_v4 a) k (after r s).
Proof.
  intros Hp Hwf Hmay Hon Hw r. destruct (leave_route_sink a k s Hw) as (E1 & E2 & E3 & E4).
  set (s1 := after (leave_route_back a (Some k) None) s) in *.
  assert (Hs1 : pm s1 = pm s /\ MUST_LOGIN s1 = MUST_LOGIN s /\ SECRET s1 = SECRET s) by by rewrite E4.
  destruct Hs1 as (Epm & Eml & Esec).
  pose proof (punch_outcome env a ph key false s1) as Ho.
  pose proof (punch_hole_asks env a ph key false s1) as Hask.
  pose proof (punch_hole_silent env a ph key false s1) as Hsil.
  pose proof (route_punch (try_into_v4 a) k env a ph key false s1 E3) as Hroute.
  assert (Hmay1 : may_punch env s1 ph key) by (unfold may_punch in *; by rewrite Eml, Esec).
  rewrite Epm in Ho. specialize (Ho Hwf).
  destruct (result_of (handle_punch_hole_request env a ph key false) s1) as [msg [to|]] eqn:Er;
    [|by destruct Ho].
  destruct Ho as (_ & _ & Hto). exists to, msg. split; [done|]. split; [done|].
  set (h := pushed ← push_to_ws_peer to msg; when (negb pushed) (emit (SendData (DMsg msg to)))).
  set (s2 := after (handle_punch_hole_request env a ph key false) s1) in *.
  assert (Hr : r = (sink ← leave_route_back a (Some k) None;
    handle_tcp_punch_hole_request env a ph key false;; mret (true, sink))).
  { unfold r, handle_tcp. by rewrite Hp. }
  assert (Ha : after r s = after h s2).
  { rewrite Hr, after_bind. fold s1. rewrite after_bind. change (after (mret ?x) ?y) with y.
    unfold handle_tcp_punch_hole_request. rewrite after_bind. fold s2. by rewrite Er. }
  split; [|split].
  - rewrite Hr, sent_bind, E2. fold s1. rewrite sent_bind, sent_ret, app_nil_r.
    unfold handle_tcp_punch_hole_request. rewrite sent_bind, Hsil, Er. fold s2. eapply passed_same; [|apply push_passed].
    apply registry_punch. by rewrite E4.
  - rewrite Hr, result_bind, E1, result_bind. done.
  - rewrite Ha. unfold h. apply (preserves_bind (route (try_into_v4 a) k)); [apply route_push| |done].
    intros b. handler_auto.
Qed.

(** The peer's answer is delivered. *)
Lemma hole_sent_delivered env ans phs k sink b key ws ctx s :
  parse_from_bytes ans = Some (MPunchHoleSent phs) ->
  route (try_into_v4 (AddrMangle_decode (phs_socket_addr phs))) k s ->
  delivered k (MPunchHoleResponse (mkPunchHoleResponse (AddrMangle_encode b)
      (result_of (get_pk env (phs_version phs) (phs_id phs)) s) None (phs_relay_server phs) ""
      (if nat_type_known (phs_nat_type phs) then Some (phs_nat_type phs) else None) false))
    (sent (handle_tcp env ans sink b key ws ctx) s).
Proof.
  intros Hp Hr. unfold handle_tcp. rewrite Hp. rewrite sent_bind, sent_ret, app_nil_r.
  unfold handle_hole_sent. rewrite sent_bind.
  assert (sent (get_pk env (phs_version phs) (phs_id phs)) s = []) as ->.
  { apply emits_nothing. unfold get_pk, with_peer. handler_auto. }
  cbn [app]. cbv zeta. apply send_to_tcp_delivered. by apply route_get_pk.
Qed.


(** ** Relayed sessions *)

(** A request for a relayed session to a peer the server has in memory. *)
Lemma tcp_relay_passed env req rf k a key to s :
  parse_from_bytes req = Some (MRequestRelay rf) ->
  socket_addr <$> cell (pm s) (rf_id rf) = Some to -> ws_peers s !! try_into_v4 a = None ->
  let r := handle_tcp env req (Some k) a key false None in
  passed_to s to (MRequestRelay (mkRequestRelay (rf_id rf) (AddrMangle_encode a) (rf_uuid rf)
    (rf_licence_key rf) (rf_other rf))) (sent r s) /\
  result_of r s = (true, None) /\ route (try_into_v4 a) k (after r s).
Proof.
  intros Hp Hto Hw r. destruct (leave_route_sink a k s Hw) as (E1 & E2 & E3 & E4).
  set (s1 := after (leave_route_back a (Some k) None) s) in *.
  set (msg := MRequestRelay _).
  set (h := pushed ← push_to_ws_peer to msg; when (negb pushed) (emit (SendData (DMsg msg to)))).
  assert (Hr : r = (sink ← leave_route_back a (Some k) None;
    forward_relay_request a rf;; mret (true, sink))).
  { unfold r, handle_tcp. by rewrite Hp. }
  assert (Hg : (l ← get_in_memory (rf_id rf) (pm s1); socket_addr <$> pm_heap (pm s1) !! l) = Some to).
  { rewrite E4. simpl. unfold cell in Hto. unfold get_in_memory.
    by destruct (pm_map (pm s) !! rf_id rf). }
  assert (Hf : sent (forward_relay_request a rf) s1 = sent h s1 /\
    after (forward_relay_request a rf) s1 = after h s1).
  { unfold forward_relay_request. rewrite sent_bind, after_bind.
    change (result_of (gets ?f) s1) with (f s1). change (after (gets ?f) s1) with s1. cbv beta.
    by rewrite Hg. }
  destruct Hf as [Hf1 Hf2]. split; [|split].
  - rewrite Hr, sent_bind, E2. fold s1. rewrite sent_bind, sent_ret, app_nil_r, Hf1.
    eapply passed_same; [|apply push_passed]. by rewrite E4.
  - rewrite Hr, result_bind, E1, result_bind. done.
  - rewrite Hr, after_bind. fold s1. rewrite after_bind. change (after (mret ?x) ?y) with y.
    rewrite Hf2. apply (preserves_bind (route (try_into_v4 a) k)); [apply route_push| |done].
    intros b. handler_auto.
Qed.

(** Who the asker is told the peer is: the signed key of a peer that names itself. *)
Definition union_named (env : Env) (rr : RelayResponse) (s : Server) : IdOrPk :=
  match rr_union rr with
  | RrId id => if str_nonempty id then RrPk (result_of (get_pk env (rr_version rr) id) s) else rr_union rr
  | u => u
  end.

(** The relay it is told: the server itself for an asker in its own network, the relay that the
    selector gives where the peer named the server, and the one the peer named otherwise. *)
Definition relay_named (env : Env) (rr : RelayResponse) (addr : SocketAddr) (s : Server) : string :=
  let to := AddrMangle_decode (rr_socket_addr rr) in
  if str_is_empty (rr_relay_server rr) then rr_relay_server rr
  else if is_lan_at (inner s) to then local_ip (inner s)
  else if bool_decide (rr_relay_server rr = local_ip (inner s))
  then pick_relay (pick (now env) (now env) (socket_ip addr) (socket_ip to) true (relay_servers s)).1
  else rr_relay_server rr.

(** The peer's answer is delivered. *)
Lemma relay_response_delivered env ans rr k sink b key ws ctx s :
  parse_from_bytes ans = Some (MRelayResponse rr) ->
  route (try_into_v4 (AddrMangle_decode (rr_socket_addr rr))) k s ->
  delivered k (MRelayResponse (mkRelayResponse "" (union_named env rr s) (relay_named env rr b s)
      (rr_version rr) (rr_other rr))) (sent (handle_tcp env ans sink b key ws ctx) s).
Proof.
  intros Hp Hr. unfold handle_tcp. rewrite Hp. rewrite sent_bind, sent_ret, app_nil_r.
  unfold handle_relay_response. cbv zeta. set (to := AddrMangle_decode (rr_socket_addr rr)) in *.
  set (id := match rr_union rr with RrId id => id | _ => "" end).
  set (m1 := if str_nonempty id then _ else _).
  assert (Hm1 : sent m1 s = [] /\ route (try_into_v4 to) k (after m1 s) /\
    (inner (after m1 s) = inner s /\ relay_servers (after m1 s) = relay_servers s)).
  { split; [|split].
    - apply emits_nothing. unfold m1, get_pk, with_peer. handler_auto.
    - assert (H : preserves (route (try_into_v4 to) k) m1); [|by apply H].
      pose proof route_get_pk. unfold m1. handler_auto.
    - assert (H : preserves (fun s' => inner s' = inner s /\ relay_servers s' = relay_servers s) m1); [|by apply H].
      unfold m1, get_pk, with_peer. handler_auto. all: apply preserves_on_pm; by intros. }
  destruct Hm1 as (E1 & Hr1 & Ei & Es). rewrite sent_bind, E1. cbn [app].
  set (s1 := after m1 s) in *. set (union := result_of m1 s).
  rewrite sent_bind. change (result_of (gets ?f) s1) with (f s1). change (after (gets ?f) s1) with s1.
  change (sent (gets ?f) s1) with (@nil Effect). cbn [app]. cbv beta. rewrite Ei.
  rewrite sent_bind. unfold is_lan at 1 2 3.
  change (result_of (gets ?f) s1) with (f s1). change (after (gets ?f) s1) with s1.
  change (sent (gets ?f) s1) with (@nil Effect). cbn [app]. cbv beta. rewrite Ei.
  rewrite sent_bind. set (m2 := if str_nonempty (rr_relay_server rr) then _ else _).
  assert (E2 : sent m2 s1 = []).
  { apply emits_nothing. unfold m2, get_relay_server. handler_auto. }
  assert (Hr2 : route (try_into_v4 to) k (after m2 s1)).
  { assert (H : preserves (route (try_into_v4 to) k) m2); [|by apply H].
    pose proof route_get_relay. unfold m2. handler_auto. }
  assert (E3 : result_of m2 s1 = relay_named env rr b s).
  { unfold m2, relay_named. fold to. unfold str_is_empty.
    destruct (str_nonempty (rr_relay_server rr)); [|done]. cbn [negb]. destruct (is_lan_at (inner s) to); [done|].
    case_bool_decide; [|done]. unfold get_relay_server. rewrite result_bind. unfold result_of, on_selector.
    rewrite Es. by destruct (pick _ _ _ _ _ _) as [p' s']. }
  assert (E4 : union = union_named env rr s).
  { unfold union, m1, id, union_named. destruct (rr_union rr) as [i| |]; try done.
    destruct (str_nonempty i); [|done]. by rewrite result_bind. }
  rewrite E2, E3, E4. cbn [app]. by apply send_to_tcp_delivered.
Qed.


End RoundTrip.
