(* ===== verification/PunchRace.v ===== *)
(** * Punch-hole requests that overlap ([handle_tcp] and [handle_punch_hole_request] of
    [src/src/rendezvous_server.rs], [PeerMap::get] of [src/src/peer.rs])

    Every connection is served by a task of its own, and a punch-hole request gives up the
    server at each lock and at the database: between leaving a way back to the asker, finding
    the peer, reading its record, noting the request and passing it on, anything else may
    happen, to the peer's record, to the registry of websockets, to the settings.  Here a
    request is its stretches between those points, any number of requests are under way, and
    in between the server may change in any way at all.  What the code does without a pause but
    on data that other threads share (the gate, the message, the push to a websocket) are
    separate stretches here, which only adds orders. *)

From S2P Require Import Prelude RustStr Net External RelayRoutes RelayGeo RelaySelect.
From S2P Require Import RateLimit Guards PeerStore Jwt Rendezvous RegRace HandlerLogic.
From S2P Require Import RendezvousFacts RoutingFacts RoundTrip.

Local Open Scope Z_scope.

(** ** Handlers that do the same *)

Section Programs.
  Context {hbb : HbbCommon} {netlib : IpNetworkLib} {v4net : Ipv4NetworkLib}
    {trig : FloatTrig} {mm : MaxMind} {sodium : Sodium} {json : InfoJson} {jwt : JwtLib}
    {proto : RendezvousProto}.

(** The same result, server and effects from every server. *)
Definition does_same {A} : relation (M A) := pointwise_relation Server eq.

#[export] Instance does_same_equiv {A} : Equivalence (@does_same A).
Proof.
  split.
  - by intros m s.
  - intros m n H s. by rewrite H.
  - intros a b c H1 H2 s. by rewrite H1.
Qed.

#[export] Instance bind_does_same {A B} :
  Proper (pointwise_relation A does_same ==> does_same ==> does_same) (mbind (M := M) (A := A) (B := B)).
Proof.
  intros f g Hf m n Hm s. unfold mbind, M_bind. rewrite Hm. destruct (n s) as [[a s1] e1].
  by rewrite (Hf a s1).
Qed.

Lemma bind_assoc {A B C} (m : M A) (f : A -> M B) (g : B -> M C) :
  does_same ((m ≫= f) ≫= g) (m ≫= (fun a => f a ≫= g)).
Proof.
  intros s. unfold mbind, M_bind. destruct (m s) as [[a s1] e1].
  destruct (f a s1) as [[b s2] e2]. destruct (g b s2) as [[c s3] e3]. by rewrite app_assoc.
Qed.

Lemma ret_bind {A B} (a : A) (f : A -> M B) : does_same (mret a ≫= f) (f a).
Proof. intros s. unfold mbind, M_bind, mret, M_ret. by destruct (f a s) as [[b s1] e1]. Qed.

Lemma bind_ret {A} (m : M A) : does_same (m ≫= mret) m.
Proof. intros s. unfold mbind, M_bind, mret, M_ret. destruct (m s) as [[a s1] e1]. by rewrite app_nil_r. Qed.

Lemma bind_ext {A B} (m : M A) (f g : A -> M B) :
  (forall a, does_same (f a) (g a)) -> does_same (m ≫= f) (m ≫= g).
Proof. intros H. by apply bind_does_same. Qed.

End Programs.

(** ** A request under way *)

Section PunchRace.
  Context {hbb : HbbCommon} {netlib : IpNetworkLib} {v4net : Ipv4NetworkLib}
    {trig : FloatTrig} {mm : MaxMind} {sodium : Sodium} {json : InfoJson} {jwt : JwtLib}
    {proto : RendezvousProto}.

(** The request, and the connection it came on. *)
Record Punch := mkPunch {
  pq_req : PunchHoleRequest;
  pq_addr : SocketAddr;
  pq_key : string;
  pq_ws : bool;
  pq_sink : option Sink;
  pq_ctx : option WsPeer;
}.

(** What its task is about to do. *)
Inductive PTask :=
| PStart (r : Punch)                                (** leave a way back *)
| PGate (r : Punch)                                 (** check the key and the login *)
| PLook (r : Punch)                                 (** look for the peer in the map *)
| PFetch (r : Punch)                                (** and in the database *)
| PFile (r : Punch) (p : Peer)                      (** file the peer found there *)
| PRead (r : Punch) (l : Loc)                       (** read the peer's record *)
| PRecord (r : Punch) (to : SocketAddr)             (** note the request *)
| PBuild (r : Punch) (to : SocketAddr)              (** write the message to the peer *)
| PForward (r : Punch) (to : SocketAddr) (msg : RendezvousMessage) (** pass it on *)
| PRefuse (r : Punch) (msg : RendezvousMessage)     (** refuse, over the asker's websocket *)
| PRefuseTcp (r : Punch) (msg : RendezvousMessage)  (** or over its TCP connection *)
| PDone (r : Punch) (to : option SocketAddr).       (** passed on, or refused *)

(** One uninterrupted stretch. *)
Definition punch_step (env : Env) (t : PTask) : M PTask :=
  match t with
  | PStart r =>
      leave_route_back (pq_addr r) (pq_sink r) (pq_ctx r);; mret (PGate r)
  | PGate r =>
      gate ← gets (fun s => punch_gate env s (pq_req r) (pq_key r));
      mret (match gate with Some msg => PRefuse r msg | None => PLook r end)
  | PLook r =>
      found ← gets (fun s => pm_map (pm s) !! ph_id (pq_req r));
      mret (match found with Some l => PRead r l | None => PFetch r end)
  | PFetch r =>
      row ← gets (fun s => db_get_peer (can_read (db_env env)) (ph_id (pq_req r)) (pm_db (pm s)));
      mret (match row with
            | Ok (Some v) => PFile r (peer_of_row (now env) v)
            | _ => PRefuse r (refusal (Some ID_NOT_EXIST) "")
            end)
  | PFile r p => l ← on_pm (file_peer (ph_id (pq_req r)) p); mret (PRead r l)
  | PRead r l =>
      p ← with_peer l (fun p => p);
      let p := default (peer_default (now env)) p in
      mret (if REG_TIMEOUT <=? elapsed_millis (now env) (last_reg_time p)
            then PRefuse r (refusal (Some OFFLINE) "") else PRecord r (socket_addr p))
  | PRecord r to =>
      modify (fun s => set_guards (ip_blocker s) (ip_changes s)
        (record_punch_req (PUNCH_REQ_MAX s) (now env)
           (show_ip (socket_ip (try_into_v4 (pq_addr r))))
           (show_ip (socket_ip (try_into_v4 to))) (ph_id (pq_req r)) (punch_reqs s)) s);;
      mret (PBuild r to)
  | PBuild r to =>
      msg ← punch_message env (pq_addr r) to (pq_req r) (pq_ws r);
      mret (PForward r to msg)
  | PForward r to msg =>
      pushed ← push_to_ws_peer to msg;
      when (negb pushed) (emit (SendData (DMsg msg to)));;
      mret (PDone r (Some to))
  | PRefuse r msg =>
      pushed ← push_to_ws_peer (pq_addr r) msg;
      mret (if (pushed : bool) then PDone r None else PRefuseTcp r msg)
  | PRefuseTcp r msg =>
      sink ← take_tcp_punch (pq_addr r);
      send_to_sink sink msg;;
      mret (PDone r None)
  | PDone _ _ => mret t
  end.

(** ** Alone, a request is the handler's *)

Fixpoint run_punch (n : nat) (env : Env) (t : PTask) : M PTask :=
  match n with
  | O => mret t
  | S n => t ← punch_step env t; run_punch n env t
  end.

Lemma run_done n env r o : does_same (run_punch n env (PDone r o)) (mret (PDone r o)).
Proof.
  induction n as [|n IH]; [done|]. cbn [run_punch punch_step]. by rewrite ret_bind.
Qed.

(** The task when the handler has answered. *)
Definition punch_answered (r : Punch) (a : RendezvousMessage * option SocketAddr) : PTask :=
  PDone r a.2.

(** The end of [handle_tcp_punch_hole_request]. *)
Definition punch_reply (r : Punch) (a : RendezvousMessage * option SocketAddr) : M unit :=
  match a with
  | (msg, Some to) =>
      pushed ← push_to_ws_peer to msg;
      when (negb pushed) (emit (SendData (DMsg msg to)))
  | (msg, None) => send_to_tcp_sync msg (pq_addr r)
  end.

Lemma run_refuse n env r msg :
  does_same (run_punch (S (S n)) env (PRefuse r msg))
    (punch_reply r (msg, None);; mret (PDone r None)).
Proof.
  cbn [run_punch punch_step punch_reply]. unfold send_to_tcp_sync. rewrite !bind_assoc.
  apply bind_ext. intros [|].
  - rewrite !ret_bind. cbn [punch_step]. by rewrite ret_bind, run_done.
  - rewrite ret_bind. cbn [punch_step]. rewrite !bind_assoc. apply bind_ext. intros k.
    rewrite !bind_assoc. apply bind_ext. intros k'. by rewrite !ret_bind, run_done.
Qed.

(** From the record on. *)
Lemma run_read n env r l :
  does_same (run_punch (S (S (S (S n)))) env (PRead r l))
    (p ← with_peer l (fun p => p);
     let p := default (peer_default (now env)) p in
     let peer_addr := socket_addr p in
     a ← (if REG_TIMEOUT <=? elapsed_millis (now env) (last_reg_time p)
          then mret (refusal (Some OFFLINE) "", None)
          else
            modify (fun s => set_guards (ip_blocker s) (ip_changes s)
              (record_punch_req (PUNCH_REQ_MAX s) (now env)
                 (show_ip (socket_ip (try_into_v4 (pq_addr r))))
                 (show_ip (socket_ip (try_into_v4 peer_addr))) (ph_id (pq_req r)) (punch_reqs s)) s);;
            msg ← punch_message env (pq_addr r) peer_addr (pq_req r) (pq_ws r);
            mret (msg, Some peer_addr));
     punch_reply r a;; mret (punch_answered r a)).
Proof.
  cbn [run_punch punch_step]. rewrite bind_assoc. apply bind_ext. intros p. cbv zeta.
  rewrite ret_bind. destruct (REG_TIMEOUT <=? _).
  - rewrite ret_bind. exact (run_refuse (S n) env r _).
  - cbn [punch_step]. rewrite !bind_assoc. apply bind_ext. intros []. rewrite ret_bind. cbn [punch_step].
    rewrite !bind_assoc. apply bind_ext. intros msg. rewrite !ret_bind. cbn [punch_step punch_reply].
    rewrite !bind_assoc. apply bind_ext. intros b. rewrite !bind_assoc.
    apply bind_ext. intros []. by rewrite ret_bind, run_done.
Qed.

Lemma set_pm_same s : set_pm (pm s) s = s.
Proof. by destruct s. Qed.

(** A read, and what follows on the same server. *)
Lemma gets_bind {A B} (f : Server -> A) (g : A -> M B) s : (gets f ≫= g) s = g (f s) s.
Proof. unfold mbind, M_bind, gets. by destruct (g (f s) s) as [[b s1] e1]. Qed.

Lemma on_pm_bind {A B} (f : PeerMap -> A * PeerMap) (g : A -> M B) s :
  (on_pm f ≫= g) s = g (f (pm s)).1 (set_pm (f (pm s)).2 s).
Proof.
  unfold mbind, M_bind, on_pm. destruct (f (pm s)) as [a m]. cbn [fst snd].
  by destruct (g a (set_pm m s)) as [[b s1] e1].
Qed.

(** Looking in the map, then in the database, then filing is [get]. *)
Lemma run_look n env r :
  does_same (run_punch (S (S (S (S (S (S (S n))))))) env (PLook r))
    (l ← on_pm (pm_get (db_env env) (now env) (ph_id (pq_req r)));
     match l with
     | None => punch_reply r (refusal (Some ID_NOT_EXIST) "", None);; mret (PDone r None)
     | Some l => run_punch (S (S (S (S n)))) env (PRead r l)
     end).
Proof.
  intros s. rewrite on_pm_bind. unfold pm_get.
  change (run_punch (S ?m) env (PLook r)) with (punch_step env (PLook r) ≫= run_punch m env).
  cbn [punch_step]. rewrite bind_assoc, gets_bind, ret_bind.
  destruct (pm_map (pm s) !! ph_id (pq_req r)) as [l|] eqn:E; cbn [fst snd].
  { rewrite set_pm_same, (run_read n env r l s). exact (run_read (S (S n)) env r l s). }
  change (run_punch (S ?m) env (PFetch r)) with (punch_step env (PFetch r) ≫= run_punch m env).
  cbn [punch_step]. rewrite bind_assoc, gets_bind, ret_bind.
  destruct (db_get_peer _ _ _) as [[v|]|]; cbn [fst snd].
  - change (run_punch (S ?m) env (PFile r ?p)) with (punch_step env (PFile r p) ≫= run_punch m env).
    cbn [punch_step]. rewrite bind_assoc, on_pm_bind, ret_bind. unfold file_peer.
    destruct (alloc _ (pm s)) as [l m]. done.
  - rewrite set_pm_same. exact (run_refuse (S (S (S n))) env r _ s).
  - rewrite set_pm_same. exact (run_refuse (S (S (S n))) env r _ s).
Qed.

(** The whole of it. *)
Lemma run_alone env r :
  does_same (run_punch 9 env (PStart r))
    (leave_route_back (pq_addr r) (pq_sink r) (pq_ctx r);;
     a ← handle_punch_hole_request env (pq_addr r) (pq_req r) (pq_key r) (pq_ws r);
     punch_reply r a;; mret (punch_answered r a)).
Proof.
  change (run_punch 9 env (PStart r)) with (punch_step env (PStart r) ≫= run_punch 8 env).
  cbn [punch_step]. rewrite bind_assoc. apply bind_ext. intros _. rewrite ret_bind.
  change (run_punch 8 env (PGate r)) with (punch_step env (PGate r) ≫= run_punch 7 env).
  cbn [punch_step]. unfold handle_punch_hole_request.
  rewrite !bind_assoc. apply bind_ext. intros [msg|]; rewrite ret_bind.
  { rewrite ret_bind. exact (run_refuse 5 env r msg). }
  cbv zeta. rewrite (run_look 0), bind_assoc. apply bind_ext. intros [l|].
  - rewrite (run_read 0), bind_assoc. apply bind_ext. intros p. cbv zeta. done.
  - rewrite ret_bind. done.
Qed.

(** ** Any number of them *)

(** A stretch that was run: whose, with what clock and database, from which server and to
    which. *)
Record Moment := mkMoment {
  m_task : nat;
  m_env : Env;
  m_before : Server;
  m_after : Server;
}.

(** The tasks, the server, and the stretches run so far, the latest first. *)
Record PSys := mkPSys { ps_tasks : list PTask; ps_server : Server; ps_past : list Moment }.

Definition psys_start (s : Server) : PSys := mkPSys [] s [].

Definition finished (t : PTask) : bool := match t with PDone _ _ => true | _ => false end.

(** A request arrives, or one goes on with its next stretch, or anything else happens to the
    server. *)
Inductive punch_sched : PSys -> PSys -> Prop :=
| PS_arrive ts s past r : punch_sched (mkPSys ts s past) (mkPSys (ts ++ [PStart r]) s past)
| PS_step i t t' ts s s' past env out :
    ts !! i = Some t -> finished t = false -> punch_step env t s = (t', s', out) ->
    punch_sched (mkPSys ts s past) (mkPSys (<[i := t']> ts) s' (mkMoment i env s s' :: past))
| PS_other ts s s' past : punch_sched (mkPSys ts s past) (mkPSys ts s' past).

(** A task's own stretches. *)
Definition own (i : nat) (past : list Moment) : list Moment := filter (fun m => m_task m = i) past.

(** *** What was so at a moment *)

Definition gate_at (r : Punch) (m : Moment) : option RendezvousMessage :=
  punch_gate (m_env m) (m_before m) (pq_req r) (pq_key r).
(** The cell is the one filed under the peer's id. *)
Definition filed_at (r : Punch) (l : Loc) (m : Moment) : Prop :=
  pm_map (pm (m_after m)) !! ph_id (pq_req r) = Some l.
Definition absent_at (r : Punch) (m : Moment) : Prop :=
  pm_map (pm (m_before m)) !! ph_id (pq_req r) = None.
(** The database has no such peer, or cannot be read. *)
Definition unknown_at (r : Punch) (m : Moment) : Prop :=
  forall v, db_get_peer (can_read (db_env (m_env m))) (ph_id (pq_req r)) (pm_db (pm (m_before m)))
    <> Ok (Some v).
(** The peer of the cell registered within the last 30 seconds, from [to]. *)
Definition online_at (l : Loc) (to : SocketAddr) (m : Moment) : Prop :=
  exists p, pm_heap (pm (m_before m)) !! l = Some p /\ socket_addr p = to /\
    elapsed_millis (now (m_env m)) (last_reg_time p) < REG_TIMEOUT.
Definition offline_at (l : Loc) (m : Moment) : Prop :=
  forall p, pm_heap (pm (m_before m)) !! l = Some p ->
    REG_TIMEOUT <= elapsed_millis (now (m_env m)) (last_reg_time p).

(** *** What a task may be about to do, by its own stretches *)

(** The gate had let the request through. *)
Definition let_in (r : Punch) (past : list Moment) : Prop := exists g, g ∈ past /\ gate_at r g = None.

(** The peer was not in the map after that. *)
Definition missing (r : Punch) (past : list Moment) : Prop :=
  exists k past', k :: past' `suffix_of` past /\ let_in r past' /\ absent_at r k.

(** The cell was the peer's after that. *)
Definition found (r : Punch) (l : Loc) (past : list Moment) : Prop :=
  exists f past', f :: past' `suffix_of` past /\ let_in r past' /\ filed_at r l f.

(** And after that the peer was to be reached at [to]. *)
Definition reachable_peer (r : Punch) (to : SocketAddr) (past : list Moment) : Prop :=
  exists v l past', v :: past' `suffix_of` past /\ found r l past' /\ online_at l to v.

(** The refusal was due: at the gate, or for a peer nobody knows, or one that is away. *)
Inductive refusal_due (r : Punch) (past : list Moment) : RendezvousMessage -> Prop :=
| DueGate g msg : g ∈ past -> gate_at r g = Some msg -> refusal_due r past msg
| DueUnknown d past' : d :: past' `suffix_of` past -> missing r past' -> unknown_at r d ->
    refusal_due r past (refusal (Some ID_NOT_EXIST) "")
| DueOffline v l past' : v :: past' `suffix_of` past -> found r l past' -> offline_at l v ->
    refusal_due r past (refusal (Some OFFLINE) "").

Definition right (past : list Moment) (t : PTask) : Prop :=
  match t with
  | PStart _ | PGate _ => True
  | PLook r => let_in r past
  | PFetch r | PFile r _ => missing r past
  | PRead r l => found r l past
  | PRecord r to | PBuild r to | PDone r (Some to) => reachable_peer r to past
  | PForward r to msg => reachable_peer r to past /\ asks_for (pq_addr r) msg
  | PRefuse r msg | PRefuseTcp r msg => refusal_due r past msg
  | PDone r None => exists msg, refusal_due r past msg
  end.

(** How many stretches a task has left, at most. *)
Definition rank (t : PTask) : nat :=
  match t with
  | PStart _ => 9 | PGate _ => 8 | PLook _ => 7 | PFetch _ => 6 | PFile _ _ => 5 | PRead _ _ => 4
  | PRecord _ _ => 3 | PBuild _ _ | PRefuse _ _ => 2 | PForward _ _ _ | PRefuseTcp _ _ => 1
  | PDone _ _ => 0
  end.

(** The request of a task. *)
Definition request_of (t : PTask) : Punch :=
  match t with
  | PStart r | PGate r | PLook r | PFetch r | PFile r _ | PRead r _ | PRecord r _ | PBuild r _
  | PForward r _ _ | PRefuse r _ | PRefuseTcp r _ | PDone r _ => r
  end.

(** *** A stretch keeps it so *)

Lemma missing_cons r past m : missing r past -> missing r (m :: past).
Proof. intros (k & past' & H & R). exists k, past'. split; [by apply suffix_cons_r|done]. Qed.

Lemma reachable_cons r to past m : reachable_peer r to past -> reachable_peer r to (m :: past).
Proof. intros (v & l & past' & H & R). exists v, l, past'. split; [by apply suffix_cons_r|done]. Qed.

Lemma due_cons r msg past m : refusal_due r past msg -> refusal_due r (m :: past) msg.
Proof.
  intros [g msg' Hg|d past' H|v l past' H].
  - apply (DueGate _ _ g); [by apply elem_of_cons; right|done].
  - by eapply DueUnknown; [apply suffix_cons_r| |].
  - by eapply DueOffline; [apply suffix_cons_r| |].
Qed.

Lemma filed_found r l past m : let_in r past -> filed_at r l m -> found r l (m :: past).
Proof. intros Hg Hf. by exists m, past. Qed.

Lemma bind_inv {A B} (m : M A) (f : A -> M B) s b s2 e :
  (m ≫= f) s = (b, s2, e) ->
  exists a s1 e1 e2, m s = (a, s1, e1) /\ f a s1 = (b, s2, e2) /\ e = e1 ++ e2.
Proof.
  unfold mbind, M_bind. destruct (m s) as [[a s1] e1]. destruct (f a s1) as [[b' s2'] e2] eqn:E.
  intros [= <- <- <-]. eauto 10.
Qed.

(** A step is a read of the server and an answer. *)
Lemma gets_inv {A} (f : Server -> A) (g : A -> PTask) s t s' e :
  (a ← gets f; mret (g a)) s = (t, s', e) -> t = g (f s) /\ s' = s /\ e = [].
Proof. rewrite gets_bind. by intros [= <- <- <-]. Qed.

(** What a cell says of its peer: online, or not there or away. *)
Lemma cell_online env s l to i s' :
  let p := default (peer_default (now env)) ((fun p => p) <$> pm_heap (pm s) !! l) in
  (REG_TIMEOUT <=? elapsed_millis (now env) (last_reg_time p)) = false -> to = socket_addr p ->
  online_at l to (mkMoment i env s s').
Proof.
  intros p Hp ->. apply Z.leb_gt in Hp. unfold p, online_at in *. cbn [m_env m_before].
  destruct (pm_heap (pm s) !! l) as [q|]; [by exists q|]. cbn [default fmap option_fmap option_map last_reg_time peer_default] in Hp.
  rewrite expired_is_offline in Hp. by vm_compute in Hp.
Qed.

Lemma cell_offline env s l i s' :
  let p := default (peer_default (now env)) ((fun p => p) <$> pm_heap (pm s) !! l) in
  (REG_TIMEOUT <=? elapsed_millis (now env) (last_reg_time p)) = true ->
  offline_at l (mkMoment i env s s').
Proof. intros p Hp%Z.leb_le q Hq. unfold p in Hp. cbn [m_env m_before] in *. by rewrite Hq in Hp. Qed.

(** Filing puts the cell under the id. *)
Lemma file_peer_filed id p m : pm_map (file_peer id p m).2 !! id = Some (file_peer id p m).1.
Proof. unfold file_peer. destruct (alloc p m) as [l m']. apply lookup_insert_eq. Qed.

Lemma step_right i env t s t' s' out past :
  finished t = false -> punch_step env t s = (t', s', out) -> right past t ->
  right (mkMoment i env s s' :: past) t'.
Proof.
  destruct t as [r|r|r|r|r p|r l|r to|r to|r to msg|r msg|r msg|r o]; cbn [punch_step right]; intros Hf E R.
  - apply bind_inv in E as (? & ? & ? & ? & _ & [= <- <- <-] & _). done.
  - apply gets_inv in E as (-> & -> & _). destruct (punch_gate _ _ _ _) as [msg|] eqn:Eg; cbn [right].
    + by eapply DueGate; [left|].
    + eexists. split; [left|]. done.
  - apply gets_inv in E as (-> & -> & _). destruct (pm_map _ !! _) as [l|] eqn:El; cbn [right].
    + by apply filed_found.
    + by eexists _, past.
  - apply gets_inv in E as (-> & -> & _). destruct (db_get_peer _ _ _) as [[v|]|e] eqn:Ed; cbn [right].
    + by apply missing_cons.
    + eapply DueUnknown; [done..|]. intros v. cbn [m_env m_before]. by rewrite Ed.
    + eapply DueUnknown; [done..|]. intros v. cbn [m_env m_before]. by rewrite Ed.
  - rewrite on_pm_bind in E. injection E as <- <- <-. cbn [right]. apply filed_found.
    + destruct R as (k & past' & [pre ->] & (g & Hg & Eg) & _). exists g.
      split; [|done]. apply elem_of_app. right. by right.
    + apply file_peer_filed.
  - apply gets_inv in E as (-> & -> & _). destruct (REG_TIMEOUT <=? _) eqn:Et; cbn [right].
    + eapply DueOffline; [done..|]. by apply cell_offline.
    + eexists _, l, past. split_and!; [done..|]. by apply cell_online.
  - apply bind_inv in E as (? & ? & ? & ? & _ & [= <- <- <-] & _). by apply reachable_cons.
  - apply bind_inv in E as (msg & ? & ? & ? & Em & [= <- <- <-] & _). split; [by apply reachable_cons|].
    pose proof (punch_message_asks env (pq_addr r) to (pq_req r) (pq_ws r) s) as Ha.
    unfold result_of in Ha. by rewrite Em in Ha.
  - apply bind_inv in E as (? & ? & ? & ? & _ & E & _).
    apply bind_inv in E as (? & ? & ? & ? & _ & [= <- <- <-] & _). by apply reachable_cons, R.
  - apply bind_inv in E as ([] & ? & ? & ? & _ & [= <- <- <-] & _); cbn [right]; eauto using due_cons.
  - apply bind_inv in E as (? & ? & ? & ? & _ & E & _).
    apply bind_inv in E as (? & ? & ? & ? & _ & [= <- <- <-] & _). cbn [right]. eauto using due_cons.
  - done.
Qed.

(** Each stretch is one nearer to the end, and stays with its request. *)
Lemma step_rank env t s t' s' out :
  finished t = false -> punch_step env t s = (t', s', out) ->
  (rank t' < rank t)%nat /\ request_of t' = request_of t.
Proof.
  destruct t; cbn [punch_step]; intros Hf E; try done.
  all: repeat match type of E with
    | (gets _ ≫= _) _ = _ => apply gets_inv in E as (-> & -> & _)
    | (_ ≫= _) _ = _ => apply bind_inv in E as (? & ? & ? & ? & _ & E & _)
    | mret _ _ = _ => injection E as <- <- <-
    end.
  all: repeat case_match; cbn [rank request_of]; auto with lia.
Qed.

(** A refusal on the wire: over the open websocket the registry has under the asker's address,
    or else on the TCP connection that was left under it. *)
Definition refused_over_ws (s : Server) (r : Punch) (msg : RendezvousMessage) (es : list Effect) : Prop :=
  match ws_peers s !! try_into_v4 (pq_addr r) with
  | Some p => es = if bool_decide (wp_tx p ∈ ws_open s) then [SendWs (wp_tx p) msg] else []
  | None => es = []
  end.

Definition refused_over_tcp (s : Server) (r : Punch) (msg : RendezvousMessage) (es : list Effect) : Prop :=
  match tcp_punch s !! try_into_v4 (pq_addr r) with
  | Some k => delivered k msg es
  | None => es = []
  end.

(** What a stretch puts on the wire. *)
Definition speaks (s : Server) (t : PTask) (es : list Effect) : Prop :=
  match t with
  | PForward _ to msg => passed_to s to msg es
  | PRefuse r msg => refused_over_ws s r msg es
  | PRefuseTcp r msg => refused_over_tcp s r msg es
  | _ => es = []
  end.

Lemma step_speaks env t s t' s' out : punch_step env t s = (t', s', out) -> speaks s t out.
Proof.
  intros E. assert (Eo : out = sent (punch_step env t) s) by (unfold sent; by rewrite E). subst out. clear E.
  destruct t as [r|r|r|r|r p|r l|r to|r to|r to msg|r msg|r msg|r o]; cbn [punch_step speaks].
  1-8,12: apply emits_nothing; unfold leave_route_back, register_ws_peer, punch_message, with_peer, is_lan,
    get_relay_server; handler_auto.
  - pose proof (push_passed to msg s) as H. rewrite sent_bind in H. rewrite !sent_bind.
    by rewrite sent_ret, app_nil_r.
  - rewrite sent_bind, sent_ret, app_nil_r. unfold sent, push_to_ws_peer, refused_over_ws.
    destruct (ws_peers s !! _) as [p|]; [|done]. by case_bool_decide.
  - rewrite sent_bind, sent_bind, sent_ret, app_nil_r. unfold take_tcp_punch at 1, sent at 1. cbn [snd app].
    unfold result_of, after, take_tcp_punch, refused_over_tcp. cbn [fst snd].
    destruct (tcp_punch s !! _) as [k|]; [|done]. unfold send_to_sink.
    rewrite sent_bind, sent_ret, app_nil_r. apply sink_send_delivered.
Qed.

(** *** The tasks together *)

(** Every task is right by its own stretches, of which it has had at most nine. *)
Definition all_right (y : PSys) : Prop := forall i t, ps_tasks y !! i = Some t ->
  right (own i (ps_past y)) t /\ (length (own i (ps_past y)) + rank t <= 9)%nat.

(** No stretch is of a task that has not arrived. *)
Definition past_ok (y : PSys) : Prop := forall m, m ∈ ps_past y -> (m_task m < length (ps_tasks y))%nat.

Lemma own_new i past n : (forall m, m ∈ past -> (m_task m < n)%nat) -> (n <= i)%nat -> own i past = [].
Proof.
  intros H Hi. apply elem_of_nil_inv. intros m [E Hm]%list_elem_of_filter. apply H in Hm. lia.
Qed.

Lemma own_cons_same i env s s' past : own i (mkMoment i env s s' :: past) = mkMoment i env s s' :: own i past.
Proof. unfold own. by rewrite filter_cons_True. Qed.

Lemma own_cons_other i j env s s' past : i <> j -> own i (mkMoment j env s s' :: past) = own i past.
Proof. intros. unfold own. rewrite filter_cons_False; [done|]. by cbn [m_task]. Qed.

Lemma past_ok_step x y : punch_sched x y -> past_ok x -> past_ok y.
Proof.
  unfold past_ok. intros [ts s past r|i t t' ts s s' past env out Hi Hf E|] H m; cbn [ps_tasks ps_past] in *.
  - intros Hm. rewrite length_app. apply H in Hm. lia.
  - rewrite length_insert. intros [->|Hm]%elem_of_cons; [|auto]. cbn [m_task]. by eapply lookup_lt_Some.
  - auto.
Qed.

Lemma all_right_step x y : punch_sched x y -> past_ok x -> all_right x -> all_right y.
Proof.
  intros [ts s past r|i t t' ts s s' past env out Hi Hf E|] Hp H j u; unfold all_right, past_ok in *; cbn [ps_tasks ps_past] in *.
  - intros [Hj|[Hn Hj]]%lookup_app_Some; [by apply H|].
    apply list_lookup_singleton_Some in Hj as [_ <-]. by rewrite (own_new j past (length ts)).
  - intros [(-> & <- & _)|[Hne Hj]]%list_lookup_insert_Some.
    + destruct (H j t Hi) as [R L]. rewrite own_cons_same. cbn [length].
      destruct (step_rank _ _ _ _ _ _ Hf E). split; [by eapply step_right|lia].
    + rewrite own_cons_other by done. by apply H.
  - by apply H.
Qed.

Lemma all_right_reach s0 y : rtc punch_sched (psys_start s0) y -> all_right y.
Proof.
  cut (forall x, rtc punch_sched x y -> past_ok x -> all_right x -> all_right y).
  { intros H R. apply (H _ R).
    - by intros m Hm%elem_of_nil.
    - by intros i t [=]. }
  intros x R. induction R as [|x y z St R IH]; [done|].
  intros Hp H. apply IH; [by eapply past_ok_step|by eapply all_right_step].
Qed.

(** A request that runs alone is one of the orders. *)
Lemma alone_sched n env t s t' s' out past :
  run_punch n env t s = (t', s', out) ->
  exists past', rtc punch_sched (mkPSys [t] s past) (mkPSys [t'] s' past').
Proof.
  revert t s past out. induction n as [|n IH]; intros t s past out E.
  { injection E as <- <- <-. eexists. done. }
  destruct (finished t) eqn:Ef.
  { destruct t; try done. rewrite (run_done (S n) _ _ _ s) in E. injection E as <- <- <-. eexists. done. }
  apply bind_inv in E as (t1 & s1 & e1 & e2 & E1 & E & _).
  destruct (IH _ _ (mkMoment 0 env s s1 :: past) _ E) as [past' R]. exists past'.
  eapply rtc_l; [|exact R]. by apply (PS_step 0 t t1 [t] s s1 past env e1).
Qed.

(** The handler and its reply. *)
Lemma reply_does_same env r :
  does_same (handle_tcp_punch_hole_request env (pq_addr r) (pq_req r) (pq_key r) (pq_ws r))
    (handle_punch_hole_request env (pq_addr r) (pq_req r) (pq_key r) (pq_ws r) ≫= punch_reply r).
Proof. apply bind_ext. by intros [msg [to|]]. Qed.

(** ** Claims *)


(** A punch-hole request that nothing interrupts is handled by its stretches exactly as the
    connection's handler does it: nine of them give the server and the effects of [handle_tcp],
    and the request is then done, with the address it was passed on to. *)
Theorem punch_alone_is_the_handler (env : Env) (r : Punch) (bytes : Bytes) (s : Server) :
  parse_from_bytes bytes = Some (MPunchHoleRequest (pq_req r)) ->
  let '(t, s', out) := run_punch 9 env (PStart r) s in
  let '(a, s'', out') := handle_tcp env bytes (pq_sink r) (pq_addr r) (pq_key r) (pq_ws r) (pq_ctx r) s in
  finished t = true /\ s' = s'' /\ out = out'.
Proof.
  intros E. rewrite (run_alone env r s). unfold handle_tcp. rewrite E. unfold mbind, M_bind.
  destruct (leave_route_back _ _ _ s) as [[k s1] e1].
  rewrite (reply_does_same env r s1). unfold mbind, M_bind.
  destruct (handle_punch_hole_request _ _ _ _ _ s1) as [[a s2] e2].
  destruct (punch_reply r a s2) as [[[] s3] e3]. cbn. by rewrite !app_nil_r.
Qed.

End PunchRace.
