(* ===== verification/ConnectionFacts.v ===== *)
(** * Properties of connections

    The websocket registry holds exactly entries of running connections, and after the
    key exchange nothing leaves a TCP connection in the clear. *)

From S2P Require Import Prelude RustStr Net External RelayRoutes RelayGeo RelaySelect.
From S2P Require Import RateLimit Guards PeerStore Jwt Rendezvous HandlerLogic Connection.

Local Open Scope Z_scope.

Section Registry.
  Context {hbb : HbbCommon} {netlib : IpNetworkLib} {v4net : Ipv4NetworkLib}
    {trig : FloatTrig} {mm : MaxMind} {sodium : Sodium} {json : InfoJson} {jwt : JwtLib}
    {proto : RendezvousProto}.

(** ** What the handlers do to the registry *)

Section RegistryInvariant.
  Context (ok : SocketAddr -> WsPeer -> Prop) (o : gset Z).

(** Every entry is acceptable, and the open channels are [o]. *)
Definition entries_ok (s : Server) : Prop := map_Forall ok (ws_peers s) /\ ws_open s = o.

Lemma entries_same {A} (m : M A) :
  (forall s, ws_peers (after m s) = ws_peers s /\ ws_open (after m s) = ws_open s) ->
  preserves entries_ok m.
Proof. intros H s [H1 H2]. destruct (H s) as [E1 E2]. split; [by rewrite E1|by rewrite E2]. Qed.

Lemma entries_on_pm {A} (f : PeerMap -> A * PeerMap) : preserves entries_ok (on_pm f).
Proof. by apply preserves_on_pm. Qed.

Lemma entries_on_selector {A} (f : Selector -> A * Selector) : preserves entries_ok (on_selector f).
Proof. by apply preserves_on_selector. Qed.

Lemma entries_modify f :
  (forall s, ws_peers (f s) = ws_peers s /\ ws_open (f s) = ws_open s) ->
  preserves entries_ok (modify f).
Proof. intros H. by apply entries_same. Qed.

Lemma entries_push addr msg : preserves entries_ok (push_to_ws_peer addr msg).
Proof.
  intros s [H1 H2]. unfold after, push_to_ws_peer. repeat case_match; simpl; [done| |done].
  split; [|done]. by apply map_Forall_delete.
Qed.

Lemma entries_take addr : preserves entries_ok (take_tcp_punch addr).
Proof. by apply entries_same. Qed.

Lemma entries_ip_allowed env ip id : preserves entries_ok (ip_allowed env ip id).
Proof.
  apply entries_same. intros s. unfold after, ip_allowed. by destruct (check_ip_blocker _ _ _ _).
Qed.

Lemma entries_register_pk env rk addr ws : preserves entries_ok (handle_register_pk env rk addr ws).
Proof.
  unfold handle_register_pk, with_peer. pose proof entries_ip_allowed.
  pose proof @entries_on_pm. handler_auto. by apply entries_modify.
Qed.

Lemma entries_send_to_sink k msg : preserves entries_ok (send_to_sink k msg).
Proof. unfold send_to_sink, sink_send. handler_auto. Qed.

Lemma entries_send_to_tcp msg addr : preserves entries_ok (send_to_tcp msg addr).
Proof.
  unfold send_to_tcp. pose proof entries_push. pose proof entries_take.
  pose proof entries_send_to_sink. handler_auto.
Qed.

Lemma entries_get_pk env ver id : preserves entries_ok (get_pk env ver id).
Proof. unfold get_pk, with_peer. pose proof @entries_on_pm. handler_auto. Qed.

Lemma entries_get_relay env pa pb : preserves entries_ok (get_relay_server env pa pb).
Proof. unfold get_relay_server. pose proof @entries_on_selector. handler_auto. Qed.

Lemma entries_punch env addr ph key ws :
  preserves entries_ok (handle_tcp_punch_hole_request env addr ph key ws).
Proof.
  unfold handle_tcp_punch_hole_request, handle_punch_hole_request, punch_message, is_lan, with_peer.
  pose proof @entries_on_pm. pose proof entries_get_relay. pose proof entries_push.
  pose proof entries_send_to_tcp. handler_auto. by apply entries_modify.
Qed.

Lemma entries_update_addr env id addr : preserves entries_ok (update_addr env id addr).
Proof. unfold update_addr. pose proof @entries_on_pm. handler_auto. Qed.

Lemma entries_relay_response env rr addr : preserves entries_ok (handle_relay_response env rr addr).
Proof.
  unfold handle_relay_response, is_lan. pose proof entries_get_pk. pose proof entries_get_relay.
  pose proof entries_send_to_tcp. handler_auto.
Qed.

Lemma entries_handle_udp env valid bytes addr : preserves entries_ok (handle_udp env valid bytes addr).
Proof.
  unfold handle_udp, udp_send. pose proof entries_update_addr. pose proof entries_register_pk.
  handler_auto. apply entries_modify. intros s. by case_match.
Qed.

Lemma entries_register_ws addr ctx :
  ok (try_into_v4 addr) ctx -> preserves entries_ok (register_ws_peer addr ctx).
Proof. intros H. apply preserves_modify. intros s [H1 H2]. split; [by apply map_Forall_insert_2|done]. Qed.

Lemma entries_handle_tcp env bytes sink addr key ws ws_conn :
  (forall ctx, ws_conn = Some ctx -> ok (try_into_v4 addr) ctx) ->
  preserves entries_ok (handle_tcp env bytes sink addr key ws ws_conn).
Proof.
  intros Hctx.
  assert (Hroute : preserves entries_ok (leave_route_back addr sink ws_conn)).
  { unfold leave_route_back. destruct ws_conn as [ctx|]; handler_auto.
    - apply entries_register_ws. by apply Hctx.
    - by apply entries_modify. }
  assert (Hws : preserves entries_ok (register_if_ws addr ws_conn)).
  { destruct ws_conn as [ctx|]; [by apply entries_register_ws, Hctx|apply preserves_ret]. }
  unfold handle_tcp, handle_hole_sent, handle_local_addr, forward_relay_request.
  pose proof entries_update_addr. pose proof entries_register_pk. pose proof entries_punch.
  pose proof entries_relay_response. pose proof entries_send_to_tcp. pose proof entries_get_pk.
  pose proof entries_push. pose proof entries_send_to_sink. handler_auto.
Qed.

End RegistryInvariant.

(** ** The registry of the whole system *)

(** An entry belongs to a running connection, which is filed there. *)
Definition entry_ok (conns : gmap Z WsConn) (a : SocketAddr) (p : WsPeer) : Prop :=
  exists c, conns !! wp_conn p = Some c /\ wc_ctx c = p /\ try_into_v4 (wc_addr c) = a.

Record sys_wf (n : Z) (sys : WsSystem) : Prop := {
  sys_entries : entries_ok (entry_ok (sys_conns sys)) (dom (sys_conns sys)) (sys_server sys);
  sys_ctx : forall k c, sys_conns sys !! k = Some c -> wc_ctx c = mkWsPeer k k;
  sys_used : forall k, k ∈ dom (sys_conns sys) -> k < WS_CONN_SERIAL sys;
  sys_serial : 0 <= WS_CONN_SERIAL sys <= n;
}.

Lemma entry_ok_same (conns : gmap Z WsConn) k c c' a p :
  conns !! k = Some c -> wc_ctx c' = wc_ctx c -> wc_addr c' = wc_addr c ->
  entry_ok conns a p -> entry_ok (<[k := c']> conns) a p.
Proof.
  intros Hk E1 E2 (d & Hd & Ep & Ea). destruct (decide (wp_conn p = k)) as [<-|Hne].
  - exists c'. rewrite lookup_insert_eq. split; [done|]. rewrite E1, E2.
    assert (c = d) as -> by congruence. done.
  - exists d. by rewrite lookup_insert_ne.
Qed.

(** A turn of a connection's task keeps its identity. *)
Lemma ws_turn_same env key idle c ev s c' :
  result_of (ws_turn env key idle c ev) s = Some c' -> wc_ctx c' = wc_ctx c /\ wc_addr c' = wc_addr c.
Proof.
  destruct ev; cbn [ws_turn]; rewrite ?result_bind; cbn.
  - by intros [= <-].
  - case_match; [by intros [= <-]|done].
  - by intros [= <-].
  - done.
  - case_match; [done|by intros [= <-]].
Qed.

Lemma ws_turn_entries ok o env key idle c ev :
  ok (try_into_v4 (wc_addr c)) (wc_ctx c) -> preserves (entries_ok ok o) (ws_turn env key idle c ev).
Proof.
  intros Hok. pose proof (entries_send_to_sink ok o) as Hs.
  assert (Ht : forall bytes, preserves (entries_ok ok o)
    (handle_tcp (as_task (wc_config c) env) bytes (wc_sink c) (wc_addr c) key true (Some (wc_ctx c)))).
  { intros bytes. apply entries_handle_tcp. by intros ctx [= <-]. }
  destruct ev; cbn [ws_turn]; handler_auto.
Qed.

Lemma entries_finish conns k c (s : Server) :
  conns !! k = Some c -> wc_ctx c = mkWsPeer k k ->
  entries_ok (entry_ok conns) (dom conns) s ->
  entries_ok (entry_ok (delete k conns)) (dom (delete k conns))
    (set_ws (guard_drop (try_into_v4 (wc_addr c)) (wp_conn (wc_ctx c)) (ws_peers s))
       (ws_open s ∖ {[wp_tx (wc_ctx c)]}) s).
Proof.
  intros Hk Hctx [H1 H2]. rewrite Hctx. cbn [wp_conn wp_tx]. split; simpl.
  2: { rewrite H2. by rewrite dom_delete_L. }
  intros a p Hp.
  assert (Hold : ws_peers s !! a = Some p).
  { unfold guard_drop in Hp. repeat case_match; try done. by apply lookup_delete_Some in Hp as [_ Hp]. }
  destruct (H1 a p Hold) as (d & Hd & Ep & Ea).
  exists d. split; [|done]. rewrite lookup_delete_ne; [done|]. intros Ek. subst k.
  assert (c = d) as -> by congruence. unfold guard_drop in Hp.
  rewrite Ea, Hold, Z.eqb_refl in Hp. by rewrite lookup_delete_eq in Hp.
Qed.

Lemma sys_step_wf n sys e :
  Z.of_nat n < 2 ^ 64 - 1 -> sys_wf (Z.of_nat n) sys -> sys_wf (Z.of_nat (S n)) (sys_step sys e).
Proof.
  intros Hn [He Hc Hu Hs]. destruct e as [real addr t|k env key idle ev|env valid bytes addr|env bytes sink addr key];
    cbn [sys_step].
  - set (conn := WS_CONN_SERIAL sys) in *.
    assert (Hnew : sys_conns sys !! conn = None).
    { apply not_elem_of_dom. intros Hin%Hu. lia. }
    assert (Ew : wrap64 (conn + 1) = conn + 1) by (unfold wrap64; apply Z.mod_small; lia).
    constructor; cbn [sys_server sys_conns WS_CONN_SERIAL].
    + destruct He as [He1 He2]. split; simpl; [|by rewrite He2, dom_insert_L].
      intros a p Hp. destruct (He1 a p Hp) as (d & Hd & H). exists d. split; [|done].
      rewrite lookup_insert_ne; [done|]. intros Ek. rewrite <- Ek in Hd. congruence.
    + intros k c [[<- <-]|[_ Hk]]%lookup_insert_Some; [done|by apply Hc].
    + intros k Hk. rewrite Ew. rewrite dom_insert_L in Hk.
      apply elem_of_union in Hk as [Hk|Hk]; [apply elem_of_singleton in Hk; lia|].
      apply Hu in Hk. lia.
    + lia.
  - destruct (sys_conns sys !! k) as [c|] eqn:Hk; [|constructor; [done..|lia]].
    pose proof (ws_turn_same env key idle c ev (sys_server sys)) as Hsame.
    pose proof (ws_turn_entries (entry_ok (sys_conns sys)) (dom (sys_conns sys)) env key idle c ev) as Ht.
    unfold preserves, result_of, after in *.
    assert (Hok : entry_ok (sys_conns sys) (try_into_v4 (wc_addr c)) (wc_ctx c)).
    { exists c. by rewrite (Hc _ _ Hk). }
    specialize (Ht Hok _ He).
    destruct (ws_turn env key idle c ev (sys_server sys)) as [[[c'|] s'] es]; cbn [fst snd] in *.
    + destruct (Hsame c' eq_refl) as [E1 E2].
      assert (Ed : dom (<[k := c']> (sys_conns sys)) = dom (sys_conns sys)).
      { rewrite dom_insert_L. apply elem_of_dom_2 in Hk. set_solver. }
      constructor; cbn [sys_server sys_conns WS_CONN_SERIAL].
      * destruct Ht as [Ht1 Ht2]. split; [|by rewrite Ed].
        eapply map_Forall_impl; [exact Ht1|]. intros a p. by eapply entry_ok_same.
      * intros j d [[<- <-]|[_ Hj]]%lookup_insert_Some; [rewrite E1; by apply Hc|by apply Hc].
      * rewrite Ed. done.
      * lia.
    + unfold ws_finish. constructor; cbn [sys_server sys_conns WS_CONN_SERIAL].
      * apply entries_finish; [done|by apply Hc|done].
      * intros j d [_ Hj]%lookup_delete_Some. by apply Hc.
      * intros j Hj. apply Hu. rewrite dom_delete_L in Hj. set_solver.
      * lia.
  - constructor; cbn [sys_server sys_conns WS_CONN_SERIAL]; [|done|done|lia].
    by apply entries_handle_udp.
  - constructor; cbn [sys_server sys_conns WS_CONN_SERIAL]; [|done|done|lia].
    by apply entries_handle_tcp.
Qed.

Lemma sys_run_wf (events : list SysEvent) n sys :
  Z.of_nat (n + length events) < 2 ^ 64 -> sys_wf (Z.of_nat n) sys ->
  sys_wf (Z.of_nat (n + length events)) (foldl sys_step sys events).
Proof.
  revert n sys. induction events as [|e events IH]; intros n sys Hn Hw; simpl in *.
  { by rewrite Nat.add_0_r. }
  rewrite Nat.add_succ_r in *. apply (IH (S n)); [done|]. apply sys_step_wf; [lia|done].
Qed.

Lemma size_list_to_set_le (l : list SocketAddr) : (size (list_to_set l : gset SocketAddr) <= length l)%nat.
Proof.
  induction l as [|a l IH]; [by rewrite list_to_set_nil, size_empty|]. rewrite list_to_set_cons, size_union_alt, size_singleton.
  assert (size (list_to_set l ∖ {[a]} : gset SocketAddr) <= size (list_to_set l : gset SocketAddr))%nat
    by (apply subseteq_size; apply subseteq_difference_l; done).
  simpl. lia.
Qed.

(** Each connection files at most one entry. *)
Lemma entries_no_more_than_conns (conns : gmap Z WsConn) (peers : gmap SocketAddr WsPeer) :
  map_Forall (entry_ok conns) peers -> (size peers <= size conns)%nat.
Proof.
  intros H. set (addrs := (fun kc : Z * WsConn => try_into_v4 (wc_addr kc.2)) <$> map_to_list conns).
  assert (Hsub : dom peers ⊆ (list_to_set addrs : gset SocketAddr)).
  { intros a Ha. apply elem_of_dom in Ha as [p Hp]. destruct (H a p Hp) as (c & Hc & _ & <-).
    apply elem_of_list_to_set, list_elem_of_fmap. exists (wp_conn p, c).
    split; [done|]. by apply elem_of_map_to_list. }
  rewrite <- (size_dom (D := gset SocketAddr) peers). etransitivity; [apply subseteq_size, Hsub|].
  etransitivity; [apply size_list_to_set_le|]. unfold addrs. rewrite length_fmap.
  by rewrite length_map_to_list.
Qed.

(** C15: the registry of websocket peers never holds a stale entry, whatever
    connections open, send, register, take over each other's address and end, in
    whatever order: every entry leads to a connection that is still running and is
    filed under that connection's address, so a message pushed to it is delivered;
    there are never more entries than connections, and none is left when all have
    ended.  (Fewer than 2^64 events, so that the connection serial does not wrap.) *)
Theorem ws_registry_never_stale (s0 : Server) (events : list SysEvent) :
  ws_peers s0 = ∅ -> ws_open s0 = ∅ -> Z.of_nat (length events) < 2 ^ 64 ->
  let sys := foldl sys_step (mkWsSystem s0 0 ∅) events in
  map_Forall (entry_ok (sys_conns sys)) (ws_peers (sys_server sys)) /\
  (forall addr msg, is_Some (ws_peers (sys_server sys) !! try_into_v4 addr) ->
     result_of (push_to_ws_peer addr msg) (sys_server sys) = true) /\
  (ws_peer_count (sys_server sys) <= size (sys_conns sys))%nat.
Proof.
  intros Hp Ho Hn sys.
  assert (Hwf : sys_wf (Z.of_nat (0 + length events)) sys).
  { apply sys_run_wf; [done|]. constructor; simpl; [|done|done|lia].
    split; simpl; [rewrite Hp; apply map_Forall_empty|by rewrite Ho, dom_empty_L]. }
  destruct Hwf as [[H1 H2] Hc _ _]. split; [done|]. split.
  - intros addr msg [p Hpa]. unfold result_of, push_to_ws_peer. rewrite Hpa.
    destruct (H1 _ _ Hpa) as (c & Hcon & Ectx & _).
    rewrite bool_decide_eq_true_2; [done|]. rewrite H2. pose proof (Hc _ _ Hcon) as E.
    rewrite <- Ectx, E in Hcon |- *. simpl in *. by eapply elem_of_dom_2.
  - by apply entries_no_more_than_conns.
Qed.

End Registry.

(** ** After the key exchange *)

Section Secrecy.
  Context {hbb : HbbCommon} {netlib : IpNetworkLib} {v4net : Ipv4NetworkLib}
    {trig : FloatTrig} {mm : MaxMind} {sodium : Sodium} {json : InfoJson} {jwt : JwtLib}
    {proto : RendezvousProto} (conn : Z).

(** A write half of this connection encrypts. *)
Definition sink_secured (o : option Sink) : Prop :=
  forall k, o = Some k -> sink_conn k = conn -> is_Some (sink_encrypt k).

(** So does every write half of it that was handed to [tcp_punch]. *)
Definition punch_secured (s : Server) : Prop :=
  forall a, sink_secured (tcp_punch s !! a).

(** What is written to this connection is what the cipher made of the message. *)
Definition encrypted (e : Effect) : Prop :=
  match e with
  | SendSink n _ msg frame =>
      n = conn -> exists cr bytes, write_to_bytes msg = Some bytes /\ frame = (crypt_enc cr bytes).1
  | _ => True
  end.

(** [m] keeps the handed-out write halves secured, writes nothing in the clear to this
    connection, and gives a result satisfying [R]. *)
Definition secure {A} (m : M A) (R : A -> Prop) : Prop :=
  forall s, punch_secured s ->
    punch_secured (after m s) /\ Forall encrypted (sent m s) /\ R (result_of m s).

Lemma secure_bind {A B} (m : M A) (f : A -> M B) R1 R :
  secure m R1 -> (forall a, R1 a -> secure (f a) R) -> secure (m ≫= f) R.
Proof.
  intros Hm Hf s Hs. destruct (Hm s Hs) as (H1 & H2 & H3).
  destruct (Hf _ H3 _ H1) as (H4 & H5 & H6). rewrite after_bind, sent_bind, result_bind.
  split; [done|]. split; [|done]. apply Forall_app. by split.
Qed.

Lemma secure_ret {A} (a : A) (R : A -> Prop) : R a -> secure (mret a) R.
Proof. intros H s Hs. split; [done|]. split; [constructor|done]. Qed.

Lemma secure_weaken {A} (m : M A) (R R' : A -> Prop) :
  secure m R -> (forall a, R a -> R' a) -> secure m R'.
Proof. intros Hm H s Hs. destruct (Hm s Hs) as (? & ? & ?). auto. Qed.

(** A program that neither touches [tcp_punch] nor writes to a connection. *)
Lemma secure_other {A} (m : M A) :
  (forall s, tcp_punch (after m s) = tcp_punch s) ->
  emits (fun e => match e with SendSink _ _ _ _ => False | _ => True end) m ->
  secure m (fun _ => True).
Proof.
  intros H1 H2 s Hs. split; [intros a; rewrite H1; apply Hs|]. split; [|done].
  eapply Forall_impl; [apply H2|]. by intros [].
Qed.

Lemma secure_take addr : secure (take_tcp_punch addr) sink_secured.
Proof.
  intros s Hs. split; [|split; [constructor|apply Hs]]. intros a k. simpl.
  intros Hk%lookup_delete_Some. destruct Hk. by eapply Hs.
Qed.

Lemma secure_send_to_sink o msg : sink_secured o -> secure (send_to_sink o msg) sink_secured.
Proof.
  intros Ho. unfold send_to_sink. destruct o as [k|]; [|by apply secure_ret].
  unfold sink_send. destruct (write_to_bytes msg) as [bytes|] eqn:Ew.
  2: { intros s Hs. split; [done|]. split; [constructor|exact Ho]. }
  specialize (Ho k eq_refl). intros s Hs.
  destruct (sink_encrypt k) as [cr|] eqn:Ek.
  - destruct (crypt_enc cr bytes) as [frame cr'] eqn:Ec. split; [done|]. split.
    + constructor; [|constructor]. intros _. exists cr, bytes. by rewrite Ec.
    + intros k' [= <-] _. simpl. eauto.
  - assert (Hne : sink_conn k <> conn). { intros E. destruct (Ho E). done. }
    split; [done|]. split.
    + constructor; [|constructor]. by intros E.
    + by intros k' [= <-] E.
Qed.

Lemma secure_push addr msg : secure (push_to_ws_peer addr msg) (fun _ => True).
Proof.
  apply secure_other.
  - intros s. unfold after, push_to_ws_peer. by repeat case_match.
  - intros s. unfold sent, push_to_ws_peer. repeat case_match; repeat constructor.
Qed.

Lemma secure_send_to_tcp msg addr : secure (send_to_tcp msg addr) (fun _ => True).
Proof.
  unfold send_to_tcp. eapply secure_bind; [apply secure_push|]. intros [] _; [by apply secure_ret|].
  eapply secure_bind; [apply secure_take|]. intros o Ho.
  eapply secure_bind; [by apply secure_send_to_sink|]. intros; by apply secure_ret.
Qed.

Lemma secure_on_pm {A} (f : PeerMap -> A * PeerMap) : secure (on_pm f) (fun _ => True).
Proof.
  apply secure_other; [|apply emits_on_pm]. intros s. unfold after, on_pm. by destruct (f (pm s)).
Qed.

Lemma secure_on_selector {A} (f : Selector -> A * Selector) : secure (on_selector f) (fun _ => True).
Proof.
  apply secure_other; [|apply emits_on_selector].
  intros s. unfold after, on_selector. by destruct (f (relay_servers s)).
Qed.

Lemma secure_gets {A} (f : Server -> A) : secure (gets f) (fun _ => True).
Proof. apply secure_other; [done|apply emits_gets]. Qed.

Lemma secure_modify f : (forall s, tcp_punch (f s) = tcp_punch s) -> secure (modify f) (fun _ => True).
Proof. intros H. apply secure_other; [done|apply emits_modify]. Qed.

Lemma secure_when b m : secure m (fun _ => True) -> secure (when b m) (fun _ => True).
Proof. intros H. destruct b; [done|by apply secure_ret]. Qed.

Lemma secure_data d : secure (emit (SendData d)) (fun _ => True).
Proof. apply secure_other; [done|]. by apply emits_emit. Qed.

Lemma secure_ip_allowed env ip id : secure (ip_allowed env ip id) (fun _ => True).
Proof.
  apply secure_other.
  - intros s. unfold after, ip_allowed. by destruct (check_ip_blocker _ _ _ _).
  - intros s. unfold sent, ip_allowed. destruct (check_ip_blocker _ _ _ _). constructor.
Qed.

End Secrecy.

Create HintDb secrecy.
#[export] Hint Resolve secure_on_pm secure_on_selector secure_gets secure_push secure_send_to_tcp
  secure_data secure_ip_allowed : secrecy.

(** Follow a handler whose results do not matter. *)
Ltac secure_step :=
  match goal with
  | |- secure _ (mret _) _ => by apply secure_ret
  | |- secure _ (mbind _ _) _ => eapply (secure_bind _ _ _ (fun _ => True)); [|intros ? _]
  | |- secure _ (when _ _) _ => apply secure_when
  | |- secure _ (modify _) _ => apply secure_modify; by intros ?
  | |- secure _ (let '(_, _) := ?x in _) _ => destruct x
  | |- secure _ (match ?x with _ => _ end) _ => destruct x
  | |- secure _ _ _ => solve [eauto with secrecy]
  end.
Ltac secure_auto := repeat secure_step.

Section SecrecyOfHandlers.
  Context {hbb : HbbCommon} {netlib : IpNetworkLib} {v4net : Ipv4NetworkLib}
    {trig : FloatTrig} {mm : MaxMind} {sodium : Sodium} {json : InfoJson} {jwt : JwtLib}
    {proto : RendezvousProto} (conn : Z).

Lemma secure_register_pk env rk addr ws :
  secure conn (handle_register_pk env rk addr ws) (fun _ => True).
Proof. unfold handle_register_pk, with_peer. secure_auto. Qed.

Lemma secure_update_addr env id addr : secure conn (update_addr env id addr) (fun _ => True).
Proof. unfold update_addr. secure_auto. Qed.

Lemma secure_get_pk env ver id : secure conn (get_pk env ver id) (fun _ => True).
Proof. unfold get_pk, with_peer. secure_auto. Qed.

Lemma secure_punch env addr ph key ws :
  secure conn (handle_tcp_punch_hole_request env addr ph key ws) (fun _ => True).
Proof.
  unfold handle_tcp_punch_hole_request, handle_punch_hole_request, punch_message, is_lan,
    get_relay_server, with_peer. secure_auto.
Qed.

Lemma secure_relay_response env rr addr : secure conn (handle_relay_response env rr addr) (fun _ => True).
Proof.
  unfold handle_relay_response, is_lan, get_relay_server. pose proof secure_get_pk. secure_auto.
Qed.

Lemma secure_forward addr rf : secure conn (forward_relay_request addr rf) (fun _ => True).
Proof. unfold forward_relay_request. secure_auto. Qed.

Lemma secure_leave_route addr o ws_conn :
  sink_secured conn o -> secure conn (leave_route_back addr o ws_conn) (sink_secured conn).
Proof.
  intros Ho. unfold leave_route_back. destruct ws_conn as [ctx|].
  { eapply secure_bind; [by apply secure_modify|]. intros; by apply secure_ret. }
  destruct o as [k|]; [|by apply secure_ret].
  intros s Hs. split; [|split; [constructor|by intros ?]].
  intros a k'. simpl. intros [[<- <-]|[_ Hk]]%lookup_insert_Some; [by apply Ho|by eapply Hs].
Qed.

Lemma secure_register_if_ws addr ws_conn : secure conn (register_if_ws addr ws_conn) (fun _ => True).
Proof. unfold register_if_ws, register_ws_peer. secure_auto. Qed.

Lemma secure_handle_tcp env bytes o addr key ws ws_conn :
  sink_secured conn o ->
  secure conn (handle_tcp env bytes o addr key ws ws_conn) (fun r => sink_secured conn r.2).
Proof.
  intros Ho. unfold handle_tcp, handle_hole_sent, handle_local_addr.
  pose proof secure_get_pk as Hpk.
  destruct (parse_from_bytes bytes) as [[]|]; try by apply secure_ret.
  - destruct (id_ok _); [|by apply secure_ret].
    eapply secure_bind; [apply secure_update_addr|]. intros b _.
    eapply secure_bind; [by apply secure_send_to_sink|]. intros o1 Ho1.
    eapply secure_bind; [apply secure_register_if_ws|]. intros _ _.
    eapply secure_bind; [apply secure_gets|]. intros s1 _.
    eapply secure_bind; [|intros o2 Ho2; by apply secure_ret].
    destruct (_ <? _); [by apply secure_send_to_sink|by apply secure_ret].
  - eapply secure_bind; [apply secure_register_pk|]. intros [res|] _; [|by apply secure_ret].
    eapply secure_bind; [by apply secure_send_to_sink|]. intros o1 Ho1.
    case_bool_decide; [|by apply secure_ret].
    eapply secure_bind; [apply secure_register_if_ws|]. intros _ _. by apply secure_ret.
  - eapply secure_bind; [by apply secure_leave_route|]. intros o1 Ho1.
    eapply secure_bind; [apply secure_punch|]. intros _ _. by apply secure_ret.
  - eapply (secure_bind _ _ _ (fun _ => True)); [secure_auto|]. intros _ _. by apply secure_ret.
  - eapply (secure_bind _ _ _ (fun _ => True)); [secure_auto|]. intros _ _. by apply secure_ret.
  - eapply secure_bind; [by apply secure_leave_route|]. intros o1 Ho1.
    eapply secure_bind; [apply secure_forward|]. intros _ _. by apply secure_ret.
  - eapply secure_bind; [apply secure_relay_response|]. intros _ _. by apply secure_ret.
  - eapply secure_bind; [apply secure_gets|]. intros s1 _.
    eapply secure_bind; [by apply secure_send_to_sink|]. intros o1 Ho1. by apply secure_ret.
  - eapply secure_bind; [apply secure_gets|]. intros st _.
    eapply secure_bind; [by apply secure_send_to_sink|]. intros o1 Ho1. by apply secure_ret.
Qed.

(** The loop's variables after the exchange. *)
Definition conn_secured (c : TcpConn) : Prop :=
  is_Some (tc_recv c) /\ tc_handshake c = None /\ sink_secured conn (tc_sink c).

Lemma secure_tcp_frame env addr key c bytes :
  conn_secured c -> secure conn (tcp_frame env addr key c bytes) (fun r => conn_secured r.2).
Proof.
  intros ([cr Hr] & Hh & Hs). unfold tcp_frame. rewrite Hr, Hh.
  destruct (crypt_dec cr bytes) as [[b cr']|]; [|apply secure_ret; split; [simpl; by rewrite Hr|by split]].
  eapply secure_bind; [by apply secure_handle_tcp|]. intros r Hr1. apply secure_ret.
  split; [simpl; eauto|]. by split.
Qed.

Lemma secure_tcp_loop addr key frames c :
  conn_secured c -> secure conn (tcp_loop addr key c frames) conn_secured.
Proof.
  revert c. induction frames as [|[env bytes] frames IH]; intros c Hc; [by apply secure_ret|].
  cbn [tcp_loop]. eapply secure_bind; [by apply secure_tcp_frame|]. intros [[] c'] Hc'.
  - by apply IH.
  - by apply secure_ret.
Qed.

Lemma secure_tcp_end addr c : secure conn (tcp_end addr c) (fun _ => True).
Proof.
  unfold tcp_end. destruct (tc_sink c); [by apply secure_ret|].
  eapply secure_bind; [apply secure_take|]. intros; by apply secure_ret.
Qed.

(** C16: once a connection's first frame has completed the key exchange, nothing is
    ever written to that connection in the clear: every frame the rest of the
    connection writes to it is the cipher's output, whatever frames arrive, and a
    write half that was handed over to answer later encrypts too. *)
Theorem no_plaintext_after_key_exchange env addr key c sk_b sym bytes frames s :
  tc_handshake c = Some sk_b -> tc_recv c = None -> phase2 sk_b bytes = Agreed sym ->
  (forall a k, tcp_punch s !! a = Some k -> sink_conn k <> conn) ->
  let run := tcp_loop addr key c ((env, bytes) :: frames) ≫= tcp_end addr in
  Forall (encrypted conn) (sent run s) /\ punch_secured conn (after run s).
Proof.
  intros Hh Hr Hp Hs. cbv zeta.
  assert (Hsec : punch_secured conn s). { intros a k Hk E. by destruct (Hs a k Hk). }
  assert (Hrun : secure conn (tcp_loop addr key c ((env, bytes) :: frames) ≫= tcp_end addr) (fun _ => True)).
  { eapply (secure_bind _ _ _ conn_secured); [|intros; apply secure_tcp_end].
    cbn [tcp_loop]. unfold tcp_frame at 1. rewrite Hr, Hh, Hp.
    eapply (secure_bind _ _ _ (fun r => r.1 = true /\ conn_secured r.2)).
    - apply secure_ret. split; [done|]. split; [simpl; eauto|]. split; [done|].
      intros k Hk _. simpl in Hk. apply fmap_Some in Hk as (k' & _ & ->). simpl. eauto.
    - intros [b c'] [Hb Hc']. simpl in Hb. subst b. by apply secure_tcp_loop. }
  destruct (Hrun s Hsec) as (H1 & H2 & _). done.
Qed.

End SecrecyOfHandlers.
