(* ===== verification/Console.v ===== *)
(** * The main loop's own work and the console

    What the rendezvous server's main loop does with its timer and its channel
    ([io_loop]), the health check of the relays ([check_relay_servers]) and the
    commands of the local console ([check_cmd]), all in
    [src/src/rendezvous_server.rs].  A [HashMap] is listed in an order the caller
    supplies, since the code's is arbitrary; printed lines are values, not text. *)

From S2P Require Import Prelude RustStr Net External RelayRoutes RelayGeo RelaySelect.
From S2P Require Import RateLimit Guards PeerStore Jwt Rendezvous HandlerLogic.
From Stdlib Require Import Ascii.

Local Open Scope Z_scope.

(** The lines the console prints. *)
Inductive CmdLine :=
| CHelp
| CRelay (relay : string)
| CCount (n : nat)
| CBlocked (ip : string) (count secs : Z) (ids : nat) (ids_secs : Z)
| CChanges (id : string) (secs : Z) (ips : gmap string Z)
| CPunch (e : PunchReqEntry)
| CAlwaysUseRelay (on : bool)
| CMustLogin (on : bool)
| CWsPeers (n : nat)
| CTestGeo (relay : string)
| CSelector (l : ConsoleLine).

Section Console.
  Context {hbb : HbbCommon} {netlib : IpNetworkLib} {v4net : Ipv4NetworkLib}
    {trig : FloatTrig} {mm : MaxMind} {sodium : Sodium} {json : InfoJson} {jwt : JwtLib}
    {proto : RendezvousProto}.

(** ** The relays *)

Definition parse_relay_servers (text : string) (s : Server) : Server :=
  let rs := (parse_relay_list text).1 in
  set_relays (set_live rs (relay_servers s)) rs s.

(** The address a relay is probed at. *)
Definition probe_host (x : string) : string :=
  if contains_char ":" x then x else x +:+ ":" +:+ show_Z RELAY_PORT.

(** [check_relay_servers]: [answered] are the indices of the relays that could be
    connected to, in the order their probes ended. *)
Definition check_relay_servers (rs0 : list string) (answered : list nat) : option Data :=
  let found := omap (fun i => (fun x => (i, x)) <$> rs0 !! i) answered in
  let rs := (sort_by (fun a b : nat * string => (a.1 <=? b.1)%nat) found).*2 in
  match rs with [] => None | _ => Some (DRelayServers rs) end.

(** ** The main loop *)

(** The timer: the files are looked at, and the relays to probe, if any, are given. *)
Definition on_tick (fs : FsView) (s : Server) : Server * option (list string) :=
  (set_relays (reload fs (relay_servers s)) (relay_servers0 s) s,
   if (1 <? length (relay_servers0 s))%nat then Some (relay_servers0 s) else None).

(** The channel. *)
Definition on_data (d : Data) : M unit :=
  match d with
  | DMsg msg addr => emit (SendUdp msg addr)
  | DRelayServers0 rs => modify (parse_relay_servers rs)
  | DRelayServers rs =>
      modify (fun s => set_relays (set_live rs (relay_servers s)) (relay_servers0 s) s)
  end.

(** ** The console *)

(** [for i in 0..(start + 10)] over an iterator, skipping the first [start]: the
    [i32] sum wraps, and then the range is empty. *)
Definition page {A} (start : Z) (it : list A) : list A :=
  if wrap_i32 (start + 10) <=? 0 then [] else take 10 (drop (Z.to_nat start) it).

(** The number a listing starts at; -1 stands for an argument that is no number. *)
Definition start_of (arg : option string) : Z :=
  match arg with Some x => default (-1) (parse_i32 x) | None => -1 end.

Definition blocked_line (t : Instant) (e : string * (Counter * (gset string * Instant))) : CmdLine :=
  CBlocked e.1 e.2.1.1 (elapsed_secs t e.2.1.2) (size e.2.2.1) (elapsed_secs t e.2.2.2).

Definition changes_line (t : Instant) (e : string * (Instant * gmap string Z)) : CmdLine :=
  CChanges e.1 (elapsed_secs t e.2.1) e.2.2.

(** [ip-blocker [<ip>|<number>] [-]]; [order] lists the table. *)
Definition cmd_ip_blocker (t : Instant)
    (order : IpBlockMap -> list (string * (Counter * (gset string * Instant))))
    (args : list string) (lock : IpBlockMap) : list CmdLine * IpBlockMap :=
  let lock := retain_ip_blocker t lock in
  let ip := head args in
  let start := start_of ip in
  let count := CCount (size lock) in
  if start <? 0 then
    match ip with
    | Some ip =>
        let shown := match lock !! ip with Some e => [blocked_line t (ip, e)] | None => [] end in
        (count :: shown,
         if bool_decide (args !! 1%nat = Some "-") then delete ip lock else lock)
    | None => (count :: (blocked_line t <$> page 0 (order lock)), lock)
    end
  else (count :: (blocked_line t <$> page start (order lock)), lock).

(** [ip-changes [<id>|<number>] [-]]: a number above ten million is an id first. *)
Definition cmd_ip_changes (t : Instant)
    (order : IpChangesMap -> list (string * (Instant * gmap string Z)))
    (args : list string) (lock : IpChangesMap) : list CmdLine * IpChangesMap :=
  let lock := retain_ip_changes t lock in
  let id := head args in
  let start := start_of id in
  let count := CCount (size lock) in
  let '(shown, lock', start) :=
    if (0 <=? start) && (start <=? 10000000) then ([], lock, start)
    else match id with
         | Some id =>
             (match lock !! id with Some e => [changes_line t (id, e)] | None => [] end,
              if bool_decide (args !! 1%nat = Some "-") then delete id lock else lock, start)
         | None => ([], lock, 0)
         end in
  (count :: shown ++
     (if 0 <=? start then changes_line t <$> page start (order lock') else []), lock').

(** [punch-requests [<number>] [<page size>] | -]. *)
Definition cmd_punch_requests (args : list string) (log : list PunchReqEntry)
    : list CmdLine * list PunchReqEntry :=
  if bool_decide (head args = Some "-") then ([], [])
  else
    let start := default 0 (let! x := head args in parse_usize x) in
    let size := default 10 (let! x := args !! 1%nat in parse_usize x) in
    let size := if size =? 0 then 10 else size in
    (CPunch <$> take (Z.to_nat size) (drop (Z.to_nat start) log), log).

(** [test-geo <ip1> [<ip2>]]. *)
Definition cmd_test_geo (t : Instant) (args : list string) (sel : Selector) : list CmdLine :=
  match args with
  | [] => []
  | x :: rest =>
      match parse_ip x with
      | None => []
      | Some a =>
          match rest with
          | [] => [CTestGeo (pick_relay (pick t t a a false sel).1)]
          | y :: _ =>
              match parse_ip y with
              | Some b => [CTestGeo (pick_relay (pick t t a b false sel).1)]
              | None => []
              end
          end
      end
  end.

(** What the listings iterate over, and what the file operations of the selector's
    commands give. *)
Record ConsoleEnv := mkConsoleEnv {
  c_now : Instant;
  block_order : IpBlockMap -> list (string * (Counter * (gset string * Instant)));
  changes_order : IpChangesMap -> list (string * (Instant * gmap string Z));
  c_remove : RemoveResult;
  c_write : option string;
}.

Definition is_cmd (name long short : string) : bool := bool_decide (name = long \/ name = short).

(** [check_cmd]. *)
Definition check_cmd (env : ConsoleEnv) (cmd : string) : M (list CmdLine) := fun s =>
  let t := c_now env in
  match console t cmd (c_remove env) (c_write env) (relay_servers s) with
  | Some (out, _, sel) => (CSelector <$> out, set_relays sel (relay_servers0 s) s, [])
  | None =>
      match split_on " " (trim cmd) with
      | [] => ([], s, [])
      | name :: args =>
          if bool_decide (name = "h") then ([CHelp], s, [])
          else if is_cmd name "relay-servers" "rs" then
            match args with
            | rs :: _ => ([], s, [SendData (DRelayServers0 rs)])
            | [] => (CRelay <$> live (relay_servers s), s, [])
            end
          else if is_cmd name "ip-blocker" "ib" then
            let '(out, lock) := cmd_ip_blocker t (block_order env) args (ip_blocker s) in
            (out, set_guards lock (ip_changes s) (punch_reqs s) s, [])
          else if is_cmd name "ip-changes" "ic" then
            let '(out, lock) := cmd_ip_changes t (changes_order env) args (ip_changes s) in
            (out, set_guards (ip_blocker s) lock (punch_reqs s) s, [])
          else if is_cmd name "punch-requests" "pr" then
            let '(out, log) := cmd_punch_requests args (punch_reqs s) in
            (out, set_guards (ip_blocker s) (ip_changes s) log s, [])
          else if is_cmd name "always-use-relay" "aur" then
            match args with
            | rs :: _ =>
                ([], set_switches (bool_decide (to_uppercase rs = "Y")) (MUST_LOGIN s) s,
                 [SendData (DRelayServers0 rs)])
            | [] => ([CAlwaysUseRelay (ALWAYS_USE_RELAY s)], s, [])
            end
          else if is_cmd name "ws-peers" "wp" then ([CWsPeers (ws_peer_count s)], s, [])
          else if is_cmd name "must-login" "ml" then
            match args with
            | v :: _ => ([], set_switches (ALWAYS_USE_RELAY s) (bool_decide (to_uppercase v = "Y")) s, [])
            | [] => ([CMustLogin (MUST_LOGIN s)], s, [])
            end
          else if is_cmd name "test-geo" "tg" then (cmd_test_geo t args (relay_servers s), s, [])
          else ([], s, [])
      end
  end.

End Console.

(** ** Facts and properties *)

Section ConsoleFacts.
  Context {hbb : HbbCommon} {netlib : IpNetworkLib} {v4net : Ipv4NetworkLib}
    {trig : FloatTrig} {mm : MaxMind} {sodium : Sodium} {json : InfoJson} {jwt : JwtLib}
    {proto : RendezvousProto}.

(** The relays of the list that answered, in the list's order. *)
Definition answering (up : nat -> bool) (rs0 : list string) : list (nat * string) :=
  List.filter (fun ix => up ix.1) (imap pair rs0).

(** Probing in list order finds the answering relays in list order. *)
Lemma probe_in_order (up : nat -> bool) (l pre : list string) :
  omap (fun i => (fun x => (i, x)) <$> (pre ++ l) !! i) (List.filter up (seq (length pre) (length l))) =
  List.filter (fun ix => up ix.1) (imap (fun i x => (length pre + i, x))%nat l).
Proof.
  revert pre. induction l as [|x l IH]; intros pre; [done|].
  cbn [length seq List.filter imap]. rewrite Nat.add_0_r.
  assert (Hx : (pre ++ x :: l) !! length pre = Some x) by (by rewrite list_lookup_middle).
  specialize (IH (pre ++ [x])). rewrite length_app, Nat.add_1_r, <- app_assoc in IH. simpl in IH.
  assert (Hi : imap ((fun i y => (length pre + i, y)) ∘ S)%nat l =
               imap (fun i y => (S (length pre + i), y))%nat l).
  { apply imap_ext. intros i y _. simpl. by rewrite Nat.add_succ_r. }
  unfold omap in *. cbn [fst]. destruct (up (length pre)).
  - cbn [list_omap]. rewrite Hx. cbn [fmap option_fmap option_map]. rewrite IH. by rewrite Hi.
  - rewrite IH. by rewrite Hi.
Qed.

Lemma probe_all (up : nat -> bool) (rs0 : list string) :
  omap (fun i => (fun x => (i, x)) <$> rs0 !! i) (List.filter up (seq 0 (length rs0))) =
  answering up rs0.
Proof. apply (probe_in_order up rs0 []). Qed.

(** The answering relays carry their places in the list, in increasing order. *)
Lemma answering_sorted up (l : list string) n :
  StronglySorted (fun a b : nat * string => a.1 < b.1)%nat
    (List.filter (fun ix => up ix.1) (imap (fun i x => (n + i, x))%nat l)) /\
  Forall (fun a : nat * string => n <= a.1)%nat
    (List.filter (fun ix => up ix.1) (imap (fun i x => (n + i, x))%nat l)).
Proof.
  revert n. induction l as [|x l IH]; intros n; [by split; constructor|].
  cbn [imap List.filter fst]. rewrite Nat.add_0_r.
  assert (E : imap ((fun i y => (n + i, y)) ∘ S)%nat l = imap (fun i y => (S n + i, y))%nat l).
  { apply imap_ext. intros i y _. simpl. by rewrite Nat.add_succ_r. }
  rewrite E. destruct (IH (S n)) as [H1 H2].
  assert (H3 : Forall (fun a : nat * string => n <= a.1)%nat
    (List.filter (fun ix => up ix.1) (imap (fun i y => (S n + i, y))%nat l))).
  { eapply Forall_impl; [exact H2|]. simpl. lia. }
  destruct (up n); [|done]. split; [|constructor; [done|exact H3]].
  constructor; [done|]. eapply Forall_impl; [exact H2|]. simpl. lia.
Qed.

Lemma answering_sublist up (l : list string) n :
  (List.filter (fun ix => up ix.1) (imap (fun i x => (n + i, x))%nat l)).*2 `sublist_of` l.
Proof.
  revert n. induction l as [|x l IH]; intros n; [constructor|].
  cbn [imap List.filter fst]. rewrite Nat.add_0_r.
  assert (E : imap ((fun i y => (n + i, y)) ∘ S)%nat l = imap (fun i y => (S n + i, y))%nat l).
  { apply imap_ext. intros i y _. simpl. by rewrite Nat.add_succ_r. }
  rewrite E. destruct (up n); cbn [fmap list_fmap]; constructor; apply IH.
Qed.

Lemma sort_found up (rs0 : list string) (answered : list nat) :
  answered ≡ₚ List.filter up (seq 0 (length rs0)) ->
  sort_by (fun a b : nat * string => (a.1 <=? b.1)%nat)
    (omap (fun i => (fun x => (i, x)) <$> rs0 !! i) answered) = answering up rs0.
Proof.
  intros Hp.
  destruct (answering_sorted up rs0 0) as [Hs _]. change (StronglySorted (fun a b : nat * string => a.1 < b.1)%nat (answering up rs0)) in Hs.
  symmetry. apply (sorted_perm_unique (fun a b : nat * string => a.1 <= b.1)%nat).
  - intros x y Hx Hy H1 H2. apply list_elem_of_lookup in Hx as [i Hi].
    apply list_elem_of_lookup in Hy as [j Hj].
    assert (Hlt : forall i j x y, answering up rs0 !! i = Some x -> answering up rs0 !! j = Some y ->
      (i < j)%nat -> (x.1 < y.1)%nat).
    { clear -Hs. induction Hs as [|z l Hs IH Hz]; [done|]. intros [|i] [|j] x y Hx Hy Hij; simpl in *; [lia| |lia|].
      - injection Hx as <-. rewrite Forall_forall in Hz. apply Hz. by eapply list_elem_of_lookup_2.
      - apply (IH i j); [done|done|lia]. }
    destruct (Nat.lt_trichotomy i j) as [H|[->|H]]; [|congruence|].
    + pose proof (Hlt _ _ _ _ Hi Hj H). lia.
    + pose proof (Hlt _ _ _ _ Hj Hi H). lia.
  - eapply StronglySorted_impl; [|exact Hs]. simpl. lia.
  - eapply StronglySorted_impl; [|apply sort_by_sorted]; [|..].
    + intros a b H. by apply Nat.leb_le in H.
    + intros a b c H1 H2. apply Nat.leb_le in H1, H2. apply Nat.leb_le. lia.
    + intros a b H. apply Nat.leb_gt in H. apply Nat.leb_le. lia.
  - rewrite sort_by_perm, Hp. by rewrite probe_all.
Qed.

(** However the probes of the health check finish, the relays published are
    exactly those that answered, in the order of the configured list, and a list in
    which none answered is not published. *)
Theorem health_check_keeps_order (up : nat -> bool) (rs0 : list string) (answered : list nat) :
  answered ≡ₚ List.filter up (seq 0 (length rs0)) ->
  (answering up rs0).*2 `sublist_of` rs0 /\
  check_relay_servers rs0 answered =
    match (answering up rs0).*2 with [] => None | rs => Some (DRelayServers rs) end.
Proof.
  intros Hp. split; [apply (answering_sublist up rs0 0)|].
  unfold check_relay_servers. rewrite (sort_found up) by done.
  by destruct ((answering up rs0).*2).
Qed.

End ConsoleFacts.
