(* ===== verification/Hbbs.v ===== *)
(** * The rendezvous server as a process ([src/src/rendezvous_server.rs])

    [start_with_bind] turns the settings into a server and opens its sockets; the main task
    then serves them, takes what other tasks put into its channel and reopens a socket that
    fails; every connection runs as a task of its own, and so does the watchdog that probes the
    UDP socket.  [Hbbs] is the whole of it: the server with its websocket tasks, the TCP tasks,
    the channel, the sockets and the watchdog, and [proc_step] one thing that happens to it.  Whether the system lets a socket be opened is part of the
    event. *)

From S2P Require Import Prelude RustStr Net External RelayRoutes RelayGeo RelaySelect.
From S2P Require Import RateLimit Guards PeerStore Jwt Settings Rendezvous HandlerLogic Connection Console.
From Stdlib Require Import Ascii.

Local Open Scope Z_scope.

(** ** Sockets *)

Inductive Sock := Udp (addr : SocketAddr) | Tcp (l : Listen).

(** [port as u16] and the fallback from IPv6 to IPv4. *)
Definition create_udp_listener (open : Sock -> bool) (bind_addr : option IpAddr) (port : Z)
    : option Sock :=
  let try ip := let s := Udp (socket_new ip (wrap_u16 port)) in if open s then Some s else None in
  match bind_addr with
  | Some ip => try ip
  | None => match try UNSPECIFIED_V6 with Some s => Some s | None => try UNSPECIFIED_V4 end
  end.

Definition open_tcp (open : Sock -> bool) (l : Listen) : option Sock :=
  if open (Tcp l) then Some (Tcp l) else None.

Definition create_tcp_listener (open : Sock -> bool) (bind_addr : option IpAddr) (port : Z)
    : option Sock :=
  open_tcp open (listen_tcp bind_addr (wrap_u16 port)).

(** [listen_console], when a listener is wanted; the outer [None] is a failure. *)
Definition open_console (open : Sock -> bool) (bind_addr : option IpAddr) (port : Z)
    : option (option Sock) :=
  match listen_console bind_addr (wrap_u16 port) with
  | Some l => Some <$> open_tcp open l
  | None => Some None
  end.

Record Listeners := mkListeners {
  l_udp : Sock;
  l_main : Sock;
  l_nat : Sock;
  l_ws : Sock;
  l_console : option Sock;
}.

Inductive LoopFailure := FUdpSocket | FListener3 | FListener2 | FListener | FConsoleListener.

(** The main task after a failure: the failed socket is dropped and opened again. *)
Definition reopen (open : Sock -> bool) (bind_addr : option IpAddr) (port : Z) (f : LoopFailure)
    (ls : Listeners) : option Listeners :=
  match f with
  | FUdpSocket =>
      let! s := create_udp_listener open bind_addr port in
      Some (mkListeners s (l_main ls) (l_nat ls) (l_ws ls) (l_console ls))
  | FListener =>
      let! s := create_tcp_listener open bind_addr port in
      Some (mkListeners (l_udp ls) s (l_nat ls) (l_ws ls) (l_console ls))
  | FListener2 =>
      let! s := create_tcp_listener open bind_addr (nat_port port) in
      Some (mkListeners (l_udp ls) (l_main ls) s (l_ws ls) (l_console ls))
  | FConsoleListener =>
      let! s := open_console open bind_addr (nat_port port) in
      Some (mkListeners (l_udp ls) (l_main ls) (l_nat ls) (l_ws ls) s)
  | FListener3 =>
      let! s := create_tcp_listener open bind_addr (ws_port port) in
      Some (mkListeners (l_udp ls) (l_main ls) (l_nat ls) s (l_console ls))
  end.

(** [str::parse::<SocketAddr>]. *)
Definition read_port (s : string) : option (Z * string) :=
  let! rest := read_char ":" s in read_number 10 u16_max (String.length rest) true rest.

Definition read_socket_v4 (s : string) : option (SocketAddr * string) :=
  let! (a, rest) := read_ipv4 s in
  let! (p, rest) := read_port rest in Some (SocketV4 a p, rest).

Definition read_scope (s : string) : option (Z * string) :=
  let! rest := read_char "%" s in read_number 10 u32_max (String.length rest) true rest.

Definition read_socket_v6 (s : string) : option (SocketAddr * string) :=
  let! rest := read_char "[" s in
  let! (a, rest) := read_ipv6 rest in
  let '(sc, rest) := default (0, rest) (read_scope rest) in
  let! rest := read_char "]" rest in
  let! (p, rest) := read_port rest in Some (SocketV6 a p 0 sc, rest).

Definition parse_socket (s : string) : option SocketAddr :=
  match all_read (read_socket_v4 s) with
  | Some a => Some a
  | None => all_read (read_socket_v6 s)
  end.

Section Process.
  Context {hbb : HbbCommon} {netlib : IpNetworkLib} {v4net : Ipv4NetworkLib}
    {trig : FloatTrig} {mm : MaxMind} {sodium : Sodium} {json : InfoJson} {jwt : JwtLib}
    {proto : RendezvousProto}.

(** ** Starting *)

(** What the start meets: the environment, the key that [get_server_sk] gives, the database,
    the resolver and the machine's address, hbb_common's [get_version_from_url], the parser of
    [--mask], the files of the selector and the sockets. *)
Record Boot := mkBoot {
  bt_env : Environ;
  bt_key : option (string * option SignKey);
  bt_pm : option PeerMap;
  bt_resolve : string -> option (list SocketAddr);
  bt_version : string -> string;
  bt_mask : string -> option Ipv4Network;
  bt_local_ip : option string;
  bt_fs : FsView;
  bt_open : Sock -> bool;
  bt_local_addr : Sock -> option SocketAddr;
}.

Inductive StartError := NoKey | NoDatabase | CannotListen | NoLocalAddr | BadTestAddr.

(** A running server, the key its clients must have, the idle time of a websocket, and the
    address the watchdog probes. *)
Record Started := mkStarted {
  st_server : Server;
  st_socks : Listeners;
  st_key : string;
  st_idle_ms : Z;
  st_watch : option SocketAddr;
}.

Definition is_yes (v : string) : bool := bool_decide (to_uppercase v = "Y").

Definition must_login_setting (e : Environ) : bool :=
  let v := get_arg "must-login" e in
  is_yes v || (str_is_empty v && is_yes (default "" (env_var e "MUST_LOGIN"))).

Definition ws_idle_setting (e : Environ) : Z :=
  let idle := match parse_u64 (get_arg "ws-idle-timeout" e) with
              | Some v => if 0 <? v then v else WS_IDLE_TIMEOUT_DEFAULT_SEC
              | None => WS_IDLE_TIMEOUT_DEFAULT_SEC
              end in
  wrap64 (idle * 1000).

Definition punch_req_max_setting (e : Environ) : nat :=
  Z.to_nat (default 100000 (parse_usize (get_arg "MAX_PUNCH_REQUESTS" e))).

(** The part of the start that asks nothing of the system: the server of the settings. *)
Definition server_of (e : Environ) (b : Boot) (pm : PeerMap) (sk : option SignKey) (serial : Z)
    : Server :=
  let software_url := get_arg "software-url" e in
  let mask := bt_mask b (get_arg "mask" e) in
  let local_ip := match mask with
                  | None => ""
                  | Some _ => get_arg_or "local-ip" (default "" (bt_local_ip b)) e
                  end in
  mkServer ∅ pm selector_default [] (get_servers (bt_resolve b) (get_arg "rendezvous-servers" e))
    (mkInner serial (bt_version b software_url) software_url mask local_ip sk) ∅ ∅ ∅ ∅ []
    false false (punch_req_max_setting e) (default "" (env_var e "RUSTDESK_API_JWT_KEY")).

Definition configured (e : Environ) (fs : FsView) (s : Server) : Server :=
  let s := parse_relay_servers (get_arg "relay-servers" e) s in
  let s := set_relays (configure (fun a => get_arg a e) (fun a d => get_arg_or a d e) fs (relay_servers s))
             (relay_servers0 s) s in
  set_switches (is_yes (get_arg "ALWAYS_USE_RELAY" e)) (must_login_setting e) s.

(** The five sockets, in the order they are opened. *)
Definition open_all (open : Sock -> bool) (bind_addr : option IpAddr) (port : Z) : option Listeners :=
  let! udp := create_udp_listener open bind_addr port in
  let! main := create_tcp_listener open bind_addr port in
  let! nat := create_tcp_listener open bind_addr (nat_port port) in
  let! ws := create_tcp_listener open bind_addr (ws_port port) in
  let! console := open_console open bind_addr (nat_port port) in
  Some (mkListeners udp main nat ws console).

(** The address of the watchdog: [None] when it is switched off. *)
Definition watch_addr (e : Environ) (local : SocketAddr) : result StartError (option SocketAddr) :=
  let test_addr := get_arg "TEST_HBBS" e in
  if bool_decide (to_lowercase test_addr = "no") then Ok None
  else if str_is_empty test_addr then Ok (Some local)
  else match parse_socket test_addr with Some a => Ok (Some a) | None => Err BadTestAddr end.

Definition start_with_bind (a : HbbsArgs) (b : Boot) : result StartError Started :=
  let? (key, sk) := ok_or (bt_key b) NoKey in
  let? pm := ok_or (bt_pm b) NoDatabase in
  let e := bt_env b in
  let s := server_of e b pm sk (h_serial a) in
  let e := <["PORT_FOR_API" := Some (show_Z (h_port a))]> e in
  let? socks := ok_or (open_all (bt_open b) (h_bind a) (h_port a)) CannotListen in
  let s := configured e (bt_fs b) s in
  let? local := ok_or (bt_local_addr b (l_main socks)) NoLocalAddr in
  let? _ := ok_or (bt_local_addr b (l_nat socks)) NoLocalAddr in
  let? _ := ok_or (bt_local_addr b (l_ws socks)) NoLocalAddr in
  let? watch := watch_addr e local in
  Ok (mkStarted s socks key (ws_idle_setting e) watch).

(** ** The watchdog *)

(** [test_hbbs] as the task that [start_with_bind] spawns: off, about to open its socket, or
    probing, with the address it was started with and the time of the last readable datagram. *)
Inductive Watch :=
| WOff
| WStart (addr : SocketAddr)
| WOn (addr : SocketAddr) (last : Instant).

(** The address that is probed. *)
Definition probe_addr (addr : SocketAddr) : SocketAddr :=
  if is_unspecified (socket_ip addr) then
    match addr with
    | SocketV4 _ p => SocketV4 2130706433 p
    | SocketV6 _ p f sc => SocketV6 1 p f sc
    end
  else addr.

Definition probe_message : RendezvousMessage := MRegisterPeer (mkRegisterPeer "(:test_hbbs:)" 0).

(** Its socket is opened or not, a second is over and the next probe can be sent or not, a
    datagram arrives. *)
Inductive WatchEvent :=
| WOpen (t : Instant) (ok : bool)
| WTick (t : Instant) (ok : bool)
| WDatagram (t : Instant) (bytes : Bytes).

(** After an error: once more over IPv4 where the address was the unspecified one of IPv6, else
    [std::process::exit] ([None]). *)
Definition watch_failed (addr : SocketAddr) : option Watch :=
  match addr with
  | SocketV6 _ p _ _ =>
      if is_unspecified (socket_ip addr) then Some (WStart (socket_new UNSPECIFIED_V4 p)) else None
  | SocketV4 _ _ => None
  end.

Definition watch_step (w : Watch) (e : WatchEvent) : option Watch :=
  match w, e with
  | WStart addr, WOpen t ok => if ok then Some (WOn addr t) else watch_failed addr
  | WOn addr last, WTick t ok =>
      if 12 <? elapsed_secs t last then watch_failed addr
      else if ok then Some w else watch_failed addr
  | WOn addr last, WDatagram t bytes =>
      match parse_from_bytes bytes with Some _ => Some (WOn addr t) | None => Some w end
  | _, _ => Some w
  end.

(** ** Running *)

(** What the tasks are started with. *)
Record Config := mkConfig {
  cf_bind : option IpAddr;
  cf_port : Z;
  cf_key : string;
  cf_idle_ms : Z;
}.

Record Hbbs := mkHbbs {
  hp_sys : WsSystem;
  hp_tcp : gmap Z (SocketAddr * TcpConn);
  hp_queue : list Data;
  hp_socks : Listeners;
  hp_watch : Watch;
}.

Definition hp_server (h : Hbbs) : Server := sys_server (hp_sys h).

(** A connection to the port before the main one: from this machine a command, from elsewhere
    a message; [None] when nothing readable came in time. *)
Definition handle_listener2 (cenv : ConsoleEnv) (addr : SocketAddr) (input : option Bytes)
    : M (list CmdLine * option RendezvousMessage) :=
  match input with
  | None => mret ([], None)
  | Some bytes =>
      if is_loopback (socket_ip (try_into_v4 addr)) then
        out ← check_cmd cenv bytes; mret (out, None)
      else
        reply ← gets (fun s => listener2_reply (c_now cenv) s addr bytes); mret ([], reply)
  end.

Inductive ProcEvent :=
(** the main task: its timer, its channel, a datagram, a socket that failed *)
| PTick (fs : FsView)
| PRecv
| PUdp (env : Env) (valid : string -> bool) (open : Sock -> bool) (bytes : Bytes) (addr : SocketAddr)
| PFailed (f : LoopFailure) (open : Sock -> bool)
(** a health check that ends *)
| PChecked (rs0 : list string) (answered : list nat)
(** a TCP connection: accepted under a fresh number, a frame, its end *)
| PAccept (conn : Z) (addr : SocketAddr) (sk_b : BoxSecret)
| PFrame (conn : Z) (env : Env) (bytes : Bytes)
| PClosed (conn : Z)
(** a websocket: accepted, and what wakes its task *)
| PAcceptWs (real_ip : option string) (addr : SocketAddr) (t : Instant)
| PWs (conn : Z) (env : Env) (e : WsEvent)
(** a connection to the port for the NAT test and the console *)
| PNat (cenv : ConsoleEnv) (addr : SocketAddr) (input : option Bytes)
(** the watchdog, and a signal to stop *)
| PWatch (e : WatchEvent)
| PSignal.

(** What tasks send to the main task. *)
Definition to_queue (es : list Effect) : list Data :=
  omap (fun e => match e with SendData d => Some d | _ => None end) es.

(** Run a handler: the server changes, and the channel takes what it sends. *)
Definition run_on {A} (m : M A) (h : Hbbs) : A * Hbbs :=
  let sys := hp_sys h in
  let '(a, s, es) := m (sys_server sys) in
  (a, mkHbbs (mkWsSystem s (WS_CONN_SERIAL sys) (sys_conns sys)) (hp_tcp h)
        (hp_queue h ++ to_queue es) (hp_socks h) (hp_watch h)).

Definition set_tcp x h := mkHbbs (hp_sys h) x (hp_queue h) (hp_socks h) (hp_watch h).
Definition set_queue x h := mkHbbs (hp_sys h) (hp_tcp h) x (hp_socks h) (hp_watch h).
Definition set_socks x h := mkHbbs (hp_sys h) (hp_tcp h) (hp_queue h) x (hp_watch h).
Definition set_watch x h := mkHbbs (hp_sys h) (hp_tcp h) (hp_queue h) (hp_socks h) x.

(** One event, whose handler runs to its end before the next event is looked at.  The handlers
    of two connections can overlap in the code where one of them waits for the database or for a
    lock: [RegRace] and [PunchRace] split the ones that look a device up at those points.
    [None]: the process has ended. *)
Definition proc_step (cfg : Config) (h : Hbbs) (e : ProcEvent) : option Hbbs :=
  let fail f open := reopen open (cf_bind cfg) (cf_port cfg) f (hp_socks h) in
  match e with
  | PTick fs => Some (run_on (modify (fun s => (on_tick fs s).1)) h).2
  | PRecv =>
      match hp_queue h with
      | [] => Some h
      | d :: q => Some (run_on (on_data d) (set_queue q h)).2
      end
  | PUdp env valid open bytes addr =>
      let '(ok, h') := run_on (handle_udp env valid bytes addr) h in
      if (ok : bool) then Some h'
      else let! ls := fail FUdpSocket open in Some (set_socks ls h')
  | PFailed f open => let! ls := fail f open in Some (set_socks ls h)
  | PChecked rs0 answered =>
      Some (set_queue (hp_queue h ++ option_list (check_relay_servers rs0 answered)) h)
  | PAccept conn addr sk_b =>
      let '(c, h') := run_on (tcp_open conn sk_b (cf_key cfg)) h in
      Some (set_tcp (<[conn := (addr, c)]> (hp_tcp h')) h')
  | PFrame conn env bytes =>
      match hp_tcp h !! conn with
      | None => Some h
      | Some (addr, c) =>
          let '((go_on, c), h') := run_on (tcp_frame env addr (cf_key cfg) c bytes) h in
          if (go_on : bool) then Some (set_tcp (<[conn := (addr, c)]> (hp_tcp h')) h')
          else
            let '(_, h') := run_on (tcp_end addr c) h' in
            Some (set_tcp (delete conn (hp_tcp h')) h')
      end
  | PClosed conn =>
      match hp_tcp h !! conn with
      | None => Some h
      | Some (addr, c) =>
          let '(_, h') := run_on (tcp_end addr c) h in
          Some (set_tcp (delete conn (hp_tcp h')) h')
      end
  | PAcceptWs real_ip addr t =>
      Some (mkHbbs (sys_step (hp_sys h) (EvConnect real_ip addr t)) (hp_tcp h) (hp_queue h) (hp_socks h)
              (hp_watch h))
  | PWs conn env ev =>
      let sent := match sys_conns (hp_sys h) !! conn with
                  | Some c => (ws_turn env (cf_key cfg) (cf_idle_ms cfg) c ev (hp_server h)).2
                  | None => []
                  end in
      Some (mkHbbs (sys_step (hp_sys h) (EvWs conn env (cf_key cfg) (cf_idle_ms cfg) ev)) (hp_tcp h)
              (hp_queue h ++ to_queue sent) (hp_socks h) (hp_watch h))
  | PNat cenv addr input => Some (run_on (handle_listener2 cenv addr input) h).2
  | PWatch ev => let! w := watch_step (hp_watch h) ev in Some (set_watch w h)
  | PSignal => None
  end.

Fixpoint proc_run (cfg : Config) (h : Hbbs) (es : list ProcEvent) : option Hbbs :=
  match es with
  | [] => Some h
  | e :: es => let! h := proc_step cfg h e in proc_run cfg h es
  end.

(** The process right after its start. *)
Definition boot (a : HbbsArgs) (b : Boot) : result StartError (Config * Hbbs) :=
  let? st := start_with_bind a b in
  Ok (mkConfig (h_bind a) (h_port a) (st_key st) (st_idle_ms st),
      mkHbbs (mkWsSystem (st_server st) 0 ∅) ∅ [] (st_socks st)
        (match st_watch st with Some addr => WStart addr | None => WOff end)).

End Process.
