(* ===== verification/HbbsFacts.v ===== *)
(** * Facts about the rendezvous server's process

    What holds of the whole process of [Hbbs] from its start on, in whatever order its events
    come, the handler of each running to its end: the invariants of its components, proved for
    each where they live, are carried through every event, the sockets stay those the settings
    ask for, and the process ends for no other reason than the ones named. *)

From S2P Require Import Prelude RustStr Net External RelayRoutes RelayGeo RelaySelect.
From S2P Require Import RateLimit Guards PeerStore Jwt Settings Rendezvous HandlerLogic.
From S2P Require Import RendezvousFacts Connection ConnectionFacts Console Hbbs.
From Stdlib Require Import Ascii.

Local Open Scope Z_scope.

Section ProcessFacts.
  Context {hbb : HbbCommon} {netlib : IpNetworkLib} {v4net : Ipv4NetworkLib}
    {trig : FloatTrig} {mm : MaxMind} {sodium : Sodium} {json : InfoJson} {jwt : JwtLib}
    {proto : RendezvousProto}.

(** ** What the handlers may change *)

(** A property of the server that does not depend on the parts the handlers write freely. *)
Record framed (P : Server -> Prop) : Prop := {
  fr_pm : forall m s, P s -> P (set_pm m s);
  fr_pick : forall t pa pb s, P s ->
    P (set_relays (pick t t pa pb true (relay_servers s)).2 (relay_servers0 s) s);
  fr_blocker : forall b c s, P s -> P (set_guards b c (punch_reqs s) s);
  fr_punch : forall t f ti id s, P s ->
    P (set_guards (ip_blocker s) (ip_changes s)
         (record_punch_req (PUNCH_REQ_MAX s) t f ti id (punch_reqs s)) s);
  fr_tcp_punch : forall x s, P s -> P (set_tcp_punch x s);
  fr_ws : forall x s, P s -> P (set_ws x (ws_open s) s);
  fr_config : forall rs i s, P s -> P (set_config rs i s);
}.

Section Framed.
  Context (P : Server -> Prop) (HP : framed P).

Lemma framed_on_pm {A} (f : PeerMap -> A * PeerMap) : preserves P (on_pm f).
Proof. apply preserves_on_pm. intros s Hs. by apply (fr_pm _ HP). Qed.

Lemma framed_ip_allowed env ip id : preserves P (ip_allowed env ip id).
Proof.
  intros s Hs. unfold after, ip_allowed. destruct (check_ip_blocker _ _ _ _).
  by apply (fr_blocker _ HP).
Qed.

Lemma framed_register env rk addr ws : preserves P (handle_register_pk env rk addr ws).
Proof.
  unfold handle_register_pk, with_peer. pose proof framed_ip_allowed. pose proof @framed_on_pm.
  handler_auto. apply preserves_modify. intros s Hs. by apply (fr_blocker _ HP).
Qed.

Lemma framed_update_addr env id addr : preserves P (update_addr env id addr).
Proof. unfold update_addr. pose proof @framed_on_pm. handler_auto. Qed.

Lemma framed_push addr msg : preserves P (push_to_ws_peer addr msg).
Proof.
  intros s Hs. unfold after, push_to_ws_peer. repeat case_match; simpl; [done| |done].
  by apply (fr_ws _ HP).
Qed.

Lemma framed_take addr : preserves P (take_tcp_punch addr).
Proof. intros s Hs. by apply (fr_tcp_punch _ HP). Qed.

Lemma framed_sink k msg : preserves P (send_to_sink k msg).
Proof. unfold send_to_sink, sink_send. handler_auto. Qed.

Lemma framed_send_to_tcp msg addr : preserves P (send_to_tcp msg addr).
Proof.
  unfold send_to_tcp. pose proof framed_push. pose proof framed_take. pose proof framed_sink.
  handler_auto.
Qed.

Lemma framed_get_pk env ver id : preserves P (get_pk env ver id).
Proof. unfold get_pk, with_peer. pose proof @framed_on_pm. handler_auto. Qed.

Lemma framed_get_relay env pa pb : preserves P (get_relay_server env pa pb).
Proof.
  unfold get_relay_server. handler_auto. apply preserves_on_selector. intros s Hs.
  by apply (fr_pick _ HP).
Qed.

Lemma framed_punch env addr ph key ws :
  preserves P (handle_tcp_punch_hole_request env addr ph key ws).
Proof.
  unfold handle_tcp_punch_hole_request, handle_punch_hole_request, punch_message, is_lan, with_peer.
  pose proof @framed_on_pm. pose proof framed_get_relay. pose proof framed_push.
  pose proof framed_send_to_tcp. handler_auto.
  apply preserves_modify. intros s Hs. by apply (fr_punch _ HP).
Qed.

Lemma framed_relay_response env rr addr : preserves P (handle_relay_response env rr addr).
Proof.
  unfold handle_relay_response, is_lan. pose proof framed_get_pk. pose proof framed_get_relay.
  pose proof framed_send_to_tcp. handler_auto.
Qed.

Lemma framed_register_ws addr ctx : preserves P (register_ws_peer addr ctx).
Proof. apply preserves_modify. intros s Hs. by apply (fr_ws _ HP). Qed.

Lemma framed_handle_udp env valid bytes addr : preserves P (handle_udp env valid bytes addr).
Proof.
  unfold handle_udp, udp_send. pose proof framed_update_addr. pose proof framed_register.
  handler_auto. apply preserves_modify. intros s Hs. case_match; [by apply (fr_config _ HP)|done].
Qed.

Lemma framed_handle_tcp env bytes sink addr key ws ws_conn :
  preserves P (handle_tcp env bytes sink addr key ws ws_conn).
Proof.
  assert (Hroute : preserves P (leave_route_back addr sink ws_conn)).
  { unfold leave_route_back. pose proof framed_register_ws. handler_auto.
    apply preserves_modify. intros ? ?. by apply (fr_tcp_punch _ HP). }
  assert (Hws : preserves P (register_if_ws addr ws_conn)).
  { unfold register_if_ws. pose proof framed_register_ws. handler_auto. }
  unfold handle_tcp, handle_hole_sent, handle_local_addr, forward_relay_request.
  pose proof framed_update_addr. pose proof framed_register. pose proof framed_punch.
  pose proof framed_relay_response. pose proof framed_send_to_tcp. pose proof framed_get_pk.
  pose proof framed_push. pose proof framed_sink. handler_auto.
Qed.

Lemma framed_tcp_open conn sk_b key : preserves P (tcp_open conn sk_b key).
Proof. unfold tcp_open, key_exchange_phase1. pose proof framed_sink. handler_auto. Qed.

Lemma framed_tcp_frame env addr key c bytes : preserves P (tcp_frame env addr key c bytes).
Proof. unfold tcp_frame. pose proof framed_handle_tcp. handler_auto. Qed.

Lemma framed_tcp_end addr c : preserves P (tcp_end addr c).
Proof. unfold tcp_end. pose proof framed_take. handler_auto. Qed.

Lemma framed_ws_turn env key idle c ev : preserves P (ws_turn env key idle c ev).
Proof. destruct ev; cbn [ws_turn]; pose proof framed_sink; pose proof framed_handle_tcp; handler_auto. Qed.

End Framed.

(** ** The parts of the server *)

(** The selector's invariant, and the bound of the log of requests. *)
Definition server_ok (s : Server) : Prop :=
  selector_wf (relay_servers s) /\ (length (punch_reqs s) <= PUNCH_REQ_MAX s)%nat.

Lemma record_punch_req_length max t f ti id (l : list PunchReqEntry) :
  (length l <= max)%nat -> (length (record_punch_req max t f ti id l) <= max)%nat.
Proof.
  intros Hl. unfold record_punch_req. destruct max as [|max]; [done|].
  destruct (match List.find _ _ with Some e => _ | None => _ end); [done|].
  rewrite length_app. destruct (Nat.leb_spec (S max) (length l)).
  - destruct l; simpl in *; lia.
  - simpl. lia.
Qed.

Lemma server_ok_framed : framed server_ok.
Proof.
  constructor; try (by intros ? ? [? ?]); try (by intros ? ? ? [? ?]).
  - intros t pa pb s [Hs Hl]. split; [by apply pick_wf|done].
  - intros t f ti id s [Hs Hl]. split; [done|]. by apply record_punch_req_length.
Qed.

(** A task that keeps what the components promise each other. *)
Record safe_task {A} (m : M A) : Prop := {
  safe_entries : forall ok o, preserves (entries_ok ok o) m;
  safe_pm : preserves (fun s => pm_wf (pm s)) m;
  safe_server : preserves server_ok m;
}.

Lemma safe_udp env valid bytes addr : next_guid (db_env env) <> "" ->
  safe_task (handle_udp env valid bytes addr).
Proof.
  intros Hg. constructor.
  - intros ok o. apply entries_handle_udp.
  - by apply (preserves_handle_udp names_rows anything pm_wf pm_wf_invariant).
  - apply framed_handle_udp, server_ok_framed.
Qed.

Lemma safe_tcp_open conn sk_b key : safe_task (tcp_open conn sk_b key).
Proof.
  constructor.
  - intros ok o. unfold tcp_open, key_exchange_phase1. pose proof (entries_send_to_sink ok o).
    handler_auto.
  - unfold tcp_open, key_exchange_phase1. pose proof (preserves_send_to_sink pm_wf). handler_auto.
  - apply framed_tcp_open.
Qed.

Lemma safe_tcp_frame env addr key c bytes : next_guid (db_env env) <> "" ->
  safe_task (tcp_frame env addr key c bytes).
Proof.
  intros Hg. constructor.
  - intros ok o. unfold tcp_frame.
    assert (forall b, preserves (entries_ok ok o) (handle_tcp (as_task (tc_config c) env) b (tc_sink c) addr key false None))
      by (intros b; by apply entries_handle_tcp).
    handler_auto.
  - unfold tcp_frame.
    assert (forall b, preserves (fun s => pm_wf (pm s)) (handle_tcp (as_task (tc_config c) env) b (tc_sink c) addr key false None))
      by (intros b; by apply (preserves_handle_tcp names_rows anything pm_wf pm_wf_invariant)).
    handler_auto.
  - apply framed_tcp_frame, server_ok_framed.
Qed.

Lemma safe_tcp_end addr c : safe_task (tcp_end addr c).
Proof.
  constructor.
  - intros ok o. unfold tcp_end. pose proof (entries_take ok o). handler_auto.
  - unfold tcp_end. pose proof (preserves_take pm_wf). handler_auto.
  - apply framed_tcp_end, server_ok_framed.
Qed.

(** A change of the selector, the tables of the guards or the switches alone. *)
Lemma safe_modify f :
  (forall s, ws_peers (f s) = ws_peers s /\ ws_open (f s) = ws_open s /\ pm (f s) = pm s) ->
  (forall s, server_ok s -> server_ok (f s)) -> safe_task (modify f).
Proof.
  intros Hf Hs. constructor.
  - intros ok o. apply entries_modify. intros s. by destruct (Hf s) as (-> & -> & _).
  - apply preserves_modify. intros s Hw. by destruct (Hf s) as (_ & _ & ->).
  - by apply preserves_modify.
Qed.

Lemma safe_tick fs : safe_task (modify (fun s => (on_tick fs s).1)).
Proof.
  apply safe_modify; [done|]. intros s [Hs Hl]. split; [|done]. simpl.
  by apply reload_relay_geo_wf, reload_relay_routes_wf.
Qed.

Lemma safe_data d : safe_task (on_data d).
Proof.
  destruct d as [msg addr|rs|rs]; cbn [on_data].
  - constructor; [intros ok o|..]; apply preserves_emit.
  - apply safe_modify; [done|]. intros s [Hs Hl]. split; [|done]. simpl.
    by apply (run_op_wf (OpSetLive (parse_relay_list rs).1)).
  - apply safe_modify; [done|]. intros s [Hs Hl]. split; [|done]. simpl.
    by apply (run_op_wf (OpSetLive rs)).
Qed.

(** A console command is one change of the server of the kind above. *)
Lemma check_cmd_frame cenv cmd s :
  let s' := after (check_cmd cenv cmd) s in
  ws_peers s' = ws_peers s /\ ws_open s' = ws_open s /\ pm s' = pm s /\
  (server_ok s -> server_ok s').
Proof.
  unfold after, check_cmd. destruct (console _ _ _ _ _) as [[[out ops] sel]|] eqn:Ec; cbn.
  { split_and!; [done..|]. intros [Hs Hl]. split; [|done]. simpl. by eapply console_wf. }
  destruct (split_on " " (trim cmd)) as [|name args]; [done|].
  case_match; [done|]. case_match; [by destruct args|].
  case_match; [by destruct (cmd_ip_blocker _ _ _ _)|].
  case_match; [by destruct (cmd_ip_changes _ _ _ _)|].
  case_match.
  { unfold cmd_punch_requests. destruct (bool_decide (head args = Some "-"));
      (split_and!; [done..|]; intros [Hs Hl]; split; [done|]; simpl; lia). }
  case_match; [by destruct args|]. case_match; [done|]. case_match; [by destruct args|].
  by destruct (is_cmd name "test-geo" "tg").
Qed.

Lemma safe_listener2 cenv addr input : safe_task (handle_listener2 cenv addr input).
Proof.
  assert (Hc : forall cmd, safe_task (check_cmd cenv cmd)).
  { intros cmd. constructor.
    - intros ok o. apply entries_same. intros s. by destruct (check_cmd_frame cenv cmd s) as (? & ? & _).
    - apply preserves_same_pm. intros s. by destruct (check_cmd_frame cenv cmd s) as (_ & _ & ? & _).
    - intros s Hs. by apply check_cmd_frame. }
  unfold handle_listener2.
  constructor; [intros ok o|..];
    [pose proof (fun cmd => safe_entries _ (Hc cmd) ok o)|pose proof (fun cmd => safe_pm _ (Hc cmd))
    |pose proof (fun cmd => safe_server _ (Hc cmd))]; handler_auto.
Qed.

(** ** The process *)

(** The sockets the settings ask for; UDP without an address may have to do with IPv4. *)
Record socks_ok (bind : option IpAddr) (port : Z) (ls : Listeners) : Prop := {
  so_udp : exists ip, l_udp ls = Udp (socket_new ip (wrap_u16 port)) /\
    match bind with Some b => ip = b | None => ip = UNSPECIFIED_V6 \/ ip = UNSPECIFIED_V4 end;
  so_main : l_main ls = Tcp (listen_tcp bind (wrap_u16 port));
  so_nat : l_nat ls = Tcp (listen_tcp bind (wrap_u16 (nat_port port)));
  so_ws : l_ws ls = Tcp (listen_tcp bind (wrap_u16 (ws_port port)));
  so_console : l_console ls = Tcp <$> listen_console bind (wrap_u16 (nat_port port));
}.

Lemma udp_listener_ok open bind port s : create_udp_listener open bind port = Some s ->
  open s = true /\ exists ip, s = Udp (socket_new ip (wrap_u16 port)) /\
    match bind with Some b => ip = b | None => ip = UNSPECIFIED_V6 \/ ip = UNSPECIFIED_V4 end.
Proof.
  unfold create_udp_listener. destruct bind as [ip|].
  - destruct (open _) eqn:E; [|done]. intros [= <-]. split; [done|]. by exists ip.
  - destruct (open (Udp (socket_new UNSPECIFIED_V6 _))) eqn:E.
    { intros [= <-]. split; [done|]. exists UNSPECIFIED_V6. auto. }
    destruct (open (Udp (socket_new UNSPECIFIED_V4 _))) eqn:E'; [|done]. intros [= <-].
    split; [done|]. exists UNSPECIFIED_V4. auto.
Qed.

Lemma tcp_listener_ok open bind port s : create_tcp_listener open bind port = Some s ->
  open s = true /\ s = Tcp (listen_tcp bind (wrap_u16 port)).
Proof. unfold create_tcp_listener, open_tcp. destruct (open _) eqn:E; [|done]. by intros [= <-]. Qed.

Lemma console_listener_ok open bind port s : open_console open bind port = Some s ->
  s = Tcp <$> listen_console bind (wrap_u16 port).
Proof.
  unfold open_console, open_tcp. destruct (listen_console _ _) as [l|]; [|by intros [= <-]].
  destruct (open _); [|done]. by intros [= <-].
Qed.

Lemma open_all_ok open bind port ls : open_all open bind port = Some ls -> socks_ok bind port ls.
Proof.
  unfold open_all.
  destruct (create_udp_listener _ _ _) as [udp|] eqn:E1; simpl; [|done].
  destruct (create_tcp_listener _ _ port) as [main|] eqn:E2; simpl; [|done].
  destruct (create_tcp_listener _ _ (nat_port port)) as [nat|] eqn:E3; simpl; [|done].
  destruct (create_tcp_listener _ _ (ws_port port)) as [ws|] eqn:E4; simpl; [|done].
  destruct (open_console _ _ _) as [con|] eqn:E5; simpl; [|done]. intros [= <-].
  constructor; simpl; [by eapply udp_listener_ok|by eapply tcp_listener_ok..|by eapply console_listener_ok].
Qed.

Lemma reopen_ok open bind port f ls ls' : socks_ok bind port ls ->
  reopen open bind port f ls = Some ls' -> socks_ok bind port ls'.
Proof.
  intros [H1 H2 H3 H4 H5]. destruct f; simpl.
  - destruct (create_udp_listener _ _ _) eqn:E; [|done]. intros [= <-].
    constructor; simpl; [by eapply udp_listener_ok|done..].
  - destruct (create_tcp_listener _ _ _) eqn:E; [|done]. intros [= <-].
    constructor; simpl; try done; by eapply tcp_listener_ok.
  - destruct (create_tcp_listener _ _ _) eqn:E; [|done]. intros [= <-].
    constructor; simpl; try done; by eapply tcp_listener_ok.
  - destruct (create_tcp_listener _ _ _) eqn:E; [|done]. intros [= <-].
    constructor; simpl; try done; by eapply tcp_listener_ok.
  - destruct (open_console _ _ _) eqn:E; [|done]. intros [= <-].
    constructor; simpl; try done; by eapply console_listener_ok.
Qed.

Record proc_wf (cfg : Config) (n : Z) (h : Hbbs) : Prop := {
  pw_sys : sys_wf n (hp_sys h);
  pw_pm : pm_wf (pm (hp_server h));
  pw_server : server_ok (hp_server h);
  pw_socks : socks_ok (cf_bind cfg) (cf_port cfg) (hp_socks h);
}.

Lemma run_on_wf {A} (m : M A) cfg n h : safe_task m -> proc_wf cfg n h ->
  proc_wf cfg n (run_on m h).2 /\ hp_socks (run_on m h).2 = hp_socks h /\
  hp_tcp (run_on m h).2 = hp_tcp h.
Proof.
  intros [He Hp Hs] [[Hent Hctx Hu Hser] Hpm Hsrv Hso]. unfold run_on.
  specialize (He (entry_ok (sys_conns (hp_sys h))) (dom (sys_conns (hp_sys h))) _ Hent).
  specialize (Hp _ Hpm). specialize (Hs _ Hsrv). unfold after, hp_server in *.
  destruct (m (sys_server (hp_sys h))) as [[a s] es]; cbn in *.
  split; [|done]. constructor; [constructor|..]; done.
Qed.

(** The database gives every new row a guid. *)
Definition event_ok (e : ProcEvent) : Prop :=
  match e with
  | PUdp env _ _ _ _ | PFrame _ env _ | PWs _ env _ => next_guid (db_env env) <> ""
  | _ => True
  end.

Lemma sys_wf_mono n n' sys : n <= n' -> sys_wf n sys -> sys_wf n' sys.
Proof. intros Hn [H1 H2 H3 H4]. constructor; [done..|lia]. Qed.

Lemma proc_wf_mono cfg n n' h : n <= n' -> proc_wf cfg n h -> proc_wf cfg n' h.
Proof. intros Hn [H1 H2 H3 H4]. constructor; [by eapply sys_wf_mono|done..]. Qed.

(** Other parts of the process than the server and the sockets may change freely. *)
Lemma proc_wf_tcp cfg n h x : proc_wf cfg n h -> proc_wf cfg n (set_tcp x h).
Proof. by intros [H1 H2 H3 H4]. Qed.

Lemma proc_wf_queue cfg n h x : proc_wf cfg n h -> proc_wf cfg n (set_queue x h).
Proof. by intros [H1 H2 H3 H4]. Qed.

Lemma proc_wf_socks cfg n h ls : proc_wf cfg n h -> socks_ok (cf_bind cfg) (cf_port cfg) ls ->
  proc_wf cfg n (set_socks ls h).
Proof. by intros [H1 H2 H3 H4]. Qed.

Lemma proc_wf_watch cfg n h x : proc_wf cfg n h -> proc_wf cfg n (set_watch x h).
Proof. by intros [H1 H2 H3 H4]. Qed.

Lemma run_on_keeps {A} (m : M A) cfg n h a h' : safe_task m -> proc_wf cfg n h ->
  run_on m h = (a, h') -> proc_wf cfg n h' /\ hp_socks h' = hp_socks h.
Proof.
  intros Hm Hw E. destruct (run_on_wf m cfg n h Hm Hw) as (H1 & H2 & _). rewrite E in *. done.
Qed.

(** A turn of a websocket task, or its end, as seen by the server. *)
Lemma ws_step_server sys conn env key idle ev : next_guid (db_env env) <> "" ->
  pm_wf (pm (sys_server sys)) -> server_ok (sys_server sys) ->
  let s' := sys_server (sys_step sys (EvWs conn env key idle ev)) in pm_wf (pm s') /\ server_ok s'.
Proof.
  intros Hg Hp Hs. cbn [sys_step]. destruct (sys_conns sys !! conn) as [c|]; [|done].
  assert (Hpm : preserves (fun s => pm_wf (pm s)) (ws_turn env key idle c ev)).
  { pose proof (preserves_send_to_sink pm_wf).
    pose proof (fun b sink addr k w wc => preserves_handle_tcp names_rows anything pm_wf pm_wf_invariant (as_task (wc_config c) env) b sink addr k w wc Hg (fun _ _ => I)).
    destruct ev; cbn [ws_turn]; handler_auto. }
  pose proof (framed_ws_turn _ server_ok_framed env key idle c ev _ Hs) as Hs'.
  specialize (Hpm _ Hp). unfold after in *.
  by destruct (ws_turn env key idle c ev (sys_server sys)) as [[[c'|] s'] es].
Qed.

Lemma proc_step_wf cfg n h e h' : Z.of_nat n < 2 ^ 64 - 1 -> event_ok e ->
  proc_wf cfg (Z.of_nat n) h -> proc_step cfg h e = Some h' -> proc_wf cfg (Z.of_nat (S n)) h'.
Proof.
  intros Hn He Hw E. assert (Hup : forall h, proc_wf cfg (Z.of_nat n) h -> proc_wf cfg (Z.of_nat (S n)) h).
  { intros ?. apply proc_wf_mono. lia. }
  destruct e; cbn [proc_step] in E.
  - apply (inj Some) in E as <-. apply Hup, run_on_wf; [apply safe_tick|done].
  - destruct (hp_queue h) as [|d q]; apply (inj Some) in E as <-; [by apply Hup|].
    apply Hup, run_on_wf; [apply safe_data|by apply proc_wf_queue].
  - destruct (run_on (handle_udp env valid bytes addr) h) as [ok h1] eqn:Er.
    destruct (run_on_keeps _ cfg (Z.of_nat n) h ok h1 (safe_udp _ _ _ _ He) Hw Er) as [Hw1 Hs1].
    destruct ok; [apply (inj Some) in E as <-; by apply Hup|].
    destruct (reopen _ _ _ _ _) as [ls|] eqn:El; [|done]. apply (inj Some) in E as <-.
    apply Hup, proc_wf_socks; [done|]. eapply reopen_ok; [|exact El]. apply Hw.
  - destruct (reopen _ _ _ _ _) as [ls|] eqn:El; [|done]. apply (inj Some) in E as <-.
    apply Hup, proc_wf_socks; [done|]. eapply reopen_ok; [|exact El]. apply Hw.
  - apply (inj Some) in E as <-. by apply Hup, proc_wf_queue.
  - destruct (run_on _ h) as [c h1] eqn:Er. apply (inj Some) in E as <-.
    apply Hup, proc_wf_tcp. by eapply run_on_keeps, Er; [apply safe_tcp_open|].
  - destruct (hp_tcp h !! conn) as [[addr c]|]; [|apply (inj Some) in E as <-; by apply Hup].
    destruct (run_on _ h) as [[go c1] h1] eqn:Er.
    destruct (run_on_keeps _ cfg (Z.of_nat n) h _ h1 (safe_tcp_frame _ _ _ _ _ He) Hw Er) as [Hw1 _].
    destruct go; [apply (inj Some) in E as <-; by apply Hup, proc_wf_tcp|].
    destruct (run_on (tcp_end addr c1) h1) as [[] h2] eqn:Er2. apply (inj Some) in E as <-.
    apply Hup, proc_wf_tcp. by eapply run_on_keeps, Er2; [apply safe_tcp_end|].
  - destruct (hp_tcp h !! conn) as [[addr c]|]; [|apply (inj Some) in E as <-; by apply Hup].
    destruct (run_on (tcp_end addr c) h) as [[] h2] eqn:Er2. apply (inj Some) in E as <-.
    apply Hup, proc_wf_tcp. by eapply run_on_keeps, Er2; [apply safe_tcp_end|].
  - apply (inj Some) in E as <-. destruct Hw as [H1 H2 H3 H4]. constructor; [by apply sys_step_wf|done..].
  - apply (inj Some) in E as <-. destruct Hw as [H1 H2 H3 H4].
    destruct (ws_step_server (hp_sys h) conn env (cf_key cfg) (cf_idle_ms cfg) e He H2 H3) as [H5 H6].
    constructor; [by apply sys_step_wf|done..].
  - apply (inj Some) in E as <-. apply Hup, run_on_wf; [apply safe_listener2|done].
  - destruct (watch_step _ _); [|done]. apply (inj Some) in E as <-. by apply Hup, proc_wf_watch.
  - done.
Qed.

Lemma proc_run_wf cfg n h es h' : Z.of_nat (n + length es) < 2 ^ 64 -> Forall event_ok es ->
  proc_wf cfg (Z.of_nat n) h -> proc_run cfg h es = Some h' ->
  proc_wf cfg (Z.of_nat (n + length es)) h'.
Proof.
  intros Hn Hes. revert n h Hn. induction Hes as [|e es He _ IH]; intros n h Hn Hw; simpl.
  { intros [= <-]. by rewrite Nat.add_0_r. }
  destruct (proc_step cfg h e) as [h1|] eqn:E; [|done]. rewrite Nat.add_succ_r. simpl in Hn.
  apply (IH (S n)); [lia|]. eapply proc_step_wf; [lia|exact He|exact Hw|exact E].
Qed.

Lemma configured_ok e fs s : server_ok s -> server_ok (configured e fs s).
Proof.
  intros [Hs Hl]. unfold configured, parse_relay_servers. split; [|done]. simpl.
  apply configure_wf. by apply (run_op_wf (OpSetLive (parse_relay_list (get_arg "relay-servers" e)).1)).
Qed.

(** The process right after a start on a sound database. *)
Lemma boot_wf a b db cfg h : bt_pm b = Some (pm_new db) -> db_wf db -> boot a b = Ok (cfg, h) ->
  cf_bind cfg = h_bind a /\ cf_port cfg = h_port a /\ proc_wf cfg 0 h.
Proof.
  intros Hdb Hwf. unfold boot, start_with_bind. rewrite Hdb.
  destruct (bt_key b) as [[key sk]|]; simpl; [|done].
  destruct (open_all _ _ _) as [ls|] eqn:El; simpl; [|done].
  destruct (bt_local_addr b (l_main ls)); simpl; [|done].
  destruct (bt_local_addr b (l_nat ls)); simpl; [|done].
  destruct (bt_local_addr b (l_ws ls)); simpl; [|done].
  destruct (watch_addr _ _); simpl; [|done]. intros [= <- <-]. split_and!; [done..|].
  constructor; simpl.
  - constructor; simpl; [|set_solver..|done]. split; [by apply map_Forall_empty|]. by rewrite dom_empty_L.
  - by apply pm_new_wf.
  - unfold hp_server. simpl. apply configured_ok. split; [apply selector_default_wf|]. simpl. lia.
  - by eapply open_all_ok.
Qed.

(** C9: the components' invariants hold of the process from its start on, after any sequence
    of events of its main loop, its TCP and websocket tasks, its health checks, its watchdog and
    its console, in any order, the handler of each event running to its end before the next
    event: every id and key on disk and in memory agree, a loaded routing table is well formed,
    the relays' positions are on the globe and the held choices bounded, the log of requests
    keeps its limit, and whoever is entered as reachable over a websocket has a connection that
    runs and is filed under that address.  Two registrations of one new id that overlap inside
    their handlers can leave memory and disk apart: [RegRace.race_locks_both_out]. *)
Theorem process_invariants (a : HbbsArgs) (b : Boot) (db : Database) (cfg : Config) (h0 h : Hbbs)
    (es : list ProcEvent) :
  bt_pm b = Some (pm_new db) -> db_wf db -> boot a b = Ok (cfg, h0) ->
  Forall event_ok es -> Z.of_nat (length es) < 2 ^ 64 -> proc_run cfg h0 es = Some h ->
  let s := hp_server h in
  pm_wf (pm s) /\ selector_wf (relay_servers s) /\ (length (punch_reqs s) <= PUNCH_REQ_MAX s)%nat /\
  map_Forall (entry_ok (sys_conns (hp_sys h))) (ws_peers s) /\
  ws_open s = dom (sys_conns (hp_sys h)).
Proof.
  intros Hdb Hwf Hb Hes Hn Hr. destruct (boot_wf a b db cfg h0 Hdb Hwf Hb) as (_ & _ & H0).
  destruct (proc_run_wf cfg 0 h0 es h Hn Hes H0 Hr) as [[[H1 H2] _ _ _] H3 [H4 H5] _].
  done.
Qed.

(** A socket of the settings. *)
Definition wanted (bind : option IpAddr) (port : Z) (s : Sock) : Prop :=
  exists ls, socks_ok bind port ls /\
    (s = l_udp ls \/ s = l_main ls \/ s = l_nat ls \/ s = l_ws ls \/ Some s = l_console ls).

(** A socket that is not opened again was refused by the system. *)
Lemma reopen_refused open bind port f ls : socks_ok bind port ls ->
  reopen open bind port f ls = None -> exists s, wanted bind port s /\ open s = false.
Proof.
  intros Hls.
  assert (Htcp : forall p, create_tcp_listener open bind p = None ->
    open (Tcp (listen_tcp bind (wrap_u16 p))) = false).
  { intros p. unfold create_tcp_listener, open_tcp. by destruct (open _). }
  destruct f; simpl.
  - destruct (create_udp_listener open bind port) eqn:E; [done|]. intros _.
    unfold create_udp_listener in E.
    set (ip := match bind with Some b => b | None => UNSPECIFIED_V6 end).
    exists (Udp (socket_new ip (wrap_u16 port))). split.
    + exists (mkListeners (Udp (socket_new ip (wrap_u16 port))) (l_main ls) (l_nat ls) (l_ws ls) (l_console ls)).
      split; [|by left]. destruct Hls as [H1 H2 H3 H4 H5]. constructor; [|done..].
      exists ip. split; [done|]. subst ip. destruct bind; auto.
    + subst ip. destruct bind as [ip|]; by destruct (open (Udp (socket_new _ _))) eqn:Eo.
  - destruct (create_tcp_listener _ _ _) eqn:E; [done|]. intros _. eexists. split; [|by apply (Htcp _ E)].
    exists ls. split; [done|]. rewrite <- (so_ws _ _ _ Hls). auto.
  - destruct (create_tcp_listener _ _ _) eqn:E; [done|]. intros _. eexists. split; [|by apply (Htcp _ E)].
    exists ls. split; [done|]. rewrite <- (so_nat _ _ _ Hls). auto.
  - destruct (create_tcp_listener _ _ _) eqn:E; [done|]. intros _. eexists. split; [|by apply (Htcp _ E)].
    exists ls. split; [done|]. rewrite <- (so_main _ _ _ Hls). auto.
  - destruct (open_console _ _ _) eqn:E; [done|]. intros _. unfold open_console, open_tcp in E.
    pose proof (so_console _ _ _ Hls) as Hc. destruct (listen_console _ _) as [l|]; [|done].
    destruct (open (Tcp l)) eqn:Eo; [done|]. exists (Tcp l). split; [|done].
    exists ls. split; [done|]. rewrite Hc. auto 10.
Qed.

(** Why an event ends the process that is in state [h]: the system refuses a socket that has to
    be opened again; the watchdog, which has no second address to try, cannot open its socket or
    send, or has had no readable answer for more than 12 whole seconds; or a signal. *)
Definition ends_because (bind : option IpAddr) (port : Z) (h : Hbbs) (e : ProcEvent) : Prop :=
  match e with
  | PFailed _ open | PUdp _ _ open _ _ => exists s, wanted bind port s /\ open s = false
  | PWatch (WOpen _ ok) => exists addr, hp_watch h = WStart addr /\ ok = false /\
      watch_failed addr = None
  | PWatch (WTick t ok) => exists addr last, hp_watch h = WOn addr last /\
      (12 < elapsed_secs t last \/ ok = false) /\ watch_failed addr = None
  | PSignal => True
  | _ => False
  end.

Lemma proc_step_end cfg n h e : proc_wf cfg n h -> proc_step cfg h e = None ->
  ends_because (cf_bind cfg) (cf_port cfg) h e.
Proof.
  intros Hw E. destruct e as [| | | | | | | | | | |ev|]; cbn [proc_step] in E; try done.
  - by destruct (hp_queue h).
  - destruct (run_on _ h) as [[] h1]; [done|].
    destruct (reopen _ _ _ _ _) eqn:El; [done|].
    exact (reopen_refused _ _ _ _ _ (pw_socks _ _ _ Hw) El).
  - destruct (reopen _ _ _ _ _) eqn:El; [done|].
    exact (reopen_refused _ _ _ _ _ (pw_socks _ _ _ Hw) El).
  - by destruct (run_on _ h) as [c h1].
  - destruct (hp_tcp h !! conn) as [[addr c]|]; [|done].
    destruct (run_on _ h) as [[[] c1] h1]; [done|]. by destruct (run_on (tcp_end addr c1) h1).
  - destruct (hp_tcp h !! conn) as [[addr c]|]; [|done]. by destruct (run_on (tcp_end addr c) h).
  - destruct (watch_step _ _) eqn:Ew; [done|]. clear E.
    destruct (hp_watch h) as [|addr|addr last] eqn:Eh, ev as [t ok|t ok|t bytes]; simpl in Ew; try done.
    + destruct ok; [done|]. by exists addr.
    + exists addr, last. destruct (Z.ltb_spec 12 (elapsed_secs t last)); [auto|].
      destruct ok; [done|auto].
    + by destruct (parse_from_bytes bytes).
Qed.

Lemma proc_run_end cfg es : Forall event_ok es -> forall h0 n,
  proc_run cfg h0 es = None -> Z.of_nat (n + length es) < 2 ^ 64 -> proc_wf cfg (Z.of_nat n) h0 ->
  exists before e after h, es = before ++ e :: after /\ proc_run cfg h0 before = Some h /\
    ends_because (cf_bind cfg) (cf_port cfg) h e.
Proof.
  induction 1 as [|e es He _ IH]; intros h0 n; simpl; [done|].
  destruct (proc_step cfg h0 e) as [h1|] eqn:E; intros Hr Hn H0.
  - destruct (IH h1 (S n)) as (before & e' & after & h & -> & Hb & Hrest);
      [done|lia|by eapply proc_step_wf; [lia|..]|].
    exists (e :: before), e', after, h. split; [done|]. split; [|done]. simpl. by rewrite E.
  - exists [], e, es, h0. split; [done|]. split; [done|]. by eapply proc_step_end.
Qed.

(** C29: a server that has started listens, as long as it runs, at exactly the addresses its
    settings name: UDP and TCP at the port, the ports before it and two after it, and the
    console's own socket when the bind address does not serve 127.0.0.1; a socket that fails is
    replaced by the same one.  The process ends only because the system refuses one of these
    when it is opened again, because the watchdog could not open its socket or send its probe
    or had no readable answer for more than 12 whole seconds, with no second address to try,
    or because of a signal. *)
Theorem sockets_survive_failures (a : HbbsArgs) (b : Boot) (db : Database) (cfg : Config) (h0 : Hbbs)
    (es : list ProcEvent) :
  bt_pm b = Some (pm_new db) -> db_wf db -> boot a b = Ok (cfg, h0) ->
  Forall event_ok es -> Z.of_nat (length es) < 2 ^ 64 ->
  match proc_run cfg h0 es with
  | Some h => socks_ok (h_bind a) (h_port a) (hp_socks h)
  | None => exists before e after h, es = before ++ e :: after /\
      proc_run cfg h0 before = Some h /\ ends_because (h_bind a) (h_port a) h e
  end.
Proof.
  intros Hdb Hwf Hb Hes Hn. destruct (boot_wf a b db cfg h0 Hdb Hwf Hb) as (<- & <- & H0).
  destruct (proc_run cfg h0 es) as [h|] eqn:E.
  - by apply (proc_run_wf cfg 0 h0 es h Hn Hes H0 E).
  - by apply (proc_run_end cfg es Hes h0 0).
Qed.

(** *** The watchdog *)

(** The watchdog's probe is answered at once, to where it came from, whatever the server holds:
    a peer registration with that name is not needed. *)
Lemma probe_answered env valid bytes addr s :
  parse_from_bytes bytes = Some probe_message -> (forall m a, udp_ok env m a = true) ->
  exists request_pk rest, sent (handle_udp env valid bytes addr) s =
    SendUdp (MRegisterPeerResponse request_pk) addr :: rest.
Proof.
  intros Hp Hok. unfold handle_udp. rewrite Hp. unfold probe_message, id_ok. cbn [rp_id].
  change (str_nonempty "(:test_hbbs:)" && _) with true. cbv iota. rewrite sent_bind.
  assert (Hu : sent (update_addr env "(:test_hbbs:)" addr) s = []).
  { unfold update_addr. rewrite sent_bind. simpl. destruct (result_of _ _) as [[l p]|]; [|done].
    by destruct (str_is_empty (pk p) || addr_changed p addr). }
  rewrite Hu, sent_bind. unfold udp_send at 1. rewrite Hok. eauto.
Qed.

End ProcessFacts.
