(* ===== verification/RelayServer.v ===== *)
(** * The relay server, hbbr ([src/src/relay_server.rs])

    Two clients that cannot reach each other both connect to the relay server and name
    the same session by its [uuid].  The first to come waits in [PEERS]; the second takes
    it out and from then on the server copies frames between the two, measuring and
    limiting the traffic.

    [Relay] is the state behind the process-wide tables and settings.  Every connection is
    served by a task of its own ([make_pair_]); [Task] is where that task stands, and
    [step] one stretch of a task between two awaits at which another task can change a
    table: taking the partner out of [PEERS], filing oneself there, the timer that takes
    the entry out again, one turn of the copying loop, the final removal from [USAGE].
    Running tasks in an arbitrary order is a sequence of such steps.

    The bandwidth limiter (async_speed_limit) only delays: its [consume] calls are
    recorded as effects, and the instants a turn carries are those of the clock after
    the delays. *)

From S2P Require Import Prelude RustStr RustFloat Net External.
From S2P Require Import PeerStore Rendezvous Connection.
From Stdlib Require Import Ascii.

Local Open Scope Z_scope.

(** ** State *)

(** [Usage]: milliseconds, bits, highest and latest speed. *)
Record Usage := mkUsage { u_elapsed : Z; u_total : Z; u_highest : Z; u_speed : Z }.

Definition usage_default : Usage := mkUsage 0 0 0 0.

(** A [Box<dyn StreamTrait>]: which connection it is, whether a websocket, and whether a
    framed TCP stream was switched to passing bytes on without frames. *)
Record Stream := mkStream { st_conn : nat; st_ws : bool; st_raw : bool }.

#[export] Instance Stream_eq_dec : EqDecision Stream.
Proof. solve_decision. Defined.

(** The atomics. *)
Record Settings := mkSettings {
  DOWNGRADE_THRESHOLD_100 : Z;
  DOWNGRADE_START_CHECK : Z;
  LIMIT_SPEED : Z;
  TOTAL_BANDWIDTH : Z;
  SINGLE_BANDWIDTH : Z;
}.

Definition settings_default : Settings :=
  mkSettings 66 1800000 (32 * 1024 * 1024) (1024 * 1024 * 1024) (128 * 1024 * 1024).

(** [total_speed] is the rate of the limiter shared by all sessions. *)
Record Relay := mkRelay {
  PEERS : gmap string Stream;
  USAGE : gmap string Usage;
  BLACKLIST : gset string;
  BLOCKLIST : gset string;
  settings : Settings;
  total_speed : f64;
}.

Definition set_PEERS x g :=
  mkRelay x (USAGE g) (BLACKLIST g) (BLOCKLIST g) (settings g) (total_speed g).
Definition set_USAGE x g :=
  mkRelay (PEERS g) x (BLACKLIST g) (BLOCKLIST g) (settings g) (total_speed g).
Definition set_lists b c g :=
  mkRelay (PEERS g) (USAGE g) b c (settings g) (total_speed g).
Definition set_settings x g :=
  mkRelay (PEERS g) (USAGE g) (BLACKLIST g) (BLOCKLIST g) x (total_speed g).
Definition set_total_speed x g :=
  mkRelay (PEERS g) (USAGE g) (BLACKLIST g) (BLOCKLIST g) (settings g) x.

(** ** Streams *)

(** What a websocket delivers. *)
Inductive WsMsg := Binary (b : Bytes) | NotBinary.

(** What a stream's [recv] finds: nothing more, a broken stream, or data. *)
Inductive StreamInput :=
| TcpInput (r : option (result string Bytes))
| WsInput (r : option (result string WsMsg)).

(** [StreamTrait::recv] of both kinds of stream. *)
Definition recv (i : StreamInput) : option (result string Bytes) :=
  match i with
  | TcpInput r => r
  | WsInput (Some (Ok (Binary b))) => Some (Ok b)
  | WsInput (Some (Ok NotBinary)) => Some (Ok "")
  | WsInput (Some (Err e)) => Some (Err e)
  | WsInput None => None
  end.

(** [StreamTrait::set_raw]. *)
Definition set_raw (s : Stream) : Stream :=
  if st_ws s then s else mkStream (st_conn s) false true.

(** The lines the console prints. *)
Inductive RelayLine :=
| LHelp
| LListed (listed : bool)
| LIp (ip : string)
| LThreshold (v : f64)
| LStartCheck (secs : Z)
| LMbps (v : f64)
| LUsage (id : string) (secs : Z) (mb : f64) (highest average speed : Z).

(** What the outside sees.  [Consume None] is a call of the limiter shared by all
    sessions, [Consume (Some slow)] one of the session's own, the slow or the fast one;
    [Forward from to b] is a frame read from one connection and written to another. *)
Inductive RelayEffect :=
| Consume (which : option bool) (bits : Z)
| Forward (from to : nat) (b : Bytes)
| Answer (lines : list RelayLine).

(** ** The copying loop *)

Record RelayState := mkRelayState {
  r_tm : Instant;
  r_elapsed : Z;
  r_total : Z;
  r_total_s : Z;
  r_highest : Z;
  r_downgrade : bool;
  r_blacked : bool;
  r_threshold : Z;
  r_last_recv : Instant;
}.

(** [downgrade_threshold], in bits per millisecond. *)
Definition downgrade_threshold (c : Settings) : Z :=
  let sb := f64_of_Z (SINGLE_BANDWIDTH c) in
  f64_to_usize (f64_div (f64_div (f64_mul sb (f64_of_Z (DOWNGRADE_THRESHOLD_100 c)))
                           (f64_of_Z 100)) (f64_of_Z 1000)).

Definition relay_init (c : Settings) (t : Instant) : RelayState :=
  mkRelayState t 0 0 0 0 false false (downgrade_threshold c) t.

Inductive Select := FromPeer (i : StreamInput) | FromStream (i : StreamInput) | Tick.

(** One turn of the loop: which branch of [select!] was ready and when, whether the write
    that followed succeeded, the time after it, and the time at which the next window of
    measurement is begun, once the lists have been read. *)
Record Turn := mkTurn {
  t_select : Select;
  t_at : Instant;
  t_sent : bool;
  t_done : Instant;
  t_reset : Instant;
}.

Inductive Outcome :=
| Continue (r : RelayState)
| Break
| Fail.

(** A frame arrived: it is counted and passed on. *)
Definition copy (t : Turn) (bytes : Bytes) (from to : nat) (r : RelayState)
    : option RelayState * list RelayEffect :=
  let nb := 8 * Z.of_nat (String.length bytes) in
  let slow := r_blacked r || r_downgrade r in
  let limits := [Consume (Some slow) nb; Consume None nb] in
  let r' := mkRelayState (r_tm r) (r_elapsed r) (wrap64 (r_total r + nb))
              (wrap64 (r_total_s r + nb)) (r_highest r) (r_downgrade r) (r_blacked r)
              (r_threshold r) (t_at t) in
  if str_nonempty bytes then
    if t_sent t then (Some r', limits ++ [Forward from to bytes]) else (None, limits)
  else (Some r', limits).

(** The measurement after each turn, at most once a second. *)
Definition measure (g : Relay) (ip id : string) (now reset : Instant) (r : RelayState)
    : Outcome * Relay :=
  let n := elapsed_millis now (r_tm r) in
  if 1000 <=? n then
    if bool_decide (ip ∈ BLOCKLIST g) then (Break, g)
    else
      let speed := r_total_s r / n in
      let highest := if r_highest r <? speed then speed else r_highest r in
      let elapsed := wrap64 (r_elapsed r + n) in
      let over := (DOWNGRADE_START_CHECK (settings g) <? elapsed) && negb (r_downgrade r) &&
                  (wrap64 (elapsed * r_threshold r) <? r_total r) in
      (Continue (mkRelayState reset elapsed (r_total r) 0 highest (r_downgrade r || over)
                   (bool_decide (ip ∈ BLACKLIST g)) (r_threshold r) (r_last_recv r)),
       set_USAGE (<[id := mkUsage elapsed (r_total r) highest speed]> (USAGE g)) g)
  else (Continue r, g).

(** One turn of [relay]. *)
Definition relay_turn (g : Relay) (ip id : string) (stream peer : nat) (r : RelayState)
    (t : Turn) : Outcome * Relay * list RelayEffect :=
  let go := fun x : option RelayState * list RelayEffect =>
    match x.1 with
    | Some r' => (measure g ip id (t_done t) (t_reset t) r', x.2)
    | None => (Fail, g, x.2)
    end in
  match t_select t with
  | FromPeer i =>
      match recv i with
      | Some (Ok bytes) => go (copy t bytes peer stream r)
      | _ => (Break, g, [])
      end
  | FromStream i =>
      match recv i with
      | Some (Ok bytes) => go (copy t bytes stream peer r)
      | _ => (Break, g, [])
      end
  | Tick =>
      if 30 <? elapsed_secs (t_at t) (r_last_recv r) then (Fail, g, [])
      else go (Some r, [])
  end.

(** [relay], turn by turn, each turn with the tables as the other tasks left them; running
    out of turns is a session still open. *)
Fixpoint relay_loop (ip id : string) (stream peer : nat) (r : RelayState)
    (ts : list (Relay * Turn)) : Outcome * list RelayEffect :=
  match ts with
  | [] => (Continue r, [])
  | (g, t) :: ts' =>
      match relay_turn g ip id stream peer r t with
      | (Continue r', _, out) =>
          let '(o, out') := relay_loop ip id stream peer r' ts' in (o, out ++ out')
      | (o, _, out) => (o, out)
      end
  end.

(** ** The console and the settings *)

(** [v.parse::<f64>()] guarded by [v > 0.], scaled and truncated. *)
Definition positive_setting (scale : f64 -> f64) (v : string) : option Z :=
  let! x := parse_f64 v in
  if f64_lt (f64_of_Z 0) x then Some (f64_to_usize (scale x)) else None.

Definition percent (v : f64) : f64 := f64_mul v (f64_of_Z 100).
Definition mega (v : f64) : f64 := f64_mul (f64_mul v (f64_of_Z 1024)) (f64_of_Z 1024).
Definition show_mega (n : Z) : f64 :=
  f64_div (f64_div (f64_of_Z n) (f64_of_Z 1024)) (f64_of_Z 1024).

(** Seconds, kept in milliseconds. *)
Definition seconds_setting (v : string) : option Z :=
  let! n := parse_usize v in
  if 0 <? n then Some (wrap64 (n * 1000)) else None.

Definition set_threshold x c := mkSettings x (DOWNGRADE_START_CHECK c) (LIMIT_SPEED c)
  (TOTAL_BANDWIDTH c) (SINGLE_BANDWIDTH c).
Definition set_start_check x c := mkSettings (DOWNGRADE_THRESHOLD_100 c) x (LIMIT_SPEED c)
  (TOTAL_BANDWIDTH c) (SINGLE_BANDWIDTH c).
Definition set_limit_speed x c := mkSettings (DOWNGRADE_THRESHOLD_100 c)
  (DOWNGRADE_START_CHECK c) x (TOTAL_BANDWIDTH c) (SINGLE_BANDWIDTH c).
Definition set_total_bandwidth x c := mkSettings (DOWNGRADE_THRESHOLD_100 c)
  (DOWNGRADE_START_CHECK c) (LIMIT_SPEED c) x (SINGLE_BANDWIDTH c).
Definition set_single_bandwidth x c := mkSettings (DOWNGRADE_THRESHOLD_100 c)
  (DOWNGRADE_START_CHECK c) (LIMIT_SPEED c) (TOTAL_BANDWIDTH c) x.

Definition store (o : option Z) (set : Z -> Settings -> Settings) (c : Settings) : Settings :=
  match o with Some x => set x c | None => c end.

(** [check_params]: [arg] is [common::get_arg]. *)
Definition check_params (arg : string -> string) (c : Settings) : Settings :=
  let c := store (positive_setting percent (arg "DOWNGRADE_THRESHOLD")) set_threshold c in
  let c := store (seconds_setting (arg "DOWNGRADE_START_CHECK")) set_start_check c in
  let c := store (positive_setting mega (arg "LIMIT_SPEED")) set_limit_speed c in
  let c := store (positive_setting mega (arg "TOTAL_BANDWIDTH")) set_total_bandwidth c in
  store (positive_setting mega (arg "SINGLE_BANDWIDTH")) set_single_bandwidth c.

(** The file of a list at start-up: the first word of every line. *)
Definition load_list (contents : option string) (l : gset string) : gset string :=
  match contents with
  | None => l
  | Some text =>
      fold_left (fun l x => match split_on " " (trim x) with
                            | ip :: _ => {[ip]} ∪ l
                            | [] => l
                            end) (split_on LF text) l
  end.

(** The add, remove and show commands of the two lists. *)
Definition list_add (arg : option string) (l : gset string) : gset string :=
  match arg with
  | Some ips => fold_left (fun l ip => {[ip]} ∪ l) (split_on "|" ips) l
  | None => l
  end.

Definition list_remove (arg : option string) (l : gset string) : gset string :=
  match arg with
  | Some ips =>
      if bool_decide (ips = "all") then ∅
      else fold_left (fun l ip => l ∖ {[ip]}) (split_on "|" ips) l
  | None => l
  end.

Definition list_show (arg : option string) (l : gset string) : list RelayLine :=
  match arg with
  | Some ip => [LListed (bool_decide (ip ∈ l))]
  | None => LIp <$> elements l
  end.

(** [usage]: the sessions that were measured, those with most traffic first. *)
Definition usage_before (a b : string * Usage) : bool := u_total b.2 <=? u_total a.2.

Definition usage_line (e : string * Usage) : list RelayLine :=
  let u := e.2 in
  if u_elapsed u =? 0 then []
  else [LUsage e.1 (u_elapsed u / 1000)
          (f64_div (show_mega (u_total u)) (f64_of_Z 8))
          (u_highest u) (u_total u / u_elapsed u) (u_speed u)].

Definition usage_lines (u : gmap string Usage) : list RelayLine :=
  mjoin (usage_line <$> sort_by usage_before (map_to_list u)).

Definition is_word (name long short : string) : bool :=
  bool_decide (name = long) || bool_decide (name = short).

(** A setting is changed by a value and shown without one. *)
Definition setting_cmd (arg : option string) (read : string -> option Z)
    (set : Z -> Settings -> Settings) (line : RelayLine) (g : Relay)
    : list RelayLine * Relay :=
  match arg with
  | Some v => ([], set_settings (store (read v) set (settings g)) g)
  | None => ([line], g)
  end.

(** [check_cmd]. *)
Definition relay_check_cmd (cmd : string) (g : Relay) : list RelayLine * Relay :=
  match split_on " " (trim cmd) with
  | [] => ([], g)
  | name :: rest =>
      let arg := head rest in
      let c := settings g in
      if bool_decide (name = "h") then ([LHelp], g)
      else if is_word name "blacklist-add" "ba" then
        ([], set_lists (list_add arg (BLACKLIST g)) (BLOCKLIST g) g)
      else if is_word name "blacklist-remove" "br" then
        ([], set_lists (list_remove arg (BLACKLIST g)) (BLOCKLIST g) g)
      else if is_word name "blacklist" "b" then (list_show arg (BLACKLIST g), g)
      else if is_word name "blocklist-add" "Ba" then
        ([], set_lists (BLACKLIST g) (list_add arg (BLOCKLIST g)) g)
      else if is_word name "blocklist-remove" "Br" then
        ([], set_lists (BLACKLIST g) (list_remove arg (BLOCKLIST g)) g)
      else if is_word name "blocklist" "B" then (list_show arg (BLOCKLIST g), g)
      else if is_word name "downgrade-threshold" "dt" then
        setting_cmd arg (positive_setting percent) set_threshold
          (LThreshold (f64_div (f64_of_Z (DOWNGRADE_THRESHOLD_100 c)) (f64_of_Z 100))) g
      else if is_word name "downgrade-start-check" "t" then
        setting_cmd arg seconds_setting set_start_check
          (LStartCheck (DOWNGRADE_START_CHECK c / 1000)) g
      else if is_word name "limit-speed" "ls" then
        setting_cmd arg (positive_setting mega) set_limit_speed
          (LMbps (show_mega (LIMIT_SPEED c))) g
      else if is_word name "total-bandwidth" "tb" then
        match arg with
        | Some v =>
            match positive_setting mega v with
            | Some x => ([], set_total_speed (f64_of_Z x)
                               (set_settings (set_total_bandwidth x c) g))
            | None => ([], g)
            end
        | None => ([LMbps (show_mega (TOTAL_BANDWIDTH c))], g)
        end
      else if is_word name "single-bandwidth" "sb" then
        setting_cmd arg (positive_setting mega) set_single_bandwidth
          (LMbps (show_mega (SINGLE_BANDWIDTH c))) g
      else if is_word name "usage" "u" then (usage_lines (USAGE g), g)
      else ([], g)
  end.

(** ** Connections *)

Section Relay.
  Context {hbb : HbbCommon} {proto : RendezvousProto}.
  (** The server's key; empty when none is asked for. *)
  Context (key : string).

(** Where the task of a connection stands.  Its stream is in the task until it is filed
    in [PEERS]. *)
Inductive RelayTask :=
| TReading (s : Stream) (addr : SocketAddr)
| TMissed (s : Stream) (uuid : string)
| TWaiting (uuid : string)
| TPaired (s peer : Stream) (addr : SocketAddr)
| TRelaying (s peer : Stream) (addr : SocketAddr) (id : string) (r : RelayState)
| TClosing (id : string).

Record System := mkSystem {
  relay_of : Relay;
  tasks : gmap nat RelayTask;
  next_conn : nat;
}.

(** An accepted connection: what the console reads from it, and the outcome of the
    websocket handshake with the address header. *)
Record Accepted := mkAccepted {
  a_addr : SocketAddr;
  a_ws : bool;
  a_cmd : option string;
  a_handshake : option (option string);
}.

(** [make_pair]: the address a connection is known by, if the handshake succeeds. *)
Definition make_pair_addr (a : Accepted) : option SocketAddr :=
  if a_ws a then (fun real_ip => ws_real_addr real_ip (a_addr a)) <$> a_handshake a
  else Some (a_addr a).

(** [handle_connection]. *)
Definition handle_connection (a : Accepted) (y : System) : System * list RelayEffect :=
  let ip := socket_ip (try_into_v4 (a_addr a)) in
  if negb (a_ws a) && is_loopback ip then
    match a_cmd a with
    | Some data =>
        let '(res, g) := relay_check_cmd data (relay_of y) in
        (mkSystem g (tasks y) (next_conn y), [Answer res])
    | None => (y, [])
    end
  else if bool_decide (show_ip ip ∈ BLOCKLIST (relay_of y)) then (y, [])
  else
    match make_pair_addr a with
    | Some addr =>
        let c := next_conn y in
        (mkSystem (relay_of y) (<[c := TReading (mkStream c (a_ws a) false) addr]> (tasks y)) (S c),
         [])
    | None => (y, [])
    end.

(** The request a first frame carries, when the relay accepts it. *)
Definition relay_request (i : option StreamInput) : option string :=
  let! i := i in
  match recv i with
  | Some (Ok bytes) =>
      match parse_from_bytes bytes with
      | Some (MRequestRelay rf) =>
          if str_nonempty key && negb (bool_decide (rf_licence_key rf = key)) then None
          else if str_nonempty (rf_uuid rf) then Some (rf_uuid rf) else None
      | _ => None
      end
  | _ => None
  end.

(** The name a session is measured under. *)
Definition usage_id (addr : SocketAddr) : string :=
  show_ip (socket_ip addr) +:+ ":" +:+ show_Z (socket_port addr).

Inductive Event :=
| EvAccept (a : Accepted)
| EvFirst (c : nat) (i : option StreamInput)
| EvFile (c : nat)
| EvTimer (c : nat)
| EvStart (c : nat) (t : Instant)
| EvTurn (c : nat) (t : Turn)
| EvClose (c : nat).

Definition task_done (c : nat) (g : Relay) (y : System) : System :=
  mkSystem g (delete c (tasks y)) (next_conn y).

Definition task_to (c : nat) (k : RelayTask) (g : Relay) (y : System) : System :=
  mkSystem g (<[c := k]> (tasks y)) (next_conn y).

(** One stretch of [make_pair_]; [None] when no task stands where the event says. *)
Definition step (y : System) (e : Event) : option (System * list RelayEffect) :=
  let g := relay_of y in
  match e with
  | EvAccept a => Some (handle_connection a y)
  | EvFirst c i =>
      match tasks y !! c with
      | Some (TReading s addr) =>
          Some (match relay_request i with
                | None => task_done c g y
                | Some uuid =>
                    let g' := set_PEERS (delete uuid (PEERS g)) g in
                    match PEERS g !! uuid with
                    | Some peer => task_to c (TPaired s peer addr) g' y
                    | None => task_to c (TMissed s uuid) g' y
                    end
                end, [])
      | _ => None
      end
  | EvFile c =>
      match tasks y !! c with
      | Some (TMissed s uuid) =>
          Some (task_to c (TWaiting uuid) (set_PEERS (<[uuid := s]> (PEERS g)) g) y, [])
      | _ => None
      end
  | EvTimer c =>
      match tasks y !! c with
      | Some (TWaiting uuid) =>
          Some (task_done c (set_PEERS (delete uuid (PEERS g)) g) y, [])
      | _ => None
      end
  | EvStart c t =>
      match tasks y !! c with
      | Some (TPaired s peer addr) =>
          let raw := negb (st_ws s) && negb (st_ws peer) in
          let id := usage_id addr in
          Some (task_to c (TRelaying (if raw then set_raw s else s)
                             (if raw then set_raw peer else peer) addr id
                             (relay_init (settings g) t))
                  (set_USAGE (<[id := usage_default]> (USAGE g)) g) y, [])
      | _ => None
      end
  | EvTurn c t =>
      match tasks y !! c with
      | Some (TRelaying s peer addr id r) =>
          let '(o, g', out) := relay_turn g (show_ip (socket_ip addr)) id (st_conn s)
                                 (st_conn peer) r t in
          Some (match o with
                | Continue r' => task_to c (TRelaying s peer addr id r') g' y
                | _ => task_to c (TClosing id) g' y
                end, out)
      | _ => None
      end
  | EvClose c =>
      match tasks y !! c with
      | Some (TClosing id) => Some (task_done c (set_USAGE (delete id (USAGE g)) g) y, [])
      | _ => None
      end
  end.

(** The server before its first connection. *)
Definition relay_start (arg : string -> string) (blacklist blocklist : option string) : System :=
  let c := check_params arg settings_default in
  mkSystem (mkRelay ∅ ∅ (load_list blacklist ∅) (load_list blocklist ∅) c
              (f64_of_Z (TOTAL_BANDWIDTH c))) ∅ 0.

(** What has happened and what came of it, in any order of the tasks. *)
Inductive runs (y0 : System) : list Event -> System -> list RelayEffect -> Prop :=
| runs_nil : runs y0 [] y0 []
| runs_snoc es y out e y' out' :
    runs y0 es y out -> step y e = Some (y', out') -> runs y0 (es ++ [e]) y' (out ++ out').

End Relay.
