(* ===== verification/RelayFacts.v ===== *)
(** * What the relay server guarantees ([RelayServer])

    Sessions are isolated: whatever the order in which the tasks run, a connection
    exchanges frames with at most one other, which presented the same session and the
    server's key.  Within a session frames are copied unchanged and in order, the traffic
    is measured consistently, and the limits in force are those of the lists and of the
    downgrade rule.  The last part shows the two orders of events in which the ends of one
    session fail to meet. *)

From S2P Require Import Prelude RustStr RustFloat Net External.
From S2P Require Import PeerStore Rendezvous Connection RelayServer.
From Stdlib Require Import Ascii.

Local Open Scope Z_scope.

(** ** One turn *)

(** Why a turn ends the session: the stream that was ready has no frame, the frame could
    not be written, nothing was received for more than 30 seconds, or the address is
    blocked when the second is over. *)
Definition incoming (t : Turn) : option StreamInput :=
  match t_select t with FromPeer i | FromStream i => Some i | Tick => None end.

Definition frame (t : Turn) : option Bytes :=
  let! i := incoming t in
  match recv i with Some (Ok b) => Some b | _ => None end.

Definition stream_over (t : Turn) : bool :=
  match incoming t, frame t with Some _, None => true | _, _ => false end.

Definition write_failed (t : Turn) : bool :=
  match frame t with Some b => str_nonempty b && negb (t_sent t) | None => false end.

Definition silent (r : RelayState) (t : Turn) : bool :=
  match t_select t with
  | Tick => 31 * NANOS_PER_SEC <=? t_at t - r_last_recv r
  | _ => false
  end.

Definition due (r : RelayState) (t : Turn) : bool :=
  1000 * NANOS_PER_MILLI <=? t_done t - r_tm r.

Definition frame_bits (t : Turn) : Z :=
  match frame t with Some b => 8 * Z.of_nat (String.length b) | None => 0 end.

Lemma due_spec (now tm : Instant) :
  (1000 <=? elapsed_millis now tm) = (1000 * NANOS_PER_MILLI <=? now - tm).
Proof.
  pose proof (elapsed_millis_lt now tm 1000 ltac:(lia)) as H.
  destruct (1000 <=? elapsed_millis now tm) eqn:E1;
    destruct (1000 * NANOS_PER_MILLI <=? now - tm) eqn:E2; lia.
Qed.

Lemma silent_spec (now last : Instant) :
  (30 <? elapsed_secs now last) = (31 * NANOS_PER_SEC <=? now - last).
Proof.
  pose proof (elapsed_secs_gt now last 30 ltac:(lia)) as H.
  destruct (30 <? elapsed_secs now last) eqn:E1;
    destruct (31 * NANOS_PER_SEC <=? now - last) eqn:E2; lia.
Qed.

(** The state after a turn's frame was counted, the limiters it went through, and the
    frame as it is written to the other end. *)
Definition counted (t : Turn) (r : RelayState) : RelayState :=
  match frame t with
  | Some b =>
      let nb := 8 * Z.of_nat (String.length b) in
      mkRelayState (r_tm r) (r_elapsed r) (wrap64 (r_total r + nb)) (wrap64 (r_total_s r + nb))
        (r_highest r) (r_downgrade r) (r_blacked r) (r_threshold r) (t_at t)
  | None => r
  end.

Definition limits (t : Turn) (r : RelayState) : list RelayEffect :=
  match frame t with
  | Some b => let nb := 8 * Z.of_nat (String.length b) in
              [Consume (Some (r_blacked r || r_downgrade r)) nb; Consume None nb]
  | None => []
  end.

Definition forwarded (stream peer : nat) (t : Turn) : list RelayEffect :=
  match frame t with
  | Some b =>
      if str_nonempty b then
        match t_select t with
        | FromPeer _ => [Forward peer stream b]
        | _ => [Forward stream peer b]
        end
      else []
  | None => []
  end.

(** A turn in four cases, which the properties below go by. *)
Lemma relay_turn_cases (g : Relay) (ip id : string) (stream peer : nat) (r : RelayState)
    (t : Turn) :
  relay_turn g ip id stream peer r t =
    if stream_over t then (Break, g, [])
    else if silent r t then (Fail, g, [])
    else if write_failed t then (Fail, g, limits t r)
    else (measure g ip id (t_done t) (t_reset t) (counted t r),
          limits t r ++ forwarded stream peer t).
Proof.
  unfold relay_turn, stream_over, silent, write_failed, counted, limits, forwarded,
    frame, incoming, copy.
  destruct t as [sel at_ sent done_ reset]; simpl.
  destruct sel as [i|i|]; simpl; [| |by rewrite silent_spec; destruct (_ <=? _)].
  all: destruct (recv i) as [[b|e]|]; try done.
  all: destruct (str_nonempty b), sent; simpl; try done.
  all: by rewrite ?app_nil_r.
Qed.

Lemma measure_cases (g : Relay) (ip id : string) (now reset : Instant) (r : RelayState) :
  (measure g ip id now reset r).1 = Break <->
  (1000 * NANOS_PER_MILLI <=? now - r_tm r) = true /\ ip ∈ BLOCKLIST g.
Proof.
  unfold measure. rewrite <- due_spec.
  destruct (1000 <=? elapsed_millis now (r_tm r)) eqn:E; simpl; [|by split; [|intros []]].
  case_bool_decide; simpl; split; try done. by intros [].
Qed.

Lemma counted_tm (t : Turn) (r : RelayState) : r_tm (counted t r) = r_tm r.
Proof. unfold counted. by destruct (frame t). Qed.

Lemma measure_not_Fail (g : Relay) (ip id : string) (now reset : Instant) (r : RelayState) :
  (measure g ip id now reset r).1 <> Fail.
Proof. unfold measure. repeat case_match; by simplify_eq/=. Qed.

Lemma over_no_write (t : Turn) : stream_over t = true -> write_failed t = false.
Proof. unfold stream_over, write_failed. by destruct (incoming t), (frame t). Qed.

Lemma over_not_silent (r : RelayState) (t : Turn) : stream_over t = true -> silent r t = false.
Proof. unfold stream_over, silent, incoming. by destruct (t_select t). Qed.

(** C36: the session ends quietly exactly when the stream that was ready has no more frame,
    or when, at the end of a turn that does not fail, at least a second has passed since the
    last measurement and the address as it was looked up when the session began is on the block
    list; it ends with an error exactly when a frame could not be written or, at a tick of the
    timer, at least 31 seconds have passed since the last frame from either end.  Every other
    turn goes on. *)
Theorem session_ends_exactly_when (g : Relay) (ip id : string) (stream peer : nat)
    (r : RelayState) (t : Turn) :
  let o := (relay_turn g ip id stream peer r t).1.1 in
  (o = Break <->
     stream_over t = true \/
     (silent r t = false /\ write_failed t = false /\ due r t = true /\ ip ∈ BLOCKLIST g)) /\
  (o = Fail <-> silent r t = true \/ write_failed t = true).
Proof.
  intros o. subst o. rewrite relay_turn_cases.
  pose proof (measure_cases g ip id (t_done t) (t_reset t) (counted t r)) as Hm.
  pose proof (measure_not_Fail g ip id (t_done t) (t_reset t) (counted t r)) as Hf.
  rewrite counted_tm in Hm. unfold due.
  pose proof (over_no_write t). pose proof (over_not_silent r t).
  destruct (stream_over t), (silent r t), (write_failed t); simpl;
    intuition congruence.
Qed.

(** ** A session *)

(** The frames written to a connection, and the non-empty frames read from one of the two
    ends. *)
Definition written (to : nat) (out : list RelayEffect) : list Bytes :=
  omap (fun e => match e with
                 | Forward _ to' b => if (to =? to')%nat then Some b else None
                 | _ => None
                 end) out.

Definition read_from (from_peer : bool) (ts : list (Relay * Turn)) : list Bytes :=
  omap (fun gt => let! b := frame gt.2 in
                  match t_select gt.2 with
                  | FromPeer _ => if str_nonempty b && from_peer then Some b else None
                  | _ => if str_nonempty b && negb from_peer then Some b else None
                  end) ts.

Lemma written_app (to : nat) (o1 o2 : list RelayEffect) :
  written to (o1 ++ o2) = written to o1 ++ written to o2.
Proof. apply omap_app. Qed.

Lemma written_limits (to : nat) (t : Turn) (r : RelayState) : written to (limits t r) = [].
Proof. unfold limits. by destruct (frame t). Qed.

Lemma written_forwarded (stream peer : nat) (g : Relay) (t : Turn) :
  stream <> peer ->
  written stream (forwarded stream peer t) = read_from true [(g, t)] /\
  written peer (forwarded stream peer t) = read_from false [(g, t)].
Proof.
  intros Hne. unfold forwarded, read_from. simpl.
  destruct (frame t) as [b|] eqn:E; [|done].
  unfold frame, incoming in E.
  destruct (t_select t), (str_nonempty b); simpl; try done.
  all: rewrite ?Nat.eqb_refl.
  all: repeat match goal with |- context [(?x =? ?y)%nat] =>
         destruct (Nat.eqb_spec x y) as [?|_]; [congruence|] end; done.
Qed.

Lemma read_from_cons (d : bool) (gt : Relay * Turn) (ts : list (Relay * Turn)) :
  read_from d (gt :: ts) = read_from d [gt] ++ read_from d ts.
Proof. apply (omap_app _ [gt] ts). Qed.

(** C25: in a session between two connections the server writes to each end exactly the
    non-empty frames it read from the other, unchanged, in the order they came and none
    twice, up to the turn at which the session ends; while it is open nothing is held
    back. *)
Theorem frames_copied_in_order (ip id : string) (stream peer : nat) (r : RelayState)
    (ts : list (Relay * Turn)) (o : Outcome) (out : list RelayEffect) :
  stream <> peer ->
  relay_loop ip id stream peer r ts = (o, out) ->
  exists k,
    (forall r', o = Continue r' -> k = length ts) /\
    written stream out = read_from true (take k ts) /\
    written peer out = read_from false (take k ts).
Proof.
  intros Hne. revert r o out.
  induction ts as [|[g t] ts IH]; intros r o out; simpl.
  { intros [= <- <-]. by exists 0%nat. }
  rewrite relay_turn_cases.
  destruct (stream_over t); [by intros [= <- <-]; exists 0%nat|].
  destruct (silent r t); [by intros [= <- <-]; exists 0%nat|].
  destruct (write_failed t).
  { intros [= <- <-]. exists 0%nat. by rewrite !written_limits. }
  destruct (written_forwarded stream peer g t Hne) as [Hs Hp].
  destruct (measure g ip id (t_done t) (t_reset t) (counted t r)) as [[r'| |] g'] eqn:Em.
  2: { intros [= <- <-]. exists 1%nat. split; [done|].
       rewrite !written_app, !written_limits. cbn [take].
       by rewrite Hs, Hp. }
  2: { by destruct (measure_not_Fail g ip id (t_done t) (t_reset t) (counted t r)); rewrite Em. }
  destruct (relay_loop ip id stream peer r' ts) as [o' out'] eqn:Hl.
  intros [= <- <-]. destruct (IH r' o' out' Hl) as (k & Hk & IHs & IHp).
  exists (S k). split; [intros r'' E; f_equal; eauto|].
  cbn [take]. rewrite !written_app, !written_limits.
  by rewrite !(read_from_cons _ (g, t) (take k ts)), <- Hs, <- Hp, <- IHs, <- IHp.
Qed.

(** *** Limits *)

Lemma limits_slow (t : Turn) (r : RelayState) (w : bool) (nb : Z) :
  Consume (Some w) nb ∈ limits t r -> w = r_blacked r || r_downgrade r.
Proof.
  unfold limits. destruct (frame t); [|by intros ?%not_elem_of_nil].
  rewrite !elem_of_cons. intros [[= -> _]|[?|?%not_elem_of_nil]]; by simplify_eq.
Qed.

Lemma forwarded_no_consume (stream peer : nat) (t : Turn) (w : option bool) (nb : Z) :
  Consume w nb ∉ forwarded stream peer t.
Proof.
  unfold forwarded. destruct (frame t) as [b|]; [|apply not_elem_of_nil].
  destruct (str_nonempty b); [|apply not_elem_of_nil].
  destruct (t_select t); by rewrite list_elem_of_singleton.
Qed.

(** Which of its two limiters a turn uses. *)
Lemma turn_slow (g g' : Relay) (ip id : string) (stream peer : nat) (r : RelayState)
    (t : Turn) (o : Outcome) (out : list RelayEffect) (w : bool) (nb : Z) :
  relay_turn g ip id stream peer r t = (o, g', out) ->
  Consume (Some w) nb ∈ out -> w = r_blacked r || r_downgrade r.
Proof.
  rewrite relay_turn_cases.
  destruct (stream_over t); [by intros [= <- <- <-] ?%not_elem_of_nil|].
  destruct (silent r t); [by intros [= <- <- <-] ?%not_elem_of_nil|].
  destruct (write_failed t); [intros [= <- <- <-]; apply limits_slow|].
  destruct (measure _ _ _ _ _ _) as [o' g'']. intros [= <- <- <-].
  rewrite elem_of_app. intros [Hin|Hin]; [by eapply limits_slow|].
  by apply forwarded_no_consume in Hin.
Qed.

(** What a turn that goes on leaves behind. *)
Lemma turn_continue (g g' : Relay) (ip id : string) (stream peer : nat) (r r' : RelayState)
    (t : Turn) (out : list RelayEffect) :
  relay_turn g ip id stream peer r t = (Continue r', g', out) ->
  measure g ip id (t_done t) (t_reset t) (counted t r) = (Continue r', g').
Proof.
  rewrite relay_turn_cases.
  destruct (stream_over t), (silent r t), (write_failed t); try done.
  destruct (measure _ _ _ _ _ _) as [o g'']. by intros [= <- <- <-].
Qed.

Lemma counted_flags (t : Turn) (r : RelayState) :
  r_downgrade (counted t r) = r_downgrade r /\ r_blacked (counted t r) = r_blacked r /\
  r_threshold (counted t r) = r_threshold r /\ r_elapsed (counted t r) = r_elapsed r /\
  r_highest (counted t r) = r_highest r.
Proof. unfold counted. by destruct (frame t). Qed.

Lemma turn_flags (g g' : Relay) (ip id : string) (stream peer : nat) (r r' : RelayState)
    (t : Turn) (out : list RelayEffect) :
  relay_turn g ip id stream peer r t = (Continue r', g', out) ->
  r_downgrade r' = r_downgrade r ||
    (due r t && (DOWNGRADE_START_CHECK (settings g) <? r_elapsed r') &&
     (wrap64 (r_elapsed r' * r_threshold r) <? r_total r')) /\
  r_blacked r' = (if due r t then bool_decide (ip ∈ BLACKLIST g) else r_blacked r) /\
  r_threshold r' = r_threshold r.
Proof.
  intros H%turn_continue. destruct (counted_flags t r) as (Hd & Hb & Hth & He & Hh).
  revert H. unfold measure, due. rewrite due_spec, counted_tm.
  destruct (1000 * NANOS_PER_MILLI <=? t_done t - r_tm r).
  - case_bool_decide; [done|]. intros [= <- <-]. simpl. rewrite Hd, Hth.
    split; [|done]. by destruct (r_downgrade r); rewrite ?orb_true_r, ?andb_true_r.
  - intros [= <- <-]. rewrite Hd, Hb, Hth. by rewrite orb_false_r.
Qed.

Lemma loop_downgraded (ip id : string) (stream peer : nat) (r : RelayState)
    (ts : list (Relay * Turn)) (o : Outcome) (out : list RelayEffect) (w : bool) (nb : Z) :
  r_downgrade r = true -> relay_loop ip id stream peer r ts = (o, out) ->
  Consume (Some w) nb ∈ out -> w = true.
Proof.
  revert r o out. induction ts as [|[g t] ts IH]; intros r o out Hd; simpl.
  { by intros [= <- <-] ?%not_elem_of_nil. }
  destruct (relay_turn g ip id stream peer r t) as [[o' g'] out'] eqn:Et.
  assert (Hw : Consume (Some w) nb ∈ out' -> w = true).
  { intros Hin. rewrite (turn_slow _ _ _ _ _ _ _ _ _ _ _ _ Et Hin), Hd. apply orb_true_r. }
  destruct o' as [r'| |]; [|by intros [= <- <-]..].
  destruct (relay_loop ip id stream peer r' ts) as [o'' out''] eqn:El.
  intros [= <- <-]. rewrite elem_of_app. intros [Hin|Hin]; [by apply Hw|].
  refine (IH r' o'' out'' _ El Hin).
  destruct (turn_flags _ _ _ _ _ _ _ _ _ _ Et) as (-> & _). by rewrite Hd.
Qed.

(** A turn is limited to the slow rate exactly when the address was on the blacklist at
    the last measurement or the session has been downgraded.  A session is downgraded at
    a measurement past the start-check time at which it has carried more bits than the
    threshold allows for its age, and at no other moment; once it is, every later frame
    goes through the slow limiter. *)
Theorem slow_lane_rule (g g' : Relay) (ip id : string) (stream peer : nat)
    (r r' : RelayState) (t : Turn) (out : list RelayEffect) :
  relay_turn g ip id stream peer r t = (Continue r', g', out) ->
  (forall w nb, Consume (Some w) nb ∈ out -> w = r_blacked r || r_downgrade r) /\
  r_blacked r' = (if due r t then bool_decide (ip ∈ BLACKLIST g) else r_blacked r) /\
  r_downgrade r' = r_downgrade r ||
    (due r t && (DOWNGRADE_START_CHECK (settings g) <? r_elapsed r') &&
     (wrap64 (r_elapsed r' * r_threshold r) <? r_total r')) /\
  (r_downgrade r' = true -> forall ts o out' w nb,
     relay_loop ip id stream peer r' ts = (o, out') -> Consume (Some w) nb ∈ out' -> w = true).
Proof.
  intros Ht. destruct (turn_flags _ _ _ _ _ _ _ _ _ _ Ht) as (Hd & Hb & _).
  split; [|split; [done|split; [done|]]].
  - intros w nb. by apply turn_slow with (1 := Ht).
  - intros Hd' ts o out' w nb. by apply loop_downgraded.
Qed.

(** *** Measurement *)

Fixpoint bits (ts : list (Relay * Turn)) : Z :=
  match ts with [] => 0 | (_, t) :: ts' => frame_bits t + bits ts' end.

(** The clock goes on, and the session is younger than 2^64 milliseconds. *)
Fixpoint on_time (start now : Instant) (ts : list (Relay * Turn)) : Prop :=
  match ts with
  | [] => True
  | (_, t) :: ts' =>
      now <= t_done t < start + 2 ^ 64 * NANOS_PER_MILLI /\ t_done t <= t_reset t /\
      on_time start (t_reset t) ts'
  end.

Fixpoint last_time (now : Instant) (ts : list (Relay * Turn)) : Instant :=
  match ts with [] => now | (_, t) :: ts' => last_time (t_reset t) ts' end.

(** After [n] bits at time [now]: the total is exact, the bits before the running second
    were carried at no more than the highest speed. *)
Definition measured (start now : Instant) (n : Z) (r : RelayState) : Prop :=
  r_total r = n /\ 0 <= r_total_s r <= n /\ 0 <= r_highest r /\ 0 <= r_elapsed r /\
  r_elapsed r * NANOS_PER_MILLI <= r_tm r - start /\ r_tm r <= now /\
  ((r_elapsed r = 0 /\ r_total_s r = n) \/ n - r_total_s r < (r_highest r + 1) * r_elapsed r).

(** A report that makes sense. *)
Definition report_ok (n : Z) (u : Usage) : Prop :=
  1000 <= u_elapsed u /\ u_total u = n /\ u_speed u <= u_highest u /\
  u_total u / u_elapsed u <= u_highest u.

Lemma frame_bits_nonneg (t : Turn) : 0 <= frame_bits t.
Proof. unfold frame_bits. destruct (frame t); lia. Qed.

Lemma bits_nonneg (ts : list (Relay * Turn)) : 0 <= bits ts.
Proof.
  induction ts as [|[g t] ts IH]; cbn; [lia|]. pose proof (frame_bits_nonneg t). lia.
Qed.

Lemma measured_counted (start now n : Z) (r : RelayState) (t : Turn) :
  measured start now n r -> n + frame_bits t < 2 ^ 64 ->
  measured start now (n + frame_bits t) (counted t r).
Proof.
  unfold measured, counted, frame_bits. destruct (frame t) as [b|]; [|by rewrite Z.add_0_r].
  intros (Ht & Hs & Hh & He & Htm & Hnow & Hrate) Hb. simpl. rewrite Ht.
  rewrite !wrap64_small by lia. intuition lia.
Qed.

(** A measurement of a window of [n] milliseconds. *)
Lemma speed_bound (s n : Z) : 0 < n -> 0 <= s -> 0 <= s / n /\ s < (s / n + 1) * n.
Proof.
  intros Hn Hs. split; [by apply Z.div_pos|].
  pose proof (Z.div_mod s n). pose proof (Z.mod_pos_bound s n). lia.
Qed.

Lemma rate_extends (h h' e n before s : Z) :
  0 <= h -> h <= h' -> 0 <= e -> 0 < n -> 0 <= s -> s / n <= h' ->
  (e = 0 /\ before = 0) \/ before < (h + 1) * e ->
  before + s < (h' + 1) * (e + n).
Proof.
  intros Hh Hh' He Hn Hs Hsp Hb. destruct (speed_bound s n Hn Hs) as [_ Hs2].
  assert (s < (h' + 1) * n) by nia.
  destruct Hb as [[-> ->]|Hb]; [lia|]. assert (before < (h' + 1) * e) by nia. lia.
Qed.

Lemma millis_window (now tm : Z) :
  tm <= now -> 0 <= elapsed_millis now tm /\ elapsed_millis now tm * NANOS_PER_MILLI <= now - tm.
Proof.
  intros H. unfold_time. rewrite Z.max_r by lia.
  pose proof (Z.div_mod (now - tm) 1000000). pose proof (Z.mod_pos_bound (now - tm) 1000000).
  split; [apply Z.div_pos; lia|lia].
Qed.

Lemma measured_measure (start : Z) (g g' : Relay) (ip id : string) (now now' reset n : Z)
    (r r' : RelayState) :
  measured start now n r -> now <= now' < start + 2 ^ 64 * NANOS_PER_MILLI -> now' <= reset ->
  measure g ip id now' reset r = (Continue r', g') ->
  measured start reset n r' /\
  (USAGE g' = USAGE g \/ exists u, USAGE g' = <[id := u]> (USAGE g) /\ report_ok n u).
Proof.
  intros (Ht & Hs & Hh & He & Htm & Hnow & Hrate) Hclock Hreset. unfold measure.
  destruct (millis_window now' (r_tm r)) as [Hn0 Hn]; [lia|].
  destruct (Z.leb_spec 1000 (elapsed_millis now' (r_tm r))) as [Hdue|_].
  2: { intros [= <- <-]. split; [|by left]. unfold measured. intuition lia. }
  case_bool_decide; [done|]. intros [= <- <-].
  set (m := elapsed_millis now' (r_tm r)) in *.
  destruct (speed_bound (r_total_s r) m) as [Hsp _]; [lia|lia|].
  set (h := if r_highest r <? r_total_s r / m then r_total_s r / m else r_highest r).
  assert (Hh1 : r_highest r <= h /\ r_total_s r / m <= h)
    by (subst h; destruct (Z.ltb_spec (r_highest r) (r_total_s r / m)); lia).
  assert (Hw : wrap64 (r_elapsed r + m) = r_elapsed r + m)
    by (apply wrap64_small; unfold NANOS_PER_MILLI in *; lia).
  rewrite Hw.
  assert (Hr : n < (h + 1) * (r_elapsed r + m)).
  { pose proof (rate_extends (r_highest r) h (r_elapsed r) m (n - r_total_s r) (r_total_s r)).
    lia. }
  split.
  - unfold measured; simpl. unfold NANOS_PER_MILLI in *. intuition lia.
  - right. eexists. split; [done|]. unfold report_ok; simpl. rewrite Ht.
    repeat split; [lia|lia|]. apply Z.lt_succ_r, Z.div_lt_upper_bound; lia.
Qed.

Lemma measured_turn (start : Z) (g g' : Relay) (ip id : string) (stream peer : nat)
    (now n : Z) (r r' : RelayState) (t : Turn) (out : list RelayEffect) :
  measured start now n r -> now <= t_done t < start + 2 ^ 64 * NANOS_PER_MILLI ->
  t_done t <= t_reset t -> n + frame_bits t < 2 ^ 64 ->
  relay_turn g ip id stream peer r t = (Continue r', g', out) ->
  measured start (t_reset t) (n + frame_bits t) r' /\
  (USAGE g' = USAGE g \/
   exists u, USAGE g' = <[id := u]> (USAGE g) /\ report_ok (n + frame_bits t) u).
Proof.
  intros Hm Hclock Hreset Hb H%turn_continue.
  by eapply measured_measure; [apply measured_counted| | |].
Qed.

Lemma measured_loop (start : Z) (ip id : string) (stream peer : nat)
    (ts : list (Relay * Turn)) (now n : Z) (r r' : RelayState) (out : list RelayEffect) :
  measured start now n r -> on_time start now ts -> n + bits ts < 2 ^ 64 ->
  relay_loop ip id stream peer r ts = (Continue r', out) ->
  measured start (last_time now ts) (n + bits ts) r'.
Proof.
  revert now n r out. induction ts as [|[g t] ts IH]; intros now n r out Hm; simpl.
  { intros _ _ [= <- <-]. by rewrite Z.add_0_r. }
  intros (Hc & Hc' & Ho) Hb. pose proof (bits_nonneg ts).
  destruct (relay_turn g ip id stream peer r t) as [[[r1| |] g'] out'] eqn:Et; [|done..].
  destruct (relay_loop ip id stream peer r1 ts) as [o'' out''] eqn:El. intros [= -> <-].
  destruct (measured_turn start _ _ _ _ _ _ now n r r1 t _ Hm Hc Hc' ltac:(lia) Et) as [Hm1 _].
  rewrite Z.add_assoc. eapply IH; [done..|lia|done].
Qed.

Lemma on_time_app (start now : Z) (ts : list (Relay * Turn)) (g : Relay) (t : Turn) :
  on_time start now (ts ++ [(g, t)]) ->
  on_time start now ts /\ last_time now ts <= t_done t < start + 2 ^ 64 * NANOS_PER_MILLI /\
    t_done t <= t_reset t.
Proof.
  revert now. induction ts as [|[g' t'] ts IH]; intros now; simpl.
  - intros (H1 & H2 & _). by split.
  - intros (H1 & H2 & H3%IH). tauto.
Qed.

Lemma bits_app (ts : list (Relay * Turn)) (g : Relay) (t : Turn) :
  bits (ts ++ [(g, t)]) = bits ts + frame_bits t.
Proof. induction ts as [|[g' t'] ts IH]; simpl; [lia|]. rewrite IH. lia. Qed.

(** C32: in a session that carries less than 2^64 bits, every report put into [USAGE] counts
    exactly the bits received so far from both ends, covers at least a second (so the
    average the console prints divides by no zero), and neither the latest speed nor the
    average speed exceeds the highest speed it states. *)
Theorem usage_reports_consistent (c : Settings) (start : Instant) (ip id : string)
    (stream peer : nat) (ts : list (Relay * Turn)) (r r' : RelayState)
    (out out' : list RelayEffect) (g g' : Relay) (t : Turn) :
  relay_loop ip id stream peer (relay_init c start) ts = (Continue r, out) ->
  relay_turn g ip id stream peer r t = (Continue r', g', out') ->
  on_time start start (ts ++ [(g, t)]) -> bits (ts ++ [(g, t)]) < 2 ^ 64 ->
  USAGE g' = USAGE g \/
  exists u, USAGE g' = <[id := u]> (USAGE g) /\ report_ok (bits (ts ++ [(g, t)])) u.
Proof.
  intros Hl Ht (Ho & Hc & Hc')%on_time_app Hb. rewrite bits_app in *.
  pose proof (frame_bits_nonneg t).
  assert (H0 : measured start start 0 (relay_init c start))
    by (unfold measured; simpl; intuition lia).
  pose proof (measured_loop start ip id stream peer ts start 0 _ _ _ H0 Ho ltac:(lia) Hl) as Hm.
  by destruct (measured_turn start g g' ip id stream peer _ _ _ _ _ _ Hm Hc Hc' ltac:(lia) Ht) as [_ ?].
Qed.

(** ** Isolation of sessions

    The connections held anywhere, in tasks or in the table, are held once: every step
    only moves, drops or newly accepts one. *)

Definition task_conns (k : RelayTask) : list nat :=
  match k with
  | TReading s _ | TMissed s _ => [st_conn s]
  | TPaired s p _ | TRelaying s p _ _ _ => [st_conn s; st_conn p]
  | TWaiting _ | TClosing _ => []
  end.

Definition held_tasks (m : gmap nat RelayTask) : list nat :=
  map_to_list m ≫= fun ck => task_conns ck.2.

Definition held_peers (m : gmap string Stream) : list nat :=
  (fun us => st_conn us.2) <$> map_to_list m.

Definition held (y : System) : list nat :=
  held_tasks (tasks y) ++ held_peers (PEERS (relay_of y)).

Lemma held_tasks_delete (m : gmap nat RelayTask) (c : nat) (k : RelayTask) :
  m !! c = Some k -> held_tasks m ≡ₚ task_conns k ++ held_tasks (delete c m).
Proof. intros H. unfold held_tasks. by rewrite <- (map_to_list_delete m c k H). Qed.

Lemma held_tasks_insert (m : gmap nat RelayTask) (c : nat) (k : RelayTask) :
  held_tasks (<[c := k]> m) ≡ₚ task_conns k ++ held_tasks (delete c m).
Proof.
  rewrite (held_tasks_delete _ c k) by apply lookup_insert_eq. by rewrite delete_insert_eq.
Qed.

Lemma held_peers_delete (m : gmap string Stream) (u : string) (s : Stream) :
  m !! u = Some s -> held_peers m ≡ₚ st_conn s :: held_peers (delete u m).
Proof. intros H. unfold held_peers. by rewrite <- (map_to_list_delete m u s H). Qed.

Lemma held_peers_delete_sub (m : gmap string Stream) (u : string) :
  held_peers (delete u m) ⊆+ held_peers m.
Proof.
  destruct (m !! u) as [s|] eqn:E.
  - rewrite (held_peers_delete m u s E). by apply submseteq_cons.
  - by rewrite delete_id.
Qed.

Lemma held_peers_insert (m : gmap string Stream) (u : string) (s : Stream) :
  held_peers (<[u := s]> m) ⊆+ st_conn s :: held_peers m.
Proof.
  rewrite (held_peers_delete _ u s) by apply lookup_insert_eq.
  rewrite delete_insert_eq. apply submseteq_skip, held_peers_delete_sub.
Qed.

Lemma relay_check_cmd_PEERS (cmd : string) (g : Relay) :
  PEERS (relay_check_cmd cmd g).2 = PEERS g.
Proof. unfold relay_check_cmd, setting_cmd. repeat case_match; by simplify_eq/=. Qed.

Lemma measure_PEERS (g : Relay) (ip id : string) (now reset : Instant) (r : RelayState) :
  PEERS (measure g ip id now reset r).2 = PEERS g.
Proof. unfold measure. by repeat case_match. Qed.

Lemma relay_turn_PEERS (g g' : Relay) (ip id : string) (stream peer : nat) (r : RelayState)
    (t : Turn) (o : Outcome) (out : list RelayEffect) :
  relay_turn g ip id stream peer r t = (o, g', out) -> PEERS g' = PEERS g.
Proof.
  rewrite relay_turn_cases.
  pose proof (measure_PEERS g ip id (t_done t) (t_reset t) (counted t r)) as H.
  destruct (stream_over t), (silent r t), (write_failed t); try by intros [= _ <- _].
  destruct (measure _ _ _ _ _ _). by intros [= _ <- _].
Qed.

Section Isolation.
  Context {hbb : HbbCommon} {proto : RendezvousProto} (key : string).

Lemma handle_connection_PEERS (a : Accepted) (y y' : System) (out : list RelayEffect) :
  handle_connection a y = (y', out) -> PEERS (relay_of y') = PEERS (relay_of y).
Proof.
  unfold handle_connection. destruct (negb _ && _).
  - destruct (a_cmd a) as [data|]; [|by intros [= <- <-]].
    rewrite <- (relay_check_cmd_PEERS data (relay_of y)).
    destruct (relay_check_cmd data (relay_of y)). by intros [= <- <-].
  - repeat case_match; by intros [= <- <-].
Qed.

(** A task that goes from [k] to [k'] keeping, or dropping, what it holds. *)
Lemma held_task_to (y : System) (c : nat) (k k' : RelayTask) (g : Relay) :
  tasks y !! c = Some k -> task_conns k' ⊆+ task_conns k ->
  held_peers (PEERS g) ⊆+ held_peers (PEERS (relay_of y)) ->
  held (task_to c k' g y) ⊆+ held y.
Proof.
  intros Hk Hsub Hg. unfold held; simpl.
  rewrite held_tasks_insert, (held_tasks_delete _ _ _ Hk).
  by repeat apply submseteq_app.
Qed.

Lemma held_task_done (y : System) (c : nat) (g : Relay) :
  held_peers (PEERS g) ⊆+ held_peers (PEERS (relay_of y)) ->
  held (task_done c g y) ⊆+ held y.
Proof.
  intros Hg. unfold held; simpl. apply submseteq_app; [|done].
  destruct (tasks y !! c) as [k|] eqn:E.
  - rewrite (held_tasks_delete _ _ _ E). by apply submseteq_inserts_l.
  - by rewrite delete_id.
Qed.

(** The connections a step can bring in. *)
Definition newcomers (y y' : System) : list nat :=
  if (next_conn y' =? next_conn y)%nat then [] else [next_conn y].

Lemma held_accept (a : Accepted) (y y' : System) (out : list RelayEffect) :
  handle_connection a y = (y', out) -> tasks y !! next_conn y = None ->
  (next_conn y <= next_conn y' <= S (next_conn y))%nat /\
  held y' ⊆+ newcomers y y' ++ held y.
Proof.
  intros H Hfresh. revert H. unfold handle_connection.
  assert (Hsame : (next_conn y <= next_conn y <= S (next_conn y))%nat /\
                  held y ⊆+ newcomers y y ++ held y).
  { split; [lia|]. by apply submseteq_inserts_l. }
  destruct (negb _ && _).
  { destruct (a_cmd a) as [data|]; [|by intros [= <- <-]].
    pose proof (relay_check_cmd_PEERS data (relay_of y)) as HP.
    destruct (relay_check_cmd data (relay_of y)) as [res g]. intros [= <- <-].
    simpl in HP. unfold held, newcomers in *. simpl. by rewrite HP. }
  case_bool_decide; [by intros [= <- <-]|].
  destruct (make_pair_addr a); [|by intros [= <- <-]]. intros [= <- <-].
  split; [simpl; lia|]. unfold held, newcomers. cbn [relay_of tasks next_conn].
  destruct (Nat.eqb_spec (S (next_conn y)) (next_conn y)); [lia|].
  rewrite held_tasks_insert, delete_id by done. done.
Qed.

Lemma held_step (y y' : System) (e : Event) (out : list RelayEffect) :
  step key y e = Some (y', out) -> tasks y !! next_conn y = None ->
  (next_conn y <= next_conn y' <= S (next_conn y))%nat /\
  held y' ⊆+ newcomers y y' ++ held y.
Proof.
  intros H Hfresh.
  assert (Hsub : next_conn y' = next_conn y -> held y' ⊆+ held y ->
    (next_conn y <= next_conn y' <= S (next_conn y))%nat /\
    held y' ⊆+ newcomers y y' ++ held y).
  { intros Hn Hh. split; [lia|]. by apply submseteq_inserts_l. }
  pose proof (held_peers_delete_sub (PEERS (relay_of y))) as Hdel.
  destruct e as [a|c i|c|c|c t|c t|c]; simpl in H.
  { injection H as H. by eapply held_accept. }
  all: destruct (tasks y !! c) as [k|] eqn:Hk; [|done].
  all: destruct k as [s ad|s u|u|s p ad|s p ad id r|id]; try done.
  - destruct (relay_request key i) as [u|]; simplify_eq/=; [|by apply Hsub, held_task_done].
    destruct (PEERS (relay_of y) !! u) as [p|] eqn:Hp; simplify_eq/=;
      apply Hsub; try done; [|by eapply held_task_to; [done|done|apply Hdel]].
    unfold held; simpl. rewrite held_tasks_insert, (held_tasks_delete _ _ _ Hk).
    rewrite (held_peers_delete _ _ _ Hp). simpl.
    apply submseteq_skip. by rewrite Permutation_middle.
  - simplify_eq/=. apply Hsub; [done|]. unfold held; simpl.
    rewrite held_tasks_insert, (held_tasks_delete _ _ _ Hk). simpl.
    rewrite Permutation_middle. by apply submseteq_app, held_peers_insert.
  - simplify_eq/=. apply Hsub; [done|]. apply held_task_done, Hdel.
  - simplify_eq/=. apply Hsub; [done|]. eapply held_task_to; [done| |done].
    simpl. unfold set_raw. by repeat case_match.
  - destruct (relay_turn _ _ _ _ _ _ _) as [[o g'] out'] eqn:Ht.
    apply relay_turn_PEERS in Ht. simplify_eq/=.
    destruct o; apply Hsub; try done; eapply held_task_to; try done; try by rewrite Ht.
    all: apply submseteq_nil_l.
  - simplify_eq/=. by apply Hsub, held_task_done.
Qed.

(** The connection's first frame was a relay request for the session, which is not empty,
    with the server's key where the server has one. *)
Definition presented (es : list Event) (c : nat) (uuid : string) : Prop :=
  exists i bytes rf, EvFirst c (Some i) ∈ es /\ recv i = Some (Ok bytes) /\
    parse_from_bytes bytes = Some (MRequestRelay rf) /\ rf_uuid rf = uuid /\ uuid <> "" /\
    (key = "" \/ rf_licence_key rf = key).

Definition same_session (es : list Event) (a b : nat) : Prop :=
  exists uuid, presented es a uuid /\ presented es b uuid.

(** Bytes went from one of the two connections to the other. *)
Definition linked (out : list RelayEffect) (a b : nat) : Prop :=
  exists x, Forward a b x ∈ out \/ Forward b a x ∈ out.

Definition joined (y : System) (a b : nat) : Prop :=
  exists c k, tasks y !! c = Some k /\ (task_conns k = [a; b] \/ task_conns k = [b; a]).

Definition gone (y : System) (a : nat) : Prop := (a < next_conn y)%nat /\ a ∉ held y.

Definition relay_task_ok (es : list Event) (c : nat) (k : RelayTask) : Prop :=
  match k with
  | TReading s _ => st_conn s = c /\ st_raw s = false
  | TMissed s u => presented es (st_conn s) u /\ st_raw s = false
  | TPaired s p _ =>
      same_session es (st_conn s) (st_conn p) /\ st_raw s = false /\ st_raw p = false
  | TRelaying s p _ _ _ =>
      same_session es (st_conn s) (st_conn p) /\
      st_raw s = negb (st_ws s) && negb (st_ws p) /\ st_raw p = st_raw s
  | TWaiting _ | TClosing _ => True
  end.

Definition peer_ok (es : list Event) (u : string) (s : Stream) : Prop :=
  presented es (st_conn s) u /\ st_raw s = false.

Record inv (es : list Event) (y : System) (out : list RelayEffect) : Prop := {
  inv_fresh : forall c k, tasks y !! c = Some k -> (c < next_conn y)%nat;
  inv_held : forall a, a ∈ held y -> (a < next_conn y)%nat;
  inv_nodup : NoDup (held y);
  inv_tasks : map_Forall (relay_task_ok es) (tasks y);
  inv_peers : map_Forall (peer_ok es) (PEERS (relay_of y));
  inv_linked : forall a b, linked out a b ->
    a <> b /\ same_session es a b /\ (joined y a b \/ (gone y a /\ gone y b));
  inv_partner : forall a b b', linked out a b -> linked out a b' -> b' = b;
}.

Lemma presented_app (es : list Event) (e : Event) (c : nat) (u : string) :
  presented es c u -> presented (es ++ [e]) c u.
Proof.
  intros (i & b & rf & Hi & Hr). exists i, b, rf. split; [|done]. apply elem_of_app. by left.
Qed.

Lemma relay_request_Some (i : option StreamInput) (u : string) :
  relay_request key i = Some u ->
  exists i' bytes rf, i = Some i' /\ recv i' = Some (Ok bytes) /\
    parse_from_bytes bytes = Some (MRequestRelay rf) /\ rf_uuid rf = u /\ u <> "" /\
    (key = "" \/ rf_licence_key rf = key).
Proof.
  destruct i as [i|]; [|done]. simpl. intros H. exists i.
  destruct (recv i) as [[b|]|] eqn:Hb; try done.
  destruct (parse_from_bytes b) as [[]|] eqn:Hp; try done.
  destruct (str_nonempty key && _) eqn:Hk; [done|].
  destruct (str_nonempty (rf_uuid rf)) eqn:Hu; [|done]. simplify_eq.
  apply str_nonempty_true in Hu. exists b, rf. repeat split; try done.
  apply andb_false_iff in Hk as [Hk|Hk].
  - left. destruct (decide (key = "")) as [|Hne]; [done|].
    apply str_nonempty_true in Hne. congruence.
  - right. apply negb_false_iff in Hk. by case_bool_decide.
Qed.

Lemma presented_now (es : list Event) (c : nat) (i : option StreamInput) (u : string) :
  relay_request key i = Some u -> presented (es ++ [EvFirst c i]) c u.
Proof.
  intros (i' & b & rf & -> & Hr)%relay_request_Some. exists i', b, rf. split; [|done].
  apply elem_of_app. right. by apply list_elem_of_singleton.
Qed.

Lemma same_session_app (es : list Event) (e : Event) (a b : nat) :
  same_session es a b -> same_session (es ++ [e]) a b.
Proof. intros (u & Ha & Hb). exists u. by split; apply presented_app. Qed.

Lemma same_session_sym (es : list Event) (a b : nat) :
  same_session es a b -> same_session es b a.
Proof. intros (u & ? & ?). by exists u. Qed.

#[local] Hint Resolve presented_app presented_now same_session_app : core.

Lemma relay_task_ok_app (es : list Event) (e : Event) (c : nat) (k : RelayTask) :
  relay_task_ok es c k -> relay_task_ok (es ++ [e]) c k.
Proof. destruct k; simpl; intuition auto. Qed.

Lemma peer_ok_app (es : list Event) (e : Event) (u : string) (s : Stream) :
  peer_ok es u s -> peer_ok (es ++ [e]) u s.
Proof. intros [? ?]. split; auto. Qed.

(** What one connection holds is in the list of all. *)
Lemma task_conns_held (y : System) (c : nat) (k : RelayTask) (a : nat) :
  tasks y !! c = Some k -> a ∈ task_conns k -> a ∈ held y.
Proof.
  intros Hk Ha. unfold held. rewrite (held_tasks_delete _ _ _ Hk), !elem_of_app. by do 2 left.
Qed.

Lemma joined_held (y : System) (a b : nat) : joined y a b -> a ∈ held y /\ b ∈ held y.
Proof.
  intros (c & k & Hk & Hc). split; apply (task_conns_held y c k); try done.
  all: destruct Hc as [-> | ->]; set_solver.
Qed.

Lemma joined_sym (y : System) (a b : nat) : joined y a b -> joined y b a.
Proof. intros (c & k & Hk & Hc). exists c, k. tauto. Qed.

Lemma held_once (y : System) (c c' : nat) (k k' : RelayTask) (a : nat) :
  NoDup (held y) -> tasks y !! c = Some k -> tasks y !! c' = Some k' ->
  a ∈ task_conns k -> a ∈ task_conns k' -> c' = c.
Proof.
  intros Hnd Hk Hk' Ha Ha'. destruct (decide (c' = c)) as [|Hne]; [done|exfalso].
  unfold held in Hnd. rewrite (held_tasks_delete _ _ _ Hk) in Hnd.
  rewrite (held_tasks_delete (delete c (tasks y)) c' k') in Hnd
    by by rewrite lookup_delete_ne.
  apply NoDup_app in Hnd as (Hnd & _). apply NoDup_app in Hnd as (_ & Hnd & _).
  apply (Hnd a Ha). apply elem_of_app. by left.
Qed.

(** A connection is joined to one other at a time. *)
Lemma joined_unique (y : System) (a b b' : nat) :
  NoDup (held y) -> joined y a b -> joined y a b' -> b' = b.
Proof.
  intros Hnd (c & k & Hk & Hc) (c' & k' & Hk' & Hc').
  assert (c' = c) as ->.
  { apply (held_once y c c' k k' a Hnd Hk Hk').
    - destruct Hc as [-> | ->]; set_solver.
    - destruct Hc' as [-> | ->]; set_solver. }
  simplify_eq. unfold held in Hnd. rewrite (held_tasks_delete _ _ _ Hk) in Hnd.
  apply NoDup_app in Hnd as (Hnd & _). apply NoDup_app in Hnd as (Hnd & _).
  destruct Hc as [E|E], Hc' as [E'|E']; rewrite E in E'; simplify_eq; try done.
  all: rewrite E in Hnd; apply NoDup_cons in Hnd as [Hnd _]; set_solver.
Qed.

Lemma joined_ne (y : System) (a b : nat) : NoDup (held y) -> joined y a b -> a <> b.
Proof.
  intros Hnd (c & k & Hk & Hc) ->. unfold held in Hnd.
  rewrite (held_tasks_delete _ _ _ Hk) in Hnd.
  apply NoDup_app in Hnd as (Hnd & _). apply NoDup_app in Hnd as (Hnd & _).
  destruct Hc as [E|E]; rewrite E in Hnd; apply NoDup_cons in Hnd as [Hnd _]; set_solver.
Qed.

Lemma joined_session (es : list Event) (y : System) (a b : nat) :
  map_Forall (relay_task_ok es) (tasks y) -> joined y a b -> same_session es a b.
Proof.
  intros Ht (c & k & Hk & Hc). pose proof (Ht c k Hk) as Hok.
  destruct k; simpl in Hc; destruct Hc; simplify_eq; destruct Hok as [Hs _];
    auto using same_session_sym.
Qed.

(** A step forwards frames only between the two ends of one session. *)
Lemma turn_forwards (g g' : Relay) (ip id : string) (stream peer : nat) (r : RelayState)
    (t : Turn) (o : Outcome) (out : list RelayEffect) (a b : nat) (x : Bytes) :
  relay_turn g ip id stream peer r t = (o, g', out) -> Forward a b x ∈ out ->
  (a = stream /\ b = peer) \/ (a = peer /\ b = stream).
Proof.
  assert (Hlim : Forward a b x ∉ limits t r).
  { unfold limits. destruct (frame t); rewrite ?elem_of_cons, ?elem_of_nil;
      intros H; intuition congruence. }
  rewrite relay_turn_cases.
  destruct (stream_over t); [by intros [= <- <- <-] ?%not_elem_of_nil|].
  destruct (silent r t); [by intros [= <- <- <-] ?%not_elem_of_nil|].
  destruct (write_failed t); [by intros [= <- <- <-]|].
  destruct (measure _ _ _ _ _ _) as [o' g'']. intros [= <- <- <-].
  rewrite elem_of_app. intros [Hin|Hin]; [done|]. revert Hin. unfold forwarded.
  destruct (frame t) as [z|]; [|by intros ?%not_elem_of_nil].
  destruct (str_nonempty z); [|by intros ?%not_elem_of_nil].
  destruct (t_select t); rewrite list_elem_of_singleton; intros [= -> -> ->]; tauto.
Qed.

Lemma step_forwards (y y' : System) (e : Event) (out : list RelayEffect) (a b : nat) (x : Bytes) :
  step key y e = Some (y', out) -> Forward a b x ∈ out ->
  exists c s p ad id r, tasks y !! c = Some (TRelaying s p ad id r) /\
    ((a = st_conn s /\ b = st_conn p) \/ (a = st_conn p /\ b = st_conn s)).
Proof.
  intros H Hin. destruct e as [ac|c i|c|c|c t|c t|c]; simpl in H.
  { unfold handle_connection in H. repeat case_match; simplify_eq; revert Hin;
      rewrite ?elem_of_cons, ?elem_of_nil; intuition congruence. }
  all: destruct (tasks y !! c) as [k|] eqn:Hk; [|done].
  all: destruct k as [s ad|s u|u|s p ad|s p ad id r|id]; try done.
  all: try by (simplify_eq; apply not_elem_of_nil in Hin).
  destruct (relay_turn _ _ _ _ _ _ _) as [[o g'] out'] eqn:Ht. simplify_eq.
  exists c, s, p, ad, id, r. split; [done|]. by eapply turn_forwards.
Qed.

(** Two joined ends stay joined or are dropped together. *)
Lemma joined_step (y y' : System) (e : Event) (out : list RelayEffect) (a b : nat) :
  step key y e = Some (y', out) -> NoDup (held y) -> tasks y !! next_conn y = None ->
  joined y a b -> joined y' a b \/ ((a ∉ held y') /\ (b ∉ held y')).
Proof.
  intros H Hnd Hfresh (c0 & k0 & Hk0 & Hc0).
  assert (Hother : forall c k g, c <> c0 -> joined (task_to c k g y) a b).
  { intros c k g Hne. exists c0, k0. split; [|done]. simpl. by rewrite lookup_insert_ne. }
  assert (Hother' : forall c g, c <> c0 -> joined (task_done c g y) a b).
  { intros c g Hne. exists c0, k0. split; [|done]. simpl. by rewrite lookup_delete_ne. }
  assert (Hsame : forall k g, task_conns k = task_conns k0 -> joined (task_to c0 k g y) a b).
  { intros k g E. exists c0, k. rewrite E. split; [|done]. apply lookup_insert_eq. }
  destruct e as [ac|c i|c|c|c t|c t|c]; simpl in H.
  { left. exists c0, k0. split; [|done]. injection H as H. unfold handle_connection in H.
    repeat case_match; simplify_eq/=; try done.
    rewrite lookup_insert_ne by congruence. done. }
  all: destruct (decide (c = c0)) as [->|Hne];
    [|left; repeat case_match; simplify_eq; auto].
  all: rewrite Hk0 in H; destruct k0 as [s ad|s u|u|s p ad|s p ad id r|id]; try done.
  all: try by (simpl in Hc0; destruct Hc0).
  - simplify_eq. left. apply Hsame. unfold set_raw. by repeat case_match.
  - destruct (relay_turn _ _ _ _ _ _ _) as [[o g'] out'] eqn:Ht. simplify_eq.
    apply relay_turn_PEERS in Ht.
    assert (Hgone : (a ∉ held (task_to c0 (TClosing id) g' y)) /\
                    (b ∉ held (task_to c0 (TClosing id) g' y))).
    { unfold held in *. simpl. rewrite Ht, held_tasks_insert. simpl.
      rewrite (held_tasks_delete _ _ _ Hk0), <- app_assoc in Hnd.
      apply NoDup_app in Hnd as (_ & Hnd & _).
      destruct Hc0 as [E|E]; split; apply Hnd; rewrite E; set_solver. }
    destruct o; [by left; apply Hsame|by right..].
Qed.

Lemma NoDup_sub {A} (l k : list A) : l ⊆+ k -> NoDup k -> NoDup l.
Proof.
  intros [k' ->]%submseteq_Permutation [Hl _]%NoDup_app. exact Hl.
Qed.

Lemma gone_step (y y' : System) (a : nat) :
  (next_conn y <= next_conn y')%nat -> held y' ⊆+ newcomers y y' ++ held y ->
  gone y a -> gone y' a.
Proof.
  intros Hn Hsub [Hlt Hout]. split; [lia|]. intros Hin.
  apply (elem_of_submseteq _ _ _ Hin) in Hsub. revert Hsub. unfold newcomers.
  rewrite elem_of_app. intros [Ha|Ha]; [|done].
  destruct (_ =? _)%nat; [by apply not_elem_of_nil in Ha|].
  apply list_elem_of_singleton in Ha. lia.
Qed.

(** The parts of the invariant that speak of one task or one entry. *)
Lemma peers_ok_step (es : list Event) (y y' : System) (e : Event) (out : list RelayEffect) :
  step key y e = Some (y', out) -> map_Forall (relay_task_ok es) (tasks y) ->
  map_Forall (peer_ok es) (PEERS (relay_of y)) ->
  map_Forall (peer_ok (es ++ [e])) (PEERS (relay_of y')).
Proof.
  intros H Htasks Hpeers.
  assert (Hp : map_Forall (peer_ok (es ++ [e])) (PEERS (relay_of y))).
  { eapply map_Forall_impl; [exact Hpeers|]. intros; by apply peer_ok_app. }
  assert (Hd : forall u, map_Forall (peer_ok (es ++ [e])) (delete u (PEERS (relay_of y)))).
  { intros u. by apply map_Forall_delete. }
  destruct e as [ac|c i|c|c|c t|c t|c]; simpl in H.
  { injection H as H%handle_connection_PEERS. by rewrite H. }
  all: destruct (tasks y !! c) as [k|] eqn:Hk; [|done].
  all: destruct k as [s ad|s u|u|s p ad|s p ad id r|id]; try done; simplify_eq/=; try done.
  - by destruct (relay_request key i) as [u|]; [destruct (_ !! u)|]; simplify_eq/=.
  - apply map_Forall_insert_2; [|done]. apply peer_ok_app. exact (Htasks c _ Hk).
  - destruct (relay_turn _ _ _ _ _ _ _) as [[o g'] out'] eqn:Ht.
    apply relay_turn_PEERS in Ht. simplify_eq/=. destruct o; simpl; by rewrite Ht.
Qed.

Lemma paired_raw (s p : Stream) :
  let raw := negb (st_ws s) && negb (st_ws p) in
  let s' := if raw then set_raw s else s in
  let p' := if raw then set_raw p else p in
  st_raw s = false -> st_raw p = false ->
  st_conn s' = st_conn s /\ st_conn p' = st_conn p /\
  st_raw s' = negb (st_ws s') && negb (st_ws p') /\ st_raw p' = st_raw s'.
Proof.
  destruct s as [a w r], p as [a' w' r']. unfold set_raw. simpl. intros -> ->.
  by destruct w, w'.
Qed.

Lemma tasks_ok_step (es : list Event) (y y' : System) (e : Event) (out : list RelayEffect) :
  step key y e = Some (y', out) -> map_Forall (relay_task_ok es) (tasks y) ->
  map_Forall (peer_ok es) (PEERS (relay_of y)) ->
  map_Forall (relay_task_ok (es ++ [e])) (tasks y').
Proof.
  intros H Htasks Hpeers.
  assert (Ht : map_Forall (relay_task_ok (es ++ [e])) (tasks y)).
  { eapply map_Forall_impl; [exact Htasks|]. intros; by apply relay_task_ok_app. }
  assert (Hdone : forall c g, map_Forall (relay_task_ok (es ++ [e])) (tasks (task_done c g y)))
    by (intros; by apply map_Forall_delete).
  assert (Hto : forall c k g, relay_task_ok (es ++ [e]) c k ->
            map_Forall (relay_task_ok (es ++ [e])) (tasks (task_to c k g y)))
    by (intros; by apply map_Forall_insert_2).
  destruct e as [ac|c i|c|c|c t|c t|c]; simpl in H.
  { injection H as H. unfold handle_connection in H.
    repeat case_match; simplify_eq/=; try done. by apply map_Forall_insert_2. }
  all: destruct (tasks y !! c) as [k|] eqn:Hk; [|done].
  all: pose proof (Htasks c k Hk) as Hok.
  all: destruct k as [s ad|s u|u|s p ad|s p ad id r|id]; try done.
  - destruct Hok as [Hc Hraw].
    destruct (relay_request key i) as [u|] eqn:Hr; [|by simplify_eq].
    destruct (PEERS (relay_of y) !! u) as [p|] eqn:Hp; simplify_eq; apply Hto; simpl; [|by auto].
    destruct (Hpeers u p Hp) as [Hpu Hpr]. split; [exists u; auto|done].
  - simplify_eq. by apply Hto.
  - by simplify_eq.
  - destruct Hok as (Hs & H1 & H2). destruct (paired_raw s p H1 H2) as (E1 & E2 & E3 & E4).
    simplify_eq. apply Hto. split; [|done]. rewrite E1, E2. auto.
  - destruct (relay_turn _ _ _ _ _ _ _) as [[[r'| |] g'] out']; simplify_eq; apply Hto; try done.
    apply (relay_task_ok_app es _ c _ Hok).
  - by simplify_eq.
Qed.

Lemma fresh_step (y y' : System) (e : Event) (out : list RelayEffect) :
  step key y e = Some (y', out) ->
  (forall c k, tasks y !! c = Some k -> (c < next_conn y)%nat) ->
  forall c k, tasks y' !! c = Some k -> (c < next_conn y')%nat.
Proof.
  intros H Hf.
  assert (Hto : forall c k g, (c < next_conn y)%nat -> forall c' k',
            tasks (task_to c k g y) !! c' = Some k' -> (c' < next_conn y)%nat).
  { intros c k g Hc c' k'. simpl. rewrite lookup_insert_Some. naive_solver. }
  assert (Hdone : forall c g c' k', tasks (task_done c g y) !! c' = Some k' ->
            (c' < next_conn y)%nat).
  { intros c g c' k'. simpl. rewrite lookup_delete_Some. naive_solver. }
  destruct e as [ac|c i|c|c|c t|c t|c]; simpl in H.
  { injection H as H. unfold handle_connection in H. repeat case_match; simplify_eq/=; eauto.
    intros c k. rewrite lookup_insert_Some. intros [[<- _]|[_ Hc]]; [lia|].
    apply Hf in Hc. lia. }
  all: destruct (tasks y !! c) as [k|] eqn:Hk; [|done].
  all: apply Hf in Hk; repeat case_match; simplify_eq; eauto.
Qed.

Lemma inv_step (es : list Event) (y y' : System) (out out' : list RelayEffect) (e : Event) :
  inv es y out -> step key y e = Some (y', out') -> inv (es ++ [e]) y' (out ++ out').
Proof.
  intros [Hf Hh Hnd Ht Hp Hl Hu] H.
  assert (Hfresh : tasks y !! next_conn y = None).
  { apply eq_None_not_Some. intros [k Hk]. apply Hf in Hk. lia. }
  destruct (held_step y y' e out' H Hfresh) as [Hn Hsub].
  assert (Hnew : forall a b, linked out' a b -> joined y a b).
  { intros a b [x [Hx|Hx]];
      destruct (step_forwards y y' e out' _ _ x H Hx) as (c & s & p & ad & id & r & Hk & Hab);
      exists c, (TRelaying s p ad id r); (split; [done|]); simpl; naive_solver. }
  assert (Hjoin : forall a b, joined y a b -> joined y' a b \/ (gone y' a /\ gone y' b)).
  { intros a b Hj. destruct (joined_held y a b Hj) as [Ha%Hh Hb%Hh].
    destruct (joined_step y y' e out' a b H Hnd Hfresh Hj) as [?|[? ?]]; [by left|right].
    split; (split; [lia|done]). }
  assert (Hsplit : forall a b, linked (out ++ out') a b -> linked out a b \/ linked out' a b).
  { intros a b [x Hx]. rewrite !elem_of_app in Hx. unfold linked. naive_solver. }
  constructor.
  - exact (fresh_step y y' e out' H Hf).
  - intros a Ha. apply (elem_of_submseteq _ _ _ Ha) in Hsub. revert Hsub. unfold newcomers.
    rewrite elem_of_app. intros [Hin|Hin%Hh]; [|lia].
    destruct (Nat.eqb_spec (next_conn y') (next_conn y)); [by apply not_elem_of_nil in Hin|].
    apply list_elem_of_singleton in Hin. lia.
  - apply (NoDup_sub _ _ Hsub), NoDup_app.
    unfold newcomers. destruct (_ =? _)%nat; (split; [|split; [|done]]); try apply NoDup_nil_2.
    + by intros ? ?%not_elem_of_nil.
    + apply NoDup_singleton.
    + intros a ->%list_elem_of_singleton Ha%Hh. lia.
  - exact (tasks_ok_step es y y' e out' H Ht Hp).
  - exact (peers_ok_step es y y' e out' H Ht Hp).
  - intros a b [Hab|Hab]%Hsplit.
    + destruct (Hl a b Hab) as (Hne & Hs & Hj). split; [done|split; [auto|]].
      destruct Hj as [Hj|[Ga Gb]]; [by apply Hjoin|right].
      split; (apply (gone_step y y'); [lia|done|done]).
    + pose proof (Hnew a b Hab) as Hj. split; [|split; [|by apply Hjoin]].
      * by apply (joined_ne y).
      * apply same_session_app. by apply (joined_session es y).
  - intros a b b' H1%Hsplit H2%Hsplit.
    assert (Hmix : forall b b', linked out a b -> linked out' a b' -> b' = b).
    { intros b1 b2 H3 H4%Hnew. destruct (Hl a b1 H3) as (_ & _ & [Hj|[[_ Hg] _]]).
      - by apply (joined_unique y a).
      - by destruct Hg, (joined_held y a b2 H4). }
    destruct H1 as [H1|H1], H2 as [H2|H2]; [by eauto|by eauto|by symmetry; eauto|].
    apply (joined_unique y a); auto.
Qed.

Lemma inv_runs (arg : string -> string) (bl bk : option string) (es : list Event) (y : System)
    (out : list RelayEffect) :
  runs key (relay_start arg bl bk) es y out -> inv es y out.
Proof.
  induction 1 as [|es y out e y' out' _ IH H].
  - assert (Hl : forall a b, linked [] a b -> False)
      by (intros a b [x [?%not_elem_of_nil|?%not_elem_of_nil]]; done).
    assert (Hh : held (relay_start arg bl bk) = []) by reflexivity.
    constructor; rewrite ?Hh; try done; try (by intros; exfalso; eauto).
    + intros a ?%not_elem_of_nil. done.
    + apply NoDup_nil_2.
  - by eapply inv_step.
Qed.

(** C11: whatever the order in which connections come, send and end and the tasks serving
    them run, the server passes bytes between two different connections only if both
    presented the same non-empty session in their first frame, with the server's key
    where one is set; a connection exchanges bytes with at most one other in its whole
    life; and frames are passed on raw exactly when neither end is a websocket, so both
    ends of a session always agree on the framing. *)
Theorem sessions_isolated (arg : string -> string) (bl bk : option string) (es : list Event)
    (y : System) (out : list RelayEffect) :
  runs key (relay_start arg bl bk) es y out ->
  (forall a b, linked out a b -> a <> b /\ same_session es a b) /\
  (forall a b b', linked out a b -> linked out a b' -> b' = b) /\
  (forall c s p ad id r, tasks y !! c = Some (TRelaying s p ad id r) ->
     st_raw s = negb (st_ws s) && negb (st_ws p) /\ st_raw p = st_raw s).
Proof.
  intros H%inv_runs. split; [|split].
  - intros a b Hab. by destruct (inv_linked _ _ _ H a b Hab) as (? & ? & _).
  - apply (inv_partner _ _ _ H).
  - intros c s p ad id r Hk. by destruct (inv_tasks _ _ _ H c _ Hk) as [_ ?].
Qed.

(** ** Meeting *)

Lemma peers_unless (m : gmap string Stream) (u uuid : string) (s : Stream) :
  m !! uuid = Some s -> u <> uuid -> delete u m !! uuid = Some s.
Proof. intros Hm Hne. by rewrite lookup_delete_ne. Qed.

(** A connection waiting under a session is joined to the next connection that asks for
    that session.  Until then it is in the table, whatever else happens, unless the
    half-minute timer of a request for the same session goes off or another request for
    it, which had found nobody, files itself over it. *)
Theorem waiting_end_is_met (y y' : System) (e : Event) (out : list RelayEffect) (uuid : string)
    (s : Stream) :
  PEERS (relay_of y) !! uuid = Some s ->
  step key y e = Some (y', out) ->
  (forall c i, e = EvFirst c i -> relay_request key i = Some uuid ->
     PEERS (relay_of y') !! uuid = None /\
     exists s' ad, tasks y !! c = Some (TReading s' ad) /\
                   tasks y' !! c = Some (TPaired s' s ad)) /\
  ((forall c i, e = EvFirst c i -> relay_request key i <> Some uuid) ->
   (forall c, e = EvTimer c -> tasks y !! c <> Some (TWaiting uuid)) ->
   (forall c s', e = EvFile c -> tasks y !! c <> Some (TMissed s' uuid)) ->
   PEERS (relay_of y') !! uuid = Some s).
Proof.
  intros Hs H. split.
  - intros c i -> Hr. simpl in H.
    destruct (tasks y !! c) as [[s' ad|s' u|u|s' p ad|s' p ad id r|id]|] eqn:Hk; try done.
    rewrite Hr, Hs in H. simplify_eq/=. rewrite lookup_delete_eq. split; [done|].
    exists s', ad. by rewrite lookup_insert_eq.
  - intros H1 H2 H3. destruct e as [ac|c i|c|c|c t|c t|c]; simpl in H.
    { injection H as H%handle_connection_PEERS. by rewrite H. }
    all: destruct (tasks y !! c) as [k|] eqn:Hk; [|done].
    all: destruct k as [s' ad|s' u|u|s' p ad|s' p ad id r|id]; try done; simplify_eq/=; try done.
    + specialize (H1 c i eq_refl). destruct (relay_request key i) as [u|]; simplify_eq/=; [|done].
      destruct (PEERS (relay_of y) !! u); simpl; apply peers_unless; congruence.
    + rewrite lookup_insert_ne; [done|]. specialize (H3 c s' eq_refl). congruence.
    + apply peers_unless; [done|]. specialize (H2 c eq_refl). congruence.
    + destruct (relay_turn _ _ _ _ _ _ _) as [[o g'] out'] eqn:Ht.
      apply relay_turn_PEERS in Ht. simplify_eq/=. destruct o; simpl; by rewrite Ht.
Qed.

(** The event has to do with this session: a request for it, its timer, or a request that found
    nobody filing itself. *)
Definition concerns (uuid : string) (y : System) (e : Event) : Prop :=
  match e with
  | EvFirst _ i => relay_request key i = Some uuid
  | EvTimer c => tasks y !! c = Some (TWaiting uuid)
  | EvFile c => exists s, tasks y !! c = Some (TMissed s uuid)
  | _ => False
  end.

(** Anything else happens. *)
Definition others_act (uuid : string) (y y' : System) : Prop :=
  exists e out, step key y e = Some (y', out) /\ ~ concerns uuid y e.

(** Every task is that of a connection that was accepted. *)
Definition numbered (y : System) : Prop := forall c k, tasks y !! c = Some k -> (c < next_conn y)%nat.

Lemma others_numbered uuid y y' : rtc (others_act uuid) y y' -> numbered y -> numbered y'.
Proof.
  induction 1 as [|y1 y2 y3 (e & out & St & Hn) R IH]; [done|]. intros Hf.
  apply IH. exact (fresh_step _ _ _ _ St Hf).
Qed.

(** A request on its way to be filed stays, and so does one that is. *)
Lemma missed_stays uuid y y' c s :
  numbered y -> rtc (others_act uuid) y y' -> tasks y !! c = Some (TMissed s uuid) ->
  tasks y' !! c = Some (TMissed s uuid).
Proof.
  intros Hf R. revert Hf. induction R as [|y1 y2 y3 (e & out & St & Hn) R IH]; [done|]. intros Hf Hc.
  apply IH; [exact (fresh_step _ _ _ _ St Hf)|]. clear IH.
  destruct e as [ac|c' i|c'|c'|c' t|c' t|c']; simpl in St, Hn.
  { assert (Hlt := Hf _ _ Hc). injection St as St. unfold handle_connection in St.
    repeat case_match; simplify_eq/=; try done. rewrite lookup_insert_ne; [done|lia]. }
  all: destruct (decide (c' = c)) as [->|Hne];
    [rewrite Hc in St; try done; destruct Hn; by exists s|].
  all: destruct (tasks y1 !! c') as [k|]; [|done]; destruct k; try done.
  all: repeat case_match; simplify_eq/=; by rewrite ?lookup_insert_ne, ?lookup_delete_ne by done.
Qed.

Lemma filed_stays uuid y y' s :
  rtc (others_act uuid) y y' -> PEERS (relay_of y) !! uuid = Some s -> PEERS (relay_of y') !! uuid = Some s.
Proof.
  induction 1 as [|y1 y2 y3 (e & out & St & Hn) R IH]; [done|]. intros Hp. apply IH.
  eapply waiting_end_is_met; [done|exact St|..].
  - intros c i -> E. by apply Hn.
  - intros c -> E. by apply Hn.
  - intros c s' -> E. apply Hn. by exists s'.
Qed.

(** The first end goes to wait, and the second is joined to it. *)
Lemma ends_join (y0 : System) (uuid : string) (c1 : nat) (s1 : Stream) (a1 : SocketAddr)
    (i1 : option StreamInput) :
  numbered y0 -> tasks y0 !! c1 = Some (TReading s1 a1) -> relay_request key i1 = Some uuid ->
  PEERS (relay_of y0) !! uuid = None ->
  exists y1, step key y0 (EvFirst c1 i1) = Some (y1, []) /\
    forall y2, rtc (others_act uuid) y1 y2 ->
    exists y3, step key y2 (EvFile c1) = Some (y3, []) /\
      forall y4 c2 s2 a2 i2 t, rtc (others_act uuid) y3 y4 ->
      tasks y4 !! c2 = Some (TReading s2 a2) -> relay_request key i2 = Some uuid ->
      exists y5 y6, step key y4 (EvFirst c2 i2) = Some (y5, []) /\
        step key y5 (EvStart c2 t) = Some (y6, []) /\
        let raw := negb (st_ws s2) && negb (st_ws s1) in
        tasks y6 !! c2 = Some (TRelaying (if raw then set_raw s2 else s2)
          (if raw then set_raw s1 else s1) a2 (usage_id a2) (relay_init (settings (relay_of y6)) t)) /\
        PEERS (relay_of y6) !! uuid = None.
Proof.
  intros Hf H1 Hq1 Hn.
  eexists. split. { simpl. by rewrite H1, Hq1, Hn. }
  intros y2 R2. eexists. split.
  { simpl. erewrite (missed_stays uuid _ y2 c1 s1); [done| |exact R2|apply lookup_insert_eq].
    refine (fresh_step y0 _ (EvFirst c1 i1) [] _ Hf). simpl. by rewrite H1, Hq1, Hn. }
  intros y4 c2 s2 a2 i2 t R4 H2 Hq2.
  assert (Hw : PEERS (relay_of y4) !! uuid = Some s1).
  { eapply filed_stays; [exact R4|]. apply lookup_insert_eq. }
  do 2 eexists. split. { simpl. by rewrite H2, Hq2, Hw. }
  split. { simpl. by rewrite lookup_insert_eq. }
  simpl. rewrite lookup_insert_eq. split; [done|]. apply lookup_delete_eq.
Qed.

(** C12: Two ends of a session that come one after the other find each other at the relay, from
    any reachable state on.  A connection whose first frame asks for a session nobody waits for
    goes to wait for it and is then filed; a connection that asks for the session after that is
    joined to it, and the copying starts: raw if neither end is a websocket.  Between these steps
    anything may happen that is not about that session: no other request for it and not the
    half-minute timer of the one that waits.  (Ends that ask at the same time, the second before
    the first is filed, both wait: [RelayWitnesses.racing_ends_miss_each_other].) *)
Theorem ends_meet (arg : string -> string) (bl bk : option string) (es : list Event) (y0 : System)
    (out : list RelayEffect) (uuid : string) (c1 : nat) (s1 : Stream) (a1 : SocketAddr)
    (i1 : option StreamInput) :
  runs key (relay_start arg bl bk) es y0 out ->
  tasks y0 !! c1 = Some (TReading s1 a1) -> relay_request key i1 = Some uuid ->
  PEERS (relay_of y0) !! uuid = None ->
  exists y1, step key y0 (EvFirst c1 i1) = Some (y1, []) /\
    forall y2, rtc (others_act uuid) y1 y2 ->
    exists y3, step key y2 (EvFile c1) = Some (y3, []) /\
      forall y4 c2 s2 a2 i2 t, rtc (others_act uuid) y3 y4 ->
      tasks y4 !! c2 = Some (TReading s2 a2) -> relay_request key i2 = Some uuid ->
      exists y5 y6, step key y4 (EvFirst c2 i2) = Some (y5, []) /\
        step key y5 (EvStart c2 t) = Some (y6, []) /\
        let raw := negb (st_ws s2) && negb (st_ws s1) in
        tasks y6 !! c2 = Some (TRelaying (if raw then set_raw s2 else s2)
          (if raw then set_raw s1 else s1) a2 (usage_id a2) (relay_init (settings (relay_of y6)) t)) /\
        PEERS (relay_of y6) !! uuid = None.
Proof.
  intros Hr. apply ends_join. exact (inv_fresh _ _ _ (inv_runs _ _ _ _ _ _ Hr)).
Qed.

(** Runs that can be evaluated. *)
Fixpoint run_events (y : System) (es : list Event) : option (System * list RelayEffect) :=
  match es with
  | [] => Some (y, [])
  | e :: es' =>
      let! (y1, out) := step key y e in
      let! (y2, out') := run_events y1 es' in
      Some (y2, out ++ out')
  end.

Lemma run_events_runs (y0 : System) (es2 : list Event) : forall es1 y out y' out',
  runs key y0 es1 y out -> run_events y es2 = Some (y', out') ->
  runs key y0 (es1 ++ es2) y' (out ++ out').
Proof.
  induction es2 as [|e es2 IH]; intros es1 y out y' out' Hr; simpl.
  { intros [= <- <-]. by rewrite !app_nil_r. }
  destruct (step key y e) as [[y1 out1]|] eqn:Hs; [|done].
  destruct (run_events y1 es2) as [[y2 out2]|] eqn:He; [|done]. intros [= <- <-].
  rewrite (app_assoc out), (cons_middle e es1 es2), (app_assoc es1).
  eapply IH; [|exact He]. by eapply runs_snoc.
Qed.

End Isolation.
