(* ===== verification/Hbbr.v ===== *)
(** * The relay server as a process ([src/src/relay_server.rs], [start_with_bind] and [io_loop])

    hbbr opens its three listeners, serves them until one fails, and then starts its loop anew:
    the listeners are opened again, the settings are read again and there is a new limiter,
    while the sessions that run go on.  The process is the relay of [RelayServer] with its
    listeners; whatever happens to it, every number it keeps stays in the range of its Rust
    type. *)

From S2P Require Import Prelude RustStr RustFloat Net External Settings.
From S2P Require Import PeerStore Rendezvous Connection Hbbs RelayServer.
From Stdlib Require Import Ascii.

Local Open Scope Z_scope.

(** ** The process *)

Record RelaySocks := mkRelaySocks { rs_main : Sock; rs_ws : Sock; rs_console : option Sock }.

(** The listeners, in the order they are opened; the port is a [u16]. *)
Definition relay_listen (open : Sock -> bool) (bind_addr : option IpAddr) (port : Z)
    : option RelaySocks :=
  let port2 := wrap_u16 (port + 2) in
  let! main := open_tcp open (listen_tcp bind_addr port) in
  let! ws := open_tcp open (listen_tcp bind_addr port2) in
  let! console := open_console open bind_addr port in
  Some (mkRelaySocks main ws console).

(** The start of [io_loop]: the settings that are given, and a limiter for all sessions. *)
Definition io_loop_start (arg : string -> string) (g : Relay) : Relay :=
  let c := check_params arg (settings g) in
  set_total_speed (f64_of_Z (TOTAL_BANDWIDTH c)) (set_settings c g).

Record Hbbr := mkHbbr { hr_system : System; hr_socks : RelaySocks }.

Inductive RelayStartError := RNoKey | RBadPort | RCannotListen.

(** [start_with_bind]; [key] is what [get_server_sk] gives. *)
Definition relay_boot (a : HbbrArgs) (e : Environ) (key : option string)
    (blacklist blocklist : option string) (open : Sock -> bool) : result RelayStartError (Z * Hbbr) :=
  let? _ := ok_or key RNoKey in
  let? port := ok_or (parse_u16 (r_port a)) RBadPort in
  let g := mkRelay ∅ ∅ (load_list blacklist ∅) (load_list blocklist ∅) settings_default
             (f64_of_Z (TOTAL_BANDWIDTH settings_default)) in
  let? socks := ok_or (relay_listen open (r_bind a) port) RCannotListen in
  Ok (port, mkHbbr (mkSystem (io_loop_start (fun x => get_arg x e) g) ∅ 0) socks).

Inductive RelayProcEvent := RTask (e : Event) | RFailed (open : Sock -> bool).

Section Process.
  Context {hbb : HbbCommon} {proto : RendezvousProto}.
  Context (key : string) (e : Environ) (bind : option IpAddr) (port : Z).

(** [None] when no task stands where the event says, or the process has ended. *)
Definition relay_proc_step (h : Hbbr) (ev : RelayProcEvent) : option (Hbbr * list RelayEffect) :=
  match ev with
  | RTask ev =>
      let! (y, out) := step key (hr_system h) ev in Some (mkHbbr y (hr_socks h), out)
  | RFailed open =>
      let y := hr_system h in
      let! socks := relay_listen open bind port in
      Some (mkHbbr (mkSystem (io_loop_start (fun x => get_arg x e) (relay_of y)) (tasks y) (next_conn y))
              socks, [])
  end.

Inductive relay_runs (h0 : Hbbr) : list RelayProcEvent -> Hbbr -> Prop :=
| relay_runs_nil : relay_runs h0 [] h0
| relay_runs_snoc es h ev h' out :
    relay_runs h0 es h -> relay_proc_step h ev = Some (h', out) -> relay_runs h0 (es ++ [ev]) h'.

End Process.

(** ** Ranges *)

Definition is_u64 (z : Z) : Prop := 0 <= z <= u64_max.

Definition settings_typed (c : Settings) : Prop :=
  is_u64 (DOWNGRADE_THRESHOLD_100 c) /\ is_u64 (DOWNGRADE_START_CHECK c) /\ is_u64 (LIMIT_SPEED c) /\
  is_u64 (TOTAL_BANDWIDTH c) /\ is_u64 (SINGLE_BANDWIDTH c).

Definition usage_typed (u : Usage) : Prop :=
  is_u64 (u_elapsed u) /\ is_u64 (u_total u) /\ is_u64 (u_highest u) /\ is_u64 (u_speed u).

Definition state_typed (r : RelayState) : Prop :=
  is_u64 (r_elapsed r) /\ is_u64 (r_total r) /\ is_u64 (r_total_s r) /\ is_u64 (r_highest r) /\
  is_u64 (r_threshold r).

Definition task_typed (k : RelayTask) : Prop :=
  match k with TRelaying _ _ _ _ r => state_typed r | _ => True end.

Record system_typed (y : System) : Prop := {
  ty_settings : settings_typed (settings (relay_of y));
  ty_usage : map_Forall (fun _ u => usage_typed u) (USAGE (relay_of y));
  ty_tasks : map_Forall (fun _ k => task_typed k) (tasks y);
}.

Lemma f64_to_usize_typed (x : f64) : is_u64 (f64_to_usize x).
Proof.
  unfold is_u64, f64_to_usize, u64_max. destruct x as [[]|[]| |[] m e]; try lia.
  split; [|apply Z.le_min_l]. apply Z.min_glb; [lia|].
  destruct (Z.leb_spec 0 e); [nia|]. apply Z.div_pos; [lia|]. apply Z.pow_pos_nonneg; lia.
Qed.

Lemma wrap64_typed (z : Z) : is_u64 (wrap64 z).
Proof. unfold is_u64, wrap64, u64_max. pose proof (Z.mod_pos_bound z (2 ^ 64)). lia. Qed.

Lemma positive_setting_typed scale v z : positive_setting scale v = Some z -> is_u64 z.
Proof.
  unfold positive_setting. destruct (parse_f64 v); [|done]. case_match; [|done].
  intros [= <-]. apply f64_to_usize_typed.
Qed.

Lemma seconds_setting_typed v z : seconds_setting v = Some z -> is_u64 z.
Proof.
  unfold seconds_setting. destruct (parse_usize v); [|done]. case_match; [|done].
  intros [= <-]. apply wrap64_typed.
Qed.

(** A setting that is stored has the range of its source. *)
Lemma store_typed (o : option Z) set c : (forall z, o = Some z -> is_u64 z) ->
  (forall z c, is_u64 z -> settings_typed c -> settings_typed (set z c)) ->
  settings_typed c -> settings_typed (store o set c).
Proof. intros Ho Hset Hc. destruct o as [z|]; [|done]. apply Hset; [by apply Ho|done]. Qed.

Ltac settings_fields := intros ? ? ? (? & ? & ? & ? & ?); by split_and!.

Lemma check_params_typed arg c : settings_typed c -> settings_typed (check_params arg c).
Proof.
  intros Hc. unfold check_params.
  repeat (apply store_typed;
    [intros ? ?; first [by eapply positive_setting_typed|by eapply seconds_setting_typed]
    |settings_fields|]).
  done.
Qed.

Lemma setting_cmd_typed arg read set line g : (forall v z, read v = Some z -> is_u64 z) ->
  (forall z c, is_u64 z -> settings_typed c -> settings_typed (set z c)) ->
  settings_typed (settings g) -> settings_typed (settings (setting_cmd arg read set line g).2).
Proof. intros Hr Hs Hg. destruct arg as [v|]; [|done]. simpl. apply store_typed; eauto. Qed.

Lemma total_bandwidth_typed arg g : settings_typed (settings g) ->
  settings_typed (settings (match arg with
    | Some v =>
        match positive_setting mega v with
        | Some x => ([], set_total_speed (f64_of_Z x) (set_settings (set_total_bandwidth x (settings g)) g))
        | None => ([], g)
        end
    | None => ([LMbps (show_mega (TOTAL_BANDWIDTH (settings g)))], g)
    end).2).
Proof.
  intros Hg. destruct arg as [v|]; [|done]. destruct (positive_setting mega v) as [x|] eqn:E; [|done].
  apply positive_setting_typed in E. destruct Hg as (? & ? & ? & ? & ?). by split_and!.
Qed.

Lemma relay_check_cmd_typed cmd g :
  settings_typed (settings g) -> settings_typed (settings (relay_check_cmd cmd g).2).
Proof.
  intros Hg. unfold relay_check_cmd. destruct (split_on " " (trim cmd)) as [|name rest]; [done|].
  cbv zeta.
  repeat match goal with
  | |- settings_typed (settings (if ?b then _ else _).2) => destruct b; [|]
  end; first [done | by apply total_bandwidth_typed | apply setting_cmd_typed; [|settings_fields|done]].
  all: intros ? ? ?; first [by eapply positive_setting_typed|by eapply seconds_setting_typed].
Qed.

Lemma relay_check_cmd_USAGE cmd g : USAGE (relay_check_cmd cmd g).2 = USAGE g.
Proof.
  unfold relay_check_cmd. destruct (split_on " " (trim cmd)) as [|name rest]; [done|]. cbv zeta.
  repeat match goal with |- USAGE (if ?b then _ else _).2 = _ => destruct b; [|] end;
    destruct (head rest) as [v|]; try done; by destruct (positive_setting mega v).
Qed.

(** *** The copying loop *)

Lemma copy_typed t bytes from to r r' : state_typed r -> (copy t bytes from to r).1 = Some r' ->
  state_typed r'.
Proof.
  intros (He & Ht & Hs & Hh & Hth) E.
  assert (r' = mkRelayState (r_tm r) (r_elapsed r) (wrap64 (r_total r + 8 * Z.of_nat (String.length bytes)))
    (wrap64 (r_total_s r + 8 * Z.of_nat (String.length bytes))) (r_highest r) (r_downgrade r) (r_blacked r)
    (r_threshold r) (t_at t)) as ->.
  { revert E. unfold copy. repeat case_match; by intros [= <-]. }
  split_and!; simpl; try done; apply wrap64_typed.
Qed.

Lemma speed_typed (s n : Z) : is_u64 s -> 1000 <= n -> is_u64 (s / n).
Proof.
  intros [H0 H1] Hn. split; [apply Z.div_pos; lia|].
  etransitivity; [|exact H1]. apply Z.div_le_upper_bound; nia.
Qed.

Lemma measure_typed g ip id now reset r o g' : state_typed r ->
  map_Forall (fun _ u => usage_typed u) (USAGE g) -> measure g ip id now reset r = (o, g') ->
  settings g' = settings g /\ map_Forall (fun _ u => usage_typed u) (USAGE g') /\
  forall r', o = Continue r' -> state_typed r'.
Proof.
  intros (He & Ht & Hs & Hh & Hth) Hu. unfold measure.
  destruct (Z.leb_spec 1000 (elapsed_millis now (r_tm r))) as [Hn|]; [|by intros [= <- <-]; split_and!; [..|by intros ? [= <-]]].
  case_bool_decide; [by intros [= <- <-]|]. intros [= <- <-].
  pose proof (speed_typed (r_total_s r) _ Hs Hn) as Hsp.
  set (n := elapsed_millis now (r_tm r)) in *.
  assert (Hhi : is_u64 (if r_highest r <? r_total_s r / n then r_total_s r / n else r_highest r))
    by (by case_match).
  split_and!; [done| |].
  - apply map_Forall_insert_2; [|done]. split_and!; simpl; try done. apply wrap64_typed.
  - intros ? [= <-]. split_and!; simpl; try done; apply wrap64_typed.
Qed.

Lemma relay_turn_typed g ip id stream peer r t o g' out : state_typed r ->
  map_Forall (fun _ u => usage_typed u) (USAGE g) -> relay_turn g ip id stream peer r t = (o, g', out) ->
  settings g' = settings g /\ map_Forall (fun _ u => usage_typed u) (USAGE g') /\
  forall r', o = Continue r' -> state_typed r'.
Proof.
  intros Hr Hu. unfold relay_turn.
  set (go := fun x : option RelayState * list RelayEffect =>
    match x.1 with Some r' => (measure g ip id (t_done t) (t_reset t) r', x.2) | None => (Fail, g, x.2) end).
  assert (Hgo : forall x, (forall r', x.1 = Some r' -> state_typed r') -> go x = (o, g', out) ->
    settings g' = settings g /\ map_Forall (fun _ u => usage_typed u) (USAGE g') /\
    forall r', o = Continue r' -> state_typed r').
  { intros [[r1|] es] Hx; subst go; simpl; [|by intros [= <- <- _]].
    destruct (measure g ip id (t_done t) (t_reset t) r1) as [o1 g1] eqn:E. intros [= -> -> _].
    eapply measure_typed; [|exact Hu|exact E]. by apply Hx. }
  destruct (t_select t) as [i|i|].
  - destruct (recv i) as [[b|]|]; [|by intros [= <- <- _]..]. apply Hgo. intros r1. by apply copy_typed.
  - destruct (recv i) as [[b|]|]; [|by intros [= <- <- _]..]. apply Hgo. intros r1. by apply copy_typed.
  - case_match; [by intros [= <- <- _]|]. apply Hgo. by intros ? [= <-].
Qed.

(** *** The process *)

Section ProcessTyped.
  Context {hbb : HbbCommon} {proto : RendezvousProto}.
  Context (key : string).

Lemma task_to_typed c k g y : settings_typed (settings g) ->
  map_Forall (fun _ u => usage_typed u) (USAGE g) -> map_Forall (fun _ k => task_typed k) (tasks y) ->
  task_typed k -> system_typed (task_to c k g y).
Proof. intros Hs Hu Ht Hk. constructor; simpl; [done..|]. by apply map_Forall_insert_2. Qed.

Lemma task_done_typed c g y : settings_typed (settings g) ->
  map_Forall (fun _ u => usage_typed u) (USAGE g) -> map_Forall (fun _ k => task_typed k) (tasks y) ->
  system_typed (task_done c g y).
Proof. intros Hs Hu Ht. constructor; simpl; [done..|]. by apply map_Forall_delete. Qed.

Lemma handle_connection_typed a y : system_typed y -> system_typed (handle_connection a y).1.
Proof.
  intros [Hs Hu Ht]. unfold handle_connection. case_match.
  - destruct (a_cmd a) as [data|]; [|done].
    pose proof (relay_check_cmd_typed data (relay_of y) Hs). pose proof (relay_check_cmd_USAGE data (relay_of y)) as E.
    destruct (relay_check_cmd data (relay_of y)) as [res g]. simpl in *.
    constructor; simpl; [done|by rewrite E|done].
  - case_bool_decide; [done|]. destruct (make_pair_addr a); [|done].
    constructor; simpl; [done..|]. by apply map_Forall_insert_2.
Qed.

Lemma step_typed y e y' out : system_typed y -> step key y e = Some (y', out) -> system_typed y'.
Proof.
  intros Hy. pose proof Hy as [Hs Hu Ht].
  destruct e as [a|c i|c|c|c t|c t|c]; cbn [step].
  - intros [= E]. pose proof (handle_connection_typed a y Hy) as H. by rewrite E in H.
  - destruct (tasks y !! c) as [[]|] eqn:Ec; try done. intros [= <- _].
    destruct (relay_request key i) as [u|]; [|by apply task_done_typed].
    destruct (PEERS (relay_of y) !! u); by apply task_to_typed.
  - destruct (tasks y !! c) as [[]|] eqn:Ec; try done. intros [= <- _]. by apply task_to_typed.
  - destruct (tasks y !! c) as [[]|] eqn:Ec; try done. intros [= <- _]. by apply task_done_typed.
  - destruct (tasks y !! c) as [[]|] eqn:Ec; try done. intros [= <- _]. apply task_to_typed; [done| |done|].
    + apply map_Forall_insert_2; [|done]. by split_and!.
    + split_and!; simpl; try done. apply f64_to_usize_typed.
  - destruct (tasks y !! c) as [[]|] eqn:Ec; try done.
    destruct (relay_turn _ _ _ _ _ _ _) as [[o g'] es] eqn:E. intros [= <- _].
    destruct (relay_turn_typed _ _ _ _ _ _ _ _ _ _ (Ht _ _ Ec) Hu E) as (H1 & H2 & H3).
    rewrite <- H1 in Hs. destruct o as [r'| |]; by apply task_to_typed; try apply H3.
  - destruct (tasks y !! c) as [[]|] eqn:Ec; try done. intros [= <- _].
    apply task_done_typed; [done| |done]. by apply map_Forall_delete.
Qed.

(** Every number the relay keeps is a value of its Rust type, [usize]: the settings from the
    start, the environment and the console, which scale and truncate floating point numbers, the
    counters of every session and the published usage stay between 0 and 2^64 - 1 through every
    order of connections, frames, commands and restarts of the loop. *)
Theorem relay_state_typed (a : HbbrArgs) (e : Environ) (k : option string)
    (blacklist blocklist : option string) (open : Sock -> bool) (port : Z) (h0 h : Hbbr)
    (es : list RelayProcEvent) :
  relay_boot a e k blacklist blocklist open = Ok (port, h0) ->
  relay_runs key e (r_bind a) port h0 es h -> system_typed (hr_system h).
Proof.
  intros Hb Hr.
  assert (H0 : system_typed (hr_system h0)).
  { revert Hb. unfold relay_boot. destruct k; simpl; [|done]. destruct (parse_u16 _); simpl; [|done].
    destruct (relay_listen _ _ _); simpl; [|done]. intros [= _ <-].
    constructor; simpl; [|apply map_Forall_empty..]. by apply check_params_typed. }
  induction Hr as [|es h1 ev h2 out Hr IH Hstep]; [done|].
  destruct ev as [ev|open']; simpl in Hstep.
  - destruct (step key (hr_system h1) ev) as [[y o]|] eqn:E; [|done]. injection Hstep as <- _.
    by eapply step_typed.
  - destruct (relay_listen _ _ _); [|done]. injection Hstep as <- _. destruct IH as [Hs Hu Ht].
    constructor; simpl; [by apply check_params_typed|done..].
Qed.

End ProcessTyped.
