(* ===== verification/EndToEnd.v ===== *)
(** * A relayed session, from the request to its first frames

    Both servers at work on one session.  They are started from one folder and so ask for the
    same key.  A client asks hbbs for a relayed session to a peer; hbbs passes the request on
    with the session's uuid, and brings back the answer.  Both ends then come to hbbr with that
    uuid and that key, one after the other, and hbbr joins them and copies what they send.

    What the clients do in between is not code of this repository.  It is stated as what they
    present: a first frame with the uuid the peer was told, and the key ([presents]). *)

From S2P Require Import Prelude RustStr Net External RelayRoutes RelayGeo RelaySelect.
From S2P Require Import RateLimit Guards PeerStore Jwt Common KeyFiles KeyFacts Rendezvous HandlerLogic.
From S2P Require Import RendezvousFacts RoutingFacts RoundTrip Connection Console RelayServer RelayFacts.

Local Open Scope Z_scope.

Section EndToEnd.
  Context {hbb : HbbCommon} {netlib : IpNetworkLib} {v4net : Ipv4NetworkLib}
    {trig : FloatTrig} {mm : MaxMind} {sodium : Sodium} {json : InfoJson} {jwt : JwtLib}
    {proto : RendezvousProto}.
  Context {keylib : KeyLib} {key_laws : KeyLibLaws keylib}.
  Context {temp : TempFileLib} {temp_laws : TempFileLaws temp} (os : Os).

(** ** At the relay *)

(** The first frame of a connection names the session and the key. *)
Definition presents (key uuid : string) (i : option StreamInput) : Prop :=
  exists i' bytes rf, i = Some i' /\ recv i' = Some (Ok bytes) /\
    parse_from_bytes bytes = Some (MRequestRelay rf) /\ rf_uuid rf = uuid /\ rf_licence_key rf = key.

Lemma presents_request key uuid i : uuid <> "" -> presents key uuid i -> relay_request key i = Some uuid.
Proof.
  intros Hu (i' & b & rf & -> & Hr & Hp & <- & <-). unfold relay_request. cbn. rewrite Hr, Hp.
  rewrite bool_decide_true by done. rewrite andb_false_r. apply str_nonempty_true in Hu. by rewrite Hu.
Qed.

(** The connection serves a session with the other one, and a frame that comes from either of
    the two is written to the other. *)
Definition copies (key : string) (y : System) (c : nat) (s peer : Stream) : Prop :=
  forall t b, frame t = Some b -> b <> "" -> t_sent t = true ->
  exists y' out, step key y (EvTurn c t) = Some (y', out) /\
    match t_select t with
    | FromPeer _ => Forward (st_conn peer) (st_conn s) b ∈ out
    | _ => Forward (st_conn s) (st_conn peer) b ∈ out
    end.

Lemma relaying_copies key y c s peer a id r :
  tasks y !! c = Some (TRelaying s peer a id r) -> copies key y c s peer.
Proof.
  intros Hc t b Hf Hb Ht. cbn [step]. rewrite Hc.
  assert (E1 : stream_over t = false) by (unfold stream_over; rewrite Hf; by destruct (incoming t)).
  assert (E2 : write_failed t = false) by (unfold write_failed; by rewrite Hf, Ht, andb_false_r).
  assert (E3 : silent r t = false).
  { unfold silent. unfold frame, incoming in Hf. by destruct (t_select t). }
  rewrite relay_turn_cases, E1, E3, E2. apply str_nonempty_true in Hb.
  destruct (measure _ _ _ _ _ _) as [o g']. do 2 eexists. split; [done|].
  unfold forwarded. rewrite Hf, Hb. destruct (t_select t); apply elem_of_app; right; by left.
Qed.

Lemma set_raw_conn s (b : bool) : st_conn (if b then set_raw s else s) = st_conn s.
Proof. unfold set_raw. destruct b; [|done]. by destruct (st_ws s). Qed.

(** Whoever comes first with the session's uuid waits, and is joined with the next who does;
    what else happens at the relay in between makes no difference. *)
Definition joined_at_relay (key uuid : string) : Prop :=
  forall arg bl bk es y0 out c1 s1 a1 i1,
  runs key (relay_start arg bl bk) es y0 out ->
  tasks y0 !! c1 = Some (TReading s1 a1) -> presents key uuid i1 -> PEERS (relay_of y0) !! uuid = None ->
  exists y1, step key y0 (EvFirst c1 i1) = Some (y1, []) /\
  forall y2, rtc (others_act key uuid) y1 y2 ->
  exists y3, step key y2 (EvFile c1) = Some (y3, []) /\
  forall y4 c2 s2 a2 i2 t, rtc (others_act key uuid) y3 y4 ->
  tasks y4 !! c2 = Some (TReading s2 a2) -> presents key uuid i2 ->
  exists y5 y6 s2' s1', step key y4 (EvFirst c2 i2) = Some (y5, []) /\
    step key y5 (EvStart c2 t) = Some (y6, []) /\
    st_conn s2' = st_conn s2 /\ st_conn s1' = st_conn s1 /\ copies key y6 c2 s2' s1'.

Lemma presenters_joined key uuid : uuid <> "" -> joined_at_relay key uuid.
Proof.
  intros Hu arg bl bk es y0 out c1 s1 a1 i1 Hr H1 Hp1 Hn.
  destruct (ends_join key y0 uuid c1 s1 a1 i1) as (y1 & E1 & K1); [|done|by apply presents_request|done|].
  { apply (inv_runs _ _ _ _ _ _ _) in Hr. exact (inv_fresh _ _ _ _ Hr). }
  exists y1. split; [done|]. intros y2 R2. destruct (K1 y2 R2) as (y3 & E3 & K3).
  exists y3. split; [done|]. intros y4 c2 s2 a2 i2 t R4 H2 Hp2.
  destruct (K3 y4 c2 s2 a2 i2 t R4 H2 (presents_request _ _ _ Hu Hp2)) as (y5 & y6 & E5 & E6 & K6 & _).
  cbv zeta in K6. do 4 eexists. split; [done|]. split; [done|].
  split; [|split]; [..|exact (relaying_copies _ _ _ _ _ _ _ _ K6)]; apply set_raw_conn.
Qed.

(** ** Through both servers *)


End EndToEnd.
