(* ===== verification/RendezvousWitnesses.v ===== *)
(** * The rendezvous server's properties on a concrete server

    A small server with concrete libraries: each property of the handlers is applied
    to it where its hypotheses hold, and the behaviours that are probably not intended
    are shown on it. *)

From S2P Require Import KeyWitnesses Prelude RustStr Net External RelayRoutes RelayGeo RelaySelect.
From S2P Require Import RateLimit Guards PeerStore Jwt Rendezvous HandlerLogic.
From S2P Require Import RendezvousFacts RoutingFacts Connection ConnectionFacts Console.
From S2P Require Import Settings Hbbs HbbsFacts RoundTrip Directory PunchRace.

Local Open Scope Z_scope.

(** ** Concrete libraries *)

Definition example_v4net : Ipv4NetworkLib := {|
  Ipv4Network := Z * Z;
  v4net_contains n a := Z.shiftr a (32 - n.2) =? Z.shiftr n.1 (32 - n.2);
|}.

(** A cipher that marks what it encrypted. *)
Definition example_sodium : Sodium := {|
  SignKey := unit;
  sign m _ := "signed " +:+ m;
  BoxSecret := unit;
  box_public _ := "public";
  SymKey := unit;
  encrypt_decode _ _ _ := Some tt;
  Crypt := nat;
  crypt_new _ := 0%nat;
  crypt_enc n m := ("sealed " +:+ m, S n);
  crypt_dec n m := (fun x => (x, S n)) <$> strip_prefix "sealed " m;
|}.

(** A protocol with a handful of messages. *)
Definition example_proto : RendezvousProto := {|
  parse_from_bytes b :=
    if bool_decide (b = "claim device-1") then
      Some (MRegisterPk (mkRegisterPk "device-1" "uuid-1" "pk-1"))
    else if bool_decide (b = "steal device-1") then
      Some (MRegisterPk (mkRegisterPk "device-1" "uuid-2" "pk-2"))
    else if bool_decide (b = "claim device-2") then
      Some (MRegisterPk (mkRegisterPk "device-2" "uuid-2" "pk-2"))
    else if bool_decide (b = "punch") then Some (MPunchHoleRequest (mkPunchHoleRequest "device-1" 1 "" ""))
    else if bool_decide (b = "punched") then
      Some (MPunchHoleSent (mkPunchHoleSent "16909060:5000" "device-1" "relay" 1 "1.2"))
    else if bool_decide (b = "relay") then
      Some (MRequestRelay (mkRequestRelay "device-1" "" "session-1" "" ""))
    else if bool_decide (b = "join session-1") then
      Some (MRequestRelay (mkRequestRelay "device-1" "" "session-1" example_pk ""))
    else if bool_decide (b = "relayed") then
      Some (MRelayResponse (mkRelayResponse "16909060:5000" (RrId "device-1") "relay" "1.2" ""))
    else if bool_decide (b = "keys") then Some (MKeyExchange ["theirs"; "sealed"])
    else if bool_decide (b = "nat") then Some (MTestNatRequest 0)
    else None;
  write_to_bytes _ := Some "reply";
  NAT_SYMMETRIC := 2;
  nat_type_known n := (0 <=? n) && (n <=? 2);
  idpk_bytes id k := id +:+ k;
|}.

#[local] Existing Instance example_hbb.
#[local] Existing Instance example_net.
#[local] Existing Instance example_v4net.
#[local] Existing Instance example_trig.
#[local] Existing Instance example_maxmind.
#[local] Existing Instance example_sodium.
#[local] Existing Instance example_json.
#[local] Existing Instance example_jwt.
#[local] Existing Instance example_proto.

Definition example_server : Server :=
  mkServer ∅ (pm_new (mkDb [])) selector_default [] []
    (mkInner 0 "" "" None "" (Some tt)) ∅ ∅ ∅ ∅ [] false false 100 "".

Definition example_handler_env (t : Instant) : Env :=
  mkEnv t 1700000000 (mkDbEnv true true "guid-1") (fun _ _ => true) None.

Definition example_device : SocketAddr := SocketV4 3405803783 40000.

(** ** Registration *)

Definition example_claim : list (Env * Input) :=
  [(example_handler_env 0, InUdp (fun _ => true) "claim device-1" example_device)].

Definition example_theft : list (Env * Input) :=
  [(example_handler_env 1, InUdp (fun _ => true) "steal device-1" (SocketV4 1 2));
   (example_handler_env 2, InTcp "steal device-1" None (SocketV4 1 2) "" true None)].

Lemma example_db_wf : db_wf (mkDb []).
Proof. constructor; constructor. Qed.

Lemma id_belongs_to_its_device_witness :
  bound (pm (foldl run_input example_server (example_claim ++ example_theft))) "device-1" "uuid-1" /\
  result_of (handle_register_pk (example_handler_env 3) (mkRegisterPk "device-1" "uuid-2" "pk-2")
    example_device false) (foldl run_input example_server (example_claim ++ example_theft))
  <> Some RPK_OK.
Proof.
  destruct (id_belongs_to_its_device (mkDb []) example_claim example_theft example_server
    "device-1" "uuid-1") as [H1 H2].
  - apply example_db_wf.
  - reflexivity.
  - repeat constructor; discriminate.
  - discriminate.
  - vm_compute. reflexivity.
  - split; [exact H1|]. apply H2; [discriminate|reflexivity|discriminate].
Defined.

(** The same messages before and after the end of the process. *)
Definition example_messages (l : list (Env * Input)) : list (Env * Event) :=
  (fun ei => (ei.1, Message ei.2)) <$> l.
Definition example_restart : list (Env * Event) := [(example_handler_env 3, Restart example_server)].

Lemma server_refines_directory_witness :
  exists d, dir_run (dir_start (mkDb []))
      (snd <$> example_messages example_claim ++ example_restart ++ example_messages example_theft) d /\
    represents (pm (foldl run_event example_server
      (example_messages example_claim ++ example_restart ++ example_messages example_theft))) d.
Proof.
  destruct (server_refines_directory (mkDb []) example_server
    (example_messages example_claim ++ example_restart ++ example_messages example_theft))
    as (d & Hd & Hr & _).
  - apply example_db_wf.
  - reflexivity.
  - repeat constructor; discriminate.
  - by exists d.
Defined.

Lemma stored_id_never_changes_hands_witness :
  fst <$> row_owner (pm_db (pm (foldl run_event example_server
    (example_messages example_claim ++ example_restart ++ example_messages example_theft)))) "device-1"
    = Some "uuid-1" /\
  result_of (handle_register_pk (example_handler_env 9000000000) (mkRegisterPk "device-1" "uuid-1" "pk-1")
    example_device false) (foldl run_event example_server
      (example_messages example_claim ++ example_restart ++ example_messages example_theft)) = Some RPK_OK.
Proof.
  split; [|vm_compute; reflexivity].
  apply (stored_id_never_changes_hands (mkDb []) example_server (example_messages example_claim)
    (example_restart ++ example_messages example_theft) "device-1" "uuid-1").
  - apply example_db_wf.
  - reflexivity.
  - repeat constructor; discriminate.
  - vm_compute. reflexivity.
Defined.

(** Ten registrations of one id in one second, each followed by somebody's request. *)
Definition example_registrations : list Doing :=
  concat ((fun i => let env := example_handler_env (Z.of_nat i * 100000000) in
     [DReg (mkRegistration env (mkRegisterPk "device-1" "uuid-1" "pk-1") example_device false);
      DOther env (InTcp "punch" None (SocketV4 1 2) "" false None)]) <$> seq 0 10).

Lemma registrations_are_rate_limited_witness :
  (accepted_for "device-1" example_registrations (foldl run_input example_server []) = 3 /\
   accepted_for "device-1" example_registrations (foldl run_input example_server []) <= 3)%nat.
Proof.
  split; [vm_compute; reflexivity|].
  apply (registrations_are_rate_limited (mkDb []) [] example_server example_registrations "device-1").
  - apply example_db_wf.
  - reflexivity.
  - constructor.
  - repeat constructor; discriminate.
  - assert (H : forallb (fun t => forallb (fun t' => elapsed_secs t' t <=? 6)
      (reg_times "device-1" example_registrations)) (reg_times "device-1" example_registrations) = true)
      by (vm_compute; reflexivity).
    intros t t' Ht Ht'. rewrite forallb_forall in H.
    apply list_elem_of_In in Ht, Ht'. specialize (H t Ht). rewrite forallb_forall in H.
    apply Z.leb_le, (H t' Ht').
Defined.

(** ** Punch-hole requests *)

Definition example_registered : Server := foldl run_input example_server example_claim.

Lemma example_registered_wf : pm_wf (pm example_registered).
Proof.
  apply (inputs_preserve names_rows pm_wf); [apply pm_wf_invariant|repeat constructor; discriminate|].
  apply pm_new_wf, example_db_wf.
Qed.

Lemma punch_forwarded_iff_allowed_witness :
  (result_of (handle_punch_hole_request (example_handler_env 1000) (SocketV4 1 2)
     (mkPunchHoleRequest "device-1" 1 "" "") "" false) example_registered).2 = Some example_device /\
  match (result_of (handle_punch_hole_request (example_handler_env 1000) (SocketV4 1 2)
     (mkPunchHoleRequest "device-1" 1 "" "") "" false) example_registered).2 with
  | Some to =>
      may_punch (example_handler_env 1000) example_registered
        (mkPunchHoleRequest "device-1" 1 "" "") "" /\
      is_online 1000 "device-1" (pm example_registered) = true /\
      socket_addr <$> cell (pm example_registered) "device-1" = Some to
  | None =>
      ~ (may_punch (example_handler_env 1000) example_registered
           (mkPunchHoleRequest "device-1" 1 "" "") "" /\
         is_online 1000 "device-1" (pm example_registered) = true)
  end.
Proof.
  split; [vm_compute; reflexivity|].
  apply (punch_forwarded_iff_allowed (example_handler_env 1000) (SocketV4 1 2)
    (mkPunchHoleRequest "device-1" 1 "" "") "" false example_registered).
  apply example_registered_wf.
Defined.

(** The asker of the examples, on its connection; while it waits, the device registers again
    and somebody else asks for it, whose connection then ends, and a websocket opens and ends. *)
Definition example_asker : SocketAddr := SocketV4 16909060 5000.
Definition example_sink : Sink := mkSink 7 false (Some 0%nat).
Definition example_meanwhile : list Meanwhile :=
  [MwInput (example_handler_env 2000) (InUdp (fun _ => true) "claim device-1" example_device);
   MwInput (example_handler_env 3000) (InTcp "punch" (Some (mkSink 8 false None)) (SocketV4 5 6) "" false None);
   MwTcpEnd (SocketV4 5 6) (mkTcpConn None None None (config_update example_server));
   MwWsOpen 9; MwWsEnd (SocketV4 7 8) (mkWsPeer 9 9)].

Lemma example_meanwhile_elsewhere :
  Forall (elsewhere (try_into_v4 example_asker)) example_meanwhile.
Proof. repeat constructor; discriminate. Qed.

Definition example_answered (req ans : Bytes) : list Effect :=
  sent (handle_tcp (example_handler_env 4000) ans None example_device "" false None)
    (foldl run_meanwhile
       (after (handle_tcp (example_handler_env 1000) req (Some example_sink) example_asker "" false None)
          example_registered) example_meanwhile).



(** ** Requests that overlap *)

Definition example_punch : Punch :=
  mkPunch (mkPunchHoleRequest "device-1" 1 "" "") example_asker "" false (Some example_sink) None.

(** The request after its first six stretches, about to be passed on. *)
Definition example_about : PTask * Server * list Effect :=
  run_punch 6 (example_handler_env 1000) (PStart example_punch) example_registered.


Lemma punch_alone_is_the_handler_witness :
  let '(t, s', out) := run_punch 9 (example_handler_env 1000) (PStart example_punch) example_registered in
  let '(a, s'', out') := handle_tcp (example_handler_env 1000) "punch" (Some example_sink) example_asker
    "" false None example_registered in
  finished t = true /\ s' = s'' /\ out = out'.
Proof.
  apply (punch_alone_is_the_handler (example_handler_env 1000) example_punch "punch" example_registered).
  reflexivity.
Defined.

(** ** Connections *)

(** Two websockets behind one proxy address; the second takes the entry over, then the
    first ends. *)
Definition example_ws_events : list SysEvent :=
  [EvConnect (Some "203.0.113.7") (SocketV4 1 5000) 0;
   EvConnect (Some "203.0.113.7") (SocketV4 1 5001) 1;
   EvWs 0 (example_handler_env 2) "" 90000 (WsBinary "claim device-1");
   EvWs 1 (example_handler_env 3) "" 90000 (WsBinary "claim device-1");
   EvWs 0 (example_handler_env 4) "" 90000 WsClosed].

Lemma ws_registry_never_stale_witness :
  ws_peer_count (sys_server (foldl sys_step (mkWsSystem example_server 0 ∅) example_ws_events)) = 1%nat /\
  (ws_peer_count (sys_server (foldl sys_step (mkWsSystem example_server 0 ∅) example_ws_events)) <=
   size (sys_conns (foldl sys_step (mkWsSystem example_server 0 ∅) example_ws_events)))%nat.
Proof.
  split; [vm_compute; reflexivity|].
  apply (ws_registry_never_stale example_server example_ws_events).
  - reflexivity.
  - reflexivity.
  - vm_compute. reflexivity.
Defined.

(** A TCP connection that completes the exchange and then asks for its port. *)
Definition example_conn : TcpConn := mkTcpConn (Some (mkSink 7 false None)) (Some tt) None (config_update example_server).

Lemma no_plaintext_after_key_exchange_witness :
  sent (tcp_loop example_device "key" example_conn
          [(example_handler_env 0, "keys"); (example_handler_env 1, "sealed nat")]
        ≫= tcp_end example_device) example_server =
    [SendSink 7 false (MTestNatResponse 40000 None) "sealed reply"] /\
  Forall (encrypted 7)
    (sent (tcp_loop example_device "key" example_conn
             [(example_handler_env 0, "keys"); (example_handler_env 1, "sealed nat")]
           ≫= tcp_end example_device) example_server).
Proof.
  split; [vm_compute; reflexivity|].
  apply (no_plaintext_after_key_exchange 7 (example_handler_env 0) example_device "key" example_conn
    tt tt "keys" [(example_handler_env 1, "sealed nat")] example_server).
  - reflexivity.
  - reflexivity.
  - reflexivity.
  - intros a k H. discriminate H.
Defined.

(** ** The health check *)

(** The third relay answers before the first; the second does not. *)
Lemma health_check_keeps_order_witness :
  (answering (fun i => negb (i =? 1)%nat) ["a"; "b"; "c"]).*2 `sublist_of` ["a"; "b"; "c"] /\
  check_relay_servers ["a"; "b"; "c"] [2; 0]%nat = Some (DRelayServers ["a"; "c"]).
Proof.
  apply (health_check_keeps_order (fun i => negb (i =? 1)%nat) ["a"; "b"; "c"] [2; 0]%nat).
  apply Permutation_swap.
Defined.

(** ** Behaviours that are probably not intended *)

Definition example_console : ConsoleEnv :=
  mkConsoleEnv 0 (fun m => map_to_list m) (fun m => map_to_list m) Removed None.

(** Deliver to the main loop what a console command put into its channel. *)
Definition deliver (es : list Effect) (s : Server) : Server :=
  foldl (fun s e => match e with SendData d => after (on_data d) s | _ => s end) s es.

(** [always-use-relay Y] replaces the list of relays by the relay "Y". *)
Example always_use_relay_replaces_relays :
  let s := parse_relay_servers "hk.example.com, sh.example.com" example_server in
  let '(_, s', es) := check_cmd example_console "always-use-relay Y" s in
  live (relay_servers s) = ["hk.example.com"; "sh.example.com"] /\
  ALWAYS_USE_RELAY (deliver es s') = true /\ live (relay_servers (deliver es s')) = ["Y"].
Proof. vm_compute. split; [reflexivity|split; reflexivity]. Qed.

(** A health check that was under way when the operator replaced two relays by one
    brings the old relays back, and with a single relay configured no later check
    corrects it. *)
Example stale_health_check_sticks :
  let s := parse_relay_servers "old1,old2" example_server in
  let fs := mkFsView (fun _ => None) (fun _ => None) (fun _ => None) in
  exists probes stale,
    (on_tick fs s).2 = Some probes /\ check_relay_servers probes [0; 1]%nat = Some stale /\
    let s1 := after (on_data (DRelayServers0 "new")) s in
    let s2 := after (on_data stale) s1 in
    live (relay_servers s1) = ["new"] /\ live (relay_servers s2) = ["old1"; "old2"] /\
    (on_tick fs s2).2 = None /\ live (relay_servers (on_tick fs s2).1) = ["old1"; "old2"].
Proof. eexists _, _. split; [reflexivity|]. split; [reflexivity|]. vm_compute. repeat split; reflexivity. Qed.

(** After a restart a request reads the stored record of a device; before it files it, the
    device registers from a new address; the cell it then files takes the place of the one that says so.  The device is online, and
    the asker is told that it is not. *)
Example late_filing_hides_a_device :
  let env := example_handler_env 1000 in
  let s := set_pm (pm_new (pm_db (pm example_registered))) example_server in
  let '(t, s, _) := run_punch 4 env (PStart example_punch) s in
  let s := after (handle_udp env (fun _ => true) "claim device-1" (SocketV4 3405803784 40000)) s in
  let '(t', s', out) := run_punch 5 env t s in
  is_online 1000 "device-1" (pm s) = true /\ is_online 1000 "device-1" (pm s') = false /\
  out = [SendSink 7 false (refusal (Some OFFLINE) "") "sealed reply"].
Proof. vm_compute. auto. Qed.

(** Two devices behind one public address, on websockets through a proxy that says so: both
    are filed under the address with port 0, and a request for the first is pushed to the
    websocket (number 1) of the second. *)
Example shared_address_misdelivers :
  let s := sys_server (foldl sys_step (mkWsSystem example_server 0 ∅)
    [EvConnect (Some "203.0.113.7") (SocketV4 1 5000) 0;
     EvConnect (Some "203.0.113.7") (SocketV4 1 5001) 1;
     EvWs 0 (example_handler_env 2) "" 90000 (WsBinary "claim device-1");
     EvWs 1 (example_handler_env 3) "" 90000 (WsBinary "claim device-2")]) in
  sent (handle_tcp (example_handler_env 1000) "punch" (Some example_sink) example_asker "" false None) s =
    [SendWs 1 (MPunchHole (mkPunchHole "16909060:5000" 1 ""))].
Proof. vm_compute. auto. Qed.

(** While the database cannot be read, an id it holds can be claimed with another uuid. *)
Example unreadable_database_frees_ids :
  let db := mkDb [mkRow "guid-1" "device-1" "uuid-1" "pk-1" None "203.0.113.7" None] in
  let s := set_pm (pm_new db) example_server in
  let env up := mkEnv 0 0 (mkDbEnv up true "guid-2") (fun _ _ => true) None in
  let theft := mkRegisterPk "device-1" "uuid-2" "pk-2" in
  result_of (handle_register_pk (env true) theft (SocketV4 1 2) false) s = Some UUID_MISMATCH /\
  result_of (handle_register_pk (env false) theft (SocketV4 1 2) false) s = Some RPK_OK /\
  bound (pm (after (handle_register_pk (env false) theft (SocketV4 1 2) false) s)) "device-1" "uuid-2".
Proof. vm_compute. split; [reflexivity|split; reflexivity]. Qed.

(** A registration that could not be stored is answered with success. *)
Example failed_store_is_reported_ok :
  let env := mkEnv 0 0 (mkDbEnv true false "guid-1") (fun _ _ => true) None in
  let m := handle_register_pk env (mkRegisterPk "device-1" "uuid-1" "pk-1") example_device false in
  result_of m example_server = Some RPK_OK /\ rows (pm_db (pm (after m example_server))) = [].
Proof. vm_compute. split; reflexivity. Qed.

(** ** The process *)

Definition example_boot : Boot :=
  mkBoot {["MAX_PUNCH_REQUESTS" := Some "10"; "RELAY_SERVERS" := Some "old1,old2"]}
    (Some ("key", Some tt)) (Some (pm_new (mkDb []))) (fun _ => None) (fun _ => "") (fun _ => None)
    None (mkFsView (fun _ => None) (fun _ => None) (fun _ => None)) (fun _ => true)
    (fun _ => Some (SocketV4 0 21116)).

Definition example_args : HbbsArgs := mkHbbsArgs None 21116 0 "-" 0.

(** A device registers, a websocket opens, the listener for the NAT test fails, a health check
    ends and is taken from the channel. *)
Definition example_events : list ProcEvent :=
  [PUdp (example_handler_env 0) (fun _ => true) (fun _ => true) "claim device-1" example_device;
   PAcceptWs None example_device 0;
   PWs 0 (example_handler_env 1) (WsBinary "claim device-1");
   PFailed FListener2 (fun _ => true);
   PChecked ["old1"; "old2"] [1%nat];
   PRecv; PWatch (WOpen 0 true); PWatch (WTick 5 true)].

Definition example_started : Config * Hbbs :=
  match boot example_args example_boot with
  | Ok x => x
  | Err _ => (mkConfig None 0 "" 0, mkHbbs (mkWsSystem example_server 0 ∅) ∅ []
                (mkListeners (Udp example_device) (Udp example_device) (Udp example_device)
                   (Udp example_device) None) WOff)
  end.

Lemma example_events_ok : Forall event_ok example_events.
Proof. repeat constructor; discriminate. Qed.

Lemma example_boot_ok : boot example_args example_boot = Ok example_started.
Proof.
  assert (H : is_ok (boot example_args example_boot) = true) by (vm_compute; reflexivity).
  unfold example_started. destruct (boot example_args example_boot); [reflexivity|discriminate H].
Qed.

Definition example_end : Hbbs :=
  default example_started.2 (proc_run example_started.1 example_started.2 example_events).

Lemma example_run_ok : proc_run example_started.1 example_started.2 example_events = Some example_end.
Proof.
  assert (H : match proc_run example_started.1 example_started.2 example_events with
              | Some _ => true | None => false end = true)
    by (vm_compute; reflexivity).
  unfold example_end.
  destruct (proc_run example_started.1 example_started.2 example_events); [reflexivity|discriminate H].
Qed.

Lemma process_invariants_witness :
  size (ws_peers (hp_server example_end)) = 1%nat /\
  live (relay_servers (hp_server example_end)) = ["old2"] /\
  pm_wf (pm (hp_server example_end)) /\ selector_wf (relay_servers (hp_server example_end)).
Proof.
  split; [vm_compute; reflexivity|]. split; [vm_compute; reflexivity|].
  destruct (process_invariants example_args example_boot (mkDb []) example_started.1 example_started.2
    example_end example_events eq_refl example_db_wf example_boot_ok example_events_ok eq_refl
    example_run_ok) as (H1 & H2 & _).
  split; [exact H1|exact H2].
Defined.

Lemma sockets_survive_failures_witness : socks_ok None 21116 (hp_socks example_end).
Proof.
  pose proof (sockets_survive_failures example_args example_boot (mkDb []) example_started.1
    example_started.2 example_events eq_refl example_db_wf example_boot_ok example_events_ok eq_refl) as H.
  rewrite example_run_ok in H. exact H.
Defined.
