(* ===== verification/EndToEndWitnesses.v ===== *)
(** * A session through two concrete servers

    The server of [RendezvousWitnesses] and a relay, started from the folder of [KeyWitnesses]:
    the property of [EndToEnd] is applied to a session between a device and a client. *)

From S2P Require Import Prelude RustStr Net External RelayRoutes RelayGeo RelaySelect.
From S2P Require Import PeerStore Jwt KeyFiles KeyFacts KeyWitnesses Rendezvous HandlerLogic.
From S2P Require Import RoundTrip Connection RendezvousWitnesses RelayServer RelayFacts EndToEnd.

Local Open Scope Z_scope.

#[local] Existing Instance example_hbb.
#[local] Existing Instance example_net.
#[local] Existing Instance example_v4net.
#[local] Existing Instance example_trig.
#[local] Existing Instance example_maxmind.
#[local] Existing Instance example_sodium.
#[local] Existing Instance example_json.
#[local] Existing Instance example_jwt.
#[local] Existing Instance example_proto.
#[local] Existing Instances example_keys example_keys_laws example_temp example_temp_laws.

(** Two connections to the relay, and their first frames. *)
Definition example_caller (n : Z) : Event := EvAccept (mkAccepted (SocketV4 (3405803776 + n) 40000) false None None).
Definition example_join : option StreamInput := Some (TcpInput (Some (Ok "join session-1"))).
Definition example_relay : System := relay_start (fun _ => "") None None.
Definition example_called : System :=
  (default (example_relay, []) (run_events example_pk example_relay [example_caller 1; example_caller 2])).1.

Lemma example_presents : presents example_pk "session-1" example_join.
Proof. by eexists _, "join session-1", _. Qed.

