(* ===== verification/RelayWitnesses.v ===== *)
(** * The relay server's properties on concrete sessions

    Two clients meet over a concrete relay server and exchange frames: the properties of
    [RelayFacts] are applied there.  The end of the file shows orders of events and
    settings for which the relay server does something that is probably not intended. *)

From S2P Require Import Prelude RustStr RustFloat Net External.
From S2P Require Import PeerStore Rendezvous Connection RelayServer RelayFacts Settings Hbbs Hbbr.

Local Open Scope Z_scope.

(** A first frame is a session's name; the key the clients present is [k]. *)
Definition relay_proto : RendezvousProto := {|
  parse_from_bytes b := Some (MRequestRelay (mkRequestRelay "" "" b "k" ""));
  write_to_bytes _ := Some "reply";
  NAT_SYMMETRIC := 2;
  nat_type_known n := (0 <=? n) && (n <=? 2);
  idpk_bytes id k := id +:+ k;
|}.

#[local] Existing Instance example_hbb.
#[local] Existing Instance relay_proto.

Definition client (n : Z) : SocketAddr := SocketV4 (3405803776 + n) 40000.
Definition calls (n : Z) : Event := EvAccept (mkAccepted (client n) false None None).
Definition asks (c : nat) (u : string) : Event := EvFirst c (Some (TcpInput (Some (Ok u)))).
Definition ms (n : Z) : Instant := n * NANOS_PER_MILLI.
Definition says (s : Select) (t : Z) : Turn := mkTurn s (ms t) true (ms t) (ms t).
Definition text (b : string) : StreamInput := TcpInput (Some (Ok b)).

Definition relay_server : System := relay_start (fun _ => "") None None.

(** The two ends of [u-1] meet, exchange two frames and one of them leaves. *)
Definition meeting : list Event :=
  [calls 1; asks 0 "u-1"; EvFile 0; calls 2; asks 1 "u-1"; EvStart 1 0;
   EvTurn 1 (says (FromPeer (text "hello")) 10); EvTurn 1 (says (FromStream (text "hi")) 1200);
   EvTurn 1 (says (FromPeer (TcpInput None)) 1300); EvClose 1; EvTimer 0].

Definition meeting_end : System * list RelayEffect :=
  default (relay_server, []) (run_events "k" relay_server meeting).

Lemma meeting_runs : runs "k" relay_server meeting meeting_end.1 meeting_end.2.
Proof.
  apply (run_events_runs "k" relay_server meeting [] relay_server []); [constructor|].
  by vm_compute.
Qed.

(** The session of the example is a link between connections 0 and 1. *)
Lemma meeting_linked : linked meeting_end.2 1 0.
Proof. exists "hi". left. vm_compute. repeat constructor. Qed.

Lemma sessions_isolated_witness :
  runs "k" relay_server meeting meeting_end.1 meeting_end.2 /\ linked meeting_end.2 1 0 /\
  same_session "k" meeting 1 0 /\ (forall b, linked meeting_end.2 1 b -> b = 0%nat).
Proof.
  destruct (sessions_isolated "k" (fun _ => "") None None meeting _ _ meeting_runs)
    as (H1 & H2 & _).
  split; [apply meeting_runs|]. split; [apply meeting_linked|]. split.
  - by apply (H1 1%nat 0%nat meeting_linked).
  - intros b Hb. exact (H2 1%nat 0%nat b meeting_linked Hb).
Defined.

(** ** Meeting *)

Definition waiting_server : System :=
  (default (relay_server, [])
     (run_events "k" relay_server [calls 1; asks 0 "u-1"; EvFile 0; calls 2])).1.

Lemma waiting_end_is_met_witness :
  PEERS (relay_of waiting_server) !! "u-1" = Some (mkStream 0 false false) /\
  exists y' out s' ad, step "k" waiting_server (asks 1 "u-1") = Some (y', out) /\
    tasks y' !! 1%nat = Some (TPaired s' (mkStream 0 false false) ad).
Proof.
  assert (Hw : PEERS (relay_of waiting_server) !! "u-1" = Some (mkStream 0 false false))
    by by vm_compute.
  split; [exact Hw|].
  destruct (step "k" waiting_server (asks 1 "u-1")) as [[y' out]|] eqn:Hs; [|by vm_compute in Hs].
  destruct (waiting_end_is_met "k" _ _ _ _ _ _ Hw Hs) as [H1 _].
  destruct (H1 1%nat _ eq_refl eq_refl) as (_ & s' & ad & _ & Hp).
  by exists y', out, s', ad.
Defined.

(** The system just before connection 0 asks for [u-1]. *)
Definition before_meeting : System :=
  (default (relay_server, []) (run_events "k" relay_server [calls 1])).1.

Definition calls_in (y : System) : System := (default (y, []) (step "k" y (calls 2))).1.

Lemma calls_in_others y : others_act "k" "u-1" y (calls_in y).
Proof.
  exists (calls 2), (handle_connection (mkAccepted (client 2) false None None) y).2.
  split; [|by intros []]. unfold calls_in. simpl. by destruct (handle_connection _ y).
Qed.

Lemma ends_meet_witness :
  exists y3 y6, step "k" y3 (EvStart 1 5) = Some (y6, []) /\
    PEERS (relay_of y6) !! "u-1" = None /\
    exists s r, tasks y6 !! 1%nat = Some (TRelaying s (mkStream 0 false true) (client 2) (usage_id (client 2)) r).
Proof.
  destruct (ends_meet "k" (fun _ => "") None None [calls 1] before_meeting [] "u-1" 0%nat
    (mkStream 0 false false) (client 1) (Some (text "u-1"))) as (y1 & E1 & H1).
  - apply (run_events_runs "k" relay_server [calls 1] [] relay_server []); [constructor|]. by vm_compute.
  - by vm_compute.
  - by vm_compute.
  - by vm_compute.
  - destruct (H1 y1 ltac:(reflexivity)) as (y3 & E3 & H3).
    assert (Ey3 : Some y3 = fst <$> run_events "k" before_meeting [asks 0 "u-1"; EvFile 0]).
    { cbn [run_events]. unfold asks. unfold text in E1. rewrite E1. cbn [mbind option_bind]. by rewrite E3. }
    destruct (H3 (calls_in y3) 1%nat (mkStream 1 false false) (client 2) (Some (text "u-1")) 5)
      as (y5 & y6 & E5 & E6 & H6 & H6').
    + apply rtc_once, calls_in_others.
    + vm_compute in Ey3. apply (inj Some) in Ey3 as ->. by vm_compute.
    + by vm_compute.
    + exists y5, y6. split; [exact E6|]. split; [exact H6'|]. do 2 eexists. exact H6.
Defined.

(** ** A session *)

Definition tables : Relay := relay_of relay_server.

Definition chat : list (Relay * Turn) :=
  [(tables, says (FromPeer (text "hello")) 10); (tables, says (FromStream (text "hi")) 20);
   (tables, says (FromPeer (text "how are you")) 30)].

Definition chat_end : Outcome * list RelayEffect :=
  relay_loop "203.0.113.2" "id" 1 0 (relay_init settings_default 0) chat.

Lemma frames_copied_in_order_witness :
  written 1 chat_end.2 = ["hello"; "how are you"] /\
  exists k, written 1 chat_end.2 = read_from true (take k chat) /\
            written 0 chat_end.2 = read_from false (take k chat).
Proof.
  split; [by vm_compute|].
  destruct (frames_copied_in_order "203.0.113.2" "id" 1 0 (relay_init settings_default 0) chat
              chat_end.1 chat_end.2) as (k & _ & H1 & H2); [lia|apply surjective_pairing|].
  exists k. by split.
Defined.

Definition chat_state : RelayState :=
  match chat_end.1 with Continue r => r | _ => relay_init settings_default 0 end.

Definition late_turn : Turn := says (FromStream (text "fine")) 1200.

Definition late_result : Outcome * Relay * list RelayEffect :=
  relay_turn tables "203.0.113.2" "id" 1 0 chat_state late_turn.

Lemma usage_reports_consistent_witness :
  USAGE late_result.1.2 <> USAGE tables /\
  exists u, USAGE late_result.1.2 = <["id" := u]> (USAGE tables) /\ report_ok 176 u.
Proof.
  assert (Hne : USAGE late_result.1.2 <> USAGE tables) by (vm_compute; congruence).
  split; [exact Hne|].
  destruct late_result as [[o g'] out'] eqn:Hr.
  destruct o as [r'| |]; [|by vm_compute in Hr..].
  destruct (usage_reports_consistent settings_default 0 "203.0.113.2" "id" 1 0 chat chat_state r'
              chat_end.2 out' tables g' late_turn) as [H|H]; [by vm_compute|exact Hr| | | |].
  - vm_compute. repeat split; congruence.
  - by vm_compute.
  - done.
  - exact H.
Defined.

(** With a threshold of zero bits per millisecond all traffic is too much. *)
Definition strict_tables : Relay :=
  set_settings (mkSettings 66 1000 1000 1000 1) tables.

Definition strict_state : RelayState := relay_init (settings strict_tables) 0.

Lemma slow_lane_rule_witness :
  exists r' g' out,
    relay_turn strict_tables "203.0.113.2" "id" 1 0 strict_state late_turn
      = (Continue r', g', out) /\
    r_downgrade r' = true /\
    (forall w nb, Consume (Some w) nb ∈ out -> w = false) /\
    (forall ts o out' w nb, relay_loop "203.0.113.2" "id" 1 0 r' ts = (o, out') ->
       Consume (Some w) nb ∈ out' -> w = true).
Proof.
  destruct (relay_turn strict_tables "203.0.113.2" "id" 1 0 strict_state late_turn)
    as [[[r'| |] g'] out] eqn:Ht; [|by vm_compute in Ht..].
  destruct (slow_lane_rule _ _ _ _ _ _ _ _ _ _ Ht) as (H1 & _ & _ & H3).
  assert (Hd : r_downgrade r' = true) by (vm_compute in Ht; by simplify_eq).
  exists r', g', out. split; [done|]. split; [exact Hd|]. split; [exact H1|by apply H3].
Defined.

(** ** Behaviours that look unintended *)

(** Both ends look for the other before either is filed: both wait, the first is dropped
    from the table by the second, and they do not meet. *)
Definition race : list Event :=
  [calls 1; calls 2; asks 0 "u-1"; asks 1 "u-1"; EvFile 0; EvFile 1].

Example racing_ends_miss_each_other :
  (fun yo => (tasks yo.1 !! 0%nat, tasks yo.1 !! 1%nat, PEERS (relay_of yo.1) !! "u-1"))
    <$> run_events "k" relay_server race
  = Some (Some (TWaiting "u-1"), Some (TWaiting "u-1"), Some (mkStream 1 false false)).
Proof. by vm_compute. Qed.

(** The timer of an end that has long been joined takes out a newer one waiting under the
    same session. *)
Definition stale : list Event :=
  [calls 1; asks 0 "u-1"; EvFile 0; calls 2; asks 1 "u-1"; EvStart 1 0;
   EvTurn 1 (says (FromPeer (TcpInput None)) 10); EvClose 1;
   calls 1; asks 2 "u-1"; EvFile 2; EvTimer 0].

Example stale_timer_drops_newer_end :
  (fun yo => (tasks yo.1 !! 2%nat, PEERS (relay_of yo.1) !! "u-1"))
    <$> run_events "k" relay_server stale
  = Some (Some (TWaiting "u-1"), None).
Proof. by vm_compute. Qed.

(** A client that reaches the listener as an IPv4-mapped IPv6 address is refused by its
    IPv4 address when it connects, but a session it is in is looked up by the mapped
    form: blocking it does not end the session. *)
Definition mapped_client : SocketAddr :=
  SocketV6 (65535 * 2 ^ 32 + 3405803778) 40000 0 0.

Definition blocking : Relay := set_lists ∅ {["203.0.113.2"]} tables.

Definition mapped_call : Accepted := mkAccepted mapped_client false None None.

Example mapped_session_survives_block :
  (handle_connection mapped_call (mkSystem blocking ∅ 0)).1 = mkSystem blocking ∅ 0 /\
  exists r' g' out,
    relay_turn blocking (show_ip (socket_ip mapped_client)) "id" 1 0
      (relay_init settings_default 0) late_turn = (Continue r', g', out).
Proof. split; [by vm_compute|]. vm_compute. by do 3 eexists. Qed.

(** The threshold is truncated after a multiplication in floating point. *)
Example threshold_loses_a_hundredth :
  DOWNGRADE_THRESHOLD_100 (settings (relay_check_cmd "dt 0.29" tables).2) = 28.
Proof. by vm_compute. Qed.

(** ** The process *)

(** hbbr with a speed limit in its environment: a listener fails and the loop starts anew, then
    a command from this machine sets another bandwidth. *)
Definition example_relay_args : HbbrArgs := mkHbbrArgs None "21117" "".
Definition example_relay_environ : Environ := {["LIMIT_SPEED" := Some "1.5"]}.

Definition example_command : Event :=
  EvAccept (mkAccepted (SocketV4 2130706433 5000) false (Some "sb 2") None).

Definition example_relay : Z * Hbbr :=
  match relay_boot example_relay_args example_relay_environ (Some "") None None (fun _ => true) with
  | Ok x => x
  | Err _ => (0, mkHbbr relay_server (mkRelaySocks (Udp (client 0)) (Udp (client 0)) None))
  end.

Definition relay_after (h : Hbbr) (ev : RelayProcEvent) : Hbbr :=
  match relay_proc_step "" example_relay_environ None 21117 h ev with Some (h', _) => h' | None => h end.

Definition example_relay_end : Hbbr :=
  relay_after (relay_after example_relay.2 (RFailed (fun _ => true))) (RTask example_command).

Lemma relay_state_typed_witness :
  example_relay.1 = 21117 /\ LIMIT_SPEED (settings (relay_of (hr_system example_relay_end))) = 1572864 /\
  SINGLE_BANDWIDTH (settings (relay_of (hr_system example_relay_end))) = 2097152 /\
  system_typed (hr_system example_relay_end).
Proof.
  split; [vm_compute; reflexivity|]. split; [vm_compute; reflexivity|]. split; [vm_compute; reflexivity|].
  apply (relay_state_typed "" example_relay_args example_relay_environ (Some "") None None (fun _ => true)
    21117 example_relay.2 example_relay_end [RFailed (fun _ => true); RTask example_command]).
  - vm_compute. reflexivity.
  - eapply (relay_runs_snoc _ _ _ _ _ [RFailed (fun _ => true)]);
      [eapply (relay_runs_snoc _ _ _ _ _ []); [apply relay_runs_nil|]|]; vm_compute; reflexivity.
Defined.
