(* ===== verification/Conformance.v ===== *)
(** * The repository's unit tests, run on the model

    Each function below is one of the [#[test]] functions of the sources, assertion by
    assertion, with the model's functions in place of the program's; all of them evaluate
    to [true].  So the model answers as the authors expect of the code on the inputs they
    chose: the tables, lists and addresses are theirs.  The networks of [ipnetwork] are
    stood for by an address and a prefix length, hbb_common's port by the documented
    21117, and the key and temporary-file libraries by the instances of the witnesses.

    The sines of the platform are power series here, and the GeoIP database of the tests
    is a table with the networks its generator writes.  Tests that open sockets, real
    files of that format or a real network are not here. *)

From S2P Require Import Prelude RustStr RustFloat Net External RelayRoutes RelayGeo Messages.
From S2P Require Import GeoUpdate Guards PeerStore Settings KeyFiles KeyFacts KeyWitnesses.
From Stdlib Require Import Ascii SpecFloat.

Local Open Scope Z_scope.

#[local] Existing Instances example_hbb example_net.

(** ** Assertions *)

(** [Result::unwrap] and [Option::unwrap] of a value the rest of the test is about, and
    their [unwrap_err]. *)
Definition with_ok {E A} (r : result E A) (f : A -> bool) : bool :=
  match r with Ok a => f a | Err _ => false end.
Definition with_err {E A} (r : result E A) (f : E -> bool) : bool :=
  match r with Ok _ => false | Err e => f e end.
Definition with_some {A} (o : option A) (f : A -> bool) : bool :=
  match o with Some a => f a | None => false end.

(** [assert_eq!] on texts, on lists of them, and on floating-point numbers. *)
Definition same {A} `{EqDecision A} (x y : A) : bool := bool_decide (x = y).
Definition is_none {A} (o : option A) : bool := match o with None => true | Some _ => false end.

Definition lit (z : Z) : f64 := f64_of_Z z.

(** ** [relay_routes] *)

Module RouteTests.

(** [s.parse().unwrap()]; the tests' addresses are all well formed. *)
Definition ip (s : string) : IpAddr := default (V4 0) (parse_ip s).

(** A text of several lines. *)
Definition text (ls : list string) : string := join (String LF "") ls.

Definition TABLE : string := text
  [""; "        # home is near HK, school is near Shanghai";
   "        203.0.113.0/24   hk.example.com:21117=38, sh.example.com:21117=95";
   "        198.51.100.0/22  sh.example.com:21117=12  hk.example.com:21117=80"; "    "].

Definition dropped_for (entry why : string) : bool :=
  let '(kept, dropped) := parse_relay_list ("ok.example.com," +:+ entry) in
  same kept ["ok.example.com"] &&
  match dropped with
  | [(_, p)] => contains_str why (entry_problem_text p)
  | _ => false
  end.

Definition a_relay_list_is_trimmed_and_checked_but_never_resolved : bool :=
  let '(kept, dropped) := parse_relay_list
    "a.example.com:31107, b.example.com:31107 ,no-such-host.invalid,[::1]:21117" in
  same kept ["a.example.com:31107"; "b.example.com:31107"; "no-such-host.invalid"; "[::1]:21117"] &&
  same (length dropped) 0%nat &&
  forallb (fun '(entry, why) => dropped_for entry why)
    [("http://a.example.com:21117", "URL"); ("a.example.com:abc", "not a port");
     ("a.example.com:0", "not a port"); ("a.example.com:70000", "not a port");
     ("::1", "IPv6"); (":21117", "no host"); ("a b", "space")] &&
  (let '(kept, dropped) := parse_relay_list "a.example.com,A.example.com:21117" in
   same kept ["a.example.com"] &&
   with_some (head dropped) (fun d => same (entry_problem_text d.2) "listed twice")) &&
  same (parse_relay_list "").1 [].

Definition both : list string := ["hk.example.com:21117"; "sh.example.com:21117"].

Definition a_session_costs_the_sum_of_both_legs : bool :=
  with_ok (parse TABLE) (fun t =>
    with_some (choose t both (ip "203.0.113.7") (ip "198.51.100.9")) (fun c =>
      same (choice_relay c) "sh.example.com:21117" && SFeqb (cost_ms c) (lit 107) &&
      with_some (head (choice_costs c)) (fun '(r, ms) => same r "hk.example.com:21117" && SFeqb ms (lit 118))) &&
    with_some (choose t both (ip "203.0.113.7") (ip "203.0.113.200")) (fun c =>
      same (choice_relay c) "hk.example.com:21117")).

(** The derived [PartialEq] of [Choice]. *)
Definition same_choice (a b : Choice) : bool :=
  same (choice_relay a) (choice_relay b) && SFeqb (cost_ms a) (cost_ms b) &&
  same (length (choice_costs a)) (length (choice_costs b)) &&
  forallb (fun '((r, x), (r', y)) => same r r' && SFeqb x y)
    (combine (choice_costs a) (choice_costs b)).

Definition the_answer_does_not_depend_on_who_is_the_controller : bool :=
  with_ok (parse TABLE) (fun t =>
    let a := ip "203.0.113.7" in let b := ip "198.51.100.9" in
    match choose t both a b, choose t both b a with
    | Some x, Some y => same_choice x y
    | None, None => true
    | _, _ => false
    end).

Definition the_most_specific_network_wins : bool :=
  with_ok (parse (text ["10.0.0.0/8 a:1=50,b:1=10"; "10.1.0.0/16 a:1=5,b:1=90"; "10.1.2.0/24 a:1=70,b:1=7"]))
    (fun t =>
      let pick s := choice_relay <$> choose t ["a:1"; "b:1"] (ip s) (ip "192.0.2.1") in
      same (pick "10.9.9.9") (Some "b:1") && same (pick "10.1.9.9") (Some "a:1") &&
      same (pick "10.1.2.3") (Some "b:1")).

Definition a_catch_all_line_covers_roaming_addresses_and_loses_to_any_specific_line : bool :=
  let healthy := ["sh:1"; "hk:1"] in
  with_ok (parse (text ["203.0.113.0/24 hk:1=10,sh:1=50"; "0.0.0.0/0 hk:1=0,sh:1=5"; "::/0 hk:1=0,sh:1=5"]))
    (fun t =>
      let pick a b relay cost :=
        with_some (choose t healthy (ip a) (ip b)) (fun c =>
          same (choice_relay c) relay && SFeqb (cost_ms c) (lit cost)) in
      pick "8.8.8.8" "203.0.113.5" "hk:1" 10 && pick "203.0.113.5" "203.0.113.6" "hk:1" 20 &&
      pick "8.8.8.8" "1.1.1.1" "hk:1" 0 && pick "2001:db8::1" "2001:db8::2" "hk:1" 0) &&
  with_ok (parse "203.0.113.0/24 hk:1=10,sh:1=50") (fun plain =>
    is_none (choose plain healthy (ip "8.8.8.8") (ip "1.1.1.1"))).

Definition one_known_side_is_enough_and_two_unknown_sides_defer : bool :=
  with_ok (parse TABLE) (fun t =>
    with_some (choose t both (ip "203.0.113.7") (ip "192.0.2.1")) (fun c =>
      same (choice_relay c) "hk.example.com:21117" && SFeqb (cost_ms c) (lit 38)) &&
    is_none (choose t both (ip "192.0.2.1") (ip "192.0.2.2"))).

Definition only_healthy_relays_are_considered : bool :=
  with_ok (parse TABLE) (fun t =>
    with_some (choose t ["sh.example.com:21117"] (ip "203.0.113.7") (ip "203.0.113.8")) (fun c =>
      same (choice_relay c) "sh.example.com:21117") &&
    is_none (choose t [] (ip "203.0.113.7") (ip "203.0.113.8"))).

Definition a_relay_the_table_never_mentions_loses_to_one_it_does_but_can_still_win_alone : bool :=
  with_ok (parse "10.0.0.0/8 a:1=900") (fun t =>
    with_some (choose t ["z:1"; "a:1"] (ip "10.0.0.1") (ip "10.0.0.2")) (fun c =>
      same (choice_relay c) "a:1") &&
    with_some (choose t ["z:1"; "y:1"] (ip "10.0.0.1") (ip "10.0.0.2")) (fun c =>
      same (choice_relay c) "z:1")).

Definition a_relay_written_without_a_port_means_the_default_port : bool :=
  with_ok (parse "10.0.0.0/8 HK.Example.com=5, sh.example.com:21117=50") (fun t =>
    with_some (choose t ["sh.example.com"; "hk.example.com"] (ip "10.0.0.1") (ip "10.0.0.2")) (fun c =>
      same (choice_relay c) "hk.example.com")).

Definition ties_go_to_the_earliest : bool :=
  with_ok (parse "10.0.0.0/8 a:1=10,b:1=10") (fun t =>
    with_some (choose t ["b:1"; "a:1"] (ip "10.0.0.1") (ip "10.0.0.2")) (fun c =>
      same (choice_relay c) "b:1")).

Definition ipv6_and_wrapped_ipv4_addresses_are_matched : bool :=
  with_ok (parse (text ["2001:db8::/32 a:1=5,b:1=50"; "192.0.2.0/24 a:1=50,b:1=5"])) (fun t =>
    let healthy := ["a:1"; "b:1"] in
    with_some (choose t healthy (ip "2001:db8::1") (ip "2001:db8::2")) (fun c =>
      same (choice_relay c) "a:1") &&
    with_some (choose t healthy (ip "::ffff:192.0.2.9") (ip "192.0.2.10")) (fun c =>
      same (choice_relay c) "b:1")).

Definition bad_files_are_refused_with_the_line_number : bool :=
  forallb (fun '(s, want) => with_err (parse s) (fun e => contains_str want (route_error_text "" e)))
    [("203.0.113.0/24", "line 1: 203.0.113.0/24 lists no relays");
     ("nonsense a:1=5", "line 1: " +:+ show_debug "nonsense" +:+ " is not a network");
     ("10.0.0.0/8 a:1", "line 1: " +:+ show_debug "a:1" +:+ " is not relay=milliseconds");
     ("10.0.0.0/8 a:1=fast", "line 1: " +:+ show_debug "fast" +:+ " is not a number");
     ("10.0.0.0/8 a:1=-3", "must be a finite, non-negative");
     ("10.0.0.0/8 a:1=NaN", "must be a finite, non-negative");
     ("10.0.0.0/8 =5", "has no relay name");
     ("10.0.0.0/8 a:1=5,a:1=6", "listed twice");
     (text ["# fine"; "10.0.0.0/8 a:1=5"; "10.0.0.0/8 b:1=5"], "line 3: 10.0.0.0/8 appears twice");
     ("# nothing here", "no routes found")].

(** [tools/relay-rtt/testdata/routes-sample.txt], which the test includes. *)
Definition GENERATED : string := text
  ["# Relay routing table, generated by relay_rtt.py routes.";
   "# basis: worst (peak hours 19-23, site-local); loss counted as 10 ms per 1%.";
   "# Each relay must be written exactly as hbbs was started with it (-r).";
   "# Format: network  relay=ms[,relay=ms ...]";
   "";
   "# home";
   "203.0.113.0/24  hk.example.com:31107=40.0,sh.example.com:31107=96.0,fra.example.com:31107=210.0";
   "# school";
   "198.51.100.0/24  sh.example.com:31107=14.0,hk.example.com:31107=82.0,fra.example.com:31107=190.0";
   "2001:db8:1::/48  sh.example.com:31107=14.0,hk.example.com:31107=82.0,fra.example.com:31107=190.0";
   "";
   "# anything else: the average of all sites";
   "0.0.0.0/0  sh.example.com:31107=55.0,hk.example.com:31107=61.0,fra.example.com:31107=200.0";
   "::/0  sh.example.com:31107=55.0,hk.example.com:31107=61.0,fra.example.com:31107=200.0"; ""].

Definition the_file_the_measurement_tool_writes_is_the_file_this_parser_reads : bool :=
  with_ok (parse GENERATED) (fun t =>
    let healthy := ["hk.example.com:31107"; "sh.example.com:31107"; "fra.example.com:31107"] in
    let pick a b := choose t healthy (ip a) (ip b) in
    same (rule_count t) 5%nat &&
    same (choice_relay <$> pick "203.0.113.5" "203.0.113.99") (Some "hk.example.com:31107") &&
    with_some (pick "203.0.113.5" "198.51.100.7") (fun c =>
      same (choice_relay c) "sh.example.com:31107" && SFeqb (cost_ms c) (lit 110)) &&
    same (choice_relay <$> pick "2001:db8:1::7" "2001:db8:1::8") (Some "sh.example.com:31107") &&
    same (choice_relay <$> pick "192.0.2.1" "192.0.2.2") (Some "sh.example.com:31107")).

Definition comments_blank_lines_and_trailing_comments_are_ignored : bool :=
  with_ok (parse (text [""; "# c"; ""; "10.0.0.0/8 a:1=5 # trailing"; ""])) (fun t =>
    same (rule_count t) 1%nat).

Definition all : list bool :=
  [a_relay_list_is_trimmed_and_checked_but_never_resolved;
   a_session_costs_the_sum_of_both_legs;
   the_answer_does_not_depend_on_who_is_the_controller;
   the_most_specific_network_wins;
   a_catch_all_line_covers_roaming_addresses_and_loses_to_any_specific_line;
   one_known_side_is_enough_and_two_unknown_sides_defer;
   only_healthy_relays_are_considered;
   a_relay_the_table_never_mentions_loses_to_one_it_does_but_can_still_win_alone;
   a_relay_written_without_a_port_means_the_default_port;
   ties_go_to_the_earliest;
   ipv6_and_wrapped_ipv4_addresses_are_matched;
   bad_files_are_refused_with_the_line_number;
   the_file_the_measurement_tool_writes_is_the_file_this_parser_reads;
   comments_blank_lines_and_trailing_comments_are_ignored].

End RouteTests.

Example route_tests_pass : forallb id RouteTests.all = true.
Proof. vm_compute. reflexivity. Qed.

(** ** [relay_geo] *)

(** Sine, cosine and arc sine by their series, on the angles the distances need. *)
Fixpoint series (n : nat) (k : Z) (x2 term : f64) : f64 :=
  match n with
  | O => F0
  | S n' =>
      f64_add term
        (series n' (k + 2) x2 (f64_mul term (f64_div (f64_sub F0 x2) (f64_of_Z (k * (k + 1))))))
  end.

Fixpoint atan_series (n : nat) (k : Z) (z2 power : f64) : f64 :=
  match n with
  | O => F0
  | S n' => f64_add (f64_div power (f64_of_Z k)) (atan_series n' (k + 2) z2 (f64_mul power (f64_sub F0 z2)))
  end.

(** The half angle: [tan (a / 2)] from [tan a]. *)
Definition half_tan (z : f64) : f64 := f64_div z (f64_add F1 (f64_sqrt (f64_add F1 (square z)))).

Definition series_trig : FloatTrig := {|
  f64_sin x := series 20 2 (square x) x;
  f64_cos x := series 20 1 (square x) F1;
  f64_asin y :=
    let z := half_tan (half_tan (f64_div y (f64_add F1 (f64_sqrt (f64_sub F1 (square y)))))) in
    f64_mul (f64_of_Z 8) (atan_series 20 1 (square z) z);
|}.

(** The three networks of [tests/data/geo-test.mmdb] and the places they are in. *)
Definition fixture_place (ip : IpAddr) : option (string * string) :=
  if bool_decide (ip_mask 16 ip = V4 170393600) then Some ("22.3", "114.2")
  else if bool_decide (ip_mask 16 ip = V4 170459136) then Some ("51.5", "-0.1")
  else if bool_decide (ip_mask 16 ip = V4 170524672) then Some ("40.7", "-74.0")
  else if bool_decide (ip_mask 48 ip = V6 (Z.shiftl 0x20010db80041 80)) then Some ("51.5", "-0.1")
  else None.

Definition fixture_maxmind : MaxMind := {|
  Reader := unit;
  reader_type _ := "GeoIP2-City";
  reader_nodes _ := 100;
  reader_latitude _ ip := let! (a, _) := fixture_place ip in parse_f64 a;
  reader_longitude _ ip := let! (_, b) := fixture_place ip in parse_f64 b;
|}.

#[local] Existing Instances series_trig fixture_maxmind.

Module GeoTests.

Definition num (s : string) : f64 := default S754_nan (parse_f64 s).
Definition HK : Point := mkPoint (num "22.32") (num "114.17").
Definition SH : Point := mkPoint (num "31.23") (num "121.47").
Definition LON : Point := mkPoint (num "51.51") (num "-0.13").

(** [f64::abs]. *)
Definition f64_abs (x : f64) : f64 := SFabs x.

Definition near (got want : f64) : bool :=
  f64_lt (f64_div (f64_abs (f64_sub got want)) want) (num "0.03").

Definition distances_are_about_right : bool :=
  near (distance_km HK SH) (lit 1230) && near (distance_km HK LON) (lit 9640) &&
  SFeqb (distance_km HK HK) F0 &&
  f64_lt (distance_km (mkPoint (num "0.0") (num "179.0")) (mkPoint (num "0.0") (num "-179.0"))) (lit 300).

Definition locations_parse_with_comments_and_default_port : bool :=
  with_ok (loc_parse (RouteTests.text
    ["# where the relays are"; "hk.example.com  22.32, 114.17  # Hong Kong";
     "sh.example.com:21117 31.23 121.47"; ""])) (fun l =>
    same (loc_len l) 2%nat &&
    let costs := costs_from l HK in
    with_some (costs !! "hk.example.com:21117") (fun c => f64_lt c F1) &&
    with_some (costs !! "sh.example.com:21117") (fun sh =>
      f64_lt (f64_abs (f64_sub sh (f64_div (lit 1230) KM_PER_MS))) F1)).

Definition fixture : GeoDb := geodb_of_reader (tt : Reader).
Definition at_ (s : string) : option Point := geodb_locate fixture (RouteTests.ip s).

Definition close (x : f64) (want : string) : bool :=
  f64_lt (f64_abs (f64_sub x (num want))) (num "1e-9").
Definition same_point (a b : option Point) : bool :=
  match a, b with
  | Some p, Some q => SFeqb (lat p) (lat q) && SFeqb (lon p) (lon q)
  | None, None => true
  | _, _ => false
  end.

Definition the_database_locates_known_ranges_and_only_those : bool :=
  with_some (at_ "10.40.7.7") (fun hk =>
    close (lat hk) "22.3" && close (lon hk) "114.2" &&
    with_some (at_ "10.41.0.1") (fun london =>
      close (lat london) "51.5" &&
      same_point (at_ "2001:db8:41::9") (Some london) &&
      same_point (at_ "::ffff:10.40.7.7") (Some hk) &&
      same_point (at_ "8.8.8.8") None && same_point (at_ "192.168.1.1") None)).

Definition the_nearest_relay_by_location_wins_for_an_address_the_table_never_saw : bool :=
  with_ok (loc_parse (RouteTests.text
    ["hk.example.com 22.3,114.2"; "lon.example.com 51.5,-0.1"; "ny.example.com 40.7,-74.0"])) (fun locations =>
    let healthy := normalize <$> ["hk.example.com"; "lon.example.com"; "ny.example.com"] in
    let side s := costs_from locations <$> at_ s in
    let pick a b := choice_relay <$>
      (let! x := side a in let! y := side b in choose_from healthy [x; y]) in
    same (pick "10.40.0.1" "10.40.0.2") (Some "hk.example.com:21117") &&
    same (pick "10.41.0.1" "10.41.0.2") (Some "lon.example.com:21117") &&
    same (pick "10.42.0.1" "10.42.0.2") (Some "ny.example.com:21117") &&
    (let across := pick "10.41.0.1" "10.42.0.1" in
     same across (Some "lon.example.com:21117") || same across (Some "ny.example.com:21117"))).

Definition bad_locations_are_refused_with_the_line_number : bool :=
  forallb (fun '(ls, needle) =>
    with_err (loc_parse (RouteTests.text ls)) (fun e => contains_str needle (loc_error_text "" e)))
    [(["hk.example.com"; ""], "line 1"); (["a:1 1,2"; "b:1 91,0"; ""], "line 2");
     (["a:1 1,200"; ""], "line 1"); (["a:1 north,east"; ""], "not a latitude");
     (["a:1 1,2,3"; ""], "exactly"); (["a:1 1,2"; "a:1 3,4"; ""], "twice");
     (["# nothing"; ""], "no relay locations")].

Definition all : list bool :=
  [distances_are_about_right; locations_parse_with_comments_and_default_port;
   the_database_locates_known_ranges_and_only_those;
   the_nearest_relay_by_location_wins_for_an_address_the_table_never_saw;
   bad_locations_are_refused_with_the_line_number].

End GeoTests.

Example geo_tests_pass : forallb id GeoTests.all = true.
Proof. vm_compute. reflexivity. Qed.

(** ** [common]: arguments and addresses *)

Module SettingTests.

Definition spellings : list string :=
  ["RUSTDESK-CONFIG-ALIAS-TEST"; "RUSTDESK_CONFIG_ALIAS_TEST"; "rustdesk-config-alias-test";
   "rustdesk_config_alias_test"; "RustDesk_Config-Alias_Test"].

(** [std::env::set_var] and [remove_var], on an environment without these names. *)
Definition set_var (name value : string) (e : Environ) : Environ := <[name := Some value]> e.

Definition argument_names_ignore_case_and_separator : bool :=
  let e : Environ := ∅ in
  forallb (fun alias => same (get_arg "RUSTDESK_CONFIG_ALIAS_TEST" (set_var alias alias e)) alias) spellings &&
  with_some (set_arg "rustdesk_config_alias_test" "normalized" e) (fun e =>
    same (env_var e "RUSTDESK-CONFIG-ALIAS-TEST") (Some "normalized") &&
    let e := set_var "RUSTDESK_CONFIG_ALIAS_TEST" "inherited" e in
    with_some (set_arg "rustdesk-config-alias-test" "higher-priority" e) (fun e =>
      same (get_arg "rustdesk_config_alias_test" e) "higher-priority")).

Definition parses_bind_address : bool :=
  with_ok (parse_bind_address "") (fun a => same a None) &&
  with_ok (parse_bind_address "127.0.0.1") (fun a => same a (Some LOCALHOST_V4)) &&
  with_ok (parse_bind_address "::1") (fun a => same a (Some LOCALHOST_V6)) &&
  with_err (parse_bind_address "not-an-ip") (fun _ => true).

(** The address a listener is asked to listen at. *)
Definition local_ip (l : Listen) : option IpAddr :=
  match l with ListenAt a => Some (socket_ip a) | ListenAny _ => None end.

Definition tcp_listener_uses_bind_address : bool :=
  same (local_ip (listen_tcp (Some LOCALHOST_V4) 0)) (Some LOCALHOST_V4).

Definition console_addr_only_when_bind_does_not_cover_ipv4_localhost : bool :=
  forallb (fun bind_addr => same (console_addr bind_addr 21117) None)
    [None; Some UNSPECIFIED_V4; Some UNSPECIFIED_V6; Some LOCALHOST_V4] &&
  forallb (fun bind_addr =>
    same (console_addr bind_addr 21117) (Some (socket_new LOCALHOST_V4 21117)))
    [Some (RouteTests.ip "192.0.2.1"); Some (RouteTests.ip "2001:db8::1"); Some LOCALHOST_V6].

Definition console_listener_binds_ipv4_localhost : bool :=
  with_some (listen_console (Some (RouteTests.ip "192.0.2.1")) 0) (fun l =>
    same (local_ip l) (Some LOCALHOST_V4)) &&
  is_none (listen_console None 0) && is_none (listen_console (Some LOCALHOST_V4) 0).

Definition all : list bool :=
  [argument_names_ignore_case_and_separator; parses_bind_address; tcp_listener_uses_bind_address;
   console_addr_only_when_bind_does_not_cover_ipv4_localhost; console_listener_binds_ipv4_localhost].

End SettingTests.

Example setting_tests_pass : forallb id SettingTests.all = true.
Proof. vm_compute. reflexivity. Qed.

(** ** [geo_update] *)

Module MonthTests.

Definition is_month (t : Month) (y m : Z) : bool := (year t =? y) && (month t =? m).

Definition months_and_labels : bool :=
  same (label (mkMonth 2026 3)) "2026-03" &&
  is_month (previous (mkMonth 2026 3)) 2026 2 && is_month (previous (mkMonth 2026 1)) 2025 12 &&
  String.ltb (label (mkMonth 2025 12)) (label (mkMonth 2026 1)) &&
  String.ltb (label (mkMonth 2026 9)) (label (mkMonth 2026 10)).

(** The folder, as the test's writes leave it. *)
Definition the_version_record_is_only_trusted_beside_a_file : bool :=
  let g := set_version (Some ("2026-10" +:+ String LF "")) (mkGeoFiles None None None) in
  same (installed g) None &&
  let g := set_geo_db (Some "x") g in
  same (installed g) (Some "2026-10") &&
  let g := set_version (Some "garbage") g in
  same (installed g) None.

Definition all : list bool := [months_and_labels; the_version_record_is_only_trusted_beside_a_file].

End MonthTests.

Example month_tests_pass : forallb id MonthTests.all = true.
Proof. vm_compute. reflexivity. Qed.

(** ** [rendezvous_server] *)

Module PunchTests.

(** The test reads the bound from the environment; here it is given.  The requests come
    within a moment. *)
Definition peer_name (i : nat) : string := "peer" +:+ show_Z (Z.of_nat (i mod 31)).

Definition punch_reqs_bounded (max : nat) : bool :=
  let lock := fold_left (fun lock i => record_punch_req max 0 "1.2.3.4" "5.6.7.8" (peer_name i) lock)
    (seq 0 (Nat.max (max * 2) 1)) [] in
  same (length lock) max &&
  ((max =? 0)%nat ||
   with_some (head lock) (fun e => same (to_id e) (peer_name max)) &&
   with_some (last lock) (fun e => same (to_id e) (peer_name (max * 2 - 1)))).

End PunchTests.

Example punch_tests_pass : forallb PunchTests.punch_reqs_bounded [0; 1; 2; 30; 31; 32; 100]%nat = true.
Proof. vm_compute. reflexivity. Qed.

(** ** [database] *)

Module InsertTest.

(** The test's jobs: inserting a row and looking one up. *)
Inductive Job := Insert (id : string) | Get (id : string).

(** The jobs in the order the connections take them; [unwrap] wants every answer to be
    good. *)
Fixpoint insert_test_run (guids : nat -> Bytes) (n : nat) (jobs : list Job) (db : Database) : bool :=
  match jobs with
  | [] => true
  | Insert id :: jobs' =>
      match db_insert_peer true (guids n) id "" "" "" db with
      | Ok (_, db') => insert_test_run guids (S n) jobs' db'
      | Err _ => false
      end
  | Get id :: jobs' => is_ok (db_get_peer true id db) && insert_test_run guids n jobs' db
  end.

Definition inserted (jobs : list Job) : list string :=
  omap (fun j => match j with Insert id => Some id | Get _ => None end) jobs.

(** The ids of the test, ten thousand of them there. *)
Definition ids (count : nat) : list string := (fun i => show_Z (Z.of_nat i)) <$> seq 0 count.

End InsertTest.

Lemma no_row_false {B} `{EqDecision B} (f : Row -> B) (x : B) (l : list Row) :
  x ∉ (f <$> l) -> existsb (fun r => bool_decide (f r = x)) l = false.
Proof.
  rewrite existsb_false_forall, Forall_forall. intros H r Hr. apply bool_decide_eq_false_2.
  intros <-. apply H, list_elem_of_fmap. eauto.
Qed.

(** However the jobs interleave, none of them fails: the ids are different, and so are the
    fresh guids. *)
Lemma insert_run guids n jobs db :
  (forall i j, guids i = guids j -> i = j) -> NoDup (InsertTest.inserted jobs) ->
  (forall id, id ∈ InsertTest.inserted jobs -> id ∉ (row_id <$> rows db)) ->
  (forall i, (n <= i)%nat -> guids i ∉ (row_guid <$> rows db)) ->
  InsertTest.insert_test_run guids n jobs db = true.
Proof.
  intros Hinj. revert n db. induction jobs as [|[id|id] jobs IH]; intros n db Hnd Hid Hg; [done| |].
  - cbn [InsertTest.inserted omap list_omap] in Hnd, Hid. apply NoDup_cons in Hnd as [Hni Hnd].
    assert (E : db_insert_peer true (guids n) id "" "" "" db
      = Ok (guids n, mkDb (rows db ++ [mkRow (guids n) id "" "" None "" None]))).
    { unfold db_insert_peer. cbn [negb].
      rewrite !no_row_false; [done|by apply Hid, elem_of_cons; left|by apply Hg]. }
    cbn [InsertTest.insert_test_run]. rewrite E. apply IH; [done| |]; cbn [rows]; rewrite fmap_app;
      cbn [fmap list_fmap row_id row_guid].
    + intros id' Hin. rewrite elem_of_app, list_elem_of_singleton.
      intros [H| ->]; [|done]. revert H. apply Hid, elem_of_cons. by right.
    + intros i Hi. rewrite elem_of_app, list_elem_of_singleton.
      intros [H|H]; [revert H; apply Hg; lia|]. apply Hinj in H. lia.
  - cbn [InsertTest.insert_test_run]. unfold db_get_peer. by apply IH.
Qed.

Example insert_test_passes guids jobs :
  (forall i j, guids i = guids j -> i = j) ->
  InsertTest.inserted jobs ≡ₚ InsertTest.ids 10000 -> InsertTest.insert_test_run guids 0 jobs (mkDb []) = true.
Proof.
  intros Hinj Hp. apply insert_run; [done| |by intros ? _ ?%elem_of_nil|by intros ? _ ?%elem_of_nil].
  rewrite Hp. unfold InsertTest.ids. apply (NoDup_fmap_2 _), NoDup_seq.
Qed.

(** ** [common]: key files *)

#[local] Existing Instances example_keys example_temp.

#[export] Instance Node_eq_dec : EqDecision Node.
Proof. solve_decision. Defined.
#[export] Instance Inode_eq_dec : EqDecision Inode.
Proof. solve_decision. Defined.

Module KeyTests.

(** *** What the tests themselves do to the files *)

Definition symlink (target p : FPath) : K unit :=
  sys intact (fun fs =>
    match fs_names fs !! p with
    | Some _ => Err AlreadyExists
    | None => Ok (tt, mkFS (<[p := NLink target]> (fs_names fs)) (fs_inodes fs))
    end).

Definition make (p : FPath) (i : Inode) : K unit :=
  sys intact (fun fs =>
    match fs_names fs !! p with
    | Some _ => Err AlreadyExists
    | None =>
        let h := fresh (dom (fs_inodes fs)) in
        Ok (tt, mkFS (<[p := NFile h]> (fs_names fs)) (<[h := i]> (fs_inodes fs)))
    end).

(** [fs::write]: the file is made or emptied, and written. *)
Definition fs_write (os : Os) (p : FPath) (s : string) : K unit :=
  r ← attempt (open_read p);
  match r with
  | Ok h =>
      sys intact (fun fs =>
        let i := inode_of fs h in Ok (tt, set_inode h (mkInode s (i_mode i) (i_dir i)) fs))
  | Err _ => make p (mkInode s (os_create os DEFAULT_FILE_MODE) false)
  end.

Definition create_dir (p : FPath) : K unit := make p (mkInode "" 493 true).
(** [fs::remove_dir]; the tests know it is one. *)
Definition remove_dir (p : FPath) : K unit := remove_file p.

Definition set_permissions (os : Os) (p : FPath) (mode : Z) : K unit :=
  h ← open_read p; fchmod os h mode.
Definition permissions (p : FPath) : K Z :=
  h ← open_read p; m ← fstat_mode h; mret (Z.land m 511).
Definition is_symlink (p : FPath) : K bool :=
  r ← attempt (lstat p); mret (match r with Ok (NLink _) => true | _ => false end).
Definition ino (p : FPath) : K nat := open_read p.

(** An assertion that does not hold ends the test; so does an [unwrap] of an error. *)
Definition assert (b : bool) : K unit := kensure b (Io OtherIo).
Definition assert_err {A} (m : K A) : K unit := r ← attempt m; assert (negb (is_ok r)).
Definition assert_exists (p : FPath) (b : bool) : K unit := found ← path_exists p; assert (Bool.eqb found b).
Definition assert_contents (p : FPath) (s : string) : K unit := c ← read_to_string p; assert (same c s).

Definition passes (m : K unit) : bool := is_ok (m (mkWorld no_files [] [])).1.

(** *** Files that may not grow: the first write fails where the limit is *)

Definition with_fault {A} (k n : nat) (m : K A) : K A := fun w =>
  let '(r, w') := m (mkWorld (w_fs w) (replicate k fine ++ [mkHap (fun fs => fs) (Some n)]) (w_hist w)) in
  (r, mkWorld (w_fs w') [] (w_hist w')).

(** The states of the contents a run goes through. *)
Definition contents_seen {A} (m : K A) (w : World) : list (list (nat * Inode)) :=
  (fun fs => map_to_list (fs_inodes fs)) <$> w_hist (m w).2.

(** The first call that writes is the first at which it matters how much a failing call
    has written. *)
Definition first_write {A} (m : K A) (w : World) : nat :=
  default 0%nat (head (filter (fun k =>
    contents_seen (with_fault k 0 m) w <> contents_seen (with_fault k 1 m) w) (seq 0 40))).

Definition with_file_size_limit {A} (limit : nat) (m : K A) : K A := fun w =>
  with_fault (first_write m w) limit m w.

(** *** The tests *)

Definition in_dir (name : string) : FPath := (true, ["tmp"; "dir"; name]).
Definition link_name (i : nat) : FPath := in_dir ("link-" +:+ show_Z (Z.of_nat i)).

Fixpoint make_links (indices : list nat) (path : FPath) : K FPath :=
  match indices with
  | [] => mret path
  | i :: rest => symlink path (link_name i);; make_links rest (link_name i)
  end.

Definition assert_too_many (p : FPath) : K unit :=
  r ← attempt (resolve_key_path p);
  assert (match r with Err TooManySymlinks => true | _ => false end).

Definition key_path_symlinks_are_bounded : bool := passes (
  let target := in_dir "target" in
  path ← make_links (seq 1 (MAX_KEY_SYMLINKS - 1)) target;
  resolved ← resolve_key_path path;
  assert (same resolved target);;
  symlink path (in_dir "extra");;
  symlink (in_dir "cycle") (in_dir "cycle");;
  assert_too_many (in_dir "extra");;
  assert_too_many (in_dir "cycle")).

Definition umask_022 : Os := example_os.
Definition umask_777 : Os := mkOs (fun m => Z.land m (Z.lnot 511)) (fun m => m).

Definition gen (os : Os) : K string := '(pk, _) ← gen_sk os example_chance 0; mret pk.

Definition other_key : string := b64_encode "fedcba9876543210fedcba9876543210".

Definition assert_public_key_write_failure (public_key : string) : K unit :=
  remove_file pub_file;;
  assert_err (with_file_size_limit 16 (gen umask_022));;
  assert_exists pub_file false;;
  pk ← gen umask_022;
  assert (same pk public_key);;
  assert_contents pub_file public_key.

(** [prepare]: a temporary file with a public key in it. *)
Definition prepare (name pk : string) : K FPath :=
  let t := (false, [".tmp" +:+ name]) in make t (mkInode pk 384 false);; mret t.

Definition assert_public_key_recovery : K string :=
  let os := umask_022 in
  fs_write os pub_file other_key;;
  assert_err (gen os);;
  assert_exists sk_file false;;
  assert_contents pub_file other_key;;
  remove_file pub_file;;
  public_key ← gen os;
  private_key ← read_to_string sk_file;
  remove_file pub_file;;
  create_dir pub_file;;
  assert_err (gen os);;
  remove_dir pub_file;;
  pk ← gen os;
  assert (same pk public_key);;
  assert_contents pub_file public_key;;
  assert_public_key_write_failure public_key;;
  remove_file pub_file;;
  pending ← prepare "1" public_key;
  gen os;;
  inode ← ino pub_file;
  publish_public_key pending pub_file public_key;;
  wrong ← prepare "2" other_key;
  assert_err (publish_public_key wrong pub_file other_key);;
  inode' ← ino pub_file;
  assert (same inode' inode);;
  assert_contents pub_file public_key;;
  fs_write os pub_file other_key;;
  assert_err (gen os);;
  assert_contents sk_file private_key;;
  assert_contents pub_file other_key;;
  fs_write os pub_file public_key;;
  mret public_key.

Definition key_alias : FPath := (false, ["key-alias"]).
Definition key_target : FPath := (false, ["key-target"]).

Definition assert_failed_write (limit : nat) : K unit :=
  assert_err (with_file_size_limit limit (gen umask_022));;
  a ← is_symlink sk_file; b ← is_symlink key_alias;
  assert (a && b);;
  assert_exists key_target false;;
  assert_exists pub_file false.

Definition assert_mode (mode : Z) : K unit := m ← permissions sk_file; assert (m =? mode).

Definition assert_private_key_file_permissions : K unit :=
  let os := umask_022 in
  symlink key_alias sk_file;;
  symlink key_target key_alias;;
  assert_failed_write 0;;
  assert_failed_write 16;;
  public_key ← assert_public_key_recovery;
  assert_mode 384;;
  contents ← read_to_string sk_file;
  set_permissions os sk_file 420;;
  file ← open_read sk_file;
  assert_err (set_private_key_permissions os file true);;
  assert_mode 420;;
  gen os;;
  assert_mode 384;;
  assert_contents sk_file contents;;
  assert_err (create_private_key_file os sk_file "do not overwrite");;
  assert_contents sk_file contents;;
  set_permissions os sk_file 256;;
  set_permissions os pub_file 256;;
  pk ← gen os;
  assert (same pk public_key);;
  assert_mode 256;;
  remove_file sk_file;;
  remove_file pub_file;;
  gen umask_777;;
  assert_mode 384;;
  contents ← read_to_string sk_file;
  gen umask_777;;
  assert_contents sk_file contents.

(** The test proper runs in a process of its own, for its umask. *)
Definition private_key_file_permissions : bool := passes assert_private_key_file_permissions.

(** The limit really cuts the key off in the middle: a file with sixteen bytes of it is
    there for a moment. *)
Definition limit_cuts_the_key : bool :=
  existsb (fun fs => existsb (fun '(_, i) => (String.length (i_contents i) =? 16)%nat)
                       (map_to_list (fs_inodes fs)))
    (w_hist (with_file_size_limit 16 (gen umask_022) (mkWorld no_files [] [])).2).

End KeyTests.

Example key_tests_pass :
  KeyTests.key_path_symlinks_are_bounded && KeyTests.private_key_file_permissions &&
  KeyTests.limit_cuts_the_key = true.
Proof. vm_compute. reflexivity. Qed.
